(* ===== verification/_CoqProject ===== *)
-Q . S2P
Prelude.v
NetBuffer.v
NumText.v
TimeText.v
Address.v
LogText.v
LogProcess.v
Monitor.v
Latch.v
Threads.v
AsyncLog.v
Pool.v
Timers.v
Polling.v
Loop.v
TimedLoop.v
Reactor.v
Connection.v
Server.v
ServerNet.v
Descriptors.v
Client.v
Http.v
HttpSession.v
Framing.v
Glue.v
Codec.v
TypedCodec.v
Rpc.v
RpcWire.v
RpcPrograms.v
