(* ===== verification/Prelude.v ===== *)
(** * A verification of libel, a reactor-style C++ network library

    The library (src/libel) has two layers.  [base] formats numbers, times and log
    lines and moves log lines from the threads that log to files; it also has a task
    pool.  [net] is built around one event loop per thread: the loop waits in a
    poller for events on file descriptors, dispatches them to channels, runs timers
    through a timer queue, and runs functors other threads have queued.  TCP
    connections own a channel and two byte buffers; an acceptor and a server create
    them on the passive side, a connector and a client on the active side.  On top
    of connections there is an HTTP server ([net/http]), a codec for protobuf
    messages ([net/protobuf]) and remote procedure calls ([net/protorpc]).

    ** How the code is modelled

    A C++ object is a record with the source's member names, a member function a
    function from the record to an [outcome]: the new record, or the fault (failed
    assertion, abort, access out of bounds, exception, loop out of fuel) that stops
    it.  Machine integers are [Z] with their wrap-around written out, bytes are
    [ascii], pointers into a buffer are offsets, [std::map] and [std::set] are
    [gmap], [gset] or sorted lists where order matters.  System calls and the user's
    callbacks are arguments (their answers), library code outside src/ a type class
    with the laws its documentation states ([EpollKernel], [Kernel], [InetText],
    [Protobuf], [TypedProtobuf], [RpcProtobuf], [Wire], [Zlib], [Stdio], [Allocator]).
    Threads are interleaved in two ways.  Where a component's critical sections are
    its steps, the system is a step relation (Loop, Pool, AsyncLog, Rpc) and what
    the environment may do is a predicate ([enabled]) or the premises of a step.
    Where the locking itself is the subject (Monitor, Latch, Threads), the code is a
    program of a machine with mutexes, condition variables, spurious wake-ups and
    one primitive per step, and theorems speak about every interleaving.  Descriptor
    lifetimes (Descriptors) use a state monad over a process with its open
    descriptors.  Records carry history fields (bytes written, calls made) where a
    theorem speaks about the past; no operation reads them.

    ** Files

    - Prelude: outcomes, machine integers, bytes, lists, searching, automation.
    - NetBuffer: Endian.h ([Endian]) and buffer.h, buffer.cpp ([Buffer]): every
      member function, [readFd] with its two-part scatter read.
    - NumText: num2string.cpp, whose routines write to the front of the caller's
      buffer, and the hexadecimal conversion of logstream.cpp.
    - TimeText: timestamp.h, timestamp.cpp, with [gmtime_r] and the printf formats.
    - Address: inet_address.cpp ([InetAddress]) and the address functions of
      sockets_ops.cpp ([sockets]) over the bytes of the socket address union
      ([SockAddr]); [Endpoint] is what an address stands for.
    - LogText: logstream.h, logstream.cpp ([FixedSizeBuffer], [LogStream]) and the
      line layout of logging.h, logging.cpp ([Logger]).
    - LogProcess: the logging of a process with several threads: the caches of
      current_thread.h ([CurrentThread]), the global level, output and flush
      functions of logging.cpp ([LogProcess]).
    - Monitor: the machine ([Monitor]), Mutex.h ([MutexLock]) and condition.h,
      condition.cpp ([Condition]), and any programs made of guarded blocks, waits and
      notifications ([LockClients]).
    - Latch: countdown_latch.cpp ([CountDownLatch]) and waiter.cpp ([Waiter]), two
      instances of one interface ([LatchCode]).
    - Threads: Thread.cpp ([Thread]) and eventloop_thread.cpp ([EventLoopThread]).
    - AsyncLog: fileutil.cpp ([AppendFile]), logfile.cpp ([LogFile]),
      asynlogging.cpp ([Asynlogging]), on a disk whose opens and writes may fail.
    - Pool: threadpool.cpp ([ThreadPool]), with tasks that return or throw.
    - Timers: timer.h, timerqueue.cpp ([Timer], [EntrySet], [TimerQueue]).
    - Polling: channel.h, channel.cpp ([Channel]), poller.h as the class [Poller]
      with its laws [PollerLaws], epoll_poller.cpp and poll_poller.cpp as its two
      instances ([EpollPoller], [PollPoller]), and their client ([ChannelOps]).
    - Loop: eventloop.h, eventloop.cpp ([EventLoop]).
    - TimedLoop: the event loop and its timer queue composed, with a clock, while
      other threads add and cancel timers through [runInLoop] ([TimedLoop]).
    - Reactor: [poll] of both pollers as a second class [PollerWait] with its law
      ([EpollWait], [PollWait]), and [EventLoop::loop] with its poller, channels,
      callbacks and functors, a refinement of a specification without a poller
      ([Reactor]).
    - Connection: tcp_connection.h, tcp_connection.cpp ([TcpConnection]).
    - Server: eventloop_threadpool.cpp ([EventLoopThreadPool]), the state of an
      acceptor ([Acceptor]), tcp_server.cpp ([TcpServer]).
    - ServerNet: a running server: its table, the connection objects with their
      reference counts, and the functors of tcp_server.cpp and tcp_connection.cpp in
      the queues of the loops ([ServerNet]); a pointer to a dead object is a fault.
    - Descriptors: the descriptors of a process ([Posix]), the socket functions of
      sockets_ops.cpp ([SocketOps]), socket.cpp ([Socket]), default_poller.cpp
      ([DefaultPoller]), construction and destruction of an event loop with its
      poller and timer queue ([LoopHandles]) and acceptor.cpp ([AcceptorHandles]);
      [Ownership] has the system of one loop with its acceptors and sockets.
    - Client: connector.cpp ([Connector]), tcp_client.cpp ([TcpClient]).
    - Http: http_request.h, http_context.cpp, http_response.cpp, http_server.cpp.
    - HttpSession: the HTTP server's callbacks run by a TCP connection.
    - Framing: receivers of framed streams in general.
    - Glue: the size check and the texts of protorpc/google-inl.h and the checked
      casts of callbacks.h, which the codecs use ([Glue]).
    - Codec: ProtobufCodecLite.h, ProtobufCodecLite.cpp ([ProtobufCodecLite]).
    - TypedCodec: examples/protobuf/codec/codec.h, codec.cpp ([ProtobufCodec]).
    - Rpc: rpc.proto, RpcChannel.cpp, RpcServer.cpp, and a client and a server
      joined by two streams of messages ([RpcSystem]); calls of several threads on
      one channel ([RpcCallers]).
    - RpcWire: the same over the codec and two streams of bytes ([RpcCodec],
      [RpcWire]), a refinement of [RpcSystem].
    - RpcPrograms: the programs of examples/protobuf/rpcbench ([EchoBench]) and
      examples/protobuf/rpc ([Sudoku]), client and server.

    ** What is proved

    Buffers: the buffer implements a byte queue with headroom for every sequence of
    operations (C1); lemmas add the integers' round trips.  Connections: in every
    reachable state the bytes sent and pending are the accepted messages in order
    (C2), no enabled operation fails (C3), the lifecycle is up once and down once
    and ends in a state the destructor accepts (C4); a lemma adds that a shutdown
    waits for the output.  Event loop: functors run exactly once in order under
    every interleaving (C5), and no wakeup is lost, except that functors which the
    loop's own thread queues before [loop()] wait for the first poll (C6); a lemma
    adds that one round cannot starve.  Timers: the queue's invariant and its arming
    (C7), one expiry
    with re-entrant callbacks (C8), the relative time (C40); with the loop and other
    threads, no timer is lost, run early, run twice or slept through (C21).
    Pollers: any lawful poller implements the registration specification (C9), both
    implementations do and agree (C10).  The reactor they make with the loop: whatever
    the callbacks and functors do by the rules, no assertion fails, a turn calls what
    was reported and runs what was queued, each once and in order (C19), and the poller
    makes no difference (C20); a lemma shows that a client that breaks the rules for
    removal and destruction stops the program.  Codecs and calls: frames round-trip under
    any segmentation (C11, C36), every input is classified (C12), each call
    completes exactly once with its own answer and each closure is run or deleted
    (C13), also over bytes cut at will (C26); the benchmark program, given threads,
    makes all its calls and exits whatever their order, and without threads waits for
    ever (C27).  Logging: whatever the disk does, every line appended is handed to the
    files or still buffered, in order, and the files lack only what an [fwrite] refused
    (C14; that files roll and that the stream is a bounded text are lemmas), numbers
    are exact and are stored without a terminator (C39), and a process with any number
    of threads writes the specified lines to the current output (C35).  Threads:
    clients of [MutexLockGuard] and [Condition] never make an assertion or a pthread
    call fail, hold the mutex and are its recorded holder where they touch guarded data
    (C29), the latches are safe (C30) and every run of them ends with all threads
    finished (C31), a thread starts, publishes and joins in every interleaving (C32),
    and so does a loop thread, whether its destructor or a user's functor quits the
    loop; that the destructor may then call a dead loop is a theorem beside C33.  The
    task pool, with exceptions (C15), the server's connections (C16), the client's
    (C22) and its destructor (C37).  Under the moves C17 lists, a running server never
    touches a dead connection object and leaks none: each lives while something may
    still use it and dies closed, unregistered and reported (C17), and what is queued
    drains (C18).  Descriptors are opened, watched and closed once in
    every run (C28); addresses denote endpoints (C34).  HTTP: a complete request is
    parsed completely (C23; what [addHeader] does with a header is [headers_lost]), the
    parser returns from every context but two kinds, which are characterised (C38), a
    request in any pieces over a TCP connection is answered by
    its response (C24), a malformed one by 400 and a shutdown, after which further
    bytes abort the server (C25).  Each theorem with hypotheses is followed by a
    witness that applies it to concrete data.

    ** Fuel and bounds

    Loops that are not structurally recursive take fuel: the HTTP parser and the
    codecs' receivers (each turn consumes input, so one more than the number of bytes
    is enough, and theorems C38, C12 prove it), the write loop of [AppendFile] (the
    same argument, fixed in the definition) and [convertHex] (sixteen digits).
    [Threads] explores the states of its two-thread systems with 2000 and 4000 steps of
    fuel;
    the exploration's result is checked to be closed under every step, so a larger
    bound would add nothing, and [Monitor]'s measure bounds the length of runs.

    ** Not modelled

    The object a channel is tied to, of which only whether it is alive is kept, signal
    setup, texts that only go to the log ([operation2String], [printActiveChannels],
    [handleError] of a connection), members that only pass their arguments to another
    object, the casts between
    socket address types, the tests; examples/protobuf/codec/dispatcher.h declares
    nothing.  In ServerNet users call what [TcpConnection.usable] lists: [startRead]
    and [stopRead] from another thread, [forceCloseWithDelay], a [send] that loses
    its race with the end of the connection and the destruction of the server bind
    raw pointers, and the file's examples show each of them reaching a dead object.
    The components other than the latches and threads take the atomicity of critical
    sections for granted; C29 justifies it for blocks under a [MutexLockGuard].  Doubles
    appear only as the text or the microseconds they are converted to. *)

From Stdlib Require Export ZArith Lia Ascii String.
From stdpp Require Export base numbers list gmap strings.

#[global] Open Scope Z_scope.

(** ** Outcomes of a C++ call

    The sources are built in the default [Debug] configuration, so a failed
    [assert] stops the process; so does [LOG_FATAL] (its destructor calls
    [abort]), an uncaught C++ exception, and an access outside an object is
    undefined behaviour.  Every modelled call therefore returns an [outcome]. *)
Inductive fault :=
  | AssertFailed      (* assert(...) is false *)
  | Fatal             (* LOG_FATAL, that is abort() *)
  | OutOfBounds       (* access outside an object: undefined behaviour *)
  | Thrown            (* a C++ exception nobody catches *)
  | OutOfFuel.        (* the loop has not finished within the fuel given *)

Inductive outcome (A : Type) :=
  | Ok (a : A)
  | Fault (f : fault).
Arguments Ok {A} a.
Arguments Fault {A} f.

#[export] Instance outcome_ret : MRet outcome := fun A a => Ok a.
#[export] Instance outcome_bind : MBind outcome := fun A B k m =>
  match m with Ok a => k a | Fault f => Fault f end.

(** [assert(b);] *)
Definition assert_ (b : bool) : outcome unit :=
  if b then Ok () else Fault AssertFailed.

Lemma assert_pass {A} (b : bool) (k : unit -> outcome A) :
  b = true -> (assert_ b ≫= k) = k ().
Proof. by intros ->. Qed.

Lemma assert_stop {A} (b : bool) (k : unit -> outcome A) :
  b = false -> (assert_ b ≫= k) = Fault AssertFailed.
Proof. by intros ->. Qed.

Lemma bind_ok {A B} (a : A) (k : A -> outcome B) : (Ok a ≫= k) = k a.
Proof. done. Qed.

(** [EventLoop::assertInLoopThread()]: [LOG_FATAL] in any other thread. *)
Definition assertInLoopThread (inLoop : bool) : outcome unit :=
  if inLoop then Ok () else Fault Fatal.

(** Reading through a pointer or an iterator that may be null. *)
Definition deref {A} (p : option A) : outcome A :=
  match p with Some a => Ok a | None => Fault OutOfBounds end.

(** The computation ends normally. *)
Definition succeeds {A} (m : outcome A) : Prop := exists a, m = Ok a.

(** The result of a call that is known to return. *)
Definition ok_or {A} (d : A) (m : outcome A) : A := match m with Ok a => a | Fault _ => d end.

(** ** Machine integers

    A [w]-bit integer is a [Z]; wrap-around is written out.  [uintN] is the
    conversion to an unsigned type, [intN] the conversion to a signed type
    (two's complement, as every supported compiler defines it). *)
Definition uwrap (w v : Z) : Z := v mod 2 ^ w.
Definition swrap (w v : Z) : Z :=
  let u := uwrap w v in if u <? 2 ^ (w - 1) then u else u - 2 ^ w.

Abbreviation uint16 := (uwrap 16).
Abbreviation uint32 := (uwrap 32).
Abbreviation uint64 := (uwrap 64).
Abbreviation size_t := (uwrap 64).
Abbreviation int8 := (swrap 8).
Abbreviation int16 := (swrap 16).
Abbreviation int32 := (swrap 32).
Abbreviation int64 := (swrap 64).

Definition in_uint (w v : Z) : Prop := 0 <= v < 2 ^ w.
Definition in_int (w v : Z) : Prop := - 2 ^ (w - 1) <= v < 2 ^ (w - 1).

Lemma uwrap_small w v : 0 <= v < 2 ^ w -> uwrap w v = v.
Proof. apply Z.mod_small. Qed.

Lemma uwrap_range w v : 0 <= w -> 0 <= uwrap w v < 2 ^ w.
Proof. intros. apply Z.mod_pos_bound. lia. Qed.

Lemma pow2_half w : 0 < w -> 2 ^ w = 2 * 2 ^ (w - 1).
Proof. intros. rewrite <- Z.pow_succ_r by lia. f_equal. lia. Qed.

Lemma swrap_small w v : 0 < w -> in_int w v -> swrap w v = v.
Proof.
  unfold in_int, swrap. intros Hw Hv.
  pose proof (pow2_half w Hw) as Hp. unfold uwrap.
  destruct (decide (0 <= v)).
  - rewrite Z.mod_small by lia. destruct (Z.ltb_spec v (2 ^ (w - 1))); lia.
  - rewrite <- (Z.mod_add v 1) by lia. rewrite Z.mul_1_l, Z.mod_small by lia.
    destruct (Z.ltb_spec (v + 2 ^ w) (2 ^ (w - 1))); lia.
Qed.

Lemma swrap_range w v : 0 < w -> in_int w (swrap w v).
Proof.
  intros Hw. unfold in_int, swrap.
  pose proof (pow2_half w Hw). pose proof (uwrap_range w v ltac:(lia)).
  destruct (Z.ltb_spec (uwrap w v) (2 ^ (w - 1))); lia.
Qed.

Lemma uwrap_swrap w v : 0 < w -> uwrap w (swrap w v) = uwrap w v.
Proof.
  intros Hw. unfold swrap.
  pose proof (uwrap_range w v ltac:(lia)).
  destruct (Z.ltb_spec (uwrap w v) (2 ^ (w - 1))).
  - apply uwrap_small; lia.
  - unfold uwrap. rewrite <- (Z.mod_add _ 1) by lia.
    rewrite Z.mul_1_l, Z.sub_add. apply Z.mod_mod. lia.
Qed.

Lemma swrap_uwrap w v : 0 < w -> swrap w (uwrap w v) = swrap w v.
Proof. intros Hw. unfold swrap, uwrap. rewrite Z.mod_mod by lia. reflexivity. Qed.

(** ** Bytes and strings

    A [char] is an [ascii]; a [std::string] and the bytes of a memory block
    are lists of them. *)
Abbreviation byte := ascii.
Abbreviation bytes := (list ascii).

Definition str (s : string) : bytes := String.list_ascii_of_string s.

Definition nul : byte := "000"%char.
Definition CR : byte := "013"%char.
Definition LF : byte := "010"%char.

Definition Z_of_byte (b : byte) : Z := Z.of_N (N_of_ascii b).
Definition byte_of_Z (v : Z) : byte := ascii_of_N (Z.to_N (v mod 256)).

Lemma Z_of_byte_range b : 0 <= Z_of_byte b < 256.
Proof. unfold Z_of_byte. pose proof (N_ascii_bounded b). lia. Qed.

Lemma Z_of_byte_of_Z v : Z_of_byte (byte_of_Z v) = v mod 256.
Proof.
  unfold Z_of_byte, byte_of_Z.
  pose proof (Z.mod_pos_bound v 256 ltac:(lia)).
  rewrite N_ascii_embedding by lia. lia.
Qed.

Lemma byte_of_Z_of_byte b : byte_of_Z (Z_of_byte b) = b.
Proof.
  unfold byte_of_Z. rewrite Z.mod_small by apply Z_of_byte_range.
  unfold Z_of_byte. rewrite N2Z.id. apply ascii_N_embedding.
Qed.

(** ** Slices of a memory block

    [zlen] is a [size()], [sub off len] the bytes [off, off+len), and
    [overwrite off xs] the block after [std::copy(xs..., begin() + off)]. *)
Definition zlen {A} (l : list A) : Z := Z.of_nat (length l).

Definition sub {A} (off len : Z) (l : list A) : list A :=
  take (Z.to_nat len) (drop (Z.to_nat off) l).

Definition overwrite {A} (off : Z) (xs l : list A) : list A :=
  take (Z.to_nat off) l ++ xs ++ drop (Z.to_nat off + length xs) l.

Lemma zlen_nonneg {A} (l : list A) : 0 <= zlen l.
Proof. unfold zlen. lia. Qed.

Lemma zlen_nil {A} : zlen (@nil A) = 0.
Proof. reflexivity. Qed.

Lemma zlen_cons {A} (x : A) l : zlen (x :: l) = 1 + zlen l.
Proof. unfold zlen. simpl length. lia. Qed.

Lemma zlen_app {A} (l k : list A) : zlen (l ++ k) = zlen l + zlen k.
Proof. unfold zlen. rewrite length_app. lia. Qed.

Lemma zlen_0 {A} (l : list A) : zlen l = 0 <-> l = [].
Proof. unfold zlen. destruct l; simpl; split; intros; (lia || done). Qed.

Lemma zlen_sub {A} off len (l : list A) :
  0 <= off -> 0 <= len -> off + len <= zlen l -> zlen (sub off len l) = len.
Proof.
  unfold zlen, sub. intros. rewrite length_take, length_drop. lia.
Qed.

Lemma zlen_overwrite {A} off (xs l : list A) :
  0 <= off -> off + zlen xs <= zlen l -> zlen (overwrite off xs l) = zlen l.
Proof.
  unfold zlen, overwrite. intros.
  rewrite !length_app, length_take, length_drop. lia.
Qed.

Lemma sub_nil_len {A} off (l : list A) : sub off 0 l = [].
Proof. reflexivity. Qed.

Lemma sub_full {A} (l : list A) : sub 0 (zlen l) l = l.
Proof. unfold sub, zlen. rewrite Nat2Z.id. apply take_ge. done. Qed.

Lemma sub_split {A} off n m (l : list A) :
  0 <= off -> 0 <= n -> 0 <= m ->
  sub off (n + m) l = sub off n l ++ sub (off + n) m l.
Proof.
  intros. unfold sub. rewrite !Z2Nat.inj_add by lia.
  rewrite <- (take_take_drop (drop (Z.to_nat off) l)). f_equal.
  rewrite drop_drop. done.
Qed.

Lemma sub_overwrite_same {A} off (xs l : list A) n :
  0 <= off <= zlen l -> n = zlen xs -> sub off n (overwrite off xs l) = xs.
Proof.
  intros ? ->. unfold sub, overwrite, zlen in *.
  rewrite drop_app_length' by (rewrite length_take; lia).
  rewrite Nat2Z.id. apply take_app_length.
Qed.

Lemma sub_overwrite_before {A} a n off (xs l : list A) :
  0 <= a -> 0 <= n -> a + n <= off -> off <= zlen l ->
  sub a n (overwrite off xs l) = sub a n l.
Proof.
  intros. unfold sub, overwrite, zlen in *.
  rewrite drop_app_le by (rewrite length_take; lia).
  rewrite take_app_le by (rewrite length_drop, length_take; lia).
  rewrite !take_drop_commute, take_take. do 2 f_equal. lia.
Qed.

Lemma sub_overwrite_after {A} a n off (xs l : list A) :
  0 <= off -> off + zlen xs <= a -> off + zlen xs <= zlen l ->
  sub a n (overwrite off xs l) = sub a n l.
Proof.
  intros. unfold sub, overwrite, zlen in *.
  rewrite drop_app_ge by (rewrite length_take; lia).
  rewrite drop_app_ge by (rewrite length_take; lia).
  rewrite drop_drop. do 2 f_equal. rewrite length_take. lia.
Qed.

Lemma sub_app_l {A} a n (l k : list A) :
  0 <= a -> 0 <= n -> a + n <= zlen l -> sub a n (l ++ k) = sub a n l.
Proof.
  intros. unfold sub, zlen in *.
  rewrite drop_app_le by lia. apply take_app_le. rewrite length_drop. lia.
Qed.

Lemma sub_sub {A} a n b m (l : list A) :
  0 <= a -> 0 <= b -> 0 <= m -> b + m <= n -> sub b m (sub a n l) = sub (a + b) m l.
Proof.
  intros. unfold sub. rewrite Z2Nat.inj_add by lia.
  rewrite <- drop_drop. rewrite !take_drop_commute, take_take.
  do 3 f_equal. lia.
Qed.

Lemma take_sub {A} n (l : list A) : sub 0 n l = take (Z.to_nat n) l.
Proof. reflexivity. Qed.

Lemma sub_app_length {A} (l k : list A) n :
  n = zlen l -> sub 0 n (l ++ k) = l.
Proof. intros ->. rewrite sub_app_l by (unfold zlen; lia). apply sub_full. Qed.

Lemma drop_sub {A} (l : list A) n :
  0 <= n <= zlen l -> sub n (zlen l - n) l = drop (Z.to_nat n) l.
Proof.
  intros. unfold sub, zlen in *. apply take_ge. rewrite length_drop. lia.
Qed.

Lemma sub_middle {A} (a b c : list A) i n :
  i = zlen a -> n = zlen b -> sub i n (a ++ b ++ c) = b.
Proof.
  intros -> ->. unfold sub, zlen. rewrite !Nat2Z.id, drop_app_length. apply take_app_length.
Qed.

Lemma sub_suffix {A} (a b : list A) i n : i = zlen a -> n = zlen b -> sub i n (a ++ b) = b.
Proof. intros Hi Hn. pose proof (sub_middle a b [] i n Hi Hn) as H. by rewrite app_nil_r in H. Qed.

Lemma filter_all {A} (P : A -> Prop) `{forall x, Decision (P x)} (l : list A) :
  Forall P l -> filter P l = l.
Proof. induction 1; [done|]. rewrite filter_cons_True by done. by f_equal. Qed.

Lemma filter_none {A} (P : A -> Prop) `{forall x, Decision (P x)} (l : list A) :
  Forall (fun x => ~ P x) l -> filter P l = [].
Proof. induction 1; [done|]. by rewrite filter_cons_False. Qed.

(** [vector::resize(n)]: new elements are value-initialised. *)
Definition vresize {A} (z : A) (n : Z) (l : list A) : list A :=
  take (Z.to_nat n) l ++ replicate (Z.to_nat n - length l) z.

Lemma zlen_vresize {A} (z : A) n l : 0 <= n -> zlen (vresize z n l) = n.
Proof.
  intros. unfold zlen, vresize. rewrite length_app, length_take, length_replicate. lia.
Qed.

Lemma sub_vresize {A} (z : A) a k n (l : list A) :
  0 <= a -> 0 <= k -> a + k <= zlen l -> zlen l <= n ->
  sub a k (vresize z n l) = sub a k l.
Proof.
  intros. unfold vresize.
  assert (take (Z.to_nat n) l = l) as -> by (apply take_ge; unfold zlen in *; lia).
  by apply sub_app_l.
Qed.

(** ** Little-endian object representation *)
Fixpoint to_le (n : nat) (v : Z) : bytes :=
  match n with
  | O => []
  | S k => byte_of_Z v :: to_le k (v / 256)
  end.

Fixpoint of_le (l : bytes) : Z :=
  match l with
  | [] => 0
  | b :: t => Z_of_byte b + 256 * of_le t
  end.

Lemma length_to_le n v : length (to_le n v) = n.
Proof. revert v. induction n; intros; simpl; auto. Qed.

Lemma pow256_succ n : 256 ^ Z.of_nat (S n) = 256 * 256 ^ Z.of_nat n.
Proof. rewrite Nat2Z.inj_succ, Z.pow_succ_r by lia. lia. Qed.

Lemma of_to_le n v : of_le (to_le n v) = v mod 256 ^ Z.of_nat n.
Proof.
  revert v. induction n as [|n IH]; intros v.
  - simpl. rewrite Z.mod_1_r. done.
  - simpl to_le. simpl of_le. rewrite IH, Z_of_byte_of_Z, pow256_succ.
    rewrite (Z.rem_mul_r v 256) by lia. lia.
Qed.

Lemma of_le_range l : 0 <= of_le l < 256 ^ zlen l.
Proof.
  unfold zlen. induction l as [|b l IH]; [simpl; lia|].
  simpl of_le. simpl length. rewrite pow256_succ.
  pose proof (Z_of_byte_range b). lia.
Qed.

Lemma to_of_le l : to_le (length l) (of_le l) = l.
Proof.
  induction l as [|b l IH]; [done|]. simpl.
  pose proof (Z_of_byte_range b).
  assert (byte_of_Z (Z_of_byte b + 256 * of_le l) = b) as ->.
  { unfold byte_of_Z. rewrite (Z.mul_comm 256), Z.mod_add by lia.
    apply byte_of_Z_of_byte. }
  rewrite (Z.mul_comm 256), Z.div_add by lia.
  rewrite Z.div_small, Z.add_0_l by lia. by rewrite IH.
Qed.

Lemma to_le_mod n v : to_le n (v mod 256 ^ Z.of_nat n) = to_le n v.
Proof.
  rewrite <- of_to_le. rewrite <- (length_to_le n v) at 1. apply to_of_le.
Qed.

Lemma pow256_pow2 n : 256 ^ n = 2 ^ (8 * n).
Proof.
  destruct (decide (0 <= n)).
  - change 256 with (2 ^ 8). rewrite <- Z.pow_mul_r by lia. done.
  - rewrite !Z.pow_neg_r by lia. done.
Qed.

(** ** The searches of <algorithm> and <cstring> over [first, last)

    The position is relative to [first]; [zlen l] stands for [last]. *)
Fixpoint starts_with (pat l : bytes) : bool :=
  match pat, l with
  | [], _ => true
  | _ :: _, [] => false
  | p :: pat', x :: l' => Ascii.eqb p x && starts_with pat' l'
  end.

(** [std::find(first, last, c)]; [memchr] finds the same place. *)
Fixpoint std_find (c : byte) (l : bytes) : Z :=
  match l with
  | [] => 0
  | x :: t => if Ascii.eqb x c then 0 else 1 + std_find c t
  end.

(** [std::search(first, last, pat, pat + |pat|)] for a non-empty [pat]. *)
Fixpoint std_search (pat l : bytes) : Z :=
  match l with
  | [] => 0
  | x :: t => if starts_with pat l then 0 else 1 + std_search pat t
  end.

Lemma std_find_range c l : 0 <= std_find c l <= zlen l.
Proof.
  induction l as [|x l IH]; [done|]. rewrite zlen_cons. simpl.
  pose proof (zlen_nonneg l). case_match; lia.
Qed.

Lemma std_find_app c l k :
  Forall (fun x => x <> c) l -> std_find c (l ++ c :: k) = zlen l.
Proof.
  induction 1 as [|x l Hx Hl IH].
  - simpl. rewrite Ascii.eqb_refl. done.
  - simpl. rewrite zlen_cons. destruct (Ascii.eqb_spec x c); [done|lia].
Qed.

Lemma std_find_absent c l : Forall (fun x => x <> c) l -> std_find c l = zlen l.
Proof.
  induction 1 as [|x l Hx Hl IH]; [done|].
  simpl. rewrite zlen_cons. destruct (Ascii.eqb_spec x c); [done|lia].
Qed.

Lemma std_find_found c l :
  std_find c l < zlen l -> l !! Z.to_nat (std_find c l) = Some c.
Proof.
  induction l as [|x l IH]; [unfold zlen; simpl; lia|].
  simpl. rewrite zlen_cons. destruct (Ascii.eqb_spec x c) as [->|]; [done|].
  intros. pose proof (std_find_range c l).
  replace (Z.to_nat (1 + std_find c l)) with (S (Z.to_nat (std_find c l))) by lia.
  simpl. apply IH. lia.
Qed.

Lemma std_find_before c l i :
  0 <= i < std_find c l -> l !! Z.to_nat i <> Some c.
Proof.
  revert i. induction l as [|x l IH]; intros i; simpl; [lia|].
  destruct (Ascii.eqb_spec x c) as [->|Hne]; [lia|]. intros.
  destruct (decide (i = 0)) as [->|]; [simpl; congruence|].
  replace (Z.to_nat i) with (S (Z.to_nat (i - 1))) by lia. simpl. apply IH. lia.
Qed.

Lemma starts_with_spec pat l : starts_with pat l = true <-> exists k, l = pat ++ k.
Proof.
  revert l. induction pat as [|p pat IH]; intros l; simpl; [naive_solver|].
  destruct l as [|x l]; [split; [done|by intros [k ?]]|].
  rewrite andb_true_iff, Ascii.eqb_eq, IH. naive_solver.
Qed.

Lemma std_search_range pat l : 0 <= std_search pat l <= zlen l.
Proof.
  induction l as [|x l IH]; [done|]. rewrite zlen_cons. cbn [std_search].
  pose proof (zlen_nonneg l). case_match; lia.
Qed.

Lemma std_search_found pat l :
  std_search pat l < zlen l ->
  exists k, drop (Z.to_nat (std_search pat l)) l = pat ++ k.
Proof.
  induction l as [|x l IH]; [unfold zlen; simpl; lia|].
  cbn [std_search]. rewrite zlen_cons.
  destruct (starts_with pat (x :: l)) eqn:E.
  - intros _. apply starts_with_spec in E as [k Hk]. by exists k.
  - intros. pose proof (std_search_range pat l).
    replace (Z.to_nat (1 + std_search pat l)) with (S (Z.to_nat (std_search pat l))) by lia.
    simpl. apply IH. lia.
Qed.

Lemma std_search_before pat l i :
  0 <= i < std_search pat l -> starts_with pat (drop (Z.to_nat i) l) = false.
Proof.
  revert i. induction l as [|x l IH]; intros i; cbn [std_search]; [lia|].
  destruct (starts_with pat (x :: l)) eqn:E; [lia|]. intros.
  destruct (decide (i = 0)) as [->|]; [done|].
  replace (Z.to_nat i) with (S (Z.to_nat (i - 1))) by lia. simpl. apply IH. lia.
Qed.

Lemma starts_with_app pat l r :
  (length pat <= length l)%nat -> starts_with pat (l ++ r) = starts_with pat l.
Proof.
  revert l. induction pat as [|p pat IH]; intros l Hl; [done|].
  destruct l as [|x l]; [simpl in Hl; lia|]. simpl in *. rewrite IH by lia. done.
Qed.

(** More bytes behind a match do not move it. *)
Lemma std_search_app pat l r :
  std_search pat l < zlen l -> std_search pat (l ++ r) = std_search pat l.
Proof.
  induction l as [|x l IH]; [unfold zlen; simpl; lia|]. intros Hlt.
  destruct (std_search_found pat (x :: l) Hlt) as [k Hk].
  assert (length pat <= length (x :: l))%nat as Hlen.
  { apply (f_equal length) in Hk. rewrite length_drop, length_app in Hk. lia. }
  rewrite <- app_comm_cons. cbn [std_search] in *. rewrite app_comm_cons, starts_with_app by done.
  rewrite zlen_cons in Hlt. case_match; [done|]. rewrite IH by lia. done.
Qed.

(** The first CR LF ends a line without CR. *)
Lemma std_search_line line r :
  Forall (fun x => x <> CR) line -> std_search [CR; LF] (line ++ CR :: LF :: r) = zlen line.
Proof.
  induction 1 as [|x line Hx _ IH]; [done|]. rewrite zlen_cons, <- IH.
  rewrite <- app_comm_cons. cbn [std_search starts_with].
  destruct (Ascii.eqb_spec CR x) as [E|_]; [by destruct Hx|]. done.
Qed.

(** ** Automation *)
Create HintDb libel.
Create Rewrite HintDb zlen.
#[export] Hint Resolve zlen_nonneg Z_of_byte_range : libel.
#[export] Hint Rewrite @zlen_nil @zlen_cons @zlen_app : zlen.

(** Case analysis on every boolean comparison in sight, then [lia]. *)
Ltac bcases :=
  repeat match goal with
  | |- context [Z.ltb ?a ?b] => destruct (Z.ltb_spec a b)
  | |- context [Z.leb ?a ?b] => destruct (Z.leb_spec a b)
  | |- context [Z.eqb ?a ?b] => destruct (Z.eqb_spec a b)
  | H : context [Z.ltb ?a ?b] |- _ => destruct (Z.ltb_spec a b)
  | H : context [Z.leb ?a ?b] |- _ => destruct (Z.leb_spec a b)
  | H : context [Z.eqb ?a ?b] |- _ => destruct (Z.eqb_spec a b)
  end.

(** Go past an assertion that holds. *)
Ltac passert := rewrite assert_pass by (first [done | lia]).

(** Remove the [uwrap]s that do nothing. *)
Ltac unwrap := repeat rewrite uwrap_small by (try change (2 ^ 64) with 18446744073709551616; lia).

(** Step through a call that has returned normally. *)
Ltac inv_ok :=
  repeat match goal with
  | H : Ok _ = Ok _ |- _ => injection H as H
  | H : Fault _ = Ok _ |- _ => discriminate H
  | H : Ok _ = Fault _ |- _ => discriminate H
  | H : mbind _ ?m = Ok _ |- _ => destruct m eqn:?; simpl in H
  | H : assert_ ?b ≫= _ = Ok _ |- _ => destruct b eqn:?; simpl in H
  end.

(** ** Sums over lists, for measures *)
Definition zsum {A} (f : A -> Z) (l : list A) : Z := foldr (fun x z => f x + z) 0 l.

Lemma zsum_app {A} (f : A -> Z) l k : zsum f (l ++ k) = zsum f l + zsum f k.
Proof. induction l; simpl; lia. Qed.

Lemma zsum_insert {A} (f : A -> Z) l i x y :
  l !! i = Some x -> zsum f (<[i := y]> l) = zsum f l - f x + f y.
Proof. revert i. induction l as [|z l IH]; intros [|i] E; simplify_eq/=; [lia|]. rewrite (IH i E). lia. Qed.

Lemma zsum_le {A} (f : A -> Z) (g : A -> A) c l :
  (forall x, f (g x) <= f x + c) -> zsum f (map g l) <= zsum f l + c * zlen l.
Proof. intros H. induction l as [|x l IH]; [unfold zlen; simpl; lia|]. simpl. rewrite zlen_cons. specialize (H x). lia. Qed.

Lemma zsum_lower {A} (f : A -> Z) c l : Forall (fun x => c <= f x) l -> c * zlen l <= zsum f l.
Proof. induction 1 as [|x l Hx _ IH]; [unfold zlen; simpl; lia|]. simpl. rewrite zlen_cons. lia. Qed.
