(* ===== verification/NetBuffer.v ===== *)
(** Byte order (src/libel/net/Endian.h) and the network buffer
    (src/libel/net/buffer.h, buffer.cpp): the vector with a reader and a writer
    index, every public operation, and the proof that it implements a byte
    queue. *)

From S2P Require Import Prelude.

(** The byte order of the host the code is compiled for; every theorem holds
    for both. *)
Inductive endian := LittleEndian | BigEndian.
Class HostOrder := host_order : endian.

Module Endian.
Section with_host.
Context {HO : HostOrder}.

(** The bytes of an [n]-byte unsigned object and the value they stand for. *)
Definition obj_bytes (n : nat) (v : Z) : bytes :=
  match host_order with
  | LittleEndian => to_le n v
  | BigEndian => rev (to_le n v)
  end.

Definition obj_value (l : bytes) : Z :=
  match host_order with
  | LittleEndian => of_le l
  | BigEndian => of_le (rev l)
  end.

(** [htobeN] of <endian.h>: swaps on a little-endian host, else the identity;
    [beNtoh] is the same function. *)
Definition htobe (n : nat) (v : Z) : Z :=
  match host_order with
  | LittleEndian => of_le (rev (to_le n v))
  | BigEndian => v
  end.

Definition hostToNetwork64 (host64 : Z) : Z := htobe 8 host64.
Definition hostToNetwork32 (host32 : Z) : Z := htobe 4 host32.
Definition hostToNetwork16 (host16 : Z) : Z := htobe 2 host16.
Definition networkToHost64 (net64 : Z) : Z := htobe 8 net64.
Definition networkToHost32 (net32 : Z) : Z := htobe 4 net32.
Definition networkToHost16 (net16 : Z) : Z := htobe 2 net16.

Lemma length_obj_bytes n v : length (obj_bytes n v) = n.
Proof.
  unfold obj_bytes. destruct host_order; rewrite ?length_rev; apply length_to_le.
Qed.

Lemma obj_value_bytes n v : obj_value (obj_bytes n v) = v mod 256 ^ Z.of_nat n.
Proof.
  unfold obj_value, obj_bytes.
  destruct host_order; rewrite ?rev_involutive; apply of_to_le.
Qed.

(** The object representation of a converted value is its big-endian form,
    whatever the host. *)
Lemma obj_bytes_htobe n v : obj_bytes n (htobe n v) = rev (to_le n v).
Proof.
  unfold obj_bytes, htobe. destruct host_order; [|done].
  rewrite <- (length_to_le n v) at 1. rewrite <- length_rev. apply to_of_le.
Qed.

Lemma htobe_range n v : in_uint (8 * Z.of_nat n) v -> in_uint (8 * Z.of_nat n) (htobe n v).
Proof.
  unfold in_uint, htobe. intros. destruct host_order; [|done].
  rewrite <- pow256_pow2.
  pose proof (of_le_range (rev (to_le n v))) as Hr. unfold zlen in Hr.
  by rewrite length_rev, length_to_le in Hr.
Qed.

Lemma htobe_obj_value l :
  htobe (length l) (obj_value l) = of_le (rev l).
Proof.
  unfold htobe, obj_value. destruct host_order; [|done]. by rewrite to_of_le.
Qed.

Lemma htobe_involutive n v :
  in_uint (8 * Z.of_nat n) v -> htobe n (htobe n v) = v.
Proof.
  unfold in_uint, htobe. intros Hv. destruct host_order; [|done].
  rewrite <- pow256_pow2 in Hv.
  replace (to_le n (of_le (rev (to_le n v)))) with (rev (to_le n v)).
  - rewrite rev_involutive, of_to_le. apply Z.mod_small. lia.
  - symmetry. rewrite <- (length_to_le n v) at 1. rewrite <- length_rev. apply to_of_le.
Qed.

End with_host.
End Endian.

(** What a read-like system call reports: the bytes transferred, or [errno]. *)
Inductive io_result :=
  | IoData (data : bytes)
  | IoError (errno : Z).

Module Buffer.

Definition kCheapPrepend : Z := 8.
Definition kInitialSize : Z := 1024.
Definition kCRLF : bytes := [CR; LF].

(** [vector<char>::max_size()] of libstdc++ on a 64-bit host. *)
Definition max_size : Z := 2 ^ 63 - 1.

(** A pointer into [buffer_] is its offset from [begin()]. *)
Record t := mk {
  buffer_ : bytes;
  readerIndex_ : Z;
  writerIndex_ : Z;
}.

Definition new (initialSize : Z) : t :=
  {| buffer_ := replicate (Z.to_nat (size_t (kCheapPrepend + initialSize))) nul;
     readerIndex_ := kCheapPrepend;
     writerIndex_ := kCheapPrepend |}.

#[global] Arguments new : simpl never.

Definition swap (b rhs : t) : t * t := (rhs, b).

Definition readableBytes (b : t) : Z := size_t (writerIndex_ b - readerIndex_ b).
Definition writableBytes (b : t) : Z := size_t (zlen (buffer_ b) - writerIndex_ b).
Definition prependableBytes (b : t) : Z := readerIndex_ b.
Definition peek (b : t) : Z := readerIndex_ b.
Definition beginWrite (b : t) : Z := writerIndex_ b.

(** The bytes of the range [first, last) of the buffer. *)
Definition range (b : t) (first last : Z) : bytes := sub first (last - first) (buffer_ b).

(** The readable bytes: what the buffer holds, seen from outside. *)
Definition content (b : t) : bytes := range b (peek b) (beginWrite b).

Definition findCRLF (b : t) : option Z :=
  let crlf := peek b + std_search kCRLF (range b (peek b) (beginWrite b)) in
  if crlf =? beginWrite b then None else Some crlf.

Definition findCRLF_from (b : t) (start : Z) : outcome (option Z) :=
  assert_ (peek b <=? start) ;;
  assert_ (start <=? beginWrite b) ;;
  let crlf := start + std_search kCRLF (range b start (beginWrite b)) in
  mret (if crlf =? beginWrite b then None else Some crlf).

Definition findEOL (b : t) : option Z :=
  let found := std_find LF (sub (peek b) (readableBytes b) (buffer_ b)) in
  if found <? readableBytes b then Some (peek b + found) else None.

Definition findEOL_from (b : t) (start : Z) : outcome (option Z) :=
  assert_ (peek b <=? start) ;;
  assert_ (start <=? beginWrite b) ;;
  let found := std_find LF (range b start (beginWrite b)) in
  mret (if found <? beginWrite b - start then Some (start + found) else None).

Definition retrieveAll (b : t) : t :=
  {| buffer_ := buffer_ b; readerIndex_ := kCheapPrepend; writerIndex_ := kCheapPrepend |}.

Definition retrieve (b : t) (len : Z) : outcome t :=
  assert_ (len <=? readableBytes b) ;;
  mret (if len <? readableBytes b
        then {| buffer_ := buffer_ b;
                readerIndex_ := size_t (readerIndex_ b + len);
                writerIndex_ := writerIndex_ b |}
        else retrieveAll b).

Definition retrieveUntil (b : t) (end_ : Z) : outcome t :=
  assert_ (peek b <=? end_) ;;
  assert_ (end_ <=? beginWrite b) ;;
  retrieve b (size_t (end_ - peek b)).

Definition retrieveInt64 (b : t) : outcome t := retrieve b 8.
Definition retrieveInt32 (b : t) : outcome t := retrieve b 4.
Definition retrieveInt16 (b : t) : outcome t := retrieve b 2.
Definition retrieveInt8 (b : t) : outcome t := retrieve b 1.

(** [std::string(p, len)]: throws when [len] exceeds the longest string. *)
Definition string_at (b : t) (p len : Z) : outcome bytes :=
  if max_size <? len then Fault Thrown
  else if zlen (buffer_ b) <? p + len then Fault OutOfBounds
  else Ok (sub p len (buffer_ b)).

Definition retrieveAsString (b : t) (len : Z) : outcome (bytes * t) :=
  assert_ (len <=? readableBytes b) ;;
  result ← string_at b (peek b) len ;
  b' ← retrieve b len ;
  mret (result, b').

Definition retrieveAllAsString (b : t) : outcome (bytes * t) :=
  retrieveAsString b (readableBytes b).

Definition hasWritten (b : t) (len : Z) : outcome t :=
  assert_ (len <=? writableBytes b) ;;
  mret {| buffer_ := buffer_ b; readerIndex_ := readerIndex_ b;
          writerIndex_ := size_t (writerIndex_ b + len) |}.

Definition unwrite (b : t) (len : Z) : outcome t :=
  assert_ (len <=? readableBytes b) ;;
  mret {| buffer_ := buffer_ b; readerIndex_ := readerIndex_ b;
          writerIndex_ := size_t (writerIndex_ b - len) |}.

(** [buffer_.resize(n)] *)
Definition resize (b : t) (n : Z) : outcome t :=
  if max_size <? n then Fault Thrown
  else Ok {| buffer_ := vresize nul n (buffer_ b);
             readerIndex_ := readerIndex_ b; writerIndex_ := writerIndex_ b |}.

(** [std::copy(data, data + |data|, begin() + off)] *)
Definition copy_to (b : t) (off : Z) (data : bytes) : outcome t :=
  if (off <? 0) || (zlen (buffer_ b) <? off + zlen data) then Fault OutOfBounds
  else Ok {| buffer_ := overwrite off data (buffer_ b);
             readerIndex_ := readerIndex_ b; writerIndex_ := writerIndex_ b |}.

Definition makeSpace (b : t) (len : Z) : outcome t :=
  if size_t (writableBytes b + prependableBytes b) <? size_t (len + kCheapPrepend)
  then (* need a new buffer *)
    resize b (size_t (writerIndex_ b + len))
  else (* move readable data to the front, make space inside buffer *)
    assert_ (kCheapPrepend <? readerIndex_ b) ;;
    let readable := readableBytes b in
    b1 ← copy_to b kCheapPrepend (range b (readerIndex_ b) (writerIndex_ b)) ;
    let b2 := {| buffer_ := buffer_ b1; readerIndex_ := kCheapPrepend;
                 writerIndex_ := size_t (kCheapPrepend + readable) |} in
    assert_ (readable =? readableBytes b2) ;;
    mret b2.

Definition ensureWriteableBytes (b : t) (len : Z) : outcome t :=
  b' ← (if writableBytes b <? len then makeSpace b len else mret b) ;
  assert_ (len <=? writableBytes b') ;;
  mret b'.

Definition append (b : t) (data : bytes) : outcome t :=
  b1 ← ensureWriteableBytes b (zlen data) ;
  b2 ← copy_to b1 (beginWrite b1) data ;
  hasWritten b2 (zlen data).

Definition prepend (b : t) (data : bytes) : outcome t :=
  assert_ (zlen data <=? prependableBytes b) ;;
  let b1 := {| buffer_ := buffer_ b;
               readerIndex_ := size_t (readerIndex_ b - zlen data);
               writerIndex_ := writerIndex_ b |} in
  copy_to b1 (readerIndex_ b1) data.

Definition toString (b : t) : outcome bytes :=
  string_at b (peek b) (size_t (int32 (readableBytes b))).

Definition shrink (b : t) (reserve : Z) : outcome t :=
  other ← ensureWriteableBytes (new kInitialSize) (size_t (readableBytes b + reserve)) ;
  s ← toString b ;
  other' ← append other s ;
  mret (fst (swap b other')).

(** [extraBuf] of readFd. *)
Definition extra_size : Z := 65536.

(** The total length of the [iovcnt] vectors. *)
Definition iov_size (b : t) : Z :=
  if writableBytes b <? extra_size then writableBytes b + extra_size else writableBytes b.

(** [readv] sees the total size of the vectors it is given and fills them in
    order: [readv cap] is its answer. *)
Definition readFd (b : t) (readv : Z -> io_result) : outcome (Z * option Z * t) :=
  let writable := writableBytes b in
  match readv (iov_size b) with
  | IoError e => mret (-1, Some e, b)
  | IoData data =>
      let n := zlen data in
      b1 ← copy_to b (writerIndex_ b) (take (Z.to_nat writable) data) ;
      b2 ← (if n <=? writable
            then mret {| buffer_ := buffer_ b1; readerIndex_ := readerIndex_ b1;
                         writerIndex_ := size_t (writerIndex_ b1 + n) |}
            else append {| buffer_ := buffer_ b1; readerIndex_ := readerIndex_ b1;
                           writerIndex_ := zlen (buffer_ b1) |}
                        (drop (Z.to_nat writable) data)) ;
      mret (n, None, b2)
  end.

Section with_host.
Context {HO : HostOrder}.
Import Endian.

Definition appendInt64 (b : t) (val : Z) : outcome t :=
  let netEndianVal := int64 (hostToNetwork64 (uint64 val)) in
  append b (obj_bytes 8 (uint64 netEndianVal)).
Definition appendInt32 (b : t) (val : Z) : outcome t :=
  let netEndianVal := int32 (hostToNetwork32 (uint32 val)) in
  append b (obj_bytes 4 (uint32 netEndianVal)).
Definition appendInt16 (b : t) (val : Z) : outcome t :=
  let netEndianVal := int16 (hostToNetwork16 (uint16 val)) in
  append b (obj_bytes 2 (uint16 netEndianVal)).
Definition appendInt8 (b : t) (val : Z) : outcome t :=
  append b (obj_bytes 1 (uwrap 8 val)).

(** [memcpy(&val, peek(), n)] and the conversion of the [n]-byte object. *)
Definition load (b : t) (n : nat) : outcome Z :=
  if zlen (buffer_ b) <? peek b + Z.of_nat n then Fault OutOfBounds
  else Ok (obj_value (sub (peek b) (Z.of_nat n) (buffer_ b))).

Definition peekInt64 (b : t) : outcome Z :=
  assert_ (8 <=? readableBytes b) ;;
  val ← load b 8 ; mret (int64 (networkToHost64 val)).
Definition peekInt32 (b : t) : outcome Z :=
  assert_ (4 <=? readableBytes b) ;;
  val ← load b 4 ; mret (int32 (networkToHost32 val)).
Definition peekInt16 (b : t) : outcome Z :=
  assert_ (2 <=? readableBytes b) ;;
  val ← load b 2 ; mret (int16 (networkToHost16 val)).
Definition peekInt8 (b : t) : outcome Z :=
  assert_ (1 <=? readableBytes b) ;;
  val ← load b 1 ; mret (int8 val).

Definition readInt64 (b : t) : outcome (Z * t) :=
  result ← peekInt64 b ; b' ← retrieveInt64 b ; mret (result, b').
Definition readInt32 (b : t) : outcome (Z * t) :=
  result ← peekInt32 b ; b' ← retrieveInt32 b ; mret (result, b').
Definition readInt16 (b : t) : outcome (Z * t) :=
  result ← peekInt16 b ; b' ← retrieveInt16 b ; mret (result, b').
Definition readInt8 (b : t) : outcome (Z * t) :=
  result ← peekInt8 b ; b' ← retrieveInt8 b ; mret (result, b').

Definition prependInt64 (b : t) (pre : Z) : outcome t :=
  let netEndianPre := int64 (hostToNetwork64 (uint64 pre)) in
  prepend b (obj_bytes 8 (uint64 netEndianPre)).
Definition prependInt32 (b : t) (x : Z) : outcome t :=
  let be32 := int32 (hostToNetwork32 (uint32 x)) in
  prepend b (obj_bytes 4 (uint32 be32)).
Definition prependInt16 (b : t) (x : Z) : outcome t :=
  let be16 := int16 (hostToNetwork16 (uint16 x)) in
  prepend b (obj_bytes 2 (uint16 be16)).
Definition prependInt8 (b : t) (x : Z) : outcome t :=
  prepend b (obj_bytes 1 (uwrap 8 x)).

End with_host.

(** ** The representation invariant and the abstract value *)

(** [0 <= readerIndex <= writerIndex <= size], as the class comment draws it,
    and room for the initial indices. *)
Definition ok (b : t) : Prop :=
  0 <= readerIndex_ b <= writerIndex_ b /\
  writerIndex_ b <= zlen (buffer_ b) <= max_size /\
  kCheapPrepend <= zlen (buffer_ b).

(** [b] stores the byte queue [q]. *)
Definition holds (b : t) (q : bytes) : Prop := ok b /\ content b = q.

(** [n] more bytes fit into the largest vector. *)
Definition room (b : t) (n : Z) : Prop := zlen (buffer_ b) + n <= max_size.

Ltac unfold_buf :=
  unfold holds, ok, room, content, range, peek, beginWrite, readableBytes, writableBytes,
    prependableBytes, retrieveAll, kCheapPrepend, kInitialSize, max_size in *.

Lemma pow2_64 : 2 ^ 64 = 18446744073709551616. Proof. reflexivity. Qed.

Lemma readable_eq b : ok b -> readableBytes b = writerIndex_ b - readerIndex_ b.
Proof. unfold_buf. intros. apply uwrap_small. rewrite pow2_64. lia. Qed.

Lemma writable_eq b : ok b -> writableBytes b = zlen (buffer_ b) - writerIndex_ b.
Proof. unfold_buf. intros. apply uwrap_small. rewrite pow2_64. lia. Qed.

Lemma zlen_content b : ok b -> zlen (content b) = writerIndex_ b - readerIndex_ b.
Proof. unfold_buf. intros. apply zlen_sub; lia. Qed.

Lemma readable_content b q : holds b q -> readableBytes b = zlen q.
Proof. intros [Hok <-]. rewrite readable_eq, zlen_content by done. done. Qed.

Lemma holds_ok b q : holds b q -> ok b.
Proof. by intros []. Qed.

Lemma new_holds n : 0 <= n -> n + kCheapPrepend <= max_size -> holds (new n) [].
Proof.
  intros. unfold_buf. unfold new. simpl.
  rewrite uwrap_small by (rewrite pow2_64; unfold kCheapPrepend; lia).
  unfold zlen. rewrite length_replicate. unfold kCheapPrepend. split; [lia|done].
Qed.

Lemma zlen_new : zlen (buffer_ (new kInitialSize)) = 1032.
Proof. reflexivity. Qed.

Lemma retrieveAll_holds b q :
  holds b q -> holds (retrieveAll b) [].
Proof. unfold_buf. simpl. intros. split; [lia|done]. Qed.

(** A copy into the writable part, or into the prependable part, succeeds. *)
Lemma copy_to_ok b off data :
  0 <= off -> off + zlen data <= zlen (buffer_ b) ->
  copy_to b off data = Ok {| buffer_ := overwrite off data (buffer_ b);
                             readerIndex_ := readerIndex_ b;
                             writerIndex_ := writerIndex_ b |}.
Proof. intros. unfold copy_to. bcases; simpl; (lia || done). Qed.

(** [makeSpace] keeps the content, makes [len] bytes writable, and does not
    grow the vector when compacting it is enough. *)
Lemma makeSpace_spec b len :
  ok b -> 0 <= len -> writableBytes b < len -> room b len ->
  exists b', makeSpace b len = Ok b' /\ ok b' /\ content b' = content b /\
    len <= writableBytes b' /\
    Z.min (prependableBytes b) kCheapPrepend <= prependableBytes b' /\
    zlen (buffer_ b') =
      (if writableBytes b + prependableBytes b <? len + kCheapPrepend
       then writerIndex_ b + len else zlen (buffer_ b)).
Proof.
  intros Hok Hlen Hw Hroom.
  pose proof (writable_eq b Hok) as Ew. pose proof (readable_eq b Hok) as Er.
  unfold makeSpace. rewrite Ew in Hw. rewrite Ew, Er.
  unfold ok, room, prependableBytes, kCheapPrepend, max_size in *.
  rewrite !uwrap_small by (rewrite pow2_64; lia).
  destruct (Z.ltb_spec (zlen (buffer_ b) - writerIndex_ b + readerIndex_ b) (len + 8)).
  - unfold resize, max_size. bcases; [lia|]. eexists. split; [done|].
    unfold content, range, peek, beginWrite, writableBytes; simpl.
    rewrite zlen_vresize by lia. unwrap.
    split_and!; [lia..| apply sub_vresize; lia | lia | lia | lia].
  - passert.
    rewrite copy_to_ok; [|lia|].
    2: { unfold range. rewrite zlen_sub by lia. lia. }
    cbv [mbind outcome_bind]. unfold readableBytes, kCheapPrepend. simpl. unwrap.
    bcases; [|lia]. eexists. split; [done|].
    unfold content, range, peek, beginWrite, writableBytes; simpl.
    rewrite zlen_overwrite by (rewrite ?zlen_sub; lia). unwrap.
    split_and!; [lia..| | lia | lia | lia].
    apply sub_overwrite_same; [lia|]. rewrite zlen_sub; lia.
Qed.

Lemma ensureWriteableBytes_spec b len :
  ok b -> 0 <= len -> room b len ->
  exists b', ensureWriteableBytes b len = Ok b' /\ ok b' /\ content b' = content b /\
    len <= writableBytes b' /\
    Z.min (prependableBytes b) kCheapPrepend <= prependableBytes b' /\
    zlen (buffer_ b) <= zlen (buffer_ b') <= zlen (buffer_ b) + len.
Proof.
  intros Hok Hlen Hroom. unfold ensureWriteableBytes.
  destruct (Z.ltb_spec (writableBytes b) len).
  - destruct (makeSpace_spec b len) as (b' & -> & Hok' & Hc & Hw & Hp & Hs); [done..|].
    rewrite bind_ok. passert.
    exists b'. rewrite Hs. rewrite (writable_eq b Hok) in *.
    unfold ok in Hok. split_and!; [done..| |]; case_match; lia.
  - unfold mret, outcome_ret. rewrite bind_ok. passert.
    exists b. split_and!; (done || lia).
Qed.

(** Writing into the writable space and committing it. *)
Lemma store_spec b q data :
  holds b q -> zlen data <= writableBytes b ->
  exists b1 b', copy_to b (beginWrite b) data = Ok b1 /\ hasWritten b1 (zlen data) = Ok b' /\
    holds b' (q ++ data) /\ prependableBytes b' = prependableBytes b /\
    zlen (buffer_ b') = zlen (buffer_ b).
Proof.
  intros [Hok <-] Hw. pose proof (zlen_nonneg data).
  rewrite writable_eq in Hw by done. unfold ok, kCheapPrepend, max_size in *.
  rewrite copy_to_ok by (unfold beginWrite; lia).
  do 2 eexists. split; [done|]. unfold hasWritten, writableBytes. simpl.
  rewrite zlen_overwrite by (unfold beginWrite; lia).
  unfold beginWrite. unwrap. passert.
  split; [done|]. split; [|simpl; rewrite zlen_overwrite by lia; done].
  split; [unfold ok, kCheapPrepend, max_size; simpl; rewrite zlen_overwrite by lia; lia|].
  unfold content, range, peek, beginWrite; simpl.
  rewrite Z.add_sub_swap, sub_split, Zplus_minus by lia. f_equal.
  - apply sub_overwrite_before; lia.
  - apply sub_overwrite_same; lia.
Qed.

Lemma append_spec b q data :
  holds b q -> room b (zlen data) ->
  exists b', append b data = Ok b' /\ holds b' (q ++ data) /\
    Z.min (prependableBytes b) kCheapPrepend <= prependableBytes b' /\
    zlen (buffer_ b) <= zlen (buffer_ b') <= zlen (buffer_ b) + zlen data.
Proof.
  intros [Hok <-] Hroom. unfold append. pose proof (zlen_nonneg data).
  destruct (ensureWriteableBytes_spec b (zlen data))
    as (b1 & -> & Hok1 & Hc & Hw & Hp & Hs); [done..|]. rewrite bind_ok.
  destruct (store_spec b1 (content b) data) as (b2 & b3 & -> & Hhas & ? & Hp3 & Hl3); [done..|].
  rewrite bind_ok. exists b3. rewrite Hp3, Hl3. done.
Qed.

(** Appending within a budget of [n] further bytes. *)
Lemma append_within b q data n :
  holds b q -> room b (zlen data + n) -> 0 <= n ->
  exists b', append b data = Ok b' /\ holds b' (q ++ data) /\ room b' n.
Proof.
  intros Hh Hr Hn. destruct (append_spec b q data Hh) as (b' & ? & ? & _ & ?);
    [unfold room in *; lia|]. exists b'. unfold room in *. split_and!; (done || lia).
Qed.

Lemma prepend_spec b q data :
  holds b q -> zlen data <= prependableBytes b ->
  exists b', prepend b data = Ok b' /\ holds b' (data ++ q) /\
    zlen (buffer_ b') = zlen (buffer_ b) /\
    prependableBytes b' = prependableBytes b - zlen data.
Proof.
  intros [Hok <-] Hp. unfold prepend. unfold prependableBytes in *.
  pose proof (zlen_nonneg data). unfold ok, kCheapPrepend, max_size in Hok.
  passert. unwrap.
  rewrite copy_to_ok; simpl; [|lia..].
  eexists. split; [done|]. simpl. rewrite zlen_overwrite by lia. split; [|lia].
  split; [unfold ok, kCheapPrepend, max_size; simpl; rewrite zlen_overwrite by lia; lia|].
  unfold content, range, peek, beginWrite; simpl.
  replace (writerIndex_ b - (readerIndex_ b - zlen data))
    with (zlen data + (writerIndex_ b - readerIndex_ b)) by lia.
  rewrite sub_split by lia. rewrite Z.sub_add. f_equal.
  - apply sub_overwrite_same; lia.
  - apply sub_overwrite_after; lia.
Qed.

Lemma retrieve_spec b q len :
  holds b q -> 0 <= len <= zlen q ->
  exists b', retrieve b len = Ok b' /\ holds b' (drop (Z.to_nat len) q) /\
    buffer_ b' = buffer_ b /\
    prependableBytes b' =
      (if len <? zlen q then prependableBytes b + len else kCheapPrepend).
Proof.
  intros Hh Hlen. pose proof (readable_content b q Hh) as Er.
  destruct Hh as [Hok Hc]. unfold retrieve. rewrite Er.
  passert.
  eexists. split; [done|]. case_match; [|split; [|done]].
  - unfold prependableBytes. pose proof (zlen_content b Hok) as Hl. rewrite Hc in Hl.
    unfold ok, kCheapPrepend, max_size in Hok. simpl. unwrap. split; [|done].
    split; [unfold ok, kCheapPrepend, max_size; simpl; lia|].
    unfold content, range, peek, beginWrite in *. simpl.
    rewrite <- Hc. rewrite <- drop_sub by (rewrite zlen_sub; lia).
    rewrite zlen_sub by lia. rewrite sub_sub by lia. f_equal. lia.
  - rewrite drop_ge by (unfold zlen in *; lia).
    eapply retrieveAll_holds. by split.
Qed.

Lemma retrieve_too_much b q len :
  holds b q -> zlen q < len -> retrieve b len = Fault AssertFailed.
Proof.
  intros Hh Hl. unfold retrieve. rewrite (readable_content b q Hh).
  unfold assert_. bcases; (lia || done).
Qed.

Lemma string_at_spec b q p len :
  holds b q -> 0 <= p - peek b -> 0 <= len -> p - peek b + len <= zlen q ->
  string_at b p len = Ok (sub (p - peek b) len q).
Proof.
  intros [Hok <-] ? ? Hl. rewrite zlen_content in Hl by done.
  unfold string_at. unfold ok, peek in *. bcases; [lia..|].
  f_equal. unfold content, range, peek, beginWrite.
  rewrite sub_sub by lia. f_equal. lia.
Qed.

Lemma retrieveAsString_spec b q len :
  holds b q -> 0 <= len <= zlen q ->
  exists b', retrieveAsString b len = Ok (take (Z.to_nat len) q, b') /\
    holds b' (drop (Z.to_nat len) q) /\ buffer_ b' = buffer_ b /\
    prependableBytes b' =
      (if len <? zlen q then prependableBytes b + len else kCheapPrepend).
Proof.
  intros Hh Hl. unfold retrieveAsString.
  rewrite (readable_content b q Hh). passert.
  rewrite (string_at_spec b q) by (done || lia). simpl.
  destruct (retrieve_spec b q len) as (b' & -> & Hh' & Hb & Hp); [done..|].
  exists b'. simpl. rewrite Z.sub_diag. done.
Qed.

Lemma toString_spec b q :
  holds b q -> zlen q < 2 ^ 31 -> toString b = Ok q.
Proof.
  intros Hh Hl. unfold toString. rewrite (readable_content b q Hh).
  pose proof (zlen_nonneg q).
  rewrite swrap_small by (unfold in_int; simpl; lia).
  rewrite uwrap_small by (rewrite pow2_64; lia).
  rewrite (string_at_spec b q) by (done || lia). by rewrite Z.sub_diag, sub_full.
Qed.

Lemma shrink_spec b q reserve :
  holds b q -> 0 <= reserve -> zlen q < 2 ^ 31 -> zlen q + reserve < 2 ^ 62 ->
  exists b', shrink b reserve = Ok b' /\ holds b' q /\ reserve <= writableBytes b' /\
    kCheapPrepend <= prependableBytes b' /\
    zlen (buffer_ b') <= kCheapPrepend + kInitialSize + zlen q + reserve.
Proof.
  intros Hh Hr Hq Hsum. unfold shrink. rewrite (readable_content b q Hh).
  pose proof (zlen_nonneg q).
  rewrite uwrap_small by (rewrite pow2_64; lia).
  destruct (new_holds kInitialSize) as [Hok0 Hc0]; [done..|].
  destruct (ensureWriteableBytes_spec (new kInitialSize) (zlen q + reserve))
    as (o & -> & Hok & Hc & Hw & Hp & Hs); [done|lia|unfold room; rewrite zlen_new; unfold max_size; lia|].
  rewrite bind_ok, (toString_spec b q) by done. rewrite bind_ok.
  rewrite Hc0 in Hc. change (prependableBytes (new kInitialSize)) with 8 in Hp.
  rewrite zlen_new in Hs.
  unfold append, ensureWriteableBytes. bcases; [lia|].
  unfold mret, outcome_ret. rewrite !bind_ok. passert.
  rewrite writable_eq in Hw by done. unfold ok, kCheapPrepend, max_size in Hok. unfold beginWrite.
  rewrite bind_ok, copy_to_ok by lia. rewrite bind_ok.
  unfold hasWritten, writableBytes. simpl. rewrite zlen_overwrite by lia. unwrap. passert.
  eexists. split; [done|]. unfold writableBytes. simpl.
  rewrite zlen_overwrite by lia. unwrap. unfold kInitialSize, kCheapPrepend. split_and!; [|lia|exact Hp|lia].
  split; [unfold ok, kCheapPrepend, max_size; simpl; rewrite zlen_overwrite by lia; lia|].
  unfold content, range, peek, beginWrite in *; simpl.
  rewrite Z.add_sub_swap, sub_split, Zplus_minus by lia.
  rewrite sub_overwrite_before, Hc, sub_overwrite_same by lia. done.
Qed.

(** ** Reading from a descriptor *)
Lemma readFd_error b readv e :
  (forall n, readv n = IoError e) -> readFd b readv = Ok (-1, Some e, b).
Proof. intros H. unfold readFd. by rewrite H. Qed.

Lemma readFd_spec b q readv data :
  holds b q -> readv (iov_size b) = IoData data -> zlen data <= iov_size b ->
  room b (zlen data) ->
  exists b', readFd b readv = Ok (zlen data, None, b') /\ holds b' (q ++ data) /\
    Z.min (prependableBytes b) kCheapPrepend <= prependableBytes b' /\
    zlen (buffer_ b) <= zlen (buffer_ b') <= zlen (buffer_ b) + zlen data.
Proof.
  intros [Hok <-] Hr Hlen Hroom. unfold readFd. rewrite Hr.
  pose proof (writable_eq b Hok) as Ew. pose proof (zlen_nonneg data).
  assert (zlen (take (Z.to_nat (writableBytes b)) data) = Z.min (writableBytes b) (zlen data))
    as Ht by (unfold ok, zlen in *; rewrite length_take; lia).
  unfold ok, room, kCheapPrepend, max_size in *. rewrite copy_to_ok by lia. rewrite bind_ok. simpl.
  destruct (Z.leb_spec (zlen data) (writableBytes b)) as [Hle|Hgt].
  - unfold mret, outcome_ret. rewrite !bind_ok.
    eexists. split; [done|]. unfold prependableBytes. simpl.
    rewrite zlen_overwrite by lia. split; [|lia].
    rewrite take_ge by (unfold zlen in *; lia). unwrap.
    split; [unfold ok, kCheapPrepend, max_size; simpl; rewrite zlen_overwrite by lia; lia|].
    unfold content, range, peek, beginWrite; simpl.
    rewrite Z.add_sub_swap, sub_split, Zplus_minus by lia.
    rewrite sub_overwrite_before, sub_overwrite_same by lia. done.
  - set (b1 := {| buffer_ := _; readerIndex_ := readerIndex_ b; writerIndex_ := _ |}).
    assert (zlen (buffer_ b1) = zlen (buffer_ b)) as Hb1
      by (simpl; apply zlen_overwrite; lia).
    assert (holds b1 (content b ++ take (Z.to_nat (writableBytes b)) data)) as Hh1.
    { split; [unfold ok, kCheapPrepend, max_size; simpl; rewrite zlen_overwrite by lia; lia|].
      unfold content, range, peek, beginWrite; simpl. rewrite zlen_overwrite by lia.
      replace (zlen (buffer_ b) - readerIndex_ b)
        with (writerIndex_ b - readerIndex_ b + (zlen (buffer_ b) - writerIndex_ b)) by lia.
      rewrite sub_split, Zplus_minus by lia.
      rewrite sub_overwrite_before, sub_overwrite_same by lia. done. }
    destruct (append_spec b1 _ (drop (Z.to_nat (writableBytes b)) data) Hh1)
      as (b2 & -> & Hh2 & Hp & Hs).
    { unfold room, max_size. rewrite Hb1. unfold zlen in *. rewrite length_drop. lia. }
    exists b2. rewrite bind_ok. split; [done|].
    rewrite <- app_assoc, take_drop in Hh2. split; [done|]. split; [exact Hp|].
    rewrite Hb1 in Hs. unfold zlen in *. rewrite length_drop in Hs. lia.
Qed.

(** ** Integers in network byte order *)
Definition be (n : nat) (v : Z) : bytes := rev (to_le n v).
Definition of_be (l : bytes) : Z := of_le (rev l).

Lemma zlen_be n v : zlen (be n v) = Z.of_nat n.
Proof. unfold zlen, be. by rewrite length_rev, length_to_le. Qed.

Lemma of_be_be n v : of_be (be n v) = uwrap (8 * Z.of_nat n) v.
Proof.
  unfold of_be, be, uwrap. by rewrite rev_involutive, of_to_le, pow256_pow2.
Qed.

Section with_host.
Context {HO : HostOrder}.
Import Endian.

Lemma net_bytes n v :
  (0 < n)%nat -> let w := 8 * Z.of_nat n in
  obj_bytes n (uwrap w (swrap w (htobe n (uwrap w v)))) = be n v.
Proof.
  intros Hn w. unfold w. rewrite uwrap_swrap by lia.
  assert (in_uint (8 * Z.of_nat n) (uwrap (8 * Z.of_nat n) v))
    by (apply uwrap_range; lia).
  rewrite (uwrap_small _ (htobe _ _)) by (by apply htobe_range).
  rewrite obj_bytes_htobe. unfold be, uwrap. rewrite <- pow256_pow2.
  by rewrite to_le_mod.
Qed.

Lemma byte_bytes v : obj_bytes 1 (uwrap 8 v) = be 1 v.
Proof.
  unfold be, obj_bytes, uwrap. change (2 ^ 8) with (256 ^ Z.of_nat 1).
  rewrite to_le_mod. by destruct host_order.
Qed.

Lemma appendInt64_be b v : appendInt64 b v = append b (be 8 v).
Proof. unfold appendInt64. f_equal. apply (net_bytes 8). lia. Qed.
Lemma appendInt32_be b v : appendInt32 b v = append b (be 4 v).
Proof. unfold appendInt32. f_equal. apply (net_bytes 4). lia. Qed.
Lemma appendInt16_be b v : appendInt16 b v = append b (be 2 v).
Proof. unfold appendInt16. f_equal. apply (net_bytes 2). lia. Qed.
Lemma appendInt8_be b v : appendInt8 b v = append b (be 1 v).
Proof. unfold appendInt8. f_equal. apply byte_bytes. Qed.
Lemma prependInt64_be b v : prependInt64 b v = prepend b (be 8 v).
Proof. unfold prependInt64. f_equal. apply (net_bytes 8). lia. Qed.
Lemma prependInt32_be b v : prependInt32 b v = prepend b (be 4 v).
Proof. unfold prependInt32. f_equal. apply (net_bytes 4). lia. Qed.
Lemma prependInt16_be b v : prependInt16 b v = prepend b (be 2 v).
Proof. unfold prependInt16. f_equal. apply (net_bytes 2). lia. Qed.
Lemma prependInt8_be b v : prependInt8 b v = prepend b (be 1 v).
Proof. unfold prependInt8. f_equal. apply byte_bytes. Qed.

Lemma load_spec b q n :
  holds b q -> Z.of_nat n <= zlen q ->
  load b n = Ok (obj_value (take n q)) /\ length (take n q) = n.
Proof.
  intros [Hok <-] Hn. rewrite length_take. unfold zlen in *.
  split; [|lia]. pose proof (zlen_content b Hok) as Hl. unfold zlen in Hl.
  unfold load, ok, peek in *. case_match; [lia|]. do 2 f_equal.
  unfold content, range, peek, beginWrite, sub.
  rewrite take_take. f_equal. lia.
Qed.

(** Reading an [n]-byte integer at the front of the queue. *)
Lemma peek_int_spec b q n :
  holds b q -> Z.of_nat n <= zlen q ->
  (assert_ (Z.of_nat n <=? readableBytes b) ;;
   val ← load b n ; mret (swrap (8 * Z.of_nat n) (htobe n val)))
  = Ok (swrap (8 * Z.of_nat n) (of_be (take n q))).
Proof.
  intros Hh Hn. rewrite (readable_content b q Hh). passert.
  destruct (load_spec b q n Hh Hn) as [-> Hlen]. rewrite bind_ok.
  rewrite <- Hlen at 2. by rewrite htobe_obj_value.
Qed.

Lemma peekInt64_spec b q :
  holds b q -> 8 <= zlen q -> peekInt64 b = Ok (int64 (of_be (take 8 q))).
Proof. intros. by apply (peek_int_spec b q 8). Qed.
Lemma peekInt32_spec b q :
  holds b q -> 4 <= zlen q -> peekInt32 b = Ok (int32 (of_be (take 4 q))).
Proof. intros. by apply (peek_int_spec b q 4). Qed.
Lemma peekInt16_spec b q :
  holds b q -> 2 <= zlen q -> peekInt16 b = Ok (int16 (of_be (take 2 q))).
Proof. intros. by apply (peek_int_spec b q 2). Qed.
Lemma peekInt8_spec b q :
  holds b q -> 1 <= zlen q -> peekInt8 b = Ok (int8 (of_be (take 1 q))).
Proof.
  intros Hh Hn. unfold peekInt8. rewrite (readable_content b q Hh). passert.
  destruct (load_spec b q 1 Hh Hn) as [-> Hlen]. rewrite bind_ok.
  unfold of_be, obj_value. do 2 f_equal. destruct host_order; [|done].
  destruct q as [|x [|y q]]; done.
Qed.

(** A value of the type read back from its own representation. *)
Lemma take_be_decode n v (rest : bytes) :
  (0 < n)%nat -> in_int (8 * Z.of_nat n) v ->
  swrap (8 * Z.of_nat n) (of_be (take n (be n v ++ rest))) = v.
Proof.
  intros Hn Hv. rewrite take_app_length' by (unfold be; by rewrite length_rev, length_to_le).
  rewrite of_be_be, swrap_uwrap by lia. apply swrap_small; [lia|done].
Qed.

Lemma read_after (rd : t -> outcome Z) b n v rest :
  (0 < n)%nat -> in_int (8 * Z.of_nat n) v -> holds b (be n v ++ rest) ->
  (forall q, holds b q -> Z.of_nat n <= zlen q ->
     rd b = Ok (swrap (8 * Z.of_nat n) (of_be (take n q)))) ->
  exists b', (result ← rd b ; b' ← retrieve b (Z.of_nat n) ; mret (result, b')) = Ok (v, b') /\
    holds b' rest.
Proof.
  intros Hn Hv Hh Hrd.
  assert (Z.of_nat n <= zlen (be n v ++ rest))
    by (rewrite zlen_app, zlen_be; pose proof (zlen_nonneg rest); lia).
  rewrite (Hrd _ Hh) by done. rewrite bind_ok, take_be_decode by done.
  destruct (retrieve_spec b _ (Z.of_nat n) Hh) as (b' & -> & Hh' & _); [lia|].
  exists b'. split; [done|]. rewrite Nat2Z.id in Hh'.
  by rewrite drop_app_length' in Hh' by (unfold be; by rewrite length_rev, length_to_le).
Qed.

End with_host.

(** ** Searching *)
Lemma findCRLF_spec b q :
  holds b q ->
  findCRLF b = (if std_search kCRLF q =? zlen q then None
                else Some (peek b + std_search kCRLF q)).
Proof.
  intros [Hok <-]. unfold findCRLF. fold (content b).
  rewrite zlen_content by done. unfold beginWrite, peek. bcases; (lia || done).
Qed.

Lemma CRLF_fits q : std_search kCRLF q <> zlen q -> std_search kCRLF q + 2 <= zlen q.
Proof.
  intros Hne. pose proof (std_search_range kCRLF q).
  destruct (std_search_found kCRLF q) as [k Hk]; [lia|].
  apply (f_equal length) in Hk. rewrite length_drop, length_app in Hk.
  unfold zlen in *. simpl in Hk. lia.
Qed.

Lemma retrieveUntil_spec b q n :
  holds b q -> 0 <= n <= zlen q ->
  exists b', retrieveUntil b (peek b + n) = Ok b' /\ holds b' (drop (Z.to_nat n) q) /\
    buffer_ b' = buffer_ b.
Proof.
  intros Hh Hn. pose proof Hh as [Hok Hc]. pose proof (zlen_content b Hok) as Hl.
  rewrite Hc in Hl. unfold retrieveUntil, beginWrite, peek in *.
  unfold ok, max_size in Hok. do 2 passert.
  rewrite Z.add_simpl_l, uwrap_small by (rewrite pow2_64; lia).
  destruct (retrieve_spec b q n Hh Hn) as (b' & ? & ? & ? & _). eauto.
Qed.

Lemma unwrite_spec b q n :
  holds b q -> 0 <= n <= zlen q ->
  exists b', unwrite b n = Ok b' /\ holds b' (take (Z.to_nat (zlen q - n)) q) /\
    buffer_ b' = buffer_ b /\ readerIndex_ b' = readerIndex_ b.
Proof.
  intros Hh Hn. unfold unwrite. rewrite (readable_content b q Hh). passert.
  eexists. split; [done|]. split; [|done]. destruct Hh as [Hok <-].
  rewrite zlen_content in * by done. unfold ok, kCheapPrepend, max_size in Hok.
  unfold holds, ok, content, range, peek, beginWrite, kCheapPrepend, max_size. simpl.
  unwrap. split; [lia|]. unfold sub. rewrite take_take. f_equal. lia.
Qed.

(** ** The abstract specification: a byte queue with a little headroom

    [queued] is what [toString()] would show, [headroom] the number of bytes
    that [prepend] is guaranteed to accept. *)
Record queue := mk_queue { queued : bytes; headroom : Z }.

Inductive op :=
  | OpAppend (data : bytes)
  | OpPrepend (data : bytes)
  | OpRetrieve (n : Z)
  | OpRetrieveAll
  | OpRetrieveAsString (n : Z)
  | OpUnwrite (n : Z)
  | OpShrink (reserve : Z)
  | OpReadFd (data : bytes).

(** What the queue does; [None] when the call is not allowed.  The first
    component is the string the call returns. *)
Definition spec_step (o : op) (s : queue) : option (bytes * queue) :=
  let q := queued s in let h := headroom s in
  let consume n := mk_queue (drop (Z.to_nat n) q)
    (if n <? zlen q then Z.min kCheapPrepend (h + n) else kCheapPrepend) in
  match o with
  | OpAppend d => Some ([], mk_queue (q ++ d) h)
  | OpPrepend d => if zlen d <=? h then Some ([], mk_queue (d ++ q) (h - zlen d)) else None
  | OpRetrieve n =>
      if (0 <=? n) && (n <=? zlen q) then Some ([], consume n) else None
  | OpRetrieveAll => Some ([], mk_queue [] kCheapPrepend)
  | OpRetrieveAsString n =>
      if (0 <=? n) && (n <=? zlen q) then Some (take (Z.to_nat n) q, consume n) else None
  | OpUnwrite n =>
      if (0 <=? n) && (n <=? zlen q)
      then Some ([], mk_queue (take (Z.to_nat (zlen q - n)) q) h) else None
  | OpShrink reserve =>
      if (0 <=? reserve) && (zlen q <? 2 ^ 31)
      then Some ([], mk_queue q kCheapPrepend) else None
  | OpReadFd d =>
      if zlen d <=? extra_size then Some ([], mk_queue (q ++ d) h) else None
  end.

(** The code run by the same operation. *)
Definition exec (o : op) (b : t) : outcome (bytes * t) :=
  match o with
  | OpAppend d => b' ← append b d ; mret ([], b')
  | OpPrepend d => b' ← prepend b d ; mret ([], b')
  | OpRetrieve n => b' ← retrieve b n ; mret ([], b')
  | OpRetrieveAll => mret ([], retrieveAll b)
  | OpRetrieveAsString n => retrieveAsString b n
  | OpUnwrite n => b' ← unwrite b n ; mret ([], b')
  | OpShrink reserve => b' ← shrink b reserve ; mret ([], b')
  | OpReadFd d => '(_, _, b') ← readFd b (fun _ => IoData d) ; mret ([], b')
  end.

(** By how much an operation may enlarge the vector. *)
Definition cost (o : op) : Z :=
  match o with
  | OpAppend d | OpReadFd d => zlen d
  | OpShrink reserve => kCheapPrepend + kInitialSize + Z.max 0 reserve
  | _ => 0
  end.

Fixpoint spec_run (ops : list op) (s : queue) : option (list bytes * queue) :=
  match ops with
  | [] => Some ([], s)
  | o :: rest =>
      '(r, s1) ← spec_step o s ; '(rs, s2) ← spec_run rest s1 ; Some (r :: rs, s2)
  end.

Fixpoint exec_run (ops : list op) (b : t) : outcome (list bytes * t) :=
  match ops with
  | [] => mret ([], b)
  | o :: rest =>
      '(r, b1) ← exec o b ; '(rs, b2) ← exec_run rest b1 ; mret (r :: rs, b2)
  end.

Fixpoint total_cost (ops : list op) : Z :=
  match ops with [] => 0 | o :: rest => cost o + total_cost rest end.

(** The simulation relation. *)
Definition implements (b : t) (s : queue) : Prop :=
  holds b (queued s) /\ headroom s <= prependableBytes b /\ headroom s <= kCheapPrepend.

Lemma cost_nonneg o : 0 <= cost o.
Proof.
  destruct o; unfold cost, kCheapPrepend, kInitialSize; try apply zlen_nonneg; lia.
Qed.

Lemma total_cost_nonneg ops : 0 <= total_cost ops.
Proof. induction ops as [|o ops IH]; simpl; [lia|]. pose proof (cost_nonneg o). lia. Qed.

Lemma iov_size_extra b : ok b -> extra_size <= iov_size b.
Proof.
  intros Hok. unfold iov_size. pose proof (writable_eq b Hok). unfold ok in Hok.
  bcases; unfold extra_size in *; lia.
Qed.

Ltac sim_done :=
  eexists; split; [done|]; unfold kCheapPrepend, kInitialSize in *;
  split; [split; [done|simpl; unfold kCheapPrepend; lia]|simpl; lia].

Lemma exec_simulates o b s r s' :
  implements b s -> spec_step o s = Some (r, s') ->
  zlen (buffer_ b) + cost o <= 2 ^ 62 ->
  exists b', exec o b = Ok (r, b') /\ implements b' s' /\
    zlen (buffer_ b') <= zlen (buffer_ b) + cost o.
Proof.
  intros (Hh & Hr & H8) Hs Hc. destruct s as [q h]; simpl in *.
  pose proof (holds_ok b q Hh) as Hok. pose proof (zlen_nonneg q).
  assert (zlen q <= zlen (buffer_ b)).
  { destruct Hh as [_ <-]. rewrite zlen_content by done. unfold ok in Hok. lia. }
  destruct o as [d|d|n| |n|n|rs|d]; simpl in *; simplify_option_eq;
    repeat match goal with H : (if ?c then _ else _) = Some _ |- _ =>
      destruct c eqn:?; simplify_eq end.
  - pose proof (zlen_nonneg d).
    destruct (append_spec b q d Hh) as (b' & -> & ? & ? & ?);
      [unfold room, max_size; lia|]. sim_done.
  - pose proof (zlen_nonneg d).
    destruct (prepend_spec b q d Hh) as (b' & -> & ? & ? & ?); [lia|]. sim_done.
  - destruct (retrieve_spec b q n Hh) as (b' & -> & ? & Hb & ?); [lia|].
    rewrite <- Hb in *. eexists; split; [done|]; split; [split; [done|]|]; simpl; case_match; lia.
  - eexists; split; [done|]. split; [|simpl; lia]. split; [by eapply retrieveAll_holds|done].
  - destruct (retrieveAsString_spec b q n Hh) as (b' & -> & ? & Hb & ?); [lia|].
    rewrite <- Hb in *. eexists; split; [done|]; split; [split; [done|]|]; simpl; case_match; lia.
  - destruct (unwrite_spec b q n Hh) as (b' & -> & ? & Hb & Hi); [lia|].
    change (prependableBytes b' = prependableBytes b) in Hi. rewrite <- Hb in *. sim_done.
  - unfold kCheapPrepend, kInitialSize in *.
    destruct (shrink_spec b q rs Hh) as (b' & -> & ? & ? & ? & ?); [lia..|]. sim_done.
  - pose proof (iov_size_extra b Hok). pose proof (zlen_nonneg d).
    destruct (readFd_spec b q (fun _ => IoData d) d Hh) as (b' & -> & ? & ? & ?);
      [done|lia|unfold room, max_size; lia|]. sim_done.
Qed.

(** C1. Refinement: whatever sequence of appends, prepends, retrievals,
    unwrites, shrinks and descriptor reads the byte queue allows, the buffer
    executes it without a failing assertion, an out-of-range access or a thrown
    exception, returns the same strings, and ends with the queue's content
    (provided the vector stays below 2^62 bytes). *)
Theorem buffer_refines_queue ops b s outs s' :
  implements b s -> spec_run ops s = Some (outs, s') ->
  zlen (buffer_ b) + total_cost ops <= 2 ^ 62 ->
  exists b', exec_run ops b = Ok (outs, b') /\ implements b' s'.
Proof.
  revert b s outs. induction ops as [|o ops IH]; intros b s outs Hi Hs Hc; simpl in *.
  - simplify_eq. eauto.
  - destruct (spec_step o s) as [[r s1]|] eqn:E1; [|done]. simpl in Hs.
    destruct (spec_run ops s1) as [[rs s2]|] eqn:E2; [|done]. simplify_eq/=.
    pose proof (total_cost_nonneg ops).
    destruct (exec_simulates o b s r s1) as (b1 & -> & Hi1 & Hb1); [done..|lia|].
    destruct (IH b1 s1 rs Hi1 E2) as (b' & Hb' & ?); [lia|].
    exists b'. simpl. by rewrite Hb'.
Qed.

Definition demo_ops : list op :=
  [OpAppend (str "hello"); OpPrepend (str "ab"); OpRetrieveAsString 3;
   OpReadFd (str " world"); OpShrink 16; OpUnwrite 2; OpRetrieve 1].

Lemma buffer_refines_queue_witness :
  exists b', exec_run demo_ops (new kInitialSize) = Ok ([[]; []; str "abh"; []; []; []; []], b') /\
    implements b' (mk_queue (str "llo wor") 8).
Proof.
  apply (buffer_refines_queue demo_ops (new kInitialSize) (mk_queue [] 8)).
  - split; [by apply new_holds|done].
  - reflexivity.
  - vm_compute. discriminate.
Defined.

(** Space management: making room for [len] bytes keeps the readable
    bytes, makes [len] bytes writable, and allocates a larger vector exactly
    when the free space (writable and prependable, less the eight reserved
    bytes) is too small; otherwise the data moves to the front of the same
    vector. *)
Theorem buffer_makeSpace b len :
  ok b -> 0 <= len -> writableBytes b < len -> zlen (buffer_ b) + len <= max_size ->
  exists b', makeSpace b len = Ok b' /\ ok b' /\ content b' = content b /\
    len <= writableBytes b' /\
    (writableBytes b + prependableBytes b < len + kCheapPrepend ->
       zlen (buffer_ b') = writerIndex_ b + len) /\
    (len + kCheapPrepend <= writableBytes b + prependableBytes b ->
       zlen (buffer_ b') = zlen (buffer_ b)).
Proof.
  intros Hok Hl Hw Hr.
  destruct (makeSpace_spec b len) as (b' & ? & ? & ? & ? & ? & Hs); [done..|].
  exists b'. split_and!; [done..| |]; intros; rewrite Hs; bcases; lia.
Qed.

Lemma buffer_makeSpace_witness :
  let b := mk (replicate 40 "x"%char) 30 36 in
  exists b', makeSpace b 8 = Ok b' /\ zlen (buffer_ b') = 40 /\ content b' = content b.
Proof.
  destruct (buffer_makeSpace (mk (replicate 40 "x"%char) 30 36) 8)
    as (b' & H1 & _ & H2 & _ & _ & H3);
    [unfold ok; vm_compute; intuition discriminate|lia|reflexivity|vm_compute; discriminate|].
  exists b'. split; [exact H1|]. split; [|exact H2]. apply H3. vm_compute. discriminate.
Defined.

Section int_props.
Context {HO : HostOrder}.

(** Round trip and wire format: on hosts of either byte order,
    [appendInt32]/[appendInt64]/[appendInt16]/[appendInt8] add the big-endian
    bytes of the value at the end of the queue. *)
Theorem buffer_append_int_wire b q v :
  holds b q -> room b 8 ->
  (exists b', appendInt64 b v = Ok b' /\ holds b' (q ++ be 8 v)) /\
  (exists b', appendInt32 b v = Ok b' /\ holds b' (q ++ be 4 v)) /\
  (exists b', appendInt16 b v = Ok b' /\ holds b' (q ++ be 2 v)) /\
  (exists b', appendInt8 b v = Ok b' /\ holds b' (q ++ be 1 v)).
Proof.
  intros Hh Hr. unfold room in *.
  rewrite appendInt64_be, appendInt32_be, appendInt16_be, appendInt8_be.
  split_and!;
    match goal with |- context [be ?n v] =>
      destruct (append_spec b q (be n v) Hh) as (b' & ? & ? & _);
        [unfold room; rewrite zlen_be; lia | eauto]
    end.
Qed.

(** Round trip: a value prepended in network byte order is what the
    matching read returns, and the read leaves the queue as it was before. *)
Theorem buffer_int_roundtrip b q v :
  holds b q -> 8 <= prependableBytes b ->
  (in_int 64 v -> exists b1 b2, prependInt64 b v = Ok b1 /\ readInt64 b1 = Ok (v, b2) /\ holds b2 q) /\
  (in_int 32 v -> exists b1 b2, prependInt32 b v = Ok b1 /\ readInt32 b1 = Ok (v, b2) /\ holds b2 q) /\
  (in_int 16 v -> exists b1 b2, prependInt16 b v = Ok b1 /\ readInt16 b1 = Ok (v, b2) /\ holds b2 q) /\
  (in_int 8 v -> exists b1 b2, prependInt8 b v = Ok b1 /\ readInt8 b1 = Ok (v, b2) /\ holds b2 q).
Proof.
  intros Hh Hp.
  rewrite prependInt64_be, prependInt32_be, prependInt16_be, prependInt8_be.
  split_and!; intros Hv;
    match goal with |- context [be ?n v] =>
      destruct (prepend_spec b q (be n v) Hh) as (b1 & -> & Hh1 & _);
        [rewrite zlen_be; lia|]; exists b1
    end.
  - destruct (read_after peekInt64 b1 8 v q) as (b2 & ? & ?); eauto using peekInt64_spec with lia.
  - destruct (read_after peekInt32 b1 4 v q) as (b2 & ? & ?); eauto using peekInt32_spec with lia.
  - destruct (read_after peekInt16 b1 2 v q) as (b2 & ? & ?); eauto using peekInt16_spec with lia.
  - destruct (read_after peekInt8 b1 1 v q) as (b2 & ? & ?); eauto using peekInt8_spec with lia.
Qed.

End int_props.

Lemma buffer_append_int_wire_witness :
  let HO := LittleEndian : HostOrder in
  exists b', appendInt32 (new kInitialSize) (-3) = Ok b' /\ holds b' (be 4 (-3)).
Proof.
  intros HO.
  refine (proj1 (proj2 (buffer_append_int_wire (new kInitialSize) [] (-3) _ _))).
  - by apply new_holds.
  - vm_compute. discriminate.
Defined.

Lemma buffer_int_roundtrip_witness :
  let HO := LittleEndian : HostOrder in
  exists b1 b2, prependInt16 (new kInitialSize) (-2) = Ok b1 /\ readInt16 b1 = Ok (-2, b2) /\
    holds b2 [].
Proof.
  intros HO.
  refine (proj1 (proj2 (proj2 (buffer_int_roundtrip (new kInitialSize) [] (-2) _ _))) _).
  - by apply new_holds.
  - vm_compute. discriminate.
  - unfold in_int. simpl. lia.
Defined.

End Buffer.
