(* ===== verification/NumText.v ===== *)
(** Integer to text conversion: the table-driven routines of
    src/libel/base/num2string.cpp and [convertHex] of logstream.cpp, proved
    equal to positional notation. *)

From S2P Require Import Prelude.

Module Num2String.

(** ** The code *)

Definition gDigitsLut : bytes := str
  ("0001020304050607080910111213141516171819" ++
   "2021222324252627282930313233343536373839" ++
   "4041424344454647484950515253545556575859" ++
   "6061626364656667686970717273747576777879" ++
   "8081828384858687888990919293949596979899").

(** [gDigitsLut[i]] *)
Definition lut (i : Z) : outcome byte :=
  if i <? 0 then Fault OutOfBounds else
  match gDigitsLut !! Z.to_nat i with
  | Some c => Ok c
  | None => Fault OutOfBounds
  end.

(** [if (c) *buffer++ = gDigitsLut[i];]: what the statement writes. *)
Definition put_if (c : bool) (i : Z) : outcome bytes :=
  if c then d ← lut i ; mret [d] else mret [].

Definition put (i : Z) : outcome bytes := put_if true i.

(** [*buffer++ = static_cast<char>('0' + static_cast<char>(a));] *)
Definition put_digit (a : Z) : outcome bytes :=
  mret [byte_of_Z (48 + int8 a)].

(** Statements one after the other. *)
Fixpoint seq (ws : list (outcome bytes)) : outcome bytes :=
  match ws with
  | [] => mret []
  | w :: rest => x ← w ; y ← seq rest ; mret (x ++ y)
  end.

(** The bytes each routine stores at [buffer], one after the other; [into] below makes
    the call out of them. *)
Definition u32toa (value : Z) : outcome bytes :=
  if value <? 10000 then
    let d1 := uint32 (Z.shiftl (value / 100) 1) in
    let d2 := uint32 (Z.shiftl (value mod 100) 1) in
    seq [put_if (1000 <=? value) d1; put_if (100 <=? value) (d1 + 1);
         put_if (10 <=? value) d2; put (d2 + 1)]
  else if value <? 100000000 then
    let b := value / 10000 in
    let c := value mod 10000 in
    let d1 := uint32 (Z.shiftl (b / 100) 1) in
    let d2 := uint32 (Z.shiftl (b mod 100) 1) in
    let d3 := uint32 (Z.shiftl (c / 100) 1) in
    let d4 := uint32 (Z.shiftl (c mod 100) 1) in
    seq [put_if (10000000 <=? value) d1; put_if (1000000 <=? value) (d1 + 1);
         put_if (100000 <=? value) d2; put (d2 + 1);
         put d3; put (d3 + 1); put d4; put (d4 + 1)]
  else
    let a := value / 100000000 in
    let value := value mod 100000000 in
    let b := value / 10000 in
    let c := value mod 10000 in
    let d1 := uint32 (Z.shiftl (b / 100) 1) in
    let d2 := uint32 (Z.shiftl (b mod 100) 1) in
    let d3 := uint32 (Z.shiftl (c / 100) 1) in
    let d4 := uint32 (Z.shiftl (c mod 100) 1) in
    seq [(if 10 <=? a then
            let i := uint32 (Z.shiftl a 1) in seq [put i; put (i + 1)]
          else put_digit a);
         put d1; put (d1 + 1); put d2; put (d2 + 1);
         put d3; put (d3 + 1); put d4; put (d4 + 1)].

Definition i32toa (value : Z) : outcome bytes :=
  let u := uint32 value in
  if value <? 0 then
    s ← u32toa (uint32 (Z.lnot u + 1)) ; mret (str "-" ++ s)
  else u32toa u.

Definition u16toa (number : Z) : outcome bytes := u32toa (uint32 number).
Definition i16toa (number : Z) : outcome bytes := i32toa (int32 number).

Definition u64toa (value : Z) : outcome bytes :=
  if value <? 100000000 then
    let v := uint32 value in
    if v <? 10000 then
      let d1 := uint32 (Z.shiftl (v / 100) 1) in
      let d2 := uint32 (Z.shiftl (v mod 100) 1) in
      seq [put_if (1000 <=? v) d1; put_if (100 <=? v) (d1 + 1);
           put_if (10 <=? v) d2; put (d2 + 1)]
    else
      let b := v / 10000 in
      let c := v mod 10000 in
      let d1 := uint32 (Z.shiftl (b / 100) 1) in
      let d2 := uint32 (Z.shiftl (b mod 100) 1) in
      let d3 := uint32 (Z.shiftl (c / 100) 1) in
      let d4 := uint32 (Z.shiftl (c mod 100) 1) in
      seq [put_if (10000000 <=? value) d1; put_if (1000000 <=? value) (d1 + 1);
           put_if (100000 <=? value) d2; put (d2 + 1);
           put d3; put (d3 + 1); put d4; put (d4 + 1)]
  else if value <? 10000000000000000 then
    let v0 := uint32 (value / 100000000) in
    let v1 := uint32 (value mod 100000000) in
    let b0 := v0 / 10000 in
    let c0 := v0 mod 10000 in
    let d1 := uint32 (Z.shiftl (b0 / 100) 1) in
    let d2 := uint32 (Z.shiftl (b0 mod 100) 1) in
    let d3 := uint32 (Z.shiftl (c0 / 100) 1) in
    let d4 := uint32 (Z.shiftl (c0 mod 100) 1) in
    let b1 := v1 / 10000 in
    let c1 := v1 mod 10000 in
    let d5 := uint32 (Z.shiftl (b1 / 100) 1) in
    let d6 := uint32 (Z.shiftl (b1 mod 100) 1) in
    let d7 := uint32 (Z.shiftl (c1 / 100) 1) in
    let d8 := uint32 (Z.shiftl (c1 mod 100) 1) in
    seq [put_if (1000000000000000 <=? value) d1; put_if (100000000000000 <=? value) (d1 + 1);
         put_if (10000000000000 <=? value) d2; put_if (1000000000000 <=? value) (d2 + 1);
         put_if (100000000000 <=? value) d3; put_if (10000000000 <=? value) (d3 + 1);
         put_if (1000000000 <=? value) d4; put_if (100000000 <=? value) (d4 + 1);
         put d5; put (d5 + 1); put d6; put (d6 + 1);
         put d7; put (d7 + 1); put d8; put (d8 + 1)]
  else
    let a := uint32 (value / 10000000000000000) in
    let value := value mod 10000000000000000 in
    let v0 := uint32 (value / 100000000) in
    let v1 := uint32 (value mod 100000000) in
    let b0 := v0 / 10000 in
    let c0 := v0 mod 10000 in
    let d1 := uint32 (Z.shiftl (b0 / 100) 1) in
    let d2 := uint32 (Z.shiftl (b0 mod 100) 1) in
    let d3 := uint32 (Z.shiftl (c0 / 100) 1) in
    let d4 := uint32 (Z.shiftl (c0 mod 100) 1) in
    let b1 := v1 / 10000 in
    let c1 := v1 mod 10000 in
    let d5 := uint32 (Z.shiftl (b1 / 100) 1) in
    let d6 := uint32 (Z.shiftl (b1 mod 100) 1) in
    let d7 := uint32 (Z.shiftl (c1 / 100) 1) in
    let d8 := uint32 (Z.shiftl (c1 mod 100) 1) in
    seq [(if a <? 10 then put_digit a
          else if a <? 100 then
            let i := uint32 (Z.shiftl a 1) in seq [put i; put (i + 1)]
          else if a <? 1000 then
            let i := uint32 (Z.shiftl (a mod 100) 1) in
            seq [put_digit (a / 100); put i; put (i + 1)]
          else
            let i := uint32 (Z.shiftl (a / 100) 1) in
            let j := uint32 (Z.shiftl (a mod 100) 1) in
            seq [put i; put (i + 1); put j; put (j + 1)]);
         put d1; put (d1 + 1); put d2; put (d2 + 1);
         put d3; put (d3 + 1); put d4; put (d4 + 1);
         put d5; put (d5 + 1); put d6; put (d6 + 1);
         put d7; put (d7 + 1); put d8; put (d8 + 1)].

Definition i64toa (value : Z) : outcome bytes :=
  let u := uint64 value in
  if value <? 0 then
    s ← u64toa (uint64 (Z.lnot u + 1)) ; mret (str "-" ++ s)
  else u64toa u.

(** The call, with the caller's buffer: the bytes go to its front, nothing is put behind
    them (the [*buffer++ = 0;] of the sources is a comment), and the result, a [short], is
    their number. *)
Definition into (stored : outcome bytes) (to : bytes) : outcome (bytes * Z) :=
  s ← stored ;
  if zlen s <=? zlen to then mret (s ++ drop (length s) to, int16 (zlen s)) else Fault OutOfBounds.

Definition u16toa_into (number : Z) (to : bytes) : outcome (bytes * Z) := into (u16toa number) to.
Definition u32toa_into (number : Z) (to : bytes) : outcome (bytes * Z) := into (u32toa number) to.
Definition u64toa_into (number : Z) (to : bytes) : outcome (bytes * Z) := into (u64toa number) to.
Definition i16toa_into (number : Z) (to : bytes) : outcome (bytes * Z) := into (i16toa number) to.
Definition i32toa_into (number : Z) (to : bytes) : outcome (bytes * Z) := into (i32toa number) to.
Definition i64toa_into (number : Z) (to : bytes) : outcome (bytes * Z) := into (i64toa number) to.

(** A buffer read as a C string. *)
Fixpoint c_str (s : bytes) : bytes :=
  match s with [] => [] | c :: s => if Z_of_byte c =? 0 then [] else c :: c_str s end.

Example u64toa_max : u64toa (2 ^ 64 - 1) = Ok (str "18446744073709551615").
Proof. vm_compute. reflexivity. Qed.
Example i32toa_min : i32toa (- 2 ^ 31) = Ok (str "-2147483648").
Proof. vm_compute. reflexivity. Qed.

(** [convertHex(buf, val)]: digits least significant first, then reversed. *)
Definition digitsHex : bytes := str "0123456789ABCDEF".

Fixpoint hex_loop (fuel : nat) (temp : Z) : outcome bytes :=
  match fuel with
  | O => Fault OutOfFuel
  | S f =>
      let lsd := temp mod 16 in
      let temp := temp / 16 in
      c ← (match digitsHex !! Z.to_nat lsd with Some c => Ok c | None => Fault OutOfBounds end) ;
      rest ← (if temp =? 0 then mret [] else hex_loop f temp) ;
      mret (c :: rest)
  end.

(** Sixteen iterations are enough for a 64-bit pointer. *)
Definition convertHex (val : Z) : outcome bytes :=
  s ← hex_loop 16 val ; mret (rev s).

(** ** The reference: positional notation *)
Definition digit (d : Z) : byte := byte_of_Z (48 + d).

Fixpoint dec_fuel (fuel : nat) (v : Z) : bytes :=
  match fuel with
  | O => [digit v]
  | S f => if v <? 10 then [digit v] else dec_fuel f (v / 10) ++ [digit (v mod 10)]
  end.

(** Decimal notation of a natural number below [10^20], no leading zero. *)
Definition dec (v : Z) : bytes := dec_fuel 19 v.

(** Exactly [k] digits. *)
Fixpoint pad (k : nat) (v : Z) : bytes :=
  match k with
  | O => []
  | S k' => digit (v / 10 ^ Z.of_nat k' mod 10) :: pad k' v
  end.

(** Drop the digits whose place value exceeds [v], but never the last one. *)
Fixpoint keep (v : Z) (ds : bytes) : bytes :=
  match ds with
  | [] => []
  | d :: rest =>
      (if 10 ^ zlen rest <=? v then [d] else if zlen rest =? 0 then [d] else []) ++ keep v rest
  end.

(** ** Digits *)
Lemma pow10_pos k : 0 < 10 ^ Z.of_nat k.
Proof. apply Z.pow_pos_nonneg; lia. Qed.

Lemma pow10_succ k : 10 ^ Z.of_nat (S k) = 10 * 10 ^ Z.of_nat k.
Proof. rewrite Nat2Z.inj_succ, Z.pow_succ_r by lia. done. Qed.

Lemma zlen_pad k v : zlen (pad k v) = Z.of_nat k.
Proof. unfold zlen. f_equal. induction k; simpl; congruence. Qed.

(** [pad k] only sees the value modulo [10^k]. *)
Lemma pad_add k v a : pad k (v + a * 10 ^ Z.of_nat k) = pad k v.
Proof.
  revert a. induction k as [|k IH]; intros a; [done|]. simpl pad.
  pose proof (pow10_pos k). rewrite pow10_succ.
  replace (v + a * (10 * 10 ^ Z.of_nat k)) with (v + (a * 10) * 10 ^ Z.of_nat k) by lia.
  rewrite Z.div_add, Z.mod_add by lia. f_equal. apply IH.
Qed.

Lemma pad_mod k v : pad k (v mod 10 ^ Z.of_nat k) = pad k v.
Proof.
  pose proof (pow10_pos k).
  rewrite (Z.div_mod v (10 ^ Z.of_nat k)) at 2 by lia.
  rewrite Z.add_comm, (Z.mul_comm (10 ^ _)). by rewrite pad_add.
Qed.

Lemma pad_split j k v :
  pad (j + k) v = pad j (v / 10 ^ Z.of_nat k) ++ pad k (v mod 10 ^ Z.of_nat k).
Proof.
  rewrite pad_mod. induction j as [|j IH]; [done|].
  simpl. rewrite IH. f_equal. f_equal. f_equal.
  rewrite Nat2Z.inj_add, Z.add_comm, Z.pow_add_r by lia.
  pose proof (pow10_pos k). pose proof (pow10_pos j).
  by rewrite Z.div_div by lia.
Qed.

Lemma pad_snoc k v : pad (S k) v = pad k (v / 10) ++ [digit (v mod 10)].
Proof.
  replace (S k) with (k + 1)%nat by lia. rewrite pad_split. f_equal.
  simpl. change (10 ^ 1) with 10. by rewrite Z.div_1_r, Z.mod_mod by lia.
Qed.

Lemma dec_fuel_pad f k v :
  (k <= f)%nat -> (if Nat.eqb k 0 then 0 <= v else 10 ^ Z.of_nat k <= v) ->
  v < 10 ^ Z.of_nat (S k) -> dec_fuel f v = pad (S k) v.
Proof.
  revert k v. induction f as [|f IH]; intros k v Hk Hlo Hhi.
  - assert (k = 0%nat) as -> by lia. simpl in *. rewrite Z.div_1_r, Z.mod_small by lia. done.
  - simpl dec_fuel. destruct k as [|k].
    + simpl in *. rewrite Z.div_1_r, Z.mod_small by lia. bcases; [done|lia].
    + rewrite pad_snoc. cbn [Nat.eqb] in Hlo. pose proof (pow10_pos k).
      rewrite pow10_succ in Hlo. rewrite !pow10_succ in Hhi.
      bcases; [lia|]. f_equal. apply IH; [lia| |].
      * destruct k; simpl Nat.eqb; [apply Z.div_pos; lia|].
        apply Z.div_le_lower_bound; lia.
      * apply Z.div_lt_upper_bound; rewrite ?pow10_succ; lia.
Qed.

Lemma keep_pad_cons v k w :
  keep v (pad (S k) w) =
  (if 10 ^ Z.of_nat k <=? v then [digit (w / 10 ^ Z.of_nat k mod 10)]
   else if Z.of_nat k =? 0 then [digit (w / 10 ^ Z.of_nat k mod 10)] else []) ++ keep v (pad k w).
Proof. cbn [pad]. cbn [keep]. by rewrite zlen_pad. Qed.

Lemma keep_all v k w : 10 ^ Z.of_nat k <= v -> keep v (pad (S k) w) = pad (S k) w.
Proof.
  induction k as [|k IH]; intros Hv; rewrite keep_pad_cons.
  - simpl. case_match; done.
  - rewrite pow10_succ in Hv. pose proof (pow10_pos k). rewrite IH by lia.
    rewrite <- pow10_succ in Hv. bcases; [done|lia|lia].
Qed.

(** Keeping the significant digits of a padded number is its decimal form. *)
Lemma keep_pad k v :
  (k <= 19)%nat -> 0 <= v < 10 ^ Z.of_nat (S k) -> keep v (pad (S k) v) = dec v.
Proof.
  induction k as [|k IH]; intros Hk Hv.
  - unfold dec. rewrite (dec_fuel_pad 19 0) by (simpl; lia).
    rewrite keep_pad_cons. simpl. case_match; done.
  - destruct (decide (10 ^ Z.of_nat (S k) <= v)).
    + rewrite keep_all by done. unfold dec. symmetry. apply dec_fuel_pad; [lia|done|lia].
    + rewrite keep_pad_cons. bcases; [lia|lia|]. simpl app. apply IH; lia.
Qed.

(** ** The table *)
Definition lut_check (n : nat) : bool :=
  let x := Z.of_nat n in
  match lut (2 * x), lut (2 * x + 1) with
  | Ok a, Ok b => Ascii.eqb a (digit (x / 10)) && Ascii.eqb b (digit (x mod 10))
  | _, _ => false
  end.

Lemma lut_checked : forallb lut_check (List.seq 0 100) = true.
Proof. vm_compute. reflexivity. Qed.

Lemma lut_spec x :
  0 <= x < 100 -> lut (2 * x) = Ok (digit (x / 10)) /\ lut (2 * x + 1) = Ok (digit (x mod 10)).
Proof.
  intros Hx. pose proof lut_checked as H. rewrite forallb_forall in H.
  specialize (H (Z.to_nat x)). rewrite in_seq in H. specialize (H ltac:(lia)).
  unfold lut_check in H. rewrite Z2Nat.id in H by lia.
  destruct (lut (2 * x)), (lut (2 * x + 1)); try done.
  rewrite andb_true_iff, !Ascii.eqb_eq in H. destruct H. by subst.
Qed.

Lemma shl1 x : 0 <= x < 10000 -> uint32 (Z.shiftl x 1) = 2 * x.
Proof.
  intros. rewrite Z.shiftl_mul_pow2 by lia. rewrite uwrap_small; simpl; lia.
Qed.

Lemma put_if_hi c x :
  0 <= x < 100 -> put_if c (uint32 (Z.shiftl x 1)) = Ok (if c then [digit (x / 10)] else []).
Proof.
  intros. rewrite shl1 by lia. unfold put_if.
  destruct c; [|done]. by rewrite (proj1 (lut_spec x ltac:(lia))).
Qed.

Lemma put_if_lo c x :
  0 <= x < 100 ->
  put_if c (uint32 (Z.shiftl x 1) + 1) = Ok (if c then [digit (x mod 10)] else []).
Proof.
  intros. rewrite shl1 by lia. unfold put_if.
  destruct c; [|done]. by rewrite (proj2 (lut_spec x ltac:(lia))).
Qed.

Lemma pad2 x : 0 <= x < 100 -> pad 2 x = [digit (x / 10); digit (x mod 10)].
Proof.
  intros. cbn [pad]. change (10 ^ Z.of_nat 1) with 10. change (10 ^ Z.of_nat 0) with 1.
  rewrite Z.div_1_r, (Z.mod_small (x / 10)); [done|].
  split; [apply Z.div_pos; lia|apply Z.div_lt_upper_bound; lia].
Qed.

Lemma pad4 x :
  0 <= x < 10000 ->
  pad 4 x = [digit (x / 100 / 10); digit (x / 100 mod 10);
             digit (x mod 100 / 10); digit (x mod 100 mod 10)].
Proof.
  intros. change 4%nat with (2 + 2)%nat. rewrite pad_split. change (10 ^ Z.of_nat 2) with 100.
  rewrite !pad2; [done|apply Z.mod_pos_bound; lia|].
  split; [apply Z.div_pos; lia|apply Z.div_lt_upper_bound; lia].
Qed.

(** ** Assembling the branches *)
Lemma dec_pad k v :
  (k <= 19)%nat -> 10 ^ Z.of_nat k <= v < 10 ^ Z.of_nat (S k) -> dec v = pad (S k) v.
Proof.
  intros Hk Hv. unfold dec. apply dec_fuel_pad; [lia| |lia].
  pose proof (pow10_pos k). case_match; lia.
Qed.

Lemma keep_full v ds : ds <> [] -> 10 ^ (zlen ds - 1) <= v -> keep v ds = ds.
Proof.
  induction ds as [|d ds IH]; [done|]. intros _ Hv. rewrite zlen_cons in Hv.
  replace (1 + zlen ds - 1) with (zlen ds) in Hv by lia.
  cbn [keep]. destruct (Z.leb_spec (10 ^ zlen ds) v); [|lia]. simpl. f_equal.
  destruct ds as [|e ds]; [done|]. apply IH; [done|].
  etransitivity; [|exact Hv]. apply Z.pow_le_mono_r; lia.
Qed.

Lemma keep4 v a b c d :
  keep v [a; b; c; d] =
  (if 1000 <=? v then [a] else []) ++ (if 100 <=? v then [b] else []) ++
  (if 10 <=? v then [c] else []) ++ [d].
Proof.
  cbn [keep]. change (zlen [b; c; d]) with 3. change (zlen [c; d]) with 2.
  change (zlen [d]) with 1. change (zlen (@nil byte)) with 0. simpl Z.eqb.
  change (10 ^ 3) with 1000. change (10 ^ 2) with 100. change (10 ^ 1) with 10.
  rewrite app_nil_r. by destruct (10 ^ 0 <=? v).
Qed.

Lemma keep_app3 v a b c ds :
  ds <> [] -> 10 ^ (zlen ds - 1) <= v ->
  keep v (a :: b :: c :: ds) =
  (if 10 ^ (zlen ds + 2) <=? v then [a] else []) ++
  (if 10 ^ (zlen ds + 1) <=? v then [b] else []) ++
  (if 10 ^ zlen ds <=? v then [c] else []) ++ ds.
Proof.
  intros Hne Hv. assert (0 < zlen ds).
  { pose proof (zlen_nonneg ds). destruct (decide (zlen ds = 0)) as [E|]; [|lia].
    by apply zlen_0 in E. }
  cbn [keep]. rewrite !zlen_cons, keep_full by done.
  replace (1 + (1 + zlen ds)) with (zlen ds + 2) by lia.
  replace (1 + zlen ds) with (zlen ds + 1) by lia.
  rewrite !(proj2 (Z.eqb_neq _ 0)) by lia. done.
Qed.

Lemma log10_exists n a :
  1 <= a < 10 ^ Z.of_nat n -> exists j, (j < n)%nat /\ 10 ^ Z.of_nat j <= a < 10 ^ Z.of_nat (S j).
Proof.
  induction n as [|n IH]; intros Ha; [simpl in Ha; lia|].
  destruct (decide (10 ^ Z.of_nat n <= a)).
  - exists n. split_and!; [lia|done|by apply Ha].
  - destruct IH as (j & ? & ?); [lia|]. exists j. split; [lia|done].
Qed.

Lemma dec_split k v :
  10 ^ Z.of_nat k <= v < 10 ^ 20 ->
  dec v = dec (v / 10 ^ Z.of_nat k) ++ pad k (v mod 10 ^ Z.of_nat k).
Proof.
  intros Hv. pose proof (pow10_pos k).
  destruct (log10_exists 20 (v / 10 ^ Z.of_nat k)) as (j & Hj & Ha).
  { change (10 ^ Z.of_nat 20) with (10 ^ 20). split; [apply Z.div_le_lower_bound; lia|].
    apply Z.div_lt_upper_bound; [lia|]. nia. }
  assert (10 ^ Z.of_nat (j + k) <= v < 10 ^ Z.of_nat (S j + k)) as Hv'.
  { rewrite !Nat2Z.inj_add, !Z.pow_add_r by lia.
    pose proof (Z.mul_div_le v (10 ^ Z.of_nat k) ltac:(lia)).
    pose proof (Z.mul_succ_div_gt v (10 ^ Z.of_nat k) ltac:(lia)). nia. }
  assert ((j + k < 20)%nat).
  { apply Nat2Z.inj_lt. apply (Z.pow_lt_mono_r_iff 10); [lia|lia|].
    change (10 ^ Z.of_nat 20) with (10 ^ 20). lia. }
  rewrite (dec_pad (j + k)) by (done || lia).
  rewrite (dec_pad j (v / _)) by (done || lia).
  rewrite <- pad_split. done.
Qed.

Ltac dpos := split; [apply Z.div_pos; lia | apply Z.div_lt_upper_bound; lia].
Ltac mpos m := pose proof (Z.mod_pos_bound m 100 ltac:(lia)); lia.

(** The eight unconditional stores of a block [bbbbcccc]. *)
Definition block8 (v : Z) : list (outcome bytes) :=
  let b := v / 10000 in
  let c := v mod 10000 in
  [put (uint32 (Z.shiftl (b / 100) 1)); put (uint32 (Z.shiftl (b / 100) 1) + 1);
   put (uint32 (Z.shiftl (b mod 100) 1)); put (uint32 (Z.shiftl (b mod 100) 1) + 1);
   put (uint32 (Z.shiftl (c / 100) 1)); put (uint32 (Z.shiftl (c / 100) 1) + 1);
   put (uint32 (Z.shiftl (c mod 100) 1)); put (uint32 (Z.shiftl (c mod 100) 1) + 1)].

Lemma pad8 v :
  0 <= v < 100000000 ->
  pad 8 v = pad 4 (v / 10000) ++ pad 4 (v mod 10000).
Proof. intros. exact (pad_split 4 4 v). Qed.

Lemma block8_spec v : 0 <= v < 100000000 -> seq (block8 v) = Ok (pad 8 v).
Proof.
  intros Hv. unfold block8, put.
  assert (0 <= v / 10000 < 10000) by dpos.
  pose proof (Z.mod_pos_bound v 10000 ltac:(lia)).
  assert (0 <= v / 10000 / 100 < 100) by dpos.
  assert (0 <= v mod 10000 / 100 < 100) by dpos.
  pose proof (Z.mod_pos_bound (v / 10000) 100 ltac:(lia)).
  pose proof (Z.mod_pos_bound (v mod 10000) 100 ltac:(lia)).
  cbn zeta. rewrite !put_if_hi, !put_if_lo by lia.
  rewrite pad8, !pad4 by lia. reflexivity.
Qed.

Lemma seq_cons_ok w ws x y : w = Ok x -> seq ws = Ok y -> seq (w :: ws) = Ok (x ++ y).
Proof. intros -> H. cbn [seq]. rewrite bind_ok, H. done. Qed.

Lemma seq_app_ok ws vs x y : seq ws = Ok x -> seq vs = Ok y -> seq (ws ++ vs) = Ok (x ++ y).
Proof.
  revert x. induction ws as [|w ws IH]; intros x Hw Hv; simpl in *.
  - injection Hw as <-. done.
  - destruct w as [a|]; [|done]. simpl in *.
    destruct (seq ws) as [z|] eqn:E; [|done]. injection Hw as <-.
    rewrite (IH z) by done. simpl. by rewrite app_assoc.
Qed.

(** The digits before the first unconditional store. *)
Lemma chain4_spec v :
  0 <= v < 10000 ->
  seq [put_if (1000 <=? v) (uint32 (Z.shiftl (v / 100) 1));
       put_if (100 <=? v) (uint32 (Z.shiftl (v / 100) 1) + 1);
       put_if (10 <=? v) (uint32 (Z.shiftl (v mod 100) 1));
       put (uint32 (Z.shiftl (v mod 100) 1) + 1)] = Ok (dec v).
Proof.
  intros Hv. unfold put.
  assert (0 <= v / 100 < 100) by dpos.
  pose proof (Z.mod_pos_bound v 100 ltac:(lia)).
  rewrite !put_if_hi, !put_if_lo by lia.
  rewrite <- (keep_pad 3 v) by (simpl; lia). rewrite pad4, keep4 by lia. reflexivity.
Qed.

Lemma chain8_spec v :
  10000 <= v < 100000000 ->
  let b := v / 10000 in let c := v mod 10000 in
  seq [put_if (10000000 <=? v) (uint32 (Z.shiftl (b / 100) 1));
       put_if (1000000 <=? v) (uint32 (Z.shiftl (b / 100) 1) + 1);
       put_if (100000 <=? v) (uint32 (Z.shiftl (b mod 100) 1));
       put (uint32 (Z.shiftl (b mod 100) 1) + 1);
       put (uint32 (Z.shiftl (c / 100) 1)); put (uint32 (Z.shiftl (c / 100) 1) + 1);
       put (uint32 (Z.shiftl (c mod 100) 1)); put (uint32 (Z.shiftl (c mod 100) 1) + 1)]
  = Ok (dec v).
Proof.
  intros Hv b c. unfold put.
  assert (0 <= b < 10000) by (unfold b; dpos).
  assert (0 <= c < 10000) by (apply Z.mod_pos_bound; lia).
  assert (0 <= b / 100 < 100) by dpos. assert (0 <= c / 100 < 100) by dpos.
  pose proof (Z.mod_pos_bound b 100 ltac:(lia)).
  pose proof (Z.mod_pos_bound c 100 ltac:(lia)).
  rewrite !put_if_hi, !put_if_lo by lia.
  rewrite <- (keep_pad 7 v) by (simpl; lia). rewrite pad8 by lia.
  fold b c. rewrite !pad4 by lia. simpl app at 1.
  rewrite keep_app3; [reflexivity|done|]. change (10 ^ (_ - 1)) with 10000. lia.
Qed.

Lemma dec_one a : 0 <= a < 10 -> dec a = [digit a].
Proof.
  intros. unfold dec. rewrite (dec_fuel_pad 19 0) by (simpl; lia).
  simpl. by rewrite Z.div_1_r, Z.mod_small by lia.
Qed.

Lemma put_digit_spec a : 0 <= a < 10 -> put_digit a = Ok (dec a).
Proof.
  intros. unfold put_digit. rewrite swrap_small by (unfold in_int; simpl; lia).
  by rewrite dec_one.
Qed.

Lemma pair_spec x :
  0 <= x < 100 ->
  seq [put (uint32 (Z.shiftl x 1)); put (uint32 (Z.shiftl x 1) + 1)] = Ok (pad 2 x).
Proof. intros. unfold put. rewrite put_if_hi, put_if_lo, pad2 by lia. reflexivity. Qed.

Lemma u32toa_spec v : 0 <= v < 2 ^ 32 -> u32toa v = Ok (dec v).
Proof.
  intros Hv. unfold u32toa. change (2 ^ 32) with 4294967296 in Hv.
  destruct (Z.ltb_spec v 10000); [apply chain4_spec; lia|].
  destruct (Z.ltb_spec v 100000000); [apply (chain8_spec v); lia|].
  cbn zeta. rewrite (dec_split 8) by (change (10 ^ Z.of_nat 8) with 100000000; lia).
  change (10 ^ Z.of_nat 8) with 100000000.
  assert (1 <= v / 100000000 < 43)
    by (split; [apply Z.div_le_lower_bound; lia|apply Z.div_lt_upper_bound; lia]).
  apply seq_cons_ok; [|apply block8_spec, Z.mod_pos_bound; lia].
  case_match; [|apply put_digit_spec; lia].
  rewrite pair_spec by lia. f_equal. symmetry. apply (dec_pad 1); simpl; lia.
Qed.

Lemma i32toa_spec v :
  in_int 32 v ->
  i32toa v = Ok (if v <? 0 then str "-" ++ dec (- v) else dec v).
Proof.
  unfold in_int. change (2 ^ (32 - 1)) with 2147483648. intros Hv. unfold i32toa.
  destruct (Z.ltb_spec v 0).
  - assert (uint32 v = v + 2 ^ 32) as ->.
    { unfold uwrap. rewrite <- (Z.mod_add v 1), Z.mul_1_l by lia. apply Z.mod_small. lia. }
    assert (uint32 (Z.lnot (v + 2 ^ 32) + 1) = - v) as ->.
    { unfold Z.lnot. replace (Z.pred (- (v + 2 ^ 32)) + 1) with (- v + (-1) * 2 ^ 32) by lia.
      unfold uwrap. rewrite Z.mod_add by lia. apply Z.mod_small. lia. }
    rewrite u32toa_spec by lia. done.
  - rewrite uwrap_small by lia. apply u32toa_spec. lia.
Qed.

(** The middle branch of [u64toa]: eight conditional stores, then a block. *)
Lemma chain16_spec v :
  100000000 <= v < 10000000000000000 ->
  let v0 := v / 100000000 in let v1 := v mod 100000000 in
  let b0 := v0 / 10000 in let c0 := v0 mod 10000 in
  seq ([put_if (1000000000000000 <=? v) (uint32 (Z.shiftl (b0 / 100) 1));
        put_if (100000000000000 <=? v) (uint32 (Z.shiftl (b0 / 100) 1) + 1);
        put_if (10000000000000 <=? v) (uint32 (Z.shiftl (b0 mod 100) 1));
        put_if (1000000000000 <=? v) (uint32 (Z.shiftl (b0 mod 100) 1) + 1);
        put_if (100000000000 <=? v) (uint32 (Z.shiftl (c0 / 100) 1));
        put_if (10000000000 <=? v) (uint32 (Z.shiftl (c0 / 100) 1) + 1);
        put_if (1000000000 <=? v) (uint32 (Z.shiftl (c0 mod 100) 1));
        put_if (100000000 <=? v) (uint32 (Z.shiftl (c0 mod 100) 1) + 1)] ++ block8 v1)
  = Ok (dec v).
Proof.
  intros Hv v0 v1 b0 c0.
  assert (1 <= v0 < 100000000)
    by (unfold v0; split; [apply Z.div_le_lower_bound; lia|apply Z.div_lt_upper_bound; lia]).
  assert (0 <= v1 < 100000000) by (apply Z.mod_pos_bound; lia).
  assert (0 <= b0 < 10000) by (unfold b0; dpos).
  assert (0 <= c0 < 10000) by (apply Z.mod_pos_bound; lia).
  assert (0 <= b0 / 100 < 100) by dpos. assert (0 <= c0 / 100 < 100) by dpos.
  pose proof (Z.mod_pos_bound b0 100 ltac:(lia)).
  pose proof (Z.mod_pos_bound c0 100 ltac:(lia)).
  rewrite !put_if_hi, !put_if_lo by lia.
  rewrite <- (keep_pad 15 v) by (change (10 ^ Z.of_nat 16) with 10000000000000000; lia).
  rewrite (pad_split 8 8). change (10 ^ Z.of_nat 8) with 100000000. fold v0 v1.
  rewrite (pad8 v0) by lia. fold b0 c0. rewrite !pad4 by lia.
  assert (zlen (pad 8 v1) = 8) as Hz by apply zlen_pad.
  assert (pad 8 v1 <> []) by (intros E; rewrite E in Hz; discriminate Hz).
  set (ds := pad 8 v1) in *.
  assert (seq (block8 v1) = Ok ds) as Hb by (by apply block8_spec).
  cbn [app]. cbn [keep]. rewrite !zlen_cons, Hz.
  rewrite keep_full by (done || (rewrite Hz; change (10 ^ (8 - 1)) with 10000000; lia)).
  cbn [seq]. rewrite !bind_ok, Hb. reflexivity.
Qed.

Lemma u64toa_spec v : 0 <= v < 2 ^ 64 -> u64toa v = Ok (dec v).
Proof.
  intros Hv. unfold u64toa. change (2 ^ 64) with 18446744073709551616 in Hv.
  destruct (Z.ltb_spec v 100000000).
  { rewrite !uwrap_small by (change (2 ^ 32) with 4294967296; lia). cbn zeta.
    destruct (Z.ltb_spec v 10000); [apply chain4_spec; lia|apply (chain8_spec v); lia]. }
  pose proof (Z.mod_pos_bound v 100000000 ltac:(lia)).
  destruct (Z.ltb_spec v 10000000000000000).
  { assert (0 <= v / 100000000 < 100000000) by dpos.
    rewrite (uwrap_small 32 (v / 100000000)), (uwrap_small 32 (v mod 100000000))
      by (change (2 ^ 32) with 4294967296; lia).
    apply (chain16_spec v). lia. }
  cbn zeta. change 10000000000000000 with (10 ^ Z.of_nat 16).
  rewrite (dec_split 16) by (change (10 ^ Z.of_nat 16) with 10000000000000000; lia).
  change (10 ^ Z.of_nat 16) with 10000000000000000.
  set (a := v / 10000000000000000). set (r := v mod 10000000000000000).
  assert (1 <= a < 1845)
    by (unfold a; split; [apply Z.div_le_lower_bound; lia|apply Z.div_lt_upper_bound; lia]).
  assert (0 <= r < 10000000000000000) by (apply Z.mod_pos_bound; lia).
  assert (0 <= r / 100000000 < 100000000) by dpos.
  pose proof (Z.mod_pos_bound r 100000000 ltac:(lia)).
  rewrite (uwrap_small 32 a), (uwrap_small 32 (r / 100000000)), (uwrap_small 32 (r mod 100000000))
    by (change (2 ^ 32) with 4294967296; lia).
  apply seq_cons_ok.
  - assert (0 <= a / 100 < 100) by dpos. pose proof (Z.mod_pos_bound a 100 ltac:(lia)).
    destruct (Z.ltb_spec a 10); [apply put_digit_spec; lia|].
    destruct (Z.ltb_spec a 100).
    { rewrite pair_spec by lia. f_equal. symmetry. apply (dec_pad 1); simpl; lia. }
    destruct (Z.ltb_spec a 1000).
    { rewrite (dec_split 2) by (change (10 ^ Z.of_nat 2) with 100; lia).
      change (10 ^ Z.of_nat 2) with 100. apply seq_cons_ok; [|by apply pair_spec].
      apply put_digit_spec. dpos. }
    unfold put. rewrite !put_if_hi, !put_if_lo by lia.
    rewrite (dec_pad 3), pad4 by (simpl; lia). reflexivity.
  - change (seq (block8 (r / 100000000) ++ block8 (r mod 100000000)) = Ok (pad 16 r)).
    rewrite (pad_split 8 8 r : pad 16 r = _). change (10 ^ Z.of_nat 8) with 100000000.
    apply seq_app_ok; by apply block8_spec.
Qed.

Lemma i64toa_spec v :
  in_int 64 v ->
  i64toa v = Ok (if v <? 0 then str "-" ++ dec (- v) else dec v).
Proof.
  unfold in_int. change (2 ^ (64 - 1)) with 9223372036854775808. intros Hv. unfold i64toa.
  destruct (Z.ltb_spec v 0).
  - assert (uint64 v = v + 2 ^ 64) as ->.
    { unfold uwrap. rewrite <- (Z.mod_add v 1), Z.mul_1_l by lia. apply Z.mod_small. lia. }
    assert (uint64 (Z.lnot (v + 2 ^ 64) + 1) = - v) as ->.
    { unfold Z.lnot. replace (Z.pred (- (v + 2 ^ 64)) + 1) with (- v + (-1) * 2 ^ 64) by lia.
      unfold uwrap. rewrite Z.mod_add by lia. apply Z.mod_small. lia. }
    rewrite u64toa_spec by lia. done.
  - rewrite uwrap_small by lia. apply u64toa_spec. lia.
Qed.

Lemma u16toa_spec v : in_uint 16 v -> u16toa v = Ok (dec v).
Proof.
  unfold u16toa, in_uint. intros. rewrite uwrap_small by lia. apply u32toa_spec. lia.
Qed.

Lemma i16toa_spec v :
  in_int 16 v -> i16toa v = Ok (if v <? 0 then str "-" ++ dec (- v) else dec v).
Proof.
  intros. unfold i16toa. assert (in_int 32 v) by (unfold in_int in *; simpl in *; lia).
  rewrite swrap_small by done. by apply i32toa_spec.
Qed.

(** ** Reading the text back *)
Definition digit_value (c : byte) : Z := Z_of_byte c - 48.
Definition dec_value (s : bytes) : Z := fold_left (fun acc c => 10 * acc + digit_value c) s 0.

Lemma digit_value_digit d : 0 <= d < 10 -> digit_value (digit d) = d.
Proof.
  intros. unfold digit_value, digit. rewrite Z_of_byte_of_Z, Z.mod_small; lia.
Qed.

Lemma dec_value_snoc s c : dec_value (s ++ [c]) = 10 * dec_value s + digit_value c.
Proof. unfold dec_value. by rewrite fold_left_app. Qed.

Lemma dec_fuel_value f v : 0 <= v < 10 ^ Z.of_nat (S f) -> dec_value (dec_fuel f v) = v.
Proof.
  revert v. induction f as [|f IH]; intros v Hv.
  - simpl in *. unfold dec_value. simpl. rewrite digit_value_digit; lia.
  - rewrite pow10_succ in Hv. simpl dec_fuel. bcases.
    + unfold dec_value. simpl. rewrite digit_value_digit; lia.
    + rewrite dec_value_snoc, IH, digit_value_digit.
      * pose proof (Z.div_mod v 10 ltac:(lia)). lia.
      * apply Z.mod_pos_bound. lia.
      * split; [apply Z.div_pos; lia|apply Z.div_lt_upper_bound; lia].
Qed.

Lemma dec_value_dec v : 0 <= v < 10 ^ 20 -> dec_value (dec v) = v.
Proof. intros. apply (dec_fuel_value 19). done. Qed.

Lemma zlen_dec k v :
  (k <= 19)%nat -> 0 <= v < 10 ^ Z.of_nat (S k) -> 1 <= zlen (dec v) <= Z.of_nat (S k).
Proof.
  intros Hk Hv. destruct (decide (v < 10)).
  - rewrite dec_one by lia. unfold zlen. simpl. lia.
  - destruct (log10_exists (S k) v) as (j & Hj & Hr); [lia|].
    rewrite (dec_pad j) by (done || lia). rewrite zlen_pad. lia.
Qed.

(** Zero padding of the decimal text. *)
Lemma pad_dec k v :
  (k <= 19)%nat -> 0 <= v < 10 ^ Z.of_nat (S k) ->
  replicate (S k - length (dec v)) "0"%char ++ dec v = pad (S k) v.
Proof.
  induction k as [|k IH]; intros Hk Hv.
  - rewrite dec_one by (simpl in Hv; lia). simpl. rewrite Z.div_1_r, Z.mod_small by (simpl in Hv; lia).
    done.
  - destruct (decide (10 ^ Z.of_nat (S k) <= v)).
    + rewrite (dec_pad (S k)) by lia. pose proof (zlen_pad (S (S k)) v) as Hl. unfold zlen in Hl.
      replace (S (S k) - length (pad (S (S k)) v))%nat with 0%nat by lia. done.
    + pose proof (zlen_dec k v ltac:(lia) ltac:(lia)) as Hl. unfold zlen in Hl.
      replace (S (S k) - length (dec v))%nat with (S (S k - length (dec v))) by lia.
      cbn [replicate app]. rewrite IH by lia. cbn [pad].
      rewrite (Z.div_small v (10 ^ Z.of_nat (S k))) by lia. done.
Qed.

Lemma dec_value_pad k v : 0 <= v < 10 ^ Z.of_nat k -> dec_value (pad k v) = v.
Proof.
  revert v. induction k as [|k IH]; intros v Hv; [simpl in *; unfold dec_value; simpl; lia|].
  rewrite pad_snoc, dec_value_snoc. rewrite pow10_succ in Hv.
  rewrite IH by (split; [apply Z.div_pos|apply Z.div_lt_upper_bound]; lia).
  rewrite digit_value_digit by (apply Z.mod_pos_bound; lia).
  pose proof (Z.div_mod v 10). lia.
Qed.

(** The first digit is zero only for the number zero. *)
Lemma dec_head v : 0 < v < 10 ^ 20 -> exists d s, dec v = digit d :: s /\ 1 <= d <= 9.
Proof.
  intros Hv. destruct (log10_exists 20 v) as (j & Hj & Hr);
    [change (10 ^ Z.of_nat 20) with (10 ^ 20); lia|].
  rewrite (dec_pad j) by (done || lia). cbn [pad].
  rewrite pow10_succ in Hr. pose proof (pow10_pos j).
  assert (1 <= v / 10 ^ Z.of_nat j < 10)
    by (split; [apply Z.div_le_lower_bound; lia|apply Z.div_lt_upper_bound; lia]).
  rewrite Z.mod_small by lia. do 2 eexists. split; [done|lia].
Qed.

(** ** Hexadecimal *)
Definition hexdigit_value (c : byte) : Z := std_find c digitsHex.
Definition hex_value (s : bytes) : Z := fold_left (fun acc c => 16 * acc + hexdigit_value c) s 0.

Lemma hexdigit d :
  0 <= d < 16 -> exists c, digitsHex !! Z.to_nat d = Some c /\ hexdigit_value c = d.
Proof.
  intros Hd. assert (d ∈ map Z.of_nat (List.seq 0 16)) as Hin.
  { apply list_elem_of_In, in_map_iff. exists (Z.to_nat d). rewrite in_seq. lia. }
  simpl in Hin. repeat (apply elem_of_cons in Hin as [->|Hin]; [eexists; split; reflexivity|]).
  by apply elem_of_nil in Hin.
Qed.

Lemma hex_loop_spec f v :
  0 <= v < 16 ^ Z.of_nat f -> (0 < f)%nat ->
  exists s, hex_loop f v = Ok s /\ hex_value (rev s) = v /\ 1 <= zlen s <= Z.of_nat f.
Proof.
  revert v. induction f as [|f IH]; intros v Hv Hf; [lia|].
  rewrite Nat2Z.inj_succ, Z.pow_succ_r in Hv by lia. cbn [hex_loop].
  destruct (hexdigit (v mod 16)) as (c & -> & Hc); [apply Z.mod_pos_bound; lia|].
  rewrite bind_ok. pose proof (Z.div_mod v 16 ltac:(lia)) as Hdm.
  destruct (Z.eqb_spec (v / 16) 0) as [E|E].
  - exists [c]. split; [done|]. unfold hex_value, zlen. simpl. lia.
  - assert (0 <= v / 16 < 16 ^ Z.of_nat f) by dpos.
    destruct f as [|f]; [simpl in *; lia|].
    destruct (IH (v / 16)) as (s & -> & Hs & Hl); [done|lia|].
    exists (c :: s). rewrite zlen_cons. split; [done|]. split; [|lia].
    cbn [rev]. unfold hex_value in *. rewrite fold_left_app. simpl. lia.
Qed.

(** The digits of a value of at most 64 bits, with its sign. *)
Definition signed_dec (v : Z) : bytes := if v <? 0 then str "-" ++ dec (- v) else dec v.

Definition no_nul (s : bytes) : Prop := Forall (fun c => Z_of_byte c <> 0) s.

Lemma dec_fuel_no_nul f v : 0 <= v < 10 ^ Z.of_nat (S f) -> no_nul (dec_fuel f v).
Proof.
  assert (forall d, 0 <= d < 10 -> no_nul [digit d]) as Hd.
  { intros d Hd. pose proof (digit_value_digit d Hd). unfold digit_value in *. repeat constructor. lia. }
  revert v. induction f as [|f IH]; intros v Hv; [apply Hd; simpl in Hv; lia|]. rewrite pow10_succ in Hv. cbn [dec_fuel].
  destruct (Z.ltb_spec v 10); [apply Hd; lia|]. apply Forall_app. split; [apply IH; dpos|apply Hd, Z.mod_pos_bound; lia].
Qed.

Lemma signed_dec_no_nul v : - 2 ^ 63 <= v < 2 ^ 64 -> no_nul (signed_dec v).
Proof.
  intros Hv. unfold signed_dec. change (2 ^ 64) with 18446744073709551616 in Hv.
  case_match; [apply Forall_app; split; [by repeat constructor|]|]; apply dec_fuel_no_nul;
    change (10 ^ Z.of_nat 20) with (10 ^ 20); lia.
Qed.

Lemma zlen_signed_dec v : - 2 ^ 63 <= v < 2 ^ 64 -> 1 <= zlen (signed_dec v) <= 20.
Proof.
  intros Hv. unfold signed_dec. case_match; rewrite ?zlen_app; change (zlen (str "-")) with 1.
  - pose proof (zlen_dec 18 (- v)) as H'. change (10 ^ Z.of_nat 19) with (10 ^ 19) in H'. lia.
  - pose proof (zlen_dec 19 v) as H'. change (10 ^ Z.of_nat 20) with (10 ^ 20) in H'. lia.
Qed.

Lemma c_str_app s r : no_nul s -> c_str (s ++ r) = s ++ c_str r.
Proof. induction 1 as [|c s Hc _ IH]; [done|]. simpl. by rewrite (proj2 (Z.eqb_neq _ _) Hc), IH. Qed.

(** What a call that writes [text] does to any buffer. *)
Definition writes (call : bytes -> outcome (bytes * Z)) (text : bytes) : Prop :=
  forall to,
    (zlen text <= zlen to ->
       exists to', call to = Ok (to', zlen text) /\ to' = text ++ drop (length text) to /\
         c_str to' = text ++ c_str (drop (length text) to)) /\
    (zlen to < zlen text -> call to = Fault OutOfBounds).

Lemma into_writes stored text :
  stored = Ok text -> no_nul text -> zlen text <= 20 -> writes (into stored) text.
Proof.
  intros -> Hn Hl to. unfold into. rewrite bind_ok. split; intros Hto.
  - rewrite (proj2 (Z.leb_le _ _) Hto). eexists. split; [|split; [done|by apply c_str_app]].
    pose proof (zlen_nonneg text). by rewrite swrap_small by (unfold in_int; lia).
  - destruct (Z.leb_spec (zlen text) (zlen to)); [lia|done].
Qed.

(** C39. Decimal conversion is exact: on every value of its type, including the most
    negative ones, each routine never reads outside the digit table and writes to the
    front of the caller's buffer the decimal digits without leading zeros, with a minus
    sign in front of negative values, returns their number, and leaves the rest of the
    buffer alone; it writes out of bounds exactly when the buffer is shorter than that.
    No terminator is written: read as a C string, the digits are followed by the text
    that the buffer held behind them. *)
Theorem itoa_correct :
  (forall v, in_uint 16 v -> writes (u16toa_into v) (dec v)) /\
  (forall v, in_uint 32 v -> writes (u32toa_into v) (dec v)) /\
  (forall v, in_uint 64 v -> writes (u64toa_into v) (dec v)) /\
  (forall v, in_int 16 v -> writes (i16toa_into v) (signed_dec v)) /\
  (forall v, in_int 32 v -> writes (i32toa_into v) (signed_dec v)) /\
  (forall v, in_int 64 v -> writes (i64toa_into v) (signed_dec v)).
Proof.
  assert (forall v, 0 <= v -> signed_dec v = dec v) as Hpos
    by (intros v Hv; unfold signed_dec; by rewrite (proj2 (Z.ltb_ge v 0))).
  split_and!; intros v Hv; unfold in_uint, in_int in Hv; rewrite <- ?Hpos by lia;
    (apply into_writes; [|apply signed_dec_no_nul; lia|apply zlen_signed_dec; lia]); rewrite ?Hpos by lia;
    [by apply u16toa_spec|by apply u32toa_spec|by apply u64toa_spec
    |by apply i16toa_spec|by apply i32toa_spec|by apply i64toa_spec].
Qed.

Lemma itoa_correct_witness :
  i32toa_into (- 2 ^ 31) (str "????????????????") = Ok (str "-2147483648?????", 11) /\
  u64toa_into (2 ^ 64 - 1) (str "1234567890123456789") = Fault OutOfBounds.
Proof.
  destruct itoa_correct as (_ & _ & Hu & _ & Hi & _). split.
  - destruct (Hi (- 2 ^ 31) ltac:(unfold in_int; lia) (str "????????????????")) as [H _].
    destruct H as (to' & -> & -> & _); [by vm_compute|]. vm_compute. reflexivity.
  - apply (Hu (2 ^ 64 - 1) ltac:(unfold in_uint; lia) (str "1234567890123456789")). by vm_compute.
Defined.

(** The calls of base/tests/num2string_test.cpp on its one buffer of 128 bytes: after
    [u64toa(UINT64_MAX)], the 19 digits of [i64toa(INT64_MAX)] are followed by the
    twentieth digit of the call before. *)
Example num2string_test_stale :
  match r1 ← u32toa_into (2 ^ 32 - 1) (replicate 128 (byte_of_Z 0)) ;
        r2 ← i32toa_into (- 2 ^ 31) r1.1 ;
        r3 ← u64toa_into (2 ^ 64 - 1) r2.1 ;
        r4 ← i64toa_into (2 ^ 63 - 1) r3.1 ;
        mret (map c_str [r1.1; r2.1; r3.1; r4.1], r4.2) with
  | Ok (texts, len) =>
      texts = [str "4294967295"; str "-2147483648"; str "18446744073709551615"; str "92233720368547758075"] /\
      len = 19
  | Fault _ => False
  end.
Proof. vm_compute. done. Qed.

(** The text of an unsigned value reads back as the value, starts with a
    non-zero digit unless the value is zero, and is at most 20 characters; a
    signed value takes at most 20 characters with its sign, so every result
    fits the 32 bytes the log stream reserves. *)
Theorem itoa_roundtrip :
  (forall v, in_uint 64 v ->
     exists s, u64toa v = Ok s /\ dec_value s = v /\ 1 <= zlen s <= 20 /\
       (v <> 0 -> exists d r, s = digit d :: r /\ 1 <= d <= 9)) /\
  (forall v, in_int 64 v -> exists s, i64toa v = Ok s /\ 1 <= zlen s <= 20).
Proof.
  split; intros v Hv.
  - exists (dec v). unfold in_uint in Hv. change (2 ^ 64) with 18446744073709551616 in Hv.
    split_and!; [apply u64toa_spec; lia|apply dec_value_dec; lia|..].
    1, 2: apply (zlen_dec 19); [lia|]; change (10 ^ Z.of_nat 20) with (10 ^ 20); lia.
    intros. apply dec_head. lia.
  - eexists. split; [by apply i64toa_spec|]. unfold in_int in Hv.
    change (2 ^ (64 - 1)) with 9223372036854775808 in Hv.
    case_match; rewrite ?zlen_app; change (zlen (str "-")) with 1.
    + pose proof (zlen_dec 18 (- v)) as H'. change (10 ^ Z.of_nat 19) with (10 ^ 19) in H'. lia.
    + pose proof (zlen_dec 19 v) as H'. change (10 ^ Z.of_nat 20) with (10 ^ 20) in H'. lia.
Qed.

Lemma itoa_roundtrip_witness :
  exists s, u64toa 1234567890123 = Ok s /\ dec_value s = 1234567890123.
Proof.
  destruct (proj1 itoa_roundtrip 1234567890123) as (s & H1 & H2 & _); [unfold in_uint; lia|].
  by exists s.
Defined.

(** Hexadecimal conversion of a pointer terminates within sixteen
    iterations, yields between 1 and 16 digits, and these read back as the
    pointer's value. *)
Theorem convertHex_roundtrip v :
  in_uint 64 v ->
  exists s, convertHex v = Ok s /\ hex_value s = v /\ 1 <= zlen s <= 16.
Proof.
  unfold in_uint. intros Hv. unfold convertHex.
  destruct (hex_loop_spec 16 v) as (s & -> & Hs & Hl); [done|lia|].
  exists (rev s). split_and!; [done..| |]; unfold zlen in *; rewrite length_rev; lia.
Qed.

Lemma convertHex_roundtrip_witness :
  exists s, convertHex 3735928559 = Ok s /\ hex_value s = 3735928559 /\ 1 <= zlen s <= 16.
Proof. apply (convertHex_roundtrip 3735928559). unfold in_uint. lia. Defined.

End Num2String.
