(* ===== verification/TimeText.v ===== *)
(** Points in time: [TimeStamp] (src/libel/base/timestamp.h, timestamp.cpp) and
    the parts of <time.h> and <cstdio> its printing uses. *)

From S2P Require Import Prelude NumText.

(** ** What the sources use of <time.h> and [printf] *)
Module CTime.
Import Num2String.

Record tm := mk_tm {
  tm_year : Z;   (* years since 1900 *)
  tm_mon : Z;    (* 0 .. 11 *)
  tm_mday : Z;   (* 1 .. 31 *)
  tm_hour : Z;
  tm_min : Z;
  tm_sec : Z;
}.

(** The proleptic Gregorian date of a day number, day 0 being 1970-01-01.  Years
    start in March, so that the leap day is the last day of its year. *)
Definition civil_from_days (days : Z) : Z * Z * Z :=
  let z := days + 719468 in
  let era := z / 146097 in
  let doe := z mod 146097 in
  let yoe := (doe - doe / 1460 + doe / 36524 - doe / 146096) / 365 in
  let doy := doe - (365 * yoe + yoe / 4 - yoe / 100) in
  let mp := (5 * doy + 2) / 153 in
  let d := doy - (153 * mp + 2) / 5 + 1 in
  let m := if mp <? 10 then mp + 3 else mp - 9 in
  let y := yoe + era * 400 + (if m <=? 2 then 1 else 0) in
  (y, m, d).

(** [gmtime_r] *)
Definition gmtime_r (seconds : Z) : tm :=
  let days := seconds / 86400 in
  let rem := seconds mod 86400 in
  match civil_from_days days with
  | (y, m, d) =>
      {| tm_year := y - 1900; tm_mon := m - 1; tm_mday := d;
         tm_hour := rem / 3600; tm_min := rem / 60 mod 60; tm_sec := rem mod 60 |}
  end.

(** "%<width>d" ([zero] = false) and "%0<width>d" ([zero] = true). *)
Definition fmt_d (zero : bool) (width : nat) (v : Z) : bytes :=
  let sign := if v <? 0 then str "-" else [] in
  let digits := dec (Z.abs v) in
  let fill := (width - length sign - length digits)%nat in
  if zero then sign ++ replicate fill "0"%char ++ digits
  else replicate fill " "%char ++ sign ++ digits.

(** [snprintf(buf, size, ...)] followed by reading [buf] as a C string. *)
Definition snprintf (size : Z) (text : bytes) : bytes := take (Z.to_nat (size - 1)) text.

(** "%4d%02d%02d %02d:%02d:%02d" *)
Definition fmt_tm (t : tm) : bytes :=
  fmt_d false 4 (tm_year t + 1900) ++ fmt_d true 2 (tm_mon t + 1) ++ fmt_d true 2 (tm_mday t) ++
  str " " ++ fmt_d true 2 (tm_hour t) ++ str ":" ++ fmt_d true 2 (tm_min t) ++
  str ":" ++ fmt_d true 2 (tm_sec t).

Example gmtime_leap : fmt_tm (gmtime_r 951782400) = str "20000229 00:00:00".
Proof. reflexivity. Qed.

Example gmtime_y2038 : fmt_tm (gmtime_r 2147483647) = str "20380119 03:14:07".
Proof. reflexivity. Qed.

Lemma fmt_zero_pad k v :
  (k < 20)%nat -> 0 <= v < 10 ^ Z.of_nat (S k) -> fmt_d true (S k) v = pad (S k) v.
Proof.
  intros Hk Hv. unfold fmt_d. rewrite (proj2 (Z.ltb_ge v 0)) by lia.
  rewrite Z.abs_eq by lia. cbn [length app]. rewrite Nat.sub_0_r. apply pad_dec; lia.
Qed.
End CTime.

(** ** [TimeStamp] *)
Module TimeStamp.
Import Num2String CTime.

(** The only member is [microSecondsSinceEpoch_]. *)
Abbreviation t := Z.

Definition kMicroSecondsPerSecond : Z := 1000 * 1000.

Definition microSecondsSinceEpoch (x : t) : Z := x.
Definition invalid : t := 0.
Definition valid (x : t) : bool := 0 <? x.

(** C++ division truncates towards zero. *)
Definition secondsSinceEpoch (x : t) : Z := Z.quot x kMicroSecondsPerSecond.
Definition fromUnixTime (seconds microseconds : Z) : t :=
  int64 (int64 (seconds * kMicroSecondsPerSecond) + microseconds).
(** [now()] from the result of [gettimeofday]. *)
Definition now (tv_sec tv_usec : Z) : t := int64 (tv_sec * kMicroSecondsPerSecond + tv_usec).

Definition op_lt (l r : t) : bool := l <? r.
Definition op_gt (l r : t) : bool := r <? l.
Definition op_eq (l r : t) : bool := l =? r.

(** [addTime(timeStamp, seconds)]; [delta] is the value of
    [static_cast<int64_t>(seconds * kMicroSecondsPerSecond)]. *)
Definition addTime (timeStamp : t) (delta : Z) : t := int64 (timeStamp + delta).

Definition toString (x : t) : bytes :=
  let seconds := Z.quot x kMicroSecondsPerSecond in
  let ms := Z.rem x kMicroSecondsPerSecond in
  snprintf 32 (fmt_d true 0 seconds ++ str "." ++ fmt_d true 6 ms).

Definition toFormattedString (x : t) (showMicroSeconds : bool) : bytes :=
  let seconds := Z.quot x kMicroSecondsPerSecond in
  let time := gmtime_r seconds in
  if showMicroSeconds then
    let ms := int32 (Z.quot x kMicroSecondsPerSecond) in
    snprintf 64 (fmt_tm time ++ str "." ++ fmt_d true 6 ms)
  else snprintf 64 (fmt_tm time).

Lemma fmt_seconds s : 0 <= s < 10 ^ 20 -> fmt_d true 0 s = dec s.
Proof.
  intros. unfold fmt_d. rewrite (proj2 (Z.ltb_ge s 0)), Z.abs_eq by lia. done.
Qed.

Lemma toString_eq x :
  0 <= x < 2 ^ 63 ->
  toString x = dec (x / 1000000) ++ str "." ++ pad 6 (x mod 1000000).
Proof.
  change (2 ^ 63) with 9223372036854775808. intros Hx. unfold toString, kMicroSecondsPerSecond.
  change (1000 * 1000) with 1000000.
  rewrite Z.quot_div_nonneg, Z.rem_mod_nonneg by lia.
  pose proof (Z.mod_pos_bound x 1000000 ltac:(lia)).
  assert (0 <= x / 1000000 < 10 ^ 13) as Hs by (split; [apply Z.div_pos|apply Z.div_lt_upper_bound]; lia).
  rewrite fmt_seconds, (fmt_zero_pad 5) by (simpl; lia).
  unfold snprintf. apply take_ge.
  pose proof (zlen_dec 12 (x / 1000000) ltac:(lia) Hs) as Hl.
  pose proof (zlen_pad 6 (x mod 1000000)) as Hp.
  unfold zlen in *. rewrite !length_app. simpl (length (str ".")). lia.
Qed.

(** Printing a time stamp loses nothing: [toString] is a decimal number of
    seconds with exactly six decimals, whose value is the stored number of
    microseconds. *)
Theorem timestamp_toString_exact x :
  0 <= x < 2 ^ 63 ->
  exists sec frac, toString x = sec ++ str "." ++ frac /\ zlen frac = 6 /\
    dec_value sec = secondsSinceEpoch x /\
    dec_value sec * kMicroSecondsPerSecond + dec_value frac = microSecondsSinceEpoch x.
Proof.
  intros Hx. rewrite toString_eq by done. change (2 ^ 63) with 9223372036854775808 in Hx.
  exists (dec (x / 1000000)), (pad 6 (x mod 1000000)).
  pose proof (Z.mod_pos_bound x 1000000 ltac:(lia)).
  assert (0 <= x / 1000000 < 10 ^ 20) by (split; [apply Z.div_pos|apply Z.div_lt_upper_bound]; lia).
  unfold secondsSinceEpoch, microSecondsSinceEpoch, kMicroSecondsPerSecond.
  change (1000 * 1000) with 1000000.
  rewrite Z.quot_div_nonneg, zlen_pad, dec_value_dec, dec_value_pad by (simpl; lia).
  split_and!; [done..|]. pose proof (Z.div_mod x 1000000). lia.
Qed.

Lemma timestamp_toString_exact_witness :
  exists sec frac, toString 1606293720000042 = sec ++ str "." ++ frac /\ zlen frac = 6 /\
    dec_value sec = secondsSinceEpoch 1606293720000042 /\
    dec_value sec * kMicroSecondsPerSecond + dec_value frac = microSecondsSinceEpoch 1606293720000042.
Proof. apply (timestamp_toString_exact 1606293720000042). lia. Defined.

(** The microsecond field of [toFormattedString(true)] is the number of
    seconds (a division stands where a remainder is meant): the text is the
    calendar time, a dot and the seconds since the epoch, so two instants of one
    second print alike. *)
Theorem timestamp_formatted_loses_micros x :
  0 <= x < 2 ^ 31 * kMicroSecondsPerSecond ->
  toFormattedString x true =
    snprintf 64 (fmt_tm (gmtime_r (secondsSinceEpoch x)) ++ str "." ++ fmt_d true 6 (secondsSinceEpoch x)) /\
  (forall y, secondsSinceEpoch y = secondsSinceEpoch x ->
     toFormattedString y true = toFormattedString x true).
Proof.
  unfold secondsSinceEpoch, toFormattedString. intros Hx.
  split; [|by intros y ->]. rewrite swrap_small; [done|lia|].
  unfold in_int, kMicroSecondsPerSecond in *.
  rewrite Z.quot_div_nonneg by lia. split.
  - transitivity 0; [done|]. apply Z.div_pos; lia.
  - apply Z.div_lt_upper_bound; lia.
Qed.

Lemma timestamp_formatted_loses_micros_witness :
  toFormattedString 1000042 true = str "19700101 00:00:01.000001" /\
  toFormattedString 1999999 true = toFormattedString 1000042 true.
Proof.
  split; [reflexivity|].
  apply (timestamp_formatted_loses_micros 1000042); [unfold kMicroSecondsPerSecond; lia|reflexivity].
Defined.

(** Conversions to and from seconds. *)
Lemma fromUnixTime_seconds s u :
  0 <= s < 2 ^ 32 -> 0 <= u < kMicroSecondsPerSecond ->
  secondsSinceEpoch (fromUnixTime s u) = s /\ fromUnixTime s u = now s u.
Proof.
  unfold secondsSinceEpoch, fromUnixTime, now, kMicroSecondsPerSecond.
  change (1000 * 1000) with 1000000. change (2 ^ 32) with 4294967296. intros.
  rewrite (swrap_small 64 (s * 1000000)) by (unfold in_int; simpl; lia).
  rewrite swrap_small by (unfold in_int; simpl; lia).
  split; [|done]. rewrite Z.quot_div_nonneg by lia.
  rewrite Z.div_add_l by lia. rewrite (Z.div_small u) by lia. lia.
Qed.
End TimeStamp.
