(* ===== verification/Address.v ===== *)
(** Socket addresses: src/libel/net/inet_address.h, inet_address.cpp ([InetAddress])
    and the address functions of src/libel/net/sockets_ops.cpp ([sockets]).  An
    address is the 28 bytes of the union of [sockaddr_in] and [sockaddr_in6]; the
    members of both are read and written where they lie in it. *)

From S2P Require Import Prelude NetBuffer NumText TimeText.

(** ** [inet_ntop] and [inet_pton] of the C library *)
Class InetText := {
  inet_ntop4 : bytes -> bytes;
  inet_pton4 : bytes -> option bytes;
  inet_ntop6 : bytes -> bytes;
  inet_pton6 : bytes -> option bytes;
}.

Definition INET_ADDRSTRLEN : Z := 16.
Definition INET6_ADDRSTRLEN : Z := 46.

(** What their manual pages say: the text fits the sizes above with its final NUL,
    and reading it gives the address back. *)
Class InetLaws `{InetText} : Prop := {
  ntop4_text a : zlen a = 4 -> zlen (inet_ntop4 a) < INET_ADDRSTRLEN /\ Forall (fun c => c <> nul) (inet_ntop4 a);
  ntop6_text a : zlen a = 16 -> zlen (inet_ntop6 a) < INET6_ADDRSTRLEN /\ Forall (fun c => c <> nul) (inet_ntop6 a);
  pton4_ntop4 a : zlen a = 4 -> inet_pton4 (inet_ntop4 a) = Some a;
  pton6_ntop6 a : zlen a = 16 -> inet_pton6 (inet_ntop6 a) = Some a;
  pton4_size s a : inet_pton4 s = Some a -> zlen a = 4;
  pton6_size s a : inet_pton6 s = Some a -> zlen a = 16;
}.

(** ** The layout of the two structures *)
Module SockAddr.
Section with_host.
Context {HO : HostOrder}.

Definition AF_INET : Z := 2.
Definition AF_INET6 : Z := 10.

(** sizeof(sockaddr_in) and sizeof(sockaddr_in6). *)
Definition size4 : Z := 16.
Definition size6 : Z := 28.

(** An unsigned member of [n] bytes at offset [off]. *)
Definition get (off : Z) (n : nat) (a : bytes) : Z := Endian.obj_value (sub off (Z.of_nat n) a).
Definition put (off : Z) (n : nat) (v : Z) (a : bytes) : bytes := overwrite off (Endian.obj_bytes n v) a.

Definition sin_family (a : bytes) : Z := get 0 2 a.
Definition sin_port (a : bytes) : Z := get 2 2 a.
Definition sin_addr (a : bytes) : bytes := sub 4 4 a.
Definition sin6_addr (a : bytes) : bytes := sub 8 16 a.
Definition sin6_scope_id (a : bytes) : Z := get 24 4 a.

Definition set_family (v : Z) : bytes -> bytes := put 0 2 v.
Definition set_port (v : Z) : bytes -> bytes := put 2 2 v.
Definition set_addr (x a : bytes) : bytes := overwrite 4 x a.
Definition set_addr6 (x a : bytes) : bytes := overwrite 8 x a.
Definition set_scope_id (v : Z) : bytes -> bytes := put 24 4 v.

(** [memZero(&addr, n)] *)
Definition memZero (n : Z) (a : bytes) : bytes := overwrite 0 (replicate (Z.to_nat n) nul) a.

Lemma get_put_same off n v a :
  0 <= off -> off + Z.of_nat n <= zlen a -> get off n (put off n v a) = v mod 256 ^ Z.of_nat n.
Proof.
  intros. unfold get, put. rewrite sub_overwrite_same; [apply Endian.obj_value_bytes|lia|].
  unfold zlen. by rewrite Endian.length_obj_bytes.
Qed.

Lemma zlen_put off n v a : 0 <= off -> off + Z.of_nat n <= zlen a -> zlen (put off n v a) = zlen a.
Proof. intros. unfold put. rewrite zlen_overwrite; [done|done|]. unfold zlen at 1. by rewrite Endian.length_obj_bytes. Qed.

(** Members that do not overlap do not disturb each other. *)
Lemma sub_put_ne a n off k v x :
  0 <= a -> 0 <= n -> 0 <= off -> off + Z.of_nat k <= zlen x -> (a + n <= off \/ off + Z.of_nat k <= a) ->
  sub a n (put off k v x) = sub a n x.
Proof.
  intros Ha Hn Ho Hl [H|H]; unfold put.
  - apply sub_overwrite_before; lia.
  - assert (zlen (Endian.obj_bytes k v) = Z.of_nat k) as E by (unfold zlen; by rewrite Endian.length_obj_bytes).
    apply sub_overwrite_after; lia.
Qed.

Lemma zlen_memZero n a : 0 <= n <= zlen a -> zlen (memZero n a) = zlen a.
Proof.
  intros. unfold memZero. apply zlen_overwrite; [done|]. unfold zlen at 1. rewrite length_replicate. lia.
Qed.

End with_host.
End SockAddr.

(** ** The address functions of sockets_ops.cpp *)
Module sockets.
Import SockAddr.
Section with_libc.
Context {HO : HostOrder} `{InetText}.

(** A std::string seen through c_str(). *)
Definition c_str (s : bytes) : bytes := take (Z.to_nat (std_find nul s)) s.

(** [toIp(buf, size, addr)]: the text in [buf] afterwards. *)
Definition toIp (buf : bytes) (size : Z) (addr : bytes) : outcome bytes :=
  if sin_family addr =? AF_INET then
    _ ← assert_ (INET_ADDRSTRLEN <=? size) ;
    mret (inet_ntop4 (sin_addr addr))
  else if sin_family addr =? AF_INET6 then
    _ ← assert_ (INET6_ADDRSTRLEN <=? size) ;
    mret (inet_ntop6 (sin6_addr addr))
  else mret buf.

Definition toIpPort (buf : bytes) (size : Z) (addr : bytes) : outcome bytes :=
  buf ← toIp buf size addr ;
  let end_ := zlen buf in
  let port := Endian.networkToHost16 (sin_port addr) in
  _ ← assert_ (end_ <? size) ;
  mret (buf ++ CTime.snprintf (size - end_) (str ":" ++ Num2String.dec port)).

(** [fromIpPort]: the address, and whether the text was accepted (an error is only
    logged). *)
Definition fromIpPort4 (ip : bytes) (port : Z) (addr : bytes) : bytes * bool :=
  let addr := set_port (Endian.hostToNetwork16 port) (set_family AF_INET addr) in
  match inet_pton4 ip with
  | Some x => (set_addr x addr, true)
  | None => (addr, false)
  end.

Definition fromIpPort6 (ip : bytes) (port : Z) (addr : bytes) : bytes * bool :=
  let addr := set_port (Endian.hostToNetwork16 port) (set_family AF_INET6 addr) in
  match inet_pton6 ip with
  | Some x => (set_addr6 x addr, true)
  | None => (addr, false)
  end.

(** [getLocalAddr] and [getPeerAddr]: what getsockname and getpeername store, or
    nothing on an error, over a zeroed structure. *)
Definition zeroed : bytes := replicate 28 nul.
Definition getLocalAddr (answer : option bytes) : bytes :=
  match answer with Some a => overwrite 0 a zeroed | None => zeroed end.
Definition getPeerAddr (answer : option bytes) : bytes :=
  match answer with Some a => overwrite 0 a zeroed | None => zeroed end.

Definition isSelfConnect (local peer : option bytes) : bool :=
  let local_addr := getLocalAddr local in
  let peer_addr := getPeerAddr peer in
  if sin_family local_addr =? AF_INET then
    (sin_port local_addr =? sin_port peer_addr) && (get 4 4 local_addr =? get 4 4 peer_addr)
  else if sin_family local_addr =? AF_INET6 then
    (sin_port local_addr =? sin_port peer_addr) && bool_decide (sin6_addr local_addr = sin6_addr peer_addr)
  else false.

(** [getSocketError]: SO_ERROR, or errno if getsockopt fails. *)
Definition getSocketError (answer : Z + Z) : Z := match answer with inl opt_val => opt_val | inr errno => errno end.

End with_libc.
End sockets.

(** ** inet_address.cpp *)
Module InetAddress.
Import SockAddr.
Section with_libc.
Context {HO : HostOrder} `{InetText}.

Definition kInaddrAny : Z := 0.
Definition kInaddrLoopback : Z := 2130706433.           (* 127.0.0.1 *)
Definition in6addr_any : bytes := replicate 16 nul.
Definition in6addr_loopback : bytes := replicate 15 nul ++ ["001"%char].

(** [InetAddress(port, loopbackOnly, ipv6)].  [mem] is what the memory of the object
    holds before; the IPv4 branch clears only the first 16 bytes of it. *)
Definition new (mem : bytes) (port : Z) (loopbackOnly ipv6 : bool) : bytes :=
  if ipv6 then
    let a := set_family AF_INET6 (memZero size6 mem) in
    let ip := if loopbackOnly then in6addr_loopback else in6addr_any in
    set_port (Endian.hostToNetwork16 port) (set_addr6 ip a)
  else
    let a := set_family AF_INET (memZero size4 mem) in
    let ip := if loopbackOnly then kInaddrLoopback else kInaddrAny in
    set_port (Endian.hostToNetwork16 port) (put 4 4 (Endian.hostToNetwork32 ip) a).

(** [InetAddress(ip, port, ipv6)] *)
Definition new_ip (mem ip : bytes) (port : Z) (ipv6 : bool) : bytes * bool :=
  if ipv6 then sockets.fromIpPort6 (sockets.c_str ip) port (memZero size6 mem)
  else sockets.fromIpPort4 (sockets.c_str ip) port (memZero size4 mem).

Definition family (a : bytes) : Z := sin_family a.
Definition portNetEndian (a : bytes) : Z := sin_port a.
Definition setSockAddrInet6 (a addr6 : bytes) : bytes := addr6.

Definition toIpPort (a : bytes) : outcome bytes := sockets.toIpPort [] 64 a.
Definition toIp (a : bytes) : outcome bytes := sockets.toIp [] 64 a.

Definition ipNetEndian (a : bytes) : outcome Z :=
  _ ← assert_ (family a =? AF_INET) ; mret (get 4 4 a).

Definition toPort (a : bytes) : Z := Endian.networkToHost16 (portNetEndian a).

(** [resolve]: [ret] is what gethostbyname_r returns and [he] the entry it found, as
    address type and address bytes. *)
Definition resolve (ret : Z) (he : option (Z * bytes)) (out : bytes) : outcome (bool * bytes) :=
  match he with
  | Some (h_addrtype, h_addr) =>
      if ret =? 0 then
        _ ← assert_ ((h_addrtype =? AF_INET) && (zlen h_addr =? 4)) ;
        mret (true, set_addr h_addr out)
      else mret (false, out)
  | None => mret (false, out)
  end.

Definition setScopeId (a : bytes) (scope_id : Z) : bytes :=
  if family a =? AF_INET6 then set_scope_id scope_id a else a.

End with_libc.
End InetAddress.

(** ** Endpoints: what an address stands for *)
Module Endpoint.
Import SockAddr.

Record t := mk { ipv6 : bool; ip : bytes; port : Z }.
#[export] Instance t_eq_dec : EqDecision t.
Proof. solve_decision. Defined.

Definition ok (e : t) : Prop := zlen (ip e) = (if ipv6 e then 16 else 4) /\ 0 <= port e < 2 ^ 16.

Section with_libc.
Context {HO : HostOrder} `{InetLaws}.

Record denotes (a : bytes) (e : t) : Prop := {
  den_size : zlen a = 28;
  den_ok : ok e;
  den_family : sin_family a = if ipv6 e then AF_INET6 else AF_INET;
  den_port : sin_port a = Endian.hostToNetwork16 (port e);
  den_ip : (if ipv6 e then sin6_addr a else sin_addr a) = ip e;
}.

Definition ntop (e : t) : bytes := if ipv6 e then inet_ntop6 (ip e) else inet_ntop4 (ip e).
Definition pton (v6 : bool) (s : bytes) : option bytes := if v6 then inet_pton6 s else inet_pton4 s.
Definition text (e : t) : bytes := ntop e ++ str ":" ++ Num2String.dec (port e).

Lemma port16_range p : 0 <= p < 2 ^ 16 -> 0 <= Endian.hostToNetwork16 p < 2 ^ 16.
Proof. intros Hp. apply (Endian.htobe_range 2). exact Hp. Qed.

Lemma port16_back p : 0 <= p < 2 ^ 16 -> Endian.networkToHost16 (Endian.hostToNetwork16 p) = p.
Proof. intros Hp. apply (Endian.htobe_involutive 2). exact Hp. Qed.

(** Side conditions about offsets. *)
Ltac offsets := rewrite ?zlen_put by (rewrite ?zlen_put; lia); lia.

(** Setting family and port of 28 bytes. *)
Lemma header_fields a f p :
  zlen a = 28 -> 0 <= f < 2 ^ 16 -> 0 <= p < 2 ^ 16 ->
  let b := set_port (Endian.hostToNetwork16 p) (set_family f a) in
  zlen b = 28 /\ sin_family b = f /\ sin_port b = Endian.hostToNetwork16 p /\
  (forall o n, 4 <= o -> 0 <= n -> sub o n b = sub o n a).
Proof.
  intros Hl Hf Hp b. pose proof (port16_range p Hp) as Hq. subst b. unfold set_port, set_family, sin_family, sin_port.
  assert (zlen (put 0 2 f a) = 28) as Hl1 by (rewrite zlen_put; lia).
  split_and!.
  - rewrite zlen_put; lia.
  - unfold get. rewrite sub_put_ne by lia. fold (get 0 2 (put 0 2 f a)). rewrite get_put_same by lia.
    change (256 ^ Z.of_nat 2) with (2 ^ 16). by apply Z.mod_small.
  - rewrite get_put_same by lia. change (256 ^ Z.of_nat 2) with (2 ^ 16). by apply Z.mod_small.
  - intros o n Ho Hn. rewrite !sub_put_ne by lia. done.
Qed.

Lemma pton_size v6 s x : pton v6 s = Some x -> zlen x = if v6 then 16 else 4.
Proof. destruct v6; [apply pton6_size|apply pton4_size]. Qed.

Lemma c_str_id s : Forall (fun c => c <> nul) s -> sockets.c_str s = s.
Proof.
  intros Hs. unfold sockets.c_str. rewrite std_find_absent by done. apply take_ge. unfold zlen. lia.
Qed.

Lemma ntop_text e : ok e -> zlen (ntop e) <= 45 /\ Forall (fun c => c <> nul) (ntop e) /\ pton (ipv6 e) (ntop e) = Some (ip e).
Proof.
  intros [Hip _]. unfold ntop, pton. destruct (ipv6 e).
  - destruct (ntop6_text (ip e) Hip). rewrite pton6_ntop6 by done. unfold INET6_ADDRSTRLEN in *. split_and!; [lia|done..].
  - destruct (ntop4_text (ip e) Hip). rewrite pton4_ntop4 by done. unfold INET_ADDRSTRLEN in *. split_and!; [lia|done..].
Qed.

(** The address of a member is where the other member's bytes are not. *)
Lemma addr_over a (v6 : bool) x :
  zlen a = 28 -> zlen x = (if v6 then 16 else 4) ->
  let b := if v6 then set_addr6 x a else set_addr x a in
  zlen b = 28 /\ sub 0 4 b = sub 0 4 a /\ (if v6 then sin6_addr b else sin_addr b) = x.
Proof.
  intros Ha Hx. unfold set_addr6, set_addr, sin6_addr, sin_addr. destruct v6; simpl; split_and!.
  - rewrite zlen_overwrite; lia.
  - apply sub_overwrite_before; lia.
  - apply sub_overwrite_same; lia.
  - rewrite zlen_overwrite; lia.
  - apply sub_overwrite_before; lia.
  - apply sub_overwrite_same; lia.
Qed.

Lemma header_of_prefix a b :
  sub 0 4 b = sub 0 4 a -> sin_family b = sin_family a /\ sin_port b = sin_port a.
Proof.
  intros E. unfold sin_family, sin_port, get.
  assert (forall o, 0 <= o -> o + 2 <= 4 -> sub o 2 b = sub o 2 a) as Hs.
  { intros o Hlo Hhi. pose proof (sub_sub 0 4 o 2 b ltac:(lia) ltac:(lia) ltac:(lia) ltac:(lia)) as Hb.
    pose proof (sub_sub 0 4 o 2 a ltac:(lia) ltac:(lia) ltac:(lia) ltac:(lia)) as Ha.
    rewrite Z.add_0_l in Ha, Hb. congruence. }
  change (Z.of_nat 2) with 2. split; f_equal; apply Hs; lia.
Qed.

Lemma zero_fields mem (v6 : bool) :
  zlen mem = 28 ->
  let a := memZero (if v6 then size6 else size4) mem in
  (if v6 then sub 8 16 a else sub 4 4 a) = replicate (if v6 then 16 else 4) nul.
Proof.
  intros Hm a. subst a. unfold memZero.
  assert (forall o n k, 0 <= o -> 0 <= n -> o + n <= k -> k <= 28 ->
    sub o n (overwrite 0 (replicate (Z.to_nat k) nul) mem) = replicate (Z.to_nat n) nul) as Hz.
  { intros o n k Ho Hn Hk Hk'. unfold overwrite, sub. simpl. rewrite drop_app_le by (rewrite length_replicate; lia).
    rewrite drop_replicate, take_app_le by (rewrite length_replicate; lia). rewrite take_replicate. f_equal. lia. }
  unfold size6, size4. destruct v6; [apply (Hz 8 16 28)|apply (Hz 4 4 16)]; lia.
Qed.

(** Reading a text gives the address it names; a text that is refused leaves zero. *)
Lemma new_ip_denotes mem s p (v6 : bool) :
  zlen mem = 28 -> 0 <= p < 2 ^ 16 ->
  let x := pton v6 (sockets.c_str s) in
  (InetAddress.new_ip mem s p v6).2 = bool_decide (x <> None) /\
  denotes (InetAddress.new_ip mem s p v6).1
    (mk v6 (default (replicate (if v6 then 16 else 4) nul) x) p).
Proof.
  intros Hm Hp.
  set (base := set_port (Endian.hostToNetwork16 p)
    (set_family (if v6 then AF_INET6 else AF_INET) (memZero (if v6 then size6 else size4) mem))).
  assert (zlen (memZero (if v6 then size6 else size4) mem) = 28) as Hz
    by (rewrite zlen_memZero; unfold size6, size4; destruct v6; lia).
  destruct (header_fields (memZero (if v6 then size6 else size4) mem) (if v6 then AF_INET6 else AF_INET) p Hz
    ltac:(unfold AF_INET6, AF_INET; destruct v6; lia) Hp) as (Hl & Hf & Hpo & Hrest). fold base in Hl, Hf, Hpo, Hrest.
  assert (InetAddress.new_ip mem s p v6 =
    match pton v6 (sockets.c_str s) with
    | Some x => (if v6 then set_addr6 x base else set_addr x base, true)
    | None => (base, false)
    end) as ->.
  { unfold InetAddress.new_ip, pton, base. by destruct v6. }
  destruct (pton v6 (sockets.c_str s)) as [x|] eqn:E; simpl; (split; [done|]).
  - apply pton_size in E. destruct (addr_over base v6 x Hl E) as (Hl' & Hpre & Hip).
    apply header_of_prefix in Hpre as [Hf' Hp']. split; simpl; try done; congruence.
  - split; simpl; try done.
    + split; [|done]. simpl. unfold zlen. rewrite length_replicate. by destruct v6.
    + unfold sin6_addr, sin_addr. rewrite !Hrest by lia. by apply zero_fields.
Qed.

(** [InetAddress(port, loopbackOnly, ipv6)] *)
Definition any_ip (loopbackOnly v6 : bool) : bytes :=
  if v6 then (if loopbackOnly then InetAddress.in6addr_loopback else InetAddress.in6addr_any)
  else rev (to_le 4 (if loopbackOnly then InetAddress.kInaddrLoopback else InetAddress.kInaddrAny)).

Lemma new_denotes mem p loopbackOnly v6 :
  zlen mem = 28 -> 0 <= p < 2 ^ 16 ->
  denotes (InetAddress.new mem p loopbackOnly v6) (mk v6 (any_ip loopbackOnly v6) p).
Proof.
  intros Hm Hp. set (f := if v6 then AF_INET6 else AF_INET).
  set (a1 := set_family f (memZero (if v6 then size6 else size4) mem)).
  set (x := any_ip loopbackOnly v6).
  assert (InetAddress.new mem p loopbackOnly v6 =
    set_port (Endian.hostToNetwork16 p) (if v6 then set_addr6 x a1 else set_addr x a1)) as ->.
  { unfold InetAddress.new, a1, f, x, any_ip. destruct v6; [by destruct loopbackOnly|].
    unfold set_addr, put. f_equal. f_equal. unfold Endian.hostToNetwork32. apply Endian.obj_bytes_htobe. }
  assert (zlen x = if v6 then 16 else 4) as Hx by (unfold x, any_ip; by destruct v6, loopbackOnly).
  assert (zlen a1 = 28 /\ sin_family a1 = f) as [Ha1 Hf].
  { assert (zlen (memZero (if v6 then size6 else size4) mem) = 28) as Hz
      by (rewrite zlen_memZero; unfold size6, size4; destruct v6; lia).
    unfold a1, set_family, sin_family. split; [rewrite zlen_put; lia|]. rewrite get_put_same by lia.
    unfold f. by destruct v6. }
  destruct (addr_over a1 v6 x Ha1 Hx) as (Hl & Hpre & Hip). apply header_of_prefix in Hpre as [Hf' _].
  set (a2 := if v6 then set_addr6 x a1 else set_addr x a1) in *. pose proof (port16_range p Hp) as Hq.
  split; simpl.
  - unfold set_port. rewrite zlen_put; lia.
  - done.
  - fold f. rewrite <- Hf, <- Hf'. unfold sin_family, set_port, get. f_equal. apply sub_put_ne; lia.
  - unfold set_port, sin_port. rewrite get_put_same by lia. by apply Z.mod_small.
  - rewrite <- Hip. unfold sin6_addr, sin_addr, set_port. rewrite !sub_put_ne by lia. done.
Qed.

(** The text of an address. *)
Lemma toIp_text a e : denotes a e -> InetAddress.toIp a = Ok (ntop e).
Proof.
  intros [Hs He Hf Hp Hi]. unfold InetAddress.toIp, sockets.toIp, ntop. rewrite Hf.
  destruct (ipv6 e); simpl; by rewrite Hi.
Qed.

Lemma toIpPort_text a e : denotes a e -> InetAddress.toIpPort a = Ok (text e) /\ zlen (text e) <= 51.
Proof.
  intros Ha. pose proof (toIp_text a e Ha) as Ht. destruct Ha as [Hs He Hf Hp Hi].
  destruct (ntop_text e He) as (Hlen & _ & _). destruct He as [_ Hport].
  pose proof (Num2String.zlen_dec 4 (port e) ltac:(lia) ltac:(simpl; lia)) as Hd.
  assert (zlen (text e) <= 51) as Hshort by (unfold text; rewrite !zlen_app; change (zlen (str ":")) with 1; lia).
  split; [|done]. unfold InetAddress.toIpPort, sockets.toIpPort. unfold InetAddress.toIp in Ht.
  rewrite Ht, bind_ok, Hp, port16_back by done. passert. unfold text. do 2 f_equal.
  unfold CTime.snprintf. apply take_ge. rewrite length_app. unfold zlen in *. simpl. lia.
Qed.

(** The address part as a number. *)
Lemma of_le_inj l k : length l = length k -> of_le l = of_le k -> l = k.
Proof. intros Hl E. rewrite <- (to_of_le l), <- (to_of_le k), Hl. by rewrite E. Qed.

Lemma obj_value_inj l k : length l = length k -> Endian.obj_value l = Endian.obj_value k -> l = k.
Proof.
  unfold Endian.obj_value. destruct host_order; [apply of_le_inj|]. intros Hl E.
  rewrite <- (rev_involutive l), <- (rev_involutive k). f_equal. apply of_le_inj; [by rewrite !length_rev|done].
Qed.

(** What the socket calls store for an endpoint is read back unchanged. *)
Lemma getLocalAddr_id a : zlen a = 28 -> sockets.getLocalAddr (Some a) = a.
Proof.
  intros Ha. unfold sockets.getLocalAddr, overwrite. simpl. unfold zlen in Ha.
  rewrite (drop_ge sockets.zeroed); [apply app_nil_r|]. unfold sockets.zeroed. rewrite length_replicate. lia.
Qed.

Lemma isSelfConnect_spec a b e e' :
  denotes a e -> denotes b e' -> ipv6 e = ipv6 e' ->
  sockets.isSelfConnect (Some a) (Some b) = bool_decide (e = e').
Proof.
  intros [Ha He Hf Hp Hi] [Hb He' Hf' Hp' Hi'] Hv. unfold sockets.isSelfConnect.
  rewrite (getLocalAddr_id a Ha). change (sockets.getPeerAddr (Some b)) with (sockets.getLocalAddr (Some b)).
  rewrite (getLocalAddr_id b Hb), Hf, Hp, Hp'.
  assert ((Endian.hostToNetwork16 (port e) =? Endian.hostToNetwork16 (port e')) = bool_decide (port e = port e')) as ->.
  { destruct (Z.eqb_spec (Endian.hostToNetwork16 (port e)) (Endian.hostToNetwork16 (port e'))) as [E|E].
    - symmetry. apply bool_decide_eq_true_2. rewrite <- (port16_back (port e)), <- (port16_back (port e')) by (apply He || apply He').
      by rewrite E.
    - symmetry. apply bool_decide_eq_false_2. congruence. }
  destruct e as [v x p], e' as [v' x' p']; simpl in *. subst v'.
  assert (bool_decide (mk v x p = mk v x' p') = bool_decide (p = p') && bool_decide (x = x')) as ->.
  { rewrite <- bool_decide_and. apply bool_decide_ext.
    split; [by intros [= -> ->]|by intros [-> ->]]. }
  destruct v; simpl; [by rewrite Hi, Hi'|]. f_equal. subst x x'. unfold get, sin_addr. change (Z.of_nat 4) with 4.
  destruct He as [Hl _], He' as [Hl' _]. simpl in Hl, Hl'. unfold sin_addr, zlen in Hl, Hl'.
  destruct (Z.eqb_spec (Endian.obj_value (sub 4 4 a)) (Endian.obj_value (sub 4 4 b))) as [E|E].
  - symmetry. apply bool_decide_eq_true_2. apply obj_value_inj; [lia|done].
  - symmetry. apply bool_decide_eq_false_2. congruence.
Qed.

Lemma setScopeId_denotes a e sc : denotes a e -> denotes (InetAddress.setScopeId a sc) e.
Proof.
  intros [Ha He Hf Hp Hi]. unfold InetAddress.setScopeId, InetAddress.family.
  destruct (sin_family a =? AF_INET6); [|by constructor].
  unfold set_scope_id. split; [rewrite zlen_put; lia|done| | |].
  - rewrite <- Hf. unfold sin_family, get. f_equal. apply sub_put_ne; lia.
  - rewrite <- Hp. unfold sin_port, get. f_equal. apply sub_put_ne; lia.
  - rewrite <- Hi. unfold sin6_addr, sin_addr. rewrite !sub_put_ne by lia. done.
Qed.

Lemma resolve_denotes a e x :
  denotes a e -> ipv6 e = false -> zlen x = 4 ->
  InetAddress.resolve 0 (Some (AF_INET, x)) a = Ok (true, set_addr x a) /\ denotes (set_addr x a) (mk false x (port e)).
Proof.
  intros [Ha He Hf Hp Hi] Hv Hx. unfold InetAddress.resolve. simpl. rewrite Hx. split; [done|].
  destruct (addr_over a false x Ha Hx) as (Hl & Hpre & Hip). apply header_of_prefix in Hpre as [Hf' Hp'].
  rewrite Hv in Hf. split; simpl; try done; [|congruence..]. split; [done|apply He].
Qed.

Lemma ipNetEndian_spec a e :
  denotes a e -> ipv6 e = false ->
  exists v, InetAddress.ipNetEndian a = Ok v /\ Endian.obj_bytes 4 v = ip e.
Proof.
  intros [Ha He Hf Hp Hi] Hv. rewrite Hv in Hf, Hi. unfold InetAddress.ipNetEndian, InetAddress.family. rewrite Hf. passert.
  eexists. split; [done|]. rewrite <- Hi. unfold get. change (Z.of_nat 4) with 4. unfold sin_addr.
  assert (length (sub 4 4 a) = 4%nat) as Hl by (pose proof (zlen_sub 4 4 a ltac:(lia) ltac:(lia) ltac:(lia)); unfold zlen in *; lia).
  unfold Endian.obj_bytes, Endian.obj_value. destruct host_order; [by rewrite <- Hl, to_of_le|].
  rewrite <- Hl, <- length_rev, to_of_le. apply rev_involutive.
Qed.

(** C34. Addresses refine endpoints (a family, an IP address and a port).  Both
    constructors give the endpoint they name, whatever the memory held before, and a
    text that is refused gives the zero address; of an address that stands for an
    endpoint, [toIp], [toIpPort] and [toPort] give its text and port without failing
    an assertion or cutting the text, [ipNetEndian] its IPv4 address in network
    order; constructing an address from that text gives the endpoint back; setting a
    scope keeps the endpoint, resolving a host replaces the IP address and keeps the
    port; and a connection is a self-connection exactly if both ends are the same
    endpoint. *)
Theorem inetaddress_refines a e mem :
  denotes a e -> zlen mem = 28 ->
  (forall p loopbackOnly v6, 0 <= p < 2 ^ 16 ->
     denotes (InetAddress.new mem p loopbackOnly v6) (mk v6 (any_ip loopbackOnly v6) p)) /\
  (forall s p v6, 0 <= p < 2 ^ 16 ->
     denotes (InetAddress.new_ip mem s p v6).1
       (mk v6 (default (replicate (if v6 then 16 else 4) nul) (pton v6 (sockets.c_str s))) p)) /\
  InetAddress.toIp a = Ok (ntop e) /\ InetAddress.toIpPort a = Ok (text e) /\ InetAddress.toPort a = port e /\
  (ipv6 e = false -> exists v, InetAddress.ipNetEndian a = Ok v /\ Endian.obj_bytes 4 v = ip e) /\
  (let r := InetAddress.new_ip mem (ntop e) (port e) (ipv6 e) in r.2 = true /\ denotes r.1 e) /\
  (forall sc, denotes (InetAddress.setScopeId a sc) e) /\
  (forall x, ipv6 e = false -> zlen x = 4 ->
     exists a', InetAddress.resolve 0 (Some (AF_INET, x)) a = Ok (true, a') /\ denotes a' (mk false x (port e))) /\
  (forall b e', denotes b e' -> ipv6 e = ipv6 e' ->
     sockets.isSelfConnect (Some a) (Some b) = bool_decide (e = e')).
Proof.
  intros Ha Hm. pose proof (den_ok a e Ha) as He. split_and!.
  - intros. by apply new_denotes.
  - intros. by apply new_ip_denotes.
  - by apply toIp_text.
  - by apply toIpPort_text.
  - unfold InetAddress.toPort, InetAddress.portNetEndian. rewrite (den_port a e Ha). apply port16_back, He.
  - by apply ipNetEndian_spec.
  - destruct (ntop_text e He) as (_ & Hn & Hpt).
    destruct (new_ip_denotes mem (ntop e) (port e) (ipv6 e) Hm (proj2 He)) as [Hr Hd].
    rewrite c_str_id, Hpt in Hr, Hd by done. cbn zeta. split; [done|]. by destruct e.
  - intros sc. by apply setScopeId_denotes.
  - intros x Hv Hx. eexists. by apply resolve_denotes.
  - intros b e'. by apply isSelfConnect_spec.
Qed.

End with_libc.

(** *** A concrete libc: dotted decimals, and hexadecimal digits for IPv6 *)
Definition dotted (a : bytes) : bytes :=
  match a with
  | [a0; a1; a2; a3] =>
      Num2String.dec (Z_of_byte a0) ++ "."%char :: Num2String.dec (Z_of_byte a1) ++ "."%char ::
      Num2String.dec (Z_of_byte a2) ++ "."%char :: Num2String.dec (Z_of_byte a3)
  | _ => []
  end.

(** A number up to 255 without leading zeros, then the rest of the text. *)
Definition read_octet (s : bytes) : option (byte * bytes) :=
  let n := Z.to_nat (std_find "."%char s) in
  let v := Num2String.dec_value (take n s) in
  if bool_decide (Num2String.dec v = take n s) && (0 <=? v) && (v <=? 255) then Some (byte_of_Z v, drop n s) else None.
Definition read_dot (s : bytes) : option bytes :=
  match s with c :: s => if Ascii.eqb c "."%char then Some s else None | [] => None end.
Definition undotted (s : bytes) : option bytes :=
  '(a0, s) ← read_octet s ; s ← read_dot s ;
  '(a1, s) ← read_octet s ; s ← read_dot s ;
  '(a2, s) ← read_octet s ; s ← read_dot s ;
  '(a3, s) ← read_octet s ;
  if bool_decide (s = []) then Some [a0; a1; a2; a3] else None.

Definition hex_pair (b : byte) : bytes :=
  [nth (Z.to_nat (Z_of_byte b / 16)) Num2String.digitsHex nul; nth (Z.to_nat (Z_of_byte b mod 16)) Num2String.digitsHex nul].
Definition hexed (a : bytes) : bytes := flat_map hex_pair a.
Fixpoint unhexed (n : nat) (s : bytes) : option bytes :=
  match n, s with
  | O, [] => Some []
  | S n, c1 :: c2 :: s =>
      r ← unhexed n s ;
      Some (byte_of_Z (16 * Num2String.hexdigit_value c1 + Num2String.hexdigit_value c2) :: r)
  | _, _ => None
  end.

#[export] Instance demo_libc : InetText :=
  {| inet_ntop4 := dotted; inet_pton4 := undotted; inet_ntop6 := hexed; inet_pton6 := unhexed 16 |}.

(** The facts about one byte, checked for all of them. *)
Definition byte_check (b : byte) : bool :=
  let d := Num2String.dec (Z_of_byte b) in
  forallb (fun c => negb (Ascii.eqb c "."%char) && negb (Ascii.eqb c nul)) d && (zlen d <=? 3) &&
  forallb (fun c => negb (Ascii.eqb c nul)) (hex_pair b) &&
  bool_decide (unhexed 1 (hex_pair b) = Some [b]).

Lemma byte_checked b : byte_check b = true.
Proof.
  rewrite <- (byte_of_Z_of_byte b). pose proof (Z_of_byte_range b).
  assert (forallb (fun n => byte_check (byte_of_Z (Z.of_nat n))) (seq 0 256) = true) as H' by (vm_compute; reflexivity).
  rewrite forallb_forall in H'. specialize (H' (Z.to_nat (Z_of_byte b))). rewrite Z2Nat.id in H' by lia.
  apply H', List.in_seq. lia.
Qed.

Lemma byte_facts b :
  let d := Num2String.dec (Z_of_byte b) in
  Forall (fun c => c <> "."%char /\ c <> nul) d /\ zlen d <= 3 /\ Forall (fun c => c <> nul) (hex_pair b) /\
  unhexed 1 (hex_pair b) = Some [b].
Proof.
  pose proof (byte_checked b) as H. unfold byte_check in H. rewrite !andb_true_iff in H.
  destruct H as (((H1 & H2) & H3) & H4). cbn zeta. rewrite forallb_forall in H1, H3. split_and!.
  - apply Forall_forall. intros c Hc%list_elem_of_In. specialize (H1 c Hc).
    apply andb_true_iff in H1 as [E1%negb_true_iff E2%negb_true_iff]. by rewrite Ascii.eqb_neq in E1, E2.
  - by apply Z.leb_le.
  - apply Forall_forall. intros c Hc%list_elem_of_In. specialize (H3 c Hc). by apply negb_true_iff, Ascii.eqb_neq in H3.
  - by apply bool_decide_eq_true_1 in H4.
Qed.

Lemma read_octet_dec b r :
  r = [] \/ (exists r', r = "."%char :: r') -> read_octet (Num2String.dec (Z_of_byte b) ++ r) = Some (b, r).
Proof.
  intros Hr. destruct (byte_facts b) as (Hd & Hl & _). pose proof (Z_of_byte_range b) as Hb.
  assert (Forall (fun c => c <> "."%char) (Num2String.dec (Z_of_byte b))) as Hd' by (eapply Forall_impl; [exact Hd|]; naive_solver).
  assert (std_find "."%char (Num2String.dec (Z_of_byte b) ++ r) = zlen (Num2String.dec (Z_of_byte b))) as Hf.
  { destruct Hr as [->|(r' & ->)]; [rewrite app_nil_r; by apply std_find_absent|by apply std_find_app]. }
  unfold read_octet. rewrite Hf. unfold zlen. rewrite Nat2Z.id, take_app_length, drop_app_length.
  rewrite Num2String.dec_value_dec by lia. rewrite bool_decide_eq_true_2 by done.
  rewrite (proj2 (Z.leb_le 0 _)), (proj2 (Z.leb_le _ 255)) by lia. simpl. by rewrite byte_of_Z_of_byte.
Qed.

Lemma dotted_ok a : zlen a = 4 -> zlen (dotted a) < 16 /\ Forall (fun c => c <> nul) (dotted a) /\ undotted (dotted a) = Some a.
Proof.
  unfold zlen at 1. intros Ha. destruct a as [|a0 [|a1 [|a2 [|a3 [|? ?]]]]]; simpl in Ha; try lia.
  destruct (byte_facts a0) as (F0 & L0 & _), (byte_facts a1) as (F1 & L1 & _),
    (byte_facts a2) as (F2 & L2 & _), (byte_facts a3) as (F3 & L3 & _).
  assert (forall d, Forall (fun c => c <> "."%char /\ c <> nul) d -> Forall (fun c => c <> nul) d) as Hw
    by (intros d Hd; eapply Forall_impl; [exact Hd|]; naive_solver).
  unfold dotted. split_and!.
  - rewrite !zlen_app, !zlen_cons, !zlen_app, !zlen_cons, !zlen_app, zlen_cons. lia.
  - rewrite !Forall_app, !Forall_cons, !Forall_app, !Forall_cons, !Forall_app, Forall_cons. split_and!; auto; done.
  - unfold undotted. rewrite read_octet_dec by eauto. simpl. rewrite read_octet_dec by eauto. simpl.
    rewrite read_octet_dec by eauto. simpl. rewrite <- (app_nil_r (Num2String.dec (Z_of_byte a3))).
    rewrite read_octet_dec by eauto. done.
Qed.

Lemma hexed_ok a : length (hexed a) = (2 * length a)%nat /\ Forall (fun c => c <> nul) (hexed a) /\ unhexed (length a) (hexed a) = Some a.
Proof.
  induction a as [|b a (IH1 & IH2 & IH3)]; [done|]. destruct (byte_facts b) as (_ & _ & Hn & Hu). unfold hexed in *.
  cbn [flat_map]. split_and!.
  - rewrite length_app, IH1. simpl. lia.
  - by apply Forall_app.
  - simpl. rewrite IH3. simpl in Hu |- *. by injection Hu as ->.
Qed.

Lemma unhexed_size n s a : unhexed n s = Some a -> length a = n.
Proof.
  revert s a. induction n as [|n IH]; intros [|c1 [|c2 s]] a; simpl; try done; [by intros [= <-]|].
  destruct (unhexed n s) as [r|] eqn:E; [|done]. intros [= <-]. simpl. f_equal. eauto.
Qed.

#[export] Instance demo_libc_laws : InetLaws.
Proof.
  split; cbn [demo_libc inet_ntop4 inet_pton4 inet_ntop6 inet_pton6].
  - intros a Ha. destruct (dotted_ok a Ha) as (? & ? & _). done.
  - intros a Ha. destruct (hexed_ok a) as (Hl & Hn & _). split; [|done]. unfold zlen in *. unfold INET6_ADDRSTRLEN. lia.
  - intros a Ha. by apply dotted_ok.
  - intros a Ha. destruct (hexed_ok a) as (_ & _ & H). unfold zlen in Ha. by replace (length a) with 16%nat in H by lia.
  - intros s a. unfold undotted, mbind, option_bind. repeat case_match; try done. by intros [= <-].
  - intros s a Ha. apply unhexed_size in Ha. unfold zlen. lia.
Qed.

(** 10.0.0.7:8080 on a little-endian host. *)
Definition demo_addr : bytes :=
  (InetAddress.new_ip (HO := LittleEndian) (replicate 28 "x"%char) (str "10.0.0.7") 8080 false).1.

Lemma inetaddress_refines_witness :
  InetAddress.toIpPort (HO := LittleEndian) demo_addr = Ok (str "10.0.0.7:8080").
Proof.
  destruct (inetaddress_refines (HO := LittleEndian) demo_addr
    (mk false (byte_of_Z <$> [10; 0; 0; 7]) 8080) (replicate 28 nul)) as (_ & _ & _ & Ht & _);
    [constructor; by vm_compute|done|]. rewrite Ht. reflexivity.
Defined.

End Endpoint.
