(* ===== verification/LogText.v ===== *)
(** The logging front end: the fixed-size buffers and the stream operators of
    src/libel/base/logstream.h and logstream.cpp, and the line a [Logger] emits
    (src/libel/base/logging.h, logging.cpp). *)

From S2P Require Import Prelude NumText TimeText.

(** ** [Util::FixedSizeBuffer<SIZE>] *)
Module FixedSizeBuffer.
Section with_size.
Variable SIZE : Z.

(** [cur_] is an offset into [data_]. *)
Record t := mk {
  data_ : bytes;
  cur_ : Z;
  written_ : Z;
}.

Definition new : t := {| data_ := replicate (Z.to_nat SIZE) nul; cur_ := 0; written_ := 0 |}.

Definition length (b : t) : Z := size_t (written_ b).
Definition avail (b : t) : Z := size_t (SIZE - size_t (written_ b)).
Definition current (b : t) : Z := cur_ b.

(** A store of [src] at offset [off] of [data_]. *)
Definition store (b : t) (off : Z) (src : bytes) : outcome t :=
  if (off <? 0) || (SIZE <? off + zlen src) then Fault OutOfBounds
  else Ok {| data_ := overwrite off src (data_ b); cur_ := cur_ b; written_ := written_ b |}.

Definition add (b : t) (len : Z) : t :=
  {| data_ := data_ b; cur_ := cur_ b + len; written_ := int64 (written_ b + len) |}.

Definition append (b : t) (buf : bytes) : outcome t :=
  (* if len is too big, we just append partially *)
  let size := Z.min (zlen buf) (avail b) in
  b' ← store b (cur_ b) (take (Z.to_nat size) buf) ;
  mret (add b' size).

Definition reset (b : t) : t := {| data_ := data_ b; cur_ := 0; written_ := 0 |}.

Definition setZero (b : t) : t :=
  {| data_ := replicate (Z.to_nat SIZE) nul; cur_ := cur_ b; written_ := written_ b |}.

Definition toString (b : t) : bytes := sub 0 (length b) (data_ b).

(** [peekBuffer]: terminates the text at [cur_]. *)
Definition peekBuffer (b : t) : outcome t := store b (cur_ b) [nul].

Definition ok (b : t) : Prop :=
  zlen (data_ b) = SIZE /\ cur_ b = written_ b /\ 0 <= written_ b <= SIZE /\ SIZE < 2 ^ 63.

(** The buffer shows the text [s]. *)
Definition holds (b : t) (s : bytes) : Prop :=
  ok b /\ zlen s = written_ b /\ take (List.length s) (data_ b) = s.

Lemma avail_eq b : ok b -> avail b = SIZE - written_ b.
Proof.
  intros (Hd & Hc & Hw & Hs). unfold avail.
  change (2 ^ 63) with 9223372036854775808 in Hs.
  rewrite (uwrap_small 64 (written_ b)), uwrap_small by
    (change (2 ^ 64) with 18446744073709551616; lia). done.
Qed.

Lemma fixed_new_holds : 0 <= SIZE < 2 ^ 63 -> holds new [].
Proof.
  intros. split; [|done]. unfold ok, new; simpl.
  unfold zlen. rewrite length_replicate. lia.
Qed.

Lemma holds_toString b s : holds b s -> toString b = s.
Proof.
  intros ((Hd & Hc & Hw & Hs) & Hl & Ht). unfold toString, length.
  change (2 ^ 63) with 9223372036854775808 in Hs.
  rewrite uwrap_small by (change (2 ^ 64) with 18446744073709551616; lia).
  rewrite take_sub, <- Hl. unfold zlen. by rewrite Nat2Z.id.
Qed.

Lemma reset_holds b s : holds b s -> holds (reset b) [].
Proof. intros ((Hd & Hc & Hw & Hs) & Hl & Ht). unfold holds, ok, reset; simpl. split_and!; (done || lia). Qed.

(** Bytes stored at [current()] and then added extend the text. *)
Lemma store_add b s x y :
  holds b s -> zlen s + zlen x + zlen y <= SIZE ->
  exists b1, store b (cur_ b) (x ++ y) = Ok b1 /\ holds (add b1 (zlen x)) (s ++ x).
Proof.
  intros ((Hd & Hc & Hw & Hs) & Hl & Ht) Hfit. unfold store.
  pose proof (zlen_nonneg x). pose proof (zlen_nonneg y).
  rewrite zlen_app. bcases; [lia..|]. simpl.
  eexists. split; [done|]. change (2 ^ 63) with 9223372036854775808 in Hs.
  unfold holds, ok, add; simpl. rewrite zlen_overwrite by (rewrite ?zlen_app; lia).
  rewrite swrap_small; [|lia|unfold in_int; change (2 ^ (64 - 1)) with 9223372036854775808; lia].
  rewrite zlen_app. split_and!; [lia..|change (2 ^ 63) with 9223372036854775808; lia|lia|].
  unfold overwrite. rewrite Hc, <- Hl. unfold zlen. rewrite Nat2Z.id, Ht.
  rewrite app_assoc, app_assoc, <- !app_assoc, length_app.
  rewrite (app_assoc s x). apply take_app_length'. by rewrite length_app.
Qed.

Lemma fixed_append_spec b s buf :
  holds b s ->
  exists b', append b buf = Ok b' /\ holds b' (s ++ take (Z.to_nat (SIZE - zlen s)) buf).
Proof.
  intros Hh. pose proof Hh as ((Hd & Hc & Hw & Hs) & Hl & Ht). unfold append.
  rewrite avail_eq by apply Hh. rewrite <- Hl.
  pose proof (zlen_nonneg buf).
  set (x := take (Z.to_nat (Z.min (zlen buf) (SIZE - zlen s))) buf).
  assert (zlen x = Z.min (zlen buf) (SIZE - zlen s)) as Hx
    by (unfold x, zlen in *; rewrite length_take; lia).
  destruct (store_add b s x []) as (b1 & Hb1 & Hh1); [done|rewrite zlen_nil; lia|].
  rewrite app_nil_r in Hb1. rewrite Hb1, bind_ok, <- Hx.
  eexists. split; [done|].
  replace (take (Z.to_nat (SIZE - zlen s)) buf) with x; [done|].
  unfold x. destruct (Z.min_spec (zlen buf) (SIZE - zlen s)) as [[? ->]|[? ->]]; [|done].
  rewrite !take_ge; [done|unfold zlen in *; lia..].
Qed.

End with_size.
End FixedSizeBuffer.

(** ** [LogStream] *)
Module LogStream.
Import Num2String.

Definition SmallBuffer : Z := 4000.
Definition MaxNumericSize : Z := 32.

(** The stream's only member is its buffer, [FixedSizeBuffer<SmallBuffer>]. *)
Abbreviation t := FixedSizeBuffer.t.
Definition new : t := FixedSizeBuffer.new SmallBuffer.

Definition append (b : t) (data : bytes) : outcome t := FixedSizeBuffer.append SmallBuffer b data.

(** Sizes of the LP64 data model the project targets. *)
Definition sizeof_short : Z := 2.
Definition sizeof_int : Z := 4.
Definition sizeof_long : Z := 8.
Definition sizeof_long_long : Z := 8.

(** The common shape of the integer operators: nothing when fewer than
    [MaxNumericSize] bytes are left, else the conversion writes at [current()]
    and [add] advances by its result. *)
Definition put_number (b : t) (conv : outcome bytes) : outcome t :=
  if FixedSizeBuffer.avail SmallBuffer b <? MaxNumericSize then mret b
  else
    s ← conv ;
    b' ← FixedSizeBuffer.store SmallBuffer b (FixedSizeBuffer.current b) s ;
    mret (FixedSizeBuffer.add b' (int16 (zlen s))).

Definition signed_toa (sizeof val : Z) : outcome bytes :=
  if sizeof =? 2 then i16toa (int16 val)
  else if sizeof =? 4 then i32toa (int32 val)
  else i64toa (int64 val).

Definition unsigned_toa (sizeof val : Z) : outcome bytes :=
  if sizeof =? 2 then u16toa (uint16 val)
  else if sizeof =? 4 then u32toa (uint32 val)
  else u64toa (uint64 val).

Definition op_bool (b : t) (v : bool) : outcome t := append b (if v then str "1" else str "0").
Definition op_short (b : t) (v : Z) : outcome t := put_number b (signed_toa sizeof_short v).
Definition op_ushort (b : t) (v : Z) : outcome t := put_number b (unsigned_toa sizeof_short v).
(** Without space [operator<<(int)] also prints a line on the standard output, which the
    model does not have. *)
Definition op_int (b : t) (v : Z) : outcome t := put_number b (signed_toa sizeof_int v).
Definition op_uint (b : t) (v : Z) : outcome t := put_number b (unsigned_toa sizeof_int v).
Definition op_long (b : t) (v : Z) : outcome t := put_number b (signed_toa sizeof_long v).
Definition op_ulong (b : t) (v : Z) : outcome t := put_number b (unsigned_toa sizeof_long v).
Definition op_longlong (b : t) (v : Z) : outcome t := put_number b (signed_toa sizeof_long_long v).
Definition op_ulonglong (b : t) (v : Z) : outcome t :=
  put_number b (unsigned_toa sizeof_long_long v).

(** The operator for pointers: [convertHex] also stores a terminating NUL. *)
Definition op_ptr (b : t) (p : Z) : outcome t :=
  if MaxNumericSize <=? FixedSizeBuffer.avail SmallBuffer b then
    s ← convertHex p ;
    b' ← FixedSizeBuffer.store SmallBuffer b (FixedSizeBuffer.current b) (str "0x" ++ s ++ [nul]) ;
    mret (FixedSizeBuffer.add b' (zlen s + 2))
  else mret b.

(** [operator<<(double)]: [text] is the full "%.12g" rendering, of which
    [snprintf] stores at most 31 bytes and a NUL, and whose length it returns. *)
Definition op_double (b : t) (text : bytes) : outcome t :=
  if MaxNumericSize <=? FixedSizeBuffer.avail SmallBuffer b then
    b' ← FixedSizeBuffer.store SmallBuffer b (FixedSizeBuffer.current b) (take 31 text ++ [nul]) ;
    mret (FixedSizeBuffer.add b' (zlen text))
  else mret b.

Definition op_char (b : t) (c : byte) : outcome t := append b [c].

(** The operator for C strings: [None] is the null pointer; the bytes of a C
    string end at its first NUL. *)
Definition c_string (s : bytes) : bytes := take (Z.to_nat (std_find nul s)) s.
Definition op_cstr (b : t) (s : option bytes) : outcome t :=
  match s with
  | Some s => append b (c_string s)
  | None => append b (str "(null)")
  end.
Definition op_string (b : t) (s : bytes) : outcome t := append b s.

(** One insertion of a chain [stream << x << y << ...]. *)
Inductive item :=
  | IBool (v : bool) | IShort (v : Z) | IUShort (v : Z) | IInt (v : Z) | IUInt (v : Z)
  | ILong (v : Z) | IULong (v : Z) | ILongLong (v : Z) | IULongLong (v : Z)
  | IPtr (p : Z) | IDouble (text : bytes) | IChar (c : byte)
  | ICStr (s : option bytes) | IString (s : bytes).

Definition insert (b : t) (i : item) : outcome t :=
  match i with
  | IBool v => op_bool b v | IShort v => op_short b v | IUShort v => op_ushort b v
  | IInt v => op_int b v | IUInt v => op_uint b v | ILong v => op_long b v
  | IULong v => op_ulong b v | ILongLong v => op_longlong b v
  | IULongLong v => op_ulonglong b v | IPtr p => op_ptr b p | IDouble x => op_double b x
  | IChar c => op_char b c | ICStr s => op_cstr b s | IString s => op_string b s
  end.

Fixpoint insert_all (b : t) (items : list item) : outcome t :=
  match items with
  | [] => mret b
  | i :: rest => b' ← insert b i ; insert_all b' rest
  end.

(** ** The specification: a bounded text *)

Definition signed_text (v : Z) : bytes := if v <? 0 then str "-" ++ dec (- v) else dec v.

(** The value is one of its C++ type (for a pointer: its hexadecimal text [h];
    for a double: [snprintf]'s text, which fits the reserved bytes). *)
Definition item_ok (i : item) : Prop :=
  match i with
  | IShort v => in_int 16 v | IUShort v => in_uint 16 v | IInt v => in_int 32 v
  | IUInt v => in_uint 32 v | ILong v | ILongLong v => in_int 64 v
  | IULong v | IULongLong v => in_uint 64 v
  | IPtr p => in_uint 64 p
  | IDouble x => zlen x <= 31
  | _ => True
  end.

(** The text of an item; [true] for the ones that are all or nothing. *)
Definition item_text (i : item) : bool * bytes :=
  match i with
  | IBool v => (false, if v then str "1" else str "0")
  | IShort v | IInt v | ILong v | ILongLong v => (true, signed_text v)
  | IUShort v | IUInt v | IULong v | IULongLong v => (true, dec v)
  | IPtr p => (true, str "0x" ++ match convertHex p with Ok s => s | Fault _ => [] end)
  | IDouble x => (true, x)
  | IChar c => (false, [c])
  | ICStr (Some s) => (false, c_string s)
  | ICStr None => (false, str "(null)")
  | IString s => (false, s)
  end.

Definition spec_insert (text : bytes) (i : item) : bytes :=
  match item_text i with
  | (true, s) => if SmallBuffer - zlen text <? MaxNumericSize then text else text ++ s
  | (false, s) => text ++ take (Z.to_nat (SmallBuffer - zlen text)) s
  end.

Abbreviation holds := (FixedSizeBuffer.holds SmallBuffer).

Lemma stream_new_holds : holds new [].
Proof. apply FixedSizeBuffer.fixed_new_holds. unfold SmallBuffer. lia. Qed.

Lemma avail_text b s : holds b s -> FixedSizeBuffer.avail SmallBuffer b = SmallBuffer - zlen s.
Proof.
  intros Hh. pose proof Hh as (Hok & Hl & _).
  rewrite FixedSizeBuffer.avail_eq by done. by rewrite Hl.
Qed.

(** Storing [x] (and some padding [y]) where at least 32 bytes are free. *)
Lemma put_spec b s x y n :
  holds b s -> MaxNumericSize <= SmallBuffer - zlen s -> zlen x + zlen y <= MaxNumericSize ->
  n = zlen x ->
  exists b', (b' ← FixedSizeBuffer.store SmallBuffer b (FixedSizeBuffer.current b) (x ++ y) ;
              mret (FixedSizeBuffer.add b' n)) = Ok b' /\ holds b' (s ++ x).
Proof.
  intros Hh Hr Hx ->. unfold FixedSizeBuffer.current.
  destruct (FixedSizeBuffer.store_add SmallBuffer b s x y) as (b1 & -> & Hh1);
    [done|unfold MaxNumericSize in *; lia|].
  rewrite bind_ok. eauto.
Qed.

Lemma put_number_spec b s w x :
  holds b s -> w = Ok x -> zlen x <= MaxNumericSize ->
  exists b', put_number b w = Ok b' /\
    holds b' (if SmallBuffer - zlen s <? MaxNumericSize then s else s ++ x).
Proof.
  intros Hh -> Hx. unfold put_number. rewrite (avail_text b s) by done.
  destruct (Z.ltb_spec (SmallBuffer - zlen s) MaxNumericSize); [eauto|].
  rewrite bind_ok. pose proof (zlen_nonneg x).
  rewrite swrap_small by (unfold in_int, MaxNumericSize in *; simpl; lia).
  destruct (put_spec b s x [] (zlen x)) as (b' & Hb & ?); [done|lia|rewrite zlen_nil; lia|done|].
  rewrite app_nil_r in Hb. eauto.
Qed.

Lemma zlen_dec_max v : in_uint 64 v -> zlen (dec v) <= 20.
Proof.
  unfold in_uint. change (2 ^ 64) with 18446744073709551616. intros.
  pose proof (zlen_dec 19 v) as H'. change (10 ^ Z.of_nat 20) with (10 ^ 20) in H'. lia.
Qed.

Lemma zlen_signed_text v : in_int 64 v -> zlen (signed_text v) <= 21.
Proof.
  unfold in_int, signed_text. change (2 ^ (64 - 1)) with 9223372036854775808. intros.
  case_match; rewrite ?zlen_app; change (zlen (str "-")) with 1.
  - pose proof (zlen_dec_max (- v)) as H'. unfold in_uint in H'. lia.
  - pose proof (zlen_dec_max v) as H'. unfold in_uint in H'. lia.
Qed.

Lemma signed_toa_spec sz v :
  (sz = 2 /\ in_int 16 v) \/ (sz = 4 /\ in_int 32 v) \/ (sz = 8 /\ in_int 64 v) ->
  signed_toa sz v = Ok (signed_text v) /\ zlen (signed_text v) <= MaxNumericSize.
Proof.
  intros H. assert (in_int 64 v) as H64 by (unfold in_int in *; simpl in *; lia).
  pose proof (zlen_signed_text v H64). unfold MaxNumericSize. split; [|lia].
  unfold signed_toa. destruct H as [[-> Hv]|[[-> Hv]|[-> Hv]]]; simpl;
    rewrite swrap_small by (done || lia);
    [by apply i16toa_spec|by apply i32toa_spec|by apply i64toa_spec].
Qed.

Lemma unsigned_toa_spec sz v :
  (sz = 2 /\ in_uint 16 v) \/ (sz = 4 /\ in_uint 32 v) \/ (sz = 8 /\ in_uint 64 v) ->
  unsigned_toa sz v = Ok (dec v) /\ zlen (dec v) <= MaxNumericSize.
Proof.
  intros H. assert (in_uint 64 v) as H64 by (unfold in_uint in *; lia).
  pose proof (zlen_dec_max v H64). unfold MaxNumericSize. split; [|lia].
  unfold unsigned_toa. destruct H as [[-> Hv]|[[-> Hv]|[-> Hv]]]; simpl;
    rewrite uwrap_small by done;
    [by apply u16toa_spec|by apply u32toa_spec|by apply u64toa_spec].
Qed.

Lemma op_ptr_spec b s p :
  holds b s -> in_uint 64 p ->
  exists b', op_ptr b p = Ok b' /\ holds b' (spec_insert s (IPtr p)).
Proof.
  intros Hh Hp. unfold spec_insert. cbn [item_text]. unfold op_ptr, convertHex.
  destruct (hex_loop_spec 16 p) as (h & -> & _ & Hl); [done|lia|].
  cbn [mbind outcome_bind mret outcome_ret]. rewrite (avail_text b s) by done.
  destruct (Z.leb_spec MaxNumericSize (SmallBuffer - zlen s)) as [Hr|Hr].
  - rewrite (proj2 (Z.ltb_ge _ _)) by lia. rewrite app_assoc.
    assert (zlen (rev h) <= 16) by (unfold zlen in *; rewrite length_rev; lia).
    apply put_spec; [done|done|rewrite !zlen_app|rewrite zlen_app].
    + unfold MaxNumericSize. change (zlen (str "0x")) with 2. change (zlen [nul]) with 1. lia.
    + change (zlen (str "0x")) with 2. lia.
  - rewrite (proj2 (Z.ltb_lt _ _)) by lia. eauto.
Qed.

Lemma op_double_spec b s x :
  holds b s -> zlen x <= 31 ->
  exists b', op_double b x = Ok b' /\ holds b' (spec_insert s (IDouble x)).
Proof.
  intros Hh Hx. unfold op_double, spec_insert. cbn [item_text].
  rewrite (avail_text b s) by done.
  destruct (Z.leb_spec MaxNumericSize (SmallBuffer - zlen s)) as [Hr|Hr].
  - rewrite (proj2 (Z.ltb_ge _ _)) by lia.
    rewrite take_ge by (unfold zlen in *; lia).
    apply put_spec; [done|done| |done].
    change (zlen [nul]) with 1. unfold MaxNumericSize. lia.
  - rewrite (proj2 (Z.ltb_lt _ _)) by lia. eauto.
Qed.

Lemma stream_insert_spec b s i :
  holds b s -> item_ok i -> exists b', insert b i = Ok b' /\ holds b' (spec_insert s i).
Proof.
  intros Hh Hi.
  assert (forall x, exists b', append b x = Ok b' /\
            holds b' (s ++ take (Z.to_nat (SmallBuffer - zlen s)) x)) as Happ
    by (intros; by apply FixedSizeBuffer.fixed_append_spec).
  assert (forall w x, w = Ok x /\ zlen x <= MaxNumericSize ->
            exists b', put_number b w = Ok b' /\
              holds b' (if SmallBuffer - zlen s <? MaxNumericSize then s else s ++ x)) as Hnum
    by (intros w x []; by apply put_number_spec).
  destruct i; cbn [insert]; try (by apply op_ptr_spec); try (by apply op_double_spec);
    unfold spec_insert; cbn [item_text item_ok] in *; try apply Happ;
    try (apply Hnum, signed_toa_spec; tauto); try (apply Hnum, unsigned_toa_spec; tauto).
  destruct s0; apply Happ.
Qed.

Lemma insert_all_spec b s items :
  holds b s -> Forall item_ok items ->
  exists b', insert_all b items = Ok b' /\ holds b' (fold_left spec_insert items s).
Proof.
  intros Hh His. revert b s Hh. induction His as [|i items Hi His IH]; intros b s Hh; simpl; [eauto|].
  destruct (stream_insert_spec b s i Hh Hi) as (b1 & -> & Hh1). rewrite bind_ok. by apply IH.
Qed.

(** The log stream is a bounded text: any chain of insertions runs without
    leaving the 4000-byte buffer; strings are cut where the buffer ends and
    numbers are written entirely or not at all, as the specification
    [spec_insert] says. *)
Theorem logstream_refines b s items :
  holds b s -> Forall item_ok items ->
  exists b', insert_all b items = Ok b' /\
    FixedSizeBuffer.toString b' = fold_left spec_insert items s /\
    zlen (FixedSizeBuffer.toString b') <= SmallBuffer.
Proof.
  intros Hh His. destruct (insert_all_spec b s items Hh His) as (b' & -> & Hb).
  exists b'. rewrite (FixedSizeBuffer.holds_toString SmallBuffer b' _ Hb).
  destruct Hb as ((_ & _ & Hw & _) & Hl & _). split_and!; [done..|lia].
Qed.

Lemma logstream_refines_witness :
  exists b', insert_all new [ICStr (Some (str "x=")); IInt (-7); IBool true; IPtr 255] = Ok b' /\
    FixedSizeBuffer.toString b' = str "x=-710xFF" /\ zlen (FixedSizeBuffer.toString b') <= 4000.
Proof.
  apply (logstream_refines new [] [ICStr (Some (str "x=")); IInt (-7); IBool true; IPtr 255]).
  - apply stream_new_holds.
  - repeat constructor; unfold in_int, in_uint; simpl; lia.
Defined.

End LogStream.

(** ** [Logger] *)
Module Logger.
Import Num2String CTime LogStream.

Inductive LogLevel := TRACE | DEBUG | INFO | WARN | ERROR | FATAL.

Definition level_num (l : LogLevel) : Z :=
  match l with TRACE => 0 | DEBUG => 1 | INFO => 2 | WARN => 3 | ERROR => 4 | FATAL => 5 end.

Definition MicroSecondsPerSecond : Z := 1000 * 1000.

Definition LogLevelNameSameLen (l : LogLevel) : bytes :=
  match l with
  | TRACE => str " TRACE " | DEBUG => str " DEBUG " | INFO => str " INFO  "
  | WARN => str " WARN  " | ERROR => str " ERROR " | FATAL => str " FATAL "
  end.

(** [PreDefineMacroHelper(const char (&arr)[N])]: the part of a file name
    behind its last '/'. *)
Fixpoint strrchr (c : byte) (s : bytes) : option Z :=
  match s with
  | [] => None
  | x :: t =>
      match strrchr c t with
      | Some i => Some (1 + i)
      | None => if Ascii.eqb x c then Some 0 else None
      end
  end.

Definition PreDefineMacroHelper (arr : bytes) : bytes :=
  match strrchr "/"%char arr with
  | Some slash => drop (Z.to_nat (slash + 1)) arr
  | None => arr
  end.

(** The thread's cached calendar text: [t_time] (up to [t_time_len]) and
    [t_lastSecond]; zero initialised when the thread starts. *)
Record time_cache := mk_cache { t_time : bytes; t_lastSecond : Z }.
Definition cache0 : time_cache := {| t_time := []; t_lastSecond := 0 |}.

(** [InsideHelper::formatTime] *)
Definition formatTime (c : time_cache) (logStream_ : t) (curtime_ : Z) : outcome (time_cache * t) :=
  let seconds := Z.quot curtime_ MicroSecondsPerSecond in
  let microSeconds := Z.rem curtime_ MicroSecondsPerSecond in
  let c := if negb (seconds =? t_lastSecond c)
           then {| t_time := snprintf 64 (fmt_tm (gmtime_r seconds)); t_lastSecond := seconds |}
           else c in
  s ← append logStream_ (t_time c) ;
  s ← op_char s "."%char ;
  s ← op_long s microSeconds ;
  s ← op_char s " "%char ;
  mret (c, s).

(** The constructors, with [last_errno] = 0 as [Logger::Logger] passes it. *)
Definition InsideHelper_new (c : time_cache) (curtime_ : Z) (tidString : bytes) (level : LogLevel)
  : outcome (time_cache * t) :=
  cs ← formatTime c LogStream.new curtime_ ;
  s ← append cs.2 tidString ;
  s ← append s (take 7 (LogLevelNameSameLen level)) ;
  mret (cs.1, s).

(** [InsideHelper::finish] *)
Definition finish (s : t) (fileName_ functionName_ : bytes) (line_ : Z) : outcome t :=
  s ← op_char s " "%char ;
  s ← append s fileName_ ;
  s ← op_char s ":"%char ;
  s ← op_cstr s (Some functionName_) ;
  s ← op_char s ":"%char ;
  s ← op_int s line_ ;
  op_char s LF.

(** A logging statement: construct, insert the operands, destroy.  The result is
    the text handed to [AOutput], and whether the process goes on. *)
Definition log_statement (c : time_cache) (curtime_ : Z) (tidString file func : bytes) (line : Z)
  (level : LogLevel) (operands : list item) : outcome (time_cache * bytes * bool) :=
  cs ← InsideHelper_new c curtime_ tidString level ;
  s ← insert_all cs.2 operands ;
  s ← finish s (PreDefineMacroHelper file) func line ;
  mret (cs.1, FixedSizeBuffer.toString s, match level with FATAL => false | _ => true end).

(** [LOG_XXX]: the three lowest levels are guarded by [getLogLevel()]. *)
Definition enabled (AlogLevel level : LogLevel) : bool :=
  match level with
  | TRACE | DEBUG | INFO => level_num AlogLevel <=? level_num level
  | _ => true
  end.

(** The cache is faithful: it is the text of its second (second 0 excepted, for
    which it is born empty). *)
Definition cache_ok (c : time_cache) : Prop :=
  t_lastSecond c <> 0 -> t_time c = snprintf 64 (fmt_tm (gmtime_r (t_lastSecond c))).

Definition logged_items (curtime_ : Z) (tidString file func : bytes) (line : Z)
  (level : LogLevel) (operands : list item) : list item :=
  [ IString (snprintf 64 (fmt_tm (gmtime_r (Z.quot curtime_ MicroSecondsPerSecond))));
    IChar "."%char; ILong (Z.rem curtime_ MicroSecondsPerSecond); IChar " "%char;
    IString tidString; IString (LogLevelNameSameLen level) ] ++ operands ++
  [ IChar " "%char; IString (PreDefineMacroHelper file); IChar ":"%char;
    ICStr (Some func); IChar ":"%char; IInt line; IChar LF ].

Lemma insert_all_app b xs ys :
  insert_all b (xs ++ ys) = (b' ← insert_all b xs ; insert_all b' ys).
Proof.
  revert b. induction xs as [|x xs IH]; intros b; simpl; [done|].
  destruct (insert b x); simpl; [apply IH|done].
Qed.

Lemma formatTime_eq c s x :
  cache_ok c -> Z.quot x MicroSecondsPerSecond <> 0 ->
  exists c', cache_ok c' /\
    formatTime c s x =
    (s' ← insert_all s
       [ IString (snprintf 64 (fmt_tm (gmtime_r (Z.quot x MicroSecondsPerSecond))));
         IChar "."%char; ILong (Z.rem x MicroSecondsPerSecond); IChar " "%char ] ;
     mret (c', s')).
Proof.
  intros Hc Hx. unfold formatTime.
  set (c' := if negb _ then _ else c).
  assert (cache_ok c' /\ t_time c' = snprintf 64 (fmt_tm (gmtime_r (Z.quot x MicroSecondsPerSecond))))
    as [Hc' Ht].
  { subst c'. destruct (Z.eqb_spec (Z.quot x MicroSecondsPerSecond) (t_lastSecond c)) as [E|E]; simpl.
    - split; [done|]. rewrite E. apply Hc. congruence.
    - split; [by intros _|done]. }
  exists c'. split; [done|]. rewrite Ht. simpl. unfold op_string.
  destruct (append s _); simpl; [|done]. destruct (op_char _ _); simpl; [|done].
  destruct (op_long _ _); simpl; [|done]. by destruct (op_char _ _).
Qed.

Lemma finish_eq s file func line :
  finish s file func line =
  insert_all s [ IChar " "%char; IString file; IChar ":"%char; ICStr (Some func); IChar ":"%char;
                 IInt line; IChar LF ].
Proof.
  unfold finish. simpl. unfold op_string.
  destruct (op_char s _); simpl; [|done]. destruct (append _ file); simpl; [|done].
  destruct (op_char _ _); simpl; [|done]. destruct (append _ _); simpl; [|done].
  destruct (op_char _ _); simpl; [|done]. destruct (op_int _ _); simpl; [|done].
  by destruct (op_char _ _).
Qed.

Lemma log_statement_eq c x tid file func line level operands :
  cache_ok c -> Z.quot x MicroSecondsPerSecond <> 0 ->
  exists c', cache_ok c' /\
    log_statement c x tid file func line level operands =
    (s ← insert_all LogStream.new (logged_items x tid file func line level operands) ;
     mret (c', FixedSizeBuffer.toString s, match level with FATAL => false | _ => true end)).
Proof.
  intros Hc Hx. destruct (formatTime_eq c LogStream.new x Hc Hx) as (c' & Hc' & He).
  exists c'. split; [done|]. unfold log_statement, InsideHelper_new, logged_items. rewrite He.
  assert (take 7 (LogLevelNameSameLen level) = LogLevelNameSameLen level) as -> by (by destruct level).
  cbn [app]. cbn [insert_all]. cbn [insert]. unfold op_string.
  destruct (append LogStream.new _); simpl; [|done]. destruct (op_char _ _); simpl; [|done].
  destruct (op_long _ _); simpl; [|done]. destruct (op_char _ _); simpl; [|done].
  destruct (append _ tid); simpl; [|done]. destruct (append _ (LogLevelNameSameLen level)); simpl; [|done].
  rewrite insert_all_app. destruct (insert_all _ operands); simpl; [|done].
  by rewrite finish_eq.
Qed.

(** What a logging statement prints does not depend on the per-thread time
    cache: whatever ran before, the line is the calendar time, the microseconds,
    the thread id, the level, the operands and the source position, cut at 4000
    bytes; only [FATAL] stops the process. *)
Theorem log_line_layout c x tid file func line level operands :
  cache_ok c -> 1000000 <= x < 2 ^ 63 -> in_int 32 line -> Forall item_ok operands ->
  exists c', cache_ok c' /\
    log_statement c x tid file func line level operands =
    Ok (c', fold_left spec_insert (logged_items x tid file func line level operands) [],
        match level with FATAL => false | _ => true end).
Proof.
  intros Hc Hx Hline Hops.
  assert (Z.quot x MicroSecondsPerSecond <> 0) as Hs.
  { unfold MicroSecondsPerSecond. change (1000 * 1000) with 1000000.
    rewrite Z.quot_div_nonneg by lia. pose proof (Z.div_le_lower_bound x 1000000 1). lia. }
  destruct (log_statement_eq c x tid file func line level operands Hc Hs) as (c' & Hc' & ->).
  exists c'. split; [done|].
  destruct (insert_all_spec LogStream.new [] (logged_items x tid file func line level operands))
    as (b & -> & Hb); [apply stream_new_holds| |].
  - unfold logged_items. rewrite !Forall_app. split_and!; [|done|];
      repeat first [apply Forall_nil_2 | apply Forall_cons_2]; try done.
    simpl. unfold MicroSecondsPerSecond. pose proof (Z.rem_bound_pos x (1000 * 1000)).
    unfold in_int. change (2 ^ (64 - 1)) with 9223372036854775808. lia.
  - rewrite bind_ok. by rewrite (FixedSizeBuffer.holds_toString SmallBuffer b _ Hb).
Qed.

Lemma log_line_layout_witness :
  exists c', cache_ok c' /\
    log_statement cache0 1606293720000042 (str "77 ") (str "libel/net/acceptor.cpp") (str "listen")
      42 WARN [ICStr (Some (str "n=")); IInt 3] =
    Ok (c', str "20201125 08:42:00.42 77  WARN  n=3 acceptor.cpp:listen:42
", true).
Proof.
  destruct (log_line_layout cache0 1606293720000042 (str "77 ") (str "libel/net/acceptor.cpp")
    (str "listen") 42 WARN [ICStr (Some (str "n=")); IInt 3]) as (c' & Hc & E).
  - intros H. destruct (H eq_refl).
  - lia.
  - unfold in_int. simpl. lia.
  - repeat constructor; simpl; lia.
  - exists c'. split; [exact Hc|]. rewrite E. vm_compute. reflexivity.
Defined.
End Logger.
