(* ===== verification/LogProcess.v ===== *)
(** Logging as a process sees it: the settings of src/libel/base/logging.h and
    logging.cpp ([AlogLevel], [AOutput], [AFlush]) and what every thread caches, its
    identifier (current_thread.h and [CurrentThread] of Thread.cpp) and the calendar
    text of the last second. *)

From S2P Require Import Prelude NumText TimeText LogText.

Module CurrentThread.
Import CTime.

(** The thread-local variables; [tidStrLen] is the length of the text. *)
Record t := mk { cachedTid : Z; tid2Str : bytes; threadName : bytes }.
Definition born : t := mk 0 [] (str "defaultThreadName").

(** [gettid] is the answer of the system call. *)
Definition getCacheTid (gettid : Z) (c : t) : t :=
  if cachedTid c =? 0
  then mk (uint64 gettid) (snprintf 64 (fmt_d false 5 (int64 (uint64 gettid)))) (threadName c)
  else c.

Definition tid (gettid : Z) (c : t) : Z * t :=
  let c := if cachedTid c =? 0 then getCacheTid gettid c else c in
  (int32 (cachedTid c), c).
Definition tidString (c : t) : bytes := tid2Str c.
Definition getTidStrLength (c : t) : Z := zlen (tid2Str c).

Definition isInMainThread (gettid getpid : Z) (c : t) : bool := fst (tid gettid c) =? getpid.

(** The argument of nanosleep(): seconds and nanoseconds. *)
Definition sleepUsec (usec : Z) : Z * Z :=
  (Z.quot usec TimeStamp.kMicroSecondsPerSecond, Z.rem usec TimeStamp.kMicroSecondsPerSecond * 1000).

(** The cache is faithful. *)
Definition cached (gettid : Z) (c : t) : Prop :=
  c = born \/ (cachedTid c = gettid /\ tid2Str c = snprintf 64 (fmt_d false 5 gettid)).

Lemma tid_spec gettid c :
  0 < gettid < 2 ^ 31 -> cached gettid c ->
  fst (tid gettid c) = gettid /\ cached gettid (snd (tid gettid c)) /\
  tidString (snd (tid gettid c)) = snprintf 64 (fmt_d false 5 gettid).
Proof.
  intros Hg Hc. unfold tid, getCacheTid, tidString, cached in *.
  assert (uint64 gettid = gettid /\ int64 gettid = gettid /\ int32 gettid = gettid) as (E1 & E2 & E3).
  { rewrite uwrap_small, !swrap_small by (unfold in_int; simpl; lia). done. }
  destruct Hc as [->|[H1 H2]]; simpl.
  - rewrite E1, E2, E3. split; [done|]. split; [by right|done].
  - rewrite H1. destruct (Z.eqb_spec gettid 0); [lia|]. simpl. rewrite H1, E3. split; [done|]. split; [by right|done].
Qed.
End CurrentThread.

Module LogProcess.
Import LogStream Logger.

(** Output and flush functions are names.  [written]: what was handed to which output
    function; [flushed]: the flush functions called; [aborted]: abort() was called. *)
Record t := mk {
  AlogLevel : LogLevel;
  AOutput : Z;
  AFlush : Z;
  threads : gmap nat (CurrentThread.t * time_cache);
  written : list (Z * bytes);
  flushed : list Z;
  aborted : bool;
}.

(** Which of the two level macros the build defines. *)
Definition initAlogLevel (ALogTrace ALogDebug : bool) : LogLevel :=
  if ALogTrace then TRACE else if ALogDebug then DEBUG else INFO.
Definition defaultOutput : Z := 0.
Definition defaultFlush : Z := 0.

Definition new (ALogTrace ALogDebug : bool) : t :=
  mk (initAlogLevel ALogTrace ALogDebug) defaultOutput defaultFlush ∅ [] [] false.

Definition getLogLevel (s : t) : LogLevel := AlogLevel s.
Definition setLogLevel (s : t) (level : LogLevel) : t :=
  mk level (AOutput s) (AFlush s) (threads s) (written s) (flushed s) (aborted s).
Definition setOutput (s : t) (outputFunc : Z) : t :=
  mk (AlogLevel s) outputFunc (AFlush s) (threads s) (written s) (flushed s) (aborted s).
Definition setFlush (s : t) (flushFunc : Z) : t :=
  mk (AlogLevel s) (AOutput s) flushFunc (threads s) (written s) (flushed s) (aborted s).

(** [getNowTime]; [tv] is the answer of gettimeofday(). *)
Definition getNowTime (tv : Z * Z) : Z := int64 (tv.1 * MicroSecondsPerSecond + tv.2).

Definition locals (s : t) (i : nat) : CurrentThread.t * time_cache :=
  default (CurrentThread.born, cache0) (threads s !! i).

(** A statement of the program. *)
Inductive stmt :=
  | SetLogLevel (level : LogLevel)
  | SetOutput (outputFunc : Z)
  | SetFlush (flushFunc : Z)
  | Log (i : nat) (tv : Z * Z) (file func : bytes) (line : Z) (level : LogLevel) (operands : list item).

(** [LOG_XXX << ...] in thread [i]: the level, the statement, the output, and for
    [FATAL] the flush and abort(). *)
Definition log (gettid : nat -> Z) (s : t) (i : nat) (tv : Z * Z) (file func : bytes) (line : Z)
  (level : LogLevel) (operands : list item) : outcome t :=
  if enabled (getLogLevel s) level then
    let c := snd (CurrentThread.tid (gettid i) (fst (locals s i))) in
    r ← log_statement (snd (locals s i)) (getNowTime tv) (CurrentThread.tidString c) file func line level operands ;
    let fatal := negb r.2 in
    mret (mk (AlogLevel s) (AOutput s) (AFlush s) (<[i := (c, r.1.1)]> (threads s))
            (written s ++ [(AOutput s, r.1.2)])
            (flushed s ++ if fatal then [AFlush s] else []) fatal)
  else mret s.

Definition exec (gettid : nat -> Z) (s : t) (x : stmt) : outcome t :=
  if aborted s then mret s
  else match x with
       | SetLogLevel level => mret (setLogLevel s level)
       | SetOutput f => mret (setOutput s f)
       | SetFlush f => mret (setFlush s f)
       | Log i tv file func line level operands => log gettid s i tv file func line level operands
       end.

Fixpoint run (gettid : nat -> Z) (s : t) (xs : list stmt) : outcome t :=
  match xs with
  | [] => mret s
  | x :: xs => s ← exec gettid s x ; run gettid s xs
  end.

(** ** The specification: no caches, no threads *)
Record spec := mk_spec { s_level : LogLevel; s_out : Z; s_flush : Z; s_written : list (Z * bytes);
  s_flushed : list Z; s_aborted : bool }.

Definition line_text (gettid : nat -> Z) (i : nat) (tv : Z * Z) (file func : bytes) (line : Z)
  (level : LogLevel) (operands : list item) : bytes :=
  fold_left spec_insert
    (logged_items (tv.1 * 1000000 + tv.2) (CTime.fmt_d false 5 (gettid i)) file func line level operands) [].

Definition spec_exec (gettid : nat -> Z) (s : spec) (x : stmt) : spec :=
  if s_aborted s then s
  else match x with
       | SetLogLevel level => mk_spec level (s_out s) (s_flush s) (s_written s) (s_flushed s) false
       | SetOutput f => mk_spec (s_level s) f (s_flush s) (s_written s) (s_flushed s) false
       | SetFlush f => mk_spec (s_level s) (s_out s) f (s_written s) (s_flushed s) false
       | Log i tv file func line level operands =>
           if enabled (s_level s) level then
             let fatal := match level with FATAL => true | _ => false end in
             mk_spec (s_level s) (s_out s) (s_flush s)
               (s_written s ++ [(s_out s, line_text gettid i tv file func line level operands)])
               (s_flushed s ++ if fatal then [s_flush s] else []) fatal
           else s
       end.

(** Statements within the ranges of their types, after the first second of 1970. *)
Definition stmt_ok (x : stmt) : Prop :=
  match x with
  | Log _ tv _ _ line _ operands =>
      1 <= tv.1 < 2 ^ 40 /\ 0 <= tv.2 < 1000000 /\ in_int 32 line /\ Forall item_ok operands
  | _ => True
  end.

Section refinement.
Context (gettid : nat -> Z) (gettid_range : forall i, 0 < gettid i < 2 ^ 31).

Record implements (s : t) (a : spec) : Prop := {
  i_level : AlogLevel s = s_level a;
  i_out : AOutput s = s_out a /\ AFlush s = s_flush a;
  i_written : written s = s_written a /\ flushed s = s_flushed a;
  i_aborted : aborted s = s_aborted a;
  i_locals i : CurrentThread.cached (gettid i) (fst (locals s i)) /\ cache_ok (snd (locals s i));
}.

(** An identifier fits its buffer. *)
Lemma tid_text i : CTime.snprintf 64 (CTime.fmt_d false 5 (gettid i)) = CTime.fmt_d false 5 (gettid i).
Proof.
  pose proof (gettid_range i) as Hg. unfold CTime.snprintf. apply take_ge. unfold CTime.fmt_d.
  rewrite (proj2 (Z.ltb_ge (gettid i) 0)) by lia. rewrite Z.abs_eq by lia.
  pose proof (Num2String.zlen_dec 9 (gettid i) ltac:(lia) ltac:(simpl; lia)).
  rewrite !length_app, length_replicate. unfold zlen in *. simpl length. lia.
Qed.

Lemma log_refines s a i tv file func line level operands :
  implements s a -> s_aborted a = false -> stmt_ok (Log i tv file func line level operands) ->
  exists s', log gettid s i tv file func line level operands = Ok s' /\
    implements s' (spec_exec gettid a (Log i tv file func line level operands)).
Proof.
  intros Hs Ha (Htv1 & Htv2 & Hline & Hops). unfold spec_exec. rewrite Ha. unfold log, getLogLevel.
  rewrite (i_level s a Hs). destruct (enabled (s_level a) level); [|by exists s].
  destruct (i_locals s a Hs i) as [Hcur Hcache].
  destruct (CurrentThread.tid_spec (gettid i) _ (gettid_range i) Hcur) as (_ & Hcur' & ->).
  rewrite tid_text. unfold getNowTime, MicroSecondsPerSecond. change (1000 * 1000) with 1000000.
  rewrite swrap_small by (unfold in_int; simpl; lia).
  destruct (log_line_layout (snd (locals s i)) (tv.1 * 1000000 + tv.2) (CTime.fmt_d false 5 (gettid i))
    file func line level operands) as (c' & Hc' & ->); [done|lia|done|done|].
  rewrite bind_ok. eexists. split; [done|]. destruct Hs as [H1 [H2 H3] [H4 H5] H6 H7].
  split; cbn [AlogLevel AOutput AFlush written flushed aborted s_level s_out s_flush s_written s_flushed s_aborted
    fst snd]; [done|done| |by destruct level|].
  - rewrite H4, H5, H2, H3. by destruct level.
  - intros j. unfold locals. cbn [threads]. destruct (decide (j = i)) as [->|Hne].
    + by rewrite lookup_insert_eq.
    + rewrite lookup_insert_ne by done. apply H7.
Qed.

Lemma exec_stmt_refines s a x :
  implements s a -> stmt_ok x ->
  exists s', exec gettid s x = Ok s' /\ implements s' (spec_exec gettid a x).
Proof.
  intros Hs Hx. unfold exec. destruct (aborted s) eqn:Ha; rewrite (i_aborted s a Hs) in Ha.
  { exists s. split; [done|]. unfold spec_exec. by rewrite Ha. }
  destruct x; [| | |by apply log_refines]; (eexists; split; [done|]; unfold spec_exec; rewrite Ha;
    destruct Hs as [? [? ?] [? ?] ? ?]; split; cbn; try done; congruence).
Qed.

(** C35. Logging in any number of threads, with the level, the output and the flush
    function changed in between: every statement succeeds, and what each output
    function receives is what a logger without caches would print, in program order:
    the lines of the statements whose level is enabled at that moment, each with its
    own calendar time, thread identifier, level, operands and position.  After a
    FATAL line the current flush function has been called and nothing follows. *)
Theorem logger_refines tr de xs :
  Forall stmt_ok xs ->
  exists s, run gettid (new tr de) xs = Ok s /\
    implements s (fold_left (spec_exec gettid) xs (mk_spec (initAlogLevel tr de) 0 0 [] [] false)).
Proof.
  intros Hxs. assert (implements (new tr de) (mk_spec (initAlogLevel tr de) 0 0 [] [] false)) as H0.
  { split; try done. intros i. unfold locals. simpl. rewrite lookup_empty. split; [by left|].
    intros H. by destruct H. }
  revert H0. generalize (new tr de). generalize (mk_spec (initAlogLevel tr de) 0 0 [] [] false).
  induction Hxs as [|x xs Hx _ IH]; intros a s Hs; [by exists s|].
  destruct (exec_stmt_refines s a x Hs Hx) as (s' & E & Hs'). cbn [run fold_left]. rewrite E, bind_ok. by apply IH.
Qed.
End refinement.

(** Two threads; a debug line before and after the level is changed; a fatal line. *)
Definition demo_gettid (i : nat) : Z := 700 + Z.min (Z.of_nat i) 8.
Definition demo_stmts : list stmt :=
  [Log 0 (1606293720, 42) (str "a/b.cpp") (str "f") 7 DEBUG [IInt 1]; SetLogLevel DEBUG; SetFlush 9;
   Log 1 (1606293720, 43) (str "a/b.cpp") (str "f") 8 DEBUG [IInt 2]; SetOutput 5;
   Log 1 (1606293721, 0) (str "c.cpp") (str "g") 9 FATAL [];
   Log 0 (1606293722, 0) (str "c.cpp") (str "g") 9 ERROR []].

Lemma logger_refines_witness :
  exists s, run demo_gettid (new false false) demo_stmts = Ok s /\ flushed s = [9] /\
    written s = [(0, str "20201125 08:42:00.43   701 DEBUG 2 b.cpp:f:8
"); (5, str "20201125 08:42:01.0   701 FATAL  c.cpp:g:9
")].
Proof.
  destruct (logger_refines demo_gettid ltac:(intros i; unfold demo_gettid; lia) false false demo_stmts)
    as (s & E & Hs).
  - repeat (apply Forall_cons; split; [|]); try done; cbn; unfold in_int; split_and!; try lia;
      repeat constructor; cbn; unfold in_int; lia.
  - exists s. split; [exact E|]. destruct (i_written _ _ _ Hs) as [-> ->]. split; vm_compute; reflexivity.
Defined.
End LogProcess.
