(* ===== verification/Monitor.v ===== *)
(** Threads, mutexes and condition variables: the machine on which the programs of
    src/libel/base (MutexLock, MutexLockGuard and UnassignGuard of Mutex.h, Condition
    of condition.h) and their clients run.  One step is one pthread call or one
    access to shared data, so every interleaving the code allows is a run.

    [Monitor] holds the machine, a static lock discipline with its soundness, a bound
    on the length of runs, and an exhaustive exploration of small systems.
    [MutexLock] and [Condition] are the code of Mutex.h and condition.h. *)

From S2P Require Import Prelude.

Module Monitor.

(** ** Programs

    [U] names the updates of the shared data and [T] the tests on it.  Mutexes are
    numbered, and a condition variable has the number of the mutex it belongs to. *)
Section programs.
Context {U T : Type}.

Inductive prim :=
  | mutex_lock (m : nat)                (* pthread_mutex_lock *)
  | mutex_unlock (m : nat)              (* pthread_mutex_unlock *)
  | assign_holder (m : nat)             (* holder_ = gettid() *)
  | unassign_holder (m : nat)           (* holder_ = 0 *)
  | cond_wait (m : nat)                 (* pthread_cond_wait *)
  | cond_signal (m : nat)               (* pthread_cond_signal *)
  | cond_broadcast (m : nat)            (* pthread_cond_broadcast *)
  | guarded (m : nat) (u : U)           (* an access to data guarded by [m] *)
  | unguarded (u : U)                   (* an access to other data *)
  | assert_locked (m : nat)             (* assert(isLockedByThisThread()) *)
  | assert_that (t : T)                 (* assert(t) *)
  | block_until (t : T).                (* pthread_join, or a call that returns on [t] *)

(** Statements.  A test that reads guarded data names the mutex. *)
Inductive act :=
  | Do (body : list prim)
  | If (g : option nat) (t : T) (body : list prim)
  | While (g : option nat) (t : T) (body : list prim).

(** Where a thread is: the rest of the block it is in and the statements after it;
    or asleep inside [pthread_cond_wait]; or stopped by a fault. *)
Inductive thread :=
  | Run (ps : list prim) (rest : list act)
  | Asleep (m : nat) (ps : list prim) (rest : list act)
  | Crashed (f : fault).

End programs.
Arguments prim : clear implicits.
Arguments act : clear implicits.
Arguments thread : clear implicits.

(** A program used inside another one: its mutexes, updates and tests renamed. *)
Section lift.
Context {U T U' T' : Type} (fm : nat -> nat) (fU : U -> U') (fT : T -> T').

Definition lift_prim (p : prim U T) : prim U' T' :=
  match p with
  | mutex_lock m => mutex_lock (fm m)
  | mutex_unlock m => mutex_unlock (fm m)
  | assign_holder m => assign_holder (fm m)
  | unassign_holder m => unassign_holder (fm m)
  | cond_wait m => cond_wait (fm m)
  | cond_signal m => cond_signal (fm m)
  | cond_broadcast m => cond_broadcast (fm m)
  | guarded m u => guarded (fm m) (fU u)
  | unguarded u => unguarded (fU u)
  | assert_locked m => assert_locked (fm m)
  | assert_that t => assert_that (fT t)
  | block_until t => block_until (fT t)
  end.
Definition lift_act (a : act U T) : act U' T' :=
  match a with
  | Do body => Do (map lift_prim body)
  | If g t body => If (fm <$> g) (fT t) (map lift_prim body)
  | While g t body => While (fm <$> g) (fT t) (map lift_prim body)
  end.
Definition lift : list (act U T) -> list (act U' T') := map lift_act.
End lift.

(** What the names mean.  An update may depend on the thread that makes it. *)
Class Interp (U T S : Type) := {
  apply : nat -> U -> S -> S;
  holds : T -> S -> bool;
}.

(** A mutex: the thread that has locked it, and [holder_] of the [MutexLock]. *)
Record mutex := mk_mutex { owner : option nat; holder_ : Z }.

(** Thread ids: positive and distinct; nothing else of them is used. *)
Definition gettid (i : nat) : Z := Z.of_nat i + 1.

#[export] Instance fault_eq_dec : EqDecision fault.
Proof. solve_decision. Defined.
#[export] Instance mutex_eq_dec : EqDecision mutex.
Proof. solve_decision. Defined.
#[export] Instance prim_eq_dec `{EqDecision U, EqDecision T} : EqDecision (prim U T).
Proof. solve_decision. Defined.
#[export] Instance act_eq_dec `{EqDecision U, EqDecision T} : EqDecision (act U T).
Proof. solve_decision. Defined.
#[export] Instance thread_eq_dec `{EqDecision U, EqDecision T} : EqDecision (thread U T).
Proof. solve_decision. Defined.

Section machine.
Context {U T S : Type} `{!Interp U T S}.
Abbreviation prim := (prim U T).
Abbreviation act := (act U T).
Abbreviation thread := (thread U T).

Record state := mk_state { data : S; mutexes : list mutex; threads : list thread }.

#[export] Instance state_eq_dec `{EqDecision U, EqDecision T, EqDecision S} : EqDecision state.
Proof. solve_decision. Defined.

Definition init (d : S) (n : nat) (progs : list (list act)) : state :=
  mk_state d (replicate n (mk_mutex None 0)) (map (Run []) progs).

Definition mutex_at (s : state) (m : nat) : mutex := default (mk_mutex None 0) (mutexes s !! m).
Definition set_mutex (s : state) (m : nat) (x : mutex) : state :=
  mk_state (data s) (<[m := x]> (mutexes s)) (threads s).
Definition set_thread (s : state) (i : nat) (x : thread) : state :=
  mk_state (data s) (mutexes s) (<[i := x]> (threads s)).
Definition set_data (s : state) (d : S) : state := mk_state d (mutexes s) (threads s).

(** A thread that leaves the queue of a condition variable has to lock again. *)
Definition wake (m : nat) (t : thread) : thread :=
  match t with
  | Asleep m' ps rest => if decide (m = m') then Run (mutex_lock m' :: ps) rest else t
  | _ => t
  end.
Definition sleeps_on (m : nat) (t : thread) : bool :=
  match t with Asleep m' _ _ => bool_decide (m = m') | _ => false end.
Definition wake_all (m : nat) (s : state) : state :=
  mk_state (data s) (mutexes s) (map (wake m) (threads s)).
Definition sleepers (m : nat) (s : state) : list nat :=
  List.filter (fun j => default false (sleeps_on m <$> threads s !! j)) (seq 0 (length (threads s))).
Definition wake_one (m : nat) (s : state) (j : nat) : state :=
  mk_state (data s) (mutexes s) (alter (wake m) j (threads s)).

(** One step of thread [i] at [p]: the states it may lead to, none if it blocks. *)
Definition prim_moves (i : nat) (p : prim) (ps : list prim) (rest : list act) (s : state) : list state :=
  let next s := set_thread s i (Run ps rest) in
  let crash f := set_thread s i (Crashed f) in
  match p with
  | mutex_lock m =>
      match owner (mutex_at s m) with
      | None => [next (set_mutex s m (mk_mutex (Some i) (holder_ (mutex_at s m))))]
      | Some _ => []
      end
  | mutex_unlock m =>
      if decide (owner (mutex_at s m) = Some i)
      then [next (set_mutex s m (mk_mutex None (holder_ (mutex_at s m))))]
      else [crash OutOfBounds]
  | assign_holder m => [next (set_mutex s m (mk_mutex (owner (mutex_at s m)) (gettid i)))]
  | unassign_holder m => [next (set_mutex s m (mk_mutex (owner (mutex_at s m)) 0))]
  | cond_wait m =>
      if decide (owner (mutex_at s m) = Some i)
      then [set_thread (set_mutex s m (mk_mutex None (holder_ (mutex_at s m)))) i (Asleep m ps rest)]
      else [crash OutOfBounds]
  | cond_signal m =>
      match sleepers m s with
      | [] => [next s]
      | js => map (fun j => next (wake_one m s j)) js
      end
  | cond_broadcast m => [next (wake_all m s)]
  | guarded _ u | unguarded u => [next (set_data s (apply i u (data s)))]
  | assert_locked m =>
      if holder_ (mutex_at s m) =? gettid i then [next s] else [crash AssertFailed]
  | assert_that t => if holds t (data s) then [next s] else [crash AssertFailed]
  | block_until t => if holds t (data s) then [next s] else []
  end.

(** Entering the next statement. *)
Definition enter (a : act) (d : S) (rest : list act) : thread :=
  match a with
  | Do body => Run body rest
  | If _ t body => Run (if holds t d then body else []) rest
  | While g t body => if holds t d then Run body (While g t body :: rest) else Run [] rest
  end.

Definition moves (i : nat) (s : state) : list state :=
  match threads s !! i with
  | Some (Run (p :: ps) rest) => prim_moves i p ps rest s
  | Some (Run [] (a :: rest)) => [set_thread s i (enter a (data s) rest)]
  | _ => []
  end.

(** A condition variable may wake a thread for no reason. *)
Definition spurious (i : nat) (s : state) : list state :=
  match threads s !! i with
  | Some (Asleep m ps rest) => [wake_one m s i]
  | _ => []
  end.

(** Runs, with the number of steps of threads and of spurious wakeups. *)
Inductive run : nat -> nat -> state -> state -> Prop :=
  | run_refl s : run 0 0 s s
  | run_move n k s1 s2 s3 i : run n k s1 s2 -> s3 ∈ moves i s2 -> run (Datatypes.S n) k s1 s3
  | run_spurious n k s1 s2 s3 i : run n k s1 s2 -> s3 ∈ spurious i s2 -> run n (Datatypes.S k) s1 s3.

Definition finished (t : thread) : bool := match t with Run [] [] => true | _ => false end.
Definition all_finished (s : state) : bool := forallb finished (threads s).
Definition stuck (s : state) : Prop := forall i, moves i s = [].

End machine.
Arguments state : clear implicits.

(** ** The lock discipline

    A static check in the spirit of the thread safety annotations of Mutex.h: a
    program is read with a mode, [None] when it holds no mutex and [Some (m, a)] when
    it holds [m], with [a] saying whether [holder_] names it.  The check accepts
    programs that hold one mutex at a time, access guarded data only while they
    hold its mutex (and, when [strict], only while [holder_] says so; [std::mutex] has no
    [holder_]), do not block while they hold one except in [pthread_cond_wait],
    and end holding none. *)
Abbreviation mode := (option (nat * bool)).

Section discipline.
Context {U T S : Type} `{!Interp U T S}.
Context (n : nat) (strict : bool).

Definition check_prim (md : mode) (p : prim U T) : option mode :=
  match p, md with
  | mutex_lock m, None => if decide (m < n)%nat then Some (Some (m, false)) else None
  | mutex_unlock m, Some (m', false) => if decide (m = m') then Some None else None
  | assign_holder m, Some (m', false) => if decide (m = m') then Some (Some (m, true)) else None
  | unassign_holder m, Some (m', true) => if decide (m = m') then Some (Some (m, false)) else None
  | cond_wait m, Some (m', false) => if decide (m = m') then Some md else None
  | cond_signal m, Some (m', a) | cond_broadcast m, Some (m', a) | guarded m _, Some (m', a) =>
      if decide (m = m' /\ (strict = true -> a = true)) then Some md else None
  | assert_locked m, Some (m', true) => if decide (m = m') then Some md else None
  | unguarded _, _ | assert_that _, _ => Some md
  | block_until _, None => Some md
  | _, _ => None
  end.

Fixpoint check_prims (md : mode) (ps : list (prim U T)) : option mode :=
  match ps with
  | [] => Some md
  | p :: ps => md' ← check_prim md p ; check_prims md' ps
  end.

Lemma check_prims_app md ps qs :
  check_prims md (ps ++ qs) = (md' ← check_prims md ps ; check_prims md' qs).
Proof.
  revert md. induction ps as [|p ps IH]; intros md; [done|]. simpl. destruct (check_prim md p); [apply IH|done].
Qed.

Definition guard_ok (md : mode) (g : option nat) : bool :=
  match g, md with
  | None, _ => true
  | Some m, Some (m', a) => bool_decide (m = m' /\ (strict = true -> a = true))
  | Some _, None => false
  end.

Definition check_act (md : mode) (a : act U T) : option mode :=
  match a with
  | Do body => check_prims md body
  | If g _ body | While g _ body =>
      if guard_ok md g && bool_decide (check_prims md body = Some md) then Some md else None
  end.

Fixpoint check_prog (md : mode) (prog : list (act U T)) : bool :=
  match prog with
  | [] => bool_decide (md = None)
  | a :: prog => match check_act md a with Some md' => check_prog md' prog | None => false end
  end.

(** A thread follows the discipline from mode [md] on. *)
Definition check_rest (md : mode) (ps : list (prim U T)) (rest : list (act U T)) : bool :=
  match check_prims md ps with Some md' => check_prog md' rest | None => false end.
Definition typed (md : mode) (t : thread U T) : Prop :=
  match t with
  | Run ps rest => check_rest md ps rest = true
  | Asleep m ps rest => md = None /\ (m < n)%nat /\ check_rest (Some (m, false)) ps rest = true
  | Crashed f => f = AssertFailed
  end.

(** What a mutex shows of the threads' modes. *)
Definition shows (mds : list mode) (m : nat) (x : mutex) : Prop :=
  match owner x with
  | None => holder_ x = 0
  | Some i => exists a : bool, mds !! i = Some (Some (m, a)) /\ holder_ x = if a then gettid i else 0
  end.

Record disciplined (s : state U T S) (mds : list mode) : Prop := {
  d_count : length (mutexes s) = n;
  d_typed : Forall2 typed mds (threads s);
  d_shows m x : mutexes s !! m = Some x -> shows mds m x;
  d_owned i m a : mds !! i = Some (Some (m, a)) -> exists x, mutexes s !! m = Some x /\ owner x = Some i;
}.

Lemma typed_wake m md t : typed md t -> typed md (wake m t).
Proof.
  destruct t as [ps rest|m' ps rest|f]; simpl; try done. case_decide as E; [|done].
  intros (-> & Hm & Hc). simpl. unfold check_rest. simpl. by rewrite decide_True by lia.
Qed.

Lemma init_disciplined d progs :
  forallb (check_prog None) progs = true ->
  disciplined (init d n progs) (replicate (length progs) None).
Proof.
  intros Hp. split; simpl.
  - apply length_replicate.
  - induction progs as [|p progs IH]; simpl in *; [done|]. apply andb_true_iff in Hp as [H1 H2].
    constructor; auto.
  - intros m x [-> _]%lookup_replicate. done.
  - intros i m a [E _]%lookup_replicate. done.
Qed.

(** Thread [i] changes its mode, and the one mutex that shows it. *)
Lemma disciplined_change s mds i md md' m x x' ts :
  disciplined s mds -> mds !! i = Some md -> mutexes s !! m = Some x ->
  (md = None /\ owner x = None \/ exists a, md = Some (m, a)) ->
  (md' = None /\ x' = mk_mutex None 0 \/
   exists a : bool, md' = Some (m, a) /\ x' = mk_mutex (Some i) (if a then gettid i else 0)) ->
  Forall2 typed (<[i := md']> mds) ts ->
  disciplined (mk_state (data s) (<[m := x']> (mutexes s)) ts) (<[i := md']> mds).
Proof.
  intros [Hn Ht Hs Ho] Hi Hm Hmd Hmd' Hts.
  assert (i < length mds)%nat as Hil by eauto using lookup_lt_Some.
  assert (forall j m' a, j <> i -> mds !! j = Some (Some (m', a)) -> m' <> m) as Hother.
  { intros j m' a Hj Hl ->. destruct (Ho j m a Hl) as (y & Hy & Hoy). assert (y = x) as -> by congruence.
    destruct Hmd as [[_ E]|[b ->]]; [congruence|]. destruct (Ho i m b Hi) as (y & Hy' & Hoy'). congruence. }
  split; simpl.
  - by rewrite length_insert.
  - done.
  - intros m' y. rewrite list_lookup_insert_Some. intros [(<- & <- & _)|[Hne Hy]].
    + unfold shows. destruct Hmd' as [[-> ->]|[a [-> ->]]]; simpl; [done|]. exists a.
      by rewrite list_lookup_insert_eq.
    + specialize (Hs m' y Hy). unfold shows in *. destruct (owner y) as [j|]; [|done].
      destruct Hs as (a & Hl & ->). exists a. split; [|done].
      rewrite list_lookup_insert_ne; [done|]. intros <-. rewrite Hi in Hl. simplify_eq.
      destruct Hmd as [[? _]|[b ?]]; congruence.
  - intros j m' a. rewrite list_lookup_insert_Some. intros [(<- & -> & _)|[Hne Hl]].
    + destruct Hmd' as [[? _]|(b & E & ->)]; [done|]. injection E as -> ->. eexists.
      rewrite list_lookup_insert_eq by eauto using lookup_lt_Some. done.
    + rewrite list_lookup_insert_ne by (apply not_eq_sym; eauto). eauto.
Qed.

Lemma disciplined_keep s mds d ts :
  disciplined s mds -> Forall2 typed mds ts -> disciplined (mk_state d (mutexes s) ts) mds.
Proof. intros [] ?. by split. Qed.

Lemma typed_set (s : state U T S) mds i md t :
  Forall2 typed mds (threads s) -> mds !! i = Some md -> typed md t ->
  Forall2 typed mds (<[i := t]> (threads s)).
Proof. intros Ht Hi Hty. rewrite <- (list_insert_id mds i md Hi). by apply Forall2_insert. Qed.

Lemma mutex_at_lookup (s : state U T S) m x : mutexes s !! m = Some x -> mutex_at s m = x.
Proof. unfold mutex_at. by intros ->. Qed.

(** The mode of the thread that runs. *)
Lemma disciplined_thread s mds i t :
  disciplined s mds -> threads s !! i = Some t -> exists md, mds !! i = Some md /\ typed md t.
Proof.
  intros [_ Ht _ _] Hi. destruct (Forall2_lookup_r _ _ _ _ _ Ht Hi) as (md & ? & ?). eauto.
Qed.

Lemma disciplined_holds s mds i m (a : bool) :
  disciplined s mds -> mds !! i = Some (Some (m, a)) ->
  mutexes s !! m = Some (mk_mutex (Some i) (if a then gettid i else 0)).
Proof.
  intros [_ _ Hs Ho] Hi. destruct (Ho i m a Hi) as ([o h] & Hx & Hox). simpl in Hox. subst o.
  destruct (Hs m _ Hx) as (b & Hb & Hh). simpl in *. rewrite Hi in Hb. by simplify_eq.
Qed.

Lemma wake_one_typed (s : state U T S) mds m j : Forall2 typed mds (threads s) -> Forall2 typed mds (threads (wake_one m s j)).
Proof.
  intros Ht. simpl. apply Forall2_same_length_lookup_2; [by rewrite length_alter, (Forall2_length _ _ _ Ht)|].
  intros k md t Hk. rewrite list_lookup_alter. case_decide; intros Hl.
  - apply fmap_Some in Hl as (t' & Hl & ->). apply typed_wake. subst k. exact (Forall2_lookup_lr _ _ _ _ _ _ Ht Hk Hl).
  - exact (Forall2_lookup_lr _ _ _ _ _ _ Ht Hk Hl).
Qed.

Lemma wake_all_typed (s : state U T S) mds m : Forall2 typed mds (threads s) -> Forall2 typed mds (threads (wake_all m s)).
Proof. simpl. induction 1; simpl; constructor; auto using typed_wake. Qed.

(** Thread [i] goes on as [t'] in mode [md'], with mutex [m] set accordingly. *)
Lemma next_change s mds i md md' m x x' t t' :
  disciplined s mds -> threads s !! i = Some t -> mds !! i = Some md -> mutexes s !! m = Some x ->
  (md = None /\ owner x = None \/ exists a, md = Some (m, a)) ->
  (md' = None /\ x' = mk_mutex None 0 \/
   exists a : bool, md' = Some (m, a) /\ x' = mk_mutex (Some i) (if a then gettid i else 0)) ->
  typed md' t' ->
  exists mds', disciplined (set_thread (set_mutex s m x') i t') mds'.
Proof.
  intros Hd Hi Hmd Hm H1 H2 Ht. exists (<[i := md']> mds).
  apply (disciplined_change s mds i md md' m x x'); [done..|].
  apply Forall2_insert; [apply Hd|done].
Qed.

Lemma next_keep s mds i md d t' :
  disciplined s mds -> mds !! i = Some md -> typed md t' ->
  exists mds', disciplined (set_thread (set_data s d) i t') mds'.
Proof.
  intros Hd Hi Ht. exists mds. apply (disciplined_keep s); [done|]. eapply typed_set; [apply Hd|done..].
Qed.

(** The mutex operations of a thread that follows the discipline. *)
Lemma lock_disciplined s mds i md m ps rest s' :
  disciplined s mds -> threads s !! i = Some (Run (mutex_lock m :: ps) rest) -> mds !! i = Some md ->
  check_rest md (mutex_lock m :: ps) rest = true -> s' ∈ prim_moves i (mutex_lock m) ps rest s ->
  exists mds', disciplined s' mds'.
Proof.
  intros Hd Hi Hmd Hc Hin. unfold check_rest in Hc. simpl in Hc. destruct md as [[? []]|]; try done.
  case_decide as Hlt; [|done]. simpl in Hc.
  destruct (lookup_lt_is_Some_2 (mutexes s) m) as [x Hx]; [rewrite (d_count s mds Hd); lia|].
  simpl in Hin. rewrite (mutex_at_lookup s m x Hx) in Hin. destruct (owner x) eqn:Ho; [by apply not_elem_of_nil in Hin|].
  apply list_elem_of_singleton in Hin as ->.
  assert (holder_ x = 0) as ->.
  { pose proof (d_shows s mds Hd m x Hx) as H. unfold shows in H. by rewrite Ho in H. }
  eapply (next_change s mds i None (Some (m, false))); eauto.
Qed.

Definition is_mutex_op (p : prim U T) : bool :=
  match p with
  | mutex_unlock _ | assign_holder _ | unassign_holder _ | cond_wait _ => true
  | _ => false
  end.

Lemma mutex_op_disciplined s mds i md p ps rest s' :
  is_mutex_op p = true ->
  disciplined s mds -> threads s !! i = Some (Run (p :: ps) rest) -> mds !! i = Some md ->
  check_rest md (p :: ps) rest = true -> s' ∈ prim_moves i p ps rest s ->
  exists mds', disciplined s' mds'.
Proof.
  intros Hp Hd Hi Hmd Hc Hin. destruct md as [[m a]|].
  2:{ unfold check_rest in Hc. by destruct p. }
  pose proof (disciplined_holds s mds i m a Hd Hmd) as Hx.
  assert (m < n)%nat as Hlt by (rewrite <- (d_count s mds Hd); eauto using lookup_lt_Some).
  unfold check_rest in Hc. cbn [check_prims] in Hc.
  destruct p as [m0|m0|m0|m0|m0|m0|m0|m0 u|u|m0|t|t]; try done; destruct a; try done;
    simpl in Hc; (destruct (decide (m0 = m)) as [->|]; [|done]); simpl in Hc, Hin;
    rewrite (mutex_at_lookup s m _ Hx) in Hin; cbn [owner holder_] in Hin;
    try rewrite decide_True in Hin by done; apply list_elem_of_singleton in Hin as ->;
    eapply next_change; eauto; simpl; eauto.
Qed.

(** Every other operation leaves the modes as they are. *)
Lemma prim_keeps_mode md p md' :
  is_mutex_op p = false -> (forall m, p <> mutex_lock m) -> check_prim md p = Some md' -> md' = md.
Proof.
  intros Hp Hl Hc. destruct p, md as [[? []]|]; simpl in *; try done; repeat case_decide; simplify_eq; try done;
    by destruct (Hl m).
Qed.

Lemma prim_disciplined s mds i md p ps rest s' :
  disciplined s mds -> threads s !! i = Some (Run (p :: ps) rest) -> mds !! i = Some md ->
  check_rest md (p :: ps) rest = true -> s' ∈ prim_moves i p ps rest s ->
  exists mds', disciplined s' mds'.
Proof.
  intros Hd Hi Hmd Hc Hin. destruct (is_mutex_op p) eqn:Hp; [by eapply mutex_op_disciplined|].
  assert ((exists m, p = mutex_lock m) \/ forall m, p <> mutex_lock m) as [[m ->]|Hl]
    by (destruct p; eauto; right; congruence); [by eapply lock_disciplined|].
  pose proof Hc as Hc'. unfold check_rest in Hc'. cbn [check_prims] in Hc'.
  destruct (check_prim md p) as [md'|] eqn:Ep; [|done].
  assert (md' = md) as -> by (eapply prim_keeps_mode; eauto). change (check_rest md ps rest = true) in Hc'.
  assert (forall s', disciplined s' mds -> exists mds', disciplined (set_thread s' i (Run ps rest)) mds') as Hnext.
  { intros s1 Hd1. apply (next_keep s1 mds i md (data s1)); eauto. }
  assert (forall f, f = AssertFailed -> exists mds', disciplined (set_thread s i (Crashed f)) mds') as Hcrash.
  { intros f Hf. apply (next_keep s mds i md (data s)); eauto. }
  destruct p as [m0|m0|m0|m0|m0|m0|m0|m0 u|u|m0|t|t]; try done; try (by destruct (Hl m0)); cbn [prim_moves] in Hin;
    repeat case_match; rewrite ?list_elem_of_singleton in Hin; try (by apply not_elem_of_nil in Hin); subst; auto.
  - apply (list_elem_of_fmap_1 (fun j => set_thread (wake_one m0 s j) i (Run ps rest))) in Hin as (j & -> & _).
    apply Hnext, (disciplined_keep s); [done|]. apply wake_one_typed, Hd.
  - apply Hnext, (disciplined_keep s); [done|]. apply wake_all_typed, Hd.
  - by eapply next_keep.
  - by eapply next_keep.
Qed.

Lemma enter_typed md a rest (d : S) :
  check_rest md [] (a :: rest) = true -> typed md (enter a d rest).
Proof.
  unfold check_rest. simpl. destruct a as [body|g t body|g t body]; simpl; try done;
    unfold check_rest; destruct (check_prims md body) as [md'|] eqn:E; try done;
    rewrite ?andb_false_r; try done;
    (destruct (guard_ok md g && bool_decide (Some md' = Some md)) eqn:Eb; [|done]);
    pose proof Eb as [_ E'%bool_decide_eq_true_1]%andb_true_iff; injection E' as ->; intros Hr;
    destruct (holds t d); simpl; unfold check_rest; rewrite ?E; simpl; rewrite ?E, ?Eb; done.
Qed.

Lemma moves_disciplined s mds i s' :
  disciplined s mds -> s' ∈ moves i s -> exists mds', disciplined s' mds'.
Proof.
  intros Hd Hin. unfold moves in Hin. destruct (threads s !! i) as [[ps rest|m ps rest|f]|] eqn:Hi;
    try by apply not_elem_of_nil in Hin.
  destruct (disciplined_thread s mds i _ Hd Hi) as (md & Hmd & Ht).
  destruct ps as [|p ps]; [|by eapply prim_disciplined].
  destruct rest as [|a rest]; [by apply not_elem_of_nil in Hin|].
  apply list_elem_of_singleton in Hin as ->.
  apply (next_keep s mds i md (data s)); [done..|]. by apply enter_typed.
Qed.

Lemma spurious_disciplined s mds i s' :
  disciplined s mds -> s' ∈ spurious i s -> exists mds', disciplined s' mds'.
Proof.
  intros Hd Hin. unfold spurious in Hin. destruct (threads s !! i) as [[ps rest|m ps rest|f]|] eqn:Hi;
    try by apply not_elem_of_nil in Hin.
  apply list_elem_of_singleton in Hin as ->. exists mds. apply (disciplined_keep s); [done|].
  apply wake_one_typed, Hd.
Qed.

Lemma run_disciplined k l s0 s mds0 :
  run k l s0 s -> disciplined s0 mds0 -> exists mds, disciplined s mds.
Proof.
  intros Hr. induction Hr as [|k l s1 s2 s3 i _ IH Hin|k l s1 s2 s3 i _ IH Hin]; intros H0; [eauto|..];
    destruct (IH H0) as [mds Hd]; [by eapply moves_disciplined|by eapply spurious_disciplined].
Qed.

(** The mutex whose data the next step of a thread accesses. *)
Definition accesses (t : thread U T) : option nat :=
  match t with
  | Run (guarded m _ :: _) _ => Some m
  | Run [] (If (Some m) _ _ :: _) | Run [] (While (Some m) _ _ :: _) => Some m
  | _ => None
  end.

Lemma accesses_mode md t m : typed md t -> accesses t = Some m ->
  exists a, md = Some (m, a) /\ (strict = true -> a = true).
Proof.
  destruct t as [[|p ps] rest|m' ps rest|f]; simpl; try done.
  - destruct rest as [|[body|[g|] t body|[g|] t body] rest]; try done; unfold check_rest; simpl;
      destruct md as [[m' a]|]; try done; rewrite andb_lazy_alt; case_bool_decide; try done;
      intros _ [= <-]; exists a; naive_solver.
  - destruct p; try done. unfold check_rest. simpl. destruct md as [[m' a]|]; try done.
    case_decide; try done. intros _ [= <-]. exists a. naive_solver.
Qed.

Lemma assert_locked_mode md m ps rest :
  check_rest md (assert_locked m :: ps) rest = true -> md = Some (m, true).
Proof.
  unfold check_rest. simpl. destruct md as [[m' []]|]; try done. case_decide; try done. by simplify_eq.
Qed.

(** What the check buys.  In every state any interleaving reaches (spurious wakeups
    included) a thread about to access guarded data owns the mutex and, under the strict
    check, [holder_] names it; [holder_] never names anybody else than the owner; and once every thread has
    returned every mutex is free with [holder_ = 0]. *)
Lemma discipline_sound (s : state U T S) mds :
  disciplined s mds ->
  (forall i t m, threads s !! i = Some t -> accesses t = Some m ->
     owner (mutex_at s m) = Some i /\ (strict = true -> holder_ (mutex_at s m) = gettid i)) /\
  (forall i m, holder_ (mutex_at s m) = gettid i -> owner (mutex_at s m) = Some i) /\
  (all_finished s = true -> forall m, mutex_at s m = mk_mutex None 0).
Proof.
  intros Hd. split_and!.
  - intros i t m Hi Ha. destruct (disciplined_thread s mds i _ Hd Hi) as (md & Hmd & Ht).
    destruct (accesses_mode md t m Ht Ha) as (a & -> & Hstrict).
    rewrite (mutex_at_lookup s m _ (disciplined_holds s mds i m a Hd Hmd)). split; [done|].
    intros Hs. by rewrite (Hstrict Hs).
  - intros i m. unfold mutex_at. destruct (mutexes s !! m) as [x|] eqn:Hx; unfold gettid; simpl; [|lia].
    pose proof (d_shows s mds Hd m x Hx) as Hs. unfold shows, gettid in Hs.
    destruct (owner x) as [j|]; [|lia]. destruct Hs as ([] & _ & Hh); [|lia]. intros. f_equal. lia.
  - intros Hf m. unfold mutex_at. destruct (mutexes s !! m) as [[o h]|] eqn:Hx; [|done]. simpl.
    pose proof (d_shows s mds Hd m _ Hx) as Hs. unfold shows in Hs. simpl in Hs.
    destruct o as [j|]; [|by subst]. destruct Hs as (a & Hj & _).
    destruct (Forall2_lookup_l _ _ _ _ _ (d_typed s mds Hd) Hj) as (t & Ht & Hty).
    unfold all_finished in Hf. rewrite forallb_forall in Hf.
    specialize (Hf t (proj1 (list_elem_of_In _ _) (list_elem_of_lookup_2 _ _ _ Ht))).
    by destruct t as [[] []| |].
Qed.

(** A thread that has no assertion of its own and has not crashed. *)
Definition plain_prim (p : prim U T) : bool := match p with assert_that _ => false | _ => true end.
Definition plain_act (a : act U T) : bool :=
  match a with Do body | If _ _ body | While _ _ body => forallb plain_prim body end.
Definition plain (t : thread U T) : bool :=
  match t with
  | Run ps rest | Asleep _ ps rest => forallb plain_prim ps && forallb plain_act rest
  | Crashed _ => false
  end.
Definition all_plain (s : state U T S) : Prop := Forall (fun t => plain t = true) (threads s).

Lemma plain_wake m t : plain t = true -> plain (wake m t) = true.
Proof. destruct t; simpl; try done. by case_decide. Qed.

Lemma plain_set (s : state U T S) i t : all_plain s -> plain t = true -> all_plain (set_thread s i t).
Proof. intros Hs Ht. by apply Forall_insert. Qed.

Lemma plain_wake_one (s : state U T S) m j : all_plain s -> all_plain (wake_one m s j).
Proof. intros Hs. apply Forall_alter; [exact Hs|]. intros t _. apply plain_wake. Qed.

Lemma plain_wake_all (s : state U T S) m : all_plain s -> all_plain (wake_all m s).
Proof. intros Hs. apply Forall_map. eapply Forall_impl; [exact Hs|]. intros t. apply plain_wake. Qed.

Lemma prim_plain (s : state U T S) mds i p ps rest s' :
  disciplined s mds -> all_plain s -> threads s !! i = Some (Run (p :: ps) rest) ->
  s' ∈ prim_moves i p ps rest s -> all_plain s'.
Proof.
  intros Hd Hs Hi Hin. pose proof (Forall_lookup_1 _ _ _ _ Hs Hi) as Hp. simpl in Hp.
  rewrite !andb_true_iff in Hp. destruct Hp as [[Hp Hps] Hr].
  assert (forall s1, all_plain s1 -> all_plain (set_thread s1 i (Run ps rest))) as Hnext
    by (intros; apply plain_set; [done|]; simpl; by rewrite Hps, Hr).
  assert (disciplined s mds -> threads s !! i = Some (Run (p :: ps) rest) ->
    forall f, s' = set_thread s i (Crashed f) -> f <> AssertFailed -> False) as Hcrash.
  { intros _ _ f -> Hf. destruct (disciplined_thread s mds i _ Hd Hi) as (md & Hmd & Ht).
    destruct (prim_disciplined s mds i md p ps rest _ Hd Hi Hmd Ht Hin) as [mds' Hd'].
    destruct (disciplined_thread _ mds' i (Crashed f) Hd') as (md' & _ & E); [|done].
    apply list_lookup_insert_eq. by eapply lookup_lt_Some. }
  destruct p as [m|m|m|m|m|m|m|m u|u|m|t|t]; try done; cbn [prim_moves] in Hin; repeat case_match;
    rewrite ?list_elem_of_singleton in Hin; try (by apply not_elem_of_nil in Hin); try (by subst; apply Hnext).
  - by destruct (Hcrash Hd Hi OutOfBounds Hin).
  - subst. apply plain_set; [done|]. simpl. by rewrite Hps, Hr.
  - by destruct (Hcrash Hd Hi OutOfBounds Hin).
  - apply (list_elem_of_fmap_1 (fun j => set_thread (wake_one m s j) i (Run ps rest))) in Hin as (j & -> & _).
    by apply Hnext, plain_wake_one.
  - subst. by apply Hnext, plain_wake_all.
  - exfalso. destruct (disciplined_thread s mds i _ Hd Hi) as (md & Hmd & Ht).
    rewrite (assert_locked_mode md m ps rest Ht) in Hmd.
    rewrite (mutex_at_lookup s m _ (disciplined_holds s mds i m true Hd Hmd)) in *. simpl in *. lia.
Qed.

Lemma moves_plain (s : state U T S) mds i s' : disciplined s mds -> all_plain s -> s' ∈ moves i s -> all_plain s'.
Proof.
  intros Hd Hs Hin. unfold moves in Hin. destruct (threads s !! i) as [[ps rest|m ps rest|f]|] eqn:Hi;
    try by apply not_elem_of_nil in Hin.
  destruct ps as [|p ps]; [|by eapply prim_plain].
  destruct rest as [|a rest]; [by apply not_elem_of_nil in Hin|].
  apply list_elem_of_singleton in Hin as ->. apply plain_set; [done|].
  pose proof (Forall_lookup_1 _ _ _ _ Hs Hi) as Hp. simpl in Hp. rewrite andb_true_iff in Hp. destruct Hp as [Ha Hr].
  destruct a as [body|g t body|g t body]; simpl in *; [by rewrite Ha, Hr|..]; destruct (holds t (data s)); simpl;
    by rewrite ?Ha, ?Hr.
Qed.

(** Threads without assertions of their own never crash. *)
Lemma run_plain k l s0 s mds0 :
  run k l s0 s -> disciplined s0 mds0 -> all_plain s0 -> all_plain s /\ exists mds, disciplined s mds.
Proof.
  intros Hr. induction Hr as [|k l s1 s2 s3 i _ IH Hin|k l s1 s2 s3 i _ IH Hin]; intros H0 P0; [by eauto|..];
    destruct (IH H0 P0) as [Hp [mds Hd]].
  - split; [by eapply moves_plain|by eapply moves_disciplined].
  - split; [|by eapply spurious_disciplined]. unfold spurious in Hin.
    destruct (threads s2 !! i) as [[ps rest|m ps rest|f]|]; try by apply not_elem_of_nil in Hin.
    apply list_elem_of_singleton in Hin as ->. by apply plain_wake_one.
Qed.

End discipline.

(** ** Runs are finite

    A loop may only go round through [pthread_cond_wait], and a waiting thread goes
    on only when it is woken.  Each step of a thread therefore uses up potential: one
    for an ordinary step, and what the waking of others gives them for a signal or a
    broadcast.  [N] is the number of threads. *)
Section termination.
Context {U T S : Type} `{!Interp U T S}.
Context (N : Z).

Definition cost_prim (p : prim U T) : Z :=
  match p with
  | cond_wait _ => -3
  | cond_signal _ => 6
  | cond_broadcast _ => 5 * N + 1
  | _ => 1
  end.
Definition cost_prims : list (prim U T) -> Z := zsum cost_prim.
Definition cost_act (a : act U T) : Z :=
  match a with
  | Do body | If _ _ body => 1 + cost_prims body
  | While _ _ _ => 1
  end.
Definition cost_prog : list (act U T) -> Z := zsum cost_act.
Definition cost_thread (t : thread U T) : Z :=
  match t with
  | Run ps rest => cost_prims ps + cost_prog rest
  | Asleep _ ps rest => cost_prims ps + cost_prog rest - 4
  | Crashed _ => -4
  end.
Definition cost (s : state U T S) : Z := zsum cost_thread (threads s).

(** Loops wait, and nothing else does. *)
Definition is_wait (p : prim U T) : bool := match p with cond_wait _ => true | _ => false end.
Definition waits (ps : list (prim U T)) : Z := zsum (fun p => if is_wait p then 1 else 0) ps.
Definition act_waits (a : act U T) : bool :=
  match a with
  | Do body | If _ _ body => waits body =? 0
  | While _ _ body => (waits body =? 1) && (cost_prims body <? 0)
  end.
Definition well_waiting (t : thread U T) : Prop :=
  match t with
  | Run ps rest => waits ps <= 1 /\ forallb act_waits rest = true
  | Asleep _ ps rest => waits ps = 0 /\ forallb act_waits rest = true
  | Crashed _ => True
  end.

Lemma waits_nonneg ps : 0 <= waits ps.
Proof. induction ps as [|p ps IH]; simpl; [done|]. unfold waits in *. destruct (is_wait p); simpl; lia. Qed.

Lemma cost_prims_lower ps : 0 <= N -> - 3 * waits ps <= cost_prims ps.
Proof.
  intros HN. induction ps as [|p ps IH]; [done|]. unfold waits, cost_prims in *.
  destruct p; simpl in *; lia.
Qed.

Lemma cost_prog_nonneg rest : 0 <= N -> forallb act_waits rest = true -> 0 <= cost_prog rest.
Proof.
  intros HN. induction rest as [|a rest IH]; simpl; [done|]. intros [Ha Hr]%andb_true_iff.
  specialize (IH Hr). unfold cost_prog in *. simpl.
  assert (0 <= cost_act a); [|lia].
  destruct a as [body|g t body|g t body]; simpl in *; [..|lia]; apply Z.eqb_eq in Ha;
    pose proof (cost_prims_lower body HN); lia.
Qed.

Lemma cost_thread_lower t : 0 <= N -> well_waiting t -> -4 <= cost_thread t.
Proof.
  intros HN. destruct t as [ps rest|m ps rest|f]; simpl; [..|lia]; intros [Hw Hr];
    pose proof (cost_prog_nonneg rest HN Hr); pose proof (cost_prims_lower ps HN); lia.
Qed.

Lemma cost_wake m t : cost_thread (wake m t) <= cost_thread t + 5.
Proof.
  destruct t as [ps rest|m' ps rest|f]; simpl; [lia| |lia]. case_decide; [|simpl; lia].
  unfold cost_thread, cost_prims. simpl. lia.
Qed.

Lemma well_waiting_wake m t : well_waiting t -> well_waiting (wake m t).
Proof.
  destruct t as [ps rest|m' ps rest|f]; simpl; try done. case_decide; [|done]. simpl. unfold waits in *.
  simpl. intros [-> Hr]. split; [lia|done].
Qed.

Lemma wake_one_cost m (s : state U T S) j : cost (wake_one m s j) <= cost s + 5.
Proof.
  unfold cost. simpl. generalize (threads s) as l. intros l. revert j.
  induction l as [|t l IH]; intros [|j]; simpl; [lia..| |].
  - pose proof (cost_wake m t). lia.
  - specialize (IH j). unfold alter in IH. lia.
Qed.

Definition fits (s : state U T S) : Prop := zlen (threads s) = N /\ Forall well_waiting (threads s).

Lemma init_fits d n progs :
  zlen progs = N -> forallb (forallb act_waits) progs = true -> fits (init d n progs).
Proof.
  intros HN H. split; simpl; [by unfold zlen in *; rewrite length_map|].
  rewrite forallb_forall in H. apply Forall_fmap, Forall_forall.
  intros p Hp%list_elem_of_In. split; [done|]. by apply H.
Qed.

Lemma set_thread_cost (s : state U T S) i x y :
  threads s !! i = Some x -> cost (set_thread s i y) = cost s - cost_thread x + cost_thread y.
Proof. apply zsum_insert. Qed.

Lemma set_thread_fits (s : state U T S) i y : fits s -> well_waiting y -> fits (set_thread s i y).
Proof.
  intros [Hl Hw] Hy. split; simpl; [by unfold zlen in *; rewrite length_insert|]. by apply Forall_insert.
Qed.

Lemma wake_one_fits m (s : state U T S) j : fits s -> fits (wake_one m s j).
Proof.
  intros [Hl Hw]. split; simpl; [by unfold zlen in *; rewrite length_alter|].
  apply Forall_alter; [done|]. intros x _. apply well_waiting_wake.
Qed.

Lemma wake_all_fits m (s : state U T S) : fits s -> fits (wake_all m s).
Proof.
  intros [Hl Hw]. split; simpl; [by unfold zlen in *; rewrite length_map|].
  apply Forall_fmap. eapply Forall_impl; [exact Hw|]. intros x. apply well_waiting_wake.
Qed.

Lemma wake_all_cost m (s : state U T S) : fits s -> cost (wake_all m s) <= cost s + 5 * N.
Proof. intros [<- _]. unfold cost. simpl. apply zsum_le, cost_wake. Qed.

Lemma wake_one_run m (s : state U T S) j i ps rest :
  threads s !! i = Some (Run ps rest) -> threads (wake_one m s j) !! i = Some (Run ps rest).
Proof. intros Hi. simpl. rewrite list_lookup_alter. case_decide as E; [|done]. subst j. by rewrite Hi. Qed.

Lemma wake_all_run m (s : state U T S) i ps rest :
  threads s !! i = Some (Run ps rest) -> threads (wake_all m s) !! i = Some (Run ps rest).
Proof. intros Hi. simpl. change (@map) with (@fmap list _). by rewrite list_lookup_fmap, Hi. Qed.

Lemma fits_nonneg (s : state U T S) : fits s -> 0 <= N.
Proof. intros [<- _]. apply zlen_nonneg. Qed.

Lemma fits_thread (s : state U T S) i t : fits s -> threads s !! i = Some t -> well_waiting t.
Proof. intros [_ Hw] Hi. exact (Forall_lookup_1 _ _ _ _ Hw Hi). Qed.

(** Thread [i] goes past [p] in [s1], which has got at most [c] potential. *)
Lemma past_cost (s s1 : state U T S) i p ps rest c :
  fits s1 -> threads s1 !! i = Some (Run (p :: ps) rest) -> cost s1 <= cost s + c -> cost_prim p = c + 1 ->
  fits (set_thread s1 i (Run ps rest)) /\ cost (set_thread s1 i (Run ps rest)) < cost s.
Proof.
  intros Hf Hi Hc Hp. destruct (fits_thread s1 i _ Hf Hi) as [Hw Hr]. split.
  - apply set_thread_fits; [done|]. split; [|done]. unfold waits in *. simpl in Hw.
    destruct (is_wait p); lia.
  - rewrite (set_thread_cost s1 i _ _ Hi). unfold cost_thread, cost_prims. simpl. lia.
Qed.

Lemma prim_cost (s : state U T S) i p ps rest s' :
  fits s -> threads s !! i = Some (Run (p :: ps) rest) -> s' ∈ prim_moves i p ps rest s ->
  fits s' /\ cost s' < cost s.
Proof.
  intros Hf Hi Hin.
  pose proof (fits_nonneg s Hf) as HN. destruct (fits_thread s i _ Hf Hi) as [Hw Hr].
  assert (forall f, fits (set_thread s i (Crashed f)) /\ cost (set_thread s i (Crashed f)) < cost s) as Hcrash.
  { intros f. split; [by apply set_thread_fits|]. rewrite (set_thread_cost s i _ _ Hi).
    pose proof (cost_prog_nonneg rest HN Hr). pose proof (cost_prims_lower (p :: ps) HN).
    cbn [cost_thread]. lia. }
  assert (forall s1, fits s1 -> threads s1 = threads s -> cost_prim p = 1 ->
    fits (set_thread s1 i (Run ps rest)) /\ cost (set_thread s1 i (Run ps rest)) < cost s) as Hnext.
  { intros s1 H1 Ht Hp. apply (past_cost s s1 i p ps rest 0); [done| |unfold cost; rewrite Ht; lia|lia]. by rewrite Ht. }
  destruct p as [m|m|m|m|m|m|m|m u|u|m|t|t]; cbn [prim_moves] in Hin; repeat case_match;
    rewrite ?list_elem_of_singleton in Hin; try (by apply not_elem_of_nil in Hin); subst; auto.
  - unfold waits in Hw. simpl in Hw. split.
    + apply set_thread_fits; [done|]. split; [|done]. pose proof (waits_nonneg ps). unfold waits in *. lia.
    + erewrite set_thread_cost by exact Hi. unfold cost, cost_thread, cost_prims. simpl. lia.
  - eapply (past_cost s s i _ _ _ 5); eauto; simpl; lia.
  - apply (list_elem_of_fmap_1 (fun j => set_thread (wake_one m s j) i (Run ps rest))) in Hin as (j & -> & _).
    eapply (past_cost s _ i _ _ _ 5); [by apply wake_one_fits|by apply wake_one_run|apply wake_one_cost|done].
  - eapply (past_cost s _ i _ _ _ (5 * N)); [by apply wake_all_fits|by apply wake_all_run|by apply wake_all_cost|done].
Qed.

Lemma enter_cost a rest (d : S) :
  0 <= N -> act_waits a = true -> forallb act_waits rest = true ->
  well_waiting (enter a d rest) /\ cost_thread (enter a d rest) < cost_prog (a :: rest).
Proof.
  intros HN Ha Hr. change (cost_prog (a :: rest)) with (cost_act a + cost_prog rest).
  destruct a as [body|g t body|g t body]; simpl in Ha.
  - apply Z.eqb_eq in Ha. cbn [enter well_waiting cost_thread cost_act]. split; [split; [lia|done]|lia].
  - apply Z.eqb_eq in Ha. pose proof (cost_prims_lower body HN). cbn [enter cost_act].
    destruct (holds t d); cbn [well_waiting cost_thread]; [split; [split; [lia|done]|lia]|].
    change (cost_prims []) with 0. split; [done|lia].
  - pose proof Ha as [Hw%Z.eqb_eq Hb%Z.ltb_lt]%andb_true_iff. cbn [enter cost_act].
    destruct (holds t d); cbn [well_waiting cost_thread].
    + change (cost_prog (While g t body :: rest)) with (1 + cost_prog rest). cbn [forallb act_waits].
      rewrite Ha, Hr. split; [split; [lia|done]|lia].
    + change (cost_prims []) with 0. split; [done|lia].
Qed.

Lemma moves_cost (s : state U T S) i s' : fits s -> s' ∈ moves i s -> fits s' /\ cost s' < cost s.
Proof.
  intros Hf Hin. unfold moves in Hin. destruct (threads s !! i) as [[ps rest|m ps rest|f]|] eqn:Hi;
    try by apply not_elem_of_nil in Hin.
  destruct ps as [|p ps]; [|by eapply prim_cost].
  destruct rest as [|a rest]; [by apply not_elem_of_nil in Hin|].
  apply list_elem_of_singleton in Hin as ->. destruct (fits_thread s i _ Hf Hi) as [_ [Ha Hr]%andb_true_iff].
  pose proof (fits_nonneg s Hf) as HN. rewrite (set_thread_cost s i _ _ Hi).
  destruct (enter_cost a rest (data s) HN Ha Hr) as [Hw Hc].
  split; [by apply set_thread_fits|].
  change (cost_thread (Run [] (a :: rest))) with (0 + cost_prog (a :: rest)). lia.
Qed.

Lemma spurious_cost (s : state U T S) i s' : fits s -> s' ∈ spurious i s -> fits s' /\ cost s' <= cost s + 5.
Proof.
  intros Hf Hin. unfold spurious in Hin. destruct (threads s !! i) as [[ps rest|m ps rest|f]|] eqn:Hi;
    try by apply not_elem_of_nil in Hin.
  apply list_elem_of_singleton in Hin as ->. split; [by apply wake_one_fits|apply wake_one_cost].
Qed.

(** A run has at most as many steps as the potential allows. *)
Lemma run_cost k l (s0 s : state U T S) :
  run k l s0 s -> fits s0 -> fits s /\ Z.of_nat k + cost s <= cost s0 + 5 * Z.of_nat l.
Proof.
  intros Hr. induction Hr as [|k l s1 s2 s3 i _ IH Hin|k l s1 s2 s3 i _ IH Hin]; intros H0.
  - split; [done|lia].
  - destruct (IH H0) as [Hf Hc]. destruct (moves_cost s2 i s3 Hf Hin). split; [done|lia].
  - destruct (IH H0) as [Hf Hc]. destruct (spurious_cost s2 i s3 Hf Hin). split; [done|lia].
Qed.

Lemma run_bound k l (s0 s : state U T S) :
  run k l s0 s -> fits s0 -> Z.of_nat k <= cost s0 + 4 * N + 5 * Z.of_nat l.
Proof.
  intros Hr H0. destruct (run_cost k l s0 s Hr H0) as [Hf Hc]. pose proof (fits_nonneg s Hf) as HN.
  destruct Hf as [Hl Hw]. assert (-4 * zlen (threads s) <= cost s); [|lia].
  apply zsum_lower. eapply Forall_impl; [exact Hw|]. intros t. by apply cost_thread_lower.
Qed.

End termination.

(** ** Progress

    When no thread can go on, every thread has returned or sleeps in a condition
    variable, and no mutex is held; provided no assertion has failed and no thread is
    at a blocking call other than the locking of a mutex. *)
Section progress.
Context {U T S : Type} `{!Interp U T S}.
Context (n : nat) (strict : bool).

Definition crashed (t : thread U T) : bool := match t with Crashed _ => true | _ => false end.
Definition blocking (t : thread U T) : bool :=
  match t with Run (block_until _ :: _) _ => true | _ => false end.

Lemma holder_moves (s : state U T S) (mds : list mode) i m a t :
  disciplined n strict s mds -> mds !! i = Some (Some (m, a)) -> threads s !! i = Some t -> crashed t = false ->
  moves i s <> [].
Proof.
  intros Hd Hmd Hi Hc. destruct (disciplined_thread n strict s mds i t Hd Hi) as (md & Hmd' & Ht).
  rewrite Hmd in Hmd'. injection Hmd' as <-. unfold moves. rewrite Hi.
  destruct t as [[|p ps] rest|m' ps rest|f]; [|clear Hi|by destruct Ht|done].
  - by destruct rest.
  - unfold typed, check_rest in Ht. destruct p; simpl in *; repeat case_match; done.
Qed.

Lemma free_moves (s : state U T S) (mds : list mode) i ps rest :
  disciplined n strict s mds -> mds !! i = Some None -> threads s !! i = Some (Run ps rest) ->
  (forall m, owner (mutex_at s m) = None) -> blocking (Run ps rest) = false -> finished (Run ps rest) = false ->
  moves i s <> [].
Proof.
  intros Hd Hmd Hi Ho Hb Hf. destruct (disciplined_thread n strict s mds i _ Hd Hi) as (md & Hmd' & Ht).
  rewrite Hmd in Hmd'. injection Hmd' as <-. unfold moves. rewrite Hi.
  destruct ps as [|p ps]; [by destruct rest|]. clear Hi. unfold typed, check_rest in Ht.
  destruct p; simpl in *; rewrite ?Ho; repeat case_match; done.
Qed.

Lemma progress (s : state U T S) (mds : list mode) :
  disciplined n strict s mds -> (forall i t, threads s !! i = Some t -> crashed t = false /\ blocking t = false) ->
  stuck s ->
  (forall i t, threads s !! i = Some t -> finished t = true \/ exists m ps rest, t = Asleep m ps rest).
Proof.
  intros Hd Hok Hstuck.
  assert (forall i m a, mds !! i <> Some (Some (m, a))) as Hnone.
  { intros i m a Hmd. destruct (Forall2_lookup_l _ _ _ _ _ (d_typed n strict s mds Hd) Hmd) as (t & Hi & _).
    apply (holder_moves s mds i m a t Hd Hmd Hi); [by apply (Hok i)|apply Hstuck]. }
  assert (forall m, owner (mutex_at s m) = None) as Hfree.
  { intros m. unfold mutex_at. destruct (mutexes s !! m) as [x|] eqn:Hx; [|done]. simpl.
    pose proof (d_shows n strict s mds Hd m x Hx) as Hs. unfold shows in Hs. destruct (owner x) as [j|]; [|done].
    destruct Hs as (a & Hj & _). by destruct (Hnone j m a). }
  intros i t Hi. destruct t as [ps rest|m ps rest|f]; [|eauto|by destruct (Hok i _ Hi)].
  destruct (finished (Run ps rest)) eqn:Hf; [by left|].
  destruct (disciplined_thread n strict s mds i _ Hd Hi) as ([[m a]|] & Hmd & _); [by destruct (Hnone i m a)|].
  destruct (free_moves s mds i ps rest Hd Hmd Hi Hfree); [by apply (Hok i)|done|apply Hstuck].
Qed.

End progress.

(** ** Exhaustive exploration

    For a small system [explore] computes the states reachable from one state; a list
    of states that contains it and is closed under steps holds all of them. *)
Section schedule.
Context {U T S : Type} `{!Interp U T S}.

(** A run given by the threads that take its steps (each takes its first choice). *)
Fixpoint schedule (ids : list nat) (s : state U T S) : option (state U T S) :=
  match ids with
  | [] => Some s
  | i :: ids => match moves i s with s' :: _ => schedule ids s' | [] => None end
  end.

Lemma run_step_l k l (s1 s2 s3 : state U T S) i :
  s2 ∈ moves i s1 -> run k l s2 s3 -> run (Datatypes.S k) l s1 s3.
Proof.
  intros Hin Hr. induction Hr as [|k l s2 s3 s4 j _ IH Hj|k l s2 s3 s4 j _ IH Hj].
  - eapply run_move; [constructor|done].
  - eapply run_move; [by apply IH|done].
  - eapply run_spurious; [by apply IH|done].
Qed.

Lemma schedule_run ids (s s' : state U T S) : schedule ids s = Some s' -> run (length ids) 0 s s'.
Proof.
  revert s. induction ids as [|i ids IH]; simpl; intros s H; [injection H as ->; constructor|].
  destruct (moves i s) as [|s1 l] eqn:E; [done|]. eapply run_step_l; [|by apply IH]. rewrite E. by left.
Qed.

Definition stuckb (s : state U T S) : bool :=
  forallb (fun i => match moves i s with [] => true | _ => false end) (seq 0 (length (threads s))).

Lemma stuckb_spec s : stuck s <-> stuckb s = true.
Proof.
  unfold stuckb. rewrite forallb_forall. split.
  - intros H i _. by rewrite (H i).
  - intros H i. destruct (decide (i < length (threads s))%nat) as [Hi|Hi].
    + specialize (H i). destruct (moves i s); [done|]. discriminate H. apply List.in_seq. lia.
    + unfold moves. by rewrite lookup_ge_None_2 by lia.
Qed.

End schedule.

Section explore.
Context {U T S : Type} `{!Interp U T S, EqDecision U, EqDecision T, EqDecision S}.

Definition succs (s : state U T S) : list (state U T S) :=
  flat_map (fun i => moves i s ++ spurious i s) (seq 0 (length (threads s))).

Definition member (s : state U T S) (l : list (state U T S)) : bool := existsb (fun x => bool_decide (x = s)) l.

Fixpoint explore (fuel : nat) (todo seen : list (state U T S)) : list (state U T S) :=
  match fuel, todo with
  | Datatypes.S fuel, s :: todo =>
      if member s seen then explore fuel todo seen else explore fuel (succs s ++ todo) (s :: seen)
  | _, _ => seen
  end.

Definition closed (l : list (state U T S)) : bool := forallb (fun s => forallb (fun s' => member s' l) (succs s)) l.

Lemma member_spec s l : member s l = true <-> List.In s l.
Proof.
  unfold member. rewrite existsb_exists. split.
  - intros (x & Hx & ->%bool_decide_eq_true_1). done.
  - intros Hin. exists s. by rewrite bool_decide_eq_true_2.
Qed.

Lemma succs_spec (s s' : state U T S) i : s' ∈ moves i s \/ s' ∈ spurious i s -> List.In s' (succs s).
Proof.
  intros Hin. unfold succs. apply in_flat_map. exists i. rewrite List.in_app_iff, <- !list_elem_of_In.
  split; [|done]. apply elem_of_seq. split; [lia|]. apply lookup_lt_is_Some.
  unfold moves, spurious in Hin. destruct (threads s !! i); [done|].
  by destruct Hin as [?%not_elem_of_nil|?%not_elem_of_nil].
Qed.

Lemma closed_run l (s0 s : state U T S) k j :
  closed l = true -> member s0 l = true -> run k j s0 s -> List.In s l.
Proof.
  intros Hc H0%member_spec Hr. unfold closed in Hc. rewrite forallb_forall in Hc.
  assert (forall s2 s3, List.In s2 l -> List.In s3 (succs s2) -> List.In s3 l) as Hstep.
  { intros s2 s3 H2 H3. specialize (Hc s2 H2). rewrite forallb_forall in Hc. by apply member_spec, Hc. }
  induction Hr as [|k j s1 s2 s3 i _ IH Hin|k j s1 s2 s3 i _ IH Hin]; [done|..];
    (eapply Hstep; [by apply IH|]; apply (succs_spec _ _ i); auto).
Qed.

(** A property of every reachable state, by computation. *)
Definition everywhere (P : state U T S -> bool) (fuel : nat) (s0 : state U T S) : bool :=
  let l := explore fuel [s0] [] in closed l && member s0 l && forallb P l.

Lemma explored P fuel s0 : everywhere P fuel s0 = true -> forall k j s, run k j s0 s -> P s = true.
Proof.
  unfold everywhere. cbn zeta. intros [[Hc H0]%andb_true_iff HP]%andb_true_iff k j s Hr.
  rewrite forallb_forall in HP. by eapply HP, closed_run.
Qed.

End explore.

End Monitor.

(** ** Mutex.h *)
Module MutexLock.
Import Monitor.
Section code.
Context {U T : Type}.

Definition assignHolder (m : nat) : list (prim U T) := [assign_holder m].
Definition unassignHolder (m : nat) : list (prim U T) := [unassign_holder m].

Definition lock (m : nat) : list (prim U T) := mutex_lock m :: assignHolder m.
Definition unlock (m : nat) : list (prim U T) := unassignHolder m ++ [mutex_unlock m].
Definition assertLocked (m : nat) : list (prim U T) := [assert_locked m].

(** [MutexLockGuard]: the constructor and the destructor around a block. *)
Definition MutexLockGuard (m : nat) (body : list (act U T)) : list (act U T) :=
  Do (lock m) :: body ++ [Do (unlock m)].

(** [UnassignGuard] around a call. *)
Definition UnassignGuard (m : nat) (body : list (prim U T)) : list (prim U T) :=
  unassignHolder m ++ body ++ assignHolder m.

End code.

Definition isLockedByThisThread (x : mutex) (self : nat) : bool := holder_ x =? gettid self.

(** The constructor and the destructor; [pthread_mutex_destroy] answers EBUSY for a
    mutex that is locked, which [MCHECK] asserts it is not. *)
Definition new : mutex := mk_mutex None 0.
Definition destroy (x : mutex) : outcome unit :=
  _ ← assert_ (holder_ x =? 0) ; assert_ (bool_decide (owner x = None)).

End MutexLock.

(** ** condition.h *)
Module Condition.
Import Monitor.
Section code.
Context {U T : Type}.

Definition wait (m : nat) : list (prim U T) := MutexLock.UnassignGuard m [cond_wait m].
Definition notify (m : nat) : list (prim U T) := [cond_signal m].
Definition notifyAll (m : nat) : list (prim U T) := [cond_broadcast m].
(** A timeout ends the wait the way a wake-up without a notification does. *)
Definition waitForSeconds (m : nat) : list (prim U T) := MutexLock.UnassignGuard m [cond_wait m].

End code.

(** The deadline of [waitForSeconds], from the clock and the nanoseconds the double
    is converted to; [/] and [%] of C++ truncate. *)
Definition kNanoSecondsPerSecond : Z := 1000000000.
Definition deadline (abstime : Z * Z) (nanoseconds : Z) : Z * Z :=
  let n := abstime.2 + nanoseconds in
  (abstime.1 + Z.quot n kNanoSecondsPerSecond, Z.rem n kNanoSecondsPerSecond).

Lemma deadline_exact sec nsec n :
  0 <= nsec < kNanoSecondsPerSecond -> 0 <= n ->
  let d := deadline (sec, nsec) n in
  0 <= d.2 < kNanoSecondsPerSecond /\
  d.1 * kNanoSecondsPerSecond + d.2 = sec * kNanoSecondsPerSecond + nsec + n.
Proof.
  unfold deadline, kNanoSecondsPerSecond. cbn [fst snd]. intros Hs Hn.
  pose proof (Z.quot_rem' (nsec + n) 1000000000). pose proof (Z.rem_bound_pos (nsec + n) 1000000000). lia.
Qed.
End Condition.

(** ** Clients of Mutex.h and condition.h

    What the sources do with the two classes: blocks under a [MutexLockGuard] that
    access the data the mutex guards, test it, wait on the condition in a loop or not,
    notify, and call [assertLocked]; and between them accesses to other data and calls
    that block. *)
Module LockClients.
Import Monitor.
Section clients.
Context {U T : Type}.

Inductive op := Access (u : U) | AssertLocked | Wait | WaitForSeconds | Notify | NotifyAll.
Inductive block := Ops (ops : list op) | IfOps (t : T) (ops : list op) | WhileOps (t : T) (ops : list op).
Inductive stmt :=
  | Locked (m : nat) (body : list block)      (* { MutexLockGuard lock(mutex_); body } *)
  | Outside (u : U)                           (* an access to data no mutex guards *)
  | Await (t : T).                            (* a call that returns on [t] *)

Definition op_code (m : nat) (o : op) : list (prim U T) :=
  match o with
  | Access u => [guarded m u]
  | AssertLocked => MutexLock.assertLocked m
  | Wait => Condition.wait m
  | WaitForSeconds => Condition.waitForSeconds m
  | Notify => Condition.notify m
  | NotifyAll => Condition.notifyAll m
  end.
Definition ops_code (m : nat) (ops : list op) : list (prim U T) := concat (map (op_code m) ops).
Definition block_code (m : nat) (b : block) : act U T :=
  match b with
  | Ops ops => Do (ops_code m ops)
  | IfOps t ops => If (Some m) t (ops_code m ops)
  | WhileOps t ops => While (Some m) t (ops_code m ops)
  end.
Definition stmt_code (x : stmt) : list (act U T) :=
  match x with
  | Locked m body => MutexLock.MutexLockGuard m (map (block_code m) body)
  | Outside u => [Do [unguarded u]]
  | Await t => [Do [block_until t]]
  end.
Definition code (client : list stmt) : list (act U T) := concat (map stmt_code client).

(** The mutexes a client uses are among the [n] there are. *)
Definition uses (n : nat) (x : stmt) : bool := match x with Locked m _ => bool_decide (m < n)%nat | _ => true end.

Lemma ops_check n m ops : check_prims n true (Some (m, true)) (ops_code m ops) = Some (Some (m, true)).
Proof.
  unfold ops_code. induction ops as [|o ops IH]; [done|]. simpl. rewrite check_prims_app.
  assert (check_prims n true (Some (m, true)) (op_code m o) = Some (Some (m, true))) as ->; [|done].
  destruct o; simpl; repeat (rewrite decide_True by done; simpl); done.
Qed.

Lemma blocks_check n m body rest :
  check_prog n true (Some (m, true)) (map (block_code m) body ++ rest) = check_prog n true (Some (m, true)) rest.
Proof.
  induction body as [|[ops|t ops|t ops] body IH]; [done|..]; simpl; rewrite ops_check; [done|..];
    rewrite !bool_decide_eq_true_2 by done; done.
Qed.

Lemma code_check n client : forallb (uses n) client = true -> check_prog n true None (code client) = true.
Proof.
  induction client as [|[m body|u|t] client IH]; [done|..]; intros [Hu Hc]%andb_true_iff; try by apply IH.
  simpl in Hu. apply bool_decide_eq_true_1 in Hu. unfold code. simpl. rewrite decide_True by done. simpl.
  rewrite decide_True by done. simpl. rewrite <- app_assoc, blocks_check. simpl.
  rewrite !decide_True by done. simpl. rewrite decide_True by done. simpl. by apply IH.
Qed.

Lemma code_plain client : forallb plain_act (code client) = true.
Proof.
  assert (forall m ops, forallb plain_prim (ops_code m ops) = true) as Hops.
  { intros m ops. unfold ops_code. induction ops as [|o ops IH]; [done|]. simpl. rewrite forallb_app, IH, andb_true_r.
    by destruct o. }
  unfold code. induction client as [|x client IH]; [done|]. simpl. rewrite forallb_app, IH, andb_true_r.
  destruct x as [m body|u|t]; [|done..]. simpl. rewrite forallb_app, andb_true_r. clear IH.
  induction body as [|[ops|t ops|t ops] body IH]; [done|..]; simpl; by rewrite Hops.
Qed.
End clients.
Arguments op : clear implicits.
Arguments block : clear implicits.
Arguments stmt : clear implicits.

(** C29. [MutexLock], [MutexLockGuard] and [Condition] keep their promises to any
    clients: let threads run any programs made of blocks under a [MutexLockGuard], with
    waits and notifications on its condition, and other accesses.  In every state that
    any interleaving reaches, spurious wakeups included: no [assert] of Mutex.h or
    condition.h has failed and no pthread call has been made that would answer an error
    (unlocking or waiting without the mutex); a thread about to access guarded data has
    locked the mutex and [isLockedByThisThread] is true for it, so that no other thread
    is about to access the same data; [isLockedByThisThread] is true for nobody but the
    thread that has locked the mutex; and once all threads have returned, [~MutexLock]
    succeeds for every mutex. *)
Theorem lock_discipline {U T S} `{!Interp U T S} n (d : S) (clients : list (list (stmt U T))) k l (s : state U T S) :
  forallb (forallb (uses n)) clients = true -> run k l (init d n (map code clients)) s ->
  (forall i f, threads s !! i <> Some (Crashed f)) /\
  (forall i t m, threads s !! i = Some t -> accesses t = Some m ->
     owner (mutex_at s m) = Some i /\ MutexLock.isLockedByThisThread (mutex_at s m) i = true /\
     forall j t', threads s !! j = Some t' -> accesses t' = Some m -> j = i) /\
  (forall i m, MutexLock.isLockedByThisThread (mutex_at s m) i = true -> owner (mutex_at s m) = Some i) /\
  (all_finished s = true -> forall m, MutexLock.destroy (mutex_at s m) = Ok ()).
Proof.
  intros Hu Hr.
  assert (forallb (check_prog n true None) (map code clients) = true) as Hc.
  { rewrite forallb_forall in *. intros x (c & <- & Hin)%in_map_iff. by apply code_check, Hu. }
  assert (all_plain (init d n (map code clients))) as Hp.
  { unfold all_plain. simpl. rewrite map_map. apply Forall_map, Forall_forall. intros c _. apply code_plain. }
  destruct (run_plain n true k l _ s _ Hr (init_disciplined n true d _ Hc) Hp) as [Hs [mds Hd]].
  destruct (discipline_sound n true s mds Hd) as (Hacc & Hhold & Hend). unfold MutexLock.isLockedByThisThread.
  split_and!.
  - intros i f Hi. by pose proof (Forall_lookup_1 _ _ _ _ Hs Hi).
  - intros i t m Hi Ha. destruct (Hacc i t m Hi Ha) as [Ho Hh]. rewrite Z.eqb_eq. split_and!; [done|by apply Hh|].
    intros j t' Hj Ha'. destruct (Hacc j t' m Hj Ha') as [Ho' _]. congruence.
  - intros i m E%Z.eqb_eq. by apply Hhold.
  - intros Hf m. by rewrite (Hend Hf m).
Qed.

(** One thread waits for the count to be positive, the other adds one and notifies. *)
#[local] Instance demo_interp : Interp unit unit Z := {| apply _ _ z := z + 1; holds _ z := z <? 1 |}.
Definition demo_clients : list (list (stmt unit unit)) :=
  [[Locked 0 [WhileOps () [Wait]; Ops [AssertLocked; Access ()]]]; [Locked 0 [Ops [Access (); Notify]]]].
Definition demo_ids : list nat := repeat 0%nat 6 ++ repeat 1%nat 9 ++ repeat 0%nat 2.
Definition demo_state : state unit unit Z :=
  default (init 0 1 []) (schedule demo_ids (init 0 1 (map code demo_clients))).

Lemma lock_discipline_witness :
  owner (mutex_at demo_state 0) = Some 0%nat /\ MutexLock.isLockedByThisThread (mutex_at demo_state 0) 0 = true.
Proof.
  destruct (lock_discipline 1 0 demo_clients (length demo_ids) 0 demo_state) as (_ & H & _);
    [reflexivity|apply (schedule_run demo_ids); vm_compute; reflexivity|].
  destruct (H 0%nat (Run [] [While (Some 0%nat) () (Condition.wait 0); Do (ops_code 0 [AssertLocked; Access ()]);
    Do (MutexLock.unlock 0)]) 0%nat) as (Ho & Hl & _); [vm_compute; reflexivity|reflexivity|]. by split.
Defined.
End LockClients.
