(* ===== verification/Latch.v ===== *)
(** The latches of src/libel/base: countdown_latch.cpp ([CountDownLatch], on
    [MutexLock] and [Condition]) and waiter.cpp ([Waiter], on the standard mutex and
    condition variable), for any number of threads that make any calls. *)

From S2P Require Import Prelude Monitor.
Import Monitor.

(** ** What the two classes share: the counter, and what is done to it *)
Module LatchData.

Inductive update := Decrement | ReadCount.
Inductive test := CountPositive | CountIsZero.

(** [results] is history: what [getCount] has returned, and in which thread. *)
Record t := mk { count_ : Z; results : list (nat * Z) }.

#[global] Instance update_eq_dec : EqDecision update.
Proof. solve_decision. Defined.
#[global] Instance test_eq_dec : EqDecision test.
Proof. solve_decision. Defined.
#[global] Instance t_eq_dec : EqDecision t.
Proof. solve_decision. Defined.

#[global] Instance interp : Interp update test t := {|
  apply i u d :=
    match u with
    | Decrement => mk (int32 (count_ d - 1)) (results d)
    | ReadCount => mk (count_ d) (results d ++ [(i, count_ d)])
    end;
  holds b d :=
    match b with
    | CountPositive => 0 <? count_ d
    | CountIsZero => count_ d =? 0
    end;
|}.

Abbreviation code := (list (act update test)).

(** What threads may call. *)
Inductive call := Wait | CountDown | GetCount.

End LatchData.

(** ** countdown_latch.cpp *)
Module CountDownLatch.
Import LatchData.

Definition new (count : Z) : LatchData.t := LatchData.mk count [].

Definition wait : code :=
  MutexLock.MutexLockGuard 0 [While (Some 0%nat) CountPositive (Condition.wait 0)].

Definition countDown : code :=
  MutexLock.MutexLockGuard 0
    [Do [guarded 0 Decrement]; If (Some 0%nat) CountIsZero (Condition.notifyAll 0)].

Definition getCount : code := MutexLock.MutexLockGuard 0 [Do [guarded 0 ReadCount]].

Definition call_code (c : call) : code :=
  match c with Wait => wait | CountDown => countDown | GetCount => getCount end.

End CountDownLatch.

(** ** waiter.cpp: [std::unique_lock] over [std::mutex], which has no [holder_] *)
Module Waiter.
Import LatchData.

Definition new (count : Z) : LatchData.t := LatchData.mk count [].

Definition unique_lock (body : code) : code :=
  Do [mutex_lock 0] :: body ++ [Do [mutex_unlock 0]].

Definition wait : code := unique_lock [While (Some 0%nat) CountPositive [cond_wait 0]].

Definition finish : code :=
  unique_lock [Do [guarded 0 Decrement]; If (Some 0%nat) CountIsZero [cond_broadcast 0]].

Definition getCount : code := unique_lock [Do [guarded 0 ReadCount]].

Definition call_code (c : call) : code :=
  match c with Wait => wait | CountDown => finish | GetCount => getCount end.

End Waiter.

(** ** Programs that use a counter as these classes do

    The proofs need only this of the code: a decrement is followed at once by the
    test that notifies, and loops wait for the count. *)
Module LatchProofs.
Import LatchData.
Abbreviation prim := (Monitor.prim update test).
Abbreviation act := (Monitor.act update test).
Abbreviation thread := (Monitor.thread update test).
Abbreviation state := (Monitor.state update test LatchData.t).

Definition is_dec (p : prim) : bool := match p with guarded 0 Decrement => true | _ => false end.
Definition is_lock (p : prim) : bool := match p with mutex_lock _ => true | _ => false end.
Definition is_broadcast (p : prim) : bool := match p with cond_broadcast _ => true | _ => false end.
(** Only these occur at all, besides the mutex operations. *)
Definition plain (p : prim) : bool :=
  match p with
  | mutex_lock 0 | mutex_unlock 0 | assign_holder 0 | unassign_holder 0 | cond_wait 0 | guarded 0 ReadCount => true
  | _ => false
  end.
Definition notifies (rest : list act) : bool :=
  match rest with If (Some 0%nat) CountIsZero [cond_broadcast 0] :: _ => true | _ => false end.

Definition shape_act (a : act) (rest : list act) : bool :=
  match a with
  | Do [guarded 0 Decrement] => notifies rest
  | Do body => forallb plain body
  | If (Some 0%nat) CountIsZero [cond_broadcast 0] => true
  | While (Some 0%nat) CountPositive body => forallb plain body && negb (existsb is_lock body)
  | _ => false
  end.
Fixpoint shape (rest : list act) : bool :=
  match rest with
  | [] => true
  | a :: rest => shape_act a rest && shape rest
  end.

Definition loops (rest : list act) : bool := match rest with While _ _ _ :: _ => true | _ => false end.

(** The block a thread is in.  A thread about to wait has the mutex already, and is
    in a loop. *)
Definition block_ok (ps : list prim) (rest : list act) : bool :=
  match ps with
  | [guarded 0 Decrement] => notifies rest
  | [cond_broadcast 0] => true
  | _ => forallb plain ps && negb (existsb is_wait ps && (existsb is_lock ps || negb (loops rest)))
  end.
Definition shaped (t : thread) : Prop :=
  match t with
  | Run ps rest => block_ok ps rest = true /\ shape rest = true
  | Asleep m ps rest => m = 0%nat /\ forallb plain ps = true /\ existsb is_wait ps = false /\ loops rest = true /\ shape rest = true
  | Crashed _ => False
  end.

(** About to wait; between a decrement to zero and the broadcast. *)
Definition about_to_wait (t : thread) : bool :=
  match t with Run ps _ => existsb is_wait ps | _ => false end.
Definition notifying (t : thread) : bool :=
  match t with
  | Run [] rest => notifies rest
  | Run [cond_broadcast 0] _ => true
  | _ => false
  end.
Definition decrementing (t : thread) : bool :=
  match t with Run [guarded 0 Decrement] _ => true | _ => false end.
Definition asleep (t : thread) : bool := match t with Asleep _ _ _ => true | _ => false end.

(** Decrements still to come, those among them before the next wait, and waits. *)
Definition decs (ps : list prim) : Z := zsum (fun p => if is_dec p then 1 else 0) ps.
Definition decs_act (a : act) : Z :=
  match a with Do body | If _ _ body | While _ _ body => decs body end.
Fixpoint free_decs (rest : list act) : Z :=
  match rest with
  | [] | While _ _ _ :: _ => 0
  | a :: rest => decs_act a + free_decs rest
  end.
Definition code_waits (rest : list act) : Z :=
  zsum (fun a => match a with While _ _ _ => 1 | _ => 0 end) rest.

Definition on_code {A} (x : A) (f : list prim -> list act -> A) (t : thread) : A :=
  match t with Run ps rest | Asleep _ ps rest => f ps rest | Crashed _ => x end.
Definition pending : thread -> Z := on_code 0 (fun ps rest => decs ps + zsum decs_act rest).
Definition early : thread -> Z := on_code 0 (fun ps rest => decs ps + free_decs rest).
Definition waits_left : thread -> Z := on_code 0 (fun _ rest => code_waits rest).

(** What holds of each thread, and of all of them together.  [c0] is the count at the
    start and [total] the number of decrements in the programs. *)
Definition thread_inv (c : Z) (prog : list act) (t : thread) : Prop :=
  shaped t /\ (about_to_wait t = true -> 0 < c) /\ (waits_left t < code_waits prog -> c <= 0).

Record inv (c0 total : Z) (early0 : bool) (progs : list (list act)) (s : state) : Prop := {
  i_threads : Forall2 (thread_inv (count_ (data s))) progs (threads s);
  i_woken i t : threads s !! i = Some t -> asleep t = true -> count_ (data s) <= 0 ->
    count_ (data s) = 0 /\ exists j t', threads s !! j = Some t' /\ notifying t' = true;
  i_count : count_ (data s) = c0 - total + zsum pending (threads s) /\ zsum pending (threads s) <= total;
  i_early : early0 = true -> count_ (data s) <= zsum early (threads s);
  i_results : Forall (fun r => count_ (data s) <= r.2 <= c0) (results (data s));
}.

Lemma decs_nonneg ps : 0 <= decs ps.
Proof. induction ps as [|p ps IH]; [done|]. unfold decs in *. simpl. destruct (is_dec p); lia. Qed.

Lemma free_decs_nonneg rest : 0 <= free_decs rest.
Proof.
  induction rest as [|a rest IH]; [done|]. destruct a as [b|g t b|g t b]; simpl; [..|done];
    pose proof (decs_nonneg b); lia.
Qed.

Lemma early_nonneg t : 0 <= early t.
Proof.
  destruct t as [ps rest|m ps rest|f]; unfold early; simpl; [..|done];
    pose proof (decs_nonneg ps); pose proof (free_decs_nonneg rest); lia.
Qed.

Lemma pending_nonneg t : 0 <= pending t.
Proof.
  assert (forall rest, 0 <= zsum decs_act rest).
  { intros rest. induction rest as [|[b|g t0 b|g t0 b] rest IH]; simpl; [done|..]; pose proof (decs_nonneg b); lia. }
  destruct t as [ps rest|m ps rest|f]; unfold pending; simpl; [..|done]; pose proof (decs_nonneg ps); specialize (H rest); lia.
Qed.

Lemma zsum_nonneg {A} (f : A -> Z) l : (forall x, 0 <= f x) -> 0 <= zsum f l.
Proof. intros H. induction l as [|x l IH]; simpl; [done|]. specialize (H x). lia. Qed.

(** Threads in a critical section own the mutex, so there is at most one. *)
Lemma check_wait_mode n md ps md' :
  check_prims n false md ps = Some md' -> existsb is_wait ps = true -> existsb is_lock ps = false -> md <> None.
Proof.
  intros Hc Hw Hl ->. revert Hc Hw Hl. induction ps as [|p ps IH]; [done|].
  cbn [check_prims existsb]. destruct p; simpl; try done; intros; by apply IH.
Qed.

Definition critical (t : thread) : bool := about_to_wait t || notifying t || decrementing t.

Lemma notifies_inv rest :
  notifies rest = true -> exists rest', rest = If (Some 0%nat) CountIsZero [cond_broadcast 0] :: rest'.
Proof.
  unfold notifies. intros H. repeat (case_match; try done). simplify_eq. eauto.
Qed.

Lemma critical_mode md t : typed 1 false md t -> shaped t -> critical t = true -> md <> None.
Proof.
  destruct t as [ps rest|m ps rest|f]; try done. intros Ht [Hb _] Hc ->. unfold typed, check_rest in Ht.
  unfold critical in Hc. rewrite !orb_true_iff in Hc. destruct Hc as [[Hc|Hc]|Hc].
  - simpl in Hc. destruct (check_prims 1 false None ps) as [md'|] eqn:E; [|done].
    assert (existsb is_lock ps = false) as Hl.
    { unfold block_ok in Hb. destruct (existsb is_lock ps) eqn:El; [|done]. rewrite Hc in Hb.
      repeat (case_match; try done); simpl in *; rewrite ?andb_false_r in Hb; done. }
    by apply (check_wait_mode 1 None ps md' E Hc Hl).
  - destruct ps as [|p ps]; simpl in Hc; [|by repeat (case_match; try done)].
    apply notifies_inv in Hc as [rest' ->]. done.
  - simpl in Hc. repeat (case_match; try done).
Qed.

Lemma critical_owner (s : state) mds c progs i t :
  disciplined 1 false s mds -> Forall2 (thread_inv c) progs (threads s) ->
  threads s !! i = Some t -> critical t = true -> owner (mutex_at s 0) = Some i.
Proof.
  intros Hd Hf Hi Hx. destruct (disciplined_thread 1 false s mds i t Hd Hi) as (md & Hmd & Ht).
  destruct (Forall2_lookup_r _ _ _ _ _ Hf Hi) as (prog & _ & Hs & _).
  pose proof (critical_mode md t Ht Hs Hx). destruct md as [[m a]|]; [|done].
  pose proof (disciplined_holds 1 false s mds i m a Hd Hmd) as Hm.
  assert (m < 1)%nat by (rewrite <- (d_count 1 false s mds Hd); eauto using lookup_lt_Some).
  assert (m = 0%nat) as -> by lia. by rewrite (mutex_at_lookup s 0 _ Hm).
Qed.

Lemma critical_unique (s : state) mds c progs i j t t' :
  disciplined 1 false s mds -> Forall2 (thread_inv c) progs (threads s) ->
  threads s !! i = Some t -> critical t = true -> threads s !! j = Some t' -> critical t' = true -> i = j.
Proof.
  intros Hd Hf Hi Hc Hj Hc'. pose proof (critical_owner s mds c progs i t Hd Hf Hi Hc).
  pose proof (critical_owner s mds c progs j t' Hd Hf Hj Hc'). congruence.
Qed.

(** A step of thread [i] that leaves the count. *)
Lemma quiet_inv c0 total e progs s i t t' d' ms' :
  inv c0 total e progs s -> threads s !! i = Some t -> count_ d' = count_ (data s) ->
  Forall (fun r => count_ (data s) <= r.2 <= c0) (results d') ->
  (forall prog, thread_inv (count_ (data s)) prog t -> thread_inv (count_ (data s)) prog t') ->
  (asleep t' = true -> 0 < count_ (data s)) ->
  pending t' = pending t -> early t <= early t' \/ count_ (data s) <= 0 ->
  (notifying t = true -> notifying t' = true \/ count_ (data s) <> 0 \/
     forall k x, threads s !! k = Some x -> asleep x = false) ->
  inv c0 total e progs (mk_state d' ms' (<[i := t']> (threads s))).
Proof.
  intros [Hth Hwo Hco Hea Hre] Hi Hc Hres Ht' Has Hp He Hn. split; simpl; rewrite Hc; [| | | |done].
  - destruct (Forall2_lookup_r _ _ _ _ _ Hth Hi) as (prog & Hprog & Ht).
    rewrite <- (list_insert_id progs i prog Hprog). apply Forall2_insert; auto.
  - intros k x Hk Hx Hle. rewrite list_lookup_insert_Some in Hk.
    destruct Hk as [(<- & <- & _)|[Hne Hk]]; [specialize (Has Hx); lia|].
    destruct (Hwo k x Hk Hx Hle) as [H0 (j & t1 & Hj & Hnj)]. split; [done|].
    destruct (decide (j = i)) as [->|Hji].
    + rewrite Hi in Hj. injection Hj as <-. destruct (Hn Hnj) as [H1|[H1|H1]]; [|done|by rewrite (H1 k x Hk) in Hx].
      exists i, t'. rewrite list_lookup_insert_eq by eauto using lookup_lt_Some. done.
    + exists j, t1. rewrite list_lookup_insert_ne by done. done.
  - rewrite (zsum_insert _ _ _ _ _ Hi). lia.
  - intros H1. specialize (Hea H1). pose proof (zsum_nonneg early (<[i := t']> (threads s)) early_nonneg).
    rewrite (zsum_insert _ _ _ _ _ Hi) in *. lia.
Qed.

(** The decrement. *)
Lemma dec_inv c0 total e progs (s : state) mds i rest :
  - 2 ^ 31 <= c0 - total -> c0 < 2 ^ 31 -> disciplined 1 false s mds ->
  inv c0 total e progs s -> threads s !! i = Some (Run [guarded 0 Decrement] rest) ->
  inv c0 total e progs
    (set_thread (set_data s (apply i Decrement (data s))) i (Run [] rest)).
Proof.
  intros Hlo Hhi Hd [Hth Hwo Hco Hea Hre] Hi.
  assert (pending (Run [guarded 0 Decrement] rest) = 1 + pending (Run [] rest)) as Hp by done.
  assert (early (Run [guarded 0 Decrement] rest) = 1 + early (Run [] rest)) as He by done.
  destruct (Forall2_lookup_r _ _ _ _ _ Hth Hi) as (prog & Hprog & [Hb Hsh] & _ & Hleft). simpl in Hb.
  pose proof (zsum_nonneg pending (<[i := Run [] rest]> (threads s)) pending_nonneg) as Hnn.
  rewrite (zsum_insert _ _ _ _ _ Hi) in Hnn.
  assert (count_ (apply i Decrement (data s)) = count_ (data s) - 1) as Hc.
  { simpl. apply swrap_small; [lia|]. unfold in_int. change (2 ^ (32 - 1)) with (2 ^ 31). lia. }
  assert (critical (Run [guarded 0 Decrement] rest) = true) as Hcr by done.
  split; cbn [set_thread set_data data threads mutexes]; rewrite Hc.
  - apply Forall2_same_length_lookup_2; [rewrite length_insert; by eapply Forall2_length|].
    intros k prog' x Hk Hx. rewrite list_lookup_insert_Some in Hx. destruct Hx as [(<- & <- & _)|[Hne Hx]].
    + rewrite Hprog in Hk. injection Hk as <-. split; [by split|]. split; [done|].
      intros Hw. specialize (Hleft Hw). lia.
    + destruct (Forall2_lookup_lr _ _ _ _ _ _ Hth Hk Hx) as (Hs & Ha & Hl). split; [done|]. split; [|intros H; specialize (Hl H); lia].
      intros Hwait. destruct Hne. eapply (critical_unique s mds _ progs _ _ _ _ Hd Hth Hi Hcr Hx).
      unfold critical. by rewrite Hwait.
  - intros k x Hk Hx Hle. rewrite list_lookup_insert_Some in Hk. destruct Hk as [(_ & <- & _)|[Hne Hk]]; [done|].
    destruct (decide (count_ (data s) <= 0)) as [Hz|Hz].
    + destruct (Hwo k x Hk Hx Hz) as [_ (j & t1 & Hj & Hn)].
      assert (i = j) as <-.
      { eapply (critical_unique s mds _ progs _ _ _ _ Hd Hth Hi Hcr Hj). unfold critical. rewrite Hn. by rewrite orb_true_r. }
      rewrite Hi in Hj. by injection Hj as <-.
    + split; [lia|]. exists i, (Run [] rest). rewrite list_lookup_insert_eq by eauto using lookup_lt_Some. done.
  - rewrite (zsum_insert _ _ _ _ _ Hi). lia.
  - intros H1. specialize (Hea H1). rewrite (zsum_insert _ _ _ _ _ Hi). lia.
  - eapply Forall_impl; [exact Hre|]. simpl. intros r. lia.
Qed.

Lemma block_plain ps rest :
  forallb plain ps = true -> block_ok ps rest = negb (existsb is_wait ps && (existsb is_lock ps || negb (loops rest))).
Proof. intros H. unfold block_ok. rewrite H. repeat (case_match; simpl in *; try done). Qed.

Lemma waits_existsb (ps : list prim) : waits ps = 0 <-> existsb is_wait ps = false.
Proof.
  induction ps as [|p ps IH]; [done|]. pose proof (waits_nonneg ps). unfold waits in *. simpl.
  destruct (is_wait p); simpl; [split; [lia|done]|]. rewrite <- IH. lia.
Qed.

Lemma wake_thread_inv c prog t : thread_inv c prog t -> thread_inv c prog (wake 0 t).
Proof.
  destruct t as [ps rest|m ps rest|f]; simpl; try done. intros ((-> & Hp & Hw & _ & Hs) & _ & Hl).
  rewrite decide_True by done. split.
  - split; [|done]. rewrite block_plain by (simpl; done). cbn [existsb is_wait]. by rewrite Hw.
  - split; [|done]. cbn [about_to_wait existsb is_wait]. by rewrite Hw.
Qed.

Lemma wake_measures m t : pending (wake m t) = pending t /\ early (wake m t) = early t /\ asleep (wake m t) = asleep t && negb (sleeps_on m t).
Proof.
  destruct t as [ps rest|m' ps rest|f]; simpl; try done. case_decide as E; simpl.
  - by rewrite bool_decide_eq_true_2.
  - by rewrite bool_decide_eq_false_2.
Qed.

Lemma zsum_map {A} (f : A -> Z) (g : A -> A) l : (forall x, f (g x) = f x) -> zsum f (map g l) = zsum f l.
Proof. intros H. induction l as [|x l IH]; [done|]. simpl. rewrite H. lia. Qed.

Lemma wake_all_inv c0 total e progs s :
  inv c0 total e progs s ->
  inv c0 total e progs (wake_all 0 s) /\
  forall k x, threads (wake_all 0 s) !! k = Some x -> asleep x = false.
Proof.
  intros [Hth Hwo Hco Hea Hre].
  assert (forall k x, threads (wake_all 0 s) !! k = Some x -> asleep x = false) as Hno.
  { intros k x. simpl. change (@map thread thread) with (@fmap list _ thread thread). rewrite list_lookup_fmap.
    intros (y & Hy & ->)%fmap_Some. rewrite (proj2 (proj2 (wake_measures 0 y))).
    destruct (Forall2_lookup_r _ _ _ _ _ Hth Hy) as (prog & _ & Hs & _).
    destruct y as [| |]; simpl; try done. destruct Hs as [-> _]. done. }
  split; [|done]. split; cbn [wake_all data threads].
  - clear -Hth. induction Hth; simpl; constructor; auto using wake_thread_inv.
  - intros k x Hk Hx. by rewrite (Hno k x Hk) in Hx.
  - rewrite zsum_map by apply wake_measures. done.
  - rewrite zsum_map by apply wake_measures. done.
  - done.
Qed.

Lemma plain_next c prog p ps rest :
  thread_inv c prog (Run (p :: ps) rest) -> plain p = true -> thread_inv c prog (Run ps rest).
Proof.
  intros ([Hb Hs] & Ha & Hl) Hp.
  assert (forallb plain (p :: ps) = true) as Hpl.
  { unfold block_ok in Hb. repeat (case_match; try done); try (by apply andb_true_iff in Hb as [? _]); simplify_eq; done. }
  rewrite block_plain in Hb by done. simpl in Hpl. rewrite Hp in Hpl. simpl in Hpl.
  split; [split; [|done]|split; [|done]].
  - rewrite block_plain by done. cbn [existsb] in Hb. destruct (existsb is_wait ps); [|done].
    rewrite orb_true_r in Hb. destruct (existsb is_lock ps), (loops rest); try done; by rewrite ?orb_true_r in Hb.
  - simpl in *. intros Hw. apply Ha. by rewrite Hw, orb_true_r.
Qed.

(** A step past a plain prim. *)
Lemma plain_inv c0 total e progs s i p ps rest d' ms' :
  inv c0 total e progs s -> threads s !! i = Some (Run (p :: ps) rest) -> plain p = true ->
  count_ d' = count_ (data s) -> Forall (fun r => count_ (data s) <= r.2 <= c0) (results d') ->
  inv c0 total e progs (mk_state d' ms' (<[i := Run ps rest]> (threads s))).
Proof.
  intros Hinv Hi Hp Hc Hr. assert (is_dec p = false) as Hd by (by destruct p as [| | | | | | |[] []| | | |]).
  eapply quiet_inv; eauto; try done.
  - intros prog H. by eapply plain_next.
  - unfold pending, on_code, decs. simpl. rewrite Hd. lia.
  - left. unfold early, on_code, decs. simpl. rewrite Hd. lia.
  - intros Hn. simpl in Hn. by destruct p; repeat (case_match; try done).
Qed.

Lemma wait_inv c0 total e progs s i ps rest ms' :
  inv c0 total e progs s -> threads s !! i = Some (Run (cond_wait 0 :: ps) rest) -> waits (cond_wait 0 :: ps) <= 1 ->
  inv c0 total e progs (mk_state (data s) ms' (<[i := Asleep 0 ps rest]> (threads s))).
Proof.
  intros Hinv Hi Hw. pose proof (i_threads _ _ _ _ _ Hinv) as Hth.
  destruct (Forall2_lookup_r _ _ _ _ _ Hth Hi) as (prog & _ & _ & Hpos & _). specialize (Hpos eq_refl).
  eapply quiet_inv; eauto; try done; [apply Hinv| |by left].
  intros prog' Ht. destruct (plain_next _ _ _ _ _ Ht eq_refl) as ([Hb Hs] & _ & Hl).
  assert (existsb is_wait ps = false) as Hn.
  { apply waits_existsb. pose proof (waits_nonneg ps). unfold waits in *. simpl in Hw. lia. }
  split; [|split; [done|exact Hl]]. destruct Ht as [[Hb' _] _].
  unfold block_ok in Hb'. apply andb_true_iff in Hb' as [Hp' Hb']. split_and!; try done.
  simpl in Hb'. destruct (loops rest); [done|]. by rewrite orb_true_r in Hb'.
Qed.

(** A thread of a system that follows the discipline does not misuse a mutex. *)
Lemma no_misuse (s : state) mds i t :
  threads s !! i = Some t -> ~ disciplined 1 false (set_thread s i (Crashed OutOfBounds)) mds.
Proof.
  intros Hi Hd. assert (threads (set_thread s i (Crashed OutOfBounds)) !! i = Some (Crashed OutOfBounds)) as H.
  { simpl. by rewrite list_lookup_insert_eq by eauto using lookup_lt_Some. }
  destruct (disciplined_thread 1 false _ mds i _ Hd H) as (md & _ & Ht). done.
Qed.

Lemma prim_inv c0 total e progs N (s : state) mds i p ps rest s' :
  - 2 ^ 31 <= c0 - total -> c0 < 2 ^ 31 -> disciplined 1 false s mds -> fits N s ->
  inv c0 total e progs s -> threads s !! i = Some (Run (p :: ps) rest) ->
  s' ∈ prim_moves i p ps rest s -> inv c0 total e progs s'.
Proof.
  intros Hlo Hhi Hd Hf Hinv Hi Hin. pose proof (i_threads _ _ _ _ _ Hinv) as Hth.
  assert (exists mds', disciplined 1 false s' mds') as [mds' Hd'].
  { apply (moves_disciplined 1 false s mds i); [done|]. unfold moves. by rewrite Hi. }
  destruct (Forall2_lookup_r _ _ _ _ _ Hth Hi) as (prog & _ & [Hb _] & _).
  destruct (fits_thread N s i _ Hf Hi) as [Hw _].
  destruct (plain p) eqn:Hp.
  - pose proof (i_results _ _ _ _ _ Hinv) as Hre.
    destruct p as [[]|[]|[]|[]|[]| | |[] []| | | |]; try done; cbn [prim_moves] in Hin;
      repeat (case_match; try done); rewrite ?list_elem_of_singleton in Hin; try (by apply not_elem_of_nil in Hin); subst;
      try (by destruct (no_misuse s mds' i _ Hi)); try (by eapply (plain_inv c0 total e progs s i _ ps rest));
      try (by eapply (wait_inv c0 total e progs s i ps rest)).
    eapply (plain_inv c0 total e progs s i _ ps rest); eauto; try done. simpl. apply Forall_app. split; [done|].
    pose proof (i_count _ _ _ _ _ Hinv). repeat constructor; simpl; lia.
  - assert (ps = [] /\ (p = guarded 0 Decrement \/ p = cond_broadcast 0)) as [-> [-> | ->]].
    { assert (block_ok (p :: ps) rest = false \/ ps = [] /\ (p = guarded 0 Decrement \/ p = cond_broadcast 0)) as [|?]; [|congruence|done].
      clear -Hp. unfold block_ok. assert (forallb plain (p :: ps) = false) as -> by (simpl; by rewrite Hp).
      repeat case_match; simplify_eq; auto. }
    + apply list_elem_of_singleton in Hin as ->. by eapply dec_inv.
    + apply list_elem_of_singleton in Hin as ->. destruct (wake_all_inv _ _ _ _ _ Hinv) as [Hw1 Hno].
      eapply (quiet_inv _ _ _ _ (wake_all 0 s)); [exact Hw1|by apply wake_all_run|done|apply Hw1| |done|done|by left|by eauto].
      intros prog' ([_ Hs] & _ & Hl). by split; [split|split].
Qed.

Lemma plain_decs ps : forallb plain ps = true -> decs ps = 0.
Proof.
  induction ps as [|p ps IH]; [done|]. intros [Hp Hr]%andb_true_iff. unfold decs in *. simpl. rewrite IH by done.
  by destruct p as [| | | | | | |[] []| | | |].
Qed.

(** The statements a latch program is made of. *)
Lemma shape_cases a rest :
  shape_act a rest = true ->
  (a = Do [guarded 0 Decrement] /\ notifies rest = true) \/
  (exists body, a = Do body /\ forallb plain body = true) \/
  a = If (Some 0%nat) CountIsZero [cond_broadcast 0] \/
  (exists body, a = While (Some 0%nat) CountPositive body /\ forallb plain body = true /\ existsb is_lock body = false).
Proof.
  intros H. destruct a as [body|g t body|g t body].
  - destruct (forallb plain body) eqn:E; [eauto 6|]. left. unfold shape_act in H. rewrite E in H.
    by repeat (case_match; try done).
  - right. right. left. unfold shape_act in H. by repeat (case_match; try done).
  - right. right. right. unfold shape_act in H. repeat (case_match; try done).
    apply andb_true_iff in H as [Hp Hl%negb_true_iff]. eauto.
Qed.

Lemma thread_inv_block c prog ps rest t :
  thread_inv c prog t -> block_ok ps rest = true -> shape rest = true -> code_waits rest = waits_left t ->
  (existsb is_wait ps = true -> 0 < c) -> thread_inv c prog (Run ps rest).
Proof. intros (_ & _ & Hl) Hb Hs Hw Hc. split; [by split|]. split; [done|]. rewrite <- Hw in Hl. exact Hl. Qed.

Lemma enter_inv c0 total e progs N (s : state) i a rest :
  fits N s -> inv c0 total e progs s -> threads s !! i = Some (Run [] (a :: rest)) ->
  inv c0 total e progs (set_thread s i (enter a (data s) rest)).
Proof.
  intros Hf Hinv Hi. pose proof (i_threads _ _ _ _ _ Hinv) as Hth. pose proof (i_results _ _ _ _ _ Hinv) as Hre.
  destruct (Forall2_lookup_r _ _ _ _ _ Hth Hi) as (prog & _ & [_ [Hsa Hs]%andb_true_iff] & _).
  destruct (fits_thread N s i _ Hf Hi) as [_ [Ha _]%andb_true_iff].
  destruct (shape_cases a rest Hsa) as [[-> Hn]|[(body & -> & Hp)|[->|(body & -> & Hp & Hl)]]]; cbn [enter].
  - eapply (quiet_inv _ _ _ _ s); eauto; try done; [|by left].
    intros prog' H. by apply (thread_inv_block _ _ _ _ _ H).
  - simpl in Ha. apply Z.eqb_eq, waits_existsb in Ha.
    eapply (quiet_inv _ _ _ _ s); eauto; try done; [|by left].
    intros prog' H. apply (thread_inv_block _ _ _ _ _ H); [|done|done|by rewrite Ha].
    rewrite block_plain by done. by rewrite Ha.
  - simpl holds. destruct (Z.eqb_spec (count_ (data s)) 0) as [E|E];
      eapply (quiet_inv _ _ _ _ s); eauto; try done; try (by left); intros prog' H;
      by apply (thread_inv_block _ _ _ _ _ H).
  - pose proof (plain_decs body Hp) as Hd. simpl holds. destruct (Z.ltb_spec 0 (count_ (data s))) as [E|E].
    + eapply (quiet_inv _ _ _ _ s); eauto; try done.
      * intros prog' H. apply (thread_inv_block _ _ _ _ _ H); [|by simpl in *; rewrite Hsa|done|done].
        rewrite block_plain by done. by rewrite Hl, andb_false_r.
      * unfold pending, on_code. rewrite Hd. unfold decs. simpl. lia.
      * left. unfold early, on_code. rewrite Hd. done.
    + eapply (quiet_inv _ _ _ _ s); eauto; try done.
      unfold pending, on_code. simpl. rewrite Hd. unfold decs. simpl. lia.
Qed.

Lemma spurious_inv c0 total e progs s i s' :
  inv c0 total e progs s -> s' ∈ spurious i s -> inv c0 total e progs s'.
Proof.
  intros Hinv Hin. unfold spurious in Hin. destruct (threads s !! i) as [[ps rest|m ps rest|f]|] eqn:Hi;
    try by apply not_elem_of_nil in Hin.
  apply list_elem_of_singleton in Hin as ->. unfold wake_one.
  assert (alter (wake m) i (threads s) = <[i := wake m (Asleep m ps rest)]> (threads s)) as ->.
  { apply list_eq. intros j. rewrite list_lookup_alter, list_lookup_insert. repeat case_decide; subst; try lia; rewrite ?Hi; try done.
    apply lookup_lt_Some in Hi. lia. }
  pose proof (i_threads _ _ _ _ _ Hinv) as Hth.
  destruct (Forall2_lookup_r _ _ _ _ _ Hth Hi) as (prog & _ & [-> _] & _).
  eapply (quiet_inv _ _ _ _ s); eauto; try done; [apply Hinv| |by left].
  intros prog'. apply wake_thread_inv.
Qed.

Lemma run_inv c0 total e progs N s0 mds0 k l (s : state) :
  - 2 ^ 31 <= c0 - total -> c0 < 2 ^ 31 -> disciplined 1 false s0 mds0 -> fits N s0 -> inv c0 total e progs s0 ->
  run k l s0 s -> (exists mds, disciplined 1 false s mds) /\ fits N s /\ inv c0 total e progs s.
Proof.
  intros Hlo Hhi Hd0 Hf0 H0 Hr. split; [by eapply run_disciplined|]. split; [by eapply run_cost|].
  induction Hr as [|k l s1 s2 s3 i Hr IH Hin|k l s1 s2 s3 i Hr IH Hin]; [done|..].
  - destruct (run_disciplined 1 false _ _ _ _ _ Hr Hd0) as [mds Hd]. destruct (run_cost N _ _ _ _ Hr Hf0) as [Hf _].
    specialize (IH Hd0 Hf0 H0). unfold moves in Hin.
    destruct (threads s2 !! i) as [[ps rest|m ps rest|f]|] eqn:Hi; try by apply not_elem_of_nil in Hin.
    destruct ps as [|p ps]; [|by eapply (prim_inv _ _ _ _ N s2 mds i p ps rest)].
    destruct rest as [|a rest]; [by apply not_elem_of_nil in Hin|].
    apply list_elem_of_singleton in Hin as ->. by eapply enter_inv.
  - eapply spurious_inv; [by apply IH|done].
Qed.

(** ** Threads that make latch calls *)
Definition downs (cs : list call) : Z := zsum (fun c => match c with CountDown => 1 | _ => 0 end) cs.
Definition wait_calls (cs : list call) : Z := zsum (fun c => match c with Wait => 1 | _ => 0 end) cs.
Fixpoint early_downs (cs : list call) : Z :=
  match cs with
  | [] | Wait :: _ => 0
  | CountDown :: cs => 1 + early_downs cs
  | GetCount :: cs => early_downs cs
  end.

Definition program (call_code : call -> code) (cs : list call) : code := concat (map call_code cs).

(** What the proofs need of an implementation of the calls. *)
Class LatchCode (call_code : call -> code) : Prop := {
  lc_check c rest : check_prog 1 false None rest = true -> check_prog 1 false None (call_code c ++ rest) = true;
  lc_waits N c : 0 <= N -> forallb (act_waits N) (call_code c) = true;
  lc_shape c rest : shape rest = true -> shape (call_code c ++ rest) = true;
  lc_decs c : zsum decs_act (call_code c) = match c with CountDown => 1 | _ => 0 end;
  lc_free c rest : free_decs (call_code c ++ rest) =
    match c with Wait => 0 | CountDown => 1 + free_decs rest | GetCount => free_decs rest end;
  lc_code_waits c : code_waits (call_code c) = match c with Wait => 1 | _ => 0 end;
  lc_cost N c : 0 <= N -> cost_prog N (call_code c) <= 5 * N + 10;
}.

Ltac latch_code :=
  split;
  [ intros [] rest H; exact H
  | intros N [] HN; reflexivity
  | intros [] rest H; exact H
  | intros []; reflexivity
  | intros [] rest; reflexivity
  | intros []; reflexivity
  | intros N [] HN; unfold cost_prog; simpl; unfold cost_prims; simpl; lia ].

#[export] Instance countDownLatch_code : LatchCode CountDownLatch.call_code.
Proof. latch_code. Qed.

#[export] Instance waiter_code : LatchCode Waiter.call_code.
Proof. latch_code. Qed.

Definition system (call_code : call -> code) (c0 : Z) (css : list (list call)) : state :=
  init (LatchData.mk c0 []) 1 (map (program call_code) css).

Section system.
Context (call_code : call -> code) `{!LatchCode call_code}.

Lemma program_ok N cs :
  0 <= N ->
  check_prog 1 false None (program call_code cs) = true /\ forallb (act_waits N) (program call_code cs) = true /\
  shape (program call_code cs) = true /\ cost_prog N (program call_code cs) <= (5 * N + 10) * zlen cs.
Proof.
  intros HN. induction cs as [|c cs (H1 & H2 & H3 & H4)].
  { unfold zlen, cost_prog. simpl. split_and!; done || lia. }
  unfold program in *. simpl.
  split; [by apply lc_check|]. split; [by rewrite forallb_app, lc_waits|]. split; [by apply lc_shape|].
  unfold cost_prog in *. rewrite zsum_app, zlen_cons. pose proof (lc_cost N c HN) as Hc. unfold cost_prog in Hc. lia.
Qed.

Lemma program_measures cs :
  zsum decs_act (program call_code cs) = downs cs /\ free_decs (program call_code cs) = early_downs cs /\
  code_waits (program call_code cs) = wait_calls cs.
Proof.
  induction cs as [|c cs (H1 & H2 & H3)]; [done|]. unfold program, code_waits, downs, wait_calls in *. simpl.
  rewrite !zsum_app, lc_decs, lc_free. pose proof (lc_code_waits c) as Hw. unfold code_waits in Hw.
  destruct c; split_and!; lia.
Qed.

Definition total (css : list (list call)) : Z := zsum downs css.
Definition total_early (css : list (list call)) : Z := zsum early_downs css.

Lemma zsum_threads (f : thread -> Z) (g : list call -> Z) c0 css :
  (forall cs, f (Run [] (program call_code cs)) = g cs) ->
  zsum f (threads (system call_code c0 css)) = zsum g css.
Proof. intros H. simpl. induction css as [|cs css IH]; [done|]. simpl. rewrite H. lia. Qed.

Lemma system_ready c0 css :
  exists mds, disciplined 1 false (system call_code c0 css) mds /\ fits (zlen css) (system call_code c0 css) /\
    inv c0 (total css) (c0 <=? total_early css) (map (program call_code) css) (system call_code c0 css).
Proof.
  pose proof (zlen_nonneg css) as HN. eexists. split.
  { apply init_disciplined, forallb_forall. intros p (cs & <- & _)%List.in_map_iff. by apply (program_ok 0). }
  split.
  { apply init_fits; [unfold zlen; by rewrite length_map|]. apply forallb_forall.
    intros p (cs & <- & _)%List.in_map_iff. by apply program_ok. }
  split.
  - simpl. clear HN. induction css as [|cs css IH]; simpl; constructor; [|done].
    split; [split; [done|by apply (program_ok 0)]|]. split; [done|]. simpl. lia.
  - intros i t Hi Ha. simpl in Hi. rewrite (list_lookup_fmap (Run [])) in Hi. by apply fmap_Some in Hi as (p & _ & ->).
  - rewrite (zsum_threads pending downs); [unfold total; simpl; lia|]. intros cs. simpl. apply program_measures.
  - intros Hle%Z.leb_le. rewrite (zsum_threads early early_downs); [done|]. intros cs. simpl. apply program_measures.
  - constructor.
Qed.

(** The facts of any reachable state. *)
Lemma system_inv c0 css k l s :
  - 2 ^ 31 <= c0 - total css -> c0 < 2 ^ 31 -> run k l (system call_code c0 css) s ->
  exists mds, disciplined 1 false s mds /\ fits (zlen css) s /\
    inv c0 (total css) (c0 <=? total_early css) (map (program call_code) css) s.
Proof.
  intros Hlo Hhi Hr. destruct (system_ready c0 css) as (mds0 & Hd0 & Hf0 & H0).
  destruct (run_inv _ _ _ _ _ _ _ _ _ _ Hlo Hhi Hd0 Hf0 H0 Hr) as ((mds & Hd) & Hf & Hi). eauto.
Qed.

Lemma system_cost N c0 css : 0 <= N -> cost N (system call_code c0 css) <= (5 * N + 10) * zsum zlen css.
Proof.
  intros HN. unfold cost. simpl. induction css as [|cs css IH]; simpl; [lia|].
  pose proof (proj2 (proj2 (proj2 (program_ok N cs HN)))). unfold cost_prims. simpl. lia.
Qed.

Lemma system_bound c0 css k l s :
  run k l (system call_code c0 css) s ->
  Z.of_nat k <= (5 * zlen css + 10) * zsum zlen css + 4 * zlen css + 5 * Z.of_nat l.
Proof.
  intros Hr. destruct (system_ready c0 css) as (mds0 & Hd0 & Hf0 & H0).
  pose proof (run_bound _ _ _ _ _ Hr Hf0) as Hb. pose proof (zlen_nonneg css) as HN.
  pose proof (system_cost (zlen css) c0 css HN). lia.
Qed.

End system.

(** Nobody can go on: nobody sleeps, so everybody has returned. *)
Lemma stuck_finished (s : state) mds c0 css progs :
  disciplined 1 false s mds -> inv c0 (total css) true progs s -> stuck s ->
  all_finished s = true /\ count_ (data s) = c0 - total css.
Proof.
  intros Hd [Hth Hwo Hco Hea Hre] Hst.
  assert (forall i t, threads s !! i = Some t -> shaped t) as Hsh.
  { intros i t Hi. by destruct (Forall2_lookup_r _ _ _ _ _ Hth Hi) as (prog & _ & Hs & _). }
  assert (forall i t, threads s !! i = Some t -> finished t = true \/ exists m ps rest, t = Asleep m ps rest) as Hpr.
  { apply (progress 1 false s mds Hd); [|done]. intros i t Hi. specialize (Hsh i t Hi). destruct t as [ps rest|m ps rest|f]; try done.
    split; [done|]. destruct Hsh as [Hb _]. simpl. destruct ps as [|[]]; done. }
  assert (zsum early (threads s) = 0) as He0.
  { assert (Forall (fun t => early t = 0) (threads s)) as Hall.
    { apply Forall_lookup_2. intros i t Hi. destruct (Hpr i t Hi) as [Hf|(m & ps & rest & ->)].
      - by destruct t as [[] []| |].
      - destruct (Hsh i _ Hi) as (_ & Hp & _ & Hl & _). unfold early. simpl. rewrite (plain_decs ps Hp).
        by destruct rest as [|[]]. }
    clear -Hall. induction Hall as [|t ts Ht _ IH]; [done|]. simpl. lia. }
  specialize (Hea eq_refl).
  assert (forall i t, threads s !! i = Some t -> finished t = true) as Hfin.
  { intros i t Hi. destruct (Hpr i t Hi) as [Hf|(m & ps & rest & ->)]; [done|].
    destruct (Hwo i _ Hi eq_refl ltac:(lia)) as [_ (j & t' & Hj & Hn)].
    destruct (Hpr j t' Hj) as [Hf|(m' & ps' & rest' & ->)]; [|done]. by destruct t' as [[] []| |]. }
  split.
  - unfold all_finished. apply forallb_forall. intros t (i & Hi)%list_elem_of_In%list_elem_of_lookup. by apply (Hfin i).
  - assert (zsum pending (threads s) = 0); [|lia]. clear -Hfin. induction (threads s) as [|t ts IH]; [done|]. simpl.
    rewrite IH; [|intros i; apply (Hfin (S i))]. specialize (Hfin 0%nat t eq_refl). by destruct t as [[] []| |].
Qed.

(** C30. Latches, safety.  Any number of threads make any calls on a [CountDownLatch]
    or a [Waiter] that starts at [c0].  In every reachable state the count is [c0]
    less the decrements made; no thread has crashed; if a call of [wait] has returned
    the count is at most zero; when nobody holds the mutex and the count is at most
    zero, nobody sleeps (no wakeup is lost); and each result of [getCount] was a
    count between [c0] and now. *)
Theorem latch_safe call_code c0 css k l s :
  call_code = CountDownLatch.call_code \/ call_code = Waiter.call_code ->
  - 2 ^ 31 <= c0 - total css -> c0 < 2 ^ 31 -> run k l (system call_code c0 css) s ->
  count_ (data s) = c0 - (total css - zsum pending (threads s)) /\
  (forall i t, threads s !! i = Some t -> crashed t = false) /\
  (forall i t cs, threads s !! i = Some t -> css !! i = Some cs ->
     waits_left t < wait_calls cs -> count_ (data s) <= 0) /\
  (owner (mutex_at s 0) = None -> count_ (data s) <= 0 ->
     forall i t, threads s !! i = Some t -> asleep t = false) /\
  Forall (fun r => count_ (data s) <= r.2 <= c0) (results (data s)).
Proof.
  intros Hcode Hlo Hhi Hr. assert (LatchCode call_code) by (destruct Hcode as [-> | ->]; apply _).
  destruct (system_inv call_code c0 css k l s Hlo Hhi Hr) as (mds & Hd & Hf & [Hth Hwo Hco Hea Hre]).
  split_and!; [lia|..|done].
  - intros i t Hi. destruct (Forall2_lookup_r _ _ _ _ _ Hth Hi) as (prog & _ & Hs & _). by destruct t.
  - intros i t cs Hi Hcs Hw. destruct (Forall2_lookup_r _ _ _ _ _ Hth Hi) as (prog & Hp & _ & _ & Hl). apply Hl.
    rewrite (list_lookup_fmap (program call_code)), Hcs in Hp. injection Hp as <-.
    by rewrite (proj2 (proj2 (program_measures call_code cs))).
  - intros Hfree Hle i t Hi. destruct (asleep t) eqn:Ha; [|done].
    destruct (Hwo i t Hi Ha Hle) as [_ (j & t' & Hj & Hn)].
    rewrite (critical_owner s mds _ _ j t' Hd Hth Hj) in Hfree; [done|]. unfold critical. by rewrite Hn, orb_true_r.
Qed.

(** C31. Latches, liveness.  If enough threads count down before they wait, then
    every run ends, after at most [(5 N + 10)] steps per call (plus [4 N], and 5 for
    each spurious wakeup) with [N] threads; and a run that cannot go on has ended: every
    call of every thread has returned, and the count is [c0] less all decrements. *)
Theorem latch_finishes call_code c0 css k l s :
  call_code = CountDownLatch.call_code \/ call_code = Waiter.call_code ->
  - 2 ^ 31 <= c0 - total css -> c0 < 2 ^ 31 -> c0 <= total_early css ->
  run k l (system call_code c0 css) s ->
  Z.of_nat k <= (5 * zlen css + 10) * zsum zlen css + 4 * zlen css + 5 * Z.of_nat l /\
  (stuck s -> all_finished s = true /\ count_ (data s) = c0 - total css).
Proof.
  intros Hcode Hlo Hhi Hearly Hr. assert (LatchCode call_code) by (destruct Hcode as [-> | ->]; apply _).
  destruct (system_inv call_code c0 css k l s Hlo Hhi Hr) as (mds & Hd & Hf & Hinv).
  split; [by eapply system_bound|]. intros Hst. apply (stuck_finished s mds c0 css (map (program call_code) css)); try done.
  by rewrite (proj2 (Z.leb_le c0 (total_early css)) Hearly) in Hinv.
Qed.

(** One thread waits, another counts down. *)
Definition demo (ids : list nat) : state :=
  default (system CountDownLatch.call_code 1 []) (schedule ids (system CountDownLatch.call_code 1 [[Wait]; [CountDown]])).
Definition all_steps : list nat := repeat 0%nat 6 ++ repeat 1%nat 10 ++ repeat 0%nat 6.

(** After six steps the waiter sleeps, and the count is still positive. *)
Lemma latch_safe_witness :
  threads (demo (repeat 0%nat 6)) !! 0%nat = Some (Asleep 0 [assign_holder 0] (skipn 1 CountDownLatch.wait)) /\
  count_ (data (demo (repeat 0%nat 6))) = 1.
Proof.
  destruct (latch_safe CountDownLatch.call_code 1 [[Wait]; [CountDown]] 6 0 (demo (repeat 0%nat 6)))
    as (Hc & _); [by left|vm_compute; congruence|done|apply (schedule_run (repeat 0%nat 6)); reflexivity|].
  split; [reflexivity|]. rewrite Hc. reflexivity.
Defined.

(** The run in which the waiter sleeps, is woken and returns. *)
Lemma latch_finishes_witness :
  all_finished (demo all_steps) = true /\ count_ (data (demo all_steps)) = 0.
Proof.
  destruct (latch_finishes CountDownLatch.call_code 1 [[Wait]; [CountDown]] 22 0 (demo all_steps))
    as (_ & H); [by left|vm_compute; congruence|done|vm_compute; congruence|apply (schedule_run all_steps); reflexivity|].
  apply H. intros [|[|i]]; reflexivity.
Defined.

End LatchProofs.
