(* ===== verification/Threads.v ===== *)
(** Threads and threads that run an event loop: src/libel/base/Thread.cpp ([Thread])
    and src/libel/net/eventloop_thread.cpp ([EventLoopThread]), as programs of the
    machine of [Monitor].  Each system has two threads, the one that owns the object
    and the one it starts; their properties are established over all interleavings
    by exhaustive exploration, and the bound of [Monitor] excludes endless runs. *)

From S2P Require Import Prelude NumText TimeText Monitor Latch.
Import Monitor.

(** ** Thread.cpp *)
Module Thread.

Inductive update :=
  | OnWaiter (u : LatchData.update)
  | SetStarted (b : bool)
  | Create                    (* pthread_create has succeeded *)
  | WriteTid                  (* *tid_ = CurrentThread::tid() *)
  | WriteName                 (* CurrentThread::threadName = ... *)
  | CallFunc                  (* func_(user_data_) begins *)
  | Exit                      (* startThread returns *)
  | SetJoined
  | Detach
  | StartReturned.            (* history: start() has returned *)

Inductive test :=
  | WaiterTest (t : LatchData.test)
  | IsStarted | NotStarted | NotJoined | StartedNotJoined | Created | TidPositive | HasExited.

Record t := mk {
  started_ : bool;
  joined_ : bool;
  tid_ : Z;
  waiter_ : LatchData.t;
  created : bool;             (* the new thread may run *)
  nameSet : bool;             (* its CurrentThread::threadName is set *)
  called : Z;                 (* how often func_ has been called *)
  exited : bool;
  detached : bool;
  returned : bool;
}.

#[global] Instance update_eq_dec : EqDecision update.
Proof. solve_decision. Defined.
#[global] Instance test_eq_dec : EqDecision test.
Proof. solve_decision. Defined.
#[global] Instance t_eq_dec : EqDecision t.
Proof. solve_decision. Defined.

(** The members the constructor sets. *)
Definition new : t := mk false false 0 (Waiter.new 1) false false 0 false false false.

Definition run_update (i : nat) (u : update) (d : t) : t :=
  let '(mk st jo td wa cr nm ca ex de re) := d in
  match u with
  | OnWaiter u => mk st jo td (apply i u wa) cr nm ca ex de re
  | SetStarted b => mk b jo td wa cr nm ca ex de re
  | Create => mk st jo td wa true nm ca ex de re
  | WriteTid => mk st jo (gettid i) wa cr nm ca ex de re
  | WriteName => mk st jo td wa cr true ca ex de re
  | CallFunc => mk st jo td wa cr nm (ca + 1) ex de re
  | Exit => mk st jo td wa cr nm ca true de re
  | SetJoined => mk st true td wa cr nm ca ex de re
  | Detach => mk st jo td wa cr nm ca ex true re
  | StartReturned => mk st jo td wa cr nm ca ex de true
  end.

Definition run_test (b : test) (d : t) : bool :=
  match b with
  | WaiterTest b => holds b (waiter_ d)
  | IsStarted => started_ d
  | NotStarted => negb (started_ d)
  | NotJoined => negb (joined_ d)
  | StartedNotJoined => started_ d && negb (joined_ d)
  | Created => created d
  | TidPositive => 0 <? tid_ d
  | HasExited => exited d
  end.

#[global] Instance interp : Interp update test t := {| apply := run_update; holds := run_test |}.

(** The code, for use in a larger system in which the names are [eU] and [eT].  The
    waiter's mutex is number 0.  [ok] says whether [pthread_create] succeeds. *)
Section code.
Context {U T : Type} (eU : update -> U) (eT : test -> T).

Definition on_waiter (c : LatchData.code) : list (act U T) :=
  lift (fun m => m) (fun u => eU (OnWaiter u)) (fun b => eT (WaiterTest b)) c.

Definition start (ok : bool) : list (act U T) :=
  Do [assert_that (eT NotStarted); unguarded (eU (SetStarted true))] ::
  (if ok then
     Do [unguarded (eU Create)] :: on_waiter Waiter.wait ++ [Do [assert_that (eT TidPositive)]]
   else [Do [unguarded (eU (SetStarted false))]]) ++
  [Do [unguarded (eU StartReturned)]].

(** [ThreadData::runInThread] around the body of [func_], and [startThread]. *)
Definition runInThread (func : list (act U T)) : list (act U T) :=
  Do [unguarded (eU WriteTid); unguarded (eU WriteName)] :: on_waiter Waiter.finish ++
  Do [unguarded (eU CallFunc)] :: func.
Definition startThread (func : list (act U T)) : list (act U T) :=
  Do [block_until (eT Created)] :: runInThread func ++ [Do [unguarded (eU Exit)]].

Definition join : list (prim U T) :=
  [assert_that (eT IsStarted); assert_that (eT NotJoined); unguarded (eU SetJoined);
   block_until (eT HasExited)].

Definition destroy : list (act U T) := [If None (eT StartedNotJoined) [unguarded (eU Detach)]].

End code.

(** [setDefaultName]: the counter is a [std::atomic<int32_t>]; the buffer has 32 bytes. *)
Definition setDefaultName (counts_ : Z) (thread_name_ : bytes) : Z * bytes :=
  let counts_ := int32 (counts_ + 1) in
  let num := counts_ in
  (counts_,
   if bool_decide (thread_name_ = []) then CTime.snprintf 32 (str "Thread" ++ CTime.fmt_d false 0 num) else thread_name_).

(** The name the new thread gives itself. *)
Definition threadName (thread_name_ : bytes) : bytes :=
  if bool_decide (thread_name_ = []) then str "Thread" else thread_name_.

Definition state := Monitor.state update test t.

(** The owner starts the thread, joins it or not, and destroys the object. *)
Definition system (ok joins : bool) : state :=
  init new 1
    [start id id ok ++ (if joins then [Do (join id id)] else []) ++ destroy id id; startThread id id []].

(** The facts of [thread_lifecycle] as a test of a state. *)
Definition good (ok joins : bool) (s : state) : bool :=
  let d := data s in
  forallb (fun x => negb (crashed x)) (threads s) &&
  implb (returned d) (if ok then started_ d && (tid_ d =? gettid 1) && nameSet d else negb (started_ d)) &&
  (called d <=? if ok then 1 else 0) && implb (called d =? 1) ((tid_ d =? gettid 1) && nameSet d) &&
  implb (stuckb s)
    (bool_decide (finished <$> threads s !! 0%nat = Some true) &&
     (if ok then all_finished s && (called d =? 1) && eqb (joined_ d) joins && eqb (detached d) (negb joins)
      else called d =? 0)).

Lemma thread_all_checked ok joins : implb joins ok = true -> everywhere (good ok joins) 2000 (system ok joins) = true.
Proof. destruct ok, joins; try done; vm_compute; reflexivity. Qed.

Lemma thread_system_fits ok joins : fits 2 (system ok joins) /\ cost 2 (system ok joins) <= 52.
Proof. destruct ok, joins; (split; [by apply init_fits|vm_compute; congruence]). Qed.

(** C32. [Thread].  The owner calls [start], then [join] or not, and destroys the
    object, while the new thread runs [startThread]; [pthread_create] may fail.  Over
    all interleavings no assertion fails (in particular [assert(tid_ > 0)]); when
    [start] has returned, either the new thread's id and name are in place, or there
    is no thread and [started_] is false; the body is called at most once and never
    before id and name are set; every run ends (at most 60 steps, 5 more for each
    spurious wakeup); and when nothing can go on the owner has finished and the new
    thread has run its body and returned, joined or detached. *)
Theorem thread_lifecycle ok joins k l s :
  implb joins ok = true -> run k l (system ok joins) s ->
  (forall i x, threads s !! i = Some x -> crashed x = false) /\
  (returned (data s) = true ->
     if ok then started_ (data s) = true /\ tid_ (data s) = gettid 1 /\ nameSet (data s) = true
     else started_ (data s) = false) /\
  (called (data s) <= if ok then 1 else 0) /\
  (called (data s) = 1 -> tid_ (data s) = gettid 1 /\ nameSet (data s) = true) /\
  Z.of_nat k <= 60 + 5 * Z.of_nat l /\
  (stuck s ->
     finished <$> threads s !! 0%nat = Some true /\
     if ok then all_finished s = true /\ called (data s) = 1 /\ joined_ (data s) = joins /\ detached (data s) = negb joins
     else called (data s) = 0).
Proof.
  intros Hj Hr. pose proof (explored (good ok joins) 2000 _ (thread_all_checked ok joins Hj) k l s Hr) as Hg.
  unfold good in Hg. rewrite !andb_true_iff in Hg. destruct Hg as ((((Hc & Hret) & Hca) & Hset) & Hst).
  split_and!.
  - intros i x Hi. rewrite forallb_forall in Hc. apply negb_true_iff, Hc, list_elem_of_In. by eapply list_elem_of_lookup_2.
  - intros E. rewrite E in Hret. simpl in Hret. destruct ok; [|by apply negb_true_iff].
    rewrite !andb_true_iff, Z.eqb_eq in Hret. tauto.
  - by apply Z.leb_le.
  - intros E. rewrite (proj2 (Z.eqb_eq _ _) E) in Hset. simpl in Hset. by rewrite andb_true_iff, Z.eqb_eq in Hset.
  - destruct (thread_system_fits ok joins) as [Hf Hcost]. pose proof (run_bound 2 k l _ s Hr Hf). lia.
  - intros E%stuckb_spec. rewrite E in Hst. simpl in Hst. rewrite andb_true_iff, bool_decide_eq_true in Hst.
    destruct Hst as [H0 H1]. split; [done|]. destruct ok; [|by apply Z.eqb_eq].
    rewrite !andb_true_iff, Z.eqb_eq, !eqb_true_iff in H1. tauto.
Qed.

(** The steps in which the owner sleeps in [start] until the new thread wakes it. *)
Definition sleepy : list nat := repeat 0%nat 9 ++ repeat 1%nat 13 ++ repeat 0%nat 8.

Definition started : state := default (system true true) (schedule sleepy (system true true)).

Lemma thread_lifecycle_witness : tid_ (data started) = 2 /\ nameSet (data started) = true.
Proof.
  destruct (thread_lifecycle true true (length sleepy) 0 started) as (_ & H & _);
    [reflexivity|apply (schedule_run sleepy); vm_compute; reflexivity|].
  apply H. vm_compute. reflexivity.
Defined.

End Thread.

(** ** eventloop_thread.cpp *)
Module EventLoopThread.

Inductive update :=
  | OnThread (u : Thread.update)
  | ConstructLoop | DestroyLoop          (* EventLoop loop; on the thread's stack *)
  | CallCallback                         (* callback_(&loop) *)
  | Publish                              (* loop_ = &loop *)
  | ReadLoop                             (* loop = loop_ in startLoop *)
  | Clear                                (* loop_ = nullptr *)
  | Quit                                 (* loop_->quit() *)
  | QueueQuit                            (* the owner: loop->runInLoop(std::bind(quit, loop)) *)
  | RunFunctors                          (* the functors queued run in loop.loop() *)
  | SetExiting.

Inductive test :=
  | ThreadTest (t : Thread.test)
  | LoopIsNull | LoopNotNull | HasCallback | QuitRequested | LoopHasWork.

(** [callback_] is the user's callback, if any, and says whether it quits the loop.
    [alive] says that the loop exists, [wild] that a member function was called
    on a loop that does not.  [result] is what [startLoop] has returned: a pointer to
    the living loop or not.  [queued] says that the user has handed the loop a functor
    that quits it. *)
Record t := mk {
  thread_ : Thread.t;
  loop_ : bool;
  exiting_ : bool;
  callback_ : option bool;
  alive : bool;
  quit_ : bool;
  wild : bool;
  callbacks : Z;
  result : option bool;
  queued : bool;
}.

#[global] Instance update_eq_dec : EqDecision update.
Proof. solve_decision. Defined.
#[global] Instance test_eq_dec : EqDecision test.
Proof. solve_decision. Defined.
#[global] Instance t_eq_dec : EqDecision t.
Proof. solve_decision. Defined.

Definition new (cb : option bool) : t := mk Thread.new false false cb false false false 0 None false.

Definition run_update (i : nat) (u : update) (d : t) : t :=
  let '(mk th lo ex cb al qu wi ca re fu) := d in
  match u with
  | OnThread u => mk (apply i u th) lo ex cb al qu wi ca re fu
  | ConstructLoop => mk th lo ex cb true false wi ca re fu
  | DestroyLoop => mk th lo ex cb false qu wi ca re fu
  | CallCallback => mk th lo ex cb al (qu || default false cb) wi (ca + 1) re fu
  | Publish => mk th true ex cb al qu wi ca re fu
  | ReadLoop => mk th lo ex cb al qu wi ca (Some (lo && al)) fu
  | Clear => mk th false ex cb al qu wi ca re fu
  | Quit => mk th lo ex cb al true (wi || negb al) ca re fu
  | QueueQuit => mk th lo ex cb al qu (wi || negb al) ca re true
  | RunFunctors => mk th lo ex cb al (qu || fu) wi ca re fu
  | SetExiting => mk th lo true cb al qu wi ca re fu
  end.

Definition run_test (b : test) (d : t) : bool :=
  match b with
  | ThreadTest b => holds b (thread_ d)
  | LoopIsNull => negb (loop_ d)
  | LoopNotNull => loop_ d
  | HasCallback => bool_decide (callback_ d <> None)
  | QuitRequested => quit_ d
  | LoopHasWork => quit_ d || queued d
  end.

#[global] Instance interp : Interp update test t := {| apply := run_update; holds := run_test |}.

(** The code.  [mutex_] is number 1.  [loop.loop()] runs the functors handed to it and
    returns when [quit_] is set. *)
Abbreviation code := (list (act update test)).

Definition startLoop (ok : bool) : code :=
  Do [assert_that (ThreadTest Thread.NotStarted)] :: Thread.start OnThread ThreadTest ok ++
  MutexLock.MutexLockGuard 1
    [While (Some 1%nat) LoopIsNull (Condition.wait 1); Do [guarded 1 ReadLoop]].

Definition threadFunc : code :=
  Do [unguarded ConstructLoop] :: If None HasCallback [unguarded CallCallback] ::
  MutexLock.MutexLockGuard 1 [Do (guarded 1 Publish :: Condition.notify 1)] ++
  Do [block_until LoopHasWork; unguarded RunFunctors; block_until QuitRequested] ::
  MutexLock.MutexLockGuard 1 [Do [guarded 1 Clear]] ++ [Do [unguarded DestroyLoop]].

Definition destroy : code :=
  [Do [unguarded SetExiting];
   If None LoopNotNull (unguarded Quit :: Thread.join OnThread ThreadTest)] ++
  Thread.destroy OnThread ThreadTest.

Definition state := Monitor.state update test t.

(** The owner calls [startLoop], the user hands the loop a functor that quits it or not
    ([user], as in the third part of net/tests/eventloop_thread_test.cpp), and the owner
    destroys the object. *)
Definition system (ok : bool) (cb : option bool) (user : bool) : state :=
  init (new cb) 2
    [startLoop ok ++ (if user then [Do [unguarded QueueQuit]] else []) ++ destroy;
     Thread.startThread OnThread ThreadTest threadFunc].

Definition calls (cb : option bool) : Z := if cb is Some _ then 1 else 0.

(** The facts of [eventLoopThread_lifecycle] as a test of a state. *)
Definition good (cb : option bool) (user : bool) (s : state) : bool :=
  let d := data s in
  forallb (fun x => negb (crashed x)) (threads s) && implb (wild d) user &&
  bool_decide (result d <> Some false) &&
  implb (loop_ d) (alive d && (callbacks d =? calls cb)) &&
  implb (stuckb s)
    (all_finished s && negb (loop_ d) && negb (alive d) && (callbacks d =? calls cb) &&
     bool_decide (result d = Some true) && xorb (Thread.joined_ (thread_ d)) (Thread.detached (thread_ d)) &&
     (user || Thread.joined_ (thread_ d))).

Lemma loopThread_all_checked cb user :
  cb <> Some true -> everywhere (good cb user) 4000 (system true cb user) = true.
Proof. intros Hcb. destruct cb as [[]|], user; try (by destruct Hcb); vm_compute; reflexivity. Qed.

Lemma loopThread_system_fits cb user :
  cb <> Some true -> fits 2 (system true cb user) /\ cost 2 (system true cb user) <= 102.
Proof.
  intros Hcb. destruct cb as [[]|], user; try (by destruct Hcb); (split; [by apply init_fits|vm_compute; congruence]).
Qed.


(** The owner sleeps in [start], then in [startLoop]; the thread wakes it both times. *)
Definition to_published : list nat :=
  repeat 0%nat 11 ++ repeat 1%nat 15 ++ repeat 0%nat 14 ++ repeat 1%nat 12 ++ repeat 0%nat 5.
Definition after (ok : bool) (cb : option bool) (user : bool) (ids : list nat) : state :=
  default (system ok cb user) (schedule ids (system ok cb user)).


(** The user quits the loop while the owner is in the destructor, between its test of
    [loop_] and the call of [quit()]: the call reaches a loop that is gone, as the comment
    in the destructor says. *)
Definition to_wild : list nat := to_published ++ repeat 0%nat 8 ++ repeat 1%nat 14 ++ [0%nat].
Theorem eventLoopThread_quits_dead_loop :
  exists k s, run k 0 (system true None true) s /\ wild (data s) = true.
Proof.
  exists (length to_wild), (after true None true to_wild).
  split; [apply (schedule_run to_wild); vm_compute; reflexivity|vm_compute; reflexivity].
Qed.

Definition to_hang : list nat :=
  repeat 0%nat 11 ++ repeat 1%nat 15 ++ repeat 0%nat 8 ++ repeat 1%nat 29 ++ repeat 0%nat 6.

(** When the callback quits the loop, or [pthread_create] fails, [startLoop] can wait
    for ever: a state in which nothing can go on and the owner sleeps. *)
Theorem eventLoopThread_hangs :
  (exists k s, run k 0 (system true (Some true) false) s /\ stuck s /\
     (sleeps_on 1 <$> threads s !! 0%nat) = Some true /\ result (data s) = None) /\
  (exists k s, run k 0 (system false None false) s /\ stuck s /\
     (sleeps_on 1 <$> threads s !! 0%nat) = Some true /\ result (data s) = None).
Proof.
  split.
  - exists (length to_hang), (after true (Some true) false to_hang).
    split; [apply (schedule_run to_hang); vm_compute; reflexivity|].
    split; [apply stuckb_spec; vm_compute; reflexivity|vm_compute; split; reflexivity].
  - exists 16%nat, (after false None false (1%nat :: repeat 0%nat 15)).
    split; [apply (schedule_run (1%nat :: repeat 0%nat 15)); vm_compute; reflexivity|].
    split; [apply stuckb_spec; vm_compute; reflexivity|vm_compute; split; reflexivity].
Qed.

End EventLoopThread.
