(* ===== verification/AsyncLog.v ===== *)
(** The logging back end: appending to a file (src/libel/base/fileutil.h,
    fileutil.cpp), rolling log files (logfile.h, logfile.cpp) and the double
    buffering between the threads that log and the thread that writes
    (asynlogging.h, asynlogging.cpp). *)

From S2P Require Import Prelude NumText TimeText LogText.

(** What the sources use of <cstdio>: whether [fopen] succeeds, and how many bytes
    [fwrite] takes of [data] when the stream has taken [before] so far. *)
Class Stdio := {
  fopen_ok : bytes -> bool;
  fwrite : bytes -> bytes -> Z;
}.
(** [fwrite] returns at most the number of bytes offered. *)
Class StdioLaws `{Stdio} := { fwrite_range before data : 0 <= fwrite before data <= zlen data }.

(** The two ways the disk can fail: [fopen] refuses a name, and [fwrite] takes nothing
    of what it is offered. *)
Definition files_open `{Stdio} : Prop := forall name, fopen_ok name = true.
Definition writes_progress `{Stdio} : Prop := forall before data, 0 < zlen data -> 0 < fwrite before data.

(** The computation returns a value with [P], unless an [fopen] was refused: then it
    stops at the assertion on the stream. *)
Definition or_refused `{Stdio} {A} (m : outcome A) (P : A -> Prop) : Prop :=
  match m with
  | Ok x => P x
  | Fault e => e = AssertFailed /\ exists name, fopen_ok name = false
  end.

Section refused.
Context `{Stdio}.

Lemma or_refused_mono {A} (m : outcome A) (P Q : A -> Prop) :
  or_refused m P -> (forall x, P x -> Q x) -> or_refused m Q.
Proof. destruct m; simpl; auto. Qed.

Lemma or_refused_bind {A B} (m : outcome A) (f : A -> outcome B) P Q :
  or_refused m P -> (forall x, P x -> or_refused (f x) Q) -> or_refused (x ← m ; f x) Q.
Proof. destruct m; simpl; auto. Qed.

Lemma or_refused_opens {A} (m : outcome A) (P : A -> Prop) :
  files_open -> or_refused m P -> exists x, m = Ok x /\ P x.
Proof. intros Ho. destruct m; simpl; [eauto|]. intros [_ [name Hn]]. by rewrite Ho in Hn. Qed.
End refused.

Module AppendFile.
Section append.
Context `{Stdio}.

(** [taken] is what stdio has been given, [flushed] what it has passed on. *)
Record t := mk { name : bytes; taken : bytes; flushed : bytes; writtenBytes_ : Z }.

Definition new (file_name : bytes) : outcome t :=
  _ ← assert_ (fopen_ok file_name) ;
  mret {| name := file_name; taken := []; flushed := []; writtenBytes_ := 0 |}.

(** The loop of [append]: [rest] is what remains of the line. *)
Fixpoint append_loop (fuel : nat) (disk rest : bytes) : outcome bytes :=
  match fuel with
  | O => Fault OutOfFuel
  | S fuel =>
      if zlen rest <=? 0 then mret disk
      else
        let cur_cnt := fwrite disk rest in
        if cur_cnt =? 0 then mret disk                     (* reported on stderr *)
        else append_loop fuel (disk ++ take (Z.to_nat cur_cnt) rest) (drop (Z.to_nat cur_cnt) rest)
  end.

Definition append (a : t) (logline : bytes) : outcome t :=
  let cnt := fwrite (taken a) logline in
  disk ← append_loop (S (length logline)) (taken a ++ take (Z.to_nat cnt) logline)
           (drop (Z.to_nat cnt) logline) ;
  mret {| name := name a; taken := disk; flushed := flushed a;
          writtenBytes_ := size_t (writtenBytes_ a + zlen logline) |}.

Definition flush (a : t) : t :=
  {| name := name a; taken := taken a; flushed := taken a; writtenBytes_ := writtenBytes_ a |}.

(** [~AppendFile]: [fclose] passes on what the stream still holds. *)
Definition destroy (a : t) : t :=
  {| name := name a; taken := taken a; flushed := taken a; writtenBytes_ := writtenBytes_ a |}.

Context {SL : StdioLaws}.

(** Of [line] the stream took [got]: all of it, or it stopped at a write that took
    nothing of the rest. *)
Definition taken_of (line got : bytes) : Prop :=
  exists rest, line = got ++ rest /\ (rest <> [] -> exists before, fwrite before rest = 0).

Lemma taken_all line got : writes_progress -> taken_of line got -> got = line.
Proof.
  intros Hp (rest & -> & Hr). destruct rest as [|x rest]; [by rewrite app_nil_r|].
  destruct Hr as [before Hz]; [done|]. pose proof (Hp before (x :: rest)) as Hpos.
  rewrite zlen_cons in Hpos. pose proof (zlen_nonneg rest). lia.
Qed.

(** Whatever the disk does, the loop ends. *)
Lemma append_loop_spec fuel disk rest :
  (length rest < fuel)%nat ->
  exists got, append_loop fuel disk rest = Ok (disk ++ got) /\ taken_of rest got.
Proof.
  revert disk rest. induction fuel as [|fuel IH]; intros disk rest Hf; [lia|]. cbn [append_loop].
  assert (forall d, d = disk -> exists got, mret d = Ok (disk ++ got) /\ got = []) as Hnone
    by (intros d ->; exists []; by rewrite app_nil_r).
  destruct (Z.leb_spec (zlen rest) 0) as [Hz|Hz].
  { destruct (Hnone disk eq_refl) as (got & -> & ->). exists []. split; [done|]. exists rest. split; [done|].
    destruct rest; [done|]. rewrite zlen_cons in Hz. pose proof (zlen_nonneg rest). lia. }
  destruct (Z.eqb_spec (fwrite disk rest) 0) as [E|E].
  { destruct (Hnone disk eq_refl) as (got & -> & ->). exists []. split; [done|]. exists rest. eauto. }
  pose proof (fwrite_range disk rest). set (k := Z.to_nat (fwrite disk rest)).
  destruct (IH (disk ++ take k rest) (drop k rest)) as (got & -> & left & Hd & Hl);
    [rewrite length_drop; unfold zlen in *; lia|].
  exists (take k rest ++ got). rewrite app_assoc. split; [done|]. exists left. split; [|done].
  by rewrite <- app_assoc, <- Hd, take_drop.
Qed.

Lemma append_spec_file a line :
  exists a' got, append a line = Ok a' /\ taken a' = taken a ++ got /\ taken_of line got /\
    flushed a' = flushed a /\ writtenBytes_ a' = size_t (writtenBytes_ a + zlen line).
Proof.
  unfold append. set (k := Z.to_nat (fwrite (taken a) line)).
  destruct (append_loop_spec (S (length line)) (taken a ++ take k line) (drop k line))
    as (got & -> & rest & Hd & Hr); [rewrite length_drop; lia|].
  rewrite bind_ok. eexists _, (take k line ++ got). split; [done|]. simpl. rewrite app_assoc.
  split_and!; try done. exists rest. split; [|done]. by rewrite <- app_assoc, <- Hd, take_drop.
Qed.

Lemma new_spec_file nm :
  or_refused (new nm) (fun a => taken a = [] /\ flushed a = [] /\ writtenBytes_ a = 0).
Proof. unfold new. destruct (fopen_ok nm) eqn:E; simpl; eauto. Qed.
End append.
End AppendFile.

Module LogFile.
Section logfile.
Context `{Stdio}.

Definition DaySeconds : Z := 24 * 60 * 60.

(** [closed] are the files rolled out, in order; closing a file flushes it.  [history]
    is, for every line appended, the line and what the stream took of it. *)
Record t := mk {
  basename_ : bytes;
  rollSize_ : Z;
  flushIntervalSeconds_ : Z;
  checkEveryN_ : Z;
  count_ : Z;
  startOfPeriod_ : Z;
  lastRoll_ : Z;
  lastFlush_ : Z;
  appendFile_ : option AppendFile.t;
  closed : list AppendFile.t;
  history : list (bytes * bytes);
}.

Definition with_file (l : t) (count startOfPeriod lastRoll lastFlush : Z)
  (file : option AppendFile.t) (cl : list AppendFile.t) : t :=
  {| basename_ := basename_ l; rollSize_ := rollSize_ l; flushIntervalSeconds_ := flushIntervalSeconds_ l;
     checkEveryN_ := checkEveryN_ l; count_ := count; startOfPeriod_ := startOfPeriod;
     lastRoll_ := lastRoll; lastFlush_ := lastFlush; appendFile_ := file; closed := cl; history := history l |}.

Definition note (l : t) (x : bytes * bytes) : t :=
  {| basename_ := basename_ l; rollSize_ := rollSize_ l; flushIntervalSeconds_ := flushIntervalSeconds_ l;
     checkEveryN_ := checkEveryN_ l; count_ := count_ l; startOfPeriod_ := startOfPeriod_ l;
     lastRoll_ := lastRoll_ l; lastFlush_ := lastFlush_ l; appendFile_ := appendFile_ l; closed := closed l;
     history := history l ++ [x] |}.

(** strftime(".%Y%m%d-%H%M%S.") into 32 bytes: nothing is stored if it does not fit. *)
Definition date_text (now : Z) : bytes :=
  let t := CTime.gmtime_r now in
  let text := str "." ++ CTime.fmt_d false 0 (CTime.tm_year t + 1900) ++
    CTime.fmt_d true 2 (CTime.tm_mon t + 1) ++ CTime.fmt_d true 2 (CTime.tm_mday t) ++ str "-" ++
    CTime.fmt_d true 2 (CTime.tm_hour t) ++ CTime.fmt_d true 2 (CTime.tm_min t) ++
    CTime.fmt_d true 2 (CTime.tm_sec t) ++ str "." in
  if zlen text <? 32 then text else [].

Definition getLogFileName (pid : Z) (basename : bytes) (now : Z) : bytes :=
  basename ++ date_text now ++ CTime.snprintf 32 (CTime.fmt_d false 0 pid) ++ str ".log".

(** [now] is what time() answers, [pid] what getpid() answers. *)
Definition rollFile (pid now : Z) (l : t) : outcome (bool * t) :=
  let newFileName := getLogFileName pid (basename_ l) now in
  let today := now `quot` DaySeconds * DaySeconds in
  if lastRoll_ l <? now then
    f ← AppendFile.new newFileName ;
    mret (true, with_file l (count_ l) today now now (Some f)
                  (closed l ++ match appendFile_ l with
                               | Some old => [AppendFile.destroy old]
                               | None => []
                               end))
  else mret (false, l).

Definition new (pid now : Z) (basename : bytes) (rollSize flushIntervalSeconds checkEveryN : Z) : outcome t :=
  r ← rollFile pid now
    {| basename_ := basename; rollSize_ := rollSize; flushIntervalSeconds_ := flushIntervalSeconds;
       checkEveryN_ := checkEveryN; count_ := 0; startOfPeriod_ := 0; lastRoll_ := 0; lastFlush_ := 0;
       appendFile_ := None; closed := []; history := [] |} ;
  mret r.2.

Definition append (pid now : Z) (l : t) (logline : bytes) : outcome t :=
  file ← deref (appendFile_ l) ;
  f ← AppendFile.append file logline ;
  let l := with_file l (count_ l) (startOfPeriod_ l) (lastRoll_ l) (lastFlush_ l) (Some f) (closed l) in
  let l := note l (logline, drop (length (AppendFile.taken file)) (AppendFile.taken f)) in
  if rollSize_ l <? AppendFile.writtenBytes_ f then
    r ← rollFile pid now l ; mret r.2
  else
    let count := count_ l + 1 in
    if checkEveryN_ l <=? count then
      let l := with_file l 0 (startOfPeriod_ l) (lastRoll_ l) (lastFlush_ l) (Some f) (closed l) in
      let today := now `quot` DaySeconds * DaySeconds in
      if negb (today =? startOfPeriod_ l) then
        r ← rollFile pid now l ; mret r.2                  (* now is a new day *)
      else if flushIntervalSeconds_ l <? now - lastFlush_ l then
        mret (with_file l 0 (startOfPeriod_ l) (lastRoll_ l) now (Some (AppendFile.flush f)) (closed l))
      else mret l
    else mret (with_file l count (startOfPeriod_ l) (lastRoll_ l) (lastFlush_ l) (Some f) (closed l)).

Definition flush (l : t) : outcome t :=
  f ← deref (appendFile_ l) ;
  mret (with_file l (count_ l) (startOfPeriod_ l) (lastRoll_ l) (lastFlush_ l)
          (Some (AppendFile.flush f)) (closed l)).

(** Everything the log's files have taken, in order, and everything they were given. *)
Definition written (l : t) : bytes :=
  concat (map AppendFile.taken (closed l)) ++
  match appendFile_ l with Some f => AppendFile.taken f | None => [] end.
Definition handed (l : t) : bytes := concat (map fst (history l)).

(** The files rolled out were closed with everything they took; what was taken of each
    line is known. *)
Record kept (l : t) : Prop := {
  kept_closed : Forall (fun f => AppendFile.flushed f = AppendFile.taken f) (closed l);
  kept_written : written l = concat (map snd (history l));
  kept_taken : Forall (fun x => AppendFile.taken_of x.1 x.2) (history l);
}.

(** A log that can be written to has a file. *)
Definition open (l : t) : Prop := is_Some (appendFile_ l) /\ kept l.

Context {SL : StdioLaws}.

Definition size (l : t) : Z :=
  match appendFile_ l with Some f => AppendFile.writtenBytes_ f | None => 0 end.

Lemma kept_all l : kept l -> writes_progress -> written l = handed l.
Proof.
  intros [_ Hw Ht] Hp. rewrite Hw. unfold handed. clear Hw. induction Ht as [|x h Hx _ IH]; [done|]. simpl.
  by rewrite IH, (AppendFile.taken_all x.1 x.2).
Qed.

Lemma rollFile_spec pid now l :
  kept l ->
  or_refused (rollFile pid now l) (fun r => kept r.2 /\ history r.2 = history l /\ rollSize_ r.2 = rollSize_ l /\
    if lastRoll_ l <? now then is_Some (appendFile_ r.2) /\ size r.2 = 0 /\ lastRoll_ r.2 = now
    else r.2 = l).
Proof.
  intros [Hcl Hw Ht]. unfold rollFile. destruct (lastRoll_ l <? now); [|by simpl].
  eapply or_refused_bind; [apply AppendFile.new_spec_file|]. intros f (Htk & Hf & Hwb). simpl.
  split_and!; try done. constructor; [| |done].
  - apply Forall_app. split; [done|]. destruct (appendFile_ l); by repeat constructor.
  - simpl. rewrite <- Hw. unfold written. simpl. rewrite map_app, concat_app, Htk, app_nil_r.
    f_equal. destruct (appendFile_ l); simpl; by rewrite ?app_nil_r.
Qed.

Lemma new_open pid now basename rollSize fi n :
  0 < now ->
  or_refused (new pid now basename rollSize fi n)
    (fun l => open l /\ history l = [] /\ rollSize_ l = rollSize).
Proof.
  intros Hn. unfold new. eapply or_refused_bind; [apply rollFile_spec; by constructor|].
  intros [r l] (Hk & Hh & Hr & Hcase). revert Hcase. simpl in *. destruct (Z.ltb_spec 0 now); [|lia].
  intros (? & _). by split.
Qed.

(** The file has taken what it could of a line. *)
Lemma kept_append l f f' got line :
  kept l -> appendFile_ l = Some f -> AppendFile.taken f' = AppendFile.taken f ++ got ->
  AppendFile.taken_of line got ->
  forall l2, closed l2 = closed l -> history l2 = history l ++ [(line, got)] ->
    (appendFile_ l2 = Some f' \/ appendFile_ l2 = Some (AppendFile.flush f')) -> open l2.
Proof.
  intros [Hcl Hw Ht] Hf Htk Hg l2 Hc2 Hh2 Hf2. split; [destruct Hf2 as [-> | ->]; eauto|]. constructor.
  - by rewrite Hc2.
  - rewrite Hh2, map_app, concat_app, <- Hw. unfold written. rewrite Hc2, Hf. simpl. rewrite app_nil_r.
    destruct Hf2 as [-> | ->]; simpl; by rewrite Htk, app_assoc.
  - rewrite Hh2. apply Forall_app. split; [done|]. by repeat constructor.
Qed.

(** Appending hands the line to a file, whether the log is rolled or not; an oversized
    file survives only if the log was rolled within the same second. *)
Lemma append_spec_log pid now l line :
  open l -> 0 <= rollSize_ l ->
  or_refused (append pid now l line) (fun l' => open l' /\ handed l' = handed l ++ line /\
    rollSize_ l' = rollSize_ l /\ (rollSize_ l' < size l' -> now <= lastRoll_ l')).
Proof.
  intros [[f Hf] Hk] Hrs. unfold append. rewrite Hf. cbn [deref]. rewrite bind_ok.
  destruct (AppendFile.append_spec_file f line) as (f' & got & -> & Ht & Hg & _ & Hw). rewrite bind_ok.
  set (l1 := note _ _).
  assert (history l1 = history l ++ [(line, got)]) as Hh1 by (simpl; by rewrite Ht, drop_app_length).
  assert (forall l2, history l2 = history l1 -> handed l2 = handed l ++ line) as Hhand.
  { intros l2 Hh. unfold handed. rewrite Hh, Hh1, map_app, concat_app. simpl. by rewrite app_nil_r. }
  assert (forall l2, closed l2 = closed l -> history l2 = history l1 ->
    (appendFile_ l2 = Some f' \/ appendFile_ l2 = Some (AppendFile.flush f')) -> open l2) as Hopen.
  { intros l2 Hc Hh. rewrite Hh1 in Hh. by eapply kept_append. }
  assert (forall l2, closed l2 = closed l -> rollSize_ l2 = rollSize_ l -> appendFile_ l2 = Some f' ->
    history l2 = history l1 ->
    or_refused (r ← rollFile pid now l2 ; mret r.2) (fun l' => open l' /\ handed l' = handed l ++ line /\
      rollSize_ l' = rollSize_ l /\ (rollSize_ l' < size l' -> now <= lastRoll_ l'))) as Hroll.
  { intros l2 Hc2 Hr2 Hf2 Hh2. destruct (Hopen l2 Hc2 Hh2 (or_introl Hf2)) as [Hs2 Hk2].
    eapply or_refused_bind; [by apply rollFile_spec|]. intros [r l3] (Hk3 & Hh3 & Hr3 & Hcase). simpl in *.
    rewrite (Hhand l3) by congruence. destruct (Z.ltb_spec (lastRoll_ l2) now).
    - destruct Hcase as (? & Hs & ?). split_and!; [by split|done|congruence|rewrite Hs; lia].
    - subst l3. by split_and!. }
  destruct (Z.ltb_spec (rollSize_ l1) (AppendFile.writtenBytes_ f')) as [Hbig|Hsmall]; [by apply Hroll|].
  assert (forall l2, closed l2 = closed l -> rollSize_ l2 = rollSize_ l -> history l2 = history l1 ->
    (appendFile_ l2 = Some f' \/ appendFile_ l2 = Some (AppendFile.flush f')) ->
    open l2 /\ handed l2 = handed l ++ line /\ rollSize_ l2 = rollSize_ l /\
      (rollSize_ l2 < size l2 -> now <= lastRoll_ l2)) as Hstay.
  { intros l2 Hc2 Hr2 Hh2 Hf2. split_and!; [by apply Hopen|by apply Hhand|done|]. unfold size. rewrite Hr2.
    simpl in Hsmall. destruct Hf2 as [-> | ->]; simpl; lia. }
  destruct (checkEveryN_ l1 <=? count_ l1 + 1); [|hnf; by apply Hstay; [..|left]].
  destruct (negb _); [by apply Hroll|]. destruct (_ <? _); hnf; apply Hstay; auto.
Qed.

Lemma flush_spec l :
  open l -> exists l', flush l = Ok l' /\ open l' /\ history l' = history l /\ rollSize_ l' = rollSize_ l.
Proof.
  intros [[f Hf] [Hcl Hw Ht]]. unfold flush. rewrite Hf. cbn [deref]. rewrite bind_ok. eexists. split; [done|].
  split_and!; try done. split; [by eexists|]. constructor; try done. simpl.
  rewrite <- Hw. unfold written. simpl. by rewrite Hf.
Qed.

(** A sequence of appends, each at its time. *)
Fixpoint appends (pid : Z) (l : t) (xs : list (Z * bytes)) : outcome t :=
  match xs with
  | [] => mret l
  | x :: xs => l ← append pid x.1 l x.2 ; appends pid l xs
  end.

Lemma appends_spec pid xs l :
  open l -> 0 <= rollSize_ l ->
  or_refused (appends pid l xs) (fun l' => open l' /\ handed l' = handed l ++ concat (map snd xs) /\
    rollSize_ l' = rollSize_ l /\
    (forall now line, last xs = Some (now, line) -> rollSize_ l' < size l' -> now <= lastRoll_ l')).
Proof.
  revert l. induction xs as [|[now line] xs IH]; intros l Ho Hs; [simpl; by rewrite app_nil_r|].
  cbn [appends fst snd]. eapply or_refused_bind; [by apply append_spec_log|]. intros l1 (Ho1 & Hh1 & Hs1 & Hbig).
  destruct xs as [|x xs].
  - simpl. rewrite app_nil_r. split_and!; try done. by intros ? ? [= <- <-].
  - eapply or_refused_mono; [apply IH; [done|lia]|]. intros l2 (Ho2 & Hh2 & Hs2 & Hlast).
    split_and!; [done| |congruence|exact Hlast]. rewrite Hh2, Hh1. simpl. by rewrite <- app_assoc.
Qed.

(** Rolling loses nothing: a sequence of appends to a new log stops only when a file
    cannot be opened, the files rolled out and the current one have been given the
    lines in order, every file rolled out was closed with all it took, the bytes
    missing are the ends of lines at which a write took nothing, and after an append at
    time [now] the current file is larger than [rollSize] only if the log was already
    rolled in that second. *)
Theorem logfile_rolls pid now0 basename rollSize fi n xs :
  0 < now0 -> 0 <= rollSize ->
  or_refused (l ← new pid now0 basename rollSize fi n ; appends pid l xs) (fun l =>
    handed l = concat (map snd xs) /\ written l = concat (map snd (history l)) /\
    Forall (fun x => AppendFile.taken_of x.1 x.2) (history l) /\
    Forall (fun f => AppendFile.flushed f = AppendFile.taken f) (closed l) /\
    (forall now line, last xs = Some (now, line) -> rollSize < size l -> now <= lastRoll_ l)).
Proof.
  intros Hn Hr. eapply or_refused_bind; [by apply new_open|]. intros l0 (Ho & Hh & Hs).
  eapply or_refused_mono; [apply appends_spec; [done|lia]|]. intros l ([_ [? ? ?]] & Hh' & Hs' & Hlast).
  unfold handed in *. rewrite Hh in Hh'. rewrite Hs', Hs in Hlast. by split_and!.
Qed.
End logfile.

(** A disk that takes three bytes at a time. *)
Definition slow_disk : Stdio :=
  {| fopen_ok := fun _ => true; fwrite := fun _ data => Z.min 3 (zlen data) |}.
Lemma slow_disk_laws : @StdioLaws slow_disk.
Proof. constructor. intros. simpl. pose proof (zlen_nonneg data). lia. Qed.
Lemma slow_disk_healthy : @files_open slow_disk /\ @writes_progress slow_disk.
Proof. split; [done|]. intros ? ?. simpl. lia. Qed.

(** A disk that is full after ten bytes. *)
Definition small_disk : Stdio :=
  {| fopen_ok := fun _ => true; fwrite := fun before data => Z.min (Z.max 0 (10 - zlen before)) (zlen data) |}.

(** Two lines fill the first file; the second roll has to wait for the next second. *)
Definition demo_appends : list (Z * bytes) :=
  [(1000, str "hello "); (1001, str "world"); (1001, str "again and again"); (1002, str "!")].

Definition demo_log (disk : Stdio) : outcome t :=
  l ← @new disk 7 1000 (str "log") 10 3 1024 ; @appends disk 7 l demo_appends.

Lemma logfile_rolls_witness :
  match demo_log slow_disk with
  | Ok l => map AppendFile.taken (closed l) = [str "hello world"; str "again and again!"] /\
      handed l = str "hello worldagain and again!"
  | Fault _ => False
  end.
Proof.
  pose proof (@logfile_rolls slow_disk slow_disk_laws 7 1000 (str "log") 10 3 1024 demo_appends
    ltac:(lia) ltac:(lia)) as H. unfold demo_log. revert H.
  destruct (l ← @new slow_disk _ _ _ _ _ _ ; _) as [l|] eqn:E; [|by intros [_ [name [=]]]].
  intros [Hh _]. split; [|exact Hh]. vm_compute in E. by injection E as <-.
Defined.

(** The full disk takes the first ten bytes of every file. *)
Example full_disk_cuts :
  match demo_log small_disk with
  | Ok l => map AppendFile.taken (closed l) = [str "hello worl"; str "again and "]
  | Fault _ => False
  end.
Proof. vm_compute. reflexivity. Qed.
End LogFile.

Module Asynlogging.
Section asynlogging.
Context `{Stdio}.
(** [LargeBuffer], 4000 * 1000 in the sources. *)
Context (SIZE : Z).

Abbreviation Buffer := FixedSizeBuffer.t.

(** Where the writing thread is: before [threadFunc], at the head of its loop,
    about to enter the critical section, writing the buffers (the ones left), at
    the recycling of the buffers, after the loop. *)
Inductive phase :=
  | NotStarted
  | LoopHead
  | Waiting
  | Writing (left_ : list (option Buffer))
  | Recycling
  | Ended.

(** A [unique_ptr] is an option.  [newBuffer1], [newBuffer2], [buffersToWrite]
    and [logFile] are the locals of [threadFunc]; [lines] is the history of
    [append] calls. *)
Record t := mk {
  running_ : bool;
  currentBuffer_ : option Buffer;
  nextBuffer_ : option Buffer;
  buffers_ : list (option Buffer);
  pc : phase;
  newBuffer1 : option Buffer;
  newBuffer2 : option Buffer;
  buffersToWrite : list (option Buffer);
  logFile : option LogFile.t;
  lines : list bytes;
}.

Definition new : t :=
  {| running_ := false;
     currentBuffer_ := Some (FixedSizeBuffer.setZero SIZE (FixedSizeBuffer.new SIZE));
     nextBuffer_ := Some (FixedSizeBuffer.setZero SIZE (FixedSizeBuffer.new SIZE));
     buffers_ := []; pc := NotStarted; newBuffer1 := None; newBuffer2 := None;
     buffersToWrite := []; logFile := None; lines := [] |}.

Definition set_front (a : t) (running : bool) (current next : option Buffer)
  (bufs : list (option Buffer)) (ls : list bytes) : t :=
  {| running_ := running; currentBuffer_ := current; nextBuffer_ := next; buffers_ := bufs;
     pc := pc a; newBuffer1 := newBuffer1 a; newBuffer2 := newBuffer2 a;
     buffersToWrite := buffersToWrite a; logFile := logFile a; lines := ls |}.

Definition set_back (a : t) (p : phase) (b1 b2 : option Buffer) (toWrite : list (option Buffer))
  (lf : option LogFile.t) : t :=
  {| running_ := running_ a; currentBuffer_ := currentBuffer_ a; nextBuffer_ := nextBuffer_ a;
     buffers_ := buffers_ a; pc := p; newBuffer1 := b1; newBuffer2 := b2;
     buffersToWrite := toWrite; logFile := lf; lines := lines a |}.

(** [append], under the lock. *)
Definition append (a : t) (logOneLine : bytes) : outcome t :=
  cur ← deref (currentBuffer_ a) ;
  if zlen logOneLine <=? FixedSizeBuffer.avail SIZE cur then
    cur ← FixedSizeBuffer.append SIZE cur logOneLine ;
    mret (set_front a (running_ a) (Some cur) (nextBuffer_ a) (buffers_ a) (lines a ++ [logOneLine]))
  else
    let bufs := buffers_ a ++ [Some cur] in
    let fresh := match nextBuffer_ a with Some b => b | None => FixedSizeBuffer.new SIZE end in
    cur ← FixedSizeBuffer.append SIZE fresh logOneLine ;
    mret (set_front a (running_ a) (Some cur) None bufs (lines a ++ [logOneLine])).

(** [start()] up to the creation of the thread, and [stop()] up to the join. *)
Definition start (a : t) : t :=
  set_front a true (currentBuffer_ a) (nextBuffer_ a) (buffers_ a) (lines a).
Definition stop (a : t) : t :=
  set_front a false (currentBuffer_ a) (nextBuffer_ a) (buffers_ a) (lines a).

(** [~Asynlogging] *)
Definition destroy (a : t) : t := if running_ a then stop a else a.

(** [threadFunc] up to its loop. *)
Definition thread_begin (pid now : Z) (basename : bytes) (rollSize flushIntervalSeconds : Z) (a : t)
  : outcome t :=
  _ ← assert_ (running_ a) ;
  lf ← LogFile.new pid now basename rollSize flushIntervalSeconds 1024 ;
  mret (set_back a LoopHead
          (Some (FixedSizeBuffer.setZero SIZE (FixedSizeBuffer.new SIZE)))
          (Some (FixedSizeBuffer.setZero SIZE (FixedSizeBuffer.new SIZE))) [] (Some lf)).

Definition is_empty_buffer (b : option Buffer) : bool :=
  match b with Some b => FixedSizeBuffer.length b =? 0 | None => false end.

(** The loop's condition and its assertions; after the loop the file is flushed. *)
Definition thread_head (a : t) : outcome t :=
  if running_ a then
    _ ← assert_ (is_empty_buffer (newBuffer1 a)) ;
    _ ← assert_ (is_empty_buffer (newBuffer2 a)) ;
    _ ← assert_ (bool_decide (buffersToWrite a = [])) ;
    mret (set_back a Waiting (newBuffer1 a) (newBuffer2 a) (buffersToWrite a) (logFile a))
  else
    lf ← deref (logFile a) ;
    lf ← LogFile.flush lf ;
    mret (set_back a Ended (newBuffer1 a) (newBuffer2 a) (buffersToWrite a) (Some lf)).

(** The critical section, from the moment [wait_for] (if it is entered) has given
    the lock back: that happens when a buffer is full, on [stop()] or after the
    flush interval, so at any time. *)
Definition thread_swap (a : t) : t :=
  let bufs := buffers_ a ++ [currentBuffer_ a] in
  let a' := set_front a (running_ a) (newBuffer1 a) (nextBuffer_ a) (buffersToWrite a) (lines a) in
  match nextBuffer_ a with
  | None => set_back a' (Writing bufs) (newBuffer2 a) None bufs (logFile a)
  | Some _ => set_back a' (Writing bufs) None (newBuffer2 a) bufs (logFile a)
  end.

(** One turn of the loop over [buffersToWrite], outside the lock. *)
Definition thread_write (pid now : Z) (a : t) (left_ : list (option Buffer)) : outcome t :=
  match left_ with
  | [] => mret (set_back a Recycling (newBuffer1 a) (newBuffer2 a) (buffersToWrite a) (logFile a))
  | buffer :: left_ =>
      b ← deref buffer ;
      lf ← deref (logFile a) ;
      lf ← LogFile.append pid now lf (FixedSizeBuffer.toString b) ;
      mret (set_back a (Writing left_) (newBuffer1 a) (newBuffer2 a) (buffersToWrite a) (Some lf))
  end.

(** [if (!newBuffer) { newBuffer = std::move(back()); pop_back(); newBuffer->reset(); }] *)
Definition refill (b : option Buffer) (toWrite : list (option Buffer))
  : outcome (option Buffer * list (option Buffer)) :=
  match b with
  | Some _ => mret (b, toWrite)
  | None =>
      _ ← assert_ (bool_decide (toWrite <> [])) ;
      back ← deref (last toWrite) ;
      buffer ← deref back ;
      mret (Some (FixedSizeBuffer.reset buffer), removelast toWrite)
  end.

Definition thread_recycle (a : t) : outcome t :=
  let toWrite := if (2 <? length (buffersToWrite a))%nat then take 2 (buffersToWrite a)
                 else buffersToWrite a in
  r1 ← refill (newBuffer1 a) toWrite ;
  r2 ← refill (newBuffer2 a) r1.2 ;
  lf ← deref (logFile a) ;
  lf ← LogFile.flush lf ;
  mret (set_back a LoopHead r1.1 r2.1 [] (Some lf)).

(** The writing thread's next step; [pid] and [now] answer the system calls. *)
Definition thread_step (pid now : Z) (basename : bytes) (rollSize flushIntervalSeconds : Z) (a : t)
  : outcome t :=
  match pc a with
  | NotStarted => thread_begin pid now basename rollSize flushIntervalSeconds a
  | LoopHead => thread_head a
  | Waiting => mret (thread_swap a)
  | Writing left_ => thread_write pid now a left_
  | Recycling => thread_recycle a
  | Ended => mret a
  end.

(** ** Nothing is lost while the back end runs *)
Context {SL : StdioLaws}.

Definition good (b : option Buffer) : Prop :=
  match b with Some b => exists s, FixedSizeBuffer.holds SIZE b s | None => False end.
Definition fresh (b : option Buffer) : Prop :=
  match b with Some b => FixedSizeBuffer.holds SIZE b [] | None => False end.
Definition text (b : option Buffer) : bytes :=
  match b with Some b => FixedSizeBuffer.toString b | None => [] end.
Definition texts (bs : list (option Buffer)) : bytes := concat (map text bs).

(** What has been appended (a line longer than a buffer is cut to its size); what has
    been handed to the files and what is on its way there, in this order; for each
    buffer handed to the files, its bytes and those the file took; the bytes in the
    files. *)
Definition logged (a : t) : bytes := concat (map (take (Z.to_nat SIZE)) (lines a)).
Definition handed (a : t) : bytes := match logFile a with Some l => LogFile.handed l | None => [] end.
Definition attempts (a : t) : list (bytes * bytes) :=
  match logFile a with Some l => LogFile.history l | None => [] end.
Definition on_disk (a : t) : bytes := match logFile a with Some l => LogFile.written l | None => [] end.
Definition in_flight (a : t) : bytes :=
  (match pc a with Writing left_ => texts left_ | _ => [] end) ++ texts (buffers_ a) ++ text (currentBuffer_ a).

(** After the swap one of the two spare buffers is gone and can be replaced. *)
Definition one_spare (a : t) : Prop :=
  (newBuffer1 a = None /\ fresh (newBuffer2 a)) \/ (fresh (newBuffer1 a) /\ newBuffer2 a = None).

Definition back_ok (a : t) : Prop :=
  match pc a with
  | NotStarted => True
  | LoopHead | Waiting => fresh (newBuffer1 a) /\ fresh (newBuffer2 a) /\ buffersToWrite a = []
  | Writing left_ => one_spare a /\ Forall good left_ /\ Forall good (buffersToWrite a) /\ buffersToWrite a <> []
  | Recycling => one_spare a /\ Forall good (buffersToWrite a) /\ buffersToWrite a <> []
  | Ended => True
  end.

Definition file_ok (a : t) : Prop :=
  match pc a, logFile a with
  | NotStarted, None => True
  | NotStarted, Some _ => False
  | _, Some l => LogFile.open l /\ 0 <= LogFile.rollSize_ l
  | _, None => False
  end.

Record inv (a : t) : Prop := mk_inv {
  inv_current : good (currentBuffer_ a);
  inv_next : nextBuffer_ a = None \/ fresh (nextBuffer_ a);
  inv_buffers : Forall good (buffers_ a);
  inv_back : back_ok a;
  inv_file : file_ok a;
  inv_bytes : handed a ++ in_flight a = logged a;
}.

(** The moves: any thread logs a line, [start] (which returns when the thread has
    begun), [stop], and the steps of the writing thread. *)
Inductive step (basename : bytes) (rollSize flushInterval : Z) : t -> t -> Prop :=
  | StepAppend a line a' :
      append a line = Ok a' -> step basename rollSize flushInterval a a'
  | StepStart a pid now a' :
      pc a = NotStarted -> 0 < now -> thread_begin pid now basename rollSize flushInterval (start a) = Ok a' ->
      step basename rollSize flushInterval a a'
  | StepStop a : pc a <> NotStarted -> step basename rollSize flushInterval a (stop a)
  | StepThread a pid now a' :
      pc a <> NotStarted -> thread_step pid now basename rollSize flushInterval a = Ok a' ->
      step basename rollSize flushInterval a a'.

Context (HS : 0 < SIZE < 2 ^ 63).

Lemma texts_app bs cs : texts (bs ++ cs) = texts bs ++ texts cs.
Proof. unfold texts. by rewrite map_app, concat_app. Qed.

Lemma fresh_good b : fresh b -> good b.
Proof. destruct b; [|done]. by exists []. Qed.

Lemma fresh_text b : fresh b -> text b = [].
Proof. destruct b as [b|]; [|done]. intros Hb. by apply (FixedSizeBuffer.holds_toString SIZE b []). Qed.

Lemma fresh_is_empty b : fresh b -> is_empty_buffer b = true.
Proof.
  destruct b as [b|]; [|done]. intros ((_ & _ & _ & _) & Hw & _). unfold is_empty_buffer, FixedSizeBuffer.length.
  rewrite <- Hw. done.
Qed.

Lemma new_fresh : fresh (Some (FixedSizeBuffer.new SIZE)).
Proof. apply FixedSizeBuffer.fixed_new_holds. lia. Qed.

Lemma zeroed_fresh : fresh (Some (FixedSizeBuffer.setZero SIZE (FixedSizeBuffer.new SIZE))).
Proof. exact new_fresh. Qed.

Lemma logged_snoc (ls : list bytes) (line : bytes) :
  concat (map (take (Z.to_nat SIZE)) (ls ++ [line])) =
  concat (map (take (Z.to_nat SIZE)) ls) ++ take (Z.to_nat SIZE) line.
Proof. rewrite map_app, concat_app. simpl. by rewrite app_nil_r. Qed.

(** Replacing the buffers in front keeps the invariant if the text grows by the line. *)
Lemma inv_front a cur next bufs line :
  inv a -> good (Some cur) -> (next = None \/ fresh next) -> Forall good bufs ->
  texts bufs ++ text (Some cur) =
    texts (buffers_ a) ++ text (currentBuffer_ a) ++ take (Z.to_nat SIZE) line ->
  inv (set_front a (running_ a) (Some cur) next bufs (lines a ++ [line])).
Proof.
  intros [_ _ _ Hback Hfile Hbytes] Hc Hn Hb Htext. split; try done.
  unfold logged. cbn [set_front lines]. rewrite logged_snoc. fold (logged a). rewrite <- Hbytes.
  unfold handed, in_flight. cbn [set_front logFile pc buffers_ currentBuffer_]. rewrite Htext.
  by rewrite <- !app_assoc.
Qed.

Lemma append_keeps a line :
  inv a -> exists a', append a line = Ok a' /\ inv a'.
Proof.
  intros Ha. pose proof (inv_current a Ha) as Hcur. unfold append.
  destruct (currentBuffer_ a) as [cur|] eqn:Ecur; [|done]. destruct Hcur as [s Hs].
  cbn [deref]. rewrite bind_ok, FixedSizeBuffer.avail_eq by apply Hs.
  pose proof Hs as (_ & Hl & _). pose proof (FixedSizeBuffer.holds_toString SIZE cur s Hs) as Ht.
  destruct (Z.leb_spec (zlen line) (SIZE - FixedSizeBuffer.written_ cur)) as [Hfit|Hbig].
  - destruct (FixedSizeBuffer.fixed_append_spec SIZE cur s line Hs) as (cur' & -> & Hs').
    pose proof (zlen_nonneg s).
    rewrite take_ge in Hs' by (unfold zlen in *; lia). rewrite bind_ok. eexists. split; [done|].
    apply inv_front; [done|by exists (s ++ line)|apply Ha|apply Ha|].
    rewrite Ecur. simpl. rewrite Ht, (FixedSizeBuffer.holds_toString SIZE cur' _ Hs').
    by rewrite (take_ge line) by (unfold zlen in *; lia).
  - set (b := match nextBuffer_ a with Some _ => _ | None => _ end).
    assert (FixedSizeBuffer.holds SIZE b []) as Hb.
    { unfold b. pose proof (inv_next a Ha) as [-> | Hn]; [apply new_fresh|].
      by destruct (nextBuffer_ a). }
    destruct (FixedSizeBuffer.fixed_append_spec SIZE b [] line Hb) as (b' & -> & Hb').
    rewrite zlen_nil, Z.sub_0_r in Hb'. simpl in Hb'. rewrite bind_ok. eexists. split; [done|].
    apply inv_front; [done|by eexists|by left| |].
    + apply Forall_app. split; [apply Ha|]. repeat constructor. by exists s.
    + rewrite texts_app, Ecur. unfold texts at 2. simpl.
      rewrite (FixedSizeBuffer.holds_toString SIZE b' _ Hb'), app_nil_r. by rewrite <- app_assoc.
Qed.

Lemma begin_keeps pid now basename rollSize fi a :
  inv a -> pc a = NotStarted -> 0 < now -> 0 <= rollSize ->
  or_refused (thread_begin pid now basename rollSize fi (start a)) inv.
Proof.
  intros [Hc Hn Hb Hback Hfile Hbytes] Hpc Hnow Hrs. unfold thread_begin. rewrite assert_pass by done.
  eapply or_refused_bind; [by apply LogFile.new_open|]. intros l (Ho & Hw & Hs). split; try done.
  - split_and!; [apply zeroed_fresh..|done].
  - split; [done|]. lia.
  - revert Hbytes. unfold file_ok in Hfile. rewrite Hpc in Hfile.
    unfold handed, in_flight, logged. cbn [set_back set_front start logFile pc buffers_ currentBuffer_ lines].
    unfold LogFile.handed. rewrite Hw, Hpc. by destruct (logFile a).
Qed.

Lemma head_keeps a :
  inv a -> pc a = LoopHead ->
  exists a', thread_head a = Ok a' /\ inv a' /\ pc a' = (if running_ a then Waiting else Ended) /\
    lines a' = lines a.
Proof.
  intros [Hc Hn Hb Hback Hfile Hbytes] Hpc. unfold thread_head.
  unfold back_ok in Hback. unfold file_ok in Hfile. rewrite Hpc in Hback, Hfile.
  destruct Hback as (H1 & H2 & H3). destruct (logFile a) as [l|] eqn:El; [|done].
  destruct (running_ a).
  - rewrite !fresh_is_empty, H3, bool_decide_true by done. rewrite !assert_pass by done.
    eexists. split; [done|]. split; [|done]. split; try done.
    revert Hbytes. unfold handed, in_flight, logged. simpl. by rewrite Hpc, El.
  - cbn [deref]. rewrite bind_ok. destruct Hfile as [Ho Hr].
    destruct (LogFile.flush_spec l Ho) as (l' & -> & Ho' & Hw & Hr'). rewrite bind_ok.
    eexists. split; [done|]. split; [|done]. split; try done.
    + split; [done|]. simpl. lia.
    + revert Hbytes. unfold handed, in_flight, logged, LogFile.handed. simpl. by rewrite Hpc, El, Hw.
Qed.

Lemma swap_keeps a :
  inv a -> pc a = Waiting ->
  inv (thread_swap a) /\ pc (thread_swap a) = Writing (buffers_ a ++ [currentBuffer_ a]) /\
  lines (thread_swap a) = lines a /\ running_ (thread_swap a) = running_ a /\
  texts (buffers_ (thread_swap a)) ++ text (currentBuffer_ (thread_swap a)) = [].
Proof.
  intros [Hc Hn Hb Hback Hfile Hbytes] Hpc.
  unfold back_ok in Hback. rewrite Hpc in Hback. destruct Hback as (H1 & H2 & H3).
  assert (Forall good (buffers_ a ++ [currentBuffer_ a])) as Hall by (apply Forall_app; by repeat constructor).
  assert (buffers_ a ++ [currentBuffer_ a] <> []) by (by destruct (buffers_ a)).
  assert (handed a ++ (texts (buffers_ a ++ [currentBuffer_ a])) ++ [] ++ text (newBuffer1 a) = logged a) as Hbytes'.
  { rewrite <- Hbytes, texts_app, (fresh_text (newBuffer1 a) H1). unfold in_flight. rewrite Hpc.
    unfold texts at 2. simpl. by rewrite !app_nil_r. }
  assert (forall a' b1 b2, ((b1 = None /\ fresh b2) \/ (fresh b1 /\ b2 = None)) ->
    a' = set_back (set_front a (running_ a) (newBuffer1 a) (nextBuffer_ a) (buffersToWrite a) (lines a))
           (Writing (buffers_ a ++ [currentBuffer_ a])) b1 b2 (buffers_ a ++ [currentBuffer_ a]) (logFile a) ->
    inv a' /\ pc a' = Writing (buffers_ a ++ [currentBuffer_ a]) /\ lines a' = lines a /\
    running_ a' = running_ a /\ texts (buffers_ a') ++ text (currentBuffer_ a') = []) as Hgoal.
  { intros a' b1 b2 Hb12 ->. split; [|split_and!; try done; simpl; rewrite H3; by apply fresh_text].
    split; [by apply fresh_good|done|simpl; rewrite H3; constructor|by split| |].
    - unfold file_ok in *. rewrite Hpc in Hfile. exact Hfile.
    - unfold in_flight, handed, logged in *. simpl in *. by rewrite H3. }
  unfold thread_swap. destruct (nextBuffer_ a) as [nb|] eqn:En.
  - apply (Hgoal _ None (newBuffer2 a)); [by left|by rewrite <- ?En].
  - apply (Hgoal _ (newBuffer2 a) None); [by right|by rewrite <- ?En].
Qed.

Lemma write_keeps pid now a left_ :
  inv a -> pc a = Writing left_ ->
  or_refused (thread_write pid now a left_) (fun a' => inv a' /\
    pc a' = match left_ with [] => Recycling | _ :: l => Writing l end /\
    lines a' = lines a /\ running_ a' = running_ a /\ buffers_ a' = buffers_ a /\
    currentBuffer_ a' = currentBuffer_ a).
Proof.
  intros [Hc Hn Hb Hback Hfile Hbytes] Hpc. unfold back_ok in Hback. rewrite Hpc in Hback.
  destruct Hback as (Hsp & Hleft & Hw & Hne). unfold thread_write. destruct left_ as [|b left_].
  - hnf. split; [|done]. split; try done.
    + unfold file_ok in *. by rewrite Hpc in Hfile.
    + revert Hbytes. unfold handed, in_flight, logged. simpl. by rewrite Hpc.
  - apply Forall_cons in Hleft as [Hgood Hleft]. destruct b as [b|]; [|done]. destruct Hgood as [s Hs].
    unfold file_ok in Hfile. rewrite Hpc in Hfile. destruct (logFile a) as [l|] eqn:El; [|done].
    destruct Hfile as [Ho Hr]. cbn [deref]. rewrite !bind_ok.
    eapply or_refused_bind; [by apply LogFile.append_spec_log|]. intros l' (Ho' & Hw' & Hr' & _).
    hnf. split; [|done]. split; try done.
    + split; [done|]. simpl. lia.
    + revert Hbytes. unfold handed, in_flight, logged. simpl. rewrite Hpc, El, Hw'.
      unfold texts at 1. simpl. by rewrite <- !app_assoc.
Qed.

Lemma refill_fresh b toWrite :
  (fresh b \/ b = None) -> Forall good toWrite -> toWrite <> [] ->
  exists b' rest, refill b toWrite = Ok (b', rest) /\ fresh b' /\ (fresh b -> rest = toWrite).
Proof.
  intros Hb Hg Hne. unfold refill. destruct b as [b|].
  - destruct Hb as [Hb|]; [|done]. by exists (Some b), toWrite.
  - rewrite bool_decide_true, assert_pass by done.
    destruct (last toWrite) as [x|] eqn:El; [|by apply last_None in El].
    assert (good x) as Hx by (apply last_Some in El as [k ->]; apply Forall_app in Hg as [_ Hg];
      by apply Forall_cons in Hg as [? _]).
    destruct x as [x|]; [|done]. destruct Hx as [s Hs]. cbn [deref]. rewrite !bind_ok.
    do 2 eexists. split; [done|]. split; [by eapply FixedSizeBuffer.reset_holds|done].
Qed.

Lemma recycle_keeps a :
  inv a -> pc a = Recycling ->
  exists a', thread_recycle a = Ok a' /\ inv a' /\ pc a' = LoopHead /\ lines a' = lines a /\
    running_ a' = running_ a /\ handed a' = handed a.
Proof.
  intros [Hc Hn Hb Hback Hfile Hbytes] Hpc. unfold back_ok in Hback. unfold file_ok in Hfile.
  rewrite Hpc in Hback, Hfile. destruct Hback as (Hsp & Hw & Hne).
  destruct (logFile a) as [l|] eqn:El; [|done]. destruct Hfile as [Ho Hr].
  unfold thread_recycle. set (tw := if (2 <? _)%nat then _ else _).
  assert (Forall good tw /\ tw <> []) as [Htw Htn].
  { unfold tw. destruct (_ <? _)%nat; [|done]. split; [by apply Forall_take|].
    by destruct (buffersToWrite a). }
  destruct (refill_fresh (newBuffer1 a) tw) as (b1 & r1 & -> & Hf1 & Hr1); [|done..|].
  { destruct Hsp as [[]|[]]; auto. }
  rewrite bind_ok. cbn [fst snd].
  assert (exists b2 r2, refill (newBuffer2 a) r1 = Ok (b2, r2) /\ fresh b2) as (b2 & r2 & -> & Hf2).
  { destruct Hsp as [[? Hf]|[Hf ?]].
    - unfold refill. destruct (newBuffer2 a) as [x|]; [|done]. by exists (Some x), r1.
    - rewrite (Hr1 Hf). destruct (refill_fresh (newBuffer2 a) tw) as (b2 & r2 & ? & ? & _); eauto. }
  rewrite El. cbn [deref]. rewrite !bind_ok.
  destruct (LogFile.flush_spec l Ho) as (l' & -> & Ho' & Hw' & Hr'). rewrite bind_ok.
  eexists. split; [done|]. unfold handed at 1 2, LogFile.handed. simpl. rewrite El, Hw'. split_and!; try done. split; try done.
  - split; [done|]. simpl. lia.
  - revert Hbytes. unfold handed, in_flight, logged, LogFile.handed. simpl. by rewrite Hpc, El, Hw'.
Qed.

Context (basename : bytes) (rollSize flushInterval : Z) (HR : 0 <= rollSize).

Lemma thread_keeps pid now a :
  inv a -> pc a <> NotStarted ->
  or_refused (thread_step pid now basename rollSize flushInterval a) inv.
Proof.
  intros Ha Hpc. unfold thread_step. destruct (pc a) eqn:E; try done.
  - by destruct (head_keeps a Ha E) as (a' & -> & ? & _).
  - by apply swap_keeps.
  - eapply or_refused_mono; [by apply write_keeps|]. by intros a' (? & _).
  - by destruct (recycle_keeps a Ha E) as (a' & -> & ? & _).
Qed.

Lemma log_new_inv : inv new.
Proof.
  split; try done.
  - by apply fresh_good, zeroed_fresh.
  - right. apply zeroed_fresh.
Qed.

Lemma reachable_inv_log a : rtc (step basename rollSize flushInterval) new a -> inv a.
Proof.
  apply (rtc_ind_r inv); [apply log_new_inv|]. intros x y _ Hs Hx.
  destruct Hs as [a0 line a' E|a0 pid now a' Hpc Hn E|a0 Hpc|a0 pid now a' Hpc E].
  - destruct (append_keeps a0 line Hx) as (? & E' & ?). rewrite E in E'. by injection E' as <-.
  - pose proof (begin_keeps pid now basename rollSize flushInterval a0 Hx Hpc Hn HR) as Hk. by rewrite E in Hk.
  - destruct Hx. by split.
  - pose proof (thread_keeps pid now a0 Hx Hpc) as Hk. by rewrite E in Hk.
Qed.

(** A step of the writing thread alone. *)
Definition alone (a a' : t) : Prop :=
  exists pid now, pc a <> NotStarted /\ thread_step pid now basename rollSize flushInterval a = Ok a'.

Lemma write_all left_ a :
  files_open -> inv a -> pc a = Writing left_ ->
  exists a', rtc alone a a' /\ inv a' /\ pc a' = Recycling /\ lines a' = lines a /\
    buffers_ a' = buffers_ a /\ currentBuffer_ a' = currentBuffer_ a.
Proof.
  intros Hopen. revert a. induction left_ as [|b left_ IH]; intros a Ha Hpc;
    destruct (or_refused_opens _ _ Hopen (write_keeps 0 0 a _ Ha Hpc)) as (a1 & E & Ha1 & Hpc1 & Hl1 & _ & Hb1 & Hc1);
    (assert (alone a a1) as Hstep by (exists 0, 0; unfold thread_step; by rewrite Hpc)).
  - exists a1. split_and!; try done. by apply rtc_once.
  - destruct (IH a1 Ha1 Hpc1) as (a2 & Hr & ? & ? & ? & ? & ?). exists a2.
    split_and!; try done; try congruence. by eapply rtc_l.
Qed.

Lemma attempts_kept a : inv a ->
  handed a = concat (map fst (attempts a)) /\ on_disk a = concat (map snd (attempts a)) /\
  Forall (fun x => AppendFile.taken_of x.1 x.2) (attempts a).
Proof.
  intros [_ _ _ _ Hfile _]. unfold handed, on_disk, attempts, file_ok in *. destruct (logFile a) as [l|]; [|by repeat constructor].
  assert (LogFile.kept l) as [? ? ?] by (destruct (pc a); [done|apply Hfile..]). done.
Qed.

Lemma handed_all a : inv a -> writes_progress -> on_disk a = handed a.
Proof.
  intros Ha Hp. destruct (attempts_kept a Ha) as (-> & -> & Ht). clear Ha. induction Ht as [|x h Hx _ IH]; [done|].
  simpl. by rewrite IH, (AppendFile.taken_all x.1 x.2).
Qed.

(** The running writer alone hands everything to the files. *)
Lemma writer_drains a :
  files_open -> inv a -> pc a = LoopHead -> running_ a = true ->
  exists a', rtc alone a a' /\ inv a' /\ pc a' = LoopHead /\ handed a' = logged a.
Proof.
  intros Hopen Ha Hpc Hrun. destruct (head_keeps a Ha Hpc) as (a1 & E1 & Ha1 & Hpc1 & Hl1). rewrite Hrun in Hpc1.
  destruct (swap_keeps a1 Ha1 Hpc1) as (Ha2 & Hpc2 & Hl2 & _ & Hempty).
  destruct (write_all _ _ Hopen Ha2 Hpc2) as (a3 & Hr3 & Ha3 & Hpc3 & Hl3 & Hb3 & Hc3).
  destruct (recycle_keeps a3 Ha3 Hpc3) as (a4 & E4 & Ha4 & Hpc4 & _ & _ & Hd4).
  exists a4. split_and!; [|done|done|].
  - eapply rtc_l; [exists 0, 0; unfold thread_step; by rewrite Hpc|].
    eapply rtc_l; [exists 0, 0; unfold thread_step; by rewrite Hpc1|].
    eapply rtc_r; [exact Hr3|]. exists 0, 0. unfold thread_step. by rewrite Hpc3.
  - rewrite Hd4. transitivity (logged a3); [|unfold logged; congruence].
    rewrite <- (inv_bytes a3 Ha3). unfold in_flight. rewrite Hpc3, Hb3, Hc3, Hempty. by rewrite !app_nil_r.
Qed.

End asynlogging.

(** *** Two threads log through buffers of eight bytes while the writer works. *)
Definition demo1 : t := ok_or (new 8) (@thread_begin LogFile.slow_disk 8 7 1000 (str "log") 10 3 (start (new 8))).
Definition demo2 : t := ok_or (new 8) (append 8 demo1 (str "first ")).
Definition demo3 : t := ok_or (new 8) (append 8 demo2 (str "second ")).

Lemma demo3_reachable : rtc (@step LogFile.slow_disk 8 (str "log") 10 3) (new 8) demo3.
Proof.
  eapply rtc_l; [eapply (@StepStart LogFile.slow_disk 8 _ _ _ _ 7 1000 demo1); [done|lia|by vm_compute]|].
  eapply rtc_l; [eapply (@StepAppend LogFile.slow_disk 8 _ _ _ _ (str "first ") demo2); by vm_compute|].
  eapply rtc_l; [eapply (@StepAppend LogFile.slow_disk 8 _ _ _ _ (str "second ") demo3); by vm_compute|].
  apply rtc_refl.
Qed.

End Asynlogging.
