(* ===== verification/Pool.v ===== *)
(** The task pool of src/libel/base/threadpool.h and threadpool.cpp: a bounded queue
    between the threads that call [run] and the workers, with the two condition
    variables and their sleepers. *)

From S2P Require Import Prelude.

(** ** [ThreadPool]: a bounded queue with two condition variables *)
Module ThreadPool.

(** A worker in [runInThread]: before [threadInitCallback_], at the loop's test, in
    [take] with the mutex about to be acquired, asleep in [notEmpty_.wait()], running a
    task, gone. *)
Inductive worker := WInit | WTest | WTake | WWait | WRun (task : Z) | WDone.

(** A thread inside [run(task)]: about to look at the queue, asleep in
    [notFull_.wait()], returned (with the task queued or refused). *)
Inductive caller := CRun (task : Z) | CWait (task : Z) | CQueued (task : Z) | CRefused (task : Z).

(** [pushed], [taken], [executed] and [thrown] are history: tasks in the order in which
    they were queued, taken by a worker, finished, and left by an exception;
    [initThrown] counts the workers that [threadInitCallback_] left by an exception. *)
Record t := mk {
  maxQueueSize_ : Z;
  running_ : bool;
  queue_ : list Z;
  workers : list worker;
  callers : list caller;
  pushed : list Z;
  taken : list Z;
  executed : list Z;
  thrown : list Z;
  initThrown : Z;
}.

Definition new (maxSize : Z) : t :=
  {| maxQueueSize_ := maxSize; running_ := false; queue_ := []; workers := []; callers := [];
     pushed := []; taken := []; executed := []; thrown := []; initThrown := 0 |}.

Definition start (p : t) (numThreads : nat) : outcome t :=
  _ ← assert_ (bool_decide (workers p = [])) ;
  mret {| maxQueueSize_ := maxQueueSize_ p; running_ := true; queue_ := queue_ p;
          workers := replicate numThreads WInit; callers := callers p;
          pushed := pushed p; taken := taken p; executed := executed p; thrown := thrown p;
          initThrown := initThrown p |}.

Definition queueSize (p : t) : Z := zlen (queue_ p).

Definition isFull (p : t) : bool :=
  (0 <? maxQueueSize_ p) && (maxQueueSize_ p <=? queueSize p).

(** One look of [run] at the queue, with the mutex held: sleep (the [while] is
    entered), return without queueing, or queue the task. *)
Inductive run_result := RunWait | RunRefused | RunQueued (queue : list Z).
Definition run (p : t) (task : Z) : outcome run_result :=
  if isFull p && running_ p then mret RunWait
  else if negb (running_ p) then mret RunRefused
  else
    _ ← assert_ (negb (isFull p)) ;
    mret (RunQueued (queue_ p ++ [task])).

(** One look of [take]: sleep, return a task (and tell [notFull_] if there is a
    bound), or return an empty task. *)
Inductive take_result := TakeWait | TakeTask (task : Z) (rest : list Z) (tellNotFull : bool) | TakeNone.
Definition take (p : t) : take_result :=
  match queue_ p with
  | [] => if running_ p then TakeWait else TakeNone
  | task :: rest => TakeTask task rest (0 <? maxQueueSize_ p)
  end.

(** Waking a sleeper makes it look again. *)
Definition wake_worker (w : worker) : option worker :=
  match w with WWait => Some WTake | _ => None end.
Definition wake_caller (c : caller) : option caller :=
  match c with CWait task => Some (CRun task) | _ => None end.

(** [notify()]: one of the sleepers, if there is one. *)
Inductive notify {A} (wake : A -> option A) : list A -> list A -> Prop :=
  | NotifyNobody l : Forall (fun x => wake x = None) l -> notify wake l l
  | NotifyOne l1 x y l2 : wake x = Some y -> notify wake (l1 ++ x :: l2) (l1 ++ y :: l2).

(** [notifyAll()] *)
Definition notifyAll {A} (wake : A -> option A) (l : list A) : list A :=
  map (fun x => default x (wake x)) l.

(** [stop()] up to the joins. *)
Definition stop (p : t) : t :=
  {| maxQueueSize_ := maxQueueSize_ p; running_ := false; queue_ := queue_ p;
     workers := notifyAll wake_worker (workers p); callers := notifyAll wake_caller (callers p);
     pushed := pushed p; taken := taken p; executed := executed p; thrown := thrown p;
     initThrown := initThrown p |}.

(** [~ThreadPool] *)
Definition destroy (p : t) : t := if running_ p then stop p else p.

(** The moves of the threads.  A condition variable may also wake a sleeper for no
    reason.  An exception derived from [std::exception] that a task or the
    initialisation callback throws is caught outside the worker's loop, so it ends the
    worker; any other exception is thrown again and ends the process, after which
    nothing moves. *)
Definition set_callers (p : t) (cs : list caller) : t :=
  mk (maxQueueSize_ p) (running_ p) (queue_ p) (workers p) cs (pushed p) (taken p) (executed p)
    (thrown p) (initThrown p).
Definition set_workers (p : t) (ws : list worker) : t :=
  mk (maxQueueSize_ p) (running_ p) (queue_ p) ws (callers p) (pushed p) (taken p) (executed p)
    (thrown p) (initThrown p).

Inductive step : t -> t -> Prop :=
  | StepInline p task :                       (* no threads: the caller runs the task *)
      workers p = [] ->
      step p (mk (maxQueueSize_ p) (running_ p) (queue_ p) (workers p) (callers p)
                (pushed p) (taken p) (executed p ++ [task]) (thrown p) (initThrown p))
  | StepRun p task :                          (* run(task) is called *)
      workers p <> [] -> step p (set_callers p (callers p ++ [CRun task]))
  | StepRunWait p l1 task l2 :
      callers p = l1 ++ CRun task :: l2 -> run p task = Ok RunWait ->
      step p (set_callers p (l1 ++ CWait task :: l2))
  | StepRunRefused p l1 task l2 :
      callers p = l1 ++ CRun task :: l2 -> run p task = Ok RunRefused ->
      step p (set_callers p (l1 ++ CRefused task :: l2))
  | StepRunQueued p l1 task l2 q ws :
      callers p = l1 ++ CRun task :: l2 -> run p task = Ok (RunQueued q) ->
      notify wake_worker (workers p) ws ->
      step p (mk (maxQueueSize_ p) (running_ p) q ws (l1 ++ CQueued task :: l2)
                (pushed p ++ [task]) (taken p) (executed p) (thrown p) (initThrown p))
  | StepCallerWakes p l1 task l2 :
      callers p = l1 ++ CWait task :: l2 -> step p (set_callers p (l1 ++ CRun task :: l2))
  | StepInit p l1 l2 :                        (* threadInitCallback_ returns *)
      workers p = l1 ++ WInit :: l2 -> step p (set_workers p (l1 ++ WTest :: l2))
  | StepInitThrows p l1 l2 :                  (* it throws: the worker ends *)
      workers p = l1 ++ WInit :: l2 ->
      step p (mk (maxQueueSize_ p) (running_ p) (queue_ p) (l1 ++ WDone :: l2) (callers p)
                (pushed p) (taken p) (executed p) (thrown p) (initThrown p + 1))
  | StepTest p l1 l2 :                        (* while (running_) *)
      workers p = l1 ++ WTest :: l2 ->
      step p (set_workers p (l1 ++ (if running_ p then WTake else WDone) :: l2))
  | StepTakeWait p l1 l2 :
      workers p = l1 ++ WTake :: l2 -> take p = TakeWait ->
      step p (set_workers p (l1 ++ WWait :: l2))
  | StepTakeNone p l1 l2 :
      workers p = l1 ++ WTake :: l2 -> take p = TakeNone ->
      step p (set_workers p (l1 ++ WTest :: l2))
  | StepTakeTask p l1 l2 task q (tell : bool) cs :
      workers p = l1 ++ WTake :: l2 -> take p = TakeTask task q tell ->
      (if tell then notify wake_caller (callers p) cs else cs = callers p) ->
      step p (mk (maxQueueSize_ p) (running_ p) q (l1 ++ WRun task :: l2) cs
                (pushed p) (taken p ++ [task]) (executed p) (thrown p) (initThrown p))
  | StepWorkerWakes p l1 l2 :
      workers p = l1 ++ WWait :: l2 -> step p (set_workers p (l1 ++ WTake :: l2))
  | StepFinish p l1 task l2 :                 (* the task returns *)
      workers p = l1 ++ WRun task :: l2 ->
      step p (mk (maxQueueSize_ p) (running_ p) (queue_ p) (l1 ++ WTest :: l2) (callers p)
                (pushed p) (taken p) (executed p ++ [task]) (thrown p) (initThrown p))
  | StepThrow p l1 task l2 :                  (* the task throws: catch, the worker ends *)
      workers p = l1 ++ WRun task :: l2 ->
      step p (mk (maxQueueSize_ p) (running_ p) (queue_ p) (l1 ++ WDone :: l2) (callers p)
                (pushed p) (taken p) (executed p) (thrown p ++ [task]) (initThrown p))
  | StepStop p : step p (stop p).

(** *** The invariant *)
Definition asleep_w (w : worker) : bool := match w with WWait => true | _ => false end.
Definition awake_w (w : worker) : bool := match w with WTest | WTake => true | _ => false end.
Definition asleep_c (c : caller) : bool := match c with CWait _ => true | _ => false end.
Definition awake_c (c : caller) : bool := match c with CRun _ => true | _ => false end.

Definition is_done (w : worker) : bool := match w with WDone => true | _ => false end.

Definition count {A} (f : A -> bool) (l : list A) : Z := zlen (List.filter f l).

Definition busy (ws : list worker) : list Z :=
  omap (fun w => match w with WRun task => Some task | _ => None end) ws.

Record inv (p : t) : Prop := mk_inv {
  inv_bound : 0 < maxQueueSize_ p -> queueSize p <= maxQueueSize_ p;
  inv_fifo : pushed p = taken p ++ queue_ p;
  inv_work : running_ p = true -> count asleep_w (workers p) = 0 \/ queueSize p <= count awake_w (workers p);
  inv_room : running_ p = true ->
    count asleep_c (callers p) = 0 \/
    (0 < maxQueueSize_ p /\ maxQueueSize_ p - queueSize p <= count awake_c (callers p));
  inv_stopped : running_ p = false ->
    count asleep_w (workers p) = 0 /\ count asleep_c (callers p) = 0;
  inv_gone : running_ p = true -> count is_done (workers p) = zlen (thrown p) + initThrown p;
  inv_alive : workers p <> [];
  inv_done : executed p ++ thrown p ++ busy (workers p) ≡ₚ taken p;
}.

Lemma count_app {A} (f : A -> bool) l k : count f (l ++ k) = count f l + count f k.
Proof. unfold count. by rewrite List.filter_app, zlen_app. Qed.

Lemma count_cons {A} (f : A -> bool) x l : count f (x :: l) = (if f x then 1 else 0) + count f l.
Proof. unfold count. simpl. destruct (f x); by rewrite ?zlen_cons. Qed.

Lemma count_nonneg {A} (f : A -> bool) l : 0 <= count f l.
Proof. apply zlen_nonneg. Qed.
Lemma count_nil {A} (f : A -> bool) : count f [] = 0.
Proof. done. Qed.

Create Rewrite HintDb count.
#[local] Hint Rewrite @count_app @count_cons @count_nil : count.


Lemma busy_app ws ws' : busy (ws ++ ws') = busy ws ++ busy ws'.
Proof. apply omap_app. Qed.

(** What [notify] does to the sleepers and to everything else. *)
Lemma notify_workers ws ws' :
  notify wake_worker ws ws' ->
  busy ws' = busy ws /\ count is_done ws' = count is_done ws /\ (ws <> [] -> ws' <> []) /\
  (count asleep_w ws' = 0 \/
   (count awake_w ws' = count awake_w ws + 1 /\ count asleep_w ws' + 1 = count asleep_w ws)).
Proof.
  intros [l Hl|l1 x y l2 Hw].
  - split_and!; try done. left.
    induction Hl as [|x l Hx _ IH]; [done|]. rewrite count_cons, IH. by destruct x.
  - destruct x; try done. injection Hw as <-. rewrite !busy_app. autorewrite with count. simpl.
    split_and!; [done|lia|by destruct l1|right; lia].
Qed.

Lemma notify_callers cs cs' :
  notify wake_caller cs cs' ->
  count asleep_c cs' = 0 \/
  (count awake_c cs' = count awake_c cs + 1 /\ count asleep_c cs' + 1 = count asleep_c cs).
Proof.
  intros [l Hl|l1 x y l2 Hw].
  - left. induction Hl as [|x l Hx _ IH]; [done|]. rewrite count_cons, IH. by destruct x.
  - destruct x; try done. injection Hw as <-. autorewrite with count. simpl. right. lia.
Qed.

Lemma notifyAll_workers ws :
  count asleep_w (notifyAll wake_worker ws) = 0 /\ busy (notifyAll wake_worker ws) = busy ws.
Proof.
  induction ws as [|w ws [IH1 IH2]]; [done|]. cbn [notifyAll map].
  fold (notifyAll wake_worker ws). rewrite count_cons, IH1.
  split; [by destruct w|]. destruct w; (exact IH2 || exact (f_equal (cons task) IH2)).
Qed.

Lemma notifyAll_callers cs : count asleep_c (notifyAll wake_caller cs) = 0.
Proof.
  induction cs as [|c cs IH]; [done|]. cbn [notifyAll map].
  fold (notifyAll wake_caller cs). rewrite count_cons, IH. by destruct c.
Qed.

Lemma start_inv maxSize n :
  (0 < n)%nat -> exists p, start (new maxSize) n = Ok p /\ inv p.
Proof.
  intros Hn. eexists. split; [done|]. split; simpl; try done.
  - unfold queueSize, zlen. simpl. lia.
  - intros _. right. apply count_nonneg.
  - intros _. by left.
  - intros _. clear Hn. unfold zlen. simpl. induction n as [|n IH]; [done|]. simpl. by rewrite count_cons.
  - destruct n; [lia|done].
  - clear Hn. by induction n.
Qed.

Lemma run_queued p task q :
  run p task = Ok (RunQueued q) -> running_ p = true /\ isFull p = false /\ q = queue_ p ++ [task].
Proof.
  unfold run. destruct (isFull p), (running_ p); simpl; try done. intros E. injection E as <-. done.
Qed.

Lemma isFull_spec p : isFull p = true <-> 0 < maxQueueSize_ p /\ maxQueueSize_ p <= queueSize p.
Proof. unfold isFull. rewrite andb_true_iff, Z.ltb_lt, Z.leb_le. done. Qed.

Lemma caller_step p cs :
  inv p -> (running_ p = true -> count asleep_c cs = 0 \/
    (0 < maxQueueSize_ p /\ maxQueueSize_ p - queueSize p <= count awake_c cs)) ->
  (running_ p = false -> count asleep_c cs = 0) -> inv (set_callers p cs).
Proof.
  intros [] Hroom Hst. split; try done. intros Hr. split; [|by apply Hst]. simpl in Hr. by apply inv_stopped0.
Qed.

Lemma worker_step p ws :
  inv p -> (running_ p = true -> count asleep_w ws = 0 \/ queueSize p <= count awake_w ws) ->
  (running_ p = false -> count asleep_w ws = 0) -> (running_ p = true -> count is_done ws = count is_done (workers p)) ->
  ws <> [] -> busy ws = busy (workers p) -> inv (set_workers p ws).
Proof.
  intros [] Hw Hst Hd Hne Hb. split; try done.
  - intros Hr. split; [by apply Hst|]. simpl in Hr. by apply inv_stopped0.
  - intros Hr. simpl in *. rewrite (Hd Hr). by apply inv_gone0.
  - simpl. by rewrite Hb.
Qed.

(** Arithmetic on the counts of a list that is split at one thread. *)
Ltac counts :=
  autorewrite with count in *; cbn [asleep_w awake_w is_done asleep_c awake_c] in *;
  repeat match goal with
  | H : context [count ?f ?l] |- _ =>
      lazymatch goal with _ : 0 <= count f l |- _ => fail | _ => pose proof (count_nonneg f l) end
  | |- context [count ?f ?l] =>
      lazymatch goal with _ : 0 <= count f l |- _ => fail | _ => pose proof (count_nonneg f l) end
  end; try lia.

(** A worker moves to another state in which it holds no task and does not sleep. *)
Lemma worker_moves p l1 w w' l2 :
  inv p -> workers p = l1 ++ w :: l2 -> busy [w] = busy [w'] ->
  (asleep_w w' = true -> asleep_w w = true \/ (running_ p = true /\ queue_ p = [])) ->
  (running_ p = true -> is_done w' = is_done w /\ (awake_w w = true -> awake_w w' = true \/ asleep_w w' = true)) ->
  inv (set_workers p (l1 ++ w' :: l2)).
Proof.
  intros Hp Hws Hb Hs Hd. pose proof (inv_work p Hp) as Hwork. pose proof (inv_stopped p Hp) as Hstop.
  rewrite Hws in Hwork, Hstop.
  apply worker_step; [done| | | |by destruct l1|].
  - intros Hr. specialize (Hwork Hr). destruct (Hd Hr) as [_ Ha]. destruct (asleep_w w') eqn:E.
    + destruct w'; try done. destruct (Hs eq_refl) as [E'|[_ Hq]].
      * by destruct w.
      * right. unfold queueSize. rewrite Hq, zlen_nil. apply count_nonneg.
    + destruct w, w'; try discriminate; counts; destruct (Ha eq_refl); discriminate.
  - intros Hr. destruct (Hstop Hr) as [Hw _]. destruct (asleep_w w') eqn:E.
    + destruct (Hs eq_refl) as [E'|[? _]]; [|congruence]. destruct w, w'; try discriminate; counts.
    + destruct w, w'; try discriminate; counts.
  - intros Hr. destruct (Hd Hr) as [E _]. rewrite Hws, !count_app, !count_cons, E. done.
  - rewrite Hws. change (w' :: l2) with ([w'] ++ l2). change (w :: l2) with ([w] ++ l2).
    by rewrite !busy_app, Hb.
Qed.

Lemma caller_moves p l1 c c' l2 :
  inv p -> callers p = l1 ++ c :: l2 ->
  (asleep_c c' = true -> running_ p = true /\ isFull p = true) ->
  (awake_c c = true -> awake_c c' = false -> asleep_c c' = false -> running_ p = false) ->
  inv (set_callers p (l1 ++ c' :: l2)).
Proof.
  intros Hp Hcs Hs Ha. pose proof (inv_room p Hp) as Hroom. pose proof (inv_stopped p Hp) as Hstop.
  rewrite Hcs in Hroom, Hstop. apply caller_step; [done| |].
  - intros Hr. specialize (Hroom Hr). destruct (asleep_c c') eqn:E.
    + destruct (Hs eq_refl) as [_ Hf]. apply isFull_spec in Hf. right. destruct c'; try discriminate; counts.
    + destruct c, c'; try discriminate; counts; specialize (Ha eq_refl eq_refl eq_refl); congruence.
  - intros Hr. destruct (Hstop Hr) as [_ Hc]. destruct (asleep_c c') eqn:E.
    + destruct (Hs eq_refl). congruence.
    + destruct c, c'; try discriminate; counts.
Qed.

Lemma queued_keeps p l1 task l2 q ws :
  inv p -> callers p = l1 ++ CRun task :: l2 -> run p task = Ok (RunQueued q) ->
  notify wake_worker (workers p) ws ->
  inv (mk (maxQueueSize_ p) (running_ p) q ws (l1 ++ CQueued task :: l2)
         (pushed p ++ [task]) (taken p) (executed p) (thrown p) (initThrown p)).
Proof.
  intros Hp Hcs Hrun Hn. apply run_queued in Hrun as (Hr & Hf & ->).
  apply notify_workers in Hn as (Hb & Hd & Hne & Hcount).
  assert (0 < maxQueueSize_ p -> queueSize p < maxQueueSize_ p) as Hfull.
  { intros Hm. destruct (decide (queueSize p < maxQueueSize_ p)) as [|Hge]; [done|].
    rewrite (proj2 (isFull_spec p)) in Hf; [done|]. lia. }
  pose proof (inv_work p Hp Hr) as Hwork. pose proof (inv_room p Hp Hr) as Hroom.
  rewrite Hcs in Hroom. unfold queueSize in *.
  split; cbn [maxQueueSize_ running_ queue_ workers callers pushed taken executed thrown initThrown];
    unfold queueSize; cbn [queue_]; autorewrite with zlen.
  - intros Hm. specialize (Hfull Hm). lia.
  - rewrite (inv_fifo p Hp). by rewrite app_assoc.
  - intros _. destruct Hcount as [|Hcount]; [by left|]. destruct Hwork as [H0|]; [|right; lia].
    pose proof (count_nonneg asleep_w ws). lia.
  - intros _. counts.
  - congruence.
  - intros _. rewrite Hd. by apply Hp.
  - apply Hne, Hp.
  - rewrite Hb. apply Hp.
Qed.

Lemma take_keeps p l1 l2 task q (tell : bool) cs :
  inv p -> workers p = l1 ++ WTake :: l2 -> take p = TakeTask task q tell ->
  (if tell then notify wake_caller (callers p) cs else cs = callers p) ->
  inv (mk (maxQueueSize_ p) (running_ p) q (l1 ++ WRun task :: l2) cs
         (pushed p) (taken p ++ [task]) (executed p) (thrown p) (initThrown p)).
Proof.
  intros Hp Hws Ht Hn. unfold take in Ht. destruct (queue_ p) as [|task' q'] eqn:Hq;
    [by destruct (running_ p)|]. injection Ht as -> -> <-.
  pose proof (inv_bound p Hp) as Hbound. pose proof (inv_work p Hp) as Hwork.
  pose proof (inv_room p Hp) as Hroom. pose proof (inv_stopped p Hp) as Hstop.
  pose proof (inv_gone p Hp) as Hgone. pose proof (inv_done p Hp) as Hdone.
  rewrite Hws in Hwork, Hstop, Hgone, Hdone. unfold queueSize in *. rewrite Hq, zlen_cons in *.
  assert (running_ p = true -> count asleep_c cs = 0 \/
    (0 < maxQueueSize_ p /\ maxQueueSize_ p - zlen q <= count awake_c cs)) as Hroom'.
  { intros Hr. specialize (Hroom Hr). destruct (Z.ltb_spec 0 (maxQueueSize_ p)).
    - apply notify_callers in Hn as [|[Ha Hs]]; [by left|]. pose proof (count_nonneg asleep_c cs). lia.
    - subst cs. lia. }
  split; cbn [maxQueueSize_ running_ queue_ workers callers pushed taken executed thrown initThrown];
    unfold queueSize; cbn [queue_].
  - intros Hm. specialize (Hbound Hm). lia.
  - rewrite (inv_fifo p Hp), Hq. by rewrite <- app_assoc.
  - intros Hr. specialize (Hwork Hr). counts.
  - done.
  - intros Hr. destruct (Hstop Hr) as [Hw Hc]. split; [counts|].
    destruct (Z.ltb_spec 0 (maxQueueSize_ p)); [|congruence].
    apply notify_callers in Hn as [|[_ Hs]]; [done|]. pose proof (count_nonneg asleep_c cs). lia.
  - intros Hr. specialize (Hgone Hr). counts.
  - by destruct l1.
  - rewrite <- Hdone. change (WRun task :: l2) with ([WRun task] ++ l2).
    change (WTake :: l2) with ([WTake] ++ l2). rewrite !busy_app. simpl. solve_Permutation.
Qed.

Lemma finish_keeps p l1 task l2 :
  inv p -> workers p = l1 ++ WRun task :: l2 ->
  inv (mk (maxQueueSize_ p) (running_ p) (queue_ p) (l1 ++ WTest :: l2) (callers p)
         (pushed p) (taken p) (executed p ++ [task]) (thrown p) (initThrown p)).
Proof.
  intros Hp Hws. pose proof (inv_work p Hp) as Hwork. pose proof (inv_stopped p Hp) as Hstop.
  pose proof (inv_gone p Hp) as Hgone. pose proof (inv_done p Hp) as Hdone.
  rewrite Hws in Hwork, Hstop, Hgone, Hdone. unfold queueSize in *.
  split; cbn [maxQueueSize_ running_ queue_ workers callers pushed taken executed thrown initThrown];
    unfold queueSize; cbn [queue_]; try apply Hp.
  - intros Hr. specialize (Hwork Hr). counts.
  - intros Hr. specialize (Hstop Hr). counts.
  - intros Hr. specialize (Hgone Hr). counts.
  - by destruct l1.
  - rewrite <- Hdone. change (WRun task :: l2) with ([WRun task] ++ l2).
    change (WTest :: l2) with ([WTest] ++ l2). rewrite !busy_app. simpl. solve_Permutation.
Qed.

(** A worker that is left by an exception ends; it neither slept nor was about to look
    at the queue. *)
Lemma ends_keeps p l1 w l2 th k :
  inv p -> workers p = l1 ++ w :: l2 -> asleep_w w = false -> awake_w w = false -> is_done w = false ->
  busy [w] = th -> zlen th + k = 1 ->
  inv (mk (maxQueueSize_ p) (running_ p) (queue_ p) (l1 ++ WDone :: l2) (callers p)
         (pushed p) (taken p) (executed p) (thrown p ++ th) (initThrown p + k)).
Proof.
  intros Hp Hws Hs Ha Hi Hb Hk. pose proof (inv_work p Hp) as Hwork. pose proof (inv_stopped p Hp) as Hstop.
  pose proof (inv_gone p Hp) as Hgone. pose proof (inv_done p Hp) as Hdone.
  rewrite Hws in Hwork, Hstop, Hgone, Hdone. unfold queueSize in *.
  split; cbn [maxQueueSize_ running_ queue_ workers callers pushed taken executed thrown initThrown];
    unfold queueSize; cbn [queue_]; try apply Hp.
  - intros Hr. specialize (Hwork Hr). autorewrite with count in *. rewrite Hs, Ha in Hwork. simpl. lia.
  - intros Hr. specialize (Hstop Hr). autorewrite with count in *. rewrite Hs in Hstop. simpl. lia.
  - intros Hr. specialize (Hgone Hr). autorewrite with count in *. rewrite Hi in Hgone. rewrite zlen_app. simpl. lia.
  - by destruct l1.
  - rewrite <- Hdone. change (WDone :: l2) with ([WDone] ++ l2). change (w :: l2) with ([w] ++ l2).
    rewrite !busy_app, Hb. simpl. solve_Permutation.
Qed.

Lemma stop_keeps p : inv p -> inv (stop p).
Proof.
  intros Hp. destruct (notifyAll_workers (workers p)) as [Hw Hb].
  split; cbn [stop maxQueueSize_ running_ queue_ workers callers pushed taken executed thrown initThrown]; try done; try apply Hp.
  - intros _. split; [done|apply notifyAll_callers].
  - pose proof (inv_alive p Hp). by destruct (workers p).
  - rewrite Hb. apply Hp.
Qed.

Lemma step_keeps p p' : step p p' -> inv p -> inv p'.
Proof.
  intros Hstep Hp. destruct Hstep.
  - by destruct (inv_alive p Hp).
  - pose proof (inv_room p Hp). pose proof (inv_stopped p Hp). apply caller_step; [done| |].
    + intros Hr. specialize (H0 Hr). counts.
    + intros Hr. specialize (H1 Hr). counts.
  - apply (caller_moves p l1 (CRun task) (CWait task) l2); try done. intros _.
    unfold run in H0. by destruct (isFull p), (running_ p).
  - apply (caller_moves p l1 (CRun task) (CRefused task) l2); try done. intros _ _ _.
    unfold run in H0. by destruct (isFull p), (running_ p).
  - by apply queued_keeps.
  - by apply (caller_moves p l1 (CWait task) (CRun task) l2).
  - apply (worker_moves p l1 WInit WTest l2); by try done.
  - rewrite <- (app_nil_r (thrown p)). by apply (ends_keeps p l1 WInit l2 [] 1).
  - apply (worker_moves p l1 WTest _ l2); try done; try (by destruct (running_ p)).
    intros ->. split; [done|by left].
  - apply (worker_moves p l1 WTake WWait l2); try done; [|by split; [|right]]. intros _. right.
    unfold take in H0. by destruct (queue_ p), (running_ p).
  - apply (worker_moves p l1 WTake WTest l2); try done. by split; [|left].
  - by eapply take_keeps.
  - by apply (worker_moves p l1 WWait WTake l2).
  - by apply finish_keeps.
  - rewrite <- (Z.add_0_r (initThrown p)). by apply (ends_keeps p l1 (WRun task) l2 [task] 0).
  - by apply stop_keeps.
Qed.

(** C15. The task pool, under every interleaving of callers and workers, with tasks and
    initialisation callbacks that return or throw: the queue never exceeds its bound;
    tasks are taken exactly in the order in which they were queued, each exactly once,
    and every task taken is finished, has thrown (which ends its worker) or is being
    run; while the pool runs each worker that is gone was ended by an exception, and no
    wakeup is lost (a worker sleeps only if for every queued task there is a worker
    about to look at the queue, a caller only if there is an awake caller for every free
    place); after [stop] nobody sleeps. *)
Theorem threadpool_correct maxSize n p0 p :
  (0 < n)%nat -> start (new maxSize) n = Ok p0 -> rtc step p0 p ->
  (0 < maxSize -> queueSize p <= maxSize) /\
  pushed p = taken p ++ queue_ p /\
  executed p ++ thrown p ++ busy (workers p) ≡ₚ taken p /\
  (running_ p = true ->
     count is_done (workers p) = zlen (thrown p) + initThrown p /\
     (count asleep_w (workers p) = 0 \/ queueSize p <= count awake_w (workers p)) /\
     (count asleep_c (callers p) = 0 \/ maxSize - queueSize p <= count awake_c (callers p))) /\
  (running_ p = false -> count asleep_w (workers p) = 0 /\ count asleep_c (callers p) = 0).
Proof.
  intros Hn Hstart Hreach. destruct (start_inv maxSize n Hn) as (p1 & E & Hp1).
  rewrite Hstart in E. injection E as <-.
  assert (inv p /\ maxQueueSize_ p = maxSize) as [Hp Hm].
  { revert p Hreach. apply (rtc_ind_r (fun p => inv p /\ maxQueueSize_ p = maxSize)); [|intros x y _ Hs [Hx Hmx]].
    - split; [done|]. unfold start in Hstart. by injection Hstart as <-.
    - split; [by eapply step_keeps|]. by destruct Hs. }
  rewrite <- Hm. split_and!; try apply Hp. intros Hr. pose proof (inv_room p Hp Hr).
  split_and!; [by apply Hp|by apply Hp|]. intuition.
Qed.

(** A pool of two workers with room for one task: two callers, one of which has to wait
    and is woken when the first task is taken; that task throws and ends its worker. *)
Definition demo0 : t := mk 1 true [] [WInit; WInit] [] [] [] [] [] 0.
Definition demo1 : t := mk 1 true [10] [WTake; WInit] [CQueued 10; CWait 11] [10] [] [] [] 0.
Definition demo2 : t := mk 1 true [] [WDone; WInit] [CQueued 10; CRun 11] [10] [10] [] [10] 0.

Lemma pool_demo_reachable : rtc step demo0 demo2.
Proof.
  set (z := mk 1 true [] [WTest; WInit] [] [] [] [] [] 0). set (a := mk 1 true [] [WTake; WInit] [] [] [] [] [] 0).
  set (b := mk 1 true [] [WTake; WInit] [CRun 10] [] [] [] [] 0).
  set (c := mk 1 true [] [WTake; WInit] [CRun 10; CRun 11] [] [] [] [] 0).
  set (d := mk 1 true [10] [WTake; WInit] [CQueued 10; CRun 11] [10] [] [] [] 0).
  apply rtc_l with z; [by apply (StepInit demo0 [] [WInit])|]. apply rtc_l with a; [by apply (StepTest z [] [WInit])|].
  apply rtc_l with b; [by apply (StepRun a 10)|]. apply rtc_l with c; [by apply (StepRun b 11)|].
  apply rtc_l with d.
  { apply (StepRunQueued c [] 10 [CRun 11] [10] [WTake; WInit]); [done|done|]. apply NotifyNobody. by repeat constructor. }
  apply rtc_l with demo1; [by apply (StepRunWait d [CQueued 10] 11 [])|].
  eapply rtc_l.
  { apply (StepTakeTask demo1 [] [WInit] 10 [] true [CQueued 10; CRun 11]); [done|done|].
    by apply (NotifyOne wake_caller [CQueued 10] (CWait 11) (CRun 11) []). }
  eapply rtc_l; [|apply rtc_refl]. by apply (StepThrow (mk 1 true [] [WRun 10; WInit] [CQueued 10; CRun 11] [10] [10] [] [] 0) [] 10 [WInit]).
Qed.

Lemma threadpool_correct_witness :
  pushed demo2 = taken demo2 ++ queue_ demo2 /\
  (count asleep_c (callers demo2) = 0 \/ 1 - queueSize demo2 <= count awake_c (callers demo2)).
Proof.
  destruct (threadpool_correct 1 2 demo0 demo2 ltac:(lia) ltac:(reflexivity) pool_demo_reachable)
    as (_ & H1 & _ & H2 & _).
  split; [exact H1|]. by apply H2.
Defined.
End ThreadPool.
