(* ===== verification/Timers.v ===== *)
(** Timers: [Timer] and [TimerQueue] (src/libel/net/timer.h, timer.cpp,
    timerId.h, timerqueue.h, timerqueue.cpp). *)

From Stdlib Require Import Sorted.
From S2P Require Import Prelude NumText TimeText.

(** ** [Timer]

    The callback is a name; what it does is given to [TimerQueue.handleRead].
    [interval_] is in microseconds, as [addTime] converts it. *)
Module Timer.
Record t := mk {
  callback_ : Z;
  expiration_ : TimeStamp.t;
  interval_ : Z;
  repeat_ : bool;
  sequence_ : Z;
}.

(** The constructor; [numCreated] is the counter before [s_numCreated_++]. *)
Definition new (numCreated cb : Z) (when : TimeStamp.t) (interval : Z) : t :=
  {| callback_ := cb; expiration_ := when; interval_ := interval;
     repeat_ := 0 <? interval; sequence_ := numCreated |}.

Definition restart (x : t) (now : TimeStamp.t) : t :=
  {| callback_ := callback_ x;
     expiration_ := if repeat_ x then TimeStamp.addTime now (interval_ x) else TimeStamp.invalid;
     interval_ := interval_ x; repeat_ := repeat_ x; sequence_ := sequence_ x |}.
End Timer.

(** ** [std::set<Entry>]

    An [Entry] is an expiration and the address of a timer; the set is the list
    of its elements in the order of [std::pair]. *)
Module EntrySet.
Abbreviation entry := (TimeStamp.t * Z)%type.

Definition lt (x y : entry) : bool :=
  TimeStamp.op_lt x.1 y.1 || (negb (TimeStamp.op_lt y.1 x.1) && (x.2 <? y.2)).

(** [insert]: the set and whether the element is new. *)
Fixpoint insert (e : entry) (s : list entry) : list entry * bool :=
  match s with
  | [] => ([e], true)
  | x :: rest =>
      if lt e x then (e :: s, true)
      else if lt x e then match insert e rest with (rest', b) => (x :: rest', b) end
      else (s, false)
  end.

(** [erase(key)]: the set and the number of elements removed. *)
Fixpoint erase (e : entry) (s : list entry) : list entry * Z :=
  match s with
  | [] => ([], 0)
  | x :: rest =>
      if lt x e then match erase e rest with (rest', n) => (x :: rest', n) end
      else if lt e x then (s, 0)
      else (rest, 1)
  end.

(** [lower_bound(key)], as the split of the sequence at that iterator. *)
Fixpoint before (e : entry) (s : list entry) : list entry :=
  match s with
  | [] => []
  | x :: rest => if lt x e then x :: before e rest else []
  end.
Fixpoint from (e : entry) (s : list entry) : list entry :=
  match s with
  | [] => []
  | x :: rest => if lt x e then from e rest else s
  end.

Definition ltP (x y : entry) : Prop := x.1 < y.1 \/ (x.1 = y.1 /\ x.2 < y.2).

Lemma ltb_spec x y : reflect (ltP x y) (lt x y).
Proof.
  unfold lt, ltP, TimeStamp.op_lt. apply iff_reflect.
  rewrite orb_true_iff, andb_true_iff, negb_true_iff, !Z.ltb_lt, Z.ltb_ge. lia.
Qed.

Lemma ltP_trans x y z : ltP x y -> ltP y z -> ltP x z.
Proof. unfold ltP. lia. Qed.

Lemma not_lt_eq x y : ~ ltP x y -> ~ ltP y x -> x = y.
Proof. unfold ltP. destruct x, y; simpl. intros. f_equal; lia. Qed.

Abbreviation sorted := (StronglySorted ltP).

Lemma sorted_nodup s : sorted s -> NoDup s.
Proof.
  induction 1 as [|x s Hs IH Hx]; constructor; [|done].
  intros Hin. rewrite Forall_forall in Hx. specialize (Hx x Hin). unfold ltP in Hx. lia.
Qed.

Lemma entry_insert_spec e s :
  sorted s -> e ∉ s -> exists s', insert e s = (s', true) /\ sorted s' /\ s' ≡ₚ e :: s.
Proof.
  intros Hs. induction Hs as [|x s Hs IH Hx]; intros He; simpl.
  { eexists; split_and!; [done|repeat constructor|done]. }
  apply not_elem_of_cons in He as [Hne He].
  destruct (ltb_spec e x) as [Hlt|Hnlt].
  - eexists; split_and!; [done| |done]. constructor; [by constructor|].
    constructor; [done|]. eapply Forall_impl; [exact Hx|]. eauto using ltP_trans.
  - destruct (ltb_spec x e) as [Hlt|Hnlt2]; [|destruct Hne; by apply not_lt_eq].
    destruct (IH He) as (s' & -> & Hs' & Hp).
    eexists; split_and!; [done| |rewrite Hp; constructor].
    constructor; [done|]. rewrite Hp. by constructor.
Qed.

Lemma erase_spec e s :
  sorted s -> e ∈ s -> exists s', erase e s = (s', 1) /\ sorted s' /\ s ≡ₚ e :: s'.
Proof.
  intros Hs. induction Hs as [|x s Hs IH Hx]; intros He; simpl; [by apply not_elem_of_nil in He|].
  apply elem_of_cons in He as [->|He].
  - destruct (ltb_spec x x) as [Hlt|_]; [unfold ltP in Hlt; lia|]. eauto.
  - assert (ltP x e) as Hxe by (rewrite Forall_forall in Hx; auto).
    destruct (ltb_spec x e) as [_|]; [|done].
    destruct (IH He) as (s' & -> & Hs' & Hp).
    eexists; split_and!; [done| |rewrite Hp; constructor].
    constructor; [done|]. rewrite Hp in Hx. by inversion Hx.
Qed.

Lemma before_from e s : before e s ++ from e s = s.
Proof. induction s as [|x s IH]; simpl; [done|]. case_match; simpl; congruence. Qed.

Lemma before_lt e s : Forall (fun x => ltP x e) (before e s).
Proof.
  induction s as [|x s IH]; simpl; [done|].
  destruct (ltb_spec x e); [by constructor|done].
Qed.

Lemma from_ge e s : sorted s -> Forall (fun x => ~ ltP x e) (from e s).
Proof.
  induction 1 as [|x s Hs IH Hx]; simpl; [done|].
  destruct (ltb_spec x e); [done|]. constructor; [done|].
  eapply Forall_impl; [exact Hx|]. intros y Hy Hye. eauto using ltP_trans.
Qed.

Lemma sorted_app_inv l k : sorted (l ++ k) -> sorted l /\ sorted k.
Proof.
  induction l as [|x l IH]; simpl; [split; [constructor|done]|].
  intros H. inversion H as [|? ? Hs Hx]; subst. apply IH in Hs as [? ?].
  split; [|done]. constructor; [done|]. by apply Forall_app in Hx as [? _].
Qed.
End EntrySet.

(** ** [TimerQueue] *)
Module TimerQueue.
Import Timer.

(** The allocator behind [new Timer]: an address that no live object has.  Timers
    stay allocated as long as a [TimerId] or the queue refers to them, so that an
    address in use is never handed out again. *)
Class Allocator := {
  malloc : gset Z -> Z;
  malloc_fresh used : malloc used ∉ used;
  malloc_nonnull used : 0 < malloc used;
}.

Record timespec := mk_timespec { tv_sec : Z; tv_nsec : Z }.

(** [heap] holds the timers by address; [trace] lists the timers whose callback
    has been called; [armed] is the pending [timerfd_settime]: the expiration
    asked for and the relative time given to the kernel.  The last two fields are
    history: the clock when the timerfd was last set, and the timers that were
    pending when they were cancelled. *)
Record t := mk {
  heap : gmap Z Timer.t;
  s_numCreated_ : Z;
  timers_ : list EntrySet.entry;
  activeTimers_ : gset (Z * Z);
  callingExpiredTimers_ : bool;
  cancelingTimers_ : gset (Z * Z);
  armed : option (TimeStamp.t * timespec);
  trace : list Z;
  armed_at : TimeStamp.t;
  dropped : gset (Z * Z);
}.

Definition new : t :=
  {| heap := ∅; s_numCreated_ := 0; timers_ := []; activeTimers_ := ∅;
     callingExpiredTimers_ := false; cancelingTimers_ := ∅; armed := None; trace := [];
     armed_at := 0; dropped := ∅ |}.

Definition with_sets (q : t) (ts : list EntrySet.entry) (act : gset (Z * Z)) : t :=
  {| heap := heap q; s_numCreated_ := s_numCreated_ q; timers_ := ts; activeTimers_ := act;
     callingExpiredTimers_ := callingExpiredTimers_ q; cancelingTimers_ := cancelingTimers_ q;
     armed := armed q; trace := trace q; armed_at := armed_at q; dropped := dropped q |}.
Definition with_heap (q : t) (h : gmap Z Timer.t) (n : Z) : t :=
  {| heap := h; s_numCreated_ := n; timers_ := timers_ q; activeTimers_ := activeTimers_ q;
     callingExpiredTimers_ := callingExpiredTimers_ q; cancelingTimers_ := cancelingTimers_ q;
     armed := armed q; trace := trace q; armed_at := armed_at q; dropped := dropped q |}.
Definition with_calling (q : t) (b : bool) (c : gset (Z * Z)) : t :=
  {| heap := heap q; s_numCreated_ := s_numCreated_ q; timers_ := timers_ q;
     activeTimers_ := activeTimers_ q; callingExpiredTimers_ := b; cancelingTimers_ := c;
     armed := armed q; trace := trace q; armed_at := armed_at q; dropped := dropped q |}.
Definition with_armed (q : t) (a : option (TimeStamp.t * timespec)) (clock : TimeStamp.t) : t :=
  {| heap := heap q; s_numCreated_ := s_numCreated_ q; timers_ := timers_ q;
     activeTimers_ := activeTimers_ q; callingExpiredTimers_ := callingExpiredTimers_ q;
     cancelingTimers_ := cancelingTimers_ q; armed := a; trace := trace q;
     armed_at := clock; dropped := dropped q |}.
Definition with_trace (q : t) (l : list Z) : t :=
  {| heap := heap q; s_numCreated_ := s_numCreated_ q; timers_ := timers_ q;
     activeTimers_ := activeTimers_ q; callingExpiredTimers_ := callingExpiredTimers_ q;
     cancelingTimers_ := cancelingTimers_ q; armed := armed q; trace := l;
     armed_at := armed_at q; dropped := dropped q |}.
Definition with_dropped (q : t) (d : gset (Z * Z)) : t :=
  {| heap := heap q; s_numCreated_ := s_numCreated_ q; timers_ := timers_ q;
     activeTimers_ := activeTimers_ q; callingExpiredTimers_ := callingExpiredTimers_ q;
     cancelingTimers_ := cancelingTimers_ q; armed := armed q; trace := trace q;
     armed_at := armed_at q; dropped := d |}.

(** [clock] is what [TimeStamp::now()] returns in the call. *)
Definition howMuchTimeFromNow (clock when : TimeStamp.t) : timespec :=
  let ms := int64 (when - clock) in
  let ms := if ms <? 100 then 100 else ms in
  {| tv_sec := Z.quot ms TimeStamp.kMicroSecondsPerSecond;
     tv_nsec := Z.rem ms TimeStamp.kMicroSecondsPerSecond * 1000 |}.

Definition resetTimerfd (q : t) (clock expiration : TimeStamp.t) : t :=
  with_armed q (Some (expiration, howMuchTimeFromNow clock expiration)) clock.

(** [read] on the timerfd: the one-shot timer is spent. *)
Definition readTimerfd (q : t) : t := with_armed q None (armed_at q).

Definition sizes_agree (q : t) : bool := zlen (timers_ q) =? Z.of_nat (size (activeTimers_ q)).

Section operations.
(** Whether the caller runs in the loop's thread. *)
Variable inLoop : bool.

Definition insert (q : t) (timer : Z) : outcome (bool * t) :=
  _ ← assertInLoopThread inLoop ;
  tm ← deref (heap q !! timer) ;
  let when := expiration_ tm in
  let earliestChanged :=
    match timers_ q with [] => true | it :: _ => TimeStamp.op_lt when it.1 end in
  match EntrySet.insert (when, timer) (timers_ q) with
  | (timers', inserted) =>
      _ ← assert_ inserted ;
      _ ← assert_ (bool_decide ((timer, sequence_ tm) ∉ activeTimers_ q)) ;
      let q' := with_sets q timers' ({[(timer, sequence_ tm)]} ∪ activeTimers_ q) in
      _ ← assert_ (sizes_agree q') ;
      mret (earliestChanged, q')
  end.

Definition addTimerInLoop (q : t) (clock : TimeStamp.t) (timer : Z) : outcome t :=
  _ ← assertInLoopThread inLoop ;
  r ← insert q timer ;
  tm ← deref (heap r.2 !! timer) ;
  mret (if r.1 : bool then resetTimerfd r.2 clock (expiration_ tm) else r.2).

(** [addTimer] up to [runInLoop]: the timer is created (by any thread). *)
Definition newTimer `{Allocator} (q : t) (cb : Z) (when : TimeStamp.t) (interval : Z) : Z * t :=
  let a := malloc (dom (heap q)) in
  let tm := Timer.new (s_numCreated_ q) cb when interval in
  (a, with_heap q (<[a := tm]> (heap q)) (s_numCreated_ q + 1)).

(** [addTimer] called in the loop's thread, where [runInLoop] runs at once. *)
Definition addTimer `{Allocator} (q : t) (clock : TimeStamp.t) (cb : Z) (when : TimeStamp.t)
  (interval : Z) : outcome ((Z * Z) * t) :=
  match newTimer q cb when interval with
  | (a, q') =>
      q'' ← addTimerInLoop q' clock a ;
      mret ((a, s_numCreated_ q), q'')
  end.

(** A [TimerId] is an address and a sequence number. *)
Definition cancelInLoop (q : t) (timerId : Z * Z) : outcome t :=
  _ ← assertInLoopThread inLoop ;
  _ ← assert_ (sizes_agree q) ;
  q' ← (if decide (timerId ∈ activeTimers_ q) then
          tm ← deref (heap q !! timerId.1) ;
          match EntrySet.erase (expiration_ tm, timerId.1) (timers_ q) with
          | (timers', n) =>
              _ ← assert_ (n =? 1) ;
              mret (with_dropped (with_sets q timers' (activeTimers_ q ∖ {[timerId]}))
                      ({[timerId]} ∪ dropped q))
          end
        else if callingExpiredTimers_ q then
          mret (with_calling q true ({[timerId]} ∪ cancelingTimers_ q))
        else mret q) ;
  _ ← assert_ (sizes_agree q') ;
  mret q'.

(** The loop of [getExpired] over the expired entries. *)
Fixpoint erase_active (h : gmap Z Timer.t) (act : gset (Z * Z)) (expired : list EntrySet.entry)
  : outcome (gset (Z * Z)) :=
  match expired with
  | [] => mret act
  | it :: rest =>
      tm ← deref (h !! it.2) ;
      _ ← assert_ (bool_decide ((it.2, sequence_ tm) ∈ act)) ;
      erase_active h (act ∖ {[(it.2, sequence_ tm)]}) rest
  end.

Definition getExpired (q : t) (now : TimeStamp.t) : outcome (list EntrySet.entry * t) :=
  _ ← assert_ (sizes_agree q) ;
  let sentry := (int64 (now + 1), 0) in
  let expired := EntrySet.before sentry (timers_ q) in
  let remaining := EntrySet.from sentry (timers_ q) in
  _ ← assert_ (match remaining with [] => true | e :: _ => TimeStamp.op_lt now e.1 end) ;
  act ← erase_active (heap q) (activeTimers_ q) expired ;
  let q' := with_sets q remaining act in
  _ ← assert_ (sizes_agree q') ;
  mret (expired, q').

Fixpoint reset_loop (q : t) (expired : list EntrySet.entry) (now : TimeStamp.t) : outcome t :=
  match expired with
  | [] => mret q
  | it :: rest =>
      tm ← deref (heap q !! it.2) ;
      if repeat_ tm && bool_decide ((it.2, sequence_ tm) ∉ cancelingTimers_ q) then
        let q := with_heap q (<[it.2 := restart tm now]> (heap q)) (s_numCreated_ q) in
        r ← insert q it.2 ;
        reset_loop r.2 rest now
      else reset_loop q rest now
  end.

Definition reset (q : t) (expired : list EntrySet.entry) (now clock : TimeStamp.t) : outcome t :=
  q ← reset_loop q expired now ;
  nextExpire ← (match timers_ q with
                | [] => mret TimeStamp.invalid
                | e :: _ => tm ← deref (heap q !! e.2) ; mret (expiration_ tm)
                end) ;
  mret (if TimeStamp.valid nextExpire then resetTimerfd q clock nextExpire else q).

(** What a callback may do to the queue, in the loop's thread. *)
Inductive action :=
  | AddTimer (clock : TimeStamp.t) (cb : Z) (when : TimeStamp.t) (interval : Z)
  | CancelTimer (timerId : Z * Z).

Fixpoint perform `{Allocator} (q : t) (acts : list action) : outcome t :=
  match acts with
  | [] => mret q
  | AddTimer clock cb when interval :: rest =>
      r ← addTimer q clock cb when interval ;
      perform r.2 rest
  | CancelTimer id :: rest => q ← cancelInLoop q id ; perform q rest
  end.

(** The behaviour of the callbacks: what the named callback does in a state. *)
Variable callback : Z -> t -> list action.

(** The loop [for (it : expired) it.second->run();] *)
Fixpoint run_all `{Allocator} (q : t) (expired : list EntrySet.entry) : outcome t :=
  match expired with
  | [] => mret q
  | it :: rest =>
      tm ← deref (heap q !! it.2) ;
      let q := with_trace q (trace q ++ [it.2]) in
      q ← perform q (callback (callback_ tm) q) ;
      run_all q rest
  end.

Definition handleRead `{Allocator} (q : t) (now clock : TimeStamp.t) : outcome t :=
  _ ← assertInLoopThread inLoop ;
  let q := readTimerfd q in
  r ← getExpired q now ;
  let q := with_calling r.2 true ∅ in
  q ← run_all q r.1 ;
  let q := with_calling q false (cancelingTimers_ q) in
  reset q r.1 now clock.
End operations.

(** ** The invariant *)
Definition seq_of (h : gmap Z Timer.t) (a : Z) : Z :=
  match h !! a with Some tm => sequence_ tm | None => 0 end.
Definition active_of (h : gmap Z Timer.t) (e : EntrySet.entry) : Z * Z := (e.2, seq_of h e.2).

Definition interval_ok (i : Z) : Prop := - 2 ^ 62 < i < 2 ^ 62.

(** [timers_] and [activeTimers_] describe the same timers, each under its
    current expiration. *)
Record ok (q : t) : Prop := {
  ok_sorted : EntrySet.sorted (timers_ q);
  ok_entry e : e ∈ timers_ q -> exists tm, heap q !! e.2 = Some tm /\ expiration_ tm = e.1;
  ok_active : activeTimers_ q = list_to_set (map (active_of (heap q)) (timers_ q));
  ok_heap a tm : heap q !! a = Some tm ->
    0 < a /\ interval_ok (interval_ tm) /\ repeat_ tm = (0 <? interval_ tm);
}.

(** The addresses of the pending timers. *)
Definition pending (q : t) : list Z := map snd (timers_ q).

Lemma elem_of_pending a q : a ∈ pending q <-> exists x, (x, a) ∈ timers_ q.
Proof.
  unfold pending. rewrite list_elem_of_fmap. split.
  - intros ([x b] & -> & H). eauto.
  - intros (x & H). exists (x, a). eauto.
Qed.

Lemma ok_addr_inj q e e' : ok q -> e ∈ timers_ q -> e' ∈ timers_ q -> e.2 = e'.2 -> e = e'.
Proof.
  intros Hq H H' E. destruct (ok_entry q Hq e H) as (tm & Hl & He).
  destruct (ok_entry q Hq e' H') as (tm' & Hl' & He'). destruct e, e'; simpl in *. congruence.
Qed.

Lemma active_of_inj q e e' :
  ok q -> e ∈ timers_ q -> e' ∈ timers_ q -> active_of (heap q) e = active_of (heap q) e' -> e = e'.
Proof. intros Hq H H' E. injection E as E _. eauto using ok_addr_inj. Qed.

Lemma nodup_active q : ok q -> NoDup (map (active_of (heap q)) (timers_ q)).
Proof.
  intros Hq. apply NoDup_fmap_2_strong; [|apply EntrySet.sorted_nodup, Hq].
  intros x y Hx Hy. by apply active_of_inj.
Qed.

Lemma ok_sizes q : ok q -> sizes_agree q = true.
Proof.
  intros Hq. unfold sizes_agree. rewrite (ok_active q Hq), size_list_to_set by by apply nodup_active.
  rewrite length_map. apply Z.eqb_refl.
Qed.

Lemma elem_of_active q a s :
  ok q -> (a, s) ∈ activeTimers_ q <->
    exists tm, heap q !! a = Some tm /\ sequence_ tm = s /\ (expiration_ tm, a) ∈ timers_ q.
Proof.
  intros Hq. rewrite (ok_active q Hq), elem_of_list_to_set, list_elem_of_fmap. split.
  - intros ([x b] & E & H). unfold active_of, seq_of in E; simpl in E.
    destruct (ok_entry q Hq _ H) as (tm & Hl & He). simpl in *. rewrite Hl in E.
    injection E as -> ->. exists tm. by rewrite He.
  - intros (tm & Hl & <- & H). exists (expiration_ tm, a). split; [|done].
    unfold active_of, seq_of. simpl. by rewrite Hl.
Qed.

(** [active_of] only depends on the timers in the list. *)
Lemma active_of_ext h h' l :
  (forall e, e ∈ l -> seq_of h e.2 = seq_of h' e.2) -> map (active_of h) l = map (active_of h') l.
Proof.
  intros H. apply list_fmap_ext. intros i e He. unfold active_of. rewrite H; [done|].
  by eapply list_elem_of_lookup_2.
Qed.

Lemma insert_ok q a tm :
  ok q -> heap q !! a = Some tm -> a ∉ pending q ->
  exists ts act, let q' := with_sets q ts act in
    insert true q a =
      Ok (match timers_ q with [] => true | it :: _ => TimeStamp.op_lt (expiration_ tm) it.1 end, q')
    /\ ok q' /\ ts ≡ₚ (expiration_ tm, a) :: timers_ q.
Proof.
  intros Hq Ha Hp.
  destruct (EntrySet.entry_insert_spec (expiration_ tm, a) (timers_ q)) as (ts & Hins & Hs & Hperm).
  { apply Hq. } { intros H. apply Hp, elem_of_pending. eauto. }
  set (act := {[(a, sequence_ tm)]} ∪ activeTimers_ q).
  assert (ok (with_sets q ts act)) as Hok.
  { constructor; simpl.
    - done.
    - intros e. rewrite Hperm. intros [->|H]%elem_of_cons; [by exists tm|by apply Hq].
    - rewrite (list_to_set_perm_L _ (map (active_of (heap q)) ((expiration_ tm, a) :: timers_ q)))
        by by apply fmap_Permutation.
      simpl. unfold act. rewrite (ok_active q Hq). unfold active_of at 2, seq_of. simpl.
      by rewrite Ha.
    - apply Hq. }
  exists ts, act. split_and!; [|done|done].
  unfold insert. simpl. rewrite Ha. simpl. rewrite Hins. simpl.
  rewrite assert_pass.
  - by rewrite assert_pass by by apply ok_sizes.
  - apply bool_decide_eq_true_2. rewrite elem_of_active by done.
    intros (tm' & _ & _ & H). apply Hp, elem_of_pending. eauto.
Qed.

(** Removing one entry together with its active record. *)
Lemma remove_ok q e ts :
  ok q -> timers_ q ≡ₚ e :: ts -> EntrySet.sorted ts ->
  ok (with_sets q ts (activeTimers_ q ∖ {[active_of (heap q) e]})).
Proof.
  intros Hq Hp Hs. pose proof (nodup_active q Hq) as Hnd. constructor; simpl.
  - done.
  - intros e' H. apply Hq. rewrite Hp. by constructor.
  - rewrite (ok_active q Hq).
    assert (map (active_of (heap q)) (timers_ q) ≡ₚ map (active_of (heap q)) (e :: ts)) as Hp'
      by by apply fmap_Permutation.
    rewrite (list_to_set_perm_L _ _ Hp'). rewrite Hp' in Hnd. simpl in *.
    apply NoDup_cons in Hnd as [Hni _].
    rewrite difference_union_distr_l_L, difference_diag_L, union_empty_l_L.
    apply difference_disjoint_L. rewrite disjoint_singleton_r, elem_of_list_to_set. done.
  - apply Hq.
Qed.

Lemma ok_with_dropped q d : ok q -> ok (with_dropped q d).
Proof. intros []. by constructor. Qed.

Lemma cancel_active q a s tm :
  ok q -> heap q !! a = Some tm -> sequence_ tm = s -> (expiration_ tm, a) ∈ timers_ q ->
  exists ts act, let q' := with_dropped (with_sets q ts act) ({[(a, s)]} ∪ dropped q) in
    cancelInLoop true q (a, s) = Ok q' /\ ok q' /\ timers_ q ≡ₚ (expiration_ tm, a) :: ts.
Proof.
  intros Hq Ha <- Hin.
  destruct (EntrySet.erase_spec (expiration_ tm, a) (timers_ q)) as (ts & He & Hs & Hp);
    [apply Hq|done|].
  exists ts, (activeTimers_ q ∖ {[(a, sequence_ tm)]}).
  assert (ok (with_sets q ts (activeTimers_ q ∖ {[(a, sequence_ tm)]}))) as Hok.
  { pose proof (remove_ok q _ ts Hq Hp Hs) as H. unfold active_of, seq_of in H. simpl in H.
    by rewrite Ha in H. }
  apply (ok_with_dropped _ ({[(a, sequence_ tm)]} ∪ dropped q)) in Hok.
  split_and!; [|done|done]. unfold cancelInLoop. simpl.
  rewrite assert_pass by by apply ok_sizes.
  rewrite decide_True by (apply elem_of_active; eauto).
  simpl. rewrite Ha. simpl. rewrite He. simpl. by rewrite assert_pass by by apply ok_sizes.
Qed.

Lemma cancel_inactive q id :
  ok q -> id ∉ activeTimers_ q ->
  cancelInLoop true q id =
    Ok (if callingExpiredTimers_ q then with_calling q true ({[id]} ∪ cancelingTimers_ q) else q).
Proof.
  intros Hq Hid. unfold cancelInLoop. simpl. rewrite assert_pass by by apply ok_sizes.
  rewrite decide_False by done. pose proof (ok_sizes q Hq) as Hs.
  case_match; simpl; by rewrite assert_pass.
Qed.

(** The records that do not take part in the invariant. *)
Lemma ok_with_calling q b c : ok q -> ok (with_calling q b c).
Proof. intros []. by constructor. Qed.
Lemma ok_with_armed q x c : ok q -> ok (with_armed q x c).
Proof. intros []. by constructor. Qed.
Lemma ok_with_trace q x : ok q -> ok (with_trace q x).
Proof. intros []. by constructor. Qed.

(** A timer that is not pending may be created or changed, its sequence number
    apart. *)
Lemma ok_with_heap q a tm n :
  ok q -> a ∉ pending q -> 0 < a -> interval_ok (interval_ tm) -> repeat_ tm = (0 <? interval_ tm) ->
  ok (with_heap q (<[a := tm]> (heap q)) n).
Proof.
  intros Hq Ha Hpos Hi Hr.
  assert (forall e, e ∈ timers_ q -> a <> e.2) as Hne.
  { intros [x b] He ->. apply Ha, elem_of_pending. eauto. }
  constructor; simpl.
  - apply Hq.
  - intros e He. rewrite lookup_insert_ne by auto. by apply Hq.
  - rewrite (ok_active q Hq). f_equal. apply active_of_ext. intros e He.
    unfold seq_of. by rewrite lookup_insert_ne by auto.
  - intros b tm'. rewrite lookup_insert_Some. intros [[<- <-]|[_ H]]; [done|by eapply Hq].
Qed.
Lemma ok_resetTimerfd q c x : ok q -> ok (resetTimerfd q c x).
Proof. apply ok_with_armed. Qed.
#[local] Hint Resolve ok_with_calling ok_with_armed ok_with_trace ok_resetTimerfd : libel.

(** Every pending timer satisfies [P], or the timerfd is armed for no later than
    its expiration. *)
Definition covered (P : Z -> Prop) (q : t) : Prop :=
  forall e, e ∈ timers_ q -> P e.1 \/ exists x ts, armed q = Some (x, ts) /\ x <= e.1.

Lemma head_least e l e' : EntrySet.sorted (e :: l) -> e' ∈ e :: l -> e.1 <= e'.1.
Proof.
  intros Hs [->|Hin]%elem_of_cons; [lia|]. inversion Hs as [|? ? _ Hall]; subst.
  rewrite Forall_forall in Hall. specialize (Hall e' Hin). unfold EntrySet.ltP in Hall. lia.
Qed.

(** What the loop's thread may have done to the queue between two points. *)
Record evolves (q q' : t) : Prop := {
  ev_heap : heap q ⊆ heap q';
  ev_timers e : e ∈ timers_ q' -> e ∈ timers_ q \/ heap q !! e.2 = None;
  ev_calling : callingExpiredTimers_ q' = callingExpiredTimers_ q;
  ev_canceling : cancelingTimers_ q ⊆ cancelingTimers_ q';
}.

Lemma evolves_refl q : evolves q q.
Proof. constructor; auto. Qed.

Lemma evolves_trans q1 q2 q3 : evolves q1 q2 -> evolves q2 q3 -> evolves q1 q3.
Proof.
  intros [] []. constructor; [by etrans| |by etrans|by etrans].
  intros e [H|H]%ev_timers1; [by apply ev_timers0|]. right.
  eapply lookup_weaken_None; eauto.
Qed.

Lemma addTimerInLoop_ok P q clock a tm :
  ok q -> covered P q -> (forall x y, P x -> x <= y -> P y) ->
  heap q !! a = Some tm -> a ∉ pending q ->
  exists q', addTimerInLoop true q clock a = Ok q' /\ ok q' /\ covered P q' /\
    timers_ q' ≡ₚ (expiration_ tm, a) :: timers_ q /\ heap q' = heap q /\
    trace q' = trace q /\ callingExpiredTimers_ q' = callingExpiredTimers_ q /\
    cancelingTimers_ q' = cancelingTimers_ q.
Proof.
  intros Hq Hc HP Ha Hp. destruct (insert_ok q a tm Hq Ha Hp) as (ts & act & Hi & Hok & Hperm).
  unfold addTimerInLoop. simpl. rewrite Hi. simpl. rewrite Ha. simpl.
  set (ch := match timers_ q with [] => true | it :: _ => TimeStamp.op_lt (expiration_ tm) it.1 end).
  eexists. split; [done|]. assert (covered P
    (if ch then resetTimerfd (with_sets q ts act) clock (expiration_ tm) else with_sets q ts act)) as Hcov.
  { pose proof (ok_sorted q Hq) as Hs. unfold TimeStamp.op_lt in ch. intros e He.
    assert (e ∈ (expiration_ tm, a) :: timers_ q) as He' by (rewrite <- Hperm; by destruct ch).
    apply elem_of_cons in He'.
    destruct (timers_ q) as [|h l] eqn:E; subst ch.
    - destruct He' as [->|He']; [|by apply not_elem_of_nil in He']. right. simpl. eauto with lia.
    - destruct (Z.ltb_spec (expiration_ tm) h.1) as [Hlt|Hge]; simpl.
      + right. do 2 eexists. split; [done|]. destruct He' as [->|He']; simpl; [lia|].
        pose proof (head_least h l e Hs He'). lia.
      + destruct He' as [->|He']; [|by apply Hc; rewrite E].
        destruct (Hc h) as [?|(x & ts' & Hx & Hle)]; [rewrite E; by constructor|eauto|].
        right. simpl. eauto with lia. }
  destruct ch; simpl; split_and!; auto with libel.
Qed.

(** The actions a callback may perform have intervals that fit. *)
Definition action_ok (x : action) : Prop :=
  match x with AddTimer _ _ _ i => interval_ok i | CancelTimer _ => True end.

Section with_allocator.
Context `{Allocator}.

Lemma newTimer_ok P q cb when i :
  ok q -> covered P q -> interval_ok i ->
  exists a q', newTimer q cb when i = (a, q') /\ heap q !! a = None /\
    heap q' !! a = Some (Timer.new (s_numCreated_ q) cb when i) /\
    ok q' /\ covered P q' /\ (a ∉ pending q') /\ evolves q q' /\ trace q' = trace q.
Proof.
  intros Hq Hc Hi. unfold newTimer.
  pose proof (malloc_fresh (dom (heap q))) as Hf. pose proof (malloc_nonnull (dom (heap q))) as Hpos.
  set (a := malloc (dom (heap q))) in *. apply not_elem_of_dom in Hf.
  assert (a ∉ pending q) as Hp.
  { rewrite elem_of_pending. intros (x & Hx). destruct (ok_entry q Hq _ Hx) as (? & ? & _).
    simpl in *. congruence. }
  eexists _, _. split_and!; [done|done|apply lookup_insert_eq| |done|done| |done].
  - by apply ok_with_heap.
  - constructor; simpl; auto. by apply insert_subseteq.
Qed.

Lemma addTimer_ok P q clock cb when i :
  ok q -> covered P q -> (forall x y, P x -> x <= y -> P y) -> interval_ok i ->
  exists a q', addTimer true q clock cb when i = Ok ((a, s_numCreated_ q), q') /\
    ok q' /\ covered P q' /\ evolves q q' /\ heap q !! a = None /\
    heap q' !! a = Some (Timer.new (s_numCreated_ q) cb when i) /\
    timers_ q' ≡ₚ (when, a) :: timers_ q /\ trace q' = trace q.
Proof.
  intros Hq Hc HP Hi.
  destruct (newTimer_ok P q cb when i Hq Hc Hi)
    as (a & q1 & Hn & Hf & Ha & Hq1 & Hc1 & Hp & Hev & Htr1).
  destruct (addTimerInLoop_ok P q1 clock a _ Hq1 Hc1 HP Ha Hp)
    as (q2 & Hadd & Hq2 & Hc2 & Hperm & Hheap & Htr & Hcall & Hcan).
  exists a, q2. unfold addTimer. rewrite Hn, Hadd.
  assert (timers_ q1 = timers_ q) as Ht by (unfold newTimer in Hn; by simplify_eq).
  rewrite Ht in Hperm. simpl in Hperm. split_and!; [done|done|done| |done|by rewrite Hheap|done|congruence].
  destruct Hev. constructor; [by rewrite Hheap| |congruence|by rewrite Hcan].
  intros e. rewrite Hperm. intros [->|He]%elem_of_cons; [by right|by left].
Qed.

Lemma cancel_ok P q id :
  ok q -> covered P q ->
  exists q', cancelInLoop true q id = Ok q' /\ ok q' /\ covered P q' /\ evolves q q' /\
    trace q' = trace q.
Proof.
  intros Hq Hc. destruct id as [a s]. destruct (decide ((a, s) ∈ activeTimers_ q)) as [Hin|Hni].
  - apply elem_of_active in Hin as (tm & Ha & Hs & Hin); [|done].
    destruct (cancel_active q a s tm) as (ts & act & -> & Hok & Hp); [done..|].
    assert (forall e, e ∈ ts -> e ∈ timers_ q) as Hsub by (intros; rewrite Hp; by constructor).
    eexists. split_and!; [done|done| | |done].
    + intros e He. apply Hc. by apply Hsub.
    + constructor; simpl; auto.
  - rewrite cancel_inactive by done. eexists. split; [done|].
    destruct (callingExpiredTimers_ q) eqn:Hcall; [|auto using evolves_refl].
    split_and!; [auto with libel|done| |done]. constructor; simpl; auto. set_solver.
Qed.

Lemma perform_ok P q acts :
  ok q -> covered P q -> (forall x y, P x -> x <= y -> P y) -> Forall action_ok acts ->
  exists q', perform true q acts = Ok q' /\ ok q' /\ covered P q' /\ evolves q q' /\
    trace q' = trace q.
Proof.
  intros Hq Hc HP Hacts. revert q Hq Hc.
  induction Hacts as [|x acts Hx Hacts IH]; intros q Hq Hc; simpl;
    [eauto 10 using evolves_refl|].
  destruct x as [clock cb when i|id].
  - destruct (addTimer_ok P q clock cb when i Hq Hc HP Hx) as (a & q1 & -> & Hq1 & Hc1 & He1 & _ & _ & _ & Ht1).
    destruct (IH q1 Hq1 Hc1) as (q2 & Hp2 & Hq2 & Hc2 & He2 & Ht2).
    exists q2. split_and!; eauto using evolves_trans. congruence.
  - destruct (cancel_ok P q id Hq Hc) as (q1 & -> & Hq1 & Hc1 & He1 & Ht1).
    destruct (IH q1 Hq1 Hc1) as (q2 & Hp2 & Hq2 & Hc2 & He2 & Ht2).
    exists q2. split_and!; eauto using evolves_trans. congruence.
Qed.

(** ** Expiry *)
Lemma erase_active_ok q expired rest :
  ok q -> timers_ q = expired ++ rest ->
  exists act, erase_active (heap q) (activeTimers_ q) expired = Ok act /\ ok (with_sets q rest act).
Proof.
  revert q. induction expired as [|e expired IH]; intros q Hq Ht; simpl in *.
  - exists (activeTimers_ q). split; [done|]. destruct q; simpl in *. by subst.
  - destruct (ok_entry q Hq e) as (tm & Hl & He); [rewrite Ht; by constructor|].
    rewrite Hl. simpl. rewrite assert_pass.
    + assert (active_of (heap q) e = (e.2, sequence_ tm)) as Hact
        by (unfold active_of, seq_of; by rewrite Hl).
      assert (EntrySet.sorted (expired ++ rest)) as Hs.
      { pose proof (ok_sorted q Hq) as Hs. rewrite Ht in Hs. by inversion Hs. }
      pose proof (remove_ok q e (expired ++ rest) Hq ltac:(by rewrite Ht) Hs) as Hq'.
      rewrite Hact in Hq'. destruct (IH _ Hq' eq_refl) as (act & Ha & Hok). eauto.
    + apply bool_decide_eq_true_2, elem_of_active; [done|]. exists tm.
      split_and!; [done|done|]. rewrite Ht, He. destruct e. by constructor.
Qed.

Definition due (now : Z) (e : EntrySet.entry) : Prop := e.1 <= now.
#[global] Instance due_dec now e : Decision (due now e).
Proof. unfold due. apply _. Defined.

Lemma split_due q now :
  ok q -> 0 <= now < 2 ^ 62 ->
  EntrySet.before (int64 (now + 1), 0) (timers_ q) = filter (due now) (timers_ q) /\
  Forall (fun e => now < e.1) (EntrySet.from (int64 (now + 1), 0) (timers_ q)).
Proof.
  intros Hq Hn. change (2 ^ 62) with 4611686018427387904 in Hn.
  rewrite swrap_small by (unfold in_int; simpl; lia).
  set (sentry := (now + 1, 0)). set (l := timers_ q).
  assert (Forall (fun e => now < e.1) (EntrySet.from sentry l)) as Hf.
  { eapply Forall_impl; [apply EntrySet.from_ge, Hq|]. intros e. unfold EntrySet.ltP. simpl. lia. }
  assert (Forall (fun e => e.1 <= now) (EntrySet.before sentry l)) as Hb.
  { apply Forall_forall. intros e He. pose proof (EntrySet.before_lt sentry l) as Hlt.
    rewrite Forall_forall in Hlt. specialize (Hlt e He). unfold EntrySet.ltP in Hlt. simpl in Hlt.
    destruct (ok_entry q Hq e) as (tm & Hl & _).
    { fold l. rewrite <- (EntrySet.before_from sentry l). apply elem_of_app. by left. }
    apply (ok_heap q Hq) in Hl as [? _]. lia. }
  split; [|done]. rewrite <- (EntrySet.before_from sentry l) at 2. rewrite filter_app.
  rewrite filter_all by done. rewrite filter_none, app_nil_r; [done|].
  eapply Forall_impl; [exact Hf|]. unfold due. lia.
Qed.

Lemma getExpired_ok q now :
  ok q -> 0 <= now < 2 ^ 62 ->
  exists rest act, getExpired q now = Ok (filter (due now) (timers_ q), with_sets q rest act) /\
    ok (with_sets q rest act) /\ timers_ q = filter (due now) (timers_ q) ++ rest /\
    Forall (fun e => now < e.1) rest.
Proof.
  intros Hq Hn. destruct (split_due q now Hq Hn) as [Hb Hf].
  pose proof (EntrySet.before_from (int64 (now + 1), 0) (timers_ q)) as Hsplit.
  unfold getExpired. rewrite assert_pass by by apply ok_sizes. rewrite Hb in *.
  set (rest := EntrySet.from _ _) in *.
  rewrite assert_pass.
  - destruct (erase_active_ok q (filter (due now) (timers_ q)) rest Hq) as (act & -> & Hok); [done|].
    rewrite bind_ok, assert_pass by by apply ok_sizes. eauto 10.
  - destruct rest as [|e rest']; [done|]. apply Forall_cons_1 in Hf as [? _].
    unfold TimeStamp.op_lt. bcases; [done|lia].
Qed.

Variable callback : Z -> t -> list action.
Hypothesis callback_ok : forall c q, Forall action_ok (callback c q).

Lemma run_all_ok P q expired :
  ok q -> covered P q -> (forall x y, P x -> x <= y -> P y) ->
  (forall e, e ∈ expired -> is_Some (heap q !! e.2)) ->
  exists q', run_all true callback q expired = Ok q' /\ ok q' /\ covered P q' /\ evolves q q' /\
    trace q' = trace q ++ map snd expired.
Proof.
  intros Hq Hc HP. revert q Hq Hc. induction expired as [|e expired IH]; intros q Hq Hc He; simpl.
  - exists q. rewrite app_nil_r. auto using evolves_refl.
  - destruct (He e) as [tm Htm]; [by constructor|]. rewrite Htm. simpl.
    set (q0 := with_trace q (trace q ++ [e.2])).
    destruct (perform_ok P q0 (callback (callback_ tm) q0)) as (q1 & -> & Hq1 & Hc1 & He1 & Ht1);
      [by apply ok_with_trace|done|done|apply callback_ok|].
    assert (evolves q q1) as Hev by (destruct He1; by constructor). simpl.
    destruct (IH q1 Hq1 Hc1) as (q2 & -> & Hq2 & Hc2 & He2 & Ht2).
    { intros e' He'. destruct (He e') as [tm' ?]; [by constructor|].
      exists tm'. eapply lookup_weaken; [done|]. apply Hev. }
    exists q2. split_and!; eauto using evolves_trans.
    rewrite Ht2, Ht1. unfold q0. simpl. by rewrite <- app_assoc.
Qed.

(** The entry a restarted timer gets, if it is one that restarts. *)
Definition restarts (q : t) (now : Z) (e0 e : EntrySet.entry) : Prop :=
  exists tm, heap q !! e0.2 = Some tm /\ repeat_ tm = true /\
    ((e0.2, sequence_ tm) ∉ cancelingTimers_ q) /\ e = (now + interval_ tm, e0.2).

Lemma addTime_exact now i : 0 <= now < 2 ^ 62 -> interval_ok i -> TimeStamp.addTime now i = now + i.
Proof.
  unfold interval_ok, TimeStamp.addTime. change (2 ^ 62) with 4611686018427387904. intros.
  apply swrap_small; [lia|]. unfold in_int. simpl. lia.
Qed.

(** One timer is restarted. *)
Lemma restart_ok q now a tm :
  ok q -> covered (Z.lt now) q -> 0 <= now < 2 ^ 62 ->
  heap q !! a = Some tm -> repeat_ tm = true -> a ∉ pending q ->
  exists b q', insert true (with_heap q (<[a := restart tm now]> (heap q)) (s_numCreated_ q)) a = Ok (b, q') /\
    ok q' /\ covered (Z.lt now) q' /\ heap q' = <[a := restart tm now]> (heap q) /\
    timers_ q' ≡ₚ (now + interval_ tm, a) :: timers_ q /\
    cancelingTimers_ q' = cancelingTimers_ q /\ trace q' = trace q /\ armed q' = armed q /\
    callingExpiredTimers_ q' = callingExpiredTimers_ q.
Proof.
  intros Hq Hc Hn Ha Hr Hp. destruct (ok_heap q Hq a tm Ha) as (Hpos & Hi & Hrep).
  set (q0 := with_heap _ _ _).
  assert (ok q0) as Hq0 by by apply ok_with_heap.
  destruct (insert_ok q0 a (restart tm now) Hq0) as (ts & act & -> & Hok & Hperm);
    [apply lookup_insert_eq|done|].
  simpl in Hperm. rewrite Hr, addTime_exact in Hperm by done.
  eexists _, _. split_and!; try done. intros e. simpl. rewrite Hperm.
  intros [->|He]%elem_of_cons; [|by apply Hc]. left. simpl.
  rewrite Hrep, Z.ltb_lt in Hr. lia.
Qed.

(** The restarts of the other timers are not affected by changing one. *)
Lemma restarts_ext q q' now e0 e :
  heap q' !! e0.2 = heap q !! e0.2 -> cancelingTimers_ q' = cancelingTimers_ q ->
  restarts q now e0 e <-> restarts q' now e0 e.
Proof. unfold restarts. by intros -> ->. Qed.

Lemma reset_loop_ok q expired now :
  ok q -> covered (Z.lt now) q -> 0 <= now < 2 ^ 62 ->
  NoDup (map snd expired) ->
  (forall e, e ∈ expired -> is_Some (heap q !! e.2) /\ e.2 ∉ pending q) ->
  exists q', reset_loop true q expired now = Ok q' /\ ok q' /\ covered (Z.lt now) q' /\
    (forall e, e ∈ timers_ q' <-> e ∈ timers_ q \/ exists e0, e0 ∈ expired /\ restarts q now e0 e) /\
    cancelingTimers_ q' = cancelingTimers_ q /\ trace q' = trace q /\ armed q' = armed q /\
    callingExpiredTimers_ q' = callingExpiredTimers_ q.
Proof.
  intros Hq Hc Hn Hnd. revert q Hq Hc. induction expired as [|e expired IH]; intros q Hq Hc He; simpl.
  { exists q. split_and!; try done. intros e. split; [by left|]. intros [?|(e0 & H0 & _)]; [done|].
    by apply not_elem_of_nil in H0. }
  simpl in Hnd. apply NoDup_cons in Hnd as [Hne Hnd].
  destruct (He e) as [[tm Htm] Hp]; [by constructor|]. rewrite Htm. simpl.
  destruct (repeat_ tm && bool_decide ((e.2, sequence_ tm) ∉ cancelingTimers_ q)) eqn:E.
  - apply andb_true_iff in E as [Hr Hcan%bool_decide_eq_true_1].
    destruct (restart_ok q now e.2 tm Hq Hc Hn Htm Hr Hp)
      as (b & q1 & -> & Hq1 & Hc1 & Hh1 & Hp1 & Hcan1 & Htr1 & Harm1 & Hcall1). simpl.
    assert (forall e', e' ∈ expired -> heap q1 !! e'.2 = heap q !! e'.2) as Hsame.
    { intros e' He'. rewrite Hh1. apply lookup_insert_ne. intros Heq. apply Hne.
      rewrite Heq. apply list_elem_of_fmap. eauto. }
    destruct (IH Hnd q1 Hq1 Hc1) as (q2 & -> & Hq2 & Hc2 & Hiff & Hcan2 & Htr2 & Harm2 & Hcall2).
    { intros e' He'. rewrite Hsame by done. destruct (He e') as [? Hp']; [by constructor|].
      split; [done|]. rewrite elem_of_pending. intros (x & Hx). rewrite Hp1 in Hx.
      apply elem_of_cons in Hx as [Hx|Hx]; [|apply Hp', elem_of_pending; eauto].
      injection Hx as _ Hx. apply Hne. rewrite <- Hx. apply list_elem_of_fmap. eauto. }
    exists q2. split_and!; try congruence; try done. intros e'. rewrite Hiff, Hp1, elem_of_cons.
    setoid_rewrite elem_of_cons. split.
    + intros [[->|?]|(e0 & H0 & Hres)]; [right|by left|right].
      * exists e. split; [by left|]. exists tm. done.
      * exists e0. split; [by right|]. by apply (restarts_ext q q1 now e0 e' (Hsame e0 H0) Hcan1).
    + intros [?|(e0 & [->|H0] & Hres)]; [by left; right|left; left|right].
      * destruct Hres as (tm' & Htm' & _ & _ & ->). congruence.
      * exists e0. split; [done|]. by apply (restarts_ext q q1 now e0 e' (Hsame e0 H0) Hcan1).
  - destruct (IH Hnd q Hq Hc) as (q2 & -> & Hq2 & Hc2 & Hiff & ?).
    { intros e' He'. apply He. by constructor. }
    exists q2. split_and!; try tauto. intros e'. rewrite Hiff. setoid_rewrite elem_of_cons.
    split; [intros [?|(e0 & ? & ?)]; eauto|].
    intros [?|(e0 & [->|Hin0] & Hres)]; [by left| |by eauto].
    destruct Hres as (tm' & Htm' & Hr & Hcan & ->). simplify_eq.
    by rewrite Hr, bool_decide_eq_true_2 in E.
Qed.

Lemma reset_ok q expired now clock :
  ok q -> covered (Z.lt now) q -> 0 <= now < 2 ^ 62 ->
  NoDup (map snd expired) ->
  (forall e, e ∈ expired -> is_Some (heap q !! e.2) /\ e.2 ∉ pending q) ->
  exists q', reset true q expired now clock = Ok q' /\ ok q' /\ covered (fun _ => False) q' /\
    (forall e, e ∈ timers_ q' <-> e ∈ timers_ q \/ exists e0, e0 ∈ expired /\ restarts q now e0 e) /\
    cancelingTimers_ q' = cancelingTimers_ q /\ trace q' = trace q /\
    callingExpiredTimers_ q' = callingExpiredTimers_ q.
Proof.
  intros Hq Hc Hn Hnd He. unfold reset.
  destruct (reset_loop_ok q expired now Hq Hc Hn Hnd He)
    as (q1 & -> & Hq1 & Hc1 & Hiff & Hcan & Htr & Harm & Hcall).
  rewrite bind_ok. pose proof (ok_sorted q1 Hq1) as Hs.
  assert (forall e, e ∈ timers_ q1 -> exists h l, timers_ q1 = h :: l /\ h.1 <= e.1) as Hhead.
  { intros e Hin. destruct (timers_ q1) as [|h l]; [by apply not_elem_of_nil in Hin|].
    exists h, l. split; [done|]. by eapply head_least. }
  destruct (timers_ q1) as [|h l] eqn:Ht; simpl.
  { exists q1. split_and!; try done; [|by rewrite Ht]. intros e He'. rewrite Ht in He'.
    by apply not_elem_of_nil in He'. }
  destruct (ok_entry q1 Hq1 h) as (tm & Hl & Hexp); [rewrite Ht; by constructor|].
  rewrite Hl. simpl. rewrite Hexp. eexists. split; [done|]. unfold TimeStamp.valid.
  destruct (Z.ltb_spec 0 h.1) as [Hv|Hv]; simpl.
  - split_and!; try done; [auto with libel| |by rewrite Ht]. intros e Hin. right. simpl in *.
    rewrite Ht in Hin. do 2 eexists. split; [done|]. by eapply head_least.
  - split_and!; try done; [|by rewrite Ht]. intros e Hin. right.
    destruct (Hc1 h) as [?|(x & ts & Hx & Hle)]; [rewrite Ht; by constructor|lia|].
    exists x, ts. split; [done|]. rewrite Ht in Hin. pose proof (head_least h l e Hs Hin). lia.
Qed.

Lemma new_ok : ok new /\ covered (fun _ => False) new.
Proof.
  split; [constructor; try done|].
  - constructor.
  - intros e He. by apply not_elem_of_nil in He.

  - intros e He. by apply not_elem_of_nil in He.
Qed.

(** The first half of [handleRead]: what has expired leaves the sets and is run. *)
Lemma handleRead_runs q now :
  ok q -> 0 <= now < 2 ^ 62 ->
  let expired := filter (due now) (timers_ q) in
  exists rest act q2, let q1 := with_sets (readTimerfd q) rest act in
    getExpired (readTimerfd q) now = Ok (expired, q1) /\ ok q1 /\ timers_ q = expired ++ rest /\
    run_all true callback (with_calling q1 true ∅) expired = Ok q2 /\ ok q2 /\ covered (Z.lt now) q2 /\
    evolves (with_calling q1 true ∅) q2 /\ trace q2 = trace q ++ map snd expired /\
    NoDup (map snd expired) /\
    (forall e, e ∈ expired -> is_Some (heap q2 !! e.2) /\ e.2 ∉ pending q2).
Proof.
  intros Hq Hn expired. set (q0 := readTimerfd q).
  assert (ok q0) as Hq0 by by apply ok_with_armed.
  destruct (getExpired_ok q0 now Hq0 Hn) as (rest & act & Hg & Hq1 & Hsplit & Hrest).
  change (timers_ q0) with (timers_ q) in *. fold expired in Hg, Hsplit. set (q1 := with_sets q0 rest act) in *.
  assert (forall e, e ∈ expired -> e ∈ timers_ q) as Hexp
    by (intros e He; rewrite Hsplit; apply elem_of_app; by left).
  assert (forall e, e ∈ expired -> e.2 ∉ pending q1) as Hgone.
  { intros e He. rewrite elem_of_pending. intros (x & Hx). simpl in Hx.
    assert ((x, e.2) ∈ timers_ q) as Hx' by (rewrite Hsplit; apply elem_of_app; by right).
    pose proof (ok_addr_inj q _ _ Hq (Hexp e He) Hx' eq_refl) as Heq.
    pose proof (EntrySet.sorted_nodup _ (ok_sorted q Hq)) as Hnd. rewrite Hsplit in Hnd.
    apply NoDup_app in Hnd as (_ & Hdis & _). apply (Hdis e He). by rewrite Heq. }
  assert (forall e, e ∈ expired -> is_Some (heap q1 !! e.2)) as Hheap.
  { intros e He. destruct (ok_entry q Hq e (Hexp e He)) as (tm & Hl & _). by exists tm. }
  destruct (run_all_ok (Z.lt now) (with_calling q1 true ∅) expired)
    as (q2 & Hr & Hq2 & Hc2 & Hev & Htr); [auto with libel| |lia|done|].
  { intros e He. left. simpl in He. rewrite Forall_forall in Hrest. by apply Hrest. }
  exists rest, act, q2. split_and!; try done.
  - apply NoDup_fmap_2_strong.
    + intros e e' He He'. apply (ok_addr_inj q); auto.
    + apply NoDup_filter, EntrySet.sorted_nodup, Hq.
  - intros e He. destruct (Hheap e He) as [tm Htm]. split.
    + exists tm. eapply lookup_weaken; [exact Htm|apply Hev].
    + rewrite elem_of_pending. intros (x & [Hx|Hx]%(ev_timers _ _ Hev)).
      * apply (Hgone e He), elem_of_pending. eauto.
      * simpl in Hx. change (heap q) with (heap q1) in Hx. congruence.
Qed.

Lemma timer_handleRead_ok q now clock :
  ok q -> 0 <= now < 2 ^ 62 ->
  exists q', handleRead true callback q now clock = Ok q' /\ ok q' /\ covered (fun _ => False) q' /\
    callingExpiredTimers_ q' = false /\
    trace q' = trace q ++ map snd (filter (due now) (timers_ q)) /\
    (forall a, a ∈ pending q' -> a ∈ pending q \/ heap q !! a = None) /\
    (forall e tm x, e ∈ timers_ q -> due now e -> heap q !! e.2 = Some tm ->
       (x, e.2) ∈ timers_ q' <->
       repeat_ tm = true /\ ((e.2, sequence_ tm) ∉ cancelingTimers_ q') /\ x = now + interval_ tm).
Proof.
  intros Hq Hn. unfold handleRead. cbn [assertInLoopThread assert_ mbind outcome_bind].
  destruct (handleRead_runs q now Hq Hn)
    as (rest & act & q2 & -> & Hq1 & Hsplit & Hrun & Hq2 & Hc2 & Hev & Htr & Hnd & Hback).
  set (expired := filter (due now) (timers_ q)) in *. simpl. rewrite Hrun. simpl.
  destruct (reset_ok (with_calling q2 false (cancelingTimers_ q2)) expired now clock)
    as (q3 & -> & Hq3 & Hc3 & Hiff & Hcan & Htr3 & Hcall); [auto with libel|done|done|done|done|].
  simpl in Hiff, Hcan. exists q3. split_and!; [done|done|done|by rewrite Hcall|by rewrite Htr3| |].
  { intros a. rewrite !elem_of_pending. intros (x & Hx). apply Hiff in Hx as [Hx|(e0 & He0 & tm0 & _ & _ & _ & Heq)].
    - apply (ev_timers _ _ Hev) in Hx as [Hx|Hx]; [left; exists x|by right].
      rewrite Hsplit. apply elem_of_app. by right.
    - left. exists e0.1. injection Heq as _ ->. rewrite Hsplit. apply elem_of_app. left. by destruct e0. }
  intros e tm x He Hdue Htm.
  assert (e ∈ expired) as Hin by by apply list_elem_of_filter.
  assert (heap q2 !! e.2 = Some tm) as Htm2 by (eapply lookup_weaken; [exact Htm|apply Hev]).
  rewrite Hiff, Hcan. split.
  - intros [Hx|(e0 & He0 & tm0 & Htm0 & Hr0 & Hc0 & Heq)].
    + destruct (Hback e Hin) as [_ Hp]. destruct Hp. apply elem_of_pending. eauto.
    + simpl in *. injection Heq as -> Heq. rewrite <- Heq in *. simplify_eq. done.
  - intros (Hr & Hc & ->). right. exists e. split; [done|]. exists tm. done.
Qed.

(** The queue as the loop's thread drives it. *)
Inductive step : t -> t -> Prop :=
  | step_add q clock cb when i id q' :
      interval_ok i -> addTimer true q clock cb when i = Ok (id, q') -> step q q'
  | step_cancel q id q' : cancelInLoop true q id = Ok q' -> step q q'
  | step_read q now clock q' :
      0 <= now < 2 ^ 62 -> handleRead true callback q now clock = Ok q' -> step q q'.

Lemma timer_step_inv q q' :
  step q q' -> ok q /\ covered (fun _ => False) q -> ok q' /\ covered (fun _ => False) q'.
Proof.
  intros Hstep [Hq Hc]. destruct Hstep as [q clock cb when i id q' Hi Hs|q id q' Hs|q now clock q' Hn Hs].
  - destruct (addTimer_ok _ q clock cb when i Hq Hc) as (a & q1 & Hs' & ? & ? & _); [done..|].
    rewrite Hs' in Hs. by simplify_eq.
  - destruct (cancel_ok _ q id Hq Hc) as (q1 & Hs' & ? & ? & _). rewrite Hs' in Hs. by simplify_eq.
  - destruct (timer_handleRead_ok q now clock Hq Hn) as (q1 & Hs' & ? & ? & _).
    rewrite Hs' in Hs. by simplify_eq.
Qed.

Lemma reachable_inv q : rtc step new q -> ok q /\ covered (fun _ => False) q.
Proof.
  intros Hr. pose proof new_ok as Hinv. induction Hr as [|q1 q2 q3 Hs _ IH]; [done|].
  apply IH. by eapply timer_step_inv.
Qed.

(** C8. One expiry: [handleRead] ends without a failed assertion whatever the
    callbacks do (add timers, cancel any timer), runs exactly the timers due at
    [now], once each and in the order of expiration, and afterwards a timer that
    ran is pending iff it repeats and was not cancelled during the callbacks,
    then at [now] plus its interval. *)
Theorem timerqueue_handleRead q now clock :
  ok q -> 0 <= now < 2 ^ 62 ->
  exists q', handleRead true callback q now clock = Ok q' /\
    trace q' = trace q ++ map snd (filter (due now) (timers_ q)) /\
    (forall e tm x, e ∈ timers_ q -> due now e -> heap q !! e.2 = Some tm ->
       (x, e.2) ∈ timers_ q' <->
       repeat_ tm = true /\ ((e.2, sequence_ tm) ∉ cancelingTimers_ q') /\ x = now + interval_ tm).
Proof.
  intros Hq Hn. destruct (timer_handleRead_ok q now clock Hq Hn) as (q' & ? & _ & _ & _ & ? & _ & ?). eauto.
Qed.

(** C7. In every reachable queue the two sets describe the same timers, no
    operation can fail, and the timerfd is armed for no later than the earliest
    pending expiration: no timer is slept through. *)
Theorem timerqueue_reachable q :
  rtc step new q ->
  ok q /\ sizes_agree q = true /\
  (forall e, e ∈ timers_ q -> exists x ts, armed q = Some (x, ts) /\ x <= e.1) /\
  (forall clock cb when i, interval_ok i -> succeeds (addTimer true q clock cb when i)) /\
  (forall id, succeeds (cancelInLoop true q id)) /\
  (forall now clock, 0 <= now < 2 ^ 62 -> succeeds (handleRead true callback q now clock)).
Proof.
  intros Hr. destruct (reachable_inv q Hr) as [Hq Hc]. split_and!; [done|by apply ok_sizes| | | |].
  - intros e He. by destruct (Hc e He).
  - intros clock cb when i Hi.
    destruct (addTimer_ok _ q clock cb when i Hq Hc) as (a & q1 & -> & _); [done..|by eexists].
  - intros id. destruct (cancel_ok _ q id Hq Hc) as (q1 & -> & _). by eexists.
  - intros now clock Hn. destruct (timer_handleRead_ok q now clock Hq Hn) as (q1 & -> & _). by eexists.
Qed.
End with_allocator.

(** Cancelling removes the timer it names and no other; a timer that is not
    pending is only noted while callbacks run, and otherwise ignored. *)
Theorem timerqueue_cancel q a s :
  ok q ->
  exists q', cancelInLoop true q (a, s) = Ok q' /\ ok q' /\
    ((a, s) ∉ activeTimers_ q') /\
    (forall e, e ∈ timers_ q' <-> e ∈ timers_ q /\ ((a, s) ∈ activeTimers_ q -> e.2 <> a)) /\
    cancelingTimers_ q' =
      (if decide ((a, s) ∉ activeTimers_ q) then
         if callingExpiredTimers_ q then {[(a, s)]} ∪ cancelingTimers_ q else cancelingTimers_ q
       else cancelingTimers_ q).
Proof.
  intros Hq. destruct (decide ((a, s) ∈ activeTimers_ q)) as [Hin|Hni].
  - pose proof Hin as (tm & Ha & Hs & Ht)%elem_of_active; [|done].
    destruct (cancel_active q a s tm Hq Ha Hs Ht) as (ts & act & -> & Hok & Hp).
    pose proof (EntrySet.sorted_nodup _ (ok_sorted q Hq)) as Hnd. rewrite Hp in Hnd.
    apply NoDup_cons in Hnd as [Hnin _].
    eexists. split_and!; [done|done| | |by case_decide].
    + rewrite elem_of_active by done. intros (tm' & Ha' & _ & Ht'). simpl in *. by simplify_eq.
    + intros e. simpl. rewrite Hp, elem_of_cons. split.
      * intros He. split; [by right|]. intros _ Hea. apply Hnin.
        rewrite (ok_addr_inj q (expiration_ tm, a) e); [done|done|done| |done].
        rewrite Hp. by constructor.
      * intros [[->|He] Hne]; [by destruct Hne|done].
  - rewrite cancel_inactive by done. rewrite decide_True by done.
    destruct (callingExpiredTimers_ q);
      (eexists; split_and!; [done|auto with libel|done|naive_solver|done]).
Qed.

(** C40. The time handed to [timerfd_settime] is well formed, is at least 100
    microseconds and is exactly the time left when more than that is left. *)
Theorem howMuchTimeFromNow_bounds clock when :
  in_int 63 clock -> in_int 63 when ->
  0 <= tv_sec (howMuchTimeFromNow clock when) /\
  0 <= tv_nsec (howMuchTimeFromNow clock when) < 1000000000 /\
  tv_sec (howMuchTimeFromNow clock when) * 1000000000 + tv_nsec (howMuchTimeFromNow clock when) =
    Z.max 100 (when - clock) * 1000.
Proof.
  unfold in_int, howMuchTimeFromNow, TimeStamp.kMicroSecondsPerSecond. cbn -[Z.pow Z.mul].
  change (1000 * 1000) with 1000000. intros.
  rewrite swrap_small by (unfold in_int; simpl; lia).
  set (ms := if when - clock <? 100 then 100 else when - clock).
  assert (ms = Z.max 100 (when - clock)) as <- by (subst ms; bcases; lia).
  assert (100 <= ms) by (subst ms; bcases; lia).
  rewrite Z.quot_div_nonneg, Z.rem_mod_nonneg by lia.
  pose proof (Z.div_mod ms 1000000 ltac:(lia)). pose proof (Z.mod_pos_bound ms 1000000 ltac:(lia)).
  pose proof (Z.div_pos ms 1000000). lia.
Qed.

Lemma howMuchTimeFromNow_bounds_witness :
  tv_sec (howMuchTimeFromNow 5 2500000) * 1000000000 + tv_nsec (howMuchTimeFromNow 5 2500000) =
    2499995000.
Proof.
  apply (howMuchTimeFromNow_bounds 5 2500000); unfold in_int; simpl; lia.
Defined.

(** ** A concrete allocator and a concrete run *)
Definition bump (used : gset Z) : Z := 1 + foldr Z.max 0 (elements used).

Lemma bump_above used a : a ∈ used -> a < bump used.
Proof.
  intros Ha%elem_of_elements. unfold bump.
  induction Ha as [l|a b l Ha IH]; simpl; lia.
Qed.

#[refine, local] Instance bump_allocator : Allocator := {| malloc := bump |}.
Proof.
  - intros used Hin%bump_above. lia.
  - intros used. unfold bump. assert (0 <= foldr Z.max 0 (elements used)); [|lia].
    induction (elements used); simpl; lia.
Defined.

(** Timer 1 repeats every 10 microseconds and its callback, 8, cancels it; timer
    2 fires once at 7 and does nothing. *)
Definition demo_callback (c : Z) (q : t) : list action := if c =? 8 then [CancelTimer (1, 0)] else [].
Definition demo : t :=
  match addTimer true new 0 8 5 10 with
  | Ok (_, q) => match addTimer true q 0 9 7 0 with Ok (_, q') => q' | Fault _ => new end
  | Fault _ => new
  end.

Lemma demo_callback_ok c q : Forall action_ok (demo_callback c q).
Proof. unfold demo_callback. case_match; repeat constructor. Qed.

Lemma timer_demo_reachable : rtc (step demo_callback) new demo.
Proof.
  eapply rtc_l; [eapply (step_add _ new 0 8 5 10)|eapply rtc_once, (step_add _ _ 0 9 7 0)];
    [| |unfold interval_ok; lia|]; [unfold interval_ok; lia|by vm_compute..].
Qed.

Lemma timerqueue_handleRead_witness :
  exists q', handleRead true demo_callback demo 6 6 = Ok q' /\ trace q' = [1] /\
    ((16, 1) ∈ timers_ q' -> False).
Proof.
  destruct (timerqueue_handleRead demo_callback demo_callback_ok demo 6 6) as (q' & E & Htr & Hpend).
  - apply (reachable_inv demo_callback demo_callback_ok), timer_demo_reachable.
  - lia.
  - exists q'. split; [exact E|]. split; [exact Htr|]. intros Hin.
    apply (Hpend (5, 1) (Timer.new 0 8 5 10) 16) in Hin as (_ & Hnc & _);
      [|by constructor|unfold due; simpl; lia|reflexivity].
    apply Hnc. vm_compute in E. injection E as <-. set_solver.
Defined.

Lemma timerqueue_reachable_witness :
  exists x ts, armed demo = Some (x, ts) /\ x <= 5.
Proof.
  destruct (timerqueue_reachable demo_callback demo_callback_ok demo timer_demo_reachable) as (_ & _ & H & _).
  apply (H (5, 1)). by constructor.
Defined.

Lemma timerqueue_cancel_witness :
  exists q', cancelInLoop true demo (1, 0) = Ok q' /\ ((5, 1) ∈ timers_ q' -> False) /\ (7, 2) ∈ timers_ q'.
Proof.
  destruct (timerqueue_cancel demo 1 0) as (q' & E & _ & _ & H & _).
  - apply (reachable_inv demo_callback demo_callback_ok), timer_demo_reachable.
  - exists q'. split; [exact E|]. split.
    + intros [_ Hne]%H. apply Hne; [|done]. refine (bool_decide_unpack _ _). by vm_compute.
    + apply H. split; [by repeat constructor|done].
Defined.
End TimerQueue.
