(* ===== verification/Polling.v ===== *)
(** I/O multiplexing: [Channel] (src/libel/net/channel.h, channel.cpp), the
    interface [Poller] (poller.h, poller.cpp) and its two implementations,
    [EpollPoller] and [PollPoller] (src/libel/net/poller). *)

From S2P Require Import Prelude NumText TimeText.

(** ** [Channel] *)
Module Channel.
Import Num2String CTime.

(** The event bits of <poll.h>. *)
Definition POLLIN : Z := 1.
Definition POLLPRI : Z := 2.
Definition POLLOUT : Z := 4.
Definition POLLERR : Z := 8.
Definition POLLHUP : Z := 16.
Definition POLLNVAL : Z := 32.
Definition POLLRDHUP : Z := 8192.

Definition kNoneEvent : Z := 0.
Definition kReadEvent : Z := Z.lor POLLIN POLLPRI.
Definition kWriteEvent : Z := POLLOUT.

(** A callback is represented by whether it is set.  [tie_] is the liveness of
    the object it points to. *)
Record t := mk {
  loop_ : Z;
  fd_ : Z;
  events_ : Z;
  revents_ : Z;
  index_ : Z;
  logHup_ : bool;
  tie_ : bool;
  tied_ : bool;
  eventHandling_ : bool;
  addedToLoop_ : bool;
  readEventCallBack_ : bool;
  writeCallBack_ : bool;
  closeCallBack_ : bool;
  errorCallBack_ : bool;
}.

Definition new (loop fd : Z) : t :=
  {| loop_ := loop; fd_ := fd; events_ := 0; revents_ := 0; index_ := -1; logHup_ := true;
     tie_ := false; tied_ := false; eventHandling_ := false; addedToLoop_ := false;
     readEventCallBack_ := false; writeCallBack_ := false; closeCallBack_ := false;
     errorCallBack_ := false |}.

Definition set_fields (c : t) (ev rev idx : Z) (added : bool) : t :=
  {| loop_ := loop_ c; fd_ := fd_ c; events_ := ev; revents_ := rev; index_ := idx;
     logHup_ := logHup_ c; tie_ := tie_ c; tied_ := tied_ c; eventHandling_ := eventHandling_ c;
     addedToLoop_ := added; readEventCallBack_ := readEventCallBack_ c;
     writeCallBack_ := writeCallBack_ c; closeCallBack_ := closeCallBack_ c;
     errorCallBack_ := errorCallBack_ c |}.

Definition set_events (c : t) (ev : Z) : t := set_fields c ev (revents_ c) (index_ c) (addedToLoop_ c).
Definition set_revent (c : t) (r : Z) : t := set_fields c (events_ c) r (index_ c) (addedToLoop_ c).
Definition set_index (c : t) (i : Z) : t := set_fields c (events_ c) (revents_ c) i (addedToLoop_ c).
Definition set_added (c : t) (b : bool) : t := set_fields c (events_ c) (revents_ c) (index_ c) b.

Definition set_flags (c : t) (log tie tied handling : bool) : t :=
  {| loop_ := loop_ c; fd_ := fd_ c; events_ := events_ c; revents_ := revents_ c; index_ := index_ c;
     logHup_ := log; tie_ := tie; tied_ := tied; eventHandling_ := handling;
     addedToLoop_ := addedToLoop_ c; readEventCallBack_ := readEventCallBack_ c;
     writeCallBack_ := writeCallBack_ c; closeCallBack_ := closeCallBack_ c;
     errorCallBack_ := errorCallBack_ c |}.
Definition set_handling (c : t) (b : bool) : t := set_flags c (logHup_ c) (tie_ c) (tied_ c) b.
Definition doNotLogHup (c : t) : t := set_flags c false (tie_ c) (tied_ c) (eventHandling_ c).
(** [tie] to an object that is alive; [release]: that object is gone. *)
Definition tie (c : t) : t := set_flags c (logHup_ c) true true (eventHandling_ c).
Definition release (c : t) : t := set_flags c (logHup_ c) false (tied_ c) (eventHandling_ c).

Definition set_callbacks (c : t) (read write close error : bool) : t :=
  {| loop_ := loop_ c; fd_ := fd_ c; events_ := events_ c; revents_ := revents_ c; index_ := index_ c;
     logHup_ := logHup_ c; tie_ := tie_ c; tied_ := tied_ c; eventHandling_ := eventHandling_ c;
     addedToLoop_ := addedToLoop_ c; readEventCallBack_ := read; writeCallBack_ := write;
     closeCallBack_ := close; errorCallBack_ := error |}.
Definition setReadCallback (c : t) : t :=
  set_callbacks c true (writeCallBack_ c) (closeCallBack_ c) (errorCallBack_ c).
Definition setWriteCallback (c : t) : t :=
  set_callbacks c (readEventCallBack_ c) true (closeCallBack_ c) (errorCallBack_ c).
Definition setCloseCallback (c : t) : t :=
  set_callbacks c (readEventCallBack_ c) (writeCallBack_ c) true (errorCallBack_ c).
Definition setErrorCallback (c : t) : t :=
  set_callbacks c (readEventCallBack_ c) (writeCallBack_ c) (closeCallBack_ c) true.

Definition fd (c : t) : Z := fd_ c.
Definition ownerLoop (c : t) : Z := loop_ c.
Definition events (c : t) : Z := events_ c.
Definition get_index (c : t) : Z := index_ c.
Definition isNoneEvent (c : t) : bool := events_ c =? kNoneEvent.
Definition isReading (c : t) : bool := negb (Z.land (events_ c) kReadEvent =? 0).
Definition isWriting (c : t) : bool := negb (Z.land (events_ c) kWriteEvent =? 0).

(** The new interest sets; [update()] follows each of them. *)
Definition enableReading_ev (ev : Z) : Z := Z.lor ev kReadEvent.
Definition disableReading_ev (ev : Z) : Z := Z.land ev (Z.lnot kReadEvent).
Definition enableWriting_ev (ev : Z) : Z := Z.lor ev kWriteEvent.
Definition disableWriting_ev (ev : Z) : Z := Z.land ev (Z.lnot kWriteEvent).
Definition disableAll_ev (ev : Z) : Z := kNoneEvent.

(** [handleEvent]: the callbacks that are called, in order. *)
Inductive call := CloseCall | ErrorCall | ReadCall | WriteCall.

Definition has (r mask : Z) : bool := negb (Z.land r mask =? 0).

Definition handleEventWithGuard (c : t) : list call :=
  let r := revents_ c in
  (if has r POLLHUP && negb (has r POLLIN) then
     if closeCallBack_ c then [CloseCall] else [] else []) ++
  (if has r (Z.lor POLLERR POLLNVAL) then
     if errorCallBack_ c then [ErrorCall] else [] else []) ++
  (if has r (Z.lor (Z.lor POLLIN POLLPRI) POLLRDHUP) then
     if readEventCallBack_ c then [ReadCall] else [] else []) ++
  (if has r POLLOUT then
     if writeCallBack_ c then [WriteCall] else [] else []).

Definition handleEvent (c : t) : list call :=
  if tied_ c then (if tie_ c then handleEventWithGuard c else [])
  else handleEventWithGuard c.

Definition events2String (fd ev : Z) : bytes :=
  fmt_d true 0 fd ++ str ": " ++
  (if has ev POLLIN then str "IN " else []) ++
  (if has ev POLLPRI then str "PRI " else []) ++
  (if has ev POLLOUT then str "OUT " else []) ++
  (if has ev POLLHUP then str "HUP " else []) ++
  (if has ev POLLRDHUP then str "RDHUP " else []) ++
  (if has ev POLLERR then str "ERR " else []) ++
  (if has ev POLLNVAL then str "NVAL " else []).

Definition revents2String (c : t) : bytes := events2String (fd c) (revents_ c).

Lemma land_pow2 r k : 0 <= k -> has r (2 ^ k) = Z.testbit r k.
Proof.
  intros Hk. unfold has. destruct (Z.testbit r k) eqn:E.
  - destruct (Z.eqb_spec (Z.land r (2 ^ k)) 0) as [H0|]; [|done].
    assert (Z.testbit (Z.land r (2 ^ k)) k = false) as H by (rewrite H0; apply Z.bits_0).
    rewrite Z.land_spec, E, Z.pow2_bits_true in H by done. done.
  - destruct (Z.eqb_spec (Z.land r (2 ^ k)) 0) as [|Hne]; [done|]. exfalso. apply Hne.
    apply Z.bits_inj'. intros n Hn. rewrite Z.land_spec, Z.bits_0, Z.pow2_bits_eqb by done.
    destruct (Z.eqb_spec k n) as [<-|]; [by rewrite E|]. apply andb_false_r.
Qed.

Lemma has_lor r a b : 0 <= a -> 0 <= b -> has r (Z.lor a b) = has r a || has r b.
Proof.
  intros Ha Hb. unfold has. rewrite Z.land_lor_distr_r.
  rewrite <- negb_andb. f_equal.
  destruct (Z.eqb_spec (Z.lor (Z.land r a) (Z.land r b)) 0) as [E|E].
  - apply Z.lor_eq_0_iff in E as [-> ->]. done.
  - symmetry. apply andb_false_iff. destruct (Z.eqb_spec (Z.land r a) 0) as [E1|]; [|by left].
    right. rewrite E1, Z.lor_0_l in E. by apply Z.eqb_neq.
Qed.

Lemma bits_named :
  POLLIN = 2 ^ 0 /\ POLLPRI = 2 ^ 1 /\ POLLOUT = 2 ^ 2 /\ POLLERR = 2 ^ 3 /\ POLLHUP = 2 ^ 4 /\
  POLLNVAL = 2 ^ 5 /\ POLLRDHUP = 2 ^ 13.
Proof. done. Qed.

(** Dispatch: a channel whose callbacks are all set calls the close handler
    exactly on a hang-up with nothing left to read, the error handler on an error
    or an invalid descriptor, the read handler on input, urgent data or a peer's
    shutdown, and the write handler on writability, each at most once and in this
    order; a channel tied to an object that is gone calls nothing. *)
Theorem channel_dispatch c :
  closeCallBack_ c && errorCallBack_ c && readEventCallBack_ c && writeCallBack_ c = true ->
  handleEvent c =
    if tied_ c && negb (tie_ c) then []
    else
      (if Z.testbit (revents_ c) 4 && negb (Z.testbit (revents_ c) 0) then [CloseCall] else []) ++
      (if Z.testbit (revents_ c) 3 || Z.testbit (revents_ c) 5 then [ErrorCall] else []) ++
      (if Z.testbit (revents_ c) 0 || Z.testbit (revents_ c) 1 || Z.testbit (revents_ c) 13
       then [ReadCall] else []) ++
      (if Z.testbit (revents_ c) 2 then [WriteCall] else []).
Proof.
  rewrite !andb_true_iff. intros [[[Hc He] Hr] Hw].
  assert (handleEvent c = if tied_ c && negb (tie_ c) then [] else handleEventWithGuard c) as ->
    by (unfold handleEvent; by destruct (tied_ c), (tie_ c)).
  unfold handleEventWithGuard. rewrite Hc, He, Hr, Hw.
  destruct bits_named as (-> & -> & -> & -> & -> & -> & ->).
  rewrite !has_lor by (try apply Z.lor_nonneg; lia). rewrite !land_pow2 by lia. done.
Qed.

Lemma channel_dispatch_witness :
  handleEvent {| loop_ := 0; fd_ := 3; events_ := 7; revents_ := 20; index_ := 1; logHup_ := true;
     tie_ := true; tied_ := true; eventHandling_ := false; addedToLoop_ := true;
     readEventCallBack_ := true; writeCallBack_ := true; closeCallBack_ := true;
     errorCallBack_ := true |} = [CloseCall; WriteCall].
Proof. rewrite channel_dispatch by reflexivity. reflexivity. Defined.
End Channel.

(** The channels of the process by address; the pollers write [index_] and
    [revents_] through these pointers. *)
Abbreviation store := (gmap Z Channel.t).

(** ** The interface [Poller]

    What an event loop may rely on, whichever implementation
    [newDefaultPoller] picks: the channels by descriptor ([channelMap_]) and
    the event bits the kernel is asked to watch for each descriptor. *)
Class Poller := {
  pstate : Type;
  pnew : pstate;
  channelMap_ : pstate -> gmap Z Z;
  watched : pstate -> Z -> Z;
  (* the invariant between a poller and the channels *)
  poller_ok : pstate -> store -> Prop;
  updateChannel : bool -> pstate -> store -> Z -> outcome (pstate * store);
  removeChannel : bool -> pstate -> store -> Z -> outcome (pstate * store);
}.

(** Only [index_] of channels may change. *)
Definition same_but_index (s s' : store) : Prop :=
  forall c, (fun ch => Channel.set_index ch 0) <$> s !! c = (fun ch => Channel.set_index ch 0) <$> s' !! c.

Definition may_register `{Poller} (p : pstate) (s : store) (c : Z) : Prop :=
  exists ch, s !! c = Some ch /\ 0 <= Channel.fd_ ch /\
    (channelMap_ p !! Channel.fd_ ch = Some c \/
     (channelMap_ p !! Channel.fd_ ch = None /\ Channel.index_ ch = -1)).

Definition valid_events (ev : Z) : Prop := 0 <= ev < 2 ^ 15.

Class PollerLaws `{Poller} := {
  pnew_ok s : (forall c ch, s !! c = Some ch -> Channel.index_ ch = -1) ->
    poller_ok pnew s /\ channelMap_ pnew = ∅ /\ (forall fd, watched pnew fd = 0);
  (* creating a channel does not disturb the poller *)
  poller_ok_new_channel p s c ch : poller_ok p s -> s !! c = None -> Channel.index_ ch = -1 ->
    poller_ok p (<[c := ch]> s);
  (* nor does a change of what the poller does not look at *)
  poller_ok_other p s c ch ch' : poller_ok p s -> s !! c = Some ch ->
    Channel.fd_ ch' = Channel.fd_ ch -> Channel.events_ ch' = Channel.events_ ch ->
    Channel.index_ ch' = Channel.index_ ch -> poller_ok p (<[c := ch']> s);
  (* nor the end of a channel it does not know *)
  poller_ok_destroy p s c ch : poller_ok p s -> s !! c = Some ch ->
    channelMap_ p !! Channel.fd_ ch <> Some c -> poller_ok p (delete c s);
  (* [channel->events_ = ev; poller->updateChannel(channel)] *)
  updateChannel_law p s c ch ev :
    poller_ok p s -> may_register p s c -> s !! c = Some ch -> valid_events ev ->
    exists p' s', updateChannel true p (<[c := Channel.set_events ch ev]> s) c = Ok (p', s') /\
      poller_ok p' s' /\ channelMap_ p' = <[Channel.fd_ ch := c]> (channelMap_ p) /\
      (forall fd, watched p' fd = if decide (fd = Channel.fd_ ch) then ev else watched p fd) /\
      same_but_index (<[c := Channel.set_events ch ev]> s) s' /\
      (forall c', c' <> c -> s' !! c' = s !! c');
  removeChannel_law p s c ch :
    poller_ok p s -> s !! c = Some ch -> channelMap_ p !! Channel.fd_ ch = Some c ->
    Channel.events_ ch = 0 ->
    exists p' s', removeChannel true p s c = Ok (p', s') /\
      poller_ok p' s' /\ channelMap_ p' = delete (Channel.fd_ ch) (channelMap_ p) /\
      (forall fd, watched p' fd = if decide (fd = Channel.fd_ ch) then 0 else watched p fd) /\
      same_but_index s s' /\
      (forall c', (forall fd, channelMap_ p !! fd <> Some c') -> s' !! c' = s !! c');
}.

(** [Poller::hasChannel], inherited by both. *)
Definition hasChannel `{Poller} (inLoop : bool) (p : pstate) (s : store) (c : Z) : outcome bool :=
  _ ← assertInLoopThread inLoop ;
  ch ← deref (s !! c) ;
  mret (match channelMap_ p !! Channel.fd ch with Some c' => c' =? c | None => false end).

(** ** [EpollPoller] *)

(** The system call [epoll_ctl] as its manual documents it: the interest list of
    an epoll instance maps descriptors to (events, data.ptr); adding a descriptor
    that is not there, or changing or deleting one that is, succeeds. *)
Inductive epoll_op := EPOLL_CTL_ADD | EPOLL_CTL_MOD | EPOLL_CTL_DEL.
Class EpollKernel := {
  kernel : Type;
  epoll_create1 : kernel;
  interest : kernel -> gmap Z (Z * Z);
  epoll_ctl : kernel -> epoll_op -> Z -> Z * Z -> kernel * Z;
}.
Class EpollLaws `{EpollKernel} := {
  interest_new : interest epoll_create1 = ∅;
  ctl_add k fd ev : interest k !! fd = None ->
    0 <= (epoll_ctl k EPOLL_CTL_ADD fd ev).2 /\
    interest (epoll_ctl k EPOLL_CTL_ADD fd ev).1 = <[fd := ev]> (interest k);
  ctl_mod k fd ev : is_Some (interest k !! fd) ->
    0 <= (epoll_ctl k EPOLL_CTL_MOD fd ev).2 /\
    interest (epoll_ctl k EPOLL_CTL_MOD fd ev).1 = <[fd := ev]> (interest k);
  ctl_del k fd ev : is_Some (interest k !! fd) ->
    interest (epoll_ctl k EPOLL_CTL_DEL fd ev).1 = delete fd (interest k);
}.

Module MapKernel.
(** The kernel's interest list as a map, an instance of the documented [epoll_ctl]. *)
#[export] Instance map_kernel : EpollKernel := {|
  kernel := gmap Z (Z * Z); epoll_create1 := ∅; interest k := k;
  epoll_ctl k op fd ev :=
    match op, k !! fd with
    | EPOLL_CTL_ADD, None | EPOLL_CTL_MOD, Some _ => (<[fd := ev]> k, 0)
    | EPOLL_CTL_DEL, Some _ => (delete fd k, 0)
    | _, _ => (k, -1)
    end |}.
#[export] Instance map_kernel_laws : EpollLaws.
Proof.
  constructor; simpl; [done|intros k fd ev ->; done|intros k fd ev [x ->]; done|intros k fd ev [x ->]; done].
Defined.
End MapKernel.

Module EpollPoller.
Section epoll.
Context `{EpollKernel}.

Definition kNew : Z := -1.
Definition kAdded : Z := 1.
Definition kDeleted : Z := 2.
Definition kInitEventListSize : Z := 16.

(** [events_] is only its size here: its elements are written by [epoll_wait]
    before they are read. *)
Record t := mk { cmap : gmap Z Z; epollfd_ : kernel; events_size : Z }.

Definition new : t := {| cmap := ∅; epollfd_ := epoll_create1; events_size := kInitEventListSize |}.

Definition update (p : t) (operation : epoll_op) (c : Z) (ch : Channel.t) : outcome t :=
  let event := (Channel.events ch, c) in
  let fd := Channel.fd ch in
  match epoll_ctl (epollfd_ p) operation fd event with
  | (k, ret) =>
      let p' := {| cmap := cmap p; epollfd_ := k; events_size := events_size p |} in
      if ret <? 0 then
        match operation with
        | EPOLL_CTL_DEL => mret p'          (* LOG_ERROR *)
        | _ => Fault Fatal                  (* LOG_FATAL *)
        end
      else mret p'
  end.

Definition with_cmap (p : t) (m : gmap Z Z) : t :=
  {| cmap := m; epollfd_ := epollfd_ p; events_size := events_size p |}.

Definition updateChannel (inLoop : bool) (p : t) (s : store) (c : Z) : outcome (t * store) :=
  _ ← assertInLoopThread inLoop ;
  ch ← deref (s !! c) ;
  let index := Channel.get_index ch in
  let fd := Channel.fd ch in
  if (index =? kNew) || (index =? kDeleted) then
    p ← (if index =? kNew then
           _ ← assert_ (bool_decide (cmap p !! fd = None)) ;
           mret (with_cmap p (<[fd := c]> (cmap p)))
         else
           _ ← assert_ (bool_decide (is_Some (cmap p !! fd))) ;
           _ ← assert_ (bool_decide (cmap p !! fd = Some c)) ;
           mret p) ;
    let ch := Channel.set_index ch kAdded in
    p ← update p EPOLL_CTL_ADD c ch ;
    mret (p, <[c := ch]> s)
  else
    _ ← assert_ (bool_decide (is_Some (cmap p !! fd))) ;
    _ ← assert_ (bool_decide (cmap p !! fd = Some c)) ;
    _ ← assert_ (index =? kAdded) ;
    if Channel.isNoneEvent ch then
      p ← update p EPOLL_CTL_DEL c ch ;
      mret (p, <[c := Channel.set_index ch kDeleted]> s)
    else
      p ← update p EPOLL_CTL_MOD c ch ;
      mret (p, s).

Definition removeChannel (inLoop : bool) (p : t) (s : store) (c : Z) : outcome (t * store) :=
  _ ← assertInLoopThread inLoop ;
  ch ← deref (s !! c) ;
  let fd := Channel.fd ch in
  _ ← assert_ (bool_decide (is_Some (cmap p !! fd))) ;
  _ ← assert_ (bool_decide (cmap p !! fd = Some c)) ;
  _ ← assert_ (Channel.isNoneEvent ch) ;
  let index := Channel.get_index ch in
  let p := with_cmap p (delete fd (cmap p)) in
  p ← (if index =? kAdded then update p EPOLL_CTL_DEL c ch else mret p) ;
  mret (p, <[c := Channel.set_index ch kNew]> s).

(** [ready] is what [epoll_wait] stored: events and data.ptr of each element. *)
Fixpoint fillActiveChannels_loop (p : t) (s : store) (ready : list (Z * Z)) (active : list Z)
  : outcome (store * list Z) :=
  match ready with
  | [] => mret (s, active)
  | (revents, c) :: rest =>
      ch ← deref (s !! c) ;
      _ ← assert_ (bool_decide (is_Some (cmap p !! Channel.fd ch))) ;
      _ ← assert_ (bool_decide (cmap p !! Channel.fd ch = Some c)) ;
      fillActiveChannels_loop p (<[c := Channel.set_revent ch revents]> s) rest (active ++ [c])
  end.

Definition fillActiveChannels (p : t) (s : store) (ready : list (Z * Z)) (active : list Z)
  : outcome (store * list Z) :=
  _ ← assert_ (zlen ready <=? events_size p) ;
  fillActiveChannels_loop p s ready active.

(** [poll]; [None] is a negative result of [epoll_wait]. *)
Definition poll (p : t) (s : store) (wait : option (list (Z * Z))) (active : list Z)
  : outcome (t * store * list Z) :=
  match wait with
  | Some ((_ :: _) as ready) =>
      r ← fillActiveChannels p s ready active ;
      let size := if zlen ready =? events_size p then events_size p * 2 else events_size p in
      mret ({| cmap := cmap p; epollfd_ := epollfd_ p; events_size := size |}, r.1, r.2)
  | _ => mret (p, s, active)
  end.

(** ** Its invariant *)
Record ok (p : t) (s : store) : Prop := {
  ok_mapped fd c : cmap p !! fd = Some c ->
    exists ch, s !! c = Some ch /\ Channel.fd_ ch = fd /\
      ((Channel.index_ ch = kAdded /\ interest (epollfd_ p) !! fd = Some (Channel.events_ ch, c)) \/
       (Channel.index_ ch = kDeleted /\ interest (epollfd_ p) !! fd = None /\ Channel.events_ ch = 0));
  ok_unmapped fd : cmap p !! fd = None -> interest (epollfd_ p) !! fd = None;
  ok_index c ch : s !! c = Some ch -> Channel.index_ ch = kNew \/ cmap p !! Channel.fd_ ch = Some c;
}.

Definition watched (p : t) (fd : Z) : Z :=
  match interest (epollfd_ p) !! fd with Some (ev, _) => ev | None => 0 end.

#[global] Instance epoll_poller : Poller := {|
  pstate := t; pnew := new; channelMap_ := cmap; Polling.watched := watched; poller_ok := ok;
  Polling.updateChannel := updateChannel; Polling.removeChannel := removeChannel |}.

(** Changing one channel and its descriptor keeps the invariant. *)
Lemma ok_change p s p' c ch ch' fd :
  ok p s -> s !! c = Some ch -> Channel.fd_ ch = fd -> Channel.fd_ ch' = fd ->
  (cmap p !! fd = Some c \/ cmap p !! fd = None) ->
  (forall fd', fd' <> fd -> cmap p' !! fd' = cmap p !! fd' /\
     interest (epollfd_ p') !! fd' = interest (epollfd_ p) !! fd') ->
  ((cmap p' !! fd = Some c /\
    ((Channel.index_ ch' = kAdded /\ interest (epollfd_ p') !! fd = Some (Channel.events_ ch', c)) \/
     (Channel.index_ ch' = kDeleted /\ interest (epollfd_ p') !! fd = None /\ Channel.events_ ch' = 0)))
   \/ (cmap p' !! fd = None /\ interest (epollfd_ p') !! fd = None /\ Channel.index_ ch' = kNew)) ->
  ok p' (<[c := ch']> s).
Proof.
  intros Hok Hc Hfd Hfd' Hmap Hoff Hat. constructor.
  - intros fd0 c0 H0. destruct (decide (fd0 = fd)) as [->|Hne].
    + destruct Hat as [[Hm Hcase]|(Hm & _)]; [|congruence].
      assert (c0 = c) as -> by congruence. exists ch'. by rewrite lookup_insert_eq.
    + destruct (Hoff fd0 Hne) as [E1 E2]. rewrite E1 in H0.
      destruct (ok_mapped p s Hok fd0 c0 H0) as (ch0 & Hs & Hf & Hcase).
      assert (c0 <> c) by congruence. exists ch0. by rewrite lookup_insert_ne, E2.
  - intros fd0 H0. destruct (decide (fd0 = fd)) as [->|Hne].
    + destruct Hat as [[Hm _]|(_ & Hi & _)]; [congruence|done].
    + destruct (Hoff fd0 Hne) as [E1 E2]. rewrite E2. apply (ok_unmapped p s Hok). congruence.
  - intros c0 ch0. rewrite lookup_insert_Some. intros [[<- <-]|[Hne H0]].
    + rewrite Hfd'. destruct Hat as [[Hm _]|(_ & _ & Hi)]; [by right|by left].
    + destruct (ok_index p s Hok c0 ch0 H0) as [?|Hm]; [by left|].
      destruct (decide (Channel.fd_ ch0 = fd)) as [E|Hne']; [rewrite E in Hm; destruct Hmap; congruence|].
      right. by rewrite (proj1 (Hoff _ Hne')).
Qed.

Context `{!EpollLaws}.

Lemma update_add p c ch :
  interest (epollfd_ p) !! Channel.fd_ ch = None ->
  exists k, update p EPOLL_CTL_ADD c ch = Ok {| cmap := cmap p; epollfd_ := k; events_size := events_size p |}
    /\ interest k = <[Channel.fd_ ch := (Channel.events_ ch, c)]> (interest (epollfd_ p)).
Proof.
  intros Hi. destruct (ctl_add (epollfd_ p) (Channel.fd_ ch) (Channel.events_ ch, c) Hi) as [Hret Hk].
  revert Hret Hk. unfold update, Channel.fd, Channel.events.
  destruct (epoll_ctl _ _ _ _) as [k ret]. simpl. intros Hret Hk.
  rewrite (proj2 (Z.ltb_ge ret 0)) by lia. eauto.
Qed.

Lemma update_mod p c ch :
  is_Some (interest (epollfd_ p) !! Channel.fd_ ch) ->
  exists k, update p EPOLL_CTL_MOD c ch = Ok {| cmap := cmap p; epollfd_ := k; events_size := events_size p |}
    /\ interest k = <[Channel.fd_ ch := (Channel.events_ ch, c)]> (interest (epollfd_ p)).
Proof.
  intros Hi. destruct (ctl_mod (epollfd_ p) (Channel.fd_ ch) (Channel.events_ ch, c) Hi) as [Hret Hk].
  revert Hret Hk. unfold update, Channel.fd, Channel.events.
  destruct (epoll_ctl _ _ _ _) as [k ret]. simpl. intros Hret Hk.
  rewrite (proj2 (Z.ltb_ge ret 0)) by lia. eauto.
Qed.

Lemma update_del p c ch :
  is_Some (interest (epollfd_ p) !! Channel.fd_ ch) ->
  exists k, update p EPOLL_CTL_DEL c ch = Ok {| cmap := cmap p; epollfd_ := k; events_size := events_size p |}
    /\ interest k = delete (Channel.fd_ ch) (interest (epollfd_ p)).
Proof.
  intros Hi. pose proof (ctl_del (epollfd_ p) (Channel.fd_ ch) (Channel.events_ ch, c) Hi) as Hk.
  revert Hk. unfold update, Channel.fd, Channel.events.
  destruct (epoll_ctl _ _ _ _) as [k ret]. simpl. intros Hk. case_match; eauto.
Qed.

Lemma same_but_index_insert s c ch i :
  s !! c = Some ch -> same_but_index s (<[c := Channel.set_index ch i]> s).
Proof.
  intros Hc c'. destruct (decide (c' = c)) as [->|]; [|by rewrite lookup_insert_ne].
  rewrite lookup_insert_eq, Hc. done.
Qed.

(** The two ways a call leaves the kernel's list. *)
Lemma after_insert p s p' c ch ch' :
  ok p s -> s !! c = Some ch -> Channel.fd_ ch' = Channel.fd_ ch ->
  (cmap p !! Channel.fd_ ch = Some c \/ cmap p !! Channel.fd_ ch = None) ->
  cmap p' = <[Channel.fd_ ch := c]> (cmap p) -> Channel.index_ ch' = kAdded ->
  interest (epollfd_ p') = <[Channel.fd_ ch := (Channel.events_ ch', c)]> (interest (epollfd_ p)) ->
  ok p' (<[c := ch']> s) /\
  (forall fd, watched p' fd = if decide (fd = Channel.fd_ ch) then Channel.events_ ch' else watched p fd).
Proof.
  intros Hok Hc Hfd Hreg Hm Hi Hint. split.
  - apply (ok_change p s p' c ch _ (Channel.fd_ ch)); try done.
    + intros fd' Hne. by rewrite Hm, Hint, !lookup_insert_ne.
    + left. rewrite Hm, Hint, !lookup_insert_eq. eauto.
  - intros fd. unfold watched. rewrite Hint. case_decide as E.
    + by rewrite E, lookup_insert_eq.
    + by rewrite lookup_insert_ne by congruence.
Qed.

Lemma after_delete p s p' c ch ch' :
  ok p s -> s !! c = Some ch -> Channel.fd_ ch' = Channel.fd_ ch -> cmap p !! Channel.fd_ ch = Some c ->
  interest (epollfd_ p') = delete (Channel.fd_ ch) (interest (epollfd_ p)) ->
  ((cmap p' = cmap p /\ Channel.index_ ch' = kDeleted /\ Channel.events_ ch' = 0) \/
   (cmap p' = delete (Channel.fd_ ch) (cmap p) /\ Channel.index_ ch' = kNew)) ->
  ok p' (<[c := ch']> s) /\
  (forall fd, watched p' fd = if decide (fd = Channel.fd_ ch) then 0 else watched p fd).
Proof.
  intros Hok Hc Hfd Hreg Hint Hcase. split.
  - apply (ok_change p s p' c ch _ (Channel.fd_ ch)); try done; [by left| |].
    + intros fd' Hne. rewrite Hint, lookup_delete_ne by congruence.
      destruct Hcase as [[-> _]|[-> _]]; [done|]. by rewrite lookup_delete_ne by congruence.
    + rewrite Hint, lookup_delete_eq. destruct Hcase as [(-> & ? & ?)|[-> ?]]; [left; auto|].
      rewrite lookup_delete_eq. auto.
  - intros fd. unfold watched. rewrite Hint. case_decide as E.
    + by rewrite E, lookup_delete_eq.
    + by rewrite lookup_delete_ne by congruence.
Qed.

Lemma epoll_update_law p s c ch ev :
  ok p s -> may_register p s c -> s !! c = Some ch -> valid_events ev ->
  exists p' s', updateChannel true p (<[c := Channel.set_events ch ev]> s) c = Ok (p', s') /\
    ok p' s' /\ cmap p' = <[Channel.fd_ ch := c]> (cmap p) /\
    (forall fd, watched p' fd = if decide (fd = Channel.fd_ ch) then ev else watched p fd) /\
    same_but_index (<[c := Channel.set_events ch ev]> s) s' /\
    (forall c', c' <> c -> s' !! c' = s !! c').
Proof.
  intros Hok (ch0 & Hc0 & _ & Hreg) Hc Hev. simpl in Hreg.
  assert (ch0 = ch) as -> by congruence. clear Hc0.
  assert (forall x c', c' <> c -> <[c := x]> s !! c' = s !! c') as Hframe
    by (intros; by apply lookup_insert_ne).
  set (ch' := Channel.set_events ch ev). set (s1 := <[c := ch']> s).
  assert (s1 !! c = Some ch') as Hs1 by apply lookup_insert_eq.
  assert (forall i, same_but_index s1 (<[c := Channel.set_index ch' i]> s)) as Hsame.
  { intros i. rewrite <- (insert_insert_eq s c (Channel.set_index ch' i) ch'). by apply same_but_index_insert. }
  unfold updateChannel. simpl. rewrite Hs1. simpl.
  change (Channel.get_index ch') with (Channel.index_ ch). change (Channel.fd ch') with (Channel.fd_ ch).
  destruct Hreg as [Hm|[Hm Hi]].
  - destruct (ok_mapped p s Hok _ _ Hm) as (ch1 & Hc1 & _ & Hcase).
    assert (ch1 = ch) as -> by congruence. clear Hc1.
    assert (<[Channel.fd_ ch := c]> (cmap p) = cmap p) as Hcm by by apply insert_id.
    destruct Hcase as [[Hi Hk]|(Hi & Hk & Hz)]; rewrite Hi; simpl;
      rewrite !assert_pass by (first [done | apply bool_decide_eq_true_2; by eauto]).
    + unfold Channel.isNoneEvent. change (Channel.events_ ch') with ev.
      destruct (Z.eqb_spec ev Channel.kNoneEvent) as [->|Hne].
      * destruct (update_del p c ch') as (k & -> & Hint); [by eexists|]. simpl.
        unfold s1. rewrite insert_insert_eq. eexists _, _. split; [done|].
        edestruct (after_delete p s (mk (cmap p) k (events_size p)) c ch
          (Channel.set_index ch' kDeleted)) as [H1 H2]; eauto 10.
      * destruct (update_mod p c ch') as (k & -> & Hint); [by eexists|]. simpl.
        eexists _, _. split; [done|].
        edestruct (after_insert p s (mk (cmap p) k (events_size p)) c ch ch') as [H1 H2]; eauto 10.
    + simpl. destruct (update_add p c (Channel.set_index ch' kAdded)) as (k & -> & Hint); [done|]. simpl.
      unfold s1. rewrite insert_insert_eq. eexists _, _. split; [done|].
      edestruct (after_insert p s (mk (cmap p) k (events_size p)) c ch
        (Channel.set_index ch' kAdded)) as [H1 H2]; eauto 10.
  - pose proof (ok_unmapped p s Hok _ Hm) as Hk. rewrite Hi. simpl.
    rewrite assert_pass by by apply bool_decide_eq_true_2. simpl.
    destruct (update_add (with_cmap p (<[Channel.fd_ ch := c]> (cmap p))) c (Channel.set_index ch' kAdded))
      as (k & -> & Hint); [done|]. simpl.
    unfold s1. rewrite insert_insert_eq. eexists _, _. split; [done|].
    edestruct (after_insert p s (mk (<[Channel.fd_ ch := c]> (cmap p)) k (events_size p)) c ch
      (Channel.set_index ch' kAdded)) as [H1 H2]; eauto 10.
Qed.

Lemma epoll_remove_law p s c ch :
  ok p s -> s !! c = Some ch -> cmap p !! Channel.fd_ ch = Some c -> Channel.events_ ch = 0 ->
  exists p' s', removeChannel true p s c = Ok (p', s') /\
    ok p' s' /\ cmap p' = delete (Channel.fd_ ch) (cmap p) /\
    (forall fd, watched p' fd = if decide (fd = Channel.fd_ ch) then 0 else watched p fd) /\
    same_but_index s s' /\ (forall ch', s' !! c = Some ch' -> Channel.index_ ch' = kNew) /\
    (forall c', c' <> c -> s' !! c' = s !! c').
Proof.
  intros Hok Hc Hm Hz. unfold removeChannel. simpl. rewrite Hc. simpl.
  rewrite !assert_pass by (first [by apply Z.eqb_eq | apply bool_decide_eq_true_2; by eauto]).
  destruct (ok_mapped p s Hok _ _ Hm) as (ch1 & Hc1 & _ & Hcase).
  assert (ch1 = ch) as -> by congruence.
  assert (forall ch', <[c := Channel.set_index ch kNew]> s !! c = Some ch' -> Channel.index_ ch' = kNew)
    as Hnew by (intros ch'; rewrite lookup_insert_eq; by intros [= <-]).
  pose proof (same_but_index_insert s c ch kNew Hc) as Hsame.
  assert (forall x c', c' <> c -> <[c := x]> s !! c' = s !! c') as Hframe
    by (intros; by apply lookup_insert_ne).
  unfold Channel.get_index, Channel.fd. destruct Hcase as [[Hi Hk]|(Hi & Hk & _)]; rewrite Hi; simpl.
  - destruct (update_del (with_cmap p (delete (Channel.fd_ ch) (cmap p))) c ch) as (k & -> & Hint);
      [by eexists|]. simpl. eexists _, _. split; [done|].
    edestruct (after_delete p s (mk (delete (Channel.fd_ ch) (cmap p)) k (events_size p)) c ch
      (Channel.set_index ch kNew)) as [H1 H2]; eauto 10.
  - eexists _, _. split; [done|].
    edestruct (after_delete p s (with_cmap p (delete (Channel.fd_ ch) (cmap p))) c ch
      (Channel.set_index ch kNew)) as [H1 H2]; eauto 10.
    simpl. symmetry. by apply delete_id.
Qed.

#[global] Instance epoll_laws : PollerLaws.
Proof.
  constructor; simpl.
  - intros s Hs. split_and!; [|done|].
    + constructor; simpl; [intros fd c|intros fd _|intros c ch Hc; left; by eapply Hs].
      * by rewrite lookup_empty.
      * rewrite interest_new. apply lookup_empty.
    + intros fd. unfold watched. simpl. by rewrite interest_new, lookup_empty.
  - intros p s c ch [] Hc Hi. constructor; [|done|].
    + intros fd c0 Hm. destruct (ok_mapped0 fd c0 Hm) as (ch0 & Hs0 & ?). exists ch0.
      by rewrite lookup_insert_ne by congruence.
    + intros c0 ch0. rewrite lookup_insert_Some. intros [[<- <-]|[_ Hs0]]; [by left|by apply ok_index0].
  - intros p s c ch ch' [Hmap Hun Hidx] Hc Hf He Hi. constructor; [|done|].
    + intros fd c0 Hm. destruct (Hmap fd c0 Hm) as (ch0 & Hs0 & Hf0 & Hcase).
      destruct (decide (c0 = c)) as [->|Hne]; [|exists ch0; by rewrite lookup_insert_ne].
      assert (ch0 = ch) as -> by congruence. exists ch'. rewrite lookup_insert_eq, Hf, He, Hi. done.
    + intros c0 ch0. rewrite lookup_insert_Some.
      intros [[<- <-]|[_ Hs0]]; [rewrite Hi, Hf|]; by apply Hidx.
  - intros p s c ch [Hmap Hun Hidx] Hc Hm. constructor; [|done|].
    + intros fd c0 Hm0. destruct (Hmap fd c0 Hm0) as (ch0 & Hs0 & Hf0 & Hcase). exists ch0.
      rewrite lookup_delete_ne; [done|]. intros ->. congruence.
    + intros c0 ch0 [_ Hs0]%lookup_delete_Some. by apply Hidx.
  - apply epoll_update_law.
  - intros p s c ch Hok Hc Hm Hz.
    destruct (epoll_remove_law p s c ch) as (p' & s' & ? & ? & ? & ? & ? & _ & Hframe); [done..|].
    exists p', s'. split_and!; try done. intros c' Hc'. apply Hframe. intros ->. by eapply Hc'.
Qed.

(** Writing [revents_] does not touch what the invariant is about. *)
Lemma ok_revent p s c ch r : ok p s -> s !! c = Some ch -> ok p (<[c := Channel.set_revent ch r]> s).
Proof.
  intros [Hm Hu Hi] Hc. constructor; [|done|].
  - intros fd c0 Hin0. destruct (Hm fd c0 Hin0) as (ch0 & Hs0 & Hf & Hcase).
    destruct (decide (c0 = c)) as [->|Hne].
    + assert (ch0 = ch) as -> by congruence. rewrite lookup_insert_eq. eauto.
    + exists ch0. by rewrite lookup_insert_ne.
  - intros c0 ch0. rewrite lookup_insert_Some. intros [[<- <-]|[_ Hs0]]; [apply (Hi c ch Hc)|by apply Hi].
Qed.

Lemma fill_ok p s ready active :
  ok p s -> (forall r c, (r, c) ∈ ready -> exists fd ev, interest (epollfd_ p) !! fd = Some (ev, c)) ->
  exists s', fillActiveChannels_loop p s ready active = Ok (s', active ++ map snd ready) /\ ok p s' /\
    (forall c, c ∉ map snd ready -> s' !! c = s !! c) /\
    (NoDup (map snd ready) -> forall r c, (r, c) ∈ ready ->
       Channel.revents_ <$> s' !! c = Some r).
Proof.
  revert s active. induction ready as [|[r c] ready IH]; intros s active Hok Hk; simpl.
  - exists s. rewrite app_nil_r. split_and!; try done. intros _ r c Hin. by apply not_elem_of_nil in Hin.
  - destruct (Hk r c) as (fd & ev & Hint); [by constructor|].
    destruct (cmap p !! fd) as [c'|] eqn:Hm.
    + destruct (ok_mapped p s Hok fd c' Hm) as (ch & Hs & Hf & Hcase).
      assert (c' = c) as -> by (destruct Hcase as [[_ E]|(_ & E & _)]; congruence).
      rewrite Hs. simpl. unfold Channel.fd. rewrite Hf.
      rewrite !assert_pass by (apply bool_decide_eq_true_2; by eauto).
      destruct (IH (<[c := Channel.set_revent ch r]> s) (active ++ [c])) as (s' & -> & Hok' & Hoff & Hrev).
      { by apply ok_revent. } { intros r0 c0 Hin0. apply (Hk r0 c0). by constructor. }
      exists s'. rewrite <- app_assoc. split_and!; try done.
      * intros c0 [Hne Hni]%not_elem_of_cons. rewrite Hoff by done. by rewrite lookup_insert_ne.
      * intros [Hni Hnd]%NoDup_cons r0 c0 [[= -> ->]|Hin0]%elem_of_cons; [|by apply Hrev].
        rewrite Hoff by done. by rewrite lookup_insert_eq.
    + rewrite (ok_unmapped p s Hok fd Hm) in Hint. done.
Qed.

(** A poll reports exactly what the kernel reported: each ready channel, in
    order, with its received events stored in it; the result never overflows the
    event list, which keeps room for more events than were returned. *)
Theorem epoll_poll_reports p s ready active :
  ok p s -> (forall r c, (r, c) ∈ ready -> exists fd ev, interest (epollfd_ p) !! fd = Some (ev, c)) ->
  NoDup (map snd ready) -> 0 < events_size p -> zlen ready <= events_size p ->
  exists p' s', poll p s (Some ready) active = Ok (p', s', active ++ map snd ready) /\ ok p' s' /\
    zlen ready < events_size p' /\ cmap p' = cmap p /\
    (forall r c, (r, c) ∈ ready -> Channel.revents_ <$> s' !! c = Some r).
Proof.
  intros Hok Hk Hnd Hpos Hlen. destruct (fill_ok p s ready active Hok Hk) as (s' & Hfill & Hok' & _ & Hrev).
  destruct ready as [|rc ready'].
  - exists p, s. simpl. rewrite app_nil_r. split_and!; try done. intros r c Hin.
    by apply not_elem_of_nil in Hin.
  - unfold poll, fillActiveChannels. rewrite assert_pass by (by apply Z.leb_le).
    rewrite Hfill, bind_ok. eexists _, _. split; [done|]. split_and!; [by destruct Hok'; constructor| |done|by apply Hrev].
    cbn [events_size]. bcases; lia.
Qed.
End epoll.

Lemma epoll_poll_reports_witness :
  exists p' s',
    poll (H := MapKernel.map_kernel)
      {| cmap := {[7 := 100]}; epollfd_ := ({[7 := (3, 100)]} : kernel); events_size := 16 |}
      {[100 := Channel.set_fields (Channel.new 0 7) 3 0 1 true]} (Some [(1, 100)]) [] = Ok (p', s', [100]) /\
    Channel.revents_ <$> s' !! 100 = Some 1.
Proof.
  destruct (epoll_poll_reports (H := MapKernel.map_kernel)
      {| cmap := {[7 := 100]}; epollfd_ := ({[7 := (3, 100)]} : kernel); events_size := 16 |}
      {[100 := Channel.set_fields (Channel.new 0 7) 3 0 1 true]} [(1, 100)] [])
    as (p' & s' & Hpoll & _ & _ & _ & Hrev).
  - constructor; simpl.
    + intros fd c [<- <-]%lookup_singleton_Some. eexists. split; [apply lookup_singleton_eq|].
      split; [done|]. left. split; [done|apply lookup_singleton_eq].
    + intros fd Hn%lookup_singleton_None. by apply lookup_singleton_ne.
    + intros c ch [<- <-]%lookup_singleton_Some. right. apply lookup_singleton_eq.
  - intros r c [= -> ->]%list_elem_of_singleton. exists 7, 3. by vm_compute.
  - apply NoDup_singleton.
  - simpl. lia.
  - unfold zlen. simpl. lia.
  - exists p', s'. split; [exact Hpoll|]. apply Hrev. by constructor.
Defined.
End EpollPoller.

(** ** [PollPoller] *)
Module PollPoller.
Record pollfd := mk_pollfd { pfd_fd : Z; pfd_events : Z; pfd_revents : Z }.
Record t := mk { cmap : gmap Z Z; pollfds_ : list pollfd }.

Definition new : t := {| cmap := ∅; pollfds_ := [] |}.

(** The descriptor count is far below [2^31], so the conversions between [int]
    and [size_t] are exact. *)
Definition updateChannel (inLoop : bool) (p : t) (s : store) (c : Z) : outcome (t * store) :=
  _ ← assertInLoopThread inLoop ;
  ch ← deref (s !! c) ;
  if Channel.get_index ch <? 0 then
    _ ← assert_ (bool_decide (cmap p !! Channel.fd ch = None)) ;
    let pfd := {| pfd_fd := Channel.fd ch; pfd_events := int16 (Channel.events ch); pfd_revents := 0 |} in
    let idx := zlen (pollfds_ p) in
    mret ({| cmap := <[pfd_fd pfd := c]> (cmap p); pollfds_ := pollfds_ p ++ [pfd] |},
          <[c := Channel.set_index ch idx]> s)
  else
    _ ← assert_ (bool_decide (is_Some (cmap p !! Channel.fd ch))) ;
    _ ← assert_ (bool_decide (cmap p !! Channel.fd ch = Some c)) ;
    let idx := Channel.get_index ch in
    _ ← assert_ ((0 <=? idx) && (idx <? zlen (pollfds_ p))) ;
    pfd ← deref (pollfds_ p !! Z.to_nat idx) ;
    _ ← assert_ ((pfd_fd pfd =? Channel.fd ch) || (pfd_fd pfd =? - Channel.fd ch - 1)) ;
    let fd := if Channel.isNoneEvent ch then - Channel.fd ch - 1 else Channel.fd ch in
    let pfd := {| pfd_fd := fd; pfd_events := int16 (Channel.events ch); pfd_revents := 0 |} in
    mret ({| cmap := cmap p; pollfds_ := <[Z.to_nat idx := pfd]> (pollfds_ p) |}, s).

Definition removeChannel (inLoop : bool) (p : t) (s : store) (c : Z) : outcome (t * store) :=
  _ ← assertInLoopThread inLoop ;
  ch ← deref (s !! c) ;
  _ ← assert_ (bool_decide (is_Some (cmap p !! Channel.fd ch))) ;
  _ ← assert_ (bool_decide (cmap p !! Channel.fd ch = Some c)) ;
  _ ← assert_ (Channel.isNoneEvent ch) ;
  let idx := Channel.get_index ch in
  _ ← assert_ ((0 <=? idx) && (idx <? zlen (pollfds_ p))) ;
  let m := delete (Channel.fd ch) (cmap p) in
  let n := length (pollfds_ p) in
  if idx =? zlen (pollfds_ p) - 1 then
    mret ({| cmap := m; pollfds_ := take (n - 1) (pollfds_ p) |}, s)
  else
    back ← deref (pollfds_ p !! (n - 1)%nat) ;
    mine ← deref (pollfds_ p !! Z.to_nat idx) ;
    let swapped := <[(n - 1)%nat := mine]> (<[Z.to_nat idx := back]> (pollfds_ p)) in
    let channelFdAtEnd := if pfd_fd back <? 0 then - pfd_fd back - 1 else pfd_fd back in
    c' ← deref (m !! channelFdAtEnd) ;
    ch' ← deref (s !! c') ;
    mret ({| cmap := m; pollfds_ := take (n - 1) swapped |}, <[c' := Channel.set_index ch' idx]> s).

(** [fillActiveChannels] over the vector as [::poll] left it. *)
Fixpoint fillActiveChannels (m : gmap Z Z) (s : store) (numOfEvents : Z) (pfds : list pollfd)
  (active : list Z) : outcome (store * list Z) :=
  match pfds with
  | [] => mret (s, active)
  | pfd :: rest =>
      if negb (0 <? numOfEvents) then mret (s, active)
      else if 0 <? pfd_revents pfd then
        c ← deref (m !! pfd_fd pfd) ;
        ch ← deref (s !! c) ;
        _ ← assert_ (Channel.fd ch =? pfd_fd pfd) ;
        fillActiveChannels m (<[c := Channel.set_revent ch (pfd_revents pfd)]> s) (numOfEvents - 1) rest
          (active ++ [c])
      else fillActiveChannels m s numOfEvents rest active
  end.

(** [poll]: [::poll] has stored [revents] in the vector and returned [num]. *)
Definition poll (p : t) (s : store) (num : Z) (revents : list Z) (active : list Z)
  : outcome (t * store * list Z) :=
  let pfds := zip_with (fun pf r => mk_pollfd (pfd_fd pf) (pfd_events pf) r) (pollfds_ p) revents in
  let p := {| cmap := cmap p; pollfds_ := pfds |} in
  if 0 <? num then
    r ← fillActiveChannels (cmap p) s num pfds active ;
    mret (p, r.1, r.2)
  else mret (p, s, active).

(** ** Its invariant *)
Definition entry_ok (pf : pollfd) (ch : Channel.t) : Prop :=
  (pfd_fd pf = Channel.fd_ ch /\ pfd_events pf = Channel.events_ ch) \/
  (pfd_fd pf = - Channel.fd_ ch - 1 /\ pfd_events pf = 0 /\ Channel.events_ ch = 0).

Record ok (p : t) (s : store) : Prop := {
  ok_mapped fd c : cmap p !! fd = Some c ->
    exists ch pf, s !! c = Some ch /\ Channel.fd_ ch = fd /\ 0 <= fd /\ 0 <= Channel.index_ ch /\
      pollfds_ p !! Z.to_nat (Channel.index_ ch) = Some pf /\ entry_ok pf ch;
  ok_slot i pf : pollfds_ p !! i = Some pf ->
    exists c ch, cmap p !! Channel.fd_ ch = Some c /\ s !! c = Some ch /\
      Channel.index_ ch = Z.of_nat i;
}.

Definition watched (p : t) (fd : Z) : Z :=
  match list_find (fun pf => pfd_fd pf = fd) (pollfds_ p) with
  | Some (_, pf) => pfd_events pf
  | None => 0
  end.

#[global] Instance poll_poller : Poller := {|
  pstate := t; pnew := new; channelMap_ := cmap; Polling.watched := watched; poller_ok := ok;
  Polling.updateChannel := updateChannel; Polling.removeChannel := removeChannel |}.

(** The events watched are those of the channel. *)
Lemma watched_mapped p s fd c ch :
  ok p s -> cmap p !! fd = Some c -> s !! c = Some ch -> watched p fd = Channel.events_ ch.
Proof.
  intros Hok Hm Hc. destruct (ok_mapped p s Hok fd c Hm) as (ch0 & pf & Hc0 & Hf & Hpos & Hi & Hpf & Hent).
  assert (ch0 = ch) as -> by congruence. unfold watched.
  destruct (list_find _ _) as [[i pf']|] eqn:E.
  - apply list_find_Some in E as (Hl & Hfd & _).
    destruct (ok_slot p s Hok i pf' Hl) as (c' & ch' & Hm' & Hc' & Hi').
    destruct (ok_mapped p s Hok _ _ Hm') as (ch2 & pf2 & Hc2 & _ & Hpos2 & _ & Hpf2 & Hent2).
    assert (ch2 = ch') as -> by congruence. rewrite Hi', Nat2Z.id in Hpf2.
    assert (pf2 = pf') as -> by congruence.
    destruct Hent2 as [[E1 E2]|(E1 & E2 & E3)]; [|lia].
    assert (Channel.fd_ ch' = fd) as Hf' by congruence. rewrite Hf' in Hm'. congruence.
  - rewrite list_find_None, Forall_forall in E.
    destruct Hent as [[E1 _]|(_ & _ & ->)]; [|done].
    destruct (E pf); [by eapply list_elem_of_lookup_2|congruence].
Qed.

Lemma watched_unmapped p s fd : ok p s -> cmap p !! fd = None -> watched p fd = 0.
Proof.
  intros Hok Hm. unfold watched. destruct (list_find _ _) as [[i pf]|] eqn:E; [|done].
  apply list_find_Some in E as (Hl & Hfd & _).
  destruct (ok_slot p s Hok i pf Hl) as (c & ch & Hm' & Hc & Hi).
  destruct (ok_mapped p s Hok _ _ Hm') as (ch2 & pf2 & Hc2 & _ & _ & _ & Hpf2 & Hent2).
  assert (ch2 = ch) as -> by congruence. rewrite Hi, Nat2Z.id in Hpf2.
  assert (pf2 = pf) as -> by congruence. destruct Hent2 as [[E1 _]|(_ & E2 & _)]; congruence.
Qed.

(** Two pollers that agree on a descriptor's channel watch it alike. *)
Lemma watched_agree p s p' s' fd :
  ok p s -> ok p' s' -> cmap p' !! fd = cmap p !! fd ->
  (forall c, cmap p !! fd = Some c -> Channel.events_ <$> s' !! c = Channel.events_ <$> s !! c) ->
  watched p' fd = watched p fd.
Proof.
  intros Hok Hok' Hm Hs. destruct (cmap p !! fd) as [c|] eqn:E.
  - destruct (ok_mapped p s Hok fd c E) as (ch & ? & Hc & _).
    destruct (ok_mapped p' s' Hok' fd c Hm) as (ch' & ? & Hc' & _).
    rewrite (watched_mapped p s fd c ch), (watched_mapped p' s' fd c ch') by done.
    specialize (Hs c eq_refl). rewrite Hc, Hc' in Hs. simpl in Hs. congruence.
  - rewrite (watched_unmapped p s), (watched_unmapped p' s') by done. done.
Qed.

Definition real_fd (x : Z) : Z := if x <? 0 then - x - 1 else x.

Lemma entry_real_fd pf ch : entry_ok pf ch -> 0 <= Channel.fd_ ch -> real_fd (pfd_fd pf) = Channel.fd_ ch.
Proof. unfold entry_ok, real_fd. intros [[-> _]|(-> & _)] ?; bcases; lia. Qed.

(** A slot belongs to one channel. *)
Lemma index_inj p s fd1 c1 ch1 fd2 c2 ch2 :
  ok p s -> cmap p !! fd1 = Some c1 -> s !! c1 = Some ch1 -> cmap p !! fd2 = Some c2 ->
  s !! c2 = Some ch2 -> Channel.index_ ch1 = Channel.index_ ch2 -> fd1 = fd2 /\ c1 = c2.
Proof.
  intros Hok Hm1 Hc1 Hm2 Hc2 E.
  destruct (ok_mapped p s Hok _ _ Hm1) as (x1 & pf1 & Hx1 & Hf1 & Hp1 & _ & Hl1 & He1).
  destruct (ok_mapped p s Hok _ _ Hm2) as (x2 & pf2 & Hx2 & Hf2 & Hp2 & _ & Hl2 & He2).
  assert (x1 = ch1) as -> by congruence. assert (x2 = ch2) as -> by congruence.
  rewrite E in Hl1. assert (pf1 = pf2) as -> by congruence.
  apply entry_real_fd in He1; [|lia]. apply entry_real_fd in He2; [|lia].
  assert (fd1 = fd2) as -> by congruence. split; congruence.
Qed.

Lemma slot_of p s i pf c ch :
  ok p s -> pollfds_ p !! i = Some pf -> cmap p !! Channel.fd_ ch = Some c -> s !! c = Some ch ->
  Channel.index_ ch = Z.of_nat i -> entry_ok pf ch.
Proof.
  intros Hok Hl Hm Hc Hi.
  destruct (ok_mapped p s Hok _ _ Hm) as (x & pf' & Hx & _ & _ & _ & Hl' & He).
  assert (x = ch) as -> by congruence. rewrite Hi, Nat2Z.id in Hl'. congruence.
Qed.

Lemma update_existing p s c ch ch' pf' :
  ok p s -> cmap p !! Channel.fd_ ch = Some c -> s !! c = Some ch ->
  Channel.fd_ ch' = Channel.fd_ ch -> Channel.index_ ch' = Channel.index_ ch -> entry_ok pf' ch' ->
  ok (mk (cmap p) (<[Z.to_nat (Channel.index_ ch) := pf']> (pollfds_ p))) (<[c := ch']> s).
Proof.
  intros Hok Hm Hc Hf Hi Hent.
  destruct (ok_mapped p s Hok _ _ Hm) as (x & pf & Hx & _ & Hpos & Hidx & Hl & _).
  assert (x = ch) as -> by congruence. constructor; simpl.
  - intros fd0 c0 Hm0. destruct (ok_mapped p s Hok _ _ Hm0) as (ch0 & pf0 & Hc0 & Hf0 & Hp0 & Hi0 & Hl0 & He0).
    destruct (decide (c0 = c)) as [->|Hne].
    + assert (ch0 = ch) as -> by congruence. exists ch', pf'. rewrite lookup_insert_eq.
      split_and!; [done|congruence|done|congruence| |done].
      rewrite Hi. apply list_lookup_insert_eq. by eapply lookup_lt_Some.
    + exists ch0, pf0. rewrite lookup_insert_ne by done. split_and!; try done.
      rewrite list_lookup_insert_ne; [done|]. intros E. apply Z2Nat.inj in E; [|lia..].
      by destruct (index_inj p s _ _ _ _ _ _ Hok Hm Hc Hm0 Hc0 E).
  - intros j pf0 Hl0. destruct (decide (j = Z.to_nat (Channel.index_ ch))) as [->|Hne].
    + exists c, ch'. rewrite lookup_insert_eq, Hf, Hi. split_and!; [done|done|lia].
    + rewrite list_lookup_insert_ne in Hl0 by done.
      destruct (ok_slot p s Hok j pf0 Hl0) as (c0 & ch0 & Hm0 & Hc0 & Hi0).
      exists c0, ch0. rewrite lookup_insert_ne; [done|]. intros ->. apply Hne.
      assert (ch0 = ch) by congruence. subst. lia.
Qed.

Lemma update_new p s c ch ch' pf' :
  ok p s -> cmap p !! Channel.fd_ ch = None -> s !! c = Some ch -> 0 <= Channel.fd_ ch ->
  Channel.fd_ ch' = Channel.fd_ ch -> Channel.index_ ch' = zlen (pollfds_ p) -> entry_ok pf' ch' ->
  ok (mk (<[Channel.fd_ ch := c]> (cmap p)) (pollfds_ p ++ [pf'])) (<[c := ch']> s).
Proof.
  intros Hok Hm Hc Hpos Hf Hi Hent. unfold zlen in Hi.
  assert (forall fd0, cmap p !! fd0 <> Some c) as Hun.
  { intros fd0 Hm0. destruct (ok_mapped p s Hok _ _ Hm0) as (x & _ & Hx & Hf0 & _). congruence. }
  constructor; simpl.
  - intros fd0 c0. rewrite lookup_insert_Some. intros [[<- <-]|[Hne Hm0]].
    + exists ch', pf'. rewrite lookup_insert_eq. split_and!; [done|done|done|lia| |done].
      rewrite Hi, Nat2Z.id. by apply list_lookup_middle.
    + destruct (ok_mapped p s Hok _ _ Hm0) as (ch0 & pf0 & Hc0 & Hf0 & Hp0 & Hi0 & Hl0 & He0).
      exists ch0, pf0. rewrite lookup_insert_ne by (intros ->; by eapply Hun).
      split_and!; try done. rewrite lookup_app_l; [done|]. by eapply lookup_lt_Some.
  - intros j pf0 Hl0. apply lookup_app_Some in Hl0 as [Hl0|[Hge Hl0]].
    + destruct (ok_slot p s Hok j pf0 Hl0) as (c0 & ch0 & Hm0 & Hc0 & Hi0). exists c0, ch0.
      rewrite (lookup_insert_ne s) by (intros ->; by eapply Hun).
      rewrite lookup_insert_ne; [done|]. intros E. rewrite E in Hm. congruence.
    + apply list_lookup_singleton_Some in Hl0 as [Hj ->]. exists c, ch'.
      rewrite Hf, !lookup_insert_eq. split_and!; [done|done|]. rewrite Hi. lia.
Qed.

Lemma remove_last p s c ch :
  ok p s -> cmap p !! Channel.fd_ ch = Some c -> s !! c = Some ch ->
  Channel.index_ ch = zlen (pollfds_ p) - 1 ->
  ok (mk (delete (Channel.fd_ ch) (cmap p)) (take (length (pollfds_ p) - 1) (pollfds_ p))) s.
Proof.
  intros Hok Hm Hc Hi. unfold zlen in Hi. constructor; simpl.
  - intros fd0 c0 [Hne Hm0]%lookup_delete_Some.
    destruct (ok_mapped p s Hok _ _ Hm0) as (ch0 & pf0 & Hc0 & Hf0 & Hp0 & Hi0 & Hl0 & He0).
    exists ch0, pf0. split_and!; try done. rewrite lookup_take_lt; [done|].
    pose proof (lookup_lt_Some _ _ _ Hl0).
    assert (Channel.index_ ch <> Channel.index_ ch0); [|lia]. intros E.
    by destruct (index_inj p s _ _ _ _ _ _ Hok Hm Hc Hm0 Hc0 E).
  - intros j pf0 [Hl0 Hj]%lookup_take_Some.
    destruct (ok_slot p s Hok j pf0 Hl0) as (c0 & ch0 & Hm0 & Hc0 & Hi0).
    exists c0, ch0. rewrite lookup_delete_ne; [done|]. intros E. rewrite <- E in Hm0.
    assert (c0 = c) as -> by congruence. assert (ch0 = ch) as -> by congruence. lia.
Qed.

(** The last slot is moved into the hole and its channel is told. *)
Lemma remove_middle p s c ch c' ch' back mine :
  ok p s -> cmap p !! Channel.fd_ ch = Some c -> s !! c = Some ch -> 0 <= Channel.index_ ch ->
  Channel.index_ ch < zlen (pollfds_ p) - 1 ->
  pollfds_ p !! (length (pollfds_ p) - 1)%nat = Some back ->
  cmap p !! Channel.fd_ ch' = Some c' -> s !! c' = Some ch' ->
  Channel.index_ ch' = zlen (pollfds_ p) - 1 ->
  ok (mk (delete (Channel.fd_ ch) (cmap p))
        (take (length (pollfds_ p) - 1)
          (<[(length (pollfds_ p) - 1)%nat := mine]> (<[Z.to_nat (Channel.index_ ch) := back]> (pollfds_ p)))))
     (<[c' := Channel.set_index ch' (Channel.index_ ch)]> s).
Proof.
  intros Hok Hm Hc Hpos Hlt Hback Hm' Hc' Hi'. unfold zlen in *.
  set (n := length (pollfds_ p)) in *. set (i := Z.to_nat (Channel.index_ ch)).
  assert (entry_ok back ch') as Hent by (eapply (slot_of p s (n - 1)); eauto; lia).
  assert (forall j, (j < n - 1)%nat -> j <> i ->
            take (n - 1) (<[(n - 1)%nat := mine]> (<[i := back]> (pollfds_ p))) !! j = pollfds_ p !! j) as Hoth.
  { intros j Hj Hne. rewrite lookup_take_lt, !list_lookup_insert_ne by lia. done. }
  assert (take (n - 1) (<[(n - 1)%nat := mine]> (<[i := back]> (pollfds_ p))) !! i = Some back) as Hat.
  { rewrite lookup_take_lt, list_lookup_insert_ne by lia. apply list_lookup_insert_eq. lia. }
  constructor; simpl.
  - intros fd0 c0 [Hne Hm0]%lookup_delete_Some.
    destruct (ok_mapped p s Hok _ _ Hm0) as (ch0 & pf0 & Hc0 & Hf0 & Hp0 & Hi0 & Hl0 & He0).
    destruct (decide (c0 = c')) as [->|Hne'].
    + assert (ch0 = ch') as -> by congruence.
      exists (Channel.set_index ch' (Channel.index_ ch)), back. by rewrite lookup_insert_eq.
    + exists ch0, pf0. rewrite lookup_insert_ne by done. split_and!; try done.
      pose proof (lookup_lt_Some _ _ _ Hl0) as Hlen. fold n in Hlen.
      rewrite Hoth; [done| |].
      * assert (Channel.index_ ch0 <> Channel.index_ ch'); [|lia]. intros E.
        by destruct (index_inj p s _ _ _ _ _ _ Hok Hm0 Hc0 Hm' Hc' E).
      * unfold i. intros E. apply Z2Nat.inj in E; [|lia..].
        destruct (index_inj p s _ _ _ _ _ _ Hok Hm0 Hc0 Hm Hc E). congruence.
  - intros j pf0 Hl0. pose proof Hl0 as [_ Hj]%lookup_take_Some.
    destruct (decide (j = i)) as [->|Hne].
    + exists c', (Channel.set_index ch' (Channel.index_ ch)). rewrite lookup_insert_eq.
      split_and!; [|done|simpl; lia]. simpl. rewrite lookup_delete_ne; [done|]. intros E.
      rewrite <- E in Hm'. assert (c' = c) as -> by congruence. assert (ch' = ch) as -> by congruence. lia.
    + rewrite Hoth in Hl0 by done.
      destruct (ok_slot p s Hok j pf0 Hl0) as (c0 & ch0 & Hm0 & Hc0 & Hi0). exists c0, ch0.
      rewrite lookup_delete_ne, lookup_insert_ne; [done| |].
      * intros ->. assert (ch0 = ch') as -> by congruence. lia.
      * intros E. rewrite <- E in Hm0. assert (c0 = c) as -> by congruence.
        assert (ch0 = ch) as -> by congruence. lia.
Qed.

Lemma poll_update_law p s c ch ev :
  ok p s -> may_register p s c -> s !! c = Some ch -> valid_events ev ->
  exists p' s', updateChannel true p (<[c := Channel.set_events ch ev]> s) c = Ok (p', s') /\
    ok p' s' /\ cmap p' = <[Channel.fd_ ch := c]> (cmap p) /\
    same_but_index (<[c := Channel.set_events ch ev]> s) s' /\
    (Channel.events_ <$> s' !! c = Some ev) /\ (forall c', c' <> c -> s' !! c' = s !! c').
Proof.
  intros Hok (ch0 & Hc0 & Hpos & Hreg) Hc Hev. simpl in Hreg.
  assert (ch0 = ch) as -> by congruence. clear Hc0. unfold valid_events in Hev.
  unfold updateChannel. simpl. rewrite lookup_insert_eq. simpl.
  change (Channel.get_index (Channel.set_events ch ev)) with (Channel.index_ ch).
  change (Channel.fd (Channel.set_events ch ev)) with (Channel.fd_ ch).
  change (Channel.events (Channel.set_events ch ev)) with ev.
  rewrite (swrap_small 16 ev) by (unfold in_int; simpl; lia).
  destruct Hreg as [Hm|[Hm Hi]].
  - destruct (ok_mapped p s Hok _ _ Hm) as (x & pf & Hx & _ & _ & Hi & Hl & He).
    assert (x = ch) as -> by congruence. pose proof (lookup_lt_Some _ _ _ Hl) as Hlen.
    rewrite (proj2 (Z.ltb_ge (Channel.index_ ch) 0)) by lia.
    rewrite !assert_pass by (first [apply bool_decide_eq_true_2; by eauto | unfold zlen; lia]).
    rewrite Hl. simpl. rewrite assert_pass by (destruct He as [[-> _]|(-> & _)]; lia).
    eexists _, _. split; [done|]. split_and!;
      [|by rewrite insert_id|done|by rewrite lookup_insert_eq|by intros; apply lookup_insert_ne].
    apply update_existing; try done. unfold entry_ok, Channel.isNoneEvent, Channel.kNoneEvent. simpl.
    destruct (Z.eqb_spec ev 0) as [->|]; auto.
  - rewrite Hi. simpl. rewrite assert_pass by by apply bool_decide_eq_true_2.
    eexists _, _. split; [done|]. rewrite insert_insert_eq.
    split_and!; [|done| |by rewrite lookup_insert_eq|by intros; apply lookup_insert_ne].
    + apply update_new; try done. left. done.
    + intros c0. destruct (decide (c0 = c)) as [->|]; [by rewrite !lookup_insert_eq|].
      by rewrite !lookup_insert_ne.
Qed.

Lemma poll_remove_law p s c ch :
  ok p s -> s !! c = Some ch -> cmap p !! Channel.fd_ ch = Some c -> Channel.events_ ch = 0 ->
  exists p' s', removeChannel true p s c = Ok (p', s') /\
    ok p' s' /\ cmap p' = delete (Channel.fd_ ch) (cmap p) /\ same_but_index s s' /\ s' !! c = s !! c /\
    (forall c', (forall fd, cmap p !! fd <> Some c') -> s' !! c' = s !! c').
Proof.
  intros Hok Hc Hm Hz. unfold removeChannel. simpl. rewrite Hc. simpl.
  unfold Channel.fd, Channel.get_index.
  destruct (ok_mapped p s Hok _ _ Hm) as (x & pf & Hx & _ & _ & Hi & Hl & He).
  assert (x = ch) as -> by congruence. pose proof (lookup_lt_Some _ _ _ Hl) as Hlen.
  rewrite !assert_pass by (first [by apply Z.eqb_eq | apply bool_decide_eq_true_2; by eauto | unfold zlen; lia]).
  destruct (Z.eqb_spec (Channel.index_ ch) (zlen (pollfds_ p) - 1)) as [E|E].
  - eexists _, _. split; [done|]. split_and!; [by eapply remove_last|done..].
  - destruct (lookup_lt_is_Some_2 (pollfds_ p) (length (pollfds_ p) - 1)) as [back Hback]; [lia|].
    destruct (ok_slot p s Hok _ _ Hback) as (c' & ch' & Hm' & Hc' & Hi').
    assert (Channel.index_ ch' = zlen (pollfds_ p) - 1) as Hi2 by (unfold zlen; lia).
    rewrite Hback, Hl. simpl.
    assert (entry_ok back ch') as Hent by by eapply slot_of.
    destruct (ok_mapped p s Hok _ _ Hm') as (_ & _ & _ & _ & Hpos' & _).
    pose proof (entry_real_fd back ch' Hent Hpos') as Hreal. unfold real_fd in Hreal. rewrite Hreal.
    rewrite lookup_delete_ne.
    + rewrite Hm'. simpl. rewrite Hc'. simpl. eexists _, _. split; [done|].
      split_and!; [|done| | |].
      * eapply remove_middle; eauto. unfold zlen in *. lia.
      * intros c0. destruct (decide (c0 = c')) as [->|]; [by rewrite lookup_insert_eq, Hc'|].
        by rewrite lookup_insert_ne.
      * rewrite lookup_insert_ne; [done|]. intros ->. congruence.
      * intros c0 Hc0. rewrite lookup_insert_ne; [done|]. intros ->. by eapply Hc0.
    + intros Heq. rewrite <- Heq in Hm'. assert (c' = c) as -> by congruence. congruence.
Qed.

Lemma same_events s s' c :
  same_but_index s s' -> Channel.events_ <$> s' !! c = Channel.events_ <$> s !! c.
Proof.
  intros Hs. specialize (Hs c). destruct (s !! c) as [ch|], (s' !! c) as [ch'|]; simpl in *; try done.
  injection Hs. intros. by f_equal.
Qed.

#[global] Instance poll_laws : PollerLaws.
Proof.
  constructor; simpl.
  - intros s Hs. split_and!; [|done|done]. constructor; simpl; [intros fd c; by rewrite lookup_empty|done].
  - intros p s c ch [] Hc Hi. constructor.
    + intros fd c0 Hm. destruct (ok_mapped0 fd c0 Hm) as (ch0 & pf & Hs0 & ?). exists ch0, pf.
      by rewrite lookup_insert_ne by congruence.
    + intros j pf Hl. destruct (ok_slot0 j pf Hl) as (c0 & ch0 & Hm0 & Hs0 & ?). exists c0, ch0.
      by rewrite lookup_insert_ne by congruence.
  - intros p s c ch ch' [Hmap Hslot] Hc Hf He Hi. constructor.
    + intros fd c0 Hm. destruct (Hmap fd c0 Hm) as (ch0 & pf & Hs0 & Hrest).
      destruct (decide (c0 = c)) as [->|Hne]; [|exists ch0, pf; by rewrite lookup_insert_ne].
      assert (ch0 = ch) as -> by congruence. exists ch', pf. unfold entry_ok.
      rewrite lookup_insert_eq, Hf, He, Hi. done.
    + intros j pf Hl. destruct (Hslot j pf Hl) as (c0 & ch0 & Hm0 & Hs0 & Hj).
      destruct (decide (c0 = c)) as [->|Hne]; [|exists c0, ch0; by rewrite lookup_insert_ne].
      assert (ch0 = ch) as -> by congruence. exists c, ch'. by rewrite lookup_insert_eq, Hf, Hi.
  - intros p s c ch [Hmap Hslot] Hc Hm. constructor.
    + intros fd c0 Hm0. destruct (Hmap fd c0 Hm0) as (ch0 & pf & Hs0 & Hf0 & Hrest). exists ch0, pf.
      rewrite lookup_delete_ne; [done|]. intros ->. congruence.
    + intros j pf Hl. destruct (Hslot j pf Hl) as (c0 & ch0 & Hm0 & Hs0 & Hj). exists c0, ch0.
      rewrite lookup_delete_ne; [done|]. intros ->. congruence.
  - intros p s c ch ev Hok Hreg Hc Hev.
    destruct (poll_update_law p s c ch ev) as (p' & s' & Hup & Hok' & Hm & Hsame & Hat & Hframe); [done..|].
    exists p', s'. split_and!; try done. intros fd. case_decide as E.
    + subst fd. assert (cmap p' !! Channel.fd_ ch = Some c) as Hm' by by rewrite Hm, lookup_insert_eq.
      destruct (ok_mapped p' s' Hok' _ _ Hm') as (ch' & _ & Hc' & _).
      rewrite (watched_mapped p' s' _ c ch') by done. rewrite Hc' in Hat. simpl in Hat. congruence.
    + apply (watched_agree p s p' s'); try done; [by rewrite Hm, lookup_insert_ne|].
      intros c0 Hm0. rewrite (same_events _ _ c0 Hsame).
      rewrite lookup_insert_ne; [done|]. intros ->.
      destruct (ok_mapped p s Hok _ _ Hm0) as (x & _ & Hx & Hf & _). congruence.
  - intros p s c ch Hok Hc Hm Hz.
    destruct (poll_remove_law p s c ch) as (p' & s' & Hrm & Hok' & Hm' & Hsame & _ & Hframe); [done..|].
    exists p', s'. split_and!; try done. intros fd. case_decide as E.
    + apply (watched_unmapped p' s'); [done|]. by rewrite Hm', E, lookup_delete_eq.
    + apply (watched_agree p s p' s'); try done; [by rewrite Hm', lookup_delete_ne|].
      intros c0 _. by apply same_events.
Qed.
End PollPoller.

(** ** The operations of [Channel] on its loop's poller *)
Module ChannelOps.
Section client.
Context {P : Poller}.

Definition update (inLoop : bool) (p : pstate) (s : store) (c : Z) : outcome (pstate * store) :=
  ch ← deref (s !! c) ;
  updateChannel inLoop p (<[c := Channel.set_added ch true]> s) c.

Definition modify (f : Z -> Z) (inLoop : bool) (p : pstate) (s : store) (c : Z)
  : outcome (pstate * store) :=
  ch ← deref (s !! c) ;
  update inLoop p (<[c := Channel.set_events ch (f (Channel.events_ ch))]> s) c.

Definition enableReading := modify Channel.enableReading_ev.
Definition disableReading := modify Channel.disableReading_ev.
Definition enableWriting := modify Channel.enableWriting_ev.
Definition disableWriting := modify Channel.disableWriting_ev.
Definition disableAll := modify Channel.disableAll_ev.

(** Outside the dispatch of events [EventLoop::removeChannel] adds nothing. *)
Definition removeSelfFromLoop (inLoop : bool) (p : pstate) (s : store) (c : Z)
  : outcome (pstate * store) :=
  ch ← deref (s !! c) ;
  _ ← assert_ (Channel.isNoneEvent ch) ;
  removeChannel inLoop p (<[c := Channel.set_added ch false]> s) c.

(** [~Channel] *)
Definition destroy (inLoop : bool) (p : pstate) (s : store) (c : Z) : outcome unit :=
  ch ← deref (s !! c) ;
  _ ← assert_ (negb (Channel.eventHandling_ ch)) ;
  _ ← assert_ (negb (Channel.addedToLoop_ ch)) ;
  if inLoop then known ← hasChannel inLoop p s c ; assert_ (negb known) else mret tt.

Inductive cmd :=
  | Create (c fd : Z)
  | EnableReading (c : Z) | DisableReading (c : Z)
  | EnableWriting (c : Z) | DisableWriting (c : Z)
  | DisableAll (c : Z)
  | Remove (c : Z).

Definition exec (p : pstate) (s : store) (x : cmd) : outcome (pstate * store) :=
  match x with
  | Create c fd => mret (p, <[c := Channel.new 0 fd]> s)
  | EnableReading c => enableReading true p s c
  | DisableReading c => disableReading true p s c
  | EnableWriting c => enableWriting true p s c
  | DisableWriting c => disableWriting true p s c
  | DisableAll c => disableAll true p s c
  | Remove c => removeSelfFromLoop true p s c
  end.

Fixpoint run (p : pstate) (s : store) (xs : list cmd) : outcome (pstate * store) :=
  match xs with
  | [] => mret (p, s)
  | x :: rest => r ← exec p s x ; run r.1 r.2 rest
  end.
End client.

(** ** The specification: channels with a descriptor, an interest and a status *)
Inductive status := Never | Registered | Removed.
#[global] Instance status_eq_dec : EqDecision status.
Proof. solve_decision. Defined.

Record cell := mk_cell { a_fd : Z; a_ev : Z; a_st : status }.

Definition free_fd (a : gmap Z cell) (fd : Z) : bool :=
  bool_decide (map_Forall (fun _ x => ~ (a_fd x = fd /\ a_st x = Registered)) a).

Definition aupdate (f : Z -> Z) (a : gmap Z cell) (c : Z) : option (gmap Z cell) :=
  match a !! c with
  | Some x =>
      match a_st x with
      | Registered => Some (<[c := mk_cell (a_fd x) (f (a_ev x)) Registered]> a)
      | Never => if free_fd a (a_fd x) then Some (<[c := mk_cell (a_fd x) (f (a_ev x)) Registered]> a)
                 else None
      | Removed => None
      end
  | None => None
  end.

Definition astep (a : gmap Z cell) (x : cmd) : option (gmap Z cell) :=
  match x with
  | Create c fd =>
      match a !! c with
      | None => if 0 <=? fd then Some (<[c := mk_cell fd 0 Never]> a) else None
      | Some _ => None
      end
  | EnableReading c => aupdate Channel.enableReading_ev a c
  | DisableReading c => aupdate Channel.disableReading_ev a c
  | EnableWriting c => aupdate Channel.enableWriting_ev a c
  | DisableWriting c => aupdate Channel.disableWriting_ev a c
  | DisableAll c => aupdate Channel.disableAll_ev a c
  | Remove c =>
      match a !! c with
      | Some x =>
          match a_st x with
          | Registered => if a_ev x =? 0 then Some (<[c := mk_cell (a_fd x) 0 Removed]> a) else None
          | _ => None
          end
      | None => None
      end
  end.

Fixpoint arun (a : gmap Z cell) (xs : list cmd) : option (gmap Z cell) :=
  match xs with
  | [] => Some a
  | x :: rest => match astep a x with Some a' => arun a' rest | None => None end
  end.

(** The events to watch on a descriptor, by the specification. *)
Definition aevents (a : gmap Z cell) (oc : option Z) : Z :=
  match oc with Some c => match a !! c with Some x => a_ev x | None => 0 end | None => 0 end.

Section refinement.
(** [h] says which channels are handling events. *)
Context {P : Poller} {L : PollerLaws} {h : Z -> bool}.

Record rel_at (p : pstate) (s : store) (a : gmap Z cell) : Prop := {
  r_ok : poller_ok p s;
  r_cell c x : a !! c = Some x -> exists ch, s !! c = Some ch /\ Channel.fd_ ch = a_fd x /\
    Channel.events_ ch = a_ev x /\ 0 <= a_fd x /\ 0 <= a_ev x < 8 /\
    (a_st x = Never -> Channel.index_ ch = -1) /\
    (channelMap_ p !! a_fd x = Some c <-> a_st x = Registered);
  r_dom c : a !! c = None -> s !! c = None;
  r_map fd c : channelMap_ p !! fd = Some c -> exists x, a !! c = Some x /\ a_fd x = fd;
  r_watch fd : watched p fd = aevents a (channelMap_ p !! fd);
  r_added c x ch : a !! c = Some x -> s !! c = Some ch ->
    Channel.addedToLoop_ ch = bool_decide (a_st x = Registered) /\ Channel.eventHandling_ ch = h c;
}.

(** The interest changes stay within the three bits in use. *)
Definition small_change (f : Z -> Z) : Prop := forall ev, 0 <= ev < 8 -> 0 <= f ev < 8.

Lemma small_cases (f : Z -> Z) :
  forallb (fun n => (0 <=? f (Z.of_nat n)) && (f (Z.of_nat n) <? 8)) (List.seq 0 8) = true -> small_change f.
Proof.
  intros Hall ev Hev. rewrite List.forallb_forall in Hall.
  specialize (Hall (Z.to_nat ev)). rewrite Z2Nat.id in Hall by lia.
  assert (List.In (Z.to_nat ev) (List.seq 0 8)) as Hin by (apply List.in_seq; lia).
  specialize (Hall Hin). lia.
Qed.

Lemma changes_small :
  small_change Channel.enableReading_ev /\ small_change Channel.disableReading_ev /\
  small_change Channel.enableWriting_ev /\ small_change Channel.disableWriting_ev /\
  small_change Channel.disableAll_ev.
Proof. split_and!; by apply small_cases. Qed.

(** What an allowed change says of the poller: the channel is registered for its
    descriptor, or it is new and the descriptor is free. *)
Lemma aupdate_inv f p s a c a' :
  rel_at p s a -> aupdate f a c = Some a' ->
  exists x ch, a !! c = Some x /\ s !! c = Some ch /\
    a' = <[c := mk_cell (a_fd x) (f (a_ev x)) Registered]> a /\
    (channelMap_ p !! a_fd x = Some c \/ (channelMap_ p !! a_fd x = None /\ Channel.index_ ch = -1)).
Proof.
  intros HR Ha. unfold aupdate in Ha. destruct (a !! c) as [x|] eqn:Hx; [|done].
  destruct (r_cell p s a HR c x Hx) as (ch & Hc & Hfd & Hev & Hpos & Hr & Hnever & Hmap).
  exists x, ch. split; [done|]. split; [done|].
  destruct (a_st x) eqn:Hst; [|simplify_eq; split; [done|left; tauto]|done].
  destruct (free_fd a (a_fd x)) eqn:Hfree; simplify_eq. split; [done|]. right. split; [|auto].
  apply bool_decide_eq_true_1 in Hfree. destruct (channelMap_ p !! a_fd x) as [c'|] eqn:Hm; [|done].
  destruct (r_map p s a HR _ _ Hm) as (x' & Hx' & Hfd').
  destruct (Hfree c' x' Hx'). split; [done|].
  destruct (r_cell p s a HR c' x' Hx') as (ch' & _ & _ & _ & _ & _ & _ & Hmap').
  apply Hmap'. by rewrite Hfd'.
Qed.

(** Other descriptors belong to other channels, and keep what is watched on them. *)
Lemma other_channel p s a c x fd c0 :
  rel_at p s a -> a !! c = Some x -> channelMap_ p !! fd = Some c0 -> a_fd x <> fd -> c <> c0.
Proof. intros HR Hx Hm Hne <-. destruct (r_map p s a HR _ _ Hm) as (y & Hy & Hfy). congruence. Qed.

Lemma aevents_other p s a c x y fd :
  rel_at p s a -> a !! c = Some x -> a_fd x <> fd ->
  aevents (<[c := y]> a) (channelMap_ p !! fd) = aevents a (channelMap_ p !! fd).
Proof.
  intros HR Hx Hne. unfold aevents. destruct (channelMap_ p !! fd) as [c0|] eqn:Hm; [|done].
  by rewrite lookup_insert_ne by by eapply other_channel.
Qed.

(** What the operations on a registration leave alone: a channel's events, its index
    and its registration apart. *)
Definition outline (ch : Channel.t) : Channel.t :=
  Channel.set_fields ch 0 (Channel.revents_ ch) 0 false.

Lemma outline_index s s' c : same_but_index s s' -> outline <$> s' !! c = outline <$> s !! c.
Proof.
  intros Hs. specialize (Hs c). destruct (s !! c) as [ch|], (s' !! c) as [ch'|]; simpl in *; try done.
  f_equal. assert (Channel.set_index ch 0 = Channel.set_index ch' 0) as E by congruence.
  apply (f_equal outline) in E. by destruct ch, ch'.
Qed.

Lemma outline_insert (s : store) c ch ch' c' :
  s !! c = Some ch -> outline ch' = outline ch -> outline <$> <[c := ch']> s !! c' = outline <$> s !! c'.
Proof.
  intros Hc Ho. destruct (decide (c' = c)) as [->|]; [|by rewrite lookup_insert_ne].
  rewrite lookup_insert_eq, Hc. simpl. by rewrite Ho.
Qed.

Lemma modify_refines f p s a c a' :
  small_change f -> rel_at p s a -> aupdate f a c = Some a' ->
  exists p' s', modify f true p s c = Ok (p', s') /\ rel_at p' s' a' /\
    (forall c', outline <$> s' !! c' = outline <$> s !! c').
Proof.
  intros Hf HR Ha.
  destruct (aupdate_inv f p s a c a' HR Ha) as (x & ch & Hx & Hc & -> & Hreg).
  destruct (r_cell p s a HR c x Hx) as (ch1 & Hc1 & Hfd & Hev & Hpos & Hr & _ & _).
  assert (ch1 = ch) as -> by congruence.
  set (s0 := <[c := Channel.set_added ch true]> s).
  assert (s0 !! c = Some (Channel.set_added ch true)) as Hs0 by apply lookup_insert_eq.
  assert (poller_ok p s0) as Hok0 by (eapply poller_ok_other; [apply HR|done..]).
  destruct (updateChannel_law p s0 c (Channel.set_added ch true) (f (a_ev x))) as
    (p' & s' & Hup & Hok' & Hm' & Hw' & Hsame & Hframe); [done| |done| |].
  { exists (Channel.set_added ch true). split; [done|]. simpl. rewrite Hfd. auto. }
  { specialize (Hf _ Hr). unfold valid_events. lia. }
  exists p', s'. simpl in Hm', Hw'. rewrite Hfd in Hm', Hw'. split.
  { unfold modify, update. rewrite Hc. simpl. rewrite lookup_insert_eq. simpl.
    rewrite insert_insert_eq. unfold s0 in Hup. rewrite insert_insert_eq, <- Hev in Hup. exact Hup. }
  split; [|intros c'; rewrite (outline_index _ _ c' Hsame); unfold s0; rewrite insert_insert_eq;
           by apply (outline_insert s c ch)].
  constructor.
  - done.
  - intros c0 x0. rewrite lookup_insert_Some. intros [[<- <-]|[Hne Hx0]].
    + specialize (Hsame c). rewrite lookup_insert_eq in Hsame.
      destruct (s' !! c) as [ch'|]; [|done]. injection Hsame. intros. exists ch'. simpl.
      rewrite Hm', lookup_insert_eq. split_and!; (done || congruence || idtac); try apply Hf; lia.
    + destruct (r_cell p s a HR c0 x0 Hx0) as (ch0 & Hc0 & ? & ? & ? & ? & ? & Hiff). exists ch0.
      rewrite Hframe by done. unfold s0. rewrite lookup_insert_ne by done. do 6 (split; [done|]).
      rewrite Hm'. destruct (decide (a_fd x0 = a_fd x)) as [E|E].
      * rewrite E, lookup_insert_eq. split; [congruence|]. intros Hreg0. apply Hiff in Hreg0.
        rewrite E in Hreg0. destruct Hreg as [Hreg|[Hreg _]]; congruence.
      * by rewrite lookup_insert_ne.
  - intros c0 [Hn Hne]%lookup_insert_None. rewrite Hframe by done. unfold s0.
    rewrite lookup_insert_ne by done. by apply (r_dom p s a HR).
  - intros fd c0. rewrite Hm', lookup_insert_Some. intros [[<- <-]|[Hne Hm0]].
    + rewrite lookup_insert_eq. eauto.
    + rewrite lookup_insert_ne by by eapply other_channel. by apply (r_map p s a HR).
  - intros fd. rewrite Hw', Hm'. case_decide as E.
    + rewrite E, lookup_insert_eq. simpl. by rewrite lookup_insert_eq.
    + rewrite lookup_insert_ne, (r_watch p s a HR) by done. symmetry. by eapply aevents_other.
  - intros c0 x0 ch0. rewrite lookup_insert_Some. intros [[<- <-]|[Hne Hx0]] Hc0.
    + specialize (Hsame c). rewrite lookup_insert_eq, Hc0 in Hsame. injection Hsame. intros.
      destruct (r_added p s a HR c x ch Hx Hc). split; [done|congruence].
    + rewrite Hframe in Hc0 by done. unfold s0 in Hc0. rewrite lookup_insert_ne in Hc0 by done.
      by apply (r_added p s a HR c0).
Qed.

Lemma remove_refines p s a c x :
  rel_at p s a -> a !! c = Some x -> a_st x = Registered -> a_ev x = 0 ->
  exists p' s', removeSelfFromLoop true p s c = Ok (p', s') /\
    rel_at p' s' (<[c := mk_cell (a_fd x) 0 Removed]> a) /\
    (forall c', outline <$> s' !! c' = outline <$> s !! c').
Proof.
  intros HR Hx Hst Hz.
  destruct (r_cell p s a HR c x Hx) as (ch & Hc & Hfd & Hev & Hpos & Hr & Hnever & Hmap).
  apply Hmap in Hst. set (s0 := <[c := Channel.set_added ch false]> s).
  assert (s0 !! c = Some (Channel.set_added ch false)) as Hs0 by apply lookup_insert_eq.
  assert (poller_ok p s0) as Hok0 by (eapply poller_ok_other; [apply HR|done..]).
  destruct (removeChannel_law p s0 c (Channel.set_added ch false)) as
    (p' & s' & Hrm & Hok' & Hm' & Hw' & Hsame & Hframe); [done|done|simpl; congruence|simpl; congruence|].
  simpl in Hm', Hw'. rewrite Hfd in Hm', Hw'. exists p', s'. split.
  { unfold removeSelfFromLoop. rewrite Hc. simpl. rewrite assert_pass; [done|]. apply Z.eqb_eq.
    unfold Channel.kNoneEvent. congruence. }
  split; [|intros c'; rewrite (outline_index _ _ c' Hsame); by apply (outline_insert s c ch)].
  constructor.
  - done.
  - intros c0 x0. rewrite lookup_insert_Some. intros [[<- <-]|[Hne Hx0]].
    + specialize (Hsame c). rewrite Hs0 in Hsame.
      destruct (s' !! c) as [ch'|]; [|done]. injection Hsame. intros. exists ch'. simpl.
      rewrite Hm', lookup_delete_eq. split_and!; (done || congruence || lia).
    + destruct (r_cell p s a HR c0 x0 Hx0) as (ch0 & Hc0 & ? & ? & ? & ? & Hnev0 & Hiff).
      pose proof (Hsame c0) as Hs'. unfold s0 in Hs'. rewrite lookup_insert_ne, Hc0 in Hs' by done.
      destruct (s' !! c0) as [ch0'|] eqn:Hc0'; [|done]. injection Hs'. intros. exists ch0'.
      split; [done|]. split; [congruence|]. split; [congruence|]. split; [done|]. split; [done|]. split.
      * intros Hn. assert (s' !! c0 = s0 !! c0) as E.
        { apply Hframe. intros fd Hm0. destruct (r_map p s a HR _ _ Hm0) as (y & Hy & Hfy).
          assert (y = x0) as -> by congruence. rewrite <- Hfy in Hm0. apply Hiff in Hm0. congruence. }
        unfold s0 in E. rewrite Hc0', lookup_insert_ne, Hc0 in E by done. simplify_eq. auto.
      * rewrite Hm'. destruct (decide (a_fd x0 = a_fd x)) as [E|E].
        -- rewrite E, lookup_delete_eq. split; [done|]. intros Hreg0. apply Hiff in Hreg0.
           rewrite E in Hreg0. congruence.
        -- by rewrite lookup_delete_ne.
  - intros c0 [Hn Hne]%lookup_insert_None. specialize (Hsame c0). unfold s0 in Hsame.
    rewrite lookup_insert_ne, (r_dom p s a HR c0 Hn) in Hsame by done. by destruct (s' !! c0).
  - intros fd c0. rewrite Hm'. intros [Hne Hm0]%lookup_delete_Some.
    rewrite lookup_insert_ne by by eapply other_channel. by apply (r_map p s a HR).
  - intros fd. rewrite Hw', Hm'. case_decide as E; [by rewrite E, lookup_delete_eq|].
    rewrite lookup_delete_ne, (r_watch p s a HR) by done. symmetry. by eapply aevents_other.
  - intros c0 x0 ch0 Hx0 Hc0. pose proof (Hsame c0) as Hs'. rewrite Hc0 in Hs'. unfold s0 in Hs'.
    apply lookup_insert_Some in Hx0 as [[<- <-]|[Hne Hx0]].
    + rewrite lookup_insert_eq in Hs'. injection Hs'. intros.
      destruct (r_added p s a HR c x ch Hx Hc). split; [done|congruence].
    + rewrite lookup_insert_ne in Hs' by done. destruct (s !! c0) as [ch1|] eqn:Hc1; [|done].
      destruct (r_added p s a HR c0 x0 ch1 Hx0 Hc1). injection Hs'. intros. split; congruence.
Qed.

Lemma create_refines p s a c fd :
  rel_at p s a -> a !! c = None -> 0 <= fd -> h c = false ->
  rel_at p (<[c := Channel.new 0 fd]> s) (<[c := mk_cell fd 0 Never]> a).
Proof.
  intros HR Hn Hfd Hh. pose proof (r_dom p s a HR c Hn) as Hc.
  assert (forall fd0, channelMap_ p !! fd0 <> Some c) as Hun.
  { intros fd0 Hm. destruct (r_map p s a HR _ _ Hm) as (x & Hx & _). congruence. }
  constructor.
  - apply poller_ok_new_channel; [apply HR|done|done].
  - intros c0 x0. rewrite lookup_insert_Some. intros [[<- <-]|[Hne Hx0]].
    + exists (Channel.new 0 fd). rewrite lookup_insert_eq. simpl.
      split_and!; try done; try lia. split; [intros Hm; by apply Hun in Hm|done].
    + rewrite lookup_insert_ne by done. by apply (r_cell p s a HR).
  - intros c0 [Hn0 Hne]%lookup_insert_None. rewrite lookup_insert_ne by done. by apply (r_dom p s a HR).
  - intros fd0 c0 Hm. destruct (decide (c0 = c)) as [->|]; [by apply Hun in Hm|].
    rewrite lookup_insert_ne by done. by apply (r_map p s a HR).
  - intros fd0. rewrite (r_watch p s a HR). unfold aevents.
    destruct (channelMap_ p !! fd0) as [c0|] eqn:Hm; [|done].
    destruct (decide (c0 = c)) as [->|]; [by apply Hun in Hm|]. by rewrite lookup_insert_ne.
  - intros c0 x0 ch0. rewrite lookup_insert_Some. intros [[<- <-]|[Hne Hx0]].
    + rewrite lookup_insert_eq, Hh. by intros [= <-].
    + rewrite lookup_insert_ne by done. by apply (r_added p s a HR).
Qed.

Lemma exec_refines p s a x a' :
  rel_at p s a -> astep a x = Some a' -> match x with Create c _ => h c = false | _ => True end ->
  exists p' s', exec p s x = Ok (p', s') /\ rel_at p' s' a' /\
    (forall c', (forall fd, x <> Create c' fd) -> outline <$> s' !! c' = outline <$> s !! c').
Proof.
  intros HR Ha Hh. pose proof changes_small as (? & ? & ? & ? & ?).
  assert (forall f c, small_change f -> aupdate f a c = Some a' -> exists p' s', modify f true p s c = Ok (p', s') /\
    rel_at p' s' a' /\ (forall c', (forall fd, x <> Create c' fd) -> outline <$> s' !! c' = outline <$> s !! c')) as Hmod.
  { intros f c Hf Hu. destruct (modify_refines f p s a c a' Hf HR Hu) as (p' & s' & ? & ? & ?). eauto 10. }
  destruct x as [c fd|c|c|c|c|c|c]; simpl in *; try (by apply Hmod).
  - destruct (a !! c) eqn:Hn; [done|]. destruct (Z.leb_spec 0 fd); [|done]. simplify_eq.
    eexists _, _. split; [done|]. split; [by apply create_refines|]. intros c' Hne.
    rewrite lookup_insert_ne; [done|]. intros ->. by eapply Hne.
  - destruct (a !! c) as [x|] eqn:Hx; [|done]. destruct (a_st x) eqn:Hst; try done.
    destruct (Z.eqb_spec (a_ev x) 0); [|done]. simplify_eq.
    destruct (remove_refines p s a c x) as (p' & s' & ? & ? & ?); eauto 10.
Qed.

Lemma run_refines p s a xs a' :
  (forall c, h c = false) -> rel_at p s a -> arun a xs = Some a' -> exists p' s', run p s xs = Ok (p', s') /\ rel_at p' s' a'.
Proof.
  intros Hh. revert p s a. induction xs as [|x xs IH]; intros p s a HR Ha; simpl in *; [simplify_eq; eauto|].
  destruct (astep a x) as [a1|] eqn:E; [|done].
  destruct (exec_refines p s a x a1 HR E) as (p1 & s1 & -> & HR1 & _); [by destruct x|]. simpl. by eapply IH.
Qed.

Lemma rel_new : rel_at pnew ∅ ∅.
Proof.
  destruct (pnew_ok ∅) as (Hok & Hm & Hw); [intros c ch; by rewrite lookup_empty|].
  constructor; [done| | | | |].
  - intros c x. by rewrite lookup_empty.
  - intros c _. apply lookup_empty.
  - intros fd c. by rewrite Hm, lookup_empty.
  - intros fd. by rewrite Hw, Hm, lookup_empty.
  - intros c x ch. by rewrite lookup_empty.
Qed.

(** A channel that is not registered can be destroyed. *)
Lemma destroy_refines p s a c x :
  rel_at p s a -> a !! c = Some x -> a_st x <> Registered -> h c = false -> destroy true p s c = Ok tt.
Proof.
  intros HR Hx Hst Hh. destruct (r_cell p s a HR c x Hx) as (ch & Hc & Hfd & _ & _ & _ & _ & Hmap).
  destruct (r_added p s a HR c x ch Hx Hc) as [Ha He].
  unfold destroy, hasChannel, Channel.fd. rewrite Hc. simpl. rewrite He, Hh, Ha, bool_decide_false by done. simpl.
  rewrite Hfd. destruct (channelMap_ p !! a_fd x) as [c'|] eqn:Hm; simpl; [|done].
  destruct (Z.eqb_spec c' c) as [->|]; [|done]. by destruct Hst; apply Hmap.
Qed.

Lemma rel_map p s a fd c :
  rel_at p s a -> channelMap_ p !! fd = Some c <-> exists ev, a !! c = Some (mk_cell fd ev Registered).
Proof.
  intros HR. split.
  - intros Hm. destruct (r_map p s a HR _ _ Hm) as ([fd0 ev st] & Hx & Hfd). simpl in Hfd. subst fd0.
    destruct (r_cell p s a HR _ _ Hx) as (ch & _ & _ & _ & _ & _ & _ & Hiff). simpl in *.
    apply Hiff in Hm as ->. eauto.
  - intros (ev & Hx). destruct (r_cell p s a HR _ _ Hx) as (ch & _ & _ & _ & _ & _ & _ & Hiff).
    by apply Hiff.
Qed.

End refinement.
Abbreviation rel := (rel_at (h := fun _ => false)).

Section spec.
Context {P : Poller} {L : PollerLaws}.

(** C9. Any poller that keeps the interface's laws implements the
    specification: every legal sequence of channel operations runs without a
    failed assertion, the poller then knows exactly the registered channels, and
    the kernel watches for each descriptor exactly the events its channel asks
    for. *)
Theorem poller_refines_spec xs a :
  arun ∅ xs = Some a ->
  exists p s, run pnew ∅ xs = Ok (p, s) /\
    (forall fd c, channelMap_ p !! fd = Some c <-> exists ev, a !! c = Some (mk_cell fd ev Registered)) /\
    (forall fd c ev, a !! c = Some (mk_cell fd ev Registered) -> watched p fd = ev) /\
    (forall fd, (forall c ev, a !! c <> Some (mk_cell fd ev Registered)) -> watched p fd = 0).
Proof.
  intros Ha. destruct (run_refines (h := fun _ => false) pnew ∅ ∅ xs a (fun _ => eq_refl) rel_new Ha) as (p & s & Hrun & HR).
  exists p, s. split; [done|]. split; [intros; by eapply rel_map|]. split.
  - intros fd c ev Hx. assert (channelMap_ p !! fd = Some c) as Hm by (eapply rel_map; eauto).
    rewrite (r_watch p s a HR), Hm. simpl. by rewrite Hx.
  - intros fd Hnone. rewrite (r_watch p s a HR). destruct (channelMap_ p !! fd) as [c|] eqn:Hm; [|done].
    apply (rel_map p s a fd c HR) in Hm as (ev & Hx). by apply Hnone in Hx.
Qed.
End spec.

(** Two pollers that stand for the same registrations know and watch the same. *)
Lemma rel_pollers {P1 P2 : Poller} {h : Z -> bool} (p1 : pstate (Poller := P1)) s1 (p2 : pstate (Poller := P2)) s2 a :
  rel_at (h := h) p1 s1 a -> rel_at (h := h) p2 s2 a ->
  (forall fd, channelMap_ p1 !! fd = channelMap_ p2 !! fd) /\ (forall fd, watched p1 fd = watched p2 fd).
Proof.
  intros HR1 HR2. assert (forall fd, channelMap_ p1 !! fd = channelMap_ p2 !! fd) as Hm.
  { intros fd. apply option_eq. intros c. by rewrite (rel_map p1 s1 a fd c HR1), (rel_map p2 s2 a fd c HR2). }
  split; [done|]. intros fd. by rewrite (r_watch p1 s1 a HR1 fd), (r_watch p2 s2 a HR2 fd), Hm.
Qed.

Import MapKernel.

Definition demo_cmds : list cmd :=
  [Create 100 7; EnableReading 100; Create 101 8; EnableReading 101; EnableWriting 101;
   DisableAll 100; Remove 100].

Lemma poller_refines_spec_witness :
  exists p s, run (P := EpollPoller.epoll_poller) pnew ∅ demo_cmds = Ok (p, s) /\
    (watched p 8 = 7 /\ watched p 7 = 0).
Proof.
  destruct (poller_refines_spec (P := EpollPoller.epoll_poller) demo_cmds
    {[ 100 := mk_cell 7 0 Removed; 101 := mk_cell 8 7 Registered ]}) as (p & s & Hrun & _ & Hreg & Hnone).
  - by vm_compute.
  - exists p, s. split; [exact Hrun|]. split.
    + apply (Hreg 8 101). by vm_compute.
    + apply (Hnone 7). intros c ev Hin. by apply lookup_insert_Some in Hin as
        [[_ [=]]|[_ [_ [=]]%lookup_singleton_Some]].
Defined.



(** A channel taken out of the loop can be registered again with
    [EpollPoller], which resets its index; with [PollPoller], which does not, the
    next [updateChannel] of that channel stops at an assertion. *)
Theorem reregister_after_remove `{EpollLaws} :
  (forall p s c ch, EpollPoller.ok p s -> s !! c = Some ch -> 0 <= Channel.fd_ ch ->
     EpollPoller.cmap p !! Channel.fd_ ch = Some c -> Channel.events_ ch = 0 ->
     exists p' s', EpollPoller.removeChannel true p s c = Ok (p', s') /\
       succeeds (modify (P := EpollPoller.epoll_poller) Channel.enableReading_ev true p' s' c)) /\
  (forall p s c ch, PollPoller.ok p s -> s !! c = Some ch ->
     PollPoller.cmap p !! Channel.fd_ ch = Some c -> Channel.events_ ch = 0 ->
     exists p' s', PollPoller.removeChannel true p s c = Ok (p', s') /\
       modify (P := PollPoller.poll_poller) Channel.enableReading_ev true p' s' c = Fault AssertFailed).
Proof.
  split; intros p s c ch Hok Hc.
  - intros Hpos Hm Hz.
    destruct (EpollPoller.epoll_remove_law p s c ch) as (p' & s' & Hrm & Hok' & Hm' & _ & Hsame & Hnew & _); [done..|].
    exists p', s'. split; [done|]. specialize (Hsame c). rewrite Hc in Hsame.
    destruct (s' !! c) as [ch'|] eqn:Hc'; [|done]. injection Hsame. intros.
    unfold modify, update. rewrite Hc'. simpl. rewrite lookup_insert_eq. simpl. rewrite insert_insert_eq.
    edestruct (EpollPoller.epoll_update_law p' (<[c := Channel.set_added ch' true]> s') c (Channel.set_added ch' true)
      (Channel.enableReading_ev (Channel.events_ ch'))) as (p2 & s2 & Hup & _).
    + eapply (poller_ok_other (H := EpollPoller.epoll_poller)); eauto.
    + exists (Channel.set_added ch' true). rewrite lookup_insert_eq. split; [done|]. simpl.
      split; [congruence|]. right. split; [|by apply Hnew]. rewrite Hm'.
      replace (Channel.fd_ ch') with (Channel.fd_ ch) by done. apply lookup_delete_eq.
    + apply lookup_insert_eq.
    + replace (Channel.events_ ch') with 0 by congruence. by vm_compute.
    + rewrite insert_insert_eq in Hup. eexists. exact Hup.
  - intros Hm Hz.
    destruct (PollPoller.poll_remove_law p s c ch) as (p' & s' & Hrm & Hok' & Hm' & _ & Hsame & _); [done..|].
    exists p', s'. split; [done|].
    destruct (PollPoller.ok_mapped p s Hok _ _ Hm) as (x & pf & Hx & _ & _ & Hi & _).
    assert (x = ch) as -> by congruence.
    unfold modify, update. rewrite Hsame, Hc. simpl. rewrite lookup_insert_eq. simpl.
    unfold PollPoller.updateChannel. rewrite lookup_insert_eq. simpl.
    unfold Channel.get_index. simpl. rewrite (proj2 (Z.ltb_ge _ _)) by done.
    rewrite assert_stop; [done|]. apply bool_decide_eq_false_2. unfold Channel.fd. simpl.
    rewrite Hm', lookup_delete_eq. by intros [? ?].
Qed.

Lemma reregister_after_remove_witness :
  exists p s, run (P := PollPoller.poll_poller) pnew ∅
      [Create 100 7; EnableReading 100; DisableAll 100] = Ok (p, s) /\
    exists p' s', PollPoller.removeChannel true p s 100 = Ok (p', s') /\
      modify (P := PollPoller.poll_poller) Channel.enableReading_ev true p' s' 100 = Fault AssertFailed.
Proof.
  destruct (run_refines (P := PollPoller.poll_poller) (h := fun _ => false) pnew ∅ ∅
    [Create 100 7; EnableReading 100; DisableAll 100] {[ 100 := mk_cell 7 0 Registered ]})
    as (p & s & Hrun & HR); [done|apply rel_new|by vm_compute|].
  exists p, s. split; [exact Hrun|].
  destruct (r_cell p s _ HR 100 (mk_cell 7 0 Registered)) as (ch & Hc & Hfd & Hev & _ & _ & _ & Hm);
    [by vm_compute|].
  destruct reregister_after_remove as [_ Hpoll].
  apply (Hpoll p s 100 ch); [apply HR|exact Hc| |exact Hev].
  rewrite Hfd. by apply Hm.
Defined.
End ChannelOps.
