(* ===== verification/Loop.v ===== *)
(** The event loop (src/libel/net/eventloop.h, eventloop.cpp): one thread polls,
    dispatches and runs queued functors while other threads queue functors and
    wake it up. *)

From S2P Require Import Prelude NumText TimeText Timers Polling.

Module EventLoop.

(** A functor is a name; what its body does when it runs is a parameter of the
    loop. *)
Abbreviation functor := Z (only parsing).

Definition kPollTimeMs : Z := 10000.

(** Where the loop's thread is:
    before [loop()], at the test of [while (!quit_)], inside [poll], dispatching
    (with the channels still to be handled), at the start of
    [doPendingFunctors], in its loop over the functors taken, after [loop()]. *)
Inductive phase :=
  | BeforeLoop
  | Testing
  | Polling
  | Dispatching (active : list Z)
  | Swapping
  | Calling (functors : list functor)
  | Returned.

(** [wakeups] is the counter of the eventfd.  The last four fields are history:
    every functor ever queued, every functor ever called, the threads that have
    pushed a functor and not yet written to the eventfd, and the functors that the
    loop's own thread queued before it called [loop()]. *)
Record t := mk {
  looping_ : bool;
  quit_ : bool;
  eventHandling_ : bool;
  callingPendingFunctors_ : bool;
  iteration_ : Z;
  pendingFunctors_ : list functor;
  wakeups : Z;
  pc : phase;
  queued : list functor;
  called : list functor;
  inflight : nat;
  early : list functor;
}.

Definition new : t :=
  {| looping_ := false; quit_ := false; eventHandling_ := false; callingPendingFunctors_ := false;
     iteration_ := 0; pendingFunctors_ := []; wakeups := 0; pc := BeforeLoop;
     queued := []; called := []; inflight := 0; early := [] |}.

Definition set_pc (l : t) (x : phase) : t :=
  {| looping_ := looping_ l; quit_ := quit_ l; eventHandling_ := eventHandling_ l;
     callingPendingFunctors_ := callingPendingFunctors_ l; iteration_ := iteration_ l;
     pendingFunctors_ := pendingFunctors_ l; wakeups := wakeups l; pc := x;
     queued := queued l; called := called l; inflight := inflight l; early := early l |}.
Definition set_flags (l : t) (looping quit handling calling : bool) : t :=
  {| looping_ := looping; quit_ := quit; eventHandling_ := handling;
     callingPendingFunctors_ := calling; iteration_ := iteration_ l;
     pendingFunctors_ := pendingFunctors_ l; wakeups := wakeups l; pc := pc l;
     queued := queued l; called := called l; inflight := inflight l; early := early l |}.
Definition set_iteration (l : t) (n : Z) : t :=
  {| looping_ := looping_ l; quit_ := quit_ l; eventHandling_ := eventHandling_ l;
     callingPendingFunctors_ := callingPendingFunctors_ l; iteration_ := n;
     pendingFunctors_ := pendingFunctors_ l; wakeups := wakeups l; pc := pc l;
     queued := queued l; called := called l; inflight := inflight l; early := early l |}.
Definition set_pending (l : t) (fs : list functor) : t :=
  {| looping_ := looping_ l; quit_ := quit_ l; eventHandling_ := eventHandling_ l;
     callingPendingFunctors_ := callingPendingFunctors_ l; iteration_ := iteration_ l;
     pendingFunctors_ := fs; wakeups := wakeups l; pc := pc l;
     queued := queued l; called := called l; inflight := inflight l; early := early l |}.
Definition push (l : t) (cb : functor) : t :=
  {| looping_ := looping_ l; quit_ := quit_ l; eventHandling_ := eventHandling_ l;
     callingPendingFunctors_ := callingPendingFunctors_ l; iteration_ := iteration_ l;
     pendingFunctors_ := pendingFunctors_ l ++ [cb]; wakeups := wakeups l; pc := pc l;
     queued := queued l ++ [cb]; called := called l; inflight := inflight l; early := early l |}.
Definition set_wakeups (l : t) (n : Z) (k : nat) : t :=
  {| looping_ := looping_ l; quit_ := quit_ l; eventHandling_ := eventHandling_ l;
     callingPendingFunctors_ := callingPendingFunctors_ l; iteration_ := iteration_ l;
     pendingFunctors_ := pendingFunctors_ l; wakeups := n; pc := pc l;
     queued := queued l; called := called l; inflight := k; early := early l |}.
Definition note_called (l : t) (f : functor) : t :=
  {| looping_ := looping_ l; quit_ := quit_ l; eventHandling_ := eventHandling_ l;
     callingPendingFunctors_ := callingPendingFunctors_ l; iteration_ := iteration_ l;
     pendingFunctors_ := pendingFunctors_ l; wakeups := wakeups l; pc := pc l;
     queued := queued l; called := called l ++ [f]; inflight := inflight l; early := early l |}.

Definition note_early (l : t) (f : functor) : t :=
  {| looping_ := looping_ l; quit_ := quit_ l; eventHandling_ := eventHandling_ l;
     callingPendingFunctors_ := callingPendingFunctors_ l; iteration_ := iteration_ l;
     pendingFunctors_ := pendingFunctors_ l; wakeups := wakeups l; pc := pc l;
     queued := queued l; called := called l; inflight := inflight l; early := early l ++ [f] |}.

(** [wakeup()] writes 1 to the eventfd; its counter adds up. *)
Definition wakeup (l : t) : t := set_wakeups l (wakeups l + 1) (inflight l).

(** [handleRead()] of the wakeup channel: reading the eventfd resets it. *)
Definition handleRead (l : t) : t := set_wakeups l 0 (inflight l).

(** [quit()]: no wakeup. *)
Definition quit (l : t) : t :=
  set_flags l (looping_ l) true (eventHandling_ l) (callingPendingFunctors_ l).

(** [queueInLoop] called in the loop's thread. *)
Definition queueInLoop (l : t) (cb : functor) : t :=
  let l := push l cb in
  if callingPendingFunctors_ l then wakeup l else l.

(** [queueInLoop] called in another thread: the critical section, and after it
    the call of [wakeup()]. *)
Definition queueInLoop_lock (l : t) (cb : functor) : t :=
  set_wakeups (push l cb) (wakeups l) (S (inflight l)).
Definition queueInLoop_wakeup (l : t) : option t :=
  match inflight l with O => None | S k => Some (set_wakeups l (wakeups l + 1) k) end.

Definition queueSize (l : t) : Z := zlen (pendingFunctors_ l).

(** What code running in the loop's thread does to the loop.  [runInLoop] there
    calls its argument at once, so that the effects are those of the argument. *)
Inductive effect := Queue (cb : functor) | Quit.

Definition perform (l : t) (e : effect) : t :=
  match e with Queue cb => queueInLoop l cb | Quit => quit l end.

(** The same, done by the loop's thread outside [loop()]: before it, or after it has
    returned. *)
Definition perform_outside (l : t) (e : effect) : t :=
  match e, pc l with
  | Queue cb, BeforeLoop => note_early (queueInLoop l cb) cb
  | _, _ => perform l e
  end.

Definition perform_all (l : t) (es : list effect) : t := fold_left perform es l.

Section loop.
(** The bodies of the functors and of the callbacks of the channels. *)
Variable body : functor -> list effect.
Variable callbacks : Z -> list effect.

(** The loop over the functors taken by [doPendingFunctors]. *)
Definition call_functor (l : t) (f : functor) : t := perform_all (note_called l f) (body f).

(** [runInLoop]: at once in the loop's thread, from another one through the queue
    (its critical section; the wake-up follows). *)
Definition runInLoop (isInLoopThread : bool) (l : t) (cb : functor) : t :=
  if isInLoopThread then call_functor l cb else queueInLoop_lock l cb.

Definition doPendingFunctors (l : t) : t :=
  let l := set_flags l (looping_ l) (quit_ l) (eventHandling_ l) true in
  let functors := pendingFunctors_ l in
  let l := set_pending l [] in
  let l := fold_left call_functor functors l in
  set_flags l (looping_ l) (quit_ l) (eventHandling_ l) false.

(** The address of [wakeupChannel_]. *)
Definition wakeupChannel_ : Z := 0.

(** One channel of [activeChannels_] handles its events. *)
Definition handleEvent (l : t) (channel : Z) : t :=
  if channel =? wakeupChannel_ then handleRead l else perform_all l (callbacks channel).

(** One atomic step of the loop's thread, or of some other thread. *)
Inductive step : t -> t -> Prop :=
  | loop_outside l e : pc l = BeforeLoop \/ pc l = Returned -> step l (perform_outside l e)
  | loop_enter l :
      pc l = BeforeLoop \/ pc l = Returned -> looping_ l = false ->
      step l (set_pc (set_flags l true (quit_ l) (eventHandling_ l) (callingPendingFunctors_ l))
                (if quit_ l then Returned else Testing))
  | loop_test l :
      pc l = Testing ->
      step l (if quit_ l
              then set_pc (set_flags l false true (eventHandling_ l) (callingPendingFunctors_ l)) Returned
              else set_pc l Polling)
  | loop_poll l active :
      pc l = Polling -> (0 < wakeups l -> wakeupChannel_ ∈ active) ->
      step l (set_pc (set_flags (set_iteration l (iteration_ l + 1)) (looping_ l) (quit_ l) true
                        (callingPendingFunctors_ l)) (Dispatching active))
  | loop_dispatch l c active :
      pc l = Dispatching (c :: active) -> step l (set_pc (handleEvent l c) (Dispatching active))
  | loop_dispatched l :
      pc l = Dispatching [] ->
      step l (set_pc (set_flags l (looping_ l) (quit_ l) false (callingPendingFunctors_ l)) Swapping)
  | loop_swap l :
      pc l = Swapping ->
      step l (set_pc (set_pending (set_flags l (looping_ l) (quit_ l) (eventHandling_ l) true) [])
                (Calling (pendingFunctors_ l)))
  | loop_call l f fs :
      pc l = Calling (f :: fs) -> step l (set_pc (call_functor l f) (Calling fs))
  | loop_called l :
      pc l = Calling [] ->
      step l (set_pc (set_flags l (looping_ l) (quit_ l) (eventHandling_ l) false) Testing)
  | other_queue l cb : step l (queueInLoop_lock l cb)
  | other_wakeup l l' : queueInLoop_wakeup l = Some l' -> step l l'
  | other_quit l : step l (quit l).

(** The functors taken and not called yet. *)
Definition taken (l : t) : list functor :=
  match pc l with Calling fs => fs | _ => [] end.

(** [poll] has not returned yet, and the functors pending are those that the loop's own
    thread queued before [loop()]. *)
Definition fresh (l : t) : Prop := iteration_ l = 0 /\ pendingFunctors_ l = early l.

(** Queued functors will not be slept on. *)
Definition awake (l : t) : Prop :=
  match pc l with
  | Dispatching _ | Swapping => callingPendingFunctors_ l = false
  | Calling _ => callingPendingFunctors_ l = true /\
      (pendingFunctors_ l <> [] -> 0 < wakeups l \/ (0 < inflight l)%nat)
  | Returned => callingPendingFunctors_ l = false
  | BeforeLoop => callingPendingFunctors_ l = false /\ (0 < wakeups l \/ (0 < inflight l)%nat \/ fresh l)
  | Testing | Polling => callingPendingFunctors_ l = false /\
      (pendingFunctors_ l <> [] -> 0 < wakeups l \/ (0 < inflight l)%nat \/ fresh l)
  end.

Record inv (l : t) : Prop := {
  inv_wakeups : 0 <= wakeups l;
  inv_history : queued l = called l ++ taken l ++ pendingFunctors_ l;
  inv_awake : awake l;
  inv_returned : pc l = Returned -> quit_ l = true;
}.

(** What effects performed in the loop's thread leave alone. *)
Lemma perform_all_spec l es :
  exists fs n, pendingFunctors_ (perform_all l es) = pendingFunctors_ l ++ fs /\
    queued (perform_all l es) = queued l ++ fs /\ called (perform_all l es) = called l /\
    pc (perform_all l es) = pc l /\ inflight (perform_all l es) = inflight l /\
    callingPendingFunctors_ (perform_all l es) = callingPendingFunctors_ l /\
    wakeups (perform_all l es) = wakeups l + n /\ 0 <= n /\
    (callingPendingFunctors_ l = true -> fs <> [] -> 0 < n) /\
    early (perform_all l es) = early l.
Proof.
  revert l. induction es as [|e es IH]; intros l; simpl.
  { exists [], 0. rewrite !app_nil_r. split_and!; (done || lia). }
  destruct e as [cb|]; simpl.
  - destruct (IH (queueInLoop l cb)) as (fs & n & Hp & Hq & Hc & Hpc & Hi & Hcall & Hw & Hn & Hpos & He).
    exists (cb :: fs), (n + if callingPendingFunctors_ l then 1 else 0).
    unfold queueInLoop in *. simpl in *.
    destruct (callingPendingFunctors_ l) eqn:E; simpl in *; rewrite E in *;
      rewrite Hp, Hq, Hc, Hpc, Hi, Hcall, Hw, He, <- !app_assoc; split_and!; (done || lia).
  - destruct (IH (quit l)) as (fs & n & Hp & Hq & Hc & Hpc & Hi & Hcall & Hw & Hn & Hpos & He).
    exists fs, n. simpl in *. rewrite Hp, Hq, Hc, Hpc, Hi, Hcall, Hw, He. split_and!; (done || lia).
Qed.

Lemma app_not_nil (xs fs : list functor) (P : Prop) :
  (xs <> [] -> P) -> (fs <> [] -> P) -> xs ++ fs <> [] -> P.
Proof. intros H1 H2 H. destruct xs; [by apply H2|by apply H1]. Qed.

Lemma dispatch_inv l c active :
  pc l = Dispatching (c :: active) -> inv l -> inv (set_pc (handleEvent l c) (Dispatching active)).
Proof.
  intros Hpc [Hw Hh Ha _]. unfold taken, awake in *. rewrite Hpc in *. unfold handleEvent. case_match.
  - constructor; unfold taken, awake; simpl; [lia|exact Hh|exact Ha|done].
  - destruct (perform_all_spec l (callbacks c)) as (fs & n & Hp & Hq & Hc & _ & Hi & Hcall & Hwk & Hn & _).
    constructor; unfold taken, awake; simpl; [lia| |congruence|done].
    rewrite Hp, Hq, Hc, Hh. simpl. by rewrite <- app_assoc.
Qed.

Lemma call_inv l f fs :
  pc l = Calling (f :: fs) -> inv l -> inv (set_pc (call_functor l f) (Calling fs)).
Proof.
  intros Hpc [Hw Hh Ha _]. unfold taken, awake in *. rewrite Hpc in *. destruct Ha as [Hcalling Ha].
  unfold call_functor.
  destruct (perform_all_spec (note_called l f) (body f))
    as (gs & n & Hp & Hq & Hc & _ & Hi & Hcall & Hwk & Hn & Hpos & _). simpl in *.
  constructor; unfold taken, awake; simpl; [lia| | |done].
  - rewrite Hp, Hq, Hc, Hh. simpl. rewrite <- !app_assoc. simpl. by rewrite <- !app_assoc.
  - split; [congruence|]. rewrite Hp, Hwk, Hi. apply app_not_nil.
    + intros H. apply Ha in H. lia.
    + intros H. specialize (Hpos Hcalling H). lia.
Qed.

(** The loop's thread acts outside [loop()]. *)
Lemma outside_inv l e : pc l = BeforeLoop \/ pc l = Returned -> inv l -> inv (perform_outside l e).
Proof.
  intros Hpc [Hw Hh Ha Hq]. unfold perform_outside. unfold taken, awake in *.
  destruct Hpc as [Hpc|Hpc]; rewrite Hpc in *.
  - destruct Ha as [Hcf Ha]. destruct e as [cb|]; [|constructor; unfold taken, awake; simpl; by rewrite ?Hpc].
    unfold queueInLoop. simpl. rewrite Hcf. constructor; unfold taken, awake; simpl; rewrite ?Hpc; try done.
    + rewrite Hh. by rewrite <- app_assoc.
    + split; [done|]. unfold fresh in *. simpl. destruct Ha as [?|[?|[? ->]]]; auto.
  - assert (forall cb, queueInLoop l cb = push l cb) as Hqueue by (intros; unfold queueInLoop; simpl; by rewrite Ha).
    destruct e as [cb|]; simpl; rewrite ?Hqueue; constructor; unfold taken, awake; simpl; rewrite ?Hpc; try done.
    rewrite Hh. by rewrite <- app_assoc.
Qed.

(** Another thread queues a functor, or writes to the eventfd after it has. *)
Lemma other_inv l n k fs :
  inv l -> 0 <= n -> (0 < n \/ (0 < k)%nat) ->
  inv (set_wakeups (foldl push l fs) n k).
Proof.
  intros Hinv Hn Hnk. assert (inv (foldl push (set_wakeups l n k) fs)) as Hi.
  { assert (0 < wakeups (set_wakeups l n k) \/ (0 < inflight (set_wakeups l n k))%nat) as Hup by done.
    assert (inv (set_wakeups l n k)) as Hi.
    { destruct Hinv as [Hw Hh Ha Hq]. constructor; try done. unfold awake in *. simpl. destruct (pc l); naive_solver. }
    revert Hi Hup. generalize (set_wakeups l n k). clear. induction fs as [|f fs IH]; intros l Hi Hup; [done|].
    simpl. apply IH; [|done]. destruct Hi as [Hw Hh Ha Hq]. constructor; try done.
    - unfold taken in *. simpl. by rewrite Hh, <- !app_assoc.
    - unfold awake in *. simpl. destruct (pc l); naive_solver. }
  replace (set_wakeups (foldl push l fs) n k) with (foldl push (set_wakeups l n k) fs); [done|].
  clear. revert l. induction fs as [|f fs IH]; intros l; [done|]. simpl. by rewrite <- IH.
Qed.

Lemma loop_step_inv l l' : step l l' -> inv l -> inv l'.
Proof.
  intros Hs Hinv. destruct Hs as
    [l e Hpc|l Hpc Hl|l Hpc|l active Hpc Hact|l c active Hpc|l Hpc|l Hpc|l f fs Hpc|l Hpc|l cb|l l' Hwk|l].
  - by apply outside_inv.
  - destruct Hinv as [Hw Hh Ha Hq]. unfold taken, awake in *. destruct Hpc as [Hpc|Hpc]; rewrite Hpc in *.
    + destruct (quit_ l) eqn:E; constructor; unfold taken, awake; simpl; try done; naive_solver.
    + rewrite Hq by done. by constructor.
  - destruct Hinv as [Hw Hh Ha Hq]. unfold taken, awake in *. rewrite Hpc in *.
    destruct (quit_ l); constructor; try done. by destruct Ha.
  - destruct Hinv as [Hw Hh Ha Hq]. unfold taken, awake in *. rewrite Hpc in *.
    constructor; try done. by destruct Ha.
  - by apply dispatch_inv.
  - destruct Hinv as [Hw Hh Ha Hq]. unfold taken, awake in *. rewrite Hpc in *. by constructor.
  - destruct Hinv as [Hw Hh Ha Hq]. unfold taken, awake in *. rewrite Hpc in *.
    constructor; [done| |done|done]. unfold taken. simpl. by rewrite app_nil_r.
  - by apply call_inv.
  - destruct Hinv as [Hw Hh Ha Hq]. unfold taken, awake in *. rewrite Hpc in *.
    constructor; try done. unfold awake. simpl. naive_solver.
  - apply (other_inv l (wakeups l) (S (inflight l)) [cb]); [done|apply Hinv|lia].
  - unfold queueInLoop_wakeup in Hwk. destruct (inflight l) as [|k] eqn:Ek; [done|]. simplify_eq.
    pose proof (inv_wakeups l Hinv). apply (other_inv l _ k []); [done|lia|lia].
  - destruct Hinv as [Hw Hh Ha Hq]. by constructor.
Qed.

Lemma new_inv : inv new.
Proof. constructor; try done. split; [done|]. by right; right. Qed.

Lemma reachable_loop_inv l : rtc step new l -> inv l.
Proof.
  intros Hr. pose proof new_inv as Hinv. induction Hr as [|l1 l2 l3 Hs _ IH]; [done|].
  apply IH. by eapply loop_step_inv.
Qed.

(** C5. Whatever the interleaving of the loop's thread with the threads that
    queue functors, every functor is called exactly once, by the loop's thread, in
    the order of queueing: those called, those taken by [doPendingFunctors] and
    those pending are, in this order, the functors queued so far. *)
Theorem eventloop_fifo l :
  rtc step new l -> queued l = called l ++ taken l ++ pendingFunctors_ l.
Proof. intros Hr. by apply reachable_loop_inv. Qed.

(** C6. No lost wakeup: when the loop's thread is in [poll] (or about to enter
    it) and a functor is pending, the eventfd is readable or a thread that queued
    one is still to write to it, so that [poll] returns; with one exception, the
    first [poll], when the functors pending are exactly those that the loop's own
    thread queued before it called [loop()], for which nobody writes. *)
Theorem eventloop_no_lost_wakeup l :
  rtc step new l -> pc l = Testing \/ pc l = Polling -> pendingFunctors_ l <> [] ->
  0 < wakeups l \/ (0 < inflight l)%nat \/ (iteration_ l = 0 /\ pendingFunctors_ l = early l).
Proof.
  intros Hr Hpc Hp. pose proof (inv_awake l (reachable_loop_inv l Hr)) as Ha. unfold awake in Ha.
  destruct Hpc as [E|E]; rewrite E in Ha; by apply Ha.
Qed.

(** [set_pc] commutes with what the loop's thread executes. *)
Lemma perform_set_pc l x e : perform (set_pc l x) e = set_pc (perform l e) x.
Proof. destruct e; [|done]. simpl. unfold queueInLoop. simpl. by case_match. Qed.

Lemma perform_all_set_pc l x es : perform_all (set_pc l x) es = set_pc (perform_all l es) x.
Proof.
  revert l. induction es as [|e es IH]; intros l; [done|]. unfold perform_all in *. simpl.
  by rewrite perform_set_pc, IH.
Qed.

Lemma call_set_pc l x f : call_functor (set_pc l x) f = set_pc (call_functor l f) x.
Proof. unfold call_functor. by rewrite <- perform_all_set_pc. Qed.

Lemma calls_set_pc l x fs :
  fold_left call_functor fs (set_pc l x) = set_pc (fold_left call_functor fs l) x.
Proof. revert l. induction fs as [|f fs IH]; intros l; [done|]. simpl. by rewrite call_set_pc, IH. Qed.

Lemma call_steps l fs :
  pc l = Calling fs -> rtc step l (set_pc (fold_left call_functor fs l) (Calling [])).
Proof.
  revert l. induction fs as [|f fs IH]; intros l Hpc; simpl.
  - assert (set_pc l (Calling []) = l) as -> by (destruct l; simpl in *; by subst). apply rtc_refl.
  - eapply rtc_l; [by apply loop_call|].
    specialize (IH (set_pc (call_functor l f) (Calling fs)) eq_refl). by rewrite calls_set_pc in IH.
Qed.

(** The loop over the functors taken. *)
Lemma calls_spec fs x :
  callingPendingFunctors_ x = true -> 0 <= wakeups x -> (pendingFunctors_ x <> [] -> 0 < wakeups x) ->
  called (fold_left call_functor fs x) = called x ++ fs /\
  callingPendingFunctors_ (fold_left call_functor fs x) = true /\
  0 <= wakeups (fold_left call_functor fs x) /\
  (exists gs, pendingFunctors_ (fold_left call_functor fs x) = pendingFunctors_ x ++ gs /\
     queued (fold_left call_functor fs x) = queued x ++ gs) /\
  (pendingFunctors_ (fold_left call_functor fs x) <> [] -> 0 < wakeups (fold_left call_functor fs x)).
Proof.
  revert x. induction fs as [|f fs IH]; intros x Hc Hw Hp; simpl.
  - rewrite app_nil_r. split_and!; try done. exists []. by rewrite !app_nil_r.
  - destruct (perform_all_spec (note_called x f) (body f))
      as (gs & n & Hp1 & Hq1 & Hc1 & _ & _ & Hcall & Hwk & Hn & Hpos & _). simpl in *.
    destruct (IH (call_functor x f)) as (Hcd & Hcf & Hw' & (hs & Hp2 & Hq2) & Hlast).
    + unfold call_functor. congruence.
    + unfold call_functor. lia.
    + unfold call_functor. rewrite Hp1, Hwk. apply app_not_nil.
      * intros Hx. apply Hp in Hx. lia.
      * intros Hgs. specialize (Hpos Hc Hgs). lia.
    + unfold call_functor in *. rewrite Hc1 in Hcd. rewrite <- app_assoc in Hcd.
      split_and!; try done. exists (gs ++ hs). rewrite Hp2, Hq2, Hp1, Hq1. by rewrite !app_assoc.
Qed.

(** [doPendingFunctors] terminates and calls exactly the functors that were
    pending when it started: functors queued by the ones it calls stay pending
    for the next round (so a functor that re-queues itself cannot starve the
    poll), and for those the eventfd is already readable. *)
Theorem doPendingFunctors_spec l :
  callingPendingFunctors_ l = false -> pc l = Swapping -> 0 <= wakeups l ->
  rtc step l (set_pc (doPendingFunctors l) Testing) /\
  called (doPendingFunctors l) = called l ++ pendingFunctors_ l /\
  callingPendingFunctors_ (doPendingFunctors l) = false /\
  queued (doPendingFunctors l) = queued l ++ pendingFunctors_ (doPendingFunctors l) /\
  (pendingFunctors_ (doPendingFunctors l) <> [] -> 0 < wakeups (doPendingFunctors l)).
Proof.
  intros Hcf Hpc Hw. split.
  - eapply rtc_l; [by apply loop_swap|].
    etrans; [by apply call_steps|]. rewrite calls_set_pc.
    apply rtc_once. pose proof (loop_called (set_pc (fold_left call_functor (pendingFunctors_ l)
      (set_pending (set_flags l (looping_ l) (quit_ l) (eventHandling_ l) true) [])) (Calling [])) eq_refl) as Hs.
    exact Hs.
  - unfold doPendingFunctors.
    set (l0 := set_pending (set_flags l (looping_ l) (quit_ l) (eventHandling_ l) true) []).
    change (pendingFunctors_ (set_flags l (looping_ l) (quit_ l) (eventHandling_ l) true))
      with (pendingFunctors_ l).
    destruct (calls_spec (pendingFunctors_ l) l0) as (H1 & H2 & H3 & (gs & H4 & H5) & H6); [done|done|done|].
    simpl in *. rewrite H1, H5, H4. split_and!; try done. simpl. by rewrite <- H4.
Qed.
End loop.

(** ** Concrete runs *)

(** Functor 1 queues functor 2. *)
Definition demo_body (f : functor) : list effect := if f =? 1 then [Queue 2] else [].
Definition quiet (c : Z) : list effect := [].

(** Another thread queues functor 1 while the loop polls; functor 1 runs and
    queues functor 2, and the loop comes back to [poll]. *)
Definition demo : t :=
  {| looping_ := true; quit_ := false; eventHandling_ := false; callingPendingFunctors_ := false;
     iteration_ := 1; pendingFunctors_ := [2]; wakeups := 1; pc := Polling;
     queued := [1; 2]; called := [1]; inflight := 0; early := [] |}.

Lemma demo_run : rtc (step demo_body quiet) new demo.
Proof.
  eapply rtc_l; [apply loop_enter; [by left|done]|]. eapply rtc_l; [by apply loop_test|]. simpl.
  eapply rtc_l; [apply (other_queue _ _ _ 1)|].
  eapply rtc_l; [by apply other_wakeup|].
  eapply rtc_l; [apply (loop_poll _ _ _ [wakeupChannel_]); [done|by constructor]|].
  eapply rtc_l; [by apply loop_dispatch|]. eapply rtc_l; [by apply loop_dispatched|].
  eapply rtc_l; [by apply loop_swap|]. eapply rtc_l; [by apply loop_call|].
  eapply rtc_l; [by apply loop_called|]. apply rtc_once.
  apply (loop_test _ _ (set_pc demo Testing)). done.
Qed.

Lemma eventloop_fifo_witness : queued demo = called demo ++ taken demo ++ pendingFunctors_ demo.
Proof. apply (eventloop_fifo demo_body quiet demo), demo_run. Defined.

Lemma eventloop_no_lost_wakeup_witness :
  0 < wakeups demo \/ (0 < inflight demo)%nat \/ (iteration_ demo = 0 /\ pendingFunctors_ demo = early demo).
Proof. apply (eventloop_no_lost_wakeup demo_body quiet demo demo_run); [by right|done]. Defined.

Lemma doPendingFunctors_spec_witness :
  called (doPendingFunctors demo_body (set_pc (push new 1) Swapping)) = [1] /\
  0 < wakeups (doPendingFunctors demo_body (set_pc (push new 1) Swapping)).
Proof.
  destruct (doPendingFunctors_spec demo_body quiet (set_pc (push new 1) Swapping)) as (_ & Hc & _ & _ & Hw);
    [reflexivity|reflexivity|simpl; lia|].
  split; [exact Hc|]. by apply Hw.
Defined.

(** Two ways to sleep although there is work: [quit()] from another thread
    writes nothing to the eventfd, so the loop may sit in [poll] with [quit_] set;
    and a functor that the loop's own thread queues before [loop()] is pending in
    the first [poll] with nothing to end it but the timeout. *)
Theorem eventloop_sleeps body callbacks :
  (exists l, rtc (step body callbacks) new l /\ pc l = Polling /\ quit_ l = true /\
     wakeups l = 0 /\ inflight l = 0%nat) /\
  (forall f, exists l, rtc (step body callbacks) new l /\ pc l = Polling /\
     pendingFunctors_ l = [f] /\ wakeups l = 0 /\ inflight l = 0%nat).
Proof.
  split; [|intros f].
  - eexists. split; [|split_and!].
    { eapply rtc_l; [apply loop_enter; [by left|done]|]. eapply rtc_l; [by apply loop_test|].
      apply rtc_once. apply other_quit. }
    all: done.
  - eexists. split; [eapply rtc_l; [apply (loop_outside _ _ _ (Queue f)); by left|];
      eapply rtc_l; [apply loop_enter; [by left|done]|]; apply rtc_once; by apply loop_test|done].
Qed.

(** ** Timers and channels of the loop *)

Definition runAt `{TimerQueue.Allocator} (inLoop : bool) (q : TimerQueue.t) (clock time : TimeStamp.t) (cb : Z) :=
  TimerQueue.addTimer inLoop q clock cb time 0.

Definition runAfter `{TimerQueue.Allocator} (inLoop : bool) (q : TimerQueue.t) (now clock : TimeStamp.t)
  (delay cb : Z) := runAt inLoop q clock (TimeStamp.addTime now delay) cb.

Definition runEvery `{TimerQueue.Allocator} (inLoop : bool) (q : TimerQueue.t) (now clock : TimeStamp.t)
  (interval cb : Z) := TimerQueue.addTimer inLoop q clock cb (TimeStamp.addTime now interval) interval.

Definition cancel (inLoop : bool) (q : TimerQueue.t) (timerId : Z * Z) :=
  TimerQueue.cancelInLoop inLoop q timerId.

(** The channel operations of the loop at address [self].  [removeChannel]: while
    events are dispatched, a channel that is still to be handled in this round must
    not be removed by another one. *)
Definition removeChannel `{Poller} (self : Z) (inLoop eventHandling : bool) (currentActiveChannel : option Z)
  (activeChannels : list Z) (p : pstate) (s : store) (c : Z) : outcome (pstate * store) :=
  ch ← deref (s !! c) ;
  _ ← assert_ (Channel.ownerLoop ch =? self) ;
  _ ← assertInLoopThread inLoop ;
  _ ← (if eventHandling
       then assert_ (bool_decide (currentActiveChannel = Some c) || bool_decide (c ∉ activeChannels))
       else mret ()) ;
  Polling.removeChannel inLoop p s c.

Definition updateChannel `{Poller} (self : Z) (inLoop : bool) (p : pstate) (s : store) (c : Z)
  : outcome (pstate * store) :=
  ch ← deref (s !! c) ;
  _ ← assert_ (Channel.ownerLoop ch =? self) ;
  _ ← assertInLoopThread inLoop ;
  Polling.updateChannel inLoop p s c.

Definition hasChannel `{Poller} (self : Z) (inLoop : bool) (p : pstate) (s : store) (c : Z) : outcome bool :=
  ch ← deref (s !! c) ;
  _ ← assert_ (Channel.ownerLoop ch =? self) ;
  _ ← assertInLoopThread inLoop ; Polling.hasChannel inLoop p s c.
End EventLoop.
