(* ===== verification/TimedLoop.v ===== *)
(** Timers and threads together (src/libel/net/timerqueue.cpp with eventloop.cpp): any
    thread may add and cancel timers; [runInLoop] hands the work to the loop's thread,
    the timerfd makes [poll] return, and [handleRead] of the timer queue runs what is
    due.  [EventLoop] and [TimerQueue] are composed here with a clock. *)

From S2P Require Import Prelude NumText TimeText Timers Polling Loop.

Module TimedLoop.
Import TimerQueue.

(** ** Where every timer is

    [l] lists the timers that have run, are pending or wait for their functor, one
    occurrence for each time. *)
Definition times (a : Z) (l : list Z) : nat := length (filter (fun b => b = a) l).

Definition expiration_ok (x : Z) : Prop := - 2 ^ 62 <= x < 2 ^ 63.

Record account (l : list Z) (h : gmap Z Timer.t) (d : gset (Z * Z)) : Prop := {
  acc_known a : a ∈ l -> is_Some (h !! a);
  acc_once a tm : h !! a = Some tm -> Timer.repeat_ tm = false -> (times a l <= 1)%nat;
  acc_fate a tm : h !! a = Some tm -> a ∈ l \/ (a, Timer.sequence_ tm) ∈ d;
  acc_range a tm : h !! a = Some tm -> expiration_ok (Timer.expiration_ tm);
}.

Lemma times_perm a l l' : l ≡ₚ l' -> times a l = times a l'.
Proof. intros H. unfold times. by rewrite H. Qed.

Lemma times_cons a b l : times a (b :: l) = ((if decide (b = a) then 1 else 0) + times a l)%nat.
Proof. unfold times. rewrite filter_cons. by case_decide. Qed.

Lemma times_absent a l : a ∉ l -> times a l = 0%nat.
Proof.
  intros H. unfold times. rewrite filter_none; [done|]. apply Forall_forall. by intros b Hb ->.
Qed.

#[export] Instance account_proper : Proper (Permutation ==> eq ==> eq ==> iff) account.
Proof.
  assert (forall l l' h d, l ≡ₚ l' -> account l h d -> account l' h d) as H.
  { intros l l' h d Hp [Hk Ho Hf Hr]. constructor; [..|done].
    - intros a. rewrite <- Hp. apply Hk.
    - intros a tm. rewrite <- (times_perm a _ _ Hp). apply Ho.
    - intros a tm. rewrite <- Hp. apply Hf. }
  intros l l' Hp h ? <- d ? <-. split; apply H; by rewrite Hp.
Qed.

(** A timer is created. *)
Lemma account_new l h d a tm :
  h !! a = None -> expiration_ok (Timer.expiration_ tm) -> account l h d ->
  account (a :: l) (<[a := tm]> h) d.
Proof.
  intros Ha Hx [Hk Ho Hf Hr]. constructor.
  - intros b [->|Hb]%elem_of_cons; [by rewrite lookup_insert_eq|].
    rewrite lookup_insert_ne; [by apply Hk|]. intros ->. apply Hk in Hb as [? ?]. congruence.
  - intros b tm'. rewrite times_cons, lookup_insert_Some. intros [[-> ->]|[Hne Hb]] Hrep.
    + rewrite times_absent; [case_decide; lia|]. intros [? ?]%Hk. congruence.
    + rewrite decide_False by done. by apply (Ho b tm').
  - intros b tm'. rewrite lookup_insert_Some, elem_of_cons. intros [[-> ->]|[_ Hb]]; [by left; left|].
    destruct (Hf b tm' Hb); tauto.
  - intros b tm'. rewrite lookup_insert_Some. intros [[-> <-]|[_ Hb]]; [done|by eapply Hr].
Qed.

(** A pending timer is cancelled. *)
Lemma account_drop l h d a tm :
  h !! a = Some tm -> account (a :: l) h d -> account l h ({[(a, Timer.sequence_ tm)]} ∪ d).
Proof.
  intros Ha [Hk Ho Hf Hr]. constructor; [..|done].
  - intros b Hb. apply Hk. by right.
  - intros b tm' Hb Hrep. specialize (Ho b tm' Hb Hrep). rewrite times_cons in Ho. lia.
  - intros b tm' Hb. destruct (Hf b tm' Hb) as [[->|?]%elem_of_cons|?]; [|by left|right; set_solver].
    right. simplify_eq. set_solver.
Qed.

(** A timer that repeats is pending once more. *)
Lemma account_again l h d a tm tm' :
  h !! a = Some tm -> Timer.repeat_ tm' = true -> Timer.sequence_ tm' = Timer.sequence_ tm ->
  expiration_ok (Timer.expiration_ tm') -> account l h d -> account (a :: l) (<[a := tm']> h) d.
Proof.
  intros Ha Hrep Hseq Hx [Hk Ho Hf Hr]. constructor.
  - intros b [->|Hb]%elem_of_cons; [by rewrite lookup_insert_eq|].
    destruct (decide (a = b)) as [->|]; [by rewrite lookup_insert_eq|]. rewrite lookup_insert_ne by done. by apply Hk.
  - intros b x. rewrite times_cons, lookup_insert_Some. intros [[-> ->]|[Hne Hb]] Hx'; [congruence|].
    rewrite decide_False by done. by apply (Ho b x).
  - intros b x. rewrite lookup_insert_Some, elem_of_cons. intros [[-> <-]|[_ Hb]]; [by left; left|].
    destruct (Hf b x Hb); tauto.
  - intros b x. rewrite lookup_insert_Some. intros [[-> <-]|[_ Hb]]; [done|by eapply Hr].
Qed.

(** The account of a queue whose timers [W] wait for their functor and whose expired
    timers [E] are still to run, and the timerfd, set at a time no later than [T]. *)
Definition set_right (T : Z) (q : TimerQueue.t) : Prop :=
  forall x ts, armed q = Some (x, ts) ->
    expiration_ok x /\ ts = howMuchTimeFromNow (armed_at q) x /\ 0 <= armed_at q <= T.

Record holds (T : Z) (W E : list Z) (q : TimerQueue.t) : Prop := {
  h_account : account (trace q ++ pending q ++ W ++ E) (heap q) (dropped q);
  h_set : set_right T q;
}.

(** The actions of user code: ranges, and the clock not past [T]. *)
Definition action_fits (T : Z) (x : action) : Prop :=
  match x with
  | AddTimer clock _ when i => 0 <= clock <= T /\ - 2 ^ 62 <= when < 2 ^ 62 /\ interval_ok i
  | CancelTimer _ => True
  end.

Lemma fits_ok T acts : Forall (action_fits T) acts -> Forall action_ok acts.
Proof. intros Hf. eapply Forall_impl; [exact Hf|]. intros [] H; [apply H|done]. Qed.

Lemma later_set T T' q : T <= T' -> set_right T q -> set_right T' q.
Proof. intros H Hs x ts E. destruct (Hs x ts E) as (? & ? & ?). split_and!; (done || lia). Qed.

Lemma holds_later T T' W E q : T <= T' -> holds T W E q -> holds T' W E q.
Proof. intros H [Ha Hs]. split; [done|by eapply later_set]. Qed.

Lemma holds_same T W W' E E' q : W ++ E ≡ₚ W' ++ E' -> holds T W E q -> holds T W' E' q.
Proof. intros Hp [Ha Hs]. split; [|done]. by rewrite <- Hp. Qed.

(** The clock, the flags and the sets alone do not matter. *)
Lemma holds_calling T W E q b c : holds T W E (with_calling q b c) <-> holds T W E q.
Proof. by split; intros [Ha Hs]; split. Qed.

Lemma insert_frame q a b q' :
  insert true q a = Ok (b, q') -> exists ts act, q' = with_sets q ts act.
Proof.
  unfold insert. intros H. simpl in H. destruct (heap q !! a); [|done]. simpl in H.
  destruct (EntrySet.insert _ _) as [ts [|]]; [|done]. simpl in H.
  destruct (bool_decide _); [|done]. simpl in H. destruct (sizes_agree _); [|done]. injection H as _ <-. eauto.
Qed.

Lemma set_right_reset T q clock x :
  0 <= clock <= T -> expiration_ok x -> set_right T (resetTimerfd q clock x).
Proof. intros Hc Hx y ts E. simpl in *. by simplify_eq. Qed.

Section operations.
Context `{Allocator}.

Lemma newTimer_holds T W E q cb when i a q' :
  newTimer q cb when i = (a, q') -> - 2 ^ 62 <= when < 2 ^ 62 -> holds T W E q -> holds T (a :: W) E q'.
Proof.
  intros Hn Hw [Ha Hs]. unfold newTimer in Hn. injection Hn as Ea <-. split; [|done]. simpl. rewrite Ea.
  assert (heap q !! a = None) as Hf by (rewrite <- Ea; apply not_elem_of_dom, malloc_fresh).
  apply (account_new _ _ _ a (Timer.new (s_numCreated_ q) cb when i)) in Ha; [|done|unfold expiration_ok; simpl; lia].
  by rewrite <- !Permutation_middle.
Qed.

Lemma addTimerInLoop_holds T W E q clock a tm q' :
  ok q -> heap q !! a = Some tm -> a ∉ pending q -> addTimerInLoop true q clock a = Ok q' ->
  0 <= clock <= T -> holds T (a :: W) E q -> holds T W E q'.
Proof.
  intros Hq Ha Hp Hs Hc [Hacc Hset].
  destruct (insert_ok q a tm Hq Ha Hp) as (ts & act & Hi & _ & Hperm).
  unfold addTimerInLoop in Hs. simpl in Hs. rewrite Hi in Hs. simpl in Hs. rewrite Ha in Hs. simpl in Hs.
  assert (account (trace q ++ map snd ts ++ W ++ E) (heap q) (dropped q)) as Hacc'.
  { rewrite Hperm. simpl in *. by rewrite <- !Permutation_middle in *. }
  destruct (match timers_ q with [] => _ | _ => _ end); injection Hs as <-; split; try done.
  apply set_right_reset; [done|]. by eapply acc_range.
Qed.

Lemma cancel_holds T W E q id q' :
  ok q -> cancelInLoop true q id = Ok q' -> holds T W E q -> holds T W E q'.
Proof.
  intros Hq Hs [Hacc Hset]. destruct id as [a s]. destruct (decide ((a, s) ∈ activeTimers_ q)) as [Hin|Hni].
  - apply elem_of_active in Hin as (tm & Ha & Hseq & Hin); [|done].
    destruct (cancel_active q a s tm) as (ts & act & Hs' & _ & Hp); [done..|].
    rewrite Hs' in Hs. injection Hs as <-. split; [|done]. cbn [trace pending timers_ with_dropped with_sets heap dropped].
    rewrite <- Hseq. apply account_drop; [done|]. unfold pending in *. rewrite Hp in Hacc. simpl in *.
    by rewrite <- Permutation_middle in Hacc.
  - rewrite cancel_inactive in Hs by done. injection Hs as <-. by destruct (callingExpiredTimers_ q).
Qed.

Lemma perform_holds T W E acts q q' :
  ok q -> Forall (action_fits T) acts -> perform true q acts = Ok q' -> holds T W E q -> holds T W E q'.
Proof.
  intros Hq Hf. revert q Hq. induction Hf as [|x acts Hx _ IH]; intros q Hq Hs Hh; simpl in Hs; [by injection Hs as <-|].
  assert (covered (fun _ => True) q) as Hc by (intros e _; by left).
  destruct x as [clock cb when i|id].
  - destruct Hx as (Hc' & Hw & Hi).
    destruct (newTimer_ok _ q cb when i Hq Hc Hi) as (a & q1 & Hn & _ & Ha & Hq1 & Hc1 & Hp & _).
    destruct (addTimerInLoop_ok (fun _ => True) q1 clock a _ Hq1 Hc1 ltac:(done) Ha Hp) as (q2 & Hadd & Hq2 & _).
    unfold addTimer in Hs. rewrite Hn, Hadd in Hs. simpl in Hs. apply (IH q2 Hq2 Hs).
    eapply addTimerInLoop_holds; [exact Hq1|exact Ha|exact Hp|exact Hadd|exact Hc'|]. by eapply newTimer_holds.
  - destruct (cancel_ok _ q id Hq Hc) as (q1 & Hc1 & Hq1 & _). rewrite Hc1 in Hs. simpl in Hs.
    apply (IH q1 Hq1 Hs). eapply cancel_holds; [exact Hq|exact Hc1|exact Hh].
Qed.

Lemma run_all_holds T W callback expired q q' :
  ok q -> (forall c q, Forall (action_fits T) (callback c q)) ->
  run_all true callback q expired = Ok q' -> holds T W (map snd expired) q -> holds T W [] q'.
Proof.
  intros Hq Hf. revert q Hq. induction expired as [|e expired IH]; intros q Hq Hs Hh; simpl in Hs; [by injection Hs as <-|].
  destruct (heap q !! e.2) as [tm|]; [|done]. simpl in Hs.
  set (q0 := with_trace q (trace q ++ [e.2])) in *. assert (ok q0) as Hq0 by by apply ok_with_trace.
  assert (holds T W (map snd expired) q0) as Hh0.
  { destruct Hh as [Ha Hset]. split; [|done]. simpl in *. rewrite <- app_assoc. simpl.
    by rewrite <- !Permutation_middle in *. }
  destruct (perform_ok (fun _ => True) q0 (callback (Timer.callback_ tm) q0)) as (q1 & Hp & Hq1 & _);
    [done|intros ? _; by left|done|by eapply fits_ok|].
  rewrite Hp in Hs. simpl in Hs. apply (IH q1 Hq1 Hs). eapply perform_holds; [exact Hq0| |exact Hp|exact Hh0]. apply Hf.
Qed.

Lemma reset_loop_holds T W expired now q q' :
  ok q -> covered (Z.lt now) q -> 0 <= now < 2 ^ 62 -> NoDup (map snd expired) ->
  (forall e, e ∈ expired -> is_Some (heap q !! e.2) /\ e.2 ∉ pending q) ->
  reset_loop true q expired now = Ok q' -> holds T W [] q -> holds T W [] q'.
Proof.
  intros Hq Hc Hn Hnd. revert q Hq Hc. induction expired as [|e expired IH]; intros q Hq Hc He Hs Hh; simpl in Hs;
    [by injection Hs as <-|].
  apply NoDup_cons in Hnd as [Hnin Hnd]. destruct (He e) as [[tm Htm] Hp]; [by left|]. rewrite Htm in Hs. simpl in Hs.
  assert (forall e', e' ∈ expired -> e'.2 <> e.2) as Hne.
  { intros e' He' Eq. apply Hnin. rewrite <- Eq. apply list_elem_of_fmap. eauto. }
  assert (forall e', e' ∈ expired -> e' ∈ e :: expired) as Hin by (intros; by right).
  destruct (Timer.repeat_ tm && _) eqn:Eb; [|apply (IH Hnd q Hq); auto].
  apply andb_true_iff in Eb as [Hrep _]. destruct (ok_heap q Hq e.2 tm Htm) as (_ & Hi' & Hpos).
  destruct (restart_ok q now e.2 tm Hq Hc Hn Htm Hrep Hp) as (b & q1 & Hi & Hq1 & Hc1 & Hh1 & Hp1 & _).
  destruct (insert_frame _ _ _ _ Hi) as (ts & act & E1). rewrite Hi in Hs. simpl in Hs.
  apply (IH Hnd q1 Hq1 Hc1); [|done|].
  - intros e' He'. rewrite Hh1, lookup_insert_ne by (symmetry; auto). destruct (He e') as [? Hp']; [auto|]. split; [done|].
    unfold pending. rewrite Hp1. simpl. rewrite not_elem_of_cons. auto.
  - destruct Hh as [Ha Hset]. subst q1. simpl in Hp1. split; [|done]. simpl. unfold pending. simpl. rewrite Hp1. simpl.
    rewrite <- Permutation_middle. apply (account_again _ _ _ _ tm); try done. simpl. rewrite Hrep, addTime_exact by done.
    unfold expiration_ok, interval_ok in *. rewrite Hrep in Hpos. symmetry in Hpos. apply Z.ltb_lt in Hpos. lia.
Qed.

Lemma handleRead_holds T W callback q now clock q' :
  ok q -> (forall c q, Forall (action_fits T) (callback c q)) -> 0 <= now < 2 ^ 62 -> 0 <= clock <= T ->
  handleRead true callback q now clock = Ok q' -> holds T W [] q -> holds T W [] q'.
Proof.
  intros Hq Hf Hn Hck Hs [Ha Hset]. unfold handleRead in Hs. cbn [assertInLoopThread assert_ mbind outcome_bind] in Hs.
  destruct (handleRead_runs callback) with (q := q) (now := now)
    as (rest & act & q2 & Hg & Hq1 & Hsplit & Hrun & Hq2 & Hc2 & _ & _ & Hnd & Hback); [|done|done|].
  { intros c q0. eapply fits_ok, Hf. }
  set (expired := filter (due now) (timers_ q)) in *. rewrite Hg in Hs. simpl in Hs. rewrite Hrun in Hs. simpl in Hs.
  assert (holds T W [] q2) as Hh2.
  { eapply run_all_holds; [|exact Hf|exact Hrun|]; [by apply ok_with_calling|]. apply holds_calling. split; [|done].
    simpl. unfold pending in *. simpl. rewrite Hsplit, map_app, app_nil_r in Ha. rewrite <- app_assoc in Ha.
    by rewrite (app_assoc _ W), (Permutation_app_comm (_ ++ W)). }
  unfold reset in Hs. set (q3 := with_calling q2 false (cancelingTimers_ q2)) in *.
  assert (holds T W [] q3) as Hh3 by by apply holds_calling.
  assert (ok q3) as Hq3 by by apply ok_with_calling.
  destruct (reset_loop_ok q3 expired now Hq3 Hc2 Hn Hnd Hback) as (q4 & Hl & Hq4 & _). rewrite Hl, bind_ok in Hs.
  pose proof (reset_loop_holds T W expired now q3 q4 Hq3 Hc2 Hn Hnd Hback Hl Hh3) as [Ha4 Hs4].
  destruct (timers_ q4) as [|h l] eqn:Et; simpl in Hs; [by injection Hs as <-|].
  destruct (ok_entry q4 Hq4 h) as (tm & Htm & _); [rewrite Et; by left|]. rewrite Htm in Hs. simpl in Hs.
  destruct (TimeStamp.valid _); injection Hs as <-; split; try done.
  apply set_right_reset; [done|]. by eapply acc_range.
Qed.
End operations.

(** The kernel makes the timerfd readable at this time. *)
Definition deadline (q : TimerQueue.t) : option Z :=
  match armed q with
  | Some (_, ts) => Some (armed_at q + tv_sec ts * 1000000 + tv_nsec ts / 1000)
  | None => None
  end.

(** The timerfd fires when the timer it was set for expires, and not earlier than a
    hundred microseconds after it was set. *)
Lemma timerfd_deadline T q x ts :
  set_right T q -> T < 2 ^ 62 -> armed q = Some (x, ts) ->
  deadline q = Some (Z.max x (armed_at q + 100)).
Proof.
  intros Hs HT Ex. destruct (Hs x ts Ex) as ([Hlo Hhi] & -> & Hat). unfold deadline. rewrite Ex. f_equal.
  unfold howMuchTimeFromNow, TimeStamp.kMicroSecondsPerSecond. change (1000 * 1000) with 1000000.
  rewrite swrap_small by (unfold in_int; simpl; lia).
  set (ms := if _ <? 100 then 100 else _). cbn [tv_sec tv_nsec].
  assert (ms = Z.max 100 (x - armed_at q)) as Em by (subst ms; bcases; lia). assert (100 <= ms) by lia.
  rewrite Z.quot_div_nonneg, Z.rem_mod_nonneg, Z.div_mul by lia.
  pose proof (Z.div_mod ms 1000000 ltac:(lia)). lia.
Qed.

(** ** The loop with its timer queue *)

(** The functors [TimerQueue::addTimer] and [TimerQueue::cancel] hand to the loop when
    another thread calls them.  Functors that are not in the table are the users'. *)
Inductive job := AddJob (timer : Z) | CancelJob (id : Z * Z).

(** [fired] is history: the entries whose callback has run, each with the [now] of the
    [handleRead] that ran it. *)
Record t := mk {
  loop : EventLoop.t;
  timers : TimerQueue.t;
  jobs : gmap Z job;
  clock : Z;
  fired : list (EntrySet.entry * Z);
}.

Definition start (now : Z) : t := mk EventLoop.new TimerQueue.new ∅ now [].

(** [timerfdChannel_] *)
Definition timerChannel : Z := 1.

Definition readable (s : t) : Prop :=
  match deadline (timers s) with Some d => d <= clock s | None => False end.

(** The steps of [EventLoop::loop] in which no code of others runs. *)
Definition advance (l : EventLoop.t) : option EventLoop.t :=
  match EventLoop.pc l with
  | EventLoop.BeforeLoop =>
      if EventLoop.looping_ l then None else
      Some (EventLoop.set_pc (EventLoop.set_flags l true (EventLoop.quit_ l) (EventLoop.eventHandling_ l)
              (EventLoop.callingPendingFunctors_ l))
              (if EventLoop.quit_ l then EventLoop.Returned else EventLoop.Testing))
  | EventLoop.Testing =>
      Some (if EventLoop.quit_ l
            then EventLoop.set_pc (EventLoop.set_flags l false true (EventLoop.eventHandling_ l)
                   (EventLoop.callingPendingFunctors_ l)) EventLoop.Returned
            else EventLoop.set_pc l EventLoop.Polling)
  | EventLoop.Dispatching [] =>
      Some (EventLoop.set_pc (EventLoop.set_flags l (EventLoop.looping_ l) (EventLoop.quit_ l) false
              (EventLoop.callingPendingFunctors_ l)) EventLoop.Swapping)
  | EventLoop.Dispatching (0 :: active) =>
      Some (EventLoop.set_pc (EventLoop.handleRead l) (EventLoop.Dispatching active))
  | EventLoop.Swapping =>
      Some (EventLoop.set_pc (EventLoop.set_pending (EventLoop.set_flags l (EventLoop.looping_ l)
              (EventLoop.quit_ l) (EventLoop.eventHandling_ l) true) [])
              (EventLoop.Calling (EventLoop.pendingFunctors_ l)))
  | EventLoop.Calling [] =>
      Some (EventLoop.set_pc (EventLoop.set_flags l (EventLoop.looping_ l) (EventLoop.quit_ l)
              (EventLoop.eventHandling_ l) false) EventLoop.Testing)
  | _ => None
  end.

(** [poll] returns. *)
Definition polled (l : EventLoop.t) (active : list Z) : EventLoop.t :=
  EventLoop.set_pc (EventLoop.set_flags (EventLoop.set_iteration l (EventLoop.iteration_ l + 1))
    (EventLoop.looping_ l) (EventLoop.quit_ l) true (EventLoop.callingPendingFunctors_ l))
    (EventLoop.Dispatching active).

(** The users' code queues users' functors. *)
Definition users (s : t) (es : list EventLoop.effect) : Prop :=
  forall f, EventLoop.Queue f ∈ es -> jobs s !! f = None.

Section system.
Context `{Allocator}.

(** A step of the loop's thread or of another one.  User code may act on the timers and
    on the loop as it likes; [now] and [T] are the clock when a handler begins and ends. *)
Inductive step : t -> t -> Prop :=
  | tick s T : clock s <= T < 2 ^ 62 -> step s (mk (loop s) (timers s) (jobs s) T (fired s))
  | loop_advances s l' :
      advance (loop s) = Some l' -> step s (mk l' (timers s) (jobs s) (clock s) (fired s))
  | poll_returns s active :
      EventLoop.pc (loop s) = EventLoop.Polling ->
      (0 < EventLoop.wakeups (loop s) -> EventLoop.wakeupChannel_ ∈ active) ->
      (readable s -> timerChannel ∈ active) ->
      step s (mk (polled (loop s) active) (timers s) (jobs s) (clock s) (fired s))
  | timer_event s active callback es now T q' :
      EventLoop.pc (loop s) = EventLoop.Dispatching (timerChannel :: active) ->
      clock s <= now <= T -> T < 2 ^ 62 -> (forall c q, Forall (action_fits T) (callback c q)) -> users s es ->
      TimerQueue.handleRead true callback (timers s) now T = Ok q' ->
      step s (mk (EventLoop.set_pc (EventLoop.perform_all (loop s) es) (EventLoop.Dispatching active)) q' (jobs s) T
                (fired s ++ map (fun e => (e, now)) (filter (due now) (timers_ (timers s)))))
  | user_event s c active acts es T q' :
      EventLoop.pc (loop s) = EventLoop.Dispatching (c :: active) ->
      c <> EventLoop.wakeupChannel_ -> c <> timerChannel ->
      clock s <= T < 2 ^ 62 -> Forall (action_fits T) acts -> users s es -> perform true (timers s) acts = Ok q' ->
      step s (mk (EventLoop.set_pc (EventLoop.perform_all (loop s) es) (EventLoop.Dispatching active)) q' (jobs s) T
                (fired s))
  | call_add s f fs a T q' :
      EventLoop.pc (loop s) = EventLoop.Calling (f :: fs) -> jobs s !! f = Some (AddJob a) ->
      clock s <= T < 2 ^ 62 -> addTimerInLoop true (timers s) T a = Ok q' ->
      step s (mk (EventLoop.set_pc (EventLoop.note_called (loop s) f) (EventLoop.Calling fs)) q' (jobs s) T (fired s))
  | call_cancel s f fs id q' :
      EventLoop.pc (loop s) = EventLoop.Calling (f :: fs) -> jobs s !! f = Some (CancelJob id) ->
      cancelInLoop true (timers s) id = Ok q' ->
      step s (mk (EventLoop.set_pc (EventLoop.note_called (loop s) f) (EventLoop.Calling fs)) q' (jobs s) (clock s)
                (fired s))
  | call_user s f fs acts es T q' :
      EventLoop.pc (loop s) = EventLoop.Calling (f :: fs) -> jobs s !! f = None ->
      clock s <= T < 2 ^ 62 -> Forall (action_fits T) acts -> users s es -> perform true (timers s) acts = Ok q' ->
      step s (mk (EventLoop.set_pc (EventLoop.perform_all (EventLoop.note_called (loop s) f) es) (EventLoop.Calling fs))
                q' (jobs s) T (fired s))
  | other_add s cb when i f a q' :
      newTimer (timers s) cb when i = (a, q') -> - 2 ^ 62 <= when < 2 ^ 62 -> interval_ok i ->
      f ∉ EventLoop.queued (loop s) ->
      step s (mk (EventLoop.queueInLoop_lock (loop s) f) q' (<[f := AddJob a]> (jobs s)) (clock s) (fired s))
  | other_cancel s id f :
      f ∉ EventLoop.queued (loop s) ->
      step s (mk (EventLoop.queueInLoop_lock (loop s) f) (timers s) (<[f := CancelJob id]> (jobs s)) (clock s) (fired s))
  | other_queues s f :
      jobs s !! f = None ->
      step s (mk (EventLoop.queueInLoop_lock (loop s) f) (timers s) (jobs s) (clock s) (fired s))
  | other_wakes s l' :
      EventLoop.queueInLoop_wakeup (loop s) = Some l' -> step s (mk l' (timers s) (jobs s) (clock s) (fired s))
  | other_quits s : step s (mk (EventLoop.quit (loop s)) (timers s) (jobs s) (clock s) (fired s)).

(** The functors that have not run yet, and the timers created in another thread that
    wait for theirs. *)
Definition backlog (l : EventLoop.t) : list Z := EventLoop.taken l ++ EventLoop.pendingFunctors_ l.
Definition added (s : t) (f : Z) : option Z := match jobs s !! f with Some (AddJob a) => Some a | _ => None end.
Definition waiting (s : t) : list Z := omap (added s) (backlog (loop s)).

(** The loop's invariant; its own thread has queued no functors before [loop()]. *)
Definition loop_ok (l : EventLoop.t) : Prop := EventLoop.inv l /\ EventLoop.early l = [].

Record inv (s : t) : Prop := mk_inv {
  i_loop : loop_ok (loop s);
  i_ok : ok (timers s);
  i_covered : covered (fun _ => False) (timers s);
  i_clock : 0 <= clock s < 2 ^ 62;
  i_holds : holds (clock s) (waiting s) [] (timers s);
  i_dup : NoDup (waiting s);
  i_apart a : a ∈ waiting s -> a ∉ pending (timers s);
  i_fired : trace (timers s) = map (fun r => r.1.2) (fired s);
  i_due : Forall (fun r => r.1.1 <= r.2) (fired s);
}.

(** *** The queue of functors *)
Definition quiet (f : Z) : list EventLoop.effect := [].

Lemma advance_inv l l' :
  advance l = Some l' -> loop_ok l -> loop_ok l' /\ backlog l' = backlog l.
Proof.
  intros Ha [Hi He]. assert (EventLoop.step quiet quiet l l') as Hs.
  { unfold advance in Ha. destruct (EventLoop.pc l) as [| | |[|[| |] active]| |[|]|] eqn:Ep; try done;
      try (injection Ha as <-; by econstructor).
    - destruct (EventLoop.looping_ l) eqn:El; [done|]. injection Ha as <-. constructor; [by left|done].
    - injection Ha as <-. by apply (EventLoop.loop_dispatch quiet quiet l 0 active). }
  split.
  { split; [by eapply EventLoop.loop_step_inv|]. rewrite <- He. clear Hs. unfold advance in Ha.
    destruct (EventLoop.pc l) as [| | |[|[| |] active]| |[|]|]; try done; try (by injection Ha as <-).
    - destruct (EventLoop.looping_ l); [done|]. by injection Ha as <-.
    - injection Ha as <-. by destruct (EventLoop.quit_ l). }
  unfold advance, backlog, EventLoop.taken in *.
  destruct (EventLoop.pc l) as [| | |[|[| |] active]| |[|]|]; try done; try (by injection Ha as <-).
  - destruct (EventLoop.looping_ l); [done|]. injection Ha as <-. simpl. by destruct (EventLoop.quit_ l).
  - injection Ha as <-. simpl. by destruct (EventLoop.quit_ l).
  - injection Ha as <-. simpl. by rewrite app_nil_r.
Qed.

Lemma polled_inv l active :
  EventLoop.pc l = EventLoop.Polling -> (0 < EventLoop.wakeups l -> EventLoop.wakeupChannel_ ∈ active) ->
  loop_ok l -> loop_ok (polled l active) /\ backlog (polled l active) = backlog l.
Proof.
  intros Hp Hw [Hi He]. split.
  - split; [|exact He]. eapply EventLoop.loop_step_inv; [|exact Hi]. by apply (EventLoop.loop_poll quiet quiet).
  - unfold backlog, EventLoop.taken. simpl. by rewrite Hp.
Qed.

Definition names (es : list EventLoop.effect) : list Z :=
  omap (fun e => match e with EventLoop.Queue f => Some f | EventLoop.Quit => None end) es.

Lemma perform_all_pending l es :
  EventLoop.pendingFunctors_ (EventLoop.perform_all l es) = EventLoop.pendingFunctors_ l ++ names es.
Proof.
  revert l. induction es as [|e es IH]; intros l; [simpl; by rewrite app_nil_r|].
  change (EventLoop.perform_all l (e :: es)) with (EventLoop.perform_all (EventLoop.perform l e) es).
  rewrite IH. destruct e; simpl; [|done]. unfold EventLoop.queueInLoop. simpl.
  destruct (EventLoop.callingPendingFunctors_ l); simpl; by rewrite <- app_assoc.
Qed.

Lemma perform_all_early l es : EventLoop.early (EventLoop.perform_all l es) = EventLoop.early l.
Proof. by destruct (EventLoop.perform_all_spec l es) as (fs & n & _ & _ & _ & _ & _ & _ & _ & _ & _ & ?). Qed.

Lemma dispatch_user_inv l c active es :
  EventLoop.pc l = EventLoop.Dispatching (c :: active) -> c <> EventLoop.wakeupChannel_ -> loop_ok l ->
  let l' := EventLoop.set_pc (EventLoop.perform_all l es) (EventLoop.Dispatching active) in
  loop_ok l' /\ backlog l' = backlog l ++ names es.
Proof.
  intros Hp Hc [Hi He] l'. split.
  - split; [|subst l'; simpl; by rewrite perform_all_early].
    pose proof (EventLoop.dispatch_inv (fun _ => es) l c active Hp Hi) as Hi'. unfold EventLoop.handleEvent in Hi'.
    rewrite (proj2 (Z.eqb_neq _ _) Hc) in Hi'. exact Hi'.
  - unfold backlog, EventLoop.taken. simpl. by rewrite Hp, perform_all_pending.
Qed.

Lemma call_user_inv l f fs es :
  EventLoop.pc l = EventLoop.Calling (f :: fs) -> loop_ok l ->
  let l' := EventLoop.set_pc (EventLoop.perform_all (EventLoop.note_called l f) es) (EventLoop.Calling fs) in
  loop_ok l' /\ backlog l = f :: fs ++ EventLoop.pendingFunctors_ l /\
  backlog l' = (fs ++ EventLoop.pendingFunctors_ l) ++ names es.
Proof.
  intros Hp [Hi He] l'. split_and!.
  - split; [|subst l'; simpl; by rewrite perform_all_early]. exact (EventLoop.call_inv (fun _ => es) l f fs Hp Hi).
  - unfold backlog, EventLoop.taken. by rewrite Hp.
  - unfold backlog, EventLoop.taken. simpl. rewrite perform_all_pending. simpl. by rewrite app_assoc.
Qed.

Lemma push_inv l f :
  loop_ok l -> loop_ok (EventLoop.queueInLoop_lock l f) /\
  backlog (EventLoop.queueInLoop_lock l f) = backlog l ++ [f].
Proof.
  intros [Hi He]. split; [split; [|exact He]; eapply EventLoop.loop_step_inv; [|exact Hi]; by apply (EventLoop.other_queue quiet quiet)|].
  unfold backlog, EventLoop.taken. simpl. by rewrite app_assoc.
Qed.

Lemma backlog_queued l f : EventLoop.inv l -> f ∈ backlog l -> f ∈ EventLoop.queued l.
Proof. intros Hi Hf. rewrite (EventLoop.inv_history l Hi). apply elem_of_app. by right. Qed.

(** *** The timers *)
Lemma evolves_pending q q' a :
  evolves q q' -> a ∈ pending q' -> a ∈ pending q \/ heap q !! a = None.
Proof.
  intros He. rewrite !elem_of_pending. intros (x & [Hx|Hx]%(ev_timers _ _ He)); [left; by exists x|by right].
Qed.

Lemma waiting_known s a : inv s -> a ∈ waiting s -> is_Some (heap (timers s) !! a).
Proof.
  intros Hi Ha. apply (acc_known _ _ _ (h_account _ _ _ _ (i_holds s Hi))). rewrite !elem_of_app. tauto.
Qed.

(** The frame of every step that leaves the waiting timers alone. *)
Lemma step_frame s l' q' T fs :
  inv s -> loop_ok l' -> omap (added s) (backlog l') = waiting s -> clock s <= T < 2 ^ 62 ->
  ok q' -> covered (fun _ => False) q' -> holds T (waiting s) [] q' ->
  (forall a, a ∈ pending q' -> a ∈ pending (timers s) \/ heap (timers s) !! a = None) ->
  trace q' = map (fun r => r.1.2) fs -> Forall (fun r => r.1.1 <= r.2) fs ->
  inv (mk l' q' (jobs s) T fs).
Proof.
  intros Hi Hl Hw HT Hq Hc Hh Hp Ht Hd. pose proof (i_clock s Hi).
  assert (waiting (mk l' q' (jobs s) T fs) = waiting s) as Ew by exact Hw.
  constructor; simpl; rewrite ?Ew; try done; [lia|apply Hi|].
  intros a Ha [Hin|Hin]%Hp; [by apply (i_apart s Hi a Ha)|]. destruct (waiting_known s a Hi Ha). congruence.
Qed.

(** User code acts on the timers. *)
Lemma perform_inv s l' acts T q' :
  inv s -> loop_ok l' -> omap (added s) (backlog l') = waiting s -> clock s <= T < 2 ^ 62 ->
  Forall (action_fits T) acts -> perform true (timers s) acts = Ok q' ->
  inv (mk l' q' (jobs s) T (fired s)).
Proof.
  intros Hi Hl Hw HT Hf Hs.
  destruct (perform_ok (fun _ => False) (timers s) acts) as (q1 & E1 & Hq1 & Hc1 & He & Ht);
    [apply Hi|apply Hi|done|by eapply fits_ok|]. rewrite E1 in Hs. injection Hs as <-.
  apply step_frame; try done.
  - eapply perform_holds; [apply (i_ok s Hi)|exact Hf|exact E1|]. eapply holds_later; [|apply (i_holds s Hi)]. lia.
  - intros a. by apply evolves_pending.
  - rewrite Ht. apply Hi.
  - apply Hi.
Qed.

Lemma users_names s es : users s es -> omap (added s) (names es) = [].
Proof.
  unfold users. induction es as [|e es IH]; intros Hu; simpl; [done|].
  assert (omap (added s) (names es) = []) as IH' by (apply IH; intros f Hf; apply Hu; by right).
  destruct e as [f|]; simpl; [|done]. unfold added at 1. by rewrite (Hu f ltac:(by left)).
Qed.

(** A thread hands a functor of the timer queue to the loop. *)
Lemma other_waiting s f j q' :
  inv s -> f ∉ EventLoop.queued (loop s) ->
  waiting (mk (EventLoop.queueInLoop_lock (loop s) f) q' (<[f := j]> (jobs s)) (clock s) (fired s)) =
  waiting s ++ match j with AddJob a => [a] | CancelJob _ => [] end.
Proof.
  intros Hi Hf. destruct (push_inv (loop s) f (i_loop s Hi)) as [_ Hb].
  unfold waiting. simpl. rewrite Hb, omap_app. f_equal.
  - apply list_omap_ext, Forall_Forall2_diag, Forall_forall. intros g Hg. unfold added. simpl.
    rewrite lookup_insert_ne; [done|]. intros <-. by apply Hf, backlog_queued; [apply Hi|].
  - simpl. unfold added. simpl. rewrite lookup_insert_eq. by destruct j.
Qed.

Lemma other_cancel_inv s id f :
  inv s -> f ∉ EventLoop.queued (loop s) ->
  inv (mk (EventLoop.queueInLoop_lock (loop s) f) (timers s) (<[f := CancelJob id]> (jobs s)) (clock s) (fired s)).
Proof.
  intros Hi Hf. pose proof (other_waiting s f (CancelJob id) (timers s) Hi Hf) as Ew. rewrite app_nil_r in Ew.
  destruct (push_inv (loop s) f (i_loop s Hi)) as [Hl _]. destruct Hi. constructor; simpl; rewrite ?Ew; done.
Qed.

Lemma other_add_inv s cb when i f a q' :
  inv s -> newTimer (timers s) cb when i = (a, q') -> - 2 ^ 62 <= when < 2 ^ 62 -> interval_ok i ->
  f ∉ EventLoop.queued (loop s) ->
  inv (mk (EventLoop.queueInLoop_lock (loop s) f) q' (<[f := AddJob a]> (jobs s)) (clock s) (fired s)).
Proof.
  intros Hi Hn Hw Hiv Hf. pose proof (other_waiting s f (AddJob a) q' Hi Hf) as Ew.
  destruct (push_inv (loop s) f (i_loop s Hi)) as [Hl _].
  destruct (newTimer_ok (fun _ => False) (timers s) cb when i (i_ok s Hi) (i_covered s Hi) Hiv)
    as (a' & q1 & Hn' & Ha & _ & Hq1 & Hc1 & Hp & He & Ht). rewrite Hn' in Hn. injection Hn as -> ->.
  assert (a ∉ waiting s) as Hna. { intros [? ?]%waiting_known; [congruence|done]. }
  constructor; simpl; rewrite ?Ew; try done; try apply Hi.
  - eapply holds_same; [|eapply newTimer_holds; [exact Hn'|exact Hw|apply (i_holds s Hi)]]. simpl.
    by rewrite !app_nil_r, Permutation_app_comm.
  - apply NoDup_app. split_and!; [apply Hi| |apply NoDup_singleton]. intros b Hb ->%list_elem_of_singleton. done.
  - intros b [Hb| ->%list_elem_of_singleton]%elem_of_app; [|done]. intros [?|?]%(evolves_pending _ _ _ He).
    + by apply (i_apart s Hi b).
    + destruct (waiting_known s b Hi Hb). congruence.
  - rewrite Ht. apply Hi.
Qed.

Lemma call_add_inv s f fs a T :
  inv s -> EventLoop.pc (loop s) = EventLoop.Calling (f :: fs) -> jobs s !! f = Some (AddJob a) ->
  clock s <= T < 2 ^ 62 ->
  exists q', addTimerInLoop true (timers s) T a = Ok q' /\
    inv (mk (EventLoop.set_pc (EventLoop.note_called (loop s) f) (EventLoop.Calling fs)) q' (jobs s) T (fired s)).
Proof.
  intros Hi Hp Hf HT. pose proof (i_clock s Hi).
  destruct (call_user_inv (loop s) f fs [] Hp (i_loop s Hi)) as (Hl & Hb & Hb'). cbn [names omap list_omap] in Hb'.
  rewrite app_nil_r in Hb'. set (rest := omap (added s) (fs ++ EventLoop.pendingFunctors_ (loop s))).
  assert (waiting s = a :: rest) as Ew.
  { unfold waiting. rewrite Hb. simpl. unfold added at 1. by rewrite Hf. }
  pose proof (i_dup s Hi) as Hd. rewrite Ew in Hd. apply NoDup_cons in Hd as [Hna Hd].
  destruct (waiting_known s a Hi) as [tm Htm]; [rewrite Ew; by left|].
  assert (a ∉ pending (timers s)) as Hnp by (apply Hi; rewrite Ew; by left).
  destruct (addTimerInLoop_ok (fun _ => False) (timers s) T a tm (i_ok s Hi) (i_covered s Hi) ltac:(done) Htm Hnp)
    as (q1 & E1 & Hq1 & Hc1 & Hperm & Hheap & Ht & _). exists q1. split; [done|].
  match goal with |- inv ?x => assert (waiting x = rest) as Ew' by (unfold waiting; simpl in *; by rewrite Hb') end.
  constructor; simpl; rewrite ?Ew'; try done; [lia| | |by rewrite Ht; apply Hi|apply Hi].
  - eapply addTimerInLoop_holds; [apply (i_ok s Hi)|exact Htm|exact Hnp|exact E1|lia|].
    eapply holds_later; [|rewrite <- Ew; apply (i_holds s Hi)]. lia.
  - intros b Hb1. unfold pending. rewrite Hperm. simpl. rewrite not_elem_of_cons. split; [by intros ->|].
    apply (i_apart s Hi). rewrite Ew. by right.
Qed.

Lemma timer_event_inv s active callback es now T :
  inv s -> EventLoop.pc (loop s) = EventLoop.Dispatching (timerChannel :: active) ->
  clock s <= now <= T -> T < 2 ^ 62 -> (forall c q, Forall (action_fits T) (callback c q)) -> users s es ->
  exists q', TimerQueue.handleRead true callback (timers s) now T = Ok q' /\
    inv (mk (EventLoop.set_pc (EventLoop.perform_all (loop s) es) (EventLoop.Dispatching active)) q' (jobs s) T
           (fired s ++ map (fun e => (e, now)) (filter (due now) (timers_ (timers s))))).
Proof.
  intros Hi Hp Hn HT Hf Hu. pose proof (i_clock s Hi).
  destruct (dispatch_user_inv (loop s) timerChannel active es Hp ltac:(done) (i_loop s Hi)) as [Hl Hb].
  destruct (timer_handleRead_ok callback) with (q := timers s) (now := now) (clock := T)
    as (q1 & E1 & Hq1 & Hc1 & _ & Ht & Hpend & _); [intros c q; eapply fits_ok, Hf|apply Hi|lia|].
  exists q1. split; [done|]. apply step_frame; try done; [|lia| | |].
  - by rewrite Hb, omap_app, users_names, app_nil_r.
  - eapply handleRead_holds; [apply (i_ok s Hi)|exact Hf| | |exact E1|]; [lia|lia|].
    eapply holds_later; [|apply (i_holds s Hi)]. lia.
  - rewrite Ht, (i_fired s Hi), map_app, map_map. done.
  - apply Forall_app. split; [apply Hi|]. apply Forall_forall. intros r (e & -> & He)%list_elem_of_fmap.
    by apply list_elem_of_filter in He as [? _].
Qed.

Lemma call_cancel_inv s f fs id :
  inv s -> EventLoop.pc (loop s) = EventLoop.Calling (f :: fs) -> jobs s !! f = Some (CancelJob id) ->
  exists q', cancelInLoop true (timers s) id = Ok q' /\
    inv (mk (EventLoop.set_pc (EventLoop.note_called (loop s) f) (EventLoop.Calling fs)) q' (jobs s) (clock s) (fired s)).
Proof.
  intros Hi Hp Hf. pose proof (i_clock s Hi).
  destruct (call_user_inv (loop s) f fs [] Hp (i_loop s Hi)) as (Hl & Hb & Hb'). cbn [names omap list_omap] in Hb'.
  destruct (cancel_ok (fun _ => False) (timers s) id (i_ok s Hi) (i_covered s Hi)) as (q1 & E1 & _).
  exists q1. split; [done|]. apply (perform_inv s _ [CancelTimer id]); try done; [|lia|by repeat constructor|simpl; by rewrite E1].
  unfold waiting. simpl in Hb'. rewrite Hb', app_nil_r, Hb. simpl. unfold added at 2. by rewrite Hf.
Qed.

Lemma step_inv s s' : step s s' -> inv s -> inv s'.
Proof.
  intros Hs Hi. pose proof (i_clock s Hi). destruct Hs as
    [s T HT|s l' Ha|s active Hp Hw _|s active callback es now T q' Hp Hn HT Hf Hu E|s c active acts es T q' Hp Hc Ht HT Hf Hu E
    |s f fs a T q' Hp Hf HT E|s f fs id q' Hp Hf E|s f fs acts es T q' Hp Hj HT Hf Hu E|s cb when i f a q' Hn Hw Hiv Hf
    |s id f Hf|s f Hf|s l' Hl|s].
  - by apply (perform_inv s (loop s) [] T); [|apply Hi|..].
  - destruct (advance_inv _ _ Ha (i_loop s Hi)) as [Hl Hb]. apply (perform_inv s l' []); try done; [|lia]. by rewrite Hb.
  - destruct (polled_inv _ _ Hp Hw (i_loop s Hi)) as [Hl Hb]. apply (perform_inv s _ []); try done; [|lia]. by rewrite Hb.
  - destruct (timer_event_inv s active callback es now T) as (q1 & E1 & Hi1); try done. rewrite E1 in E. by injection E as <-.
  - destruct (dispatch_user_inv (loop s) c active es Hp Hc (i_loop s Hi)) as [Hl Hb].
    apply (perform_inv s _ acts); try done. by rewrite Hb, omap_app, users_names, app_nil_r.
  - destruct (call_add_inv s f fs a T) as (q1 & E1 & Hi1); try done. rewrite E1 in E. by injection E as <-.
  - destruct (call_cancel_inv s f fs id) as (q1 & E1 & Hi1); try done. rewrite E1 in E. by injection E as <-.
  - destruct (call_user_inv (loop s) f fs es Hp (i_loop s Hi)) as (Hl & Hb & Hb').
    apply (perform_inv s _ acts); try done. rewrite Hb', omap_app, users_names, app_nil_r by done.
    unfold waiting. rewrite Hb. simpl. unfold added at 2. by rewrite Hj.
  - by eapply other_add_inv.
  - by apply other_cancel_inv.
  - destruct (push_inv (loop s) f (i_loop s Hi)) as [Hl Hb]. apply (perform_inv s _ []); try done; [|lia].
    rewrite Hb, omap_app. simpl. unfold added at 2. by rewrite Hf, app_nil_r.
  - apply (perform_inv s l' []); try done; [| |lia].
    + split; [eapply EventLoop.loop_step_inv; [by apply (EventLoop.other_wakeup quiet quiet)|apply Hi]|].
      unfold EventLoop.queueInLoop_wakeup in Hl. destruct (EventLoop.inflight (loop s)); [done|].
      injection Hl as <-. apply Hi.
    + unfold EventLoop.queueInLoop_wakeup in Hl. destruct (EventLoop.inflight (loop s)); [done|]. by injection Hl as <-.
  - apply (perform_inv s _ []); try done; [|lia].
    split; [|apply Hi]. eapply EventLoop.loop_step_inv; [by apply (EventLoop.other_quit quiet quiet)|apply Hi].
Qed.

Lemma start_timed_inv now : 0 <= now < 2 ^ 62 -> inv (start now).
Proof.
  intros Hn. destruct new_ok as [Hq Hc]. constructor; simpl; try done.
  - split; [apply EventLoop.new_inv|done].
  - split; [|done]. constructor; simpl; [|done..]. intros a Ha. by apply not_elem_of_nil in Ha.
  - apply NoDup_nil_2.
  - intros a Ha. by apply not_elem_of_nil in Ha.
Qed.

Lemma reachable_timed now s : 0 <= now < 2 ^ 62 -> rtc step (start now) s -> inv s.
Proof.
  intros Hn Hr. pose proof (start_timed_inv now Hn) as Hi. induction Hr as [|x y z Hs _ IH]; [done|].
  apply IH. by eapply step_inv.
Qed.
End system.

(** C21. Timers of a running loop, whatever the interleaving of its thread with threads
    that add and cancel timers, queue functors and call [quit].  Every operation on the
    timer queue succeeds, and [handleRead] runs all that is due.  Every timer ever created waits for its functor, is pending,
    has run or was cancelled, and one that does not repeat is so only once, so it never
    runs twice.  No callback runs before its expiration.  And when the thread is in
    [poll] or about to enter it nothing is slept through: if a timer waits for its
    functor the loop has been woken or is about to be; and for each pending timer the
    timerfd will be readable at the latest at its expiration or, if that is later, a
    hundred microseconds after it was set. *)
Theorem timers_of_a_loop `{Allocator} now s :
  0 <= now < 2 ^ 62 -> rtc step (start now) s ->
  (forall T, clock s <= T < 2 ^ 62 ->
     (forall f fs a, EventLoop.pc (loop s) = EventLoop.Calling (f :: fs) -> jobs s !! f = Some (AddJob a) ->
        succeeds (addTimerInLoop true (timers s) T a)) /\
     (forall id, succeeds (cancelInLoop true (timers s) id)) /\
     (forall callback, (forall c q, Forall (action_fits T) (callback c q)) ->
        exists q', TimerQueue.handleRead true callback (timers s) T T = Ok q' /\
          forall e, e ∈ timers_ (timers s) -> e.1 <= T -> e.2 ∈ drop (length (trace (timers s))) (trace q'))) /\
  (forall a tm, heap (timers s) !! a = Some tm ->
     (a ∈ waiting s \/ a ∈ pending (timers s) \/ a ∈ trace (timers s) \/
        (a, Timer.sequence_ tm) ∈ dropped (timers s)) /\
     (Timer.repeat_ tm = false -> (times a (trace (timers s) ++ pending (timers s) ++ waiting s) <= 1)%nat)) /\
  (trace (timers s) = map (fun r => r.1.2) (fired s) /\ forall e n, (e, n) ∈ fired s -> e.1 <= n) /\
  (EventLoop.pc (loop s) = EventLoop.Testing \/ EventLoop.pc (loop s) = EventLoop.Polling ->
     (waiting s <> [] -> 0 < EventLoop.wakeups (loop s) \/ (0 < EventLoop.inflight (loop s))%nat) /\
     (forall e, e ∈ timers_ (timers s) ->
        exists d, deadline (timers s) = Some d /\ d <= Z.max e.1 (armed_at (timers s) + 100) /\
          armed_at (timers s) <= clock s)).
Proof.
  intros Hn Hr. pose proof (reachable_timed now s Hn Hr) as Hi. pose proof (i_clock s Hi) as Hck.
  pose proof (i_holds s Hi) as [Hacc Hset]. rewrite app_nil_r in Hacc. split_and!.
  - intros T HT. split_and!.
    + intros f fs a Hp Hf. destruct (call_add_inv s f fs a T Hi Hp Hf HT) as (q' & E & _). by exists q'.
    + intros id. destruct (cancel_ok _ _ id (i_ok s Hi) (i_covered s Hi)) as (q' & E & _). by exists q'.
    + intros callback Hf. destruct (timer_handleRead_ok callback) with (q := timers s) (now := T) (clock := T)
        as (q' & E & _ & _ & _ & Ht & _); [intros c q; eapply fits_ok, Hf|apply Hi|lia|].
      exists q'. split; [done|]. intros e He Hd. rewrite Ht, drop_app_length. apply list_elem_of_fmap.
      exists e. split; [done|]. by apply list_elem_of_filter.
  - intros a tm Ha. split; [|by intros Hrep; eapply acc_once].
    destruct (acc_fate _ _ _ Hacc a tm Ha) as [Hin|]; [|tauto]. rewrite !elem_of_app in Hin. tauto.
  - apply Hi.
  - intros e n He. pose proof (i_due s Hi) as Hd. rewrite Forall_forall in Hd. exact (Hd _ He).
  - intros Hpc. split.
    + intros Hw. destruct (i_loop s Hi) as [Hloop Hearly].
      pose proof (EventLoop.inv_awake _ Hloop) as Ha. unfold EventLoop.awake, EventLoop.fresh in Ha.
      rewrite Hearly in Ha.
      assert (EventLoop.pendingFunctors_ (loop s) <> []) as Hne.
      { intros E. apply Hw. unfold waiting, backlog, EventLoop.taken. rewrite E. by destruct Hpc as [-> | ->]. }
      destruct Hpc as [E|E]; rewrite E in Ha; destruct Ha as [_ Ha]; destruct (Ha Hne) as [?|[?|[_ ?]]]; auto; done.
    + intros e He. destruct (i_covered s Hi e He) as [[]|(x & ts & Ex & Hle)].
      exists (Z.max x (armed_at (timers s) + 100)). split; [by eapply timerfd_deadline; [exact Hset|lia|]|].
      destruct (Hset x ts Ex) as (_ & _ & Hat). lia.
Qed.

(** ** A run: another thread adds a timer at 1000 for 1050, and time goes on *)
#[local] Instance bump_alloc : Allocator := bump_allocator.

Definition adv (s : t) : t :=
  mk (match advance (loop s) with Some l => l | None => loop s end) (timers s) (jobs s) (clock s) (fired s).

Definition demo1 : t := adv (adv (start 1000)).
Definition demo2 : t :=
  mk (EventLoop.queueInLoop_lock (loop demo1) 5) (newTimer (timers demo1) 7 1050 0).2
    (<[5 := AddJob 1]> (jobs demo1)) 1000 [].
Definition demo3 : t :=
  mk (match EventLoop.queueInLoop_wakeup (loop demo2) with Some l => l | None => loop demo2 end)
    (timers demo2) (jobs demo2) 1000 [].
Definition demo4 : t := adv (adv (adv (mk (polled (loop demo3) [0]) (timers demo3) (jobs demo3) 1000 []))).
Definition demo5 : t :=
  mk (EventLoop.set_pc (EventLoop.note_called (loop demo4) 5) (EventLoop.Calling []))
    (ok_or (timers demo4) (addTimerInLoop true (timers demo4) 1010 1)) (jobs demo4) 1010 [].
Definition demo6 : t := adv (adv demo5).
Definition later6 : t := mk (loop demo6) (timers demo6) (jobs demo6) 1200 [].
Definition demo7 : t := mk (polled (loop later6) [1]) (timers later6) (jobs later6) 1200 [].
Definition demo8 : t :=
  mk (EventLoop.set_pc (loop demo7) (EventLoop.Dispatching []))
    (ok_or (timers demo7) (TimerQueue.handleRead true (fun _ _ => []) (timers demo7) 1200 1200)) (jobs demo7) 1200
    [((1050, 1), 1200)].

Lemma adv_step s l' : advance (loop s) = Some l' -> step s (adv s).
Proof. intros E. unfold adv. rewrite E. by constructor. Qed.

Lemma demo6_reachable : rtc step (start 1000) demo6.
Proof.
  eapply rtc_l; [eapply adv_step; reflexivity|]. eapply rtc_l; [eapply adv_step; reflexivity|].
  eapply (rtc_l _ demo1 demo2).
  { eapply (other_add demo1 7 1050 0 5 1); [reflexivity|lia|unfold interval_ok; lia|]. apply not_elem_of_nil. }
  eapply (rtc_l _ demo2 demo3); [by apply other_wakes|].
  eapply rtc_l; [apply (poll_returns demo3 [0]); [done|by left|done]|].
  do 3 (eapply rtc_l; [eapply adv_step; reflexivity|]).
  eapply (rtc_l _ demo4 demo5); [by apply (call_add demo4 5 [] 1 1010)|].
  do 2 (eapply rtc_l; [eapply adv_step; reflexivity|]). apply rtc_refl.
Qed.

(** The timer fires in the round after the clock has passed 1110. *)
Lemma demo8_reachable : rtc step (start 1000) demo8.
Proof.
  etrans; [exact demo6_reachable|]. eapply rtc_l; [apply (tick demo6 1200); simpl; lia|].
  eapply (rtc_l _ later6 demo7); [apply (poll_returns later6 [1]); [done|done|by left]|].
  apply rtc_once. apply (timer_event demo7 [] (fun _ _ => []) [] 1200 1200); [done|simpl; lia|lia|by constructor| |done].
  intros f Hf. by apply not_elem_of_nil in Hf.
Qed.

Lemma timers_of_a_loop_witness :
  (exists d, deadline (timers demo6) = Some d /\ d <= 1110) /\
  (forall e n, (e, n) ∈ fired demo8 -> e.1 <= n) /\ fired demo8 = [((1050, 1), 1200)].
Proof.
  split; [|split; [|reflexivity]].
  - destruct (timers_of_a_loop 1000 demo6) as (_ & _ & _ & H); [lia|exact demo6_reachable|].
    destruct (proj2 (H (or_intror eq_refl)) (1050, 1)) as (d & Ed & Hd & _); [by left|]. exists d. split; [exact Ed|exact Hd].
  - apply (timers_of_a_loop 1000 demo8); [lia|exact demo8_reachable].
Defined.
End TimedLoop.
