(* ===== verification/Reactor.v ===== *)
(** The reactor: [EventLoop::loop] (src/libel/net/eventloop.cpp) with its poller and its
    channels.  [poll] of both implementations gets an interface of its own here
    ([PollerWait]); a turn of the loop polls, dispatches the events to the channels, whose
    callbacks run code of others, and runs the queued functors.

    The user's code is a function from the history of calls to the commands it performs:
    it may create, change, tie, remove and destroy channels and queue functors.  The
    specification ([s_turn]) says what a turn does given what was reported, and where a
    client breaks the rules that the assertions check.  [pollReturnTime_] and
    [iteration_], which nothing reads here, and the log lines are left out; that other
    threads queue functors meanwhile is the subject of Loop. *)

From S2P Require Import Prelude NumText TimeText Timers Polling Loop.

(** ** [Poller::poll]

    [answer] is what the system call left behind, [possible] says which answers the
    kernel's documentation allows, [ready] are the channels reported with their events. *)
Class PollerWait {P : Poller} := {
  answer : Type;
  possible : pstate -> answer -> Prop;
  ready : pstate -> answer -> list (Z * Z);
  poll : pstate -> store -> answer -> outcome (pstate * store * list Z);
}.

(** The received events are stored in the channels. *)
Fixpoint stamp (s : store) (l : list (Z * Z)) : store :=
  match l with
  | [] => s
  | (c, r) :: l => stamp (alter (fun ch => Channel.set_revent ch r) c s) l
  end.

Class PollerWaitLaws `{PollerWait} : Prop := poll_law p s r :
  poller_ok p s -> possible p r ->
  exists p', poll p s r = Ok (p', stamp s (ready p r), map fst (ready p r)) /\
    poller_ok p' (stamp s (ready p r)) /\ channelMap_ p' = channelMap_ p /\
    (forall fd, watched p' fd = watched p fd) /\ NoDup (map fst (ready p r)) /\
    (forall c, c ∈ map fst (ready p r) -> exists fd, channelMap_ p !! fd = Some c).

Lemma stamp_ok `{L : PollerLaws} p s l : poller_ok p s -> poller_ok p (stamp s l).
Proof.
  revert s. induction l as [|[c r] l IH]; intros s Hok; simpl; [done|]. apply IH.
  rewrite alter_alt. destruct (s !! c) as [ch|] eqn:E; [|done]. by eapply poller_ok_other.
Qed.

Lemma stamp_lookup s l c :
  exists f, stamp s l !! c = f <$> s !! c /\
    forall ch, exists r, f ch = Channel.set_revent ch r /\ (c ∉ map fst l -> r = Channel.revents_ ch).
Proof.
  revert s. induction l as [|[c' r'] l IH]; intros s; simpl.
  { exists id. split; [by rewrite option_fmap_id|]. intros ch. exists (Channel.revents_ ch). by destruct ch. }
  destruct (IH (alter (fun ch => Channel.set_revent ch r') c' s)) as (f & E & Hf). rewrite E.
  destruct (decide (c' = c)) as [->|Hne].
  - exists (fun ch => f (Channel.set_revent ch r')). split; [by rewrite lookup_alter_eq, <- option_fmap_compose|].
    intros ch. destruct (Hf (Channel.set_revent ch r')) as (r & -> & _). exists r. split; [done|]. set_solver.
  - exists f. rewrite lookup_alter_ne by done. split; [done|]. intros ch. destruct (Hf ch) as (r & -> & Hr).
    exists r. split; [done|]. rewrite not_elem_of_cons. tauto.
Qed.

(** What was reported of a channel is what it reads, when it is reported once. *)
Lemma stamp_reported s l c r :
  NoDup (map fst l) -> (c, r) ∈ l -> Channel.revents_ <$> stamp s l !! c = (fun _ => r) <$> s !! c.
Proof.
  revert s. induction l as [|[c' r'] l IH]; intros s; simpl; [by intros _ ?%not_elem_of_nil|].
  intros [Hni Hnd]%NoDup_cons [[= -> ->]|Hin]%elem_of_cons.
  - destruct (stamp_lookup (alter (fun ch => Channel.set_revent ch r') c' s) l c') as (f & -> & Hf).
    rewrite lookup_alter_eq. destruct (s !! c') as [ch|]; [|done]. simpl.
    destruct (Hf (Channel.set_revent ch r')) as (r & -> & Hr). simpl. by rewrite Hr.
  - rewrite IH by done. assert (c' <> c). { intros ->. apply Hni, list_elem_of_fmap. by exists (c, r). }
    by rewrite lookup_alter_ne.
Qed.

(** *** [EpollPoller::poll] *)
Module EpollWait.
Section epoll.
Context `{EpollKernel}.
Import EpollPoller.

Definition swap (x : Z * Z) : Z * Z := (x.2, x.1).

(** [epoll_wait] returns at most as many events as there is room for, of descriptors in
    the interest list, each once, or an error. *)
Definition wait_possible (p : t) (a : option (list (Z * Z))) : Prop :=
  match a with
  | Some l => zlen l <= events_size p /\ NoDup (map snd l) /\
      forall r c, (r, c) ∈ l -> exists fd ev, interest (epollfd_ p) !! fd = Some (ev, c)
  | None => True
  end.

#[global] Instance epoll_wait : PollerWait (P := epoll_poller) :=
  Build_PollerWait epoll_poller (option (list (Z * Z))) wait_possible (fun _ a => map swap (default [] a))
    (fun p s a => EpollPoller.poll p s a []).

Lemma fill_stamp p s l active s' active' :
  fillActiveChannels_loop p s l active = Ok (s', active') -> s' = stamp s (map swap l).
Proof.
  revert s active. induction l as [|[r c] l IH]; intros s active; simpl; [by intros [= <- <-]|].
  destruct (s !! c) as [ch|] eqn:E; [|done]. simpl. intros Hs.
  do 2 (match type of Hs with assert_ ?b ≫= _ = _ => destruct b; [simpl in Hs|done] end).
  apply IH in Hs as ->. by rewrite alter_alt, E.
Qed.

#[global] Instance epoll_wait_laws `{!EpollLaws} : PollerWaitLaws (P := epoll_poller).
Proof.
  intros p s [l|] Hok; simpl; [|intros _; exists p; split_and!; try done; [by apply NoDup_nil_2|set_solver]].
  intros (Hlen & Hnd & Hin). destruct (fill_ok p s l [] Hok Hin) as (s' & Hf & Hok' & _).
  pose proof (fill_stamp _ _ _ _ _ _ Hf) as ->.
  assert (map fst (map swap l) = map snd l) as Em by (rewrite map_map; done). rewrite Em.
  assert (forall c, c ∈ map snd l -> exists fd, cmap p !! fd = Some c) as Hreg.
  { intros c ([r c'] & -> & Hc)%list_elem_of_fmap. simpl. destruct (Hin r c' Hc) as (fd & ev & E). exists fd.
    destruct (cmap p !! fd) as [c0|] eqn:Ec; [|by rewrite (ok_unmapped p s Hok fd Ec) in E].
    destruct (ok_mapped p s Hok fd c0 Ec) as (ch & _ & _ & [[_ E']|(_ & E' & _)]); congruence. }
  destruct l as [|x l]; [by exists p|]. unfold EpollPoller.poll, fillActiveChannels.
  rewrite assert_pass by by apply Z.leb_le. rewrite Hf, bind_ok. eexists. split; [done|]. simpl.
  split_and!; try done. by destruct Hok'.
Qed.
End epoll.
End EpollWait.

(** *** [PollPoller::poll] *)
Module PollWait.
Import PollPoller.

Definition positive (r : Z) : bool := 0 <? r.

(** [::poll] stores the received events of every entry, nothing for an entry with a
    negative descriptor, and returns how many entries have some, or nothing at all. *)
Definition poll_possible (p : t) (a : Z * list Z) : Prop :=
  length a.2 = length (pollfds_ p) /\
  (0 < a.1 -> a.1 = zlen (List.filter positive a.2) /\
     forall i pf r, pollfds_ p !! i = Some pf -> a.2 !! i = Some r -> 0 < r -> 0 <= pfd_fd pf).

Definition answered (pf : pollfd) (r : Z) : pollfd := mk_pollfd (pfd_fd pf) (pfd_events pf) r.

(** The channel of an entry, when it has received events. *)
Definition reported (m : gmap Z Z) (pf : pollfd) : option (Z * Z) :=
  if positive (pfd_revents pf) then (fun c => (c, pfd_revents pf)) <$> m !! pfd_fd pf else None.

Definition poll_ready (p : t) (a : Z * list Z) : list (Z * Z) :=
  if 0 <? a.1 then omap (reported (cmap p)) (zip_with answered (pollfds_ p) a.2) else [].

#[global] Instance poll_wait : PollerWait (P := poll_poller) :=
  Build_PollerWait poll_poller (Z * list Z) poll_possible poll_ready (fun p s a => PollPoller.poll p s a.1 a.2 []).

(** An entry with received events belongs to a channel of the store. *)
Definition live (m : gmap Z Z) (s : store) (i : Z) (pf : pollfd) : Prop :=
  exists c ch, m !! pfd_fd pf = Some c /\ s !! c = Some ch /\ Channel.fd_ ch = pfd_fd pf /\ Channel.index_ ch = i.

Lemma slot_live p s i pf :
  ok p s -> pollfds_ p !! i = Some pf -> 0 <= pfd_fd pf -> live (cmap p) s (Z.of_nat i) pf.
Proof.
  intros Hok Hl Hpos. destruct (ok_slot p s Hok i pf Hl) as (c & ch & Hm & Hs & Hi).
  destruct (ok_mapped p s Hok _ _ Hm) as (ch' & pf' & Hs' & Hf & Hfd & _ & Hl' & He).
  assert (ch' = ch) as -> by congruence. rewrite Hi, Nat2Z.id in Hl'. assert (pf' = pf) as -> by congruence.
  assert (pfd_fd pf = Channel.fd_ ch) as E by (destruct He as [[? _]|(? & _)]; lia).
  exists c, ch. by rewrite E.
Qed.

Lemma reported_some m pf c :
  0 < pfd_revents pf -> m !! pfd_fd pf = Some c -> reported m pf = Some (c, pfd_revents pf).
Proof. intros Hp Hm. unfold reported, positive. by rewrite (proj2 (Z.ltb_lt _ _) Hp), Hm. Qed.

Lemma reported_none m pf : pfd_revents pf <= 0 -> reported m pf = None.
Proof. intros Hp. unfold reported, positive. by rewrite (proj2 (Z.ltb_ge _ _) Hp). Qed.

(** The loop over the entries from the [k]th on. *)
Lemma fill_entries m s n pfs active k :
  n = zlen (List.filter (fun pf => positive (pfd_revents pf)) pfs) ->
  (forall i pf, pfs !! i = Some pf -> 0 < pfd_revents pf -> live m s (k + Z.of_nat i) pf) ->
  fillActiveChannels m s n pfs active =
    Ok (stamp s (omap (reported m) pfs), active ++ map fst (omap (reported m) pfs)) /\
  NoDup (map fst (omap (reported m) pfs)) /\
  (forall c, c ∈ map fst (omap (reported m) pfs) ->
     exists fd ch, m !! fd = Some c /\ s !! c = Some ch /\ k <= Channel.index_ ch).
Proof.
  revert s n active k. induction pfs as [|pf pfs IH]; intros s n active k Hn Hlive; simpl.
  { rewrite app_nil_r. split_and!; [done|by apply NoDup_nil_2|set_solver]. }
  assert (forall i pf', pfs !! i = Some pf' -> 0 < pfd_revents pf' -> live m s (k + 1 + Z.of_nat i) pf') as Hrest.
  { intros i pf' Hi Hp. replace (k + 1 + Z.of_nat i) with (k + Z.of_nat (S i)) by lia. by apply (Hlive (S i)). }
  unfold positive in Hn. simpl in Hn. destruct (Z.ltb_spec 0 (pfd_revents pf)) as [Hp|Hp].
  - rewrite zlen_cons in Hn. pose proof (zlen_nonneg (List.filter (fun pf => 0 <? pfd_revents pf) pfs)).
    destruct (Z.ltb_spec 0 n); [|lia]. simpl.
    destruct (Hlive 0%nat pf eq_refl Hp) as (c & ch & Hm & Hs & Hf & Hi).
    rewrite (reported_some m pf c Hp Hm), Hm. simpl. rewrite Hs. simpl.
    unfold Channel.fd. rewrite Hf, Z.eqb_refl. simpl. rewrite alter_alt, Hs.
    destruct (IH (<[c := Channel.set_revent ch (pfd_revents pf)]> s) (n - 1) (active ++ [c]) (k + 1)) as (-> & Hnd & Hin);
      [unfold positive; lia| |].
    { intros i pf' Hi' Hp'. destruct (Hrest i pf' Hi' Hp') as (c' & ch' & Hm' & Hs' & Hf' & Hi2).
      assert (c' <> c) as Hne. { intros ->. assert (ch' = ch) by congruence. subst. lia. }
      exists c', ch'. by rewrite lookup_insert_ne. }
    rewrite <- app_assoc. split_and!; [done| |].
    + apply NoDup_cons. split; [|done]. intros (fd & ch' & _ & Hs' & Hk)%Hin.
      rewrite lookup_insert_eq in Hs'. simplify_eq. simpl in Hk. lia.
    + intros c0 [->|(fd & ch' & Hm' & Hs' & Hk)%Hin]%elem_of_cons; [exists (pfd_fd pf), ch; split_and!; (done || lia)|].
      apply lookup_insert_Some in Hs' as [[-> <-]|[_ Hs']]; simpl in Hk; [exists fd, ch|exists fd, ch']; split_and!; (done || lia).
  - rewrite (reported_none m pf Hp). destruct (Z.ltb_spec 0 n) as [Hpos|Hz]; simpl.
    + destruct (IH s n active (k + 1) Hn Hrest) as (-> & Hnd & Hin). split_and!; try done.
      intros c (fd & ch & ? & ? & ?)%Hin. exists fd, ch. split_and!; (done || lia).
    + assert (List.filter (fun pf => 0 <? pfd_revents pf) pfs = []) as E.
      { apply zlen_0. pose proof (zlen_nonneg (List.filter (fun pf => 0 <? pfd_revents pf) pfs)). lia. }
      change (list_omap pollfd (Z * Z)%type (reported m) pfs) with (omap (reported m) pfs).
      assert (omap (reported m) pfs = []) as ->.
      { clear -E. induction pfs as [|x l IH]; simpl in *; [done|]. unfold reported at 1, positive.
        destruct (0 <? pfd_revents x); [done|]. by apply IH. }
      rewrite app_nil_r. split_and!; [done|by apply NoDup_nil_2|set_solver].
Qed.

Lemma filter_answered pfs revs :
  length revs = length pfs ->
  zlen (List.filter (fun pf => positive (pfd_revents pf)) (zip_with answered pfs revs)) =
  zlen (List.filter positive revs).
Proof.
  revert revs. induction pfs as [|pf pfs IH]; intros [|r revs]; simpl; try done. intros [= Hl]%eq_add_S.
  destruct (positive r); rewrite ?zlen_cons, IH; done.
Qed.

(** The answers leave the invariant alone. *)
Lemma answered_ok p s revs :
  length revs = length (pollfds_ p) -> ok p s ->
  ok {| cmap := cmap p; pollfds_ := zip_with answered (pollfds_ p) revs |} s.
Proof.
  intros Hl [Hm Hs]. constructor; simpl.
  - intros fd c E. destruct (Hm fd c E) as (ch & pf & Hc & Hf & Hfd & Hi & Hp & He).
    destruct (lookup_lt_is_Some_2 revs (Z.to_nat (Channel.index_ ch))) as [r Hr];
      [rewrite Hl; by eapply lookup_lt_Some|].
    exists ch, (answered pf r). split_and!; try done. rewrite lookup_zip_with, Hp. simpl. by rewrite Hr.
  - intros i pf' Hi. apply lookup_zip_with_Some in Hi as (pf & r & -> & Hp & _). by apply (Hs i pf).
Qed.

#[global] Instance poll_wait_laws : PollerWaitLaws (P := poll_poller).
Proof.
  intros p s [n revs] Hok [Hl Ha]. cbn [fst snd] in *. pose proof (answered_ok p s revs Hl Hok) as Hok1.
  set (p1 := {| cmap := cmap p; pollfds_ := _ |}) in *. exists p1.
  assert (forall fd, watched p1 fd = watched p fd) as Hw by (intros fd; by apply (watched_agree p s p1 s)).
  change (@Reactor.poll poll_poller poll_wait p s (n, revs)) with (PollPoller.poll p s n revs []).
  change (@ready poll_poller poll_wait p (n, revs)) with (poll_ready p (n, revs)). unfold PollPoller.poll, poll_ready. fold answered.
  cbn [fst snd]. change (zip_with (fun pf r => _) (pollfds_ p) revs) with (zip_with answered (pollfds_ p) revs).
  fold p1. destruct (Z.ltb_spec 0 n) as [Hn|Hn]; [|split_and!; try done; [by apply NoDup_nil_2|set_solver]].
  destruct (Ha Hn) as [En Hpos]. cbn [cmap].
  destruct (fill_entries (cmap p) s n (zip_with answered (pollfds_ p) revs) [] 0) as (Hf & Hnd & Hin).
  { by rewrite filter_answered. }
  { intros i pf' Hi Hr. apply lookup_zip_with_Some in Hi as (pf & r & -> & Hp & Hv). simpl in Hr.
    destruct (slot_live p s i pf Hok Hp) as (c & ch & Hlive); [by eapply Hpos|]. by exists c, ch. }
  change (cmap p1) with (cmap p). rewrite Hf, bind_ok. split_and!; try done.
  - by apply (stamp_ok (H := poll_poller)).
  - intros c (fd & ch & ? & _)%Hin. by exists fd.
Qed.
End PollWait.

(** ** The loop with its channels *)
Module Reactor.
Import ChannelOps.

(** What user code sees happen: a callback of a channel, or a functor it has queued. *)
Inductive event := Called (c : Z) (k : Channel.call) | Ran (f : Z).

(** What user code may do in the loop's thread. *)
Inductive command :=
  | Op (x : cmd)
  | SetCallback (c : Z) (k : Channel.call)
  | Tie (c : Z)
  | Release (c : Z)
  | Destroy (c : Z)
  | Queue (f : Z).

(** The address of the loop. *)
Definition self : Z := 0.

Definition set_callback (k : Channel.call) (ch : Channel.t) : Channel.t :=
  match k with
  | Channel.ReadCall => Channel.setReadCallback ch
  | Channel.WriteCall => Channel.setWriteCallback ch
  | Channel.CloseCall => Channel.setCloseCallback ch
  | Channel.ErrorCall => Channel.setErrorCallback ch
  end.

(** The tests of [handleEventWithGuard]. *)
Definition wants (ch : Channel.t) (k : Channel.call) : bool :=
  let r := Channel.revents_ ch in
  match k with
  | Channel.CloseCall =>
      Channel.has r Channel.POLLHUP && negb (Channel.has r Channel.POLLIN) && Channel.closeCallBack_ ch
  | Channel.ErrorCall =>
      Channel.has r (Z.lor Channel.POLLERR Channel.POLLNVAL) && Channel.errorCallBack_ ch
  | Channel.ReadCall =>
      Channel.has r (Z.lor (Z.lor Channel.POLLIN Channel.POLLPRI) Channel.POLLRDHUP) &&
      Channel.readEventCallBack_ ch
  | Channel.WriteCall => Channel.has r Channel.POLLOUT && Channel.writeCallBack_ ch
  end.
Definition order : list Channel.call := [Channel.CloseCall; Channel.ErrorCall; Channel.ReadCall; Channel.WriteCall].

Lemma wants_guard ch : Channel.handleEventWithGuard ch = List.filter (wants ch) order.
Proof. unfold Channel.handleEventWithGuard, wants, order. simpl. repeat case_match; done. Qed.

Section reactor.
Context `{PW : PollerWait}.

(** [trace] is history. *)
Record t := mk {
  poller_ : pstate;
  channels : store;
  activeChannels_ : list Z;
  currentActiveChannel_ : option Z;
  eventHandling_ : bool;
  pendingFunctors_ : list Z;
  trace : list event;
}.

Definition new : t := mk pnew ∅ [] None false [] [].

Definition with_channels (w : t) (p : pstate) (s : store) : t :=
  mk p s (activeChannels_ w) (currentActiveChannel_ w) (eventHandling_ w) (pendingFunctors_ w) (trace w).
Definition with_queue (w : t) (q : list Z) : t :=
  mk (poller_ w) (channels w) (activeChannels_ w) (currentActiveChannel_ w) (eventHandling_ w) q (trace w).
Definition with_phase (w : t) (handling : bool) (current : option Z) (active : list Z) : t :=
  mk (poller_ w) (channels w) active current handling (pendingFunctors_ w) (trace w).
Definition note (w : t) (e : event) : t :=
  mk (poller_ w) (channels w) (activeChannels_ w) (currentActiveChannel_ w) (eventHandling_ w)
    (pendingFunctors_ w) (trace w ++ [e]).

(** [Channel::update] and [Channel::removeSelfFromLoop], through the loop. *)
Definition modify (f : Z -> Z) (w : t) (c : Z) : outcome t :=
  ch ← deref (channels w !! c) ;
  let ch := Channel.set_added (Channel.set_events ch (f (Channel.events_ ch))) true in
  r ← EventLoop.updateChannel self true (poller_ w) (<[c := ch]> (channels w)) c ;
  mret (with_channels w r.1 r.2).

Definition removeSelfFromLoop (w : t) (c : Z) : outcome t :=
  ch ← deref (channels w !! c) ;
  _ ← assert_ (Channel.isNoneEvent ch) ;
  r ← EventLoop.removeChannel self true (eventHandling_ w) (currentActiveChannel_ w) (activeChannels_ w)
        (poller_ w) (<[c := Channel.set_added ch false]> (channels w)) c ;
  mret (with_channels w r.1 r.2).

Definition change (f : Channel.t -> Channel.t) (w : t) (c : Z) : outcome t :=
  ch ← deref (channels w !! c) ;
  mret (with_channels w (poller_ w) (<[c := f ch]> (channels w))).

Definition exec (w : t) (m : command) : outcome t :=
  match m with
  | Op (Create c fd) => mret (with_channels w (poller_ w) (<[c := Channel.new self fd]> (channels w)))
  | Op (EnableReading c) => modify Channel.enableReading_ev w c
  | Op (DisableReading c) => modify Channel.disableReading_ev w c
  | Op (EnableWriting c) => modify Channel.enableWriting_ev w c
  | Op (DisableWriting c) => modify Channel.disableWriting_ev w c
  | Op (DisableAll c) => modify Channel.disableAll_ev w c
  | Op (Remove c) => removeSelfFromLoop w c
  | SetCallback c k => change (set_callback k) w c
  | Tie c => change Channel.tie w c
  | Release c => change Channel.release w c
  | Destroy c =>
      _ ← ChannelOps.destroy true (poller_ w) (channels w) c ;
      mret (with_channels w (poller_ w) (delete c (channels w)))
  | Queue f => mret (with_queue w (pendingFunctors_ w ++ [f]))
  end.

Fixpoint exec_all (w : t) (ms : list command) : outcome t :=
  match ms with [] => mret w | m :: ms => w ← exec w m ; exec_all w ms end.

(** User code: what runs when the last event of a history happens. *)
Variable code : list event -> list command.

Definition fire (w : t) (e : event) : outcome t :=
  let w := note w e in exec_all w (code (trace w)).

Definition call (w : t) (c : Z) (k : Channel.call) : outcome t :=
  ch ← deref (channels w !! c) ;
  if wants ch k then fire w (Called c k) else mret w.

Fixpoint calls (w : t) (c : Z) (ks : list Channel.call) : outcome t :=
  match ks with [] => mret w | k :: ks => w ← call w c k ; calls w c ks end.

Definition handleEventWithGuard (w : t) (c : Z) : outcome t :=
  w ← change (fun ch => Channel.set_handling ch true) w c ;
  w ← calls w c order ;
  change (fun ch => Channel.set_handling ch false) w c.

Definition handleEvent (w : t) (c : Z) : outcome t :=
  ch ← deref (channels w !! c) ;
  if Channel.tied_ ch then (if Channel.tie_ ch then handleEventWithGuard w c else mret w)
  else handleEventWithGuard w c.

(** The loop over [activeChannels_]. *)
Fixpoint dispatch (w : t) (active : list Z) : outcome t :=
  match active with
  | [] => mret w
  | c :: active =>
      w ← handleEvent (with_phase w (eventHandling_ w) (Some c) (activeChannels_ w)) c ;
      dispatch w active
  end.

Fixpoint call_functors (w : t) (fs : list Z) : outcome t :=
  match fs with [] => mret w | f :: fs => w ← fire w (Ran f) ; call_functors w fs end.

Definition doPendingFunctors (w : t) : outcome t := call_functors (with_queue w []) (pendingFunctors_ w).

(** One turn of [while (!quit_)] in [EventLoop::loop]; [poll] is given the cleared
    [activeChannels_]. *)
Definition turn (w : t) (a : answer) : outcome t :=
  r ← poll (poller_ w) (channels w) a ;
  let w := with_phase (with_channels w r.1.1 r.1.2) true (currentActiveChannel_ w) r.2 in
  w ← dispatch w r.2 ;
  doPendingFunctors (with_phase w false None (activeChannels_ w)).

(** A life of the loop: commands before and between turns, and turns. *)
Definition action : Type := list command + answer.

Definition act (w : t) (x : action) : outcome t :=
  match x with inl ms => exec_all w ms | inr a => turn w a end.

Fixpoint run (w : t) (xs : list action) : outcome t :=
  match xs with [] => mret w | x :: xs => w ← act w x ; run w xs end.

(** Every answer of the system along the way is a possible one. *)
Fixpoint possible_run (w : t) (xs : list action) : Prop :=
  match xs with
  | [] => True
  | x :: xs =>
      match x with inl _ => True | inr a => possible (poller_ w) a end /\
      match act w x with Ok w => possible_run w xs | _ => True end
  end.

(** What is reported along the way. *)
Fixpoint reports (w : t) (xs : list action) : list (list command + list (Z * Z)) :=
  match xs with
  | [] => []
  | x :: xs =>
      match x with inl ms => inl ms | inr a => inr (ready (poller_ w) a) end ::
      match act w x with Ok w => reports w xs | _ => [] end
  end.
End reactor.

(** ** The specification

    Registrations ([cells]), the rest of each channel ([shapes]), the queue of functors and
    the history; [None] where a client breaks the rules.  There is no poller in it. *)
Record spec := mk_spec {
  cells : gmap Z cell;
  shapes : gmap Z Channel.t;
  queue : list Z;
  history : list event;
}.

Definition shape (ch : Channel.t) : Channel.t :=
  Channel.set_handling (Channel.set_fields ch 0 0 0 false) false.

(** While events are dispatched: the channel that is handling them, and all that were
    reported. *)
Abbreviation phase := (option (Z * list Z)) (only parsing).
Definition handling (ph : phase) (c : Z) : bool := match ph with Some (cur, _) => cur =? c | None => false end.
Definition removable (ph : phase) (c : Z) : bool :=
  match ph with Some (cur, active) => (cur =? c) || bool_decide (c ∉ active) | None => true end.

Definition s_change (f : Channel.t -> Channel.t) (x : spec) (c : Z) : option spec :=
  sh ← shapes x !! c ; Some (mk_spec (cells x) (<[c := f sh]> (shapes x)) (queue x) (history x)).

Definition s_exec (ph : phase) (x : spec) (m : command) : option spec :=
  match m with
  | Op (Create c fd) =>
      a ← astep (cells x) (Create c fd) ;
      Some (mk_spec a (<[c := shape (Channel.new self fd)]> (shapes x)) (queue x) (history x))
  | Op (Remove c) =>
      if removable ph c then
        a ← astep (cells x) (Remove c) ; Some (mk_spec a (shapes x) (queue x) (history x))
      else None
  | Op o => a ← astep (cells x) o ; Some (mk_spec a (shapes x) (queue x) (history x))
  | SetCallback c k => s_change (set_callback k) x c
  | Tie c => s_change Channel.tie x c
  | Release c => s_change Channel.release x c
  | Destroy c =>
      y ← cells x !! c ;
      if bool_decide (a_st y = Registered) || handling ph c then None
      else Some (mk_spec (delete c (cells x)) (delete c (shapes x)) (queue x) (history x))
  | Queue f => Some (mk_spec (cells x) (shapes x) (queue x ++ [f]) (history x))
  end.

Fixpoint s_exec_all (ph : phase) (x : spec) (ms : list command) : option spec :=
  match ms with [] => Some x | m :: ms => x ← s_exec ph x m ; s_exec_all ph x ms end.

Section spec.
Variable code : list event -> list command.

Definition s_fire (ph : phase) (x : spec) (e : event) : option spec :=
  let h := history x ++ [e] in s_exec_all ph (mk_spec (cells x) (shapes x) (queue x) h) (code h).

Definition s_call (ph : phase) (x : spec) (c r : Z) (k : Channel.call) : option spec :=
  sh ← shapes x !! c ;
  if wants (Channel.set_revent sh r) k then s_fire ph x (Called c k) else Some x.

Fixpoint s_calls (ph : phase) (x : spec) (c r : Z) (ks : list Channel.call) : option spec :=
  match ks with [] => Some x | k :: ks => x ← s_call ph x c r k ; s_calls ph x c r ks end.

Definition s_handle (active : list Z) (x : spec) (c r : Z) : option spec :=
  sh ← shapes x !! c ;
  if Channel.tied_ sh && negb (Channel.tie_ sh) then Some x else s_calls (Some (c, active)) x c r order.

Fixpoint s_dispatch (active : list Z) (x : spec) (l : list (Z * Z)) : option spec :=
  match l with [] => Some x | (c, r) :: l => x ← s_handle active x c r ; s_dispatch active x l end.

Fixpoint s_functors (x : spec) (fs : list Z) : option spec :=
  match fs with [] => Some x | f :: fs => x ← s_fire None x (Ran f) ; s_functors x fs end.

(** A turn, given what the poller reports. *)
Definition s_turn (x : spec) (l : list (Z * Z)) : option spec :=
  x ← s_dispatch (map fst l) x l ;
  s_functors (mk_spec (cells x) (shapes x) [] (history x)) (queue x).

Fixpoint s_run (x : spec) (xs : list (list command + list (Z * Z))) : option spec :=
  match xs with
  | [] => Some x
  | inl ms :: xs => x ← s_exec_all None x ms ; s_run x xs
  | inr l :: xs => x ← s_turn x l ; s_run x xs
  end.
End spec.

(** *** What a turn does, without its steps *)

(** The functors that commands queue. *)
Definition queued (m : command) : option Z := match m with Queue f => Some f | _ => None end.

(** The functors queued while events [es] happen after the history [h]. *)
Fixpoint posted (code : list event -> list command) (h es : list event) : list Z :=
  match es with
  | [] => []
  | e :: es => omap queued (code (h ++ [e])) ++ posted code (h ++ [e]) es
  end.

(** The callbacks of the reported channels, one channel after the other. *)
Definition callbacks (m : gmap Z Channel.t) (x : Z * Z) : list event :=
  match m !! x.1 with Some ch => Called x.1 <$> Channel.handleEvent (Channel.set_revent ch x.2) | None => [] end.

Definition round (m : gmap Z Channel.t) (l : list (Z * Z)) : list event := l ≫= callbacks m.

(** A command that leaves callbacks and ties of these channels alone. *)
Definition spares (active : list Z) (m : command) : bool :=
  match m with
  | SetCallback c _ | Tie c | Release c => bool_decide (c ∉ active)
  | _ => true
  end.

(** The code that runs at these events spares the channels. *)
Fixpoint sparing (code : list event -> list command) (active : list Z) (h es : list event) : bool :=
  match es with
  | [] => true
  | e :: es => forallb (spares active) (code (h ++ [e])) && sparing code active (h ++ [e]) es
  end.

Definition s_new : spec := mk_spec ∅ ∅ [] [].

(** ** Refinement *)
Section refinement.
Context {P : Poller} {PL : PollerLaws (H := P)} {PW : PollerWait (P := P)} {WL : PollerWaitLaws (P := P)}.

Definition in_phase (ph : phase) (w : t) : Prop :=
  match ph with
  | Some (cur, active) => eventHandling_ w = true /\ currentActiveChannel_ w = Some cur /\ activeChannels_ w = active
  | None => eventHandling_ w = false
  end.

Record refines (ph : phase) (w : t) (x : spec) : Prop := mk_refines {
  w_rel : rel_at (h := handling ph) (poller_ w) (channels w) (cells x);
  w_shape c : shape <$> channels w !! c = shapes x !! c;
  w_self c sh : shapes x !! c = Some sh -> Channel.loop_ sh = self;
  w_phase : in_phase ph w;
  w_current cur active : ph = Some (cur, active) -> is_Some (cells x !! cur);
  w_queue : pendingFunctors_ w = queue x;
  w_trace : trace w = history x;
}.

(** A channel that is still to be handled, or being handled, keeps what was reported. *)
Definition protected (ph : phase) (x : spec) (c : Z) : Prop :=
  match ph with
  | Some (cur, active) => c ∈ active /\ exists y, cells x !! c = Some y /\ (c <> cur -> a_st y = Registered)
  | None => False
  end.
Definition keeps (ph : phase) (w w' : t) (x x' : spec) : Prop :=
  forall c, protected ph x c -> protected ph x' c /\
    Channel.revents_ <$> channels w' !! c = Channel.revents_ <$> channels w !! c.

Lemma keeps_refl ph w x : keeps ph w w x x.
Proof. by intros c H. Qed.
Lemma keeps_trans ph w1 w2 w3 x1 x2 x3 :
  keeps ph w1 w2 x1 x2 -> keeps ph w2 w3 x2 x3 -> keeps ph w1 w3 x1 x3.
Proof. intros H1 H2 c H. destruct (H1 c H) as [Hp E]. destruct (H2 c Hp) as [Hp' E']. split; [done|congruence]. Qed.

(** *** Changes of a channel that the poller does not look at *)
Lemma rel_same (h h' : Z -> bool) p (s : store) a c ch ch' :
  rel_at (h := h) p s a -> s !! c = Some ch ->
  Channel.fd_ ch' = Channel.fd_ ch -> Channel.events_ ch' = Channel.events_ ch ->
  Channel.index_ ch' = Channel.index_ ch -> Channel.addedToLoop_ ch' = Channel.addedToLoop_ ch ->
  Channel.eventHandling_ ch' = h' c -> (forall c', c' <> c -> h' c' = h c') ->
  rel_at (h := h') p (<[c := ch']> s) a.
Proof.
  intros HR Hc Hf He Hi Had Hh Hother. constructor.
  - eapply poller_ok_other; [apply HR|done..].
  - intros c0 y Hy. destruct (r_cell p s a HR c0 y Hy) as (ch0 & Hc0 & Hrest).
    destruct (decide (c0 = c)) as [->|]; [|exists ch0; by rewrite lookup_insert_ne].
    exists ch'. rewrite lookup_insert_eq, Hf, He, Hi. assert (ch0 = ch) as -> by congruence. done.
  - intros c0 Hn. pose proof (r_dom p s a HR c0 Hn). rewrite lookup_insert_ne by congruence. done.
  - apply HR.
  - apply HR.
  - intros c0 y ch0 Hy. rewrite lookup_insert_Some. intros [[<- <-]|[Hne Hc0]].
    + destruct (r_added p s a HR c y ch Hy Hc). split; [congruence|done].
    + rewrite Hother by done. by apply (r_added p s a HR).
Qed.

(** A channel that is not registered ends. *)
Lemma rel_destroy (h : Z -> bool) p (s : store) a c y :
  rel_at (h := h) p s a -> a !! c = Some y -> a_st y <> Registered ->
  rel_at (h := h) p (delete c s) (delete c a).
Proof.
  intros HR Hy Hst. destruct (r_cell p s a HR c y Hy) as (ch & Hc & Hfd & _ & _ & _ & _ & Hiff).
  assert (forall fd c0, channelMap_ p !! fd = Some c0 -> c <> c0) as Hne.
  { intros fd c0 Hm <-. destruct (r_map p s a HR fd c Hm) as (y' & Hy' & Hf).
    assert (y' = y) as -> by congruence. apply Hst, Hiff. by rewrite Hf. }
  constructor.
  - eapply poller_ok_destroy; [apply HR|done|]. rewrite Hfd. intros E. by eapply Hne.
  - intros c0 y0 [Hn Hy0]%lookup_delete_Some. rewrite lookup_delete_ne by done. by apply (r_cell p s a HR).
  - intros c0. rewrite lookup_delete_None. intros [<-|Hn]; [apply lookup_delete_eq|].
    apply lookup_delete_None. right. by apply (r_dom p s a HR).
  - intros fd c0 Hm. rewrite lookup_delete_ne by by eapply Hne. by apply (r_map p s a HR).
  - intros fd. rewrite (r_watch p s a HR). unfold aevents.
    destruct (channelMap_ p !! fd) as [c0|] eqn:Hm; [|done]. by rewrite lookup_delete_ne by by eapply Hne.
  - intros c0 y0 ch0 [_ Hy0]%lookup_delete_Some [_ Hc0]%lookup_delete_Some. by apply (r_added p s a HR c0 y0 ch0).
Qed.

Lemma shape_outline (o o' : option Channel.t) : outline <$> o' = outline <$> o -> shape <$> o' = shape <$> o.
Proof.
  assert (forall ch, shape ch = shape (outline ch)) as E by by intros [].
  destruct o as [ch|], o' as [ch'|]; simpl; try done. intros Ho.
  assert (outline ch' = outline ch) as Ho' by congruence. f_equal. by rewrite (E ch), (E ch'), Ho'.
Qed.

Lemma revents_outline (o o' : option Channel.t) :
  outline <$> o' = outline <$> o -> Channel.revents_ <$> o' = Channel.revents_ <$> o.
Proof.
  destruct o as [ch|], o' as [ch'|]; simpl; try done. intros Ho.
  assert (outline ch' = outline ch) as Ho' by congruence. f_equal. by apply (f_equal Channel.revents_) in Ho'.
Qed.

Lemma refines_owner ph w x c ch :
  refines ph w x -> channels w !! c = Some ch -> Channel.loop_ ch = self.
Proof.
  intros Hr Hc. pose proof (w_shape _ _ _ Hr c) as E. rewrite Hc in E. symmetry in E.
  exact (w_self _ _ _ Hr c _ E).
Qed.

Lemma modify_eq ph w x f c ch :
  refines ph w x -> channels w !! c = Some ch ->
  modify f w c = (r ← ChannelOps.modify f true (poller_ w) (channels w) c ; mret (with_channels w r.1 r.2)).
Proof.
  intros Hr Hc. unfold modify, ChannelOps.modify, ChannelOps.update, EventLoop.updateChannel. rewrite Hc. simpl.
  rewrite !lookup_insert_eq. simpl. rewrite insert_insert_eq. unfold Channel.ownerLoop. simpl.
  by rewrite (refines_owner _ _ _ _ _ Hr Hc).
Qed.

Lemma remove_eq ph w x c ch :
  refines ph w x -> channels w !! c = Some ch -> removable ph c = true ->
  removeSelfFromLoop w c =
    (r ← ChannelOps.removeSelfFromLoop true (poller_ w) (channels w) c ; mret (with_channels w r.1 r.2)).
Proof.
  intros Hr Hc Hrm. unfold removeSelfFromLoop, ChannelOps.removeSelfFromLoop, EventLoop.removeChannel.
  rewrite Hc. simpl. destruct (Channel.isNoneEvent ch); [|done]. simpl. rewrite lookup_insert_eq. simpl.
  unfold Channel.ownerLoop. simpl. rewrite (refines_owner _ _ _ _ _ Hr Hc). simpl.
  pose proof (w_phase _ _ _ Hr) as Hp. destruct ph as [[cur active]|]; simpl in Hp, Hrm; [|by rewrite Hp].
  destruct Hp as (-> & -> & ->). rewrite assert_pass; [done|].
  destruct (Z.eqb_spec cur c) as [->|]; [by rewrite bool_decide_true|]. simpl in Hrm. by rewrite Hrm, orb_true_r.
Qed.

(** *** Commands *)

(** What an operation on a registration does to the cells. *)
Lemma astep_cell a o a' c y :
  astep a o = Some a' -> a !! c = Some y ->
  exists y', a' !! c = Some y' /\ (a_st y = Registered -> a_st y' = Registered \/ o = Remove c).
Proof.
  assert (forall f c0, aupdate f a c0 = Some a' -> a !! c = Some y ->
    exists y', a' !! c = Some y' /\ (a_st y = Registered -> a_st y' = Registered \/ o = Remove c)) as Hup.
  { intros f c0 Ha Hy. unfold aupdate in Ha. destruct (a !! c0) as [z|] eqn:Ez; [|done].
    assert (a' = <[c0 := mk_cell (a_fd z) (f (a_ev z)) Registered]> a) as ->
      by (destruct (a_st z); simplify_eq; [by destruct (free_fd a (a_fd z)); simplify_eq|done]).
    destruct (decide (c0 = c)) as [->|]; [rewrite lookup_insert_eq; eauto|rewrite lookup_insert_ne by done; eauto]. }
  intros Ha Hy. destruct o as [c0 fd|c0|c0|c0|c0|c0|c0]; simpl in Ha; try (by eapply Hup).
  - destruct (a !! c0) eqn:Ec; [done|]. destruct (0 <=? fd); simplify_eq. rewrite lookup_insert_ne by congruence. eauto.
  - destruct (a !! c0) as [z|] eqn:Ez; [|done]. destruct (a_st z); simplify_eq. destruct (a_ev z =? 0); simplify_eq.
    destruct (decide (c0 = c)) as [->|]; [rewrite lookup_insert_eq; eauto|rewrite lookup_insert_ne by done; eauto].
Qed.

Lemma registration_refines ph w x o a :
  refines ph w x -> astep (cells x) o = Some a -> (forall c fd, o <> Create c fd) ->
  (forall c, o = Remove c -> removable ph c = true) ->
  let x' := mk_spec a (shapes x) (queue x) (history x) in
  exists w', exec w (Op o) = Ok w' /\ refines ph w' x' /\ keeps ph w w' x x'.
Proof.
  intros Hr Ha Hnc Hrm x'.
  destruct (exec_refines (h := handling ph) (poller_ w) (channels w) (cells x) o a (w_rel _ _ _ Hr) Ha)
    as (p' & s' & He & HR & Hout); [by destruct o; [by destruct (Hnc c fd)|..]|].
  exists (with_channels w p' s').
  assert (forall c, outline <$> s' !! c = outline <$> channels w !! c) as Ho by (intros c; by apply Hout).
  split; [|split].
  - assert (forall c ch', s' !! c = Some ch' -> exists ch, channels w !! c = Some ch) as Hex.
    { intros c ch' E. specialize (Ho c). rewrite E in Ho. destruct (channels w !! c); [eauto|done]. }
    assert (forall f c, ChannelOps.modify f true (poller_ w) (channels w) c = Ok (p', s') ->
      modify f w c = Ok (with_channels w p' s')) as Hm.
    { intros f c E. destruct (channels w !! c) as [ch|] eqn:Ec; [|by unfold ChannelOps.modify in E; rewrite Ec in E].
      by rewrite (modify_eq ph w x f c ch Hr Ec), E. }
    destruct o as [c fd|c|c|c|c|c|c]; simpl in He |- *; [by destruct (Hnc c fd)|by apply Hm..|].
    destruct (channels w !! c) as [ch|] eqn:Ec; [|by unfold ChannelOps.removeSelfFromLoop in He; rewrite Ec in He].
    by rewrite (remove_eq ph w x c ch Hr Ec (Hrm c eq_refl)), He.
  - constructor; simpl; try done; try apply Hr.
    + intros c. rewrite (shape_outline _ _ (Ho c)). apply Hr.
    + intros cur active Ep. destruct (w_current _ _ _ Hr cur active Ep) as [y Hy].
      destruct (astep_cell _ _ _ _ _ Ha Hy) as (y' & ? & _). by exists y'.
  - intros c Hp. split; [|by apply revents_outline]. destruct ph as [[cur active]|]; [|done].
    destruct Hp as (Hin & y & Hy & Hst). split; [done|]. destruct (astep_cell _ _ _ _ _ Ha Hy) as (y' & Hy' & Hs').
    exists y'. split; [done|]. intros Hne. destruct (Hs' (Hst Hne)) as [?| ->]; [done|].
    specialize (Hrm c eq_refl). simpl in Hrm. rewrite (proj2 (Z.eqb_neq _ _)) in Hrm by congruence. simpl in Hrm.
    by apply bool_decide_eq_true_1 in Hrm.
Qed.

Lemma create_command ph w x c fd x' :
  refines ph w x -> s_exec ph x (Op (Create c fd)) = Some x' ->
  exists w', exec w (Op (Create c fd)) = Ok w' /\ refines ph w' x' /\ keeps ph w w' x x'.
Proof.
  intros Hr Ha. simpl in Ha. destruct (cells x !! c) eqn:Ec; [done|]. destruct (Z.leb_spec 0 fd); [|done].
  simpl in Ha. simplify_eq. eexists. split; [done|].
  assert (handling ph c = false) as Hh.
  { destruct ph as [[cur active]|]; [|done]. simpl. apply Z.eqb_neq. intros ->.
    destruct (w_current _ _ _ Hr c active eq_refl). congruence. }
  split.
  - constructor; simpl; try done; try apply Hr.
    + apply create_refines; [apply Hr|done..].
    + intros c0. destruct (decide (c = c0)) as [->|]; [by rewrite !lookup_insert_eq|].
      rewrite !lookup_insert_ne by done. apply Hr.
    + intros c0 sh. rewrite lookup_insert_Some. intros [[-> <-]|[_ Hs]]; [done|by eapply Hr].
    + intros cur active Ep. destruct (w_current _ _ _ Hr cur active Ep) as [y Hy]. exists y.
      by rewrite lookup_insert_ne by congruence.
  - intros c0 Hp. destruct ph as [[cur active]|]; [|done]. destruct Hp as (Hin & y & Hy & Hst).
    assert (c <> c0) by congruence. simpl. rewrite !lookup_insert_ne by done. eauto.
Qed.

(** Changes that only touch callbacks and the tie. *)
Definition harmless (f : Channel.t -> Channel.t) : Prop :=
  forall ch, shape (f ch) = f (shape ch) /\ Channel.fd_ (f ch) = Channel.fd_ ch /\
    Channel.events_ (f ch) = Channel.events_ ch /\ Channel.index_ (f ch) = Channel.index_ ch /\
    Channel.addedToLoop_ (f ch) = Channel.addedToLoop_ ch /\
    Channel.eventHandling_ (f ch) = Channel.eventHandling_ ch /\
    Channel.revents_ (f ch) = Channel.revents_ ch /\ Channel.loop_ (f ch) = Channel.loop_ ch.

Lemma change_command ph w x f c x' :
  harmless f -> refines ph w x -> s_change f x c = Some x' ->
  exists w', change f w c = Ok w' /\ refines ph w' x' /\ keeps ph w w' x x'.
Proof.
  intros Hf Hr Ha. unfold s_change in Ha. destruct (shapes x !! c) as [sh|] eqn:Es; [|done]. simpl in Ha. simplify_eq.
  pose proof (w_shape _ _ _ Hr c) as Hs. rewrite Es in Hs. destruct (channels w !! c) as [ch|] eqn:Ec; [|done].
  simpl in Hs. simplify_eq. destruct (Hf ch) as (Hsh & Hfd & Hev & Hi & Had & Hh & Hrv & Hl).
  unfold change. rewrite Ec. simpl. eexists. split; [done|].
  assert (is_Some (cells x !! c)) as [y Hy].
  { destruct (cells x !! c) eqn:E; [by eexists|]. pose proof (r_dom _ _ _ (w_rel _ _ _ Hr) c E). congruence. }
  split.
  - constructor; simpl; try done; try apply Hr.
    + eapply (rel_same (handling ph)); [apply Hr|done..| |done]. rewrite Hh.
      by destruct (r_added _ _ _ (w_rel _ _ _ Hr) c y ch Hy Ec).
    + intros c0. destruct (decide (c = c0)) as [->|]; [rewrite !lookup_insert_eq; simpl; by rewrite Hsh|].
      rewrite !lookup_insert_ne by done. apply Hr.
    + intros c0 sh. rewrite lookup_insert_Some. intros [[-> <-]|[_ Hs]]; [|by eapply Hr].
      destruct (Hf (shape ch)) as (_ & _ & _ & _ & _ & _ & _ & ->). by eapply Hr.
  - intros c0 Hp. split; [by destruct ph as [[]|]|]. simpl.
    destruct (decide (c = c0)) as [->|]; [|by rewrite lookup_insert_ne]. rewrite lookup_insert_eq, Ec. simpl. by rewrite Hrv.
Qed.

Lemma destroy_command ph w x c x' :
  refines ph w x -> s_exec ph x (Destroy c) = Some x' ->
  exists w', exec w (Destroy c) = Ok w' /\ refines ph w' x' /\ keeps ph w w' x x'.
Proof.
  intros Hr Ha. simpl in Ha. destruct (cells x !! c) as [y|] eqn:Ey; [|done]. simpl in Ha.
  destruct (bool_decide (a_st y = Registered)) eqn:Est; [done|]. apply bool_decide_eq_false_1 in Est.
  destruct (handling ph c) eqn:Eh; [done|]. simpl in Ha. simplify_eq. simpl.
  rewrite (destroy_refines (h := handling ph) _ _ _ c y (w_rel _ _ _ Hr) Ey Est Eh). simpl. eexists. split; [done|].
  assert (forall cur active, ph = Some (cur, active) -> c <> cur) as Hne.
  { intros cur active -> ->. simpl in Eh. by rewrite Z.eqb_refl in Eh. }
  split.
  - constructor; simpl; try done; try apply Hr.
    + eapply rel_destroy; [apply Hr|done..].
    + intros c0. destruct (decide (c = c0)) as [->|]; [by rewrite !lookup_delete_eq|].
      rewrite !lookup_delete_ne by done. apply Hr.
    + intros c0 sh [_ Hs]%lookup_delete_Some. by eapply Hr.
    + intros cur active Ep. rewrite lookup_delete_ne by by eapply Hne. by eapply Hr.
  - intros c0 Hp. destruct ph as [[cur active]|]; [|done]. destruct Hp as (Hin & y0 & Hy0 & Hst).
    assert (c <> c0). { intros ->. simplify_eq. apply Est, Hst. symmetry. by eapply not_eq_sym, Hne. }
    simpl. rewrite !lookup_delete_ne by done. eauto.
Qed.

Lemma set_callback_harmless k : harmless (set_callback k).
Proof. intros []. by destruct k. Qed.
Lemma tie_harmless : harmless Channel.tie.
Proof. by intros []. Qed.
Lemma release_harmless : harmless Channel.release.
Proof. by intros []. Qed.

(** A command that the specification allows passes every assertion and does the same. *)
Lemma command_refines ph w x m x' :
  refines ph w x -> s_exec ph x m = Some x' ->
  exists w', exec w m = Ok w' /\ refines ph w' x' /\ keeps ph w w' x x'.
Proof.
  intros Hr Hs. destruct m as [o|c k|c|c|c|f].
  - assert ((exists c fd, o = Create c fd) \/ forall c fd, o <> Create c fd) as [(c & fd & ->)|Hnc]
      by (destruct o; eauto; by right); [by eapply create_command|].
    assert (exists a, astep (cells x) o = Some a /\ x' = mk_spec a (shapes x) (queue x) (history x) /\
      forall c, o = Remove c -> removable ph c = true) as (a & Ha & -> & Hrm).
    { destruct o as [c fd|c|c|c|c|c|c]; cbn [s_exec] in Hs;
        [by destruct (Hnc c fd)|try (by apply bind_Some in Hs as (a & ? & [= <-]); exists a)..].
      destruct (removable ph c) eqn:Erm; [|done]. apply bind_Some in Hs as (a & ? & [= <-]). exists a.
      split_and!; try done. by intros ? [= ->]. }
    by apply registration_refines.
  - by apply (change_command _ _ _ _ _ _ (set_callback_harmless k)).
  - by apply (change_command _ _ _ _ _ _ tie_harmless).
  - by apply (change_command _ _ _ _ _ _ release_harmless).
  - by apply destroy_command.
  - injection Hs as <-. eexists. split; [done|]. split; [|by intros c Hp; split; [by destruct ph as [[]|]|]].
    destruct Hr as [? ? ? Hph ? Hq ?]. constructor; simpl; try done. by rewrite Hq.
Qed.

Lemma commands_refine ph ms w x x' :
  refines ph w x -> s_exec_all ph x ms = Some x' ->
  exists w', exec_all w ms = Ok w' /\ refines ph w' x' /\ keeps ph w w' x x'.
Proof.
  revert w x. induction ms as [|m ms IH]; intros w x Hr Hs; simpl in Hs.
  { injection Hs as <-. exists w. split_and!; [done..|apply keeps_refl]. }
  apply bind_Some in Hs as (x1 & Hs1 & Hs2). destruct (command_refines _ _ _ _ _ Hr Hs1) as (w1 & E1 & Hr1 & Hk1).
  destruct (IH _ _ Hr1 Hs2) as (w' & E' & Hr' & Hk'). exists w'. simpl. rewrite E1.
  split_and!; [done..|by eapply keeps_trans].
Qed.

(** The rules for removal and destruction are those the assertions check: a client that
    breaks one stops the program. *)
Lemma rules_needed ph w x c y :
  refines ph w x -> cells x !! c = Some y ->
  (a_st y = Registered -> a_ev y = 0 -> removable ph c = false -> exec w (Op (Remove c)) = Fault AssertFailed) /\
  (a_st y = Registered \/ handling ph c = true -> exec w (Destroy c) = Fault AssertFailed).
Proof.
  intros Hr Hy. destruct (r_cell _ _ _ (w_rel _ _ _ Hr) c y Hy) as (ch & Hc & _ & Hev & _).
  destruct (r_added _ _ _ (w_rel _ _ _ Hr) c y ch Hy Hc) as [Had Hh]. split.
  - intros Hst Hz Hrm. simpl. unfold removeSelfFromLoop, EventLoop.removeChannel. rewrite Hc. simpl.
    unfold Channel.isNoneEvent. rewrite Hev, Hz. simpl. rewrite lookup_insert_eq. simpl.
    unfold Channel.ownerLoop. simpl. rewrite (refines_owner _ _ _ _ _ Hr Hc). simpl.
    pose proof (w_phase _ _ _ Hr) as Hp. destruct ph as [[cur active]|]; [|done]. destruct Hp as (-> & -> & ->).
    simpl in Hrm. apply orb_false_iff in Hrm as [Hne%Z.eqb_neq Hin]. rewrite assert_stop; [done|].
    rewrite Hin, orb_false_r. apply bool_decide_eq_false_2. congruence.
  - intros Hor. simpl. unfold ChannelOps.destroy. rewrite Hc. simpl. rewrite Had, Hh.
    destruct (handling ph c); [done|]. destruct Hor as [->|]; done.
Qed.

(** *** Callbacks *)
Variable code : list event -> list command.

Lemma fire_refines ph w x e x' :
  refines ph w x -> s_fire code ph x e = Some x' ->
  exists w', fire code w e = Ok w' /\ refines ph w' x' /\ keeps ph w w' x x'.
Proof.
  intros Hr Hs. unfold fire, s_fire in *. simpl. rewrite (w_trace _ _ _ Hr).
  apply (commands_refine ph _ (note w e)) in Hs as (w' & ? & ? & Hk); [by exists w'|].
  destruct Hr as [? ? ? Hph ? ? Ht]. constructor; simpl; try done. by rewrite Ht.
Qed.

Lemma wants_shape ch k : wants (Channel.set_revent (shape ch) (Channel.revents_ ch)) k = wants ch k.
Proof. by destruct ch, k. Qed.

Lemma calls_refine active c r ks w x x' :
  let ph := Some (c, active) in
  refines ph w x -> Channel.revents_ <$> channels w !! c = Some r -> protected ph x c ->
  s_calls code ph x c r ks = Some x' ->
  exists w', calls code w c ks = Ok w' /\ refines ph w' x' /\ keeps ph w w' x x'.
Proof.
  intros ph. revert w x. induction ks as [|k ks IH]; intros w x Hr Hrev Hp Hs; simpl in Hs.
  { injection Hs as <-. exists w. split_and!; [done..|apply keeps_refl]. }
  apply bind_Some in Hs as (x1 & Hs1 & Hs2). simpl. unfold s_call in Hs1. unfold call.
  pose proof (w_shape _ _ _ Hr c) as Hsh. destruct (channels w !! c) as [ch|] eqn:Ec; [|done]. injection Hrev as <-.
  simpl in *. rewrite <- Hsh in Hs1. simpl in Hs1. rewrite wants_shape in Hs1. destruct (wants ch k).
  - destruct (fire_refines _ _ _ _ _ Hr Hs1) as (w1 & -> & Hr1 & Hk1). destruct (Hk1 c Hp) as [Hp1 Hrev1].
    rewrite Ec in Hrev1. destruct (IH _ _ Hr1 Hrev1 Hp1 Hs2) as (w' & E' & Hr' & Hk').
    exists w'. split_and!; [done..|by eapply keeps_trans].
  - injection Hs1 as <-. apply IH; [done| |done..]. by rewrite Ec.
Qed.

(** *** Dispatch *)
Lemma change_ok f w c ch :
  channels w !! c = Some ch -> change f w c = Ok (with_channels w (poller_ w) (<[c := f ch]> (channels w))).
Proof. intros Hc. unfold change. by rewrite Hc. Qed.

(** The state between two handlers. *)
Definition idle (w : t) : t := with_phase w false None (activeChannels_ w).

Lemma live_cell ph w x c ch : refines ph w x -> channels w !! c = Some ch -> is_Some (cells x !! c).
Proof.
  intros Hr Hc. destruct (cells x !! c) eqn:E; [by eexists|].
  pose proof (r_dom _ _ _ (w_rel _ _ _ Hr) c E). congruence.
Qed.

(** A handler starts or ends: the flag of the channel follows the phase. *)
Lemma switch ph ph' w x c ch e cur active :
  refines ph w x -> channels w !! c = Some ch -> (forall c', c' <> c -> handling ph' c' = handling ph c') ->
  let w' := with_phase w e cur active in
  in_phase ph' w' -> (forall c' l, ph' = Some (c', l) -> c' = c) ->
  refines ph' (with_channels w' (poller_ w) (<[c := Channel.set_handling ch (handling ph' c)]> (channels w))) x.
Proof.
  intros Hr Hc Hother w' Hph Hcur. pose proof (live_cell _ _ _ _ _ Hr Hc) as Hy.
  destruct Hr as [HR Hsh Hself _ _ Hq Ht]. constructor; simpl; try done.
  - eapply (rel_same (handling ph)); done.
  - intros c0. destruct (decide (c = c0)) as [<-|]; [|by rewrite lookup_insert_ne].
    by rewrite lookup_insert_eq, <- Hsh, Hc.
  - by intros c0 l ->%Hcur.
Qed.

(** Channels reported and not yet handled. *)
Definition pending (w : t) (x : spec) (l : list (Z * Z)) : Prop :=
  NoDup (map fst l) /\
  forall c r, (c, r) ∈ l -> c ∈ activeChannels_ w /\
    (exists y, cells x !! c = Some y /\ a_st y = Registered) /\
    Channel.revents_ <$> channels w !! c = Some r.

Lemma pending_keeps cur active w w' x x' l :
  activeChannels_ w = active -> activeChannels_ w' = active -> cur ∉ map fst l ->
  keeps (Some (cur, active)) w w' x x' -> pending w x l -> pending w' x' l.
Proof.
  intros <- Ea Hcur Hk [Hnd Hp]. split; [done|]. intros c r Hin. destruct (Hp c r Hin) as (Hac & (y & Hy & Hst) & Hrev).
  assert (c <> cur) as Hne. { intros ->. apply Hcur, list_elem_of_fmap. by exists (cur, r). }
  destruct (Hk c) as [(_ & y' & Hy' & Hst') Hrev']; [by split; [|exists y]|].
  split_and!; [by rewrite Ea| |congruence]. exists y'. eauto.
Qed.

Lemma guard_refines w x c r l x' :
  refines None (idle w) x -> eventHandling_ w = true -> pending w x ((c, r) :: l) ->
  s_calls code (Some (c, activeChannels_ w)) x c r order = Some x' ->
  exists w', handleEventWithGuard code (with_phase w true (Some c) (activeChannels_ w)) c = Ok w' /\
    refines None (idle w') x' /\ eventHandling_ w' = true /\ activeChannels_ w' = activeChannels_ w /\ pending w' x' l.
Proof.
  intros Hr He [[Hni Hnd]%NoDup_cons Hp] Hs. destruct (Hp c r) as (Hac & (y & Hy & Hst) & Hrev); [set_solver|].
  destruct (channels w !! c) as [ch|] eqn:Ec; [|done]. injection Hrev as <-.
  set (ph := Some (c, activeChannels_ w)) in *. unfold handleEventWithGuard.
  rewrite (change_ok _ (with_phase w true (Some c) (activeChannels_ w)) c ch Ec), bind_ok. set (w1 := with_channels _ _ _).
  assert (refines ph w1 x) as Hr1.
  { pose proof (switch None ph (idle w) x c ch true (Some c) (activeChannels_ w) Hr Ec) as Hsw.
    simpl in Hsw. rewrite Z.eqb_refl in Hsw. apply Hsw; [|done|by intros ? ? [= -> _]].
    intros c' Hne. apply Z.eqb_neq. congruence. }
  assert (Channel.revents_ <$> channels w1 !! c = Some (Channel.revents_ ch)) as Hrev1
    by (simpl; by rewrite lookup_insert_eq).
  assert (keeps ph w w1 x x) as Hk0.
  { intros c0 Hp0. split; [done|]. simpl. destruct (decide (c = c0)) as [<-|]; [|by rewrite lookup_insert_ne].
    by rewrite lookup_insert_eq, Ec. }
  destruct (calls_refine (activeChannels_ w) c _ order w1 x x' Hr1 Hrev1) as (w2 & -> & Hr2 & Hk2); [|done|].
  { split; [done|]. by exists y. }
  rewrite bind_ok. destruct (Hk2 c) as [_ Hrev2]; [split; [done|by exists y]|]. rewrite Hrev1 in Hrev2.
  destruct (channels w2 !! c) as [ch2|] eqn:Ec2; [|done]. rewrite (change_ok _ _ _ ch2 Ec2).
  destruct (w_phase _ _ _ Hr2) as (He2 & _ & Ha2). eexists. split; [done|]. split_and!; try done.
  - pose proof (switch ph None w2 x' c ch2 false None (activeChannels_ w2) Hr2 Ec2) as Hsw. apply Hsw; [|done..].
    intros c' Hne. symmetry. apply Z.eqb_neq. congruence.
  - apply (pending_keeps c (activeChannels_ w) w2 _ x' x'); [done..| |].
    + intros c0 Hp0. split; [done|]. simpl. destruct (decide (c = c0)) as [<-|]; [|by rewrite lookup_insert_ne].
      by rewrite lookup_insert_eq, Ec2.
    + apply (pending_keeps c (activeChannels_ w) w _ x x'); [done..|by eapply keeps_trans|].
      split; [done|]. intros c0 r0 Hin. apply Hp. set_solver.
Qed.

Lemma handle_refines w x c r l x' :
  refines None (idle w) x -> eventHandling_ w = true -> pending w x ((c, r) :: l) ->
  s_handle code (activeChannels_ w) x c r = Some x' ->
  exists w', handleEvent code (with_phase w (eventHandling_ w) (Some c) (activeChannels_ w)) c = Ok w' /\
    refines None (idle w') x' /\ eventHandling_ w' = true /\ activeChannels_ w' = activeChannels_ w /\ pending w' x' l.
Proof.
  intros Hr He Hp Hs. rewrite He. unfold s_handle in Hs. unfold handleEvent.
  pose proof (w_shape _ _ _ Hr c) as Hsh. simpl in Hsh. simpl. destruct (shapes x !! c) as [sh|]; [|done].
  destruct (channels w !! c) as [ch|]; [|done]. simpl in *. injection Hsh as <-.
  change (Channel.tied_ (shape ch)) with (Channel.tied_ ch) in Hs.
  change (Channel.tie_ (shape ch)) with (Channel.tie_ ch) in Hs.
  destruct (Channel.tied_ ch); simpl in Hs; [|by eapply guard_refines].
  destruct (Channel.tie_ ch); simpl in Hs; [by eapply guard_refines|]. injection Hs as <-.
  eexists. split; [done|]. split_and!; try done. destruct Hp as [[_ Hnd]%NoDup_cons Hp]. split; [done|].
  intros c0 r0 Hin. apply Hp. set_solver.
Qed.

Lemma dispatch_refines l w x x' :
  refines None (idle w) x -> eventHandling_ w = true -> pending w x l ->
  s_dispatch code (activeChannels_ w) x l = Some x' ->
  exists w', dispatch code w (map fst l) = Ok w' /\ refines None (idle w') x'.
Proof.
  revert w x. induction l as [|[c r] l IH]; intros w x Hr He Hp Hs; simpl in Hs.
  { injection Hs as <-. by exists w. }
  apply bind_Some in Hs as (x1 & Hs1 & Hs2). simpl.
  destruct (handle_refines _ _ _ _ _ _ Hr He Hp Hs1) as (w1 & -> & Hr1 & He1 & Ha1 & Hp1). simpl.
  apply (IH w1 x1); try done. by rewrite Ha1.
Qed.

Lemma functors_refine fs w x x' :
  refines None w x -> s_functors code x fs = Some x' ->
  exists w', call_functors code w fs = Ok w' /\ refines None w' x'.
Proof.
  revert w x. induction fs as [|f fs IH]; intros w x Hr Hs; simpl in Hs.
  { injection Hs as <-. by exists w. }
  apply bind_Some in Hs as (x1 & Hs1 & Hs2). simpl.
  destruct (fire_refines _ _ _ _ _ Hr Hs1) as (w1 & -> & Hr1 & _). by apply (IH w1 x1).
Qed.

(** *** The poller's report *)
Lemma stamp_cell (s : store) l c ch :
  s !! c = Some ch -> exists r, stamp s l !! c = Some (Channel.set_revent ch r).
Proof.
  intros Hc. destruct (stamp_lookup s l c) as (f & -> & Hf). rewrite Hc. destruct (Hf ch) as (r & E & _).
  exists r. simpl. by rewrite E.
Qed.

Lemma stamp_cell_inv (s : store) l c ch' :
  stamp s l !! c = Some ch' -> exists ch r, s !! c = Some ch /\ ch' = Channel.set_revent ch r.
Proof.
  destruct (stamp_lookup s l c) as (f & -> & Hf). destruct (s !! c) as [ch|]; [|done]. intros [= <-].
  destruct (Hf ch) as (r & -> & _). by exists ch, r.
Qed.

Lemma rel_stamp (h : Z -> bool) p p' s a l :
  rel_at (h := h) p s a -> poller_ok p' (stamp s l) -> channelMap_ p' = channelMap_ p ->
  (forall fd, watched p' fd = watched p fd) -> rel_at (h := h) p' (stamp s l) a.
Proof.
  intros HR Hok Hm Hw. constructor; [done|..].
  - intros c y Hy. destruct (r_cell p s a HR c y Hy) as (ch & Hc & Hrest).
    destruct (stamp_cell s l c ch Hc) as [r Hr]. exists (Channel.set_revent ch r). by rewrite Hm.
  - intros c Hn. pose proof (r_dom p s a HR c Hn) as E. destruct (stamp s l !! c) as [ch'|] eqn:E'; [|done].
    apply stamp_cell_inv in E' as (? & ? & ? & _). congruence.
  - rewrite Hm. apply HR.
  - intros fd. rewrite Hw, Hm. apply HR.
  - intros c y ch' Hy (ch & r & Hc & ->)%stamp_cell_inv. by apply (r_added p s a HR c y ch).
Qed.

Lemma poll_refines w x a :
  refines None w x -> possible (poller_ w) a ->
  let l := ready (poller_ w) a in
  exists p', poll (poller_ w) (channels w) a = Ok (p', stamp (channels w) l, map fst l) /\
    let w' := with_phase (with_channels w p' (stamp (channels w) l)) true (currentActiveChannel_ w) (map fst l) in
    refines None (idle w') x /\ pending w' x l.
Proof.
  intros Hr Hpos l. destruct (poll_law _ _ _ (r_ok _ _ _ (w_rel _ _ _ Hr)) Hpos)
    as (p' & Hp & Hok & Hm & Hw & Hnd & Hreg). exists p'. split; [done|]. fold l in Hok, Hnd, Hreg. intros w'. split.
  - destruct Hr as [HR Hsh Hself _ _ Hq Ht]. constructor; simpl; try done; [by eapply rel_stamp|].
    intros c. rewrite <- Hsh. destruct (stamp_lookup (channels w) l c) as (f & -> & Hf).
    destruct (channels w !! c) as [ch|]; [|done]. simpl. f_equal. destruct (Hf ch) as (r & -> & _). by destruct ch.
  - split; [done|]. intros c r Hin. assert (c ∈ map fst l) as Hc by (apply list_elem_of_fmap; by exists (c, r)).
    destruct (Hreg c Hc) as [fd Hfd]. destruct (r_map _ _ _ (w_rel _ _ _ Hr) fd c Hfd) as (y & Hy & <-).
    destruct (r_cell _ _ _ (w_rel _ _ _ Hr) c y Hy) as (ch & Hch & _ & _ & _ & _ & _ & Hiff).
    split_and!; [done|exists y; by rewrite <- Hiff|]. simpl. rewrite (stamp_reported _ _ _ r Hnd Hin). by rewrite Hch.
Qed.

Lemma turn_refines w x a x' :
  refines None w x -> possible (poller_ w) a -> s_turn code x (ready (poller_ w) a) = Some x' ->
  exists w', turn code w a = Ok w' /\ refines None w' x'.
Proof.
  intros Hr Hpos Hs. unfold s_turn in Hs. apply bind_Some in Hs as (x1 & Hs1 & Hs2). unfold turn.
  destruct (poll_refines w x a Hr Hpos) as (p' & -> & Hri & Hp). rewrite bind_ok. cbn [fst snd].
  set (w1 := with_phase _ _ _ _) in *.
  destruct (dispatch_refines _ w1 x x1 Hri eq_refl Hp Hs1) as (w2 & -> & Hr2). rewrite bind_ok. fold (idle w2).
  unfold doPendingFunctors. rewrite (w_queue _ _ _ Hr2). eapply functors_refine; [|done].
  destruct Hr2. by constructor.
Qed.

Lemma refines_new : refines None new s_new.
Proof. constructor; try done. exact (rel_new (h := handling None)). Qed.

Lemma life_refines xs w x x' :
  refines None w x -> possible_run code w xs -> s_run code x (reports code w xs) = Some x' ->
  exists w', run code w xs = Ok w' /\ refines None w' x'.
Proof.
  revert w x. induction xs as [|[ms|a] xs IH]; intros w x Hr Hp Hs.
  - injection Hs as <-. by exists w.
  - simpl in *. apply bind_Some in Hs as (x1 & Hs1 & Hs2).
    destruct (commands_refine _ _ _ _ _ Hr Hs1) as (w1 & E1 & Hr1 & _). rewrite E1 in Hp, Hs2 |- *.
    by apply (IH w1 x1 Hr1 (proj2 Hp)).
  - simpl in *. apply bind_Some in Hs as (x1 & Hs1 & Hs2).
    destruct (turn_refines _ _ _ _ Hr (proj1 Hp) Hs1) as (w1 & E1 & Hr1). rewrite E1 in Hp, Hs2 |- *.
    by apply (IH w1 x1 Hr1 (proj2 Hp)).
Qed.
End refinement.

(** ** The behaviour of a turn *)
Section behaviour.
Variable code : list event -> list command.

Lemma posted_app h es es' : posted code h (es ++ es') = posted code h es ++ posted code (h ++ es) es'.
Proof.
  revert h. induction es as [|e es IH]; intros h; simpl; [by rewrite app_nil_r|].
  by rewrite IH, <- !app_assoc.
Qed.

Lemma sparing_app active h es es' :
  sparing code active h (es ++ es') = sparing code active h es && sparing code active (h ++ es) es'.
Proof.
  revert h. induction es as [|e es IH]; intros h; simpl; [by rewrite app_nil_r|].
  by rewrite IH, <- app_assoc, andb_assoc.
Qed.

(** One command: the history stays, the queue grows, protected channels stay. *)
Lemma s_change_grows f x c x' :
  s_change f x c = Some x' ->
  history x' = history x /\ queue x' = queue x /\ cells x' = cells x /\
  forall c', c' <> c -> shapes x' !! c' = shapes x !! c'.
Proof.
  intros (sh & _ & [= <-])%bind_Some. split_and!; try done. intros c' Hne. simpl. by rewrite lookup_insert_ne.
Qed.

Lemma s_exec_grows ph x m x' :
  s_exec ph x m = Some x' -> history x' = history x /\ queue x' = queue x ++ omap queued [m].
Proof.
  assert (forall f c, s_change f x c = Some x' -> history x' = history x /\ queue x' = queue x ++ []) as Hc.
  { intros f c (? & ? & _)%s_change_grows. by rewrite app_nil_r. }
  destruct m as [o|c k|c|c|c|f]; intros Hs; try (by eapply Hc).
  - destruct o; cbn [s_exec] in Hs; try case_match; try done;
      apply bind_Some in Hs as (? & _ & [= <-]); simpl; by rewrite app_nil_r.
  - cbn [s_exec] in Hs. apply bind_Some in Hs as (y & _ & Hs). case_match; simplify_eq. simpl. by rewrite app_nil_r.
  - by injection Hs as <-.
Qed.

Lemma s_exec_spares cur active x m x' c :
  let ph := Some (cur, active) in
  s_exec ph x m = Some x' -> spares active m = true -> protected ph x c ->
  protected ph x' c /\ shapes x' !! c = shapes x !! c.
Proof.
  intros ph Hs Hsp (Hin & y & Hy & Hst).
  assert (forall f c0, s_change f x c0 = Some x' -> bool_decide (c0 ∉ active) = true ->
    protected ph x' c /\ shapes x' !! c = shapes x !! c) as Hc.
  { intros f c0 (_ & _ & E & Hsh)%s_change_grows Hn%bool_decide_eq_true_1. simpl. rewrite E. split; [by eauto|].
    apply Hsh. congruence. }
  assert (forall o a, astep (cells x) o = Some a -> (forall c0, o = Remove c0 -> removable ph c0 = true) ->
    exists y', a !! c = Some y' /\ (c <> cur -> a_st y' = Registered)) as Ho.
  { intros o a Ha Hrm. destruct (astep_cell _ _ _ _ _ Ha Hy) as (y' & Hy' & Hs'). exists y'. split; [done|].
    intros Hne. destruct (Hs' (Hst Hne)) as [?| ->]; [done|]. specialize (Hrm c eq_refl). simpl in Hrm.
    rewrite (proj2 (Z.eqb_neq _ _)) in Hrm by congruence. by apply bool_decide_eq_true_1 in Hrm. }
  destruct m as [o|c0 k|c0|c0|c0|f]; simpl in Hsp; try (by eapply Hc).
  - destruct o as [c0 fd|c0|c0|c0|c0|c0|c0]; cbn [s_exec] in Hs;
      try (apply bind_Some in Hs as (a & Ha & [= <-]); destruct (Ho _ _ Ha) as (y' & ? & ?); [done|simpl; by eauto]).
    + apply bind_Some in Hs as (a & Ha & [= <-]). destruct (Ho _ _ Ha) as (y' & ? & ?); [done|].
      simpl. split; [by eauto|]. apply lookup_insert_ne. intros ->. simpl in Ha. by rewrite Hy in Ha.
    + destruct (removable ph c0) eqn:Erm; [|done]. apply bind_Some in Hs as (a & Ha & [= <-]).
      destruct (Ho _ _ Ha) as (y' & ? & ?); [by intros ? [= <-]|]. simpl. by eauto.
  - cbn [s_exec] in Hs. apply bind_Some in Hs as (y0 & Hy0 & Hs).
    destruct (bool_decide (a_st y0 = Registered)) eqn:Er; [done|]. apply bool_decide_eq_false_1 in Er. simpl in Hs.
    destruct (Z.eqb_spec cur c0) as [|Hne]; [done|]. injection Hs as <-.
    assert (c0 <> c). { intros ->. simplify_eq. apply Er, Hst. congruence. }
    simpl. rewrite !lookup_delete_ne by done. by eauto.
  - injection Hs as <-. simpl. by eauto.
Qed.

(** Events [es] happen while channels that are protected stay. *)
Record advances (ph : phase) (x : spec) (es : list event) (x' : spec) : Prop := mk_advances {
  v_history : history x' = history x ++ es;
  v_queue : queue x' = queue x ++ posted code (history x) es;
  v_shapes c : protected ph x c -> protected ph x' c /\ shapes x' !! c = shapes x !! c;
}.

Lemma advances_nil ph x : advances ph x [] x.
Proof. by constructor; simpl; rewrite ?app_nil_r. Qed.

Lemma advances_app ph x es x1 es' x' :
  advances ph x es x1 -> advances ph x1 es' x' -> advances ph x (es ++ es') x'.
Proof.
  intros [H1 Q1 S1] [H2 Q2 S2]. constructor.
  - by rewrite H2, H1, app_assoc.
  - by rewrite Q2, Q1, H1, posted_app, app_assoc.
  - intros c [Hp E]%S1. destruct (S2 c Hp). split; [done|congruence].
Qed.

Lemma s_exec_all_grows ph ms x x' :
  s_exec_all ph x ms = Some x' -> history x' = history x /\ queue x' = queue x ++ omap queued ms.
Proof.
  revert x. induction ms as [|m ms IH]; intros x Hs; simpl in Hs; [injection Hs as <-; by rewrite app_nil_r|].
  apply bind_Some in Hs as (x1 & Hs1 & Hs2). destruct (s_exec_grows _ _ _ _ Hs1) as [E1 Q1].
  destruct (IH _ Hs2) as [-> ->]. split; [done|]. rewrite Q1, <- app_assoc. simpl. by destruct (queued m).
Qed.

Lemma s_exec_all_spares cur active ms x x' c :
  let ph := Some (cur, active) in
  s_exec_all ph x ms = Some x' -> forallb (spares active) ms = true -> protected ph x c ->
  protected ph x' c /\ shapes x' !! c = shapes x !! c.
Proof.
  intros ph. revert x. induction ms as [|m ms IH]; intros x Hs Hsp Hp; simpl in Hs; [by injection Hs as <-|].
  apply bind_Some in Hs as (x1 & Hs1 & Hs2). simpl in Hsp. apply andb_true_iff in Hsp as [Hm Hms].
  destruct (s_exec_spares _ _ _ _ _ c Hs1 Hm Hp) as [Hp1 <-]. by apply IH.
Qed.

Lemma fire_advances cur active x e x' :
  let ph := Some (cur, active) in
  s_fire code ph x e = Some x' -> sparing code active (history x) [e] = true -> advances ph x [e] x'.
Proof.
  intros ph Hs Hsp. simpl in Hsp. rewrite andb_true_r in Hsp. unfold s_fire in Hs.
  destruct (s_exec_all_grows _ _ _ _ Hs) as [Eh Eq]. constructor; simpl; rewrite ?app_nil_r; try done.
  intros c Hp. by apply (s_exec_all_spares _ _ _ _ _ c Hs Hsp).
Qed.

Lemma calls_advance c active r sh ks x x' :
  let ph := Some (c, active) in
  let es := Called c <$> List.filter (wants (Channel.set_revent sh r)) ks in
  s_calls code ph x c r ks = Some x' -> shapes x !! c = Some sh -> protected ph x c ->
  sparing code active (history x) es = true -> advances ph x es x'.
Proof.
  intros ph. revert x. induction ks as [|k ks IH]; intros x es Hs Hsh Hp Hsp; simpl in Hs.
  { injection Hs as <-. apply advances_nil. }
  apply bind_Some in Hs as (x1 & Hs1 & Hs2). unfold s_call in Hs1. rewrite Hsh in Hs1. simpl in Hs1.
  unfold es in *. simpl in Hsp |- *. destruct (wants _ k); [|injection Hs1 as <-; by apply IH].
  change (Called c <$> k :: ?l) with ([Called c k] ++ (Called c <$> l)) in *. rewrite sparing_app in Hsp.
  apply andb_true_iff in Hsp as [Hsp1 Hsp2]. pose proof (fire_advances _ _ _ _ _ Hs1 Hsp1) as Ha.
  eapply advances_app; [done|]. destruct (v_shapes _ _ _ _ Ha c Hp) as [Hp1 E1].
  apply IH; [done|congruence|done|]. by rewrite (v_history _ _ _ _ Ha).
Qed.

Lemma handle_advances active c r x x' :
  s_handle code active x c r = Some x' -> protected (Some (c, active)) x c ->
  sparing code active (history x) (callbacks (shapes x) (c, r)) = true ->
  advances (Some (c, active)) x (callbacks (shapes x) (c, r)) x'.
Proof.
  unfold s_handle, callbacks. simpl. destruct (shapes x !! c) as [sh|] eqn:Esh; [|done]. simpl.
  unfold Channel.handleEvent. rewrite wants_guard. change (Channel.tied_ (Channel.set_revent sh r)) with (Channel.tied_ sh).
  change (Channel.tie_ (Channel.set_revent sh r)) with (Channel.tie_ sh). intros Hs Hp Hsp.
  destruct (Channel.tied_ sh); simpl in Hs; [|by eapply calls_advance].
  destruct (Channel.tie_ sh); simpl in Hs; [by eapply calls_advance|]. injection Hs as <-. apply advances_nil.
Qed.

Definition registered (x : spec) (c : Z) : Prop := exists y, cells x !! c = Some y /\ a_st y = Registered.

Lemma dispatch_advances active l x x' (m : gmap Z Channel.t) :
  s_dispatch code active x l = Some x' -> NoDup (map fst l) ->
  (forall c, c ∈ map fst l -> c ∈ active /\ registered x c /\ m !! c = shapes x !! c) ->
  sparing code active (history x) (round m l) = true ->
  history x' = history x ++ round m l /\ queue x' = queue x ++ posted code (history x) (round m l).
Proof.
  revert x. induction l as [|[c r] l IH]; intros x Hs Hnd Hl Hsp.
  { injection Hs as <-. simpl. by rewrite !app_nil_r. }
  simpl in Hs. apply bind_Some in Hs as (x1 & Hs1 & Hs2). apply NoDup_cons in Hnd as [Hni Hnd].
  destruct (Hl c) as (Hin & (y & Hy & Hst) & Em); [set_solver|].
  assert (callbacks m (c, r) = callbacks (shapes x) (c, r)) as Ec by (unfold callbacks; simpl; by rewrite Em).
  change (round m ((c, r) :: l)) with (callbacks m (c, r) ++ round m l) in *. rewrite Ec in *.
  rewrite sparing_app in Hsp. apply andb_true_iff in Hsp as [Hsp1 Hsp2].
  destruct (handle_advances _ _ _ _ _ Hs1) as [H1 Q1 S1]; [split; [done|by exists y]|done|].
  destruct (IH x1) as [-> ->]; [done..| |by rewrite H1|].
  - intros c' Hc'. destruct (Hl c') as (Hin' & (y' & Hy' & Hst') & Em'); [set_solver|].
    assert (c' <> c) by (by intros ->). destruct (S1 c') as [(_ & y1 & Hy1 & Hr1) E1]; [split; [done|by exists y']|].
    split_and!; [done|exists y1; eauto|congruence].
  - by rewrite H1, Q1, posted_app, !app_assoc.
Qed.

Lemma functors_advance fs x x' :
  s_functors code x fs = Some x' ->
  history x' = history x ++ map Ran fs /\ queue x' = queue x ++ posted code (history x) (map Ran fs).
Proof.
  revert x. induction fs as [|f fs IH]; intros x Hs; simpl in Hs; [injection Hs as <-; simpl; by rewrite !app_nil_r|].
  apply bind_Some in Hs as (x1 & Hs1 & Hs2). destruct (s_exec_all_grows _ _ _ _ Hs1) as [E1 Q1]. simpl in E1, Q1.
  destruct (IH _ Hs2) as [-> ->]. rewrite E1, Q1. simpl. by rewrite <- !app_assoc.
Qed.

(** A turn: the callbacks of the reported channels, then the functors queued until then. *)
Lemma turn_advances x l x' :
  s_turn code x l = Some x' -> NoDup (map fst l) -> (forall c, c ∈ map fst l -> registered x c) ->
  let es := round (shapes x) l in
  let fs := queue x ++ posted code (history x) es in
  sparing code (map fst l) (history x) es = true ->
  history x' = history x ++ es ++ map Ran fs /\ queue x' = posted code (history x ++ es) (map Ran fs).
Proof.
  intros (x1 & Hs1 & Hs2)%bind_Some Hnd Hl es fs Hsp.
  destruct (dispatch_advances _ _ _ _ (shapes x) Hs1 Hnd) as [H1 Q1]; [by eauto|done|].
  destruct (functors_advance _ _ _ Hs2) as [-> ->]. simpl. rewrite H1, Q1. by rewrite <- app_assoc.
Qed.
End behaviour.

(** Callbacks and ties are all that matters of a channel's shape. *)
Lemma callbacks_shape (m m' : gmap Z Channel.t) x :
  shape <$> m !! x.1 = m' !! x.1 -> callbacks m' x = callbacks m x.
Proof. unfold callbacks. intros <-. destruct (m !! x.1) as [[]|]; done. Qed.

Lemma round_shape (m m' : gmap Z Channel.t) l :
  (forall c, shape <$> m !! c = m' !! c) -> round m' l = round m l.
Proof.
  intros Hs. unfold round. induction l as [|x l IH]; [done|]. cbn [mbind list_bind]. f_equal; [|exact IH].
  by apply callbacks_shape.
Qed.

Section claims.
Context {P : Poller} {PL : PollerLaws (H := P)} {PW : PollerWait (P := P)} {WL : PollerWaitLaws (P := P)}.

(** C19. The reactor, with any poller that keeps the laws, any user code in callbacks and
    functors and any sequence of commands and turns, each turn with any answer the system
    may give. As long as the code keeps the rules (no removal of another channel reported
    in this round, no destruction of a registered channel or of the one being handled), no
    assertion fails in channels, loop or poller; the poller watches for every descriptor
    what its registered channel asks for, and nothing else. A further turn, during which
    the code leaves callbacks and ties of the reported channels alone, calls for each
    reported channel once, in the order of the report, the callbacks that its events ask
    for, then runs once and in order the functors queued until then, also those queued by
    these callbacks; those queued by functors wait for the next turn. *)
Theorem reactor_turn (code : list event -> list command) (xs : list action) (x : spec) :
  possible_run code new xs -> s_run code s_new (reports code new xs) = Some x ->
  exists w, run code new xs = Ok w /\ trace w = history x /\ pendingFunctors_ w = queue x /\
    (forall fd c, channelMap_ (poller_ w) !! fd = Some c <->
       exists ev, cells x !! c = Some (mk_cell fd ev Registered)) /\
    (forall fd, watched (poller_ w) fd = aevents (cells x) (channelMap_ (poller_ w) !! fd)) /\
    forall a x', possible (poller_ w) a ->
      let l := ready (poller_ w) a in
      let es := round (channels w) l in
      let fs := pendingFunctors_ w ++ posted code (trace w) es in
      s_turn code x l = Some x' -> sparing code (map fst l) (trace w) es = true ->
      exists w', turn code w a = Ok w' /\ trace w' = trace w ++ es ++ map Ran fs /\
        pendingFunctors_ w' = posted code (trace w ++ es) (map Ran fs).
Proof.
  intros Hp Hs. destruct (life_refines code xs new s_new x refines_new Hp Hs) as (w & Hrun & Hr).
  exists w. split_and!; [done|apply Hr|apply Hr| |apply Hr|]; [by intros; eapply rel_map, Hr|].
  intros a x' Ha l es fs Hs' Hsp. destruct (turn_refines code w x a x' Hr Ha Hs') as (w' & Ht & Hr').
  exists w'. split; [done|]. destruct (poll_refines w x a Hr Ha) as (p' & _ & _ & Hnd & Hreg).
  rewrite (w_trace _ _ _ Hr'), (w_queue _ _ _ Hr'). unfold fs, es in *. clear fs es.
  rewrite (w_trace _ _ _ Hr), (w_queue _ _ _ Hr) in *. rewrite <- (round_shape _ _ l (w_shape _ _ _ Hr)) in *.
  apply turn_advances; try done. intros c ([c0 r] & -> & Hin)%list_elem_of_fmap. by apply (Hreg c0 r Hin).
Qed.
End claims.

(** Two sockets: the reader takes itself out of the loop and lets a functor destroy its
    channel, the writer only stops writing. *)
Definition demo_code (h : list event) : list command :=
  match last h with
  | Some (Called 1 Channel.ReadCall) => [Op (DisableAll 1); Op (Remove 1); Queue 7]
  | Some (Called 2 Channel.WriteCall) => [Op (DisableWriting 2)]
  | Some (Ran 7) => [Destroy 1; Queue 8]
  | _ => []
  end.

Definition demo_setup : list command :=
  [Op (Create 1 5); SetCallback 1 Channel.ReadCall; Op (EnableReading 1);
   Op (Create 2 6); SetCallback 2 Channel.WriteCall; Tie 2; Op (EnableWriting 2)].

Definition demo_state {P : Poller} : t := match exec_all new demo_setup with Ok w => w | _ => new end.
Definition demo_alive {P : Poller} : bool := match exec_all new demo_setup with Ok _ => true | _ => false end.

Lemma demo_setup_ok {P : Poller} : demo_alive = true -> exec_all new demo_setup = Ok demo_state.
Proof. unfold demo_alive, demo_state. by destruct (exec_all _ _). Qed.

Lemma demo_possible `{PW : PollerWait} code a :
  demo_alive = true -> possible (poller_ demo_state) a -> possible_run code new [inl demo_setup; inr a].
Proof. intros E%demo_setup_ok Ha. split; [done|]. cbn [act]. rewrite E. split; [done|]. by destruct (act code demo_state (inr a)). Qed.

Lemma poll_possible_two p r1 r2 pf1 pf2 :
  PollPoller.pollfds_ p = [pf1; pf2] -> 0 < r1 -> 0 < r2 -> 0 <= PollPoller.pfd_fd pf1 -> 0 <= PollPoller.pfd_fd pf2 ->
  PollWait.poll_possible p (2, [r1; r2]).
Proof.
  intros E H1 H2 Hf1 Hf2. split; simpl; rewrite E; [done|]. intros _. unfold PollWait.positive.
  rewrite (proj2 (Z.ltb_lt _ _) H1), (proj2 (Z.ltb_lt _ _) H2). split; [done|].
  intros [|[|[|i]]] pf r; simpl; intros; simplify_eq; done.
Qed.

Definition demo_reports : list (Z * Z) := [(1, 1); (2, 4)].
Definition demo_spec : spec := default s_new (s_run demo_code s_new [inl demo_setup]).
Definition demo_spec' : spec := default s_new (s_turn demo_code demo_spec demo_reports).

Lemma reactor_turn_witness :
  run (PW := PollWait.poll_wait) demo_code new [inl demo_setup] = Ok demo_state /\
  exists w', turn (PW := PollWait.poll_wait) demo_code demo_state (2, [1; 4]) = Ok w' /\
    trace w' = [Called 1 Channel.ReadCall; Called 2 Channel.WriteCall; Ran 7] /\ pendingFunctors_ w' = [8].
Proof.
  destruct (reactor_turn (PW := PollWait.poll_wait) demo_code [inl demo_setup] demo_spec)
    as (w & Hrun & _ & _ & _ & _ & Hturn); [by vm_compute|by vm_compute|].
  cbn [run act] in Hrun. rewrite demo_setup_ok in Hrun by by vm_compute. injection Hrun as <-.
  split; [cbn [run act]; by rewrite demo_setup_ok by by vm_compute|].
  destruct (Hturn (2, [1; 4]) demo_spec') as (w' & Ht & Htr & Hq).
  - by eapply poll_possible_two; [vm_compute; reflexivity|vm_compute..].
  - by vm_compute.
  - by vm_compute.
  - exists w'. split; [exact Ht|]. rewrite Htr, Hq. split; vm_compute; reflexivity.
Defined.

(** C20. The two pollers give the same reactor: where both report the same channels with
    the same events, the same code runs in the same order, and both watch the same
    descriptors for the same events. *)
Theorem reactor_pollers_agree `{EpollLaws} (code : list event -> list command)
    (xe : list (action (PW := EpollWait.epoll_wait))) (xp : list (action (PW := PollWait.poll_wait))) (x : spec) :
  possible_run code new xe -> possible_run code new xp -> reports code new xe = reports code new xp ->
  s_run code s_new (reports code new xp) = Some x ->
  exists we wp, run code new xe = Ok we /\ run code new xp = Ok wp /\ trace we = trace wp /\
    pendingFunctors_ we = pendingFunctors_ wp /\
    (forall fd, EpollPoller.watched (poller_ we) fd = PollPoller.watched (poller_ wp) fd) /\
    (forall c, shape <$> channels we !! c = shape <$> channels wp !! c).
Proof.
  intros He Hp E Hs.
  destruct (life_refines code xp new s_new x refines_new Hp Hs) as (wp & Hwp & Hrp). rewrite <- E in Hs.
  destruct (life_refines (P := EpollPoller.epoll_poller) code xe new s_new x refines_new He Hs) as (we & Hwe & Hre).
  exists we, wp. destruct Hre as [HRe Se _ _ _ Qe Te], Hrp as [HRp Sp _ _ _ Qp Tp].
  split_and!; try done; [by rewrite Te, Tp|by rewrite Qe, Qp| |by intros c; rewrite Se, Sp].
  exact (proj2 (rel_pollers _ _ _ _ _ HRe HRp)).
Qed.

Import MapKernel.

Definition demo_epoll_life : list (action (PW := EpollWait.epoll_wait)) := [inl demo_setup; inr (Some [(1, 1); (4, 2)])].
Definition demo_poll_life : list (action (PW := PollWait.poll_wait)) := [inl demo_setup; inr (2, [1; 4])].
Definition demo_end : t (P := PollPoller.poll_poller) :=
  match run demo_code new demo_poll_life with Ok w => w | _ => new end.

Lemma wait_possible_two p r1 c1 r2 c2 fd1 ev1 fd2 ev2 :
  2 <= EpollPoller.events_size p -> (c1 =? c2) = false ->
  interest (EpollPoller.epollfd_ p) !! fd1 = Some (ev1, c1) -> interest (EpollPoller.epollfd_ p) !! fd2 = Some (ev2, c2) ->
  EpollWait.wait_possible p (Some [(r1, c1); (r2, c2)]).
Proof.
  intros Hs Hne%Z.eqb_neq H1 H2. split_and!; [done| |].
  - apply NoDup_cons. split; [|apply NoDup_singleton]. by intros ?%list_elem_of_singleton.
  - intros r c Hin. apply elem_of_cons in Hin as [E|[E|[]%elem_of_nil]%elem_of_cons]; simplify_eq; eauto.
Qed.

Lemma reactor_pollers_agree_witness :
  exists we wp, run demo_code new demo_epoll_life = Ok we /\ run demo_code new demo_poll_life = Ok wp /\
    trace we = trace wp /\ trace wp = [Called 1 Channel.ReadCall; Called 2 Channel.WriteCall; Ran 7] /\
    (forall fd, EpollPoller.watched (poller_ we) fd = PollPoller.watched (poller_ wp) fd).
Proof.
  destruct (reactor_pollers_agree demo_code demo_epoll_life demo_poll_life demo_spec')
    as (we & wp & He & Hp & Ht & _ & Hw & _).
  - refine (demo_possible (PW := EpollWait.epoll_wait) demo_code (Some [(1, 1); (4, 2)]) _ _); [by vm_compute|].
    by refine (wait_possible_two (poller_ (P := EpollPoller.epoll_poller) demo_state) 1 1 4 2 5 3 6 4 _ _ _ _); vm_compute.
  - refine (demo_possible (PW := PollWait.poll_wait) demo_code (2, [1; 4]) _ _); [by vm_compute|].
    by eapply poll_possible_two; [vm_compute; reflexivity|vm_compute..].
  - by vm_compute.
  - by vm_compute.
  - exists we, wp. refine (conj He (conj Hp (conj Ht (conj _ Hw)))).
    assert (wp = demo_end) as -> by (unfold demo_end; by rewrite Hp). by vm_compute.
Defined.
End Reactor.
