(* ===== verification/Connection.v ===== *)
(** TCP connections (src/libel/net/tcp_connection.h, tcp_connection.cpp): the
    connection's state machine, its two buffers and its channel, driven by the
    event loop's dispatch, by queued functors and by its user. *)

From S2P Require Import Prelude NetBuffer NumText TimeText Polling.

Module TcpConnection.

Inductive StateE := kDisconnected | kConnecting | kConnected | kDisconnecting.
#[global] Instance StateE_eq_dec : EqDecision StateE.
Proof. solve_decision. Defined.

(** The [errno] values the code distinguishes. *)
Definition EWOULDBLOCK : Z := 11.
Definition EPIPE : Z := 32.
Definition ECONNRESET : Z := 104.

(** What [sockets::write] reports. *)
Inductive write_result := Wrote (n : Z) | WriteError (errno : Z).

(** Functors the connection hands to its loop. *)
Inductive task :=
  | SendTask (message : bytes)
  | ShutdownTask
  | ForceCloseTask
  | WriteCompleteTask
  | HighWaterMarkTask (size : Z)
  | StartReadTask
  | StopReadTask.

(** Calls of the user's callbacks. *)
Inductive callback := ConnectionCallback (s : StateE) | MessageCallback | CloseCallback.

(** Of the channel, [events_] and whether the poller's [channelMap_] has it ([inLoop_])
    are kept; [tasks] are
    the functors handed to the loop and not run yet, [delayed] the number of
    timers that will call [forceClose].  The rest is history: the bytes the socket
    took ([wire]), whether its writing half is shut down ([fin]), the messages
    [sendInLoop] took responsibility for, the bytes read and consumed, the
    callbacks called, and whether [connectDestroyed] has run. *)
Record t := mk {
  state_ : StateE;
  reading_ : bool;
  events_ : Z;
  inLoop_ : bool;
  writeCompleteCallback_ : bool;
  highWaterMarkCallback_ : bool;
  highWaterMark_ : Z;
  inputBuffer_ : Buffer.t;
  outputBuffer_ : Buffer.t;
  tasks : list task;
  delayed : nat;
  wire : bytes;
  fin : bool;
  accepted : bytes;
  received : bytes;
  consumed : bytes;
  calls : list callback;
  destroyed : bool;
}.

Definition new (writeComplete highWater : bool) : t :=
  {| state_ := kConnecting; reading_ := true; events_ := 0; inLoop_ := false;
     writeCompleteCallback_ := writeComplete; highWaterMarkCallback_ := highWater;
     highWaterMark_ := 64 * 1024 * 1024;
     inputBuffer_ := Buffer.new Buffer.kInitialSize; outputBuffer_ := Buffer.new Buffer.kInitialSize;
     tasks := []; delayed := 0; wire := []; fin := false; accepted := [];
     received := []; consumed := []; calls := []; destroyed := false |}.

Definition set_state (c : t) (s : StateE) (k : list callback) : t :=
  mk s (reading_ c) (events_ c) (inLoop_ c) (writeCompleteCallback_ c) (highWaterMarkCallback_ c)
    (highWaterMark_ c) (inputBuffer_ c) (outputBuffer_ c) (tasks c) (delayed c) (wire c) (fin c)
    (accepted c) (received c) (consumed c) (calls c ++ k) (destroyed c).
Definition set_channel (c : t) (ev : Z) (added reading : bool) : t :=
  mk (state_ c) reading ev added (writeCompleteCallback_ c) (highWaterMarkCallback_ c)
    (highWaterMark_ c) (inputBuffer_ c) (outputBuffer_ c) (tasks c) (delayed c) (wire c) (fin c)
    (accepted c) (received c) (consumed c) (calls c) (destroyed c).
Definition set_tasks (c : t) (ts : list task) (d : nat) : t :=
  mk (state_ c) (reading_ c) (events_ c) (inLoop_ c) (writeCompleteCallback_ c)
    (highWaterMarkCallback_ c) (highWaterMark_ c) (inputBuffer_ c) (outputBuffer_ c) ts d
    (wire c) (fin c) (accepted c) (received c) (consumed c) (calls c) (destroyed c).
Definition set_output (c : t) (b : Buffer.t) (w : bytes) (a : bytes) : t :=
  mk (state_ c) (reading_ c) (events_ c) (inLoop_ c) (writeCompleteCallback_ c)
    (highWaterMarkCallback_ c) (highWaterMark_ c) (inputBuffer_ c) b (tasks c) (delayed c)
    w (fin c) a (received c) (consumed c) (calls c) (destroyed c).
Definition set_fin (c : t) : t :=
  mk (state_ c) (reading_ c) (events_ c) (inLoop_ c) (writeCompleteCallback_ c)
    (highWaterMarkCallback_ c) (highWaterMark_ c) (inputBuffer_ c) (outputBuffer_ c) (tasks c)
    (delayed c) (wire c) true (accepted c) (received c) (consumed c) (calls c) (destroyed c).
Definition set_input (c : t) (b : Buffer.t) (r k : bytes) (cb : list callback) : t :=
  mk (state_ c) (reading_ c) (events_ c) (inLoop_ c) (writeCompleteCallback_ c)
    (highWaterMarkCallback_ c) (highWaterMark_ c) b (outputBuffer_ c) (tasks c) (delayed c)
    (wire c) (fin c) (accepted c) r k (calls c ++ cb) (destroyed c).

Definition set_destroyed (c : t) : t :=
  mk (state_ c) (reading_ c) (events_ c) (inLoop_ c) (writeCompleteCallback_ c)
    (highWaterMarkCallback_ c) (highWaterMark_ c) (inputBuffer_ c) (outputBuffer_ c) (tasks c) (delayed c)
    (wire c) (fin c) (accepted c) (received c) (consumed c) (calls c) true.

(** The channel's operations.  An update of a channel that the poller does not have
    registers it; [removeSelfFromLoop] has two assertions, the channel's own on its
    interest and the poller's on its [channelMap_]. *)
Definition isWriting (c : t) : bool := negb (Z.land (events_ c) Channel.kWriteEvent =? 0).
Definition isReading (c : t) : bool := negb (Z.land (events_ c) Channel.kReadEvent =? 0).
Definition channel_update (c : t) (ev : Z) : t := set_channel c ev true (reading_ c).
Definition enableReading (c : t) : t := channel_update c (Channel.enableReading_ev (events_ c)).
Definition disableReading (c : t) : t := channel_update c (Channel.disableReading_ev (events_ c)).
Definition enableWriting (c : t) : t := channel_update c (Channel.enableWriting_ev (events_ c)).
Definition disableWriting (c : t) : t := channel_update c (Channel.disableWriting_ev (events_ c)).
Definition disableAll (c : t) : t := channel_update c (Channel.disableAll_ev (events_ c)).
Definition removeSelfFromLoop (c : t) : outcome t :=
  _ ← assert_ (events_ c =? Channel.kNoneEvent) ;
  _ ← assert_ (inLoop_ c) ;                              (* channelMap_.find(channel->fd()) *)
  mret (set_channel c (events_ c) false (reading_ c)).

(** [setWriteCompleteCallback], [setHighWaterMarkCallback]: whether there is one. *)
Definition setWriteCompleteCallback (c : t) (cb : bool) : t :=
  mk (state_ c) (reading_ c) (events_ c) (inLoop_ c) cb (highWaterMarkCallback_ c) (highWaterMark_ c)
    (inputBuffer_ c) (outputBuffer_ c) (tasks c) (delayed c) (wire c) (fin c) (accepted c) (received c)
    (consumed c) (calls c) (destroyed c).
Definition setHighWaterMarkCallback (c : t) (cb : bool) (mark : Z) : t :=
  mk (state_ c) (reading_ c) (events_ c) (inLoop_ c) (writeCompleteCallback_ c) cb mark
    (inputBuffer_ c) (outputBuffer_ c) (tasks c) (delayed c) (wire c) (fin c) (accepted c) (received c)
    (consumed c) (calls c) (destroyed c).

Definition queueInLoop (c : t) (x : task) : t := set_tasks c (tasks c ++ [x]) (delayed c).

(** ** Sending *)

(** The first half of [sendInLoop]: the attempt to write at once.  The result is
    the connection, [nwrote], [remaining] and [fatalError]. *)
Definition try_write (c : t) (message : bytes) (w : write_result) : t * Z * Z * bool :=
  let len := zlen message in
  if negb (isWriting c) && (Buffer.readableBytes (outputBuffer_ c) =? 0) then
    match w with
    | Wrote nwrote =>
        let remaining := size_t (len - nwrote) in
        let c := set_output c (outputBuffer_ c) (wire c ++ take (Z.to_nat nwrote) message) (accepted c) in
        let c := if (remaining =? 0) && writeCompleteCallback_ c
                 then queueInLoop c WriteCompleteTask else c in
        (c, nwrote, remaining, false)
    | WriteError errno =>
        (c, 0, len, negb (errno =? EWOULDBLOCK) && ((errno =? EPIPE) || (errno =? ECONNRESET)))
    end
  else (c, 0, len, false).

(** The second half: queue what was not written. *)
Definition queue_rest (c : t) (message : bytes) (nwrote remaining : Z) : outcome t :=
  let oldlen := Buffer.readableBytes (outputBuffer_ c) in
  let c := if (highWaterMark_ c <=? size_t (oldlen + remaining)) && (oldlen <? highWaterMark_ c)
              && highWaterMarkCallback_ c
           then queueInLoop c (HighWaterMarkTask (size_t (oldlen + remaining))) else c in
  b ← Buffer.append (outputBuffer_ c) (sub nwrote remaining message) ;
  let c := set_output c b (wire c) (accepted c) in
  mret (if isWriting c then c else enableWriting c).

Definition sendInLoop (inLoop : bool) (c : t) (message : bytes) (w : write_result) : outcome t :=
  _ ← assertInLoopThread inLoop ;
  let len := zlen message in
  if decide (state_ c = kDisconnected) then mret c      (* LOG_WARN: give up writing *)
  else
    match try_write c message w with
    | (c, nwrote, remaining, fatalError) =>
        _ ← assert_ (remaining <=? len) ;
        let took := if fatalError : bool then [] else message in
        let c := set_output c (outputBuffer_ c) (wire c) (accepted c ++ took) in
        if negb fatalError && (0 <? remaining) then queue_rest c message nwrote remaining
        else mret c
    end.

(** The overload for a [std::string]. *)
Definition send (inLoop : bool) (c : t) (message : bytes) (w : write_result) : outcome t :=
  if decide (state_ c = kConnected) then
    if inLoop then sendInLoop inLoop c message w
    else mret (queueInLoop c (SendTask message))
  else mret c.

(** The overload for a pointer and a length: [len] bytes from [message] on. *)
Definition send_raw (inLoop : bool) (c : t) (message : bytes) (len : Z) (w : write_result) : outcome t :=
  send inLoop c (sub 0 len message) w.

(** The overload for a [Buffer]: the result also has the caller's buffer. *)
Definition send_buffer (inLoop : bool) (c : t) (message : Buffer.t) (w : write_result)
  : outcome (t * Buffer.t) :=
  if decide (state_ c = kConnected) then
    if inLoop then
      c' ← sendInLoop inLoop c (Buffer.content message) w ;
      mret (c', Buffer.retrieveAll message)
    else
      r ← Buffer.retrieveAllAsString message ;
      mret (queueInLoop c (SendTask r.1), r.2)
  else mret (c, message).

(** ** Closing *)
Definition shutdownInLoop (inLoop : bool) (c : t) : outcome t :=
  _ ← assertInLoopThread inLoop ;
  mret (if isWriting c then c else set_fin c).           (* socket_->shutdownWrite() *)

Definition shutdown (inLoop : bool) (c : t) : outcome t :=
  if decide (state_ c = kConnected) then
    let c := set_state c kDisconnecting [] in
    if inLoop then shutdownInLoop inLoop c else mret (queueInLoop c ShutdownTask)
  else mret c.

Definition handleClose (inLoop : bool) (c : t) : outcome t :=
  _ ← assertInLoopThread inLoop ;
  _ ← assert_ (bool_decide (state_ c = kConnected \/ state_ c = kDisconnecting)) ;
  let c := disableAll (set_state c kDisconnected []) in
  mret (set_state c kDisconnected [ConnectionCallback kDisconnected; CloseCallback]).

Definition forceClose (c : t) : t :=
  if decide (state_ c = kConnected \/ state_ c = kDisconnecting) then
    queueInLoop (set_state c kDisconnecting []) ForceCloseTask
  else c.

(** [forceCloseWithDelay]: a timer will call [forceClose]. *)
Definition forceCloseWithDelay (c : t) : t :=
  if decide (state_ c = kConnected \/ state_ c = kConnecting) then
    let c := set_state c kDisconnecting [] in set_tasks c (tasks c) (S (delayed c))
  else c.

Definition forceCloseInLoop (inLoop : bool) (c : t) : outcome t :=
  _ ← assertInLoopThread inLoop ;
  if decide (state_ c = kConnected \/ state_ c = kDisconnecting) then handleClose inLoop c
  else mret c.

(** ** Reading *)
Definition startReadInLoop (inLoop : bool) (c : t) : outcome t :=
  _ ← assertInLoopThread inLoop ;
  mret (if negb (reading_ c) || negb (isReading c)
        then (let c := enableReading c in set_channel c (events_ c) (inLoop_ c) true) else c).

Definition stopReadInLoop (inLoop : bool) (c : t) : outcome t :=
  _ ← assertInLoopThread inLoop ;
  mret (if reading_ c || isReading c
        then (let c := disableReading c in set_channel c (events_ c) (inLoop_ c) false) else c).

(** [startRead], [stopRead]: in the loop's thread at once, in another one queued. *)
Definition startRead (inLoop : bool) (c : t) : outcome t :=
  if inLoop then startReadInLoop true c else mret (queueInLoop c StartReadTask).
Definition stopRead (inLoop : bool) (c : t) : outcome t :=
  if inLoop then stopReadInLoop true c else mret (queueInLoop c StopReadTask).

Definition handleRead (inLoop : bool) (c : t) (readv : Z -> io_result) : outcome t :=
  _ ← assertInLoopThread inLoop ;
  r ← Buffer.readFd (inputBuffer_ c) readv ;
  match r with
  | (n, _, b) =>
      let data := match readv (Buffer.iov_size (inputBuffer_ c)) with IoData d => d | IoError _ => [] end in
      let c := set_input c b (received c ++ data) (consumed c) [] in
      if 0 <? n then mret (set_input c b (received c) (consumed c) [MessageCallback])
      else if n =? 0 then handleClose inLoop c
      else mret c                                        (* handleError: logs SO_ERROR *)
  end.

(** ** Writing *)
Definition handleWrite (inLoop : bool) (c : t) (w : write_result) : outcome t :=
  _ ← assertInLoopThread inLoop ;
  if isWriting c then
    match w with
    | Wrote n =>
        if 0 <? n then
          let w' := wire c ++ take (Z.to_nat n) (Buffer.content (outputBuffer_ c)) in
          b ← Buffer.retrieve (outputBuffer_ c) n ;
          let c := set_output c b w' (accepted c) in
          if Buffer.readableBytes (outputBuffer_ c) =? 0 then
            let c := disableWriting c in
            let c := if writeCompleteCallback_ c then queueInLoop c WriteCompleteTask else c in
            if decide (state_ c = kDisconnecting) then shutdownInLoop inLoop c else mret c
          else mret c
        else mret c                                      (* LOG_ERROR *)
    | WriteError _ => mret c                             (* LOG_ERROR *)
    end
  else mret c.

(** ** Establishing and destroying *)
Definition connectEstablished (inLoop : bool) (c : t) : outcome t :=
  _ ← assertInLoopThread inLoop ;
  _ ← assert_ (bool_decide (state_ c = kConnecting)) ;
  let c := enableReading (set_state c kConnected []) in
  mret (set_state c kConnected [ConnectionCallback kConnected]).

Definition connectDestroyed (inLoop : bool) (c : t) : outcome t :=
  _ ← assertInLoopThread inLoop ;
  let c := if decide (state_ c = kConnected) then
             set_state (disableAll (set_state c kDisconnected [])) kDisconnected
               [ConnectionCallback kDisconnected]
           else c in
  c ← removeSelfFromLoop c ;
  mret (set_destroyed c).

(** [~TcpConnection] *)
Definition destroy (c : t) : outcome unit := assert_ (bool_decide (state_ c = kDisconnected)).

Definition connected (c : t) : bool := bool_decide (state_ c = kConnected).
Definition disconnected (c : t) : bool := bool_decide (state_ c = kDisconnected).
Definition stateToString (c : t) : bytes :=
  match state_ c with
  | kDisconnected => str "kDisconnected"
  | kDisconnecting => str "kDisconnecting"
  | kConnected => str "kConnected"
  | kConnecting => str "kConnecting"
  end.

(** [defaultMessageCallback], on the input buffer. *)
Definition defaultMessageCallback (buffer : Buffer.t) : Buffer.t := Buffer.retrieveAll buffer.

(** ** The connection in its environment *)

Inductive action :=
  | Establish
  | Send (inLoop : bool) (message : bytes) (w : write_result)
  | Shutdown (inLoop : bool)
  | ForceClose
  | ForceCloseWithDelay
  | DelayElapsed
  | RunTask (w : write_result)
  | Readable (readv : Z -> io_result)
  | Writable (w : write_result)
  | HangUp
  | StartRead (inLoop : bool)
  | StopRead (inLoop : bool)
  | Consume (n : Z)
  | Destroy
  | SetWriteComplete (cb : bool)
  | SetHighWaterMark (cb : bool) (mark : Z).

(** The next functor runs, in the loop's thread. *)
Definition run_task (c : t) (w : write_result) : outcome t :=
  match tasks c with
  | [] => mret c
  | x :: rest =>
      let c := set_tasks c rest (delayed c) in
      match x with
      | SendTask message => sendInLoop true c message w
      | ShutdownTask => shutdownInLoop true c
      | ForceCloseTask => forceCloseInLoop true c
      | WriteCompleteTask | HighWaterMarkTask _ => mret c
      | StartReadTask => startReadInLoop true c
      | StopReadTask => stopReadInLoop true c
      end
  end.

Definition exec (c : t) (a : action) : outcome t :=
  match a with
  | Establish => connectEstablished true c
  | Send inLoop message w => send inLoop c message w
  | Shutdown inLoop => shutdown inLoop c
  | ForceClose => mret (forceClose c)
  | ForceCloseWithDelay => mret (forceCloseWithDelay c)
  | DelayElapsed =>
      mret (match delayed c with O => c | S d => forceClose (set_tasks c (tasks c) d) end)
  | RunTask w => run_task c w
  | Readable readv => handleRead true c readv
  | Writable w => handleWrite true c w
  | HangUp => handleClose true c
  | StartRead inLoop => startRead inLoop c
  | StopRead inLoop => stopRead inLoop c
  | Consume n =>
      let data := take (Z.to_nat n) (Buffer.content (inputBuffer_ c)) in
      b ← Buffer.retrieve (inputBuffer_ c) n ;
      mret (set_input c b (received c) (consumed c ++ data) [])
  | Destroy => connectDestroyed true c
  | SetWriteComplete cb => mret (setWriteCompleteCallback c cb)
  | SetHighWaterMark cb mark => mret (setHighWaterMarkCallback c cb mark)
  end.

(** [write] transfers at most what it is given, and nothing once the writing half
    is shut down (it then fails with EPIPE). *)
Definition write_ok (c : t) (len : Z) (w : write_result) : Prop :=
  match w with
  | Wrote n => 0 <= n <= len /\ fin c = false
  | WriteError e => fin c = true -> e = EPIPE
  end.

Definition open (c : t) : Prop := state_ c = kConnected \/ state_ c = kDisconnecting.

(** When an action may happen.  The user has the connection from
    [connectEstablished] on, the channel reports events while it is open, and
    [connectDestroyed] is called once, on a connection that is closed or still
    connected.  [startRead] and [stopRead], also when queued, run on an open
    connection ([tcp_startRead_after_close] shows what happens otherwise).  The buffers stay below the largest vector. *)
Definition enabled (c : t) (a : action) : Prop :=
  match a with
  | Establish => state_ c = kConnecting
  | Send _ message w =>
      state_ c <> kConnecting /\ write_ok c (zlen message) w /\
      Buffer.room (outputBuffer_ c) (zlen message)
  | RunTask w =>
      (forall message rest, tasks c = SendTask message :: rest ->
        write_ok c (zlen message) w /\ Buffer.room (outputBuffer_ c) (zlen message)) /\
      (forall x rest, tasks c = x :: rest -> x = StartReadTask \/ x = StopReadTask -> open c)
  | Readable readv =>
      open c /\
      match readv (Buffer.iov_size (inputBuffer_ c)) with
      | IoData d => zlen d <= Buffer.iov_size (inputBuffer_ c) /\ Buffer.room (inputBuffer_ c) (zlen d)
      | IoError _ => True
      end
  | Writable w => open c /\ write_ok c (zlen (Buffer.content (outputBuffer_ c))) w
  | HangUp | StartRead _ | StopRead _ => open c
  | Consume n => 0 <= n <= zlen (Buffer.content (inputBuffer_ c))
  | Destroy => (state_ c = kConnected \/ state_ c = kDisconnected) /\ destroyed c = false
  | Shutdown _ | ForceClose | ForceCloseWithDelay | DelayElapsed => state_ c <> kConnecting
  | SetWriteComplete _ | SetHighWaterMark _ _ => True
  end.

(** ** The invariant *)
Record inv (c : t) : Prop := {
  i_out : Buffer.ok (outputBuffer_ c);
  i_in : Buffer.ok (inputBuffer_ c);
  i_events : 0 <= events_ c < 8;
  i_stream : accepted c = wire c ++ Buffer.content (outputBuffer_ c);
  i_writing : state_ c <> kDisconnected ->
    isWriting c = negb (zlen (Buffer.content (outputBuffer_ c)) =? 0);
  i_down : state_ c = kDisconnected -> events_ c = 0;
  i_connecting : state_ c = kConnecting -> tasks c = [];
  i_shutdown : ShutdownTask ∈ tasks c -> state_ c = kDisconnecting \/ state_ c = kDisconnected;
  i_fin : fin c = true -> state_ c = kDisconnected \/
    (state_ c = kDisconnecting /\ Buffer.content (outputBuffer_ c) = []);
  i_input : received c = consumed c ++ Buffer.content (inputBuffer_ c);
  i_loop : state_ c <> kConnecting -> destroyed c = false -> inLoop_ c = true;
  i_destroyed : destroyed c = true -> state_ c = kDisconnected;
  i_gone : destroyed c = true -> inLoop_ c = false;
}.

(** The interest bits. *)
Lemma event_cases (P : Z -> bool) :
  forallb (fun n => P (Z.of_nat n)) (List.seq 0 8) = true -> forall ev, 0 <= ev < 8 -> P ev = true.
Proof.
  intros Hall ev Hev. rewrite List.forallb_forall in Hall.
  specialize (Hall (Z.to_nat ev)). rewrite Z2Nat.id in Hall by lia. apply Hall.
  apply List.in_seq. lia.
Qed.

Definition writes (ev : Z) : bool := negb (Z.land ev Channel.kWriteEvent =? 0).
Definition small (ev : Z) : bool := (0 <=? ev) && (ev <? 8).

Lemma enableWriting_bits ev : 0 <= ev < 8 ->
  writes (Channel.enableWriting_ev ev) = true /\ 0 <= Channel.enableWriting_ev ev < 8.
Proof.
  intros Hev. pose proof (event_cases (fun e => writes (Channel.enableWriting_ev e) &&
    small (Channel.enableWriting_ev e)) eq_refl ev Hev) as H. unfold small in H.
  apply andb_true_iff in H as [? H]. split; [done|lia].
Qed.

Lemma disableWriting_bits ev : 0 <= ev < 8 ->
  writes (Channel.disableWriting_ev ev) = false /\ 0 <= Channel.disableWriting_ev ev < 8.
Proof.
  intros Hev. pose proof (event_cases (fun e => negb (writes (Channel.disableWriting_ev e)) &&
    small (Channel.disableWriting_ev e)) eq_refl ev Hev) as H. unfold small in H.
  apply andb_true_iff in H as [?%negb_true_iff H]. split; [done|lia].
Qed.

Lemma enableReading_bits ev : 0 <= ev < 8 ->
  writes (Channel.enableReading_ev ev) = writes ev /\ 0 <= Channel.enableReading_ev ev < 8.
Proof.
  intros Hev. pose proof (event_cases (fun e => Bool.eqb (writes (Channel.enableReading_ev e)) (writes e)
    && small (Channel.enableReading_ev e)) eq_refl ev Hev) as H. unfold small in H.
  apply andb_true_iff in H as [?%Bool.eqb_prop H]. split; [done|lia].
Qed.

Lemma disableReading_bits ev : 0 <= ev < 8 ->
  writes (Channel.disableReading_ev ev) = writes ev /\ 0 <= Channel.disableReading_ev ev < 8.
Proof.
  intros Hev. pose proof (event_cases (fun e => Bool.eqb (writes (Channel.disableReading_ev e)) (writes e)
    && small (Channel.disableReading_ev e)) eq_refl ev Hev) as H. unfold small in H.
  apply andb_true_iff in H as [?%Bool.eqb_prop H]. split; [done|lia].
Qed.

Lemma content_nil b : Buffer.ok b -> Buffer.readableBytes b = 0 <-> Buffer.content b = [].
Proof.
  intros Hok. rewrite (Buffer.readable_content b (Buffer.content b)) by by split. apply zlen_0.
Qed.

(** ** Every operation keeps the invariant *)

(** Fields that no invariant mentions may change freely. *)
Lemma inv_tasks c ts d :
  inv c -> (state_ c = kConnecting -> ts = []) ->
  (ShutdownTask ∈ ts -> ShutdownTask ∈ tasks c \/ state_ c = kDisconnecting) -> inv (set_tasks c ts d).
Proof. intros [] ? Hs. constructor; simpl; try done. intros [?|?]%Hs; auto. Qed.

Lemma inv_queueInLoop c x :
  inv c -> state_ c <> kConnecting -> (x = ShutdownTask -> state_ c = kDisconnecting) ->
  inv (queueInLoop c x).
Proof.
  intros ? ? Hx. apply inv_tasks; [done|done|]. intros [?|Heq%list_elem_of_singleton]%elem_of_app; auto.
Qed.

Lemma queue_rest_ok c message n r :
  Buffer.ok (outputBuffer_ c) -> 0 <= events_ c < 8 ->
  0 <= n -> 0 < r -> n + r = zlen message -> Buffer.room (outputBuffer_ c) (zlen message) ->
  exists c' ts b, queue_rest c message n r = Ok c' /\
    c' = set_channel (set_output (set_tasks c ts (delayed c)) b (wire c) (accepted c))
           (events_ c') (inLoop_ c') (reading_ c') /\
    (inLoop_ c' = inLoop_ c \/ inLoop_ c' = true) /\
    (ShutdownTask ∈ ts -> ShutdownTask ∈ tasks c) /\
    isWriting c' = true /\ 0 <= events_ c' < 8 /\
    Buffer.holds b (Buffer.content (outputBuffer_ c) ++ sub n r message) /\ zlen (sub n r message) = r.
Proof.
  intros Hok Hev Hn Hr Hlen Hroom.
  assert (zlen (sub n r message) = r) as Hsub by (apply zlen_sub; lia).
  destruct (Buffer.append_spec (outputBuffer_ c) (Buffer.content (outputBuffer_ c)) (sub n r message))
    as (b & Hb & Hh & _); [by split|unfold Buffer.room in *; lia|].
  pose proof (enableWriting_bits (events_ c) Hev) as [Hbit Hsmall].
  unfold queue_rest. set (hw := _ && _ && _).
  replace (outputBuffer_ (if hw then queueInLoop c _ else c)) with (outputBuffer_ c) by by destruct hw.
  rewrite Hb, bind_ok.
  exists (let c0 := if hw then queueInLoop c (HighWaterMarkTask
            (size_t (Buffer.readableBytes (outputBuffer_ c) + r))) else c in
     let c1 := set_output c0 b (wire c0) (accepted c0) in if isWriting c1 then c1 else enableWriting c1),
    (tasks (if hw then queueInLoop c (HighWaterMarkTask
            (size_t (Buffer.readableBytes (outputBuffer_ c) + r))) else c)), b.
  split; [done|]. destruct hw; simpl; unfold isWriting; simpl;
    destruct (negb (Z.land (events_ c) Channel.kWriteEvent =? 0)) eqn:E; simpl;
    (split_and!; [done|by auto| |done| | |done|done]);
    (done || apply Hev || apply Hsmall || by intros [?|Heq%list_elem_of_singleton]%elem_of_app).
Qed.

(** The shape of a connection after a send or a write. *)
Lemma inv_output c ts b w a ev il rd :
  inv c -> open c -> Buffer.ok b -> 0 <= ev < 8 -> il = inLoop_ c \/ il = true ->
  a = w ++ Buffer.content b -> writes ev = negb (zlen (Buffer.content b) =? 0) ->
  (fin c = true -> Buffer.content b = []) -> (ShutdownTask ∈ ts -> ShutdownTask ∈ tasks c) ->
  inv (set_channel (set_output (set_tasks c ts (delayed c)) b w a) ev il rd).
Proof.
  intros [] Hopen Hok Hev Hil Ha Hw Hfin Hts. constructor; simpl; try done.
  - intros Hd. destruct Hopen; congruence.
  - intros Hd. destruct Hopen; congruence.
  - auto.
  - intros Hf. pose proof (Hfin Hf). apply i_fin0 in Hf. tauto.
  - intros Hc Hd. destruct Hil as [->| ->]; auto.
  - intros Hd%i_destroyed0. destruct Hopen; congruence.
Qed.

Lemma set_same c :
  set_channel (set_output (set_tasks c (tasks c) (delayed c)) (outputBuffer_ c) (wire c) (accepted c))
    (events_ c) (inLoop_ c) (reading_ c) = c.
Proof. by destruct c. Qed.

(** Whether [sendInLoop] gives the message up. *)
Definition dropped (c : t) (w : write_result) : bool :=
  bool_decide (state_ c = kDisconnected) ||
  (bool_decide (Buffer.content (outputBuffer_ c) = []) &&
   match w with WriteError e => (e =? EPIPE) || (e =? ECONNRESET) | Wrote _ => false end).

Lemma writing_iff c : inv c -> open c -> isWriting c = negb (bool_decide (Buffer.content (outputBuffer_ c) = [])).
Proof.
  intros Hinv Hopen. rewrite (i_writing c Hinv) by (destruct Hopen; congruence). f_equal.
  case_bool_decide as E; [by rewrite E|]. apply Z.eqb_neq. by rewrite zlen_0.
Qed.

(** The whole message is queued. *)
Lemma queue_all_ok c message :
  inv c -> open c -> fin c = false -> Buffer.room (outputBuffer_ c) (zlen message) ->
  exists c', (if 0 <? zlen message
              then queue_rest (set_output c (outputBuffer_ c) (wire c) (accepted c ++ message)) message 0 (zlen message)
              else mret (set_output c (outputBuffer_ c) (wire c) (accepted c ++ message))) = Ok c' /\
    inv c' /\ state_ c' = state_ c /\ fin c' = fin c /\ calls c' = calls c /\
    accepted c' = accepted c ++ message.
Proof.
  intros Hinv Hopen Hfin Hroom. pose proof (i_out c Hinv) as Hok. pose proof (i_events c Hinv) as Hev.
  pose proof (i_stream c Hinv) as Hstream. set (c1 := set_output _ _ _ _).
  destruct (Z.ltb_spec 0 (zlen message)) as [Hpos|Hzero].
  - destruct (queue_rest_ok c1 message 0 (zlen message))
      as (c' & ts & b & -> & Hc' & Hil & Hts & Hwr' & Hev' & [Hb Hcb] & Hz); [done|done|lia|lia|lia|done|].
    exists c'. split; [done|]. rewrite sub_full in Hcb. simpl in Hcb. rewrite Hc'. simpl.
    split_and!; try done. apply (inv_output c); try done.
    + by rewrite Hcb, app_assoc, Hstream.
    + rewrite Hcb, zlen_app. pose proof (zlen_nonneg (Buffer.content (outputBuffer_ c))).
      rewrite (proj2 (Z.eqb_neq _ 0)) by lia. exact Hwr'.
    + congruence.
  - assert (message = []) as -> by (apply zlen_0; pose proof (zlen_nonneg message); lia).
    exists c1. assert (c1 = c) as -> by (subst c1; rewrite app_nil_r; by destruct c).
    by rewrite app_nil_r.
Qed.

(** The socket took the first [n] bytes at once. *)
Lemma wrote_ok c message n :
  inv c -> open c -> Buffer.content (outputBuffer_ c) = [] -> fin c = false -> 0 <= n <= zlen message ->
  Buffer.room (outputBuffer_ c) (zlen message) ->
  exists c', sendInLoop true c message (Wrote n) = Ok c' /\ inv c' /\ state_ c' = state_ c /\
    fin c' = fin c /\ calls c' = calls c /\ accepted c' = accepted c ++ message.
Proof.
  intros Hinv Hopen He Hfin Hn Hroom. pose proof (i_out c Hinv) as Hok.
  pose proof (i_events c Hinv) as Hev. pose proof (i_stream c Hinv) as Hstream.
  pose proof (writing_iff c Hinv Hopen) as Hwr. rewrite bool_decide_eq_true_2 in Hwr by done.
  assert (0 <= zlen message <= Buffer.max_size) as Hlen
    by (pose proof (zlen_nonneg message); unfold Buffer.room, Buffer.ok, zlen in *; lia).
  unfold sendInLoop. simpl. rewrite decide_False by (destruct Hopen; congruence).
  unfold try_write. rewrite Hwr, (proj2 (content_nil _ Hok) He). simpl.
  rewrite He, app_nil_r in Hstream. rewrite uwrap_small by (unfold Buffer.max_size in Hlen; lia).
  rewrite !assert_pass by (apply Z.leb_le; lia).
  destruct (Z.ltb_spec 0 (zlen message - n)) as [Hrest|Hall]; simpl.
  - rewrite (proj2 (Z.eqb_neq (zlen message - n) 0)) by lia. simpl. set (c1 := set_output _ _ _ _).
    destruct (queue_rest_ok c1 message n (zlen message - n))
      as (c' & ts & b & -> & Hc' & Hil & Hts & Hwr' & Hev' & [Hb Hcb] & Hz); [done|done|lia|lia|lia|done|].
    exists c'. split; [done|]. rewrite Hc'. simpl. split_and!; try done.
    simpl in Hcb. rewrite He in Hcb. simpl in Hcb. apply (inv_output c); try done.
    + rewrite Hcb, <- app_assoc, Hstream. f_equal. unfold sub.
      rewrite (take_ge (drop _ _)) by (rewrite length_drop; unfold zlen; lia). by rewrite take_drop.
    + rewrite Hcb. rewrite (proj2 (Z.eqb_neq _ 0)) by lia. exact Hwr'.
    + congruence.
  - assert (n = zlen message) as -> by lia. eexists. split; [done|]. rewrite Z.sub_diag. simpl.
    assert (take (Z.to_nat (zlen message)) message = message) as Htake by (apply take_ge; unfold zlen; lia).
    rewrite Htake. split_and!; try (by destruct (writeCompleteCallback_ c)).
    set (ts := if writeCompleteCallback_ c then tasks c ++ [WriteCompleteTask] else tasks c).
    assert (inv (set_channel (set_output (set_tasks c ts (delayed c)) (outputBuffer_ c) (wire c ++ message)
             (accepted c ++ message)) (events_ c) (inLoop_ c) (reading_ c))) as Hfinal.
    { apply inv_output; try done; [by left|..].
      - by rewrite He, app_nil_r, Hstream.
      - by rewrite He.
      - subst ts. case_match; [|done]. by intros [?|Heq%list_elem_of_singleton]%elem_of_app. }
    by subst ts; destruct (writeCompleteCallback_ c).
Qed.

Lemma sendInLoop_ok c message w :
  inv c -> state_ c <> kConnecting -> write_ok c (zlen message) w ->
  Buffer.room (outputBuffer_ c) (zlen message) ->
  exists c', sendInLoop true c message w = Ok c' /\ inv c' /\ state_ c' = state_ c /\ fin c' = fin c /\
    calls c' = calls c /\ accepted c' = accepted c ++ (if dropped c w then [] else message).
Proof.
  intros Hinv Hs Hw Hroom. unfold dropped.
  destruct (decide (state_ c = kDisconnected)) as [Hd|Hd].
  { exists c. unfold sendInLoop. rewrite decide_True, bool_decide_eq_true_2 by done. simpl.
    by rewrite app_nil_r. }
  rewrite (bool_decide_eq_false_2 _ Hd). simpl.
  assert (open c) as Hopen by (unfold open; destruct (state_ c); tauto).
  pose proof (i_out c Hinv) as Hok. pose proof (writing_iff c Hinv Hopen) as Hwr.
  destruct (decide (Buffer.content (outputBuffer_ c) = [])) as [He|He].
  - rewrite (bool_decide_eq_true_2 _ He) in *. destruct w as [n|e]; simpl.
    + destruct Hw as [Hn Hfin]. by apply wrote_ok.
    + unfold sendInLoop. simpl. rewrite decide_False by done.
      unfold try_write. rewrite Hwr, (proj2 (content_nil _ Hok) He). simpl.
      rewrite assert_pass by (apply Z.leb_le; lia).
      assert (negb (e =? EWOULDBLOCK) && ((e =? EPIPE) || (e =? ECONNRESET)) = (e =? EPIPE) || (e =? ECONNRESET))
        as -> by (unfold EWOULDBLOCK, EPIPE, ECONNRESET; bcases; simpl; (done || lia)).
      destruct ((e =? EPIPE) || (e =? ECONNRESET)) eqn:Ef; simpl.
      * eexists. split; [done|]. rewrite app_nil_r.
        assert (set_output c (outputBuffer_ c) (wire c) (accepted c) = c) as -> by by destruct c.
        done.
      * apply queue_all_ok; try done. destruct (fin c) eqn:Hfin; [|done]. simpl in Hw.
        by rewrite (Hw Hfin) in Ef.
  - rewrite (bool_decide_eq_false_2 _ He) in *. simpl. unfold sendInLoop. simpl. rewrite decide_False by done.
    unfold try_write. rewrite Hwr. simpl. rewrite assert_pass by (apply Z.leb_le; lia).
    apply queue_all_ok; try done. destruct (fin c) eqn:Hfin; [|done].
    by apply (i_fin c Hinv) in Hfin as [?|[_ ?]].
Qed.

(** Leaving the connected state with nothing else changed. *)
Lemma inv_disconnecting c k : inv c -> open c -> inv (set_state c kDisconnecting k).
Proof.
  intros [] Hopen. constructor; simpl; try done.
  - intros _. apply i_writing0. destruct Hopen; congruence.
  - by left.
  - intros Hf. apply i_fin0 in Hf as [Hd|[_ ?]]; [destruct Hopen; congruence|auto].
  - intros _. apply i_loop0. destruct Hopen; congruence.
  - intros Hd%i_destroyed0. destruct Hopen; congruence.
Qed.

Lemma shutdownInLoop_ok c :
  inv c -> state_ c = kDisconnecting \/ state_ c = kDisconnected ->
  exists c', shutdownInLoop true c = Ok c' /\ inv c' /\ state_ c' = state_ c /\
    (state_ c = kDisconnecting -> fin c' = true \/ isWriting c' = true) /\ calls c' = calls c.
Proof.
  intros Hinv Hs. unfold shutdownInLoop. simpl. eexists. split; [done|].
  destruct (isWriting c) eqn:E; [by auto|]. split_and!; [|done|by left|done].
  destruct Hinv. constructor; simpl; try done. intros _. destruct Hs as [Hs|Hs]; [right|by left].
  split; [done|]. rewrite i_writing0 in E by congruence.
  apply zlen_0. destruct (Z.eqb_spec (zlen (Buffer.content (outputBuffer_ c))) 0); done.
Qed.

Lemma handleClose_ok c :
  inv c -> open c ->
  exists c', handleClose true c = Ok c' /\ inv c' /\ state_ c' = kDisconnected /\
    calls c' = calls c ++ [ConnectionCallback kDisconnected; CloseCallback].
Proof.
  intros [] Hopen. assert (destroyed c = false) as Hnot.
  { apply not_true_is_false. intros Hd%i_destroyed0. destruct Hopen; congruence. }
  unfold handleClose. simpl.
  rewrite assert_pass by by apply bool_decide_eq_true_2. eexists. split; [done|].
  split_and!; [|done|simpl; by rewrite app_nil_r].
  constructor; simpl; try done; [by right|by left|congruence].
Qed.

Lemma forceClose_inv c : inv c -> inv (forceClose c).
Proof.
  intros Hinv. unfold forceClose. case_decide as Hopen; [|done].
  apply inv_queueInLoop; [by apply inv_disconnecting|done|done].
Qed.

Lemma forceCloseInLoop_ok c :
  inv c -> exists c', forceCloseInLoop true c = Ok c' /\ inv c' /\
    ((open c /\ state_ c' = kDisconnected /\
      calls c' = calls c ++ [ConnectionCallback kDisconnected; CloseCallback]) \/ c' = c).
Proof.
  intros Hinv. unfold forceCloseInLoop. simpl. case_decide as Hopen.
  - destruct (handleClose_ok c Hinv Hopen) as (c' & -> & ? & ? & ?). eauto 10.
  - exists c. split_and!; try done. by right.
Qed.

(** Only the channel's interest in reading changes. *)
Lemma inv_reading c ev il rd :
  inv c -> open c -> 0 <= ev < 8 -> il = inLoop_ c \/ il = true -> writes ev = writes (events_ c) ->
  inv (set_channel c ev il rd).
Proof.
  intros Hinv Hopen Hev Hil Hw. rewrite <- (set_same c).
  assert (inv (set_channel (set_output (set_tasks c (tasks c) (delayed c)) (outputBuffer_ c) (wire c) (accepted c))
            ev il rd)) as H; [|exact H]. apply inv_output; try done; try apply Hinv.
  - rewrite Hw. apply (i_writing c Hinv). destruct Hopen; congruence.
  - intros Hf. apply (i_fin c Hinv) in Hf as [?|[_ ?]]; [destruct Hopen; congruence|done].
Qed.

Lemma handleWrite_ok c w :
  inv c -> open c -> write_ok c (zlen (Buffer.content (outputBuffer_ c))) w ->
  exists c', handleWrite true c w = Ok c' /\ inv c' /\ state_ c' = state_ c /\ calls c' = calls c /\
    accepted c' = accepted c.
Proof.
  intros Hinv Hopen Hw. pose proof (i_out c Hinv) as Hok. unfold handleWrite. simpl.
  destruct (isWriting c) eqn:Hwr; [|by eauto 10]. destruct w as [n|e]; [|by eauto 10].
  destruct Hw as [Hn Hfin]. destruct (Z.ltb_spec 0 n) as [Hpos|]; [|by eauto 10].
  destruct (Buffer.retrieve_spec (outputBuffer_ c) (Buffer.content (outputBuffer_ c)) n)
    as (b & -> & [Hb Hcb] & _); [by split|lia|].
  rewrite bind_ok. simpl. set (w' := wire c ++ _).
  assert (accepted c = w' ++ Buffer.content b) as Hacc.
  { unfold w'. by rewrite Hcb, <- app_assoc, take_drop, (i_stream c Hinv). }
  pose proof (content_nil b Hb) as Hnil. destruct (Z.eqb_spec (Buffer.readableBytes b) 0) as [Hz|Hz].
  - apply Hnil in Hz. set (cw := if writeCompleteCallback_ c then _ else _).
    pose proof (disableWriting_bits (events_ c) (i_events c Hinv)) as [Hbit Hsmall].
    assert (inv cw /\ state_ cw = state_ c /\ calls cw = calls c /\ accepted cw = accepted c)
      as (Hcw & Hscw & Hcall & Hacw).
    { set (ts := if writeCompleteCallback_ c then tasks c ++ [WriteCompleteTask] else tasks c).
      assert (inv (set_channel (set_output (set_tasks c ts (delayed c)) b w' (accepted c))
                (Channel.disableWriting_ev (events_ c)) true (reading_ c))) as Hf.
      { apply inv_output; try done; [by right|by rewrite Hz|]. subst ts. case_match; [|done].
        by intros [?|Heq%list_elem_of_singleton]%elem_of_app. }
      subst ts cw. by destruct (writeCompleteCallback_ c). }
    destruct (decide (state_ cw = kDisconnecting)) as [Hd|Hd]; [|by eauto 10].
    destruct (shutdownInLoop_ok cw Hcw) as (c' & Hsd & Hc' & Hsc' & _ & Hcall'); [by left|].
    exists c'. split_and!; [done|done|congruence|congruence|]. unfold shutdownInLoop in Hsd. simpl in Hsd.
    injection Hsd as <-. by destruct (isWriting cw).
  - eexists. split; [done|]. split_and!; try done. rewrite <- (set_same (set_output c b w' (accepted c))).
    apply (inv_output c (tasks c) b w' (accepted c) (events_ c) (inLoop_ c) (reading_ c)); try done.
    + apply Hinv.
    + by left.
    + destruct (Z.eqb_spec (zlen (Buffer.content b)) 0) as [E|E]; [|exact Hwr].
      destruct Hz. by apply Hnil, zlen_0.
    + congruence.
Qed.

Lemma handleRead_ok c readv :
  inv c -> open c ->
  match readv (Buffer.iov_size (inputBuffer_ c)) with
  | IoData d => zlen d <= Buffer.iov_size (inputBuffer_ c) /\ Buffer.room (inputBuffer_ c) (zlen d)
  | IoError _ => True
  end ->
  exists c', handleRead true c readv = Ok c' /\ inv c' /\
    ((state_ c' = state_ c /\ (calls c' = calls c \/ calls c' = calls c ++ [MessageCallback])) \/
     (state_ c' = kDisconnected /\ calls c' = calls c ++ [ConnectionCallback kDisconnected; CloseCallback])).
Proof.
  intros Hinv Hopen Hr. unfold handleRead. simpl.
  destruct (readv (Buffer.iov_size (inputBuffer_ c))) as [d|e] eqn:E.
  - destruct Hr as [Hcap Hroom].
    destruct (Buffer.readFd_spec (inputBuffer_ c) (Buffer.content (inputBuffer_ c)) readv d)
      as (b & -> & [Hb Hcb] & _); [by split; [apply Hinv|]|done|done|done|].
    rewrite bind_ok.
    assert (forall k, inv (set_input c b (received c ++ d) (consumed c) k)) as Hc.
    { intros k. destruct Hinv. constructor; simpl; try done. by rewrite Hcb, app_assoc, i_input0. }
    destruct (Z.ltb_spec 0 (zlen d)) as [Hpos|Hzero].
    + eexists. split; [done|]. specialize (Hc ([] ++ [MessageCallback])).
      unfold set_input in *. simpl in *. rewrite app_nil_r. auto.
    + rewrite (proj2 (Z.eqb_eq (zlen d) 0)) by (pose proof (zlen_nonneg d); lia).
      destruct (handleClose_ok _ (Hc []) Hopen) as (c' & -> & ? & ? & Hcalls). simpl in Hcalls.
      rewrite app_nil_r in Hcalls. eauto 10.
  - unfold Buffer.readFd. rewrite E. simpl. eexists. split; [done|]. split.
    + destruct Hinv. constructor; simpl; try done. by rewrite app_nil_r.
    + simpl. rewrite app_nil_r. auto.
Qed.

(** Replacing the input buffer by one that holds what is not consumed yet. *)
Lemma inv_set_input c b r k cb :
  inv c -> Buffer.ok b -> r = k ++ Buffer.content b -> inv (set_input c b r k cb).
Proof. intros [] Hb ->. by constructor. Qed.

(** A read that returns data appends it to the input buffer and calls the user. *)
Lemma handleRead_data c d :
  inv c -> 0 < zlen d <= Buffer.iov_size (inputBuffer_ c) -> Buffer.room (inputBuffer_ c) (zlen d) ->
  exists b, handleRead true c (fun _ => IoData d) =
      Ok (set_input c b (received c ++ d) (consumed c) [MessageCallback]) /\
    Buffer.holds b (Buffer.content (inputBuffer_ c) ++ d).
Proof.
  intros Hinv Hlen Hroom. unfold handleRead. cbn [mbind outcome_bind assertInLoopThread].
  destruct (Buffer.readFd_spec (inputBuffer_ c) (Buffer.content (inputBuffer_ c)) (fun _ => IoData d) d)
    as (b & -> & Hb & _); [by split; [apply Hinv|]|done|lia|done|].
  rewrite bind_ok, (proj2 (Z.ltb_lt 0 _)) by lia. exists b. split; [|done].
  unfold set_input. simpl. by rewrite app_nil_r.
Qed.

(** Sending does not touch the input. *)
Definition input (c : t) : Buffer.t * bytes * bytes := (inputBuffer_ c, received c, consumed c).

Lemma sendInLoop_input c message w c' : sendInLoop true c message w = Ok c' -> input c' = input c.
Proof.
  assert (forall c0 x, input (queueInLoop c0 x) = input c0) as Hq by done.
  assert (forall c0 n r c1, queue_rest c0 message n r = Ok c1 -> input c1 = input c0) as Hrest.
  { intros c0 n r c1. unfold queue_rest. destruct (Buffer.append _ _) as [b|]; simpl; [|done].
    intros [= <-]. by repeat case_match. }
  unfold sendInLoop. simpl. case_decide; [by intros [= <-]|].
  destruct (try_write c message w) as [[[c0 n] r] fatal] eqn:E.
  assert (input c0 = input c) as <-.
  { unfold try_write in E. repeat case_match; by simplify_eq. }
  destruct (_ <=? _); simpl; [|done]. case_match; [by intros ->%Hrest|by intros [= <-]].
Qed.

Lemma connectEstablished_ok c :
  inv c -> enabled c Establish -> exists c', exec c Establish = Ok c' /\ inv c'.
Proof.
  intros Hinv Ha. simpl in *.
  unfold connectEstablished. simpl. rewrite assert_pass by by apply bool_decide_eq_true_2.
  eexists. split; [done|].
  pose proof (enableReading_bits (events_ c) (i_events c Hinv)) as [Hbit Hsmall].
  destruct Hinv. constructor; simpl; try done.
  - intros _. change (writes (Channel.enableReading_ev (events_ c)) =
      negb (zlen (Buffer.content (outputBuffer_ c)) =? 0)).
    rewrite Hbit. apply i_writing0. congruence.
  - intros Hin. rewrite (i_connecting0 Ha) in Hin. by apply not_elem_of_nil in Hin.
  - intros Hf. apply i_fin0 in Hf. destruct Hf as [?|[? _]]; congruence.
  - intros Hd%i_destroyed0. congruence.
  - intros Hd%i_destroyed0. congruence.
Qed.

Lemma startReadInLoop_ok c : inv c -> open c -> exists c', startReadInLoop true c = Ok c' /\ inv c'.
Proof.
  intros Hinv Ho. unfold startReadInLoop. simpl. eexists. split; [done|]. case_match; [|done].
  destruct (enableReading_bits (events_ c) (i_events c Hinv)). apply (inv_reading c); try done; by right.
Qed.

Lemma stopReadInLoop_ok c : inv c -> open c -> exists c', stopReadInLoop true c = Ok c' /\ inv c'.
Proof.
  intros Hinv Ho. unfold stopReadInLoop. simpl. eexists. split; [done|]. case_match; [|done].
  destruct (disableReading_bits (events_ c) (i_events c Hinv)). apply (inv_reading c); try done; by right.
Qed.

Lemma open_not_connecting c : open c -> state_ c <> kConnecting.
Proof. intros [E|E]; by rewrite E. Qed.

Lemma run_task_ok c w :
  inv c -> enabled c (RunTask w) -> exists c', exec c (RunTask w) = Ok c' /\ inv c'.
Proof.
  intros Hinv Ha. simpl in *.
  unfold run_task. destruct (tasks c) as [|x rest] eqn:Et; [eauto|].
  assert (state_ c <> kConnecting) as Hs.
  { intros Hcon. apply (i_connecting c Hinv) in Hcon. congruence. }
  assert (inv (set_tasks c rest (delayed c))) as Hc.
  { apply inv_tasks; [done|done|]. intros Hin. left. rewrite Et. by constructor. }
  destruct Ha as [Ha Ho]. destruct x as [message| | | |sz| |]; [| | |eauto..| |].
  - destruct (Ha message rest eq_refl) as [Hw Hroom].
    destruct (sendInLoop_ok (set_tasks c rest (delayed c)) message w) as (c' & -> & ? & _); eauto.
  - destruct (shutdownInLoop_ok _ Hc) as (c' & -> & ? & _); [|eauto].
    apply (i_shutdown c Hinv). rewrite Et. by constructor.
  - destruct (forceCloseInLoop_ok _ Hc) as (c' & -> & ? & _). eauto.
  - apply startReadInLoop_ok; [done|]. exact (Ho _ rest eq_refl (or_introl eq_refl)).
  - apply stopReadInLoop_ok; [done|]. exact (Ho _ rest eq_refl (or_intror eq_refl)).
Qed.

Lemma connectDestroyed_ok c :
  inv c -> enabled c Destroy -> exists c', exec c Destroy = Ok c' /\ inv c'.
Proof.
  intros Hinv Ha. simpl in *.
  unfold connectDestroyed. simpl. case_decide as Hcon.
  - eexists. split; [done|]. destruct Hinv. constructor; simpl; try done; [by right|by left].
  - destruct Ha as [Ha Hnot]. assert (state_ c = kDisconnected) as Hd by tauto.
    pose proof (i_down c Hinv Hd) as Hev. unfold removeSelfFromLoop.
    rewrite assert_pass by (by rewrite Hev). rewrite assert_pass by (apply (i_loop c Hinv); congruence).
    eexists. split; [done|]. destruct Hinv. by constructor.
Qed.

Lemma exec_ok c a : inv c -> enabled c a -> exists c', exec c a = Ok c' /\ inv c'.
Proof.
  intros Hinv Ha.
  destruct a as [|il message w|il| | | |w|readv|w| |il|il|n| |cb|cb mark]; simpl in *.
  - by apply connectEstablished_ok.
  - destruct Ha as (Hs & Hw & Hroom). unfold send. case_decide as Hcon; [|eauto]. destruct il.
    + destruct (sendInLoop_ok c message w) as (c' & -> & ? & _); eauto.
    + eexists. split; [done|]. by apply inv_queueInLoop.
  - unfold shutdown. case_decide as Hcon; [|eauto].
    assert (inv (set_state c kDisconnecting [])) as Hd by (apply inv_disconnecting; [done|by left]).
    destruct il.
    + destruct (shutdownInLoop_ok _ Hd) as (c' & -> & ? & _); [by left|eauto].
    + eexists. split; [done|]. by apply inv_queueInLoop.
  - eexists. split; [done|]. by apply forceClose_inv.
  - eexists. split; [done|]. unfold forceCloseWithDelay. case_decide as Hs; [|done].
    apply inv_tasks; [|done|by auto]. apply inv_disconnecting; [done|]. unfold open. tauto.
  - eexists. split; [done|]. case_match; [done|]. apply forceClose_inv, inv_tasks; auto. done.
  - by apply run_task_ok.
  - destruct Ha as [Hopen Hr]. destruct (handleRead_ok c readv) as (c' & -> & ? & _); eauto.
  - destruct Ha as [Hopen Hw]. destruct (handleWrite_ok c w) as (c' & -> & ? & _); eauto.
  - destruct (handleClose_ok c) as (c' & -> & ? & _); eauto.
  - destruct il; [by apply startReadInLoop_ok|]. eexists. split; [done|].
    apply inv_queueInLoop; [done|by apply open_not_connecting|done].
  - destruct il; [by apply stopReadInLoop_ok|]. eexists. split; [done|].
    apply inv_queueInLoop; [done|by apply open_not_connecting|done].
  - destruct (Buffer.retrieve_spec (inputBuffer_ c) (Buffer.content (inputBuffer_ c)) n)
      as (b & -> & [Hb Hcb] & _); [by split; [apply Hinv|]|done|].
    eexists. split; [done|]. destruct Hinv. constructor; simpl; try done.
    by rewrite Hcb, <- app_assoc, take_drop.
  - by apply connectDestroyed_ok.
  - eexists. split; [done|]. by destruct Hinv.
  - eexists. split; [done|]. by destruct Hinv.
Qed.

Lemma connectDestroyed_state c c' :
  connectDestroyed true c = Ok c' ->
  inLoop_ c' = false /\ destroyed c' = true /\
  (state_ c = kConnected \/ state_ c = kDisconnected -> state_ c' = kDisconnected).
Proof.
  unfold connectDestroyed, removeSelfFromLoop. simpl. case_decide as Hc; simpl.
  - intros [= <-]. done.
  - destruct (_ =? _); [|done]. simpl. destruct (inLoop_ c); [|done]. intros [= <-]. simpl.
    split_and!; [done|done|]. by intros [?|?].
Qed.

(** ** Reachable connections *)
Definition step (c c' : t) : Prop := exists a, enabled c a /\ exec c a = Ok c'.

Lemma inv_new wc hw : inv (new wc hw).
Proof.
  destruct (Buffer.new_holds Buffer.kInitialSize) as [Hok Hc];
    [unfold Buffer.kInitialSize; lia|unfold Buffer.kInitialSize, Buffer.kCheapPrepend, Buffer.max_size; lia|].
  constructor; simpl; try done. intros Hin. by apply not_elem_of_nil in Hin.
Qed.

Lemma step_conn_inv c c' : step c c' -> inv c -> inv c'.
Proof.
  intros (a & Ha & He) Hinv. destruct (exec_ok c a Hinv Ha) as (c1 & He' & ?). congruence.
Qed.

Lemma reachable_conn_inv wc hw c : rtc step (new wc hw) c -> inv c.
Proof.
  intros Hr. pose proof (inv_new wc hw) as Hi. induction Hr as [|c1 c2 c3 Hs _ IH]; [done|].
  apply IH. by eapply step_conn_inv.
Qed.

(** The lifecycle callbacks, and what they must be in each state. *)
Definition is_lifecycle (k : callback) : Prop := k <> MessageCallback.
#[global] Instance is_lifecycle_dec k : Decision (is_lifecycle k).
Proof. unfold is_lifecycle. destruct k; [left|right|left]; (done || tauto). Defined.

Definition lifecycle (c : t) : list callback := filter is_lifecycle (calls c).
Definition up : callback := ConnectionCallback kConnected.
Definition down : callback := ConnectionCallback kDisconnected.

Definition lifecycle_ok (c : t) : Prop :=
  match state_ c with
  | kConnecting => lifecycle c = []
  | kConnected | kDisconnecting => lifecycle c = [up]
  | kDisconnected => lifecycle c = [up; down; CloseCallback] \/ lifecycle c = [up; down]
  end.

(** What an action may do to the state and to the callbacks. *)
Inductive effect (c c' : t) : Prop :=
  | eff_same : state_ c' = state_ c -> lifecycle c' = lifecycle c -> effect c c'
  | eff_up : state_ c = kConnecting -> state_ c' = kConnected -> lifecycle c' = lifecycle c ++ [up] ->
      effect c c'
  | eff_leaving : open c -> state_ c' = kDisconnecting -> lifecycle c' = lifecycle c -> effect c c'
  | eff_down k : open c -> state_ c' = kDisconnected -> k = [down; CloseCallback] \/ k = [down] ->
      lifecycle c' = lifecycle c ++ k -> effect c c'.

Lemma lifecycle_app c c' k : calls c' = calls c ++ k -> lifecycle c' = lifecycle c ++ filter is_lifecycle k.
Proof. unfold lifecycle. intros ->. by rewrite filter_app. Qed.

Lemma eff_calls c c' : state_ c' = state_ c -> calls c' = calls c -> effect c c'.
Proof. intros ? E. apply eff_same; [done|]. unfold lifecycle. by rewrite E. Qed.

Lemma eff_close c c' :
  open c -> state_ c' = kDisconnected ->
  calls c' = calls c ++ [ConnectionCallback kDisconnected; CloseCallback] -> effect c c'.
Proof. intros ? ? E. eapply eff_down; [done|done|by left|]. by rewrite (lifecycle_app c c' _ E). Qed.

Lemma eff_disconnecting c c' : open c -> state_ c' = kDisconnecting -> calls c' = calls c -> effect c c'.
Proof. intros ? ? E. apply eff_leaving; try done. unfold lifecycle. by rewrite E. Qed.

Lemma forceClose_effect c : effect c (forceClose c).
Proof.
  unfold forceClose. case_decide; [|by apply eff_calls].
  apply eff_disconnecting; [done|done|]. simpl. apply app_nil_r.
Qed.

Lemma run_task_effect c c' w :
  inv c -> enabled c (RunTask w) -> run_task c w = Ok c' -> effect c c'.
Proof.
  intros Hinv Ha. unfold run_task. destruct (tasks c) as [|x rest] eqn:Et; [intros [= <-]; by apply eff_calls|].
  assert (state_ c <> kConnecting) as Hs.
  { intros Hcon. apply (i_connecting c Hinv) in Hcon. congruence. }
  assert (inv (set_tasks c rest (delayed c))) as Hc.
  { apply inv_tasks; [done|done|]. intros Hin. left. rewrite Et. by constructor. }
  destruct Ha as [Ha Ho]. destruct x as [message| | | |sz| |];
    [| | |intros [= <-]; apply eff_calls; simpl; repeat case_match; done..].
  - destruct (Ha message rest Et) as [Hw Hroom].
    destruct (sendInLoop_ok (set_tasks c rest (delayed c)) message w) as (c1 & -> & _ & ? & _ & ? & _);
      [done..|]. intros [= <-]. by apply eff_calls.
  - destruct (shutdownInLoop_ok _ Hc) as (c1 & -> & _ & ? & _ & ?).
    { apply (i_shutdown c Hinv). rewrite Et. by constructor. }
    intros [= <-]. by apply eff_calls.
  - destruct (forceCloseInLoop_ok _ Hc) as (c1 & -> & _ & [(? & ? & ?)| ->]); intros [= <-].
    + by apply eff_close.
    + by apply eff_calls.
Qed.

Lemma exec_effect c a c' : inv c -> enabled c a -> exec c a = Ok c' -> effect c c'.
Proof.
  intros Hinv Ha. destruct a as [|il message w|il| | | |w|readv|w| |il|il|n| |cb|cb mark]; cbn [exec enabled] in *.
  - unfold connectEstablished. simpl. rewrite assert_pass by by apply bool_decide_eq_true_2.
    intros [= <-]. apply eff_up; [done|done|].
    erewrite lifecycle_app; [|simpl; rewrite app_nil_r; done]. done.
  - destruct Ha as (Hs & Hw & Hroom). unfold send. case_decide as Hcon; [|intros [= <-]; by apply eff_calls].
    destruct il; [|intros [= <-]; by apply eff_calls].
    destruct (sendInLoop_ok c message w) as (c1 & -> & _ & ? & _ & ? & _); [done..|].
    intros [= <-]. by apply eff_calls.
  - unfold shutdown. case_decide as Hcon; [|intros [= <-]; by apply eff_calls].
    assert (open c) as Hopen by by left.
    pose proof (inv_disconnecting c [] Hinv Hopen) as Hd.
    destruct il; [|intros [= <-]; apply eff_disconnecting; [done|done|simpl; apply app_nil_r]].
    destruct (shutdownInLoop_ok _ Hd) as (c1 & -> & _ & ? & _ & Hcalls); [by left|]. intros [= <-].
    apply eff_disconnecting; [done|done|]. rewrite Hcalls. simpl. apply app_nil_r.
  - intros [= <-]. apply forceClose_effect.
  - intros [= <-]. unfold forceCloseWithDelay. case_decide; [|by apply eff_calls].
    apply eff_disconnecting; [unfold open; tauto|done|simpl; apply app_nil_r].
  - intros [= <-]. destruct (delayed c); [by apply eff_calls|].
    destruct (forceClose_effect (set_tasks c (tasks c) n)); [by apply eff_same|by apply eff_up|by apply eff_leaving|by eapply eff_down].
  - by apply run_task_effect.
  - destruct Ha as [Hopen Hr]. destruct (handleRead_ok c readv) as (c1 & -> & _ & Hcase); [done..|].
    intros [= <-]. destruct Hcase as [[? [?|E]]|[? ?]]; [by apply eff_calls| |by apply eff_close].
    apply eff_same; [done|]. rewrite (lifecycle_app _ _ _ E). apply app_nil_r.
  - destruct Ha as [Hopen Hw]. destruct (handleWrite_ok c w) as (c1 & -> & _ & ? & ? & _); [done..|].
    intros [= <-]. by apply eff_calls.
  - destruct (handleClose_ok c) as (c1 & -> & _ & ? & ?); [done..|]. intros [= <-]. by apply eff_close.
  - destruct il; intros [= <-]; apply eff_calls; by repeat case_match.
  - destruct il; intros [= <-]; apply eff_calls; by repeat case_match.
  - destruct (Buffer.retrieve _ _); [|done]. intros [= <-]. apply eff_calls; [done|]. simpl. apply app_nil_r.
  - unfold connectDestroyed. simpl. case_decide as Hcon.
    + intros [= <-]. eapply eff_down; [by left|done|by right|].
      erewrite lifecycle_app; [|simpl; rewrite app_nil_r; done]. done.
    + unfold removeSelfFromLoop. destruct (events_ c =? Channel.kNoneEvent); [|done]. simpl.
      destruct (inLoop_ c); [|done].
      intros [= <-]. by apply eff_calls.
  - intros [= <-]. by apply eff_calls.
  - intros [= <-]. by apply eff_calls.
Qed.

Lemma effect_lifecycle c c' : effect c c' -> lifecycle_ok c -> lifecycle_ok c'.
Proof.
  unfold lifecycle_ok. intros [Hs Hl|Hs Hs' Hl|Hs Hs' Hl|k Hs Hs' Hk Hl] Hok; rewrite ?Hs'.
  - by rewrite Hs, Hl.
  - rewrite Hs in Hok. by rewrite Hl, Hok.
  - rewrite Hl. destruct Hs as [E|E]; by rewrite E in Hok.
  - rewrite Hl. assert (lifecycle c = [up]) as -> by (destruct Hs as [E|E]; by rewrite E in Hok).
    destruct Hk as [->| ->]; [by left|by right].
Qed.

(** ** What an operation queues and calls

    [change] is what an action of the user, of the peer or of the poller, or a queued
    functor, does to a connection that has been established: nothing any more once it
    is down; while it is open it may queue functors that own the connection or that
    [send] and [shutdown] hand over; and it may close it, reporting this once. *)
Definition reads (x : task) : bool := match x with StartReadTask | StopReadTask => true | _ => false end.

Inductive change (c c' : t) : Prop :=
  | ch_idle : state_ c = kDisconnected -> state_ c' = kDisconnected -> tasks c' = tasks c ->
      inLoop_ c' = inLoop_ c -> destroyed c' = destroyed c -> calls c' = calls c -> change c c'
  | ch_open ts k : open c -> open c' -> tasks c' = tasks c ++ ts -> Forall (fun x => reads x = false) ts ->
      calls c' = calls c ++ k -> Forall (fun x => x <> CloseCallback) k -> change c c'
  | ch_close : open c -> state_ c' = kDisconnected -> tasks c' = tasks c -> destroyed c' = destroyed c ->
      calls c' = calls c ++ [down; CloseCallback] -> change c c'.

(** The actions [change] describes.  [connectEstablished] and [connectDestroyed] are
    the server's, and what [startRead], [stopRead] called in other threads and
    [forceCloseWithDelay] leave behind is not bound to the life of the connection. *)
Definition usable (a : action) : bool :=
  match a with
  | Establish | Destroy | RunTask _ | ForceCloseWithDelay | DelayElapsed | StartRead false | StopRead false => false
  | _ => true
  end.

Lemma not_open c : state_ c <> kConnecting -> ~ open c -> state_ c = kDisconnected.
Proof. unfold open. destruct (state_ c); tauto. Qed.

Lemma ch_same c c' :
  state_ c <> kConnecting -> state_ c' = state_ c -> tasks c' = tasks c -> inLoop_ c' = inLoop_ c ->
  destroyed c' = destroyed c -> calls c' = calls c -> change c c'.
Proof.
  intros Hs E Ht Hl Hg Hk. destruct (decide (state_ c = kDisconnected)) as [Hd|Hd].
  - apply ch_idle; congruence.
  - apply (ch_open c c' [] []); rewrite ?app_nil_r; try done; unfold open; rewrite ?E; destruct (state_ c); tauto.
Qed.

(** An open connection stays open and calls nobody. *)
Lemma ch_queue c c' ts :
  open c -> open c' -> tasks c' = tasks c ++ ts -> Forall (fun x => reads x = false) ts ->
  calls c' = calls c -> change c c'.
Proof. intros. eapply (ch_open c c' ts []); rewrite ?app_nil_r; done. Qed.

Lemma open_state c c' : open c -> state_ c' = state_ c -> open c'.
Proof. unfold open. by intros ? ->. Qed.

(** Functors that only report to the user. *)
Definition reports (x : task) : bool :=
  match x with WriteCompleteTask | HighWaterMarkTask _ => true | _ => false end.

Lemma reports_reads ts : Forall (fun x => reports x = true) ts -> Forall (fun x => reads x = false) ts.
Proof. intros H. eapply Forall_impl; [exact H|]. by intros []. Qed.

Lemma queue_rest_tasks c message n r c' :
  queue_rest c message n r = Ok c' ->
  calls c' = calls c /\
  exists ts, tasks c' = tasks c ++ ts /\ (length ts <= 1)%nat /\ Forall (fun x => reports x = true) ts.
Proof.
  unfold queue_rest. destruct (Buffer.append _ _) as [b|]; simpl; [|done]. intros [= <-].
  split; [by repeat case_match|].
  destruct (_ && _ && _); [eexists [_]|exists []]; rewrite ?app_nil_r; (split; [by repeat case_match|]); simpl; auto.
Qed.

Lemma sendInLoop_tasks c message w c' :
  sendInLoop true c message w = Ok c' ->
  calls c' = calls c /\
  exists ts, tasks c' = tasks c ++ ts /\ (length ts <= 2)%nat /\ Forall (fun x => reports x = true) ts.
Proof.
  unfold sendInLoop. simpl. case_decide; [intros [= <-]; split; [done|]; exists []; rewrite app_nil_r; simpl; auto|].
  destruct (try_write c message w) as [[[c0 n] r] fatal] eqn:E.
  assert (calls c0 = calls c /\ exists ts, tasks c0 = tasks c ++ ts /\ (length ts <= 1)%nat /\
    Forall (fun x => reports x = true) ts) as (Hc & ts & Ht & Hlen & Hts).
  { unfold try_write in E. destruct (_ && _); [destruct w as [n0|e]; [destruct (_ && _)|]|]; simplify_eq;
      (split; [done|]); [eexists [_]; split; [done|]|exists []; rewrite app_nil_r..]; simpl; auto. }
  destruct (_ <=? _); simpl; [|done]. case_match.
  - intros (Hc' & ts' & Ht' & Hlen' & ?)%queue_rest_tasks. simpl in Ht', Hc'. split; [congruence|].
    exists (ts ++ ts'). rewrite Ht', Ht, app_assoc, length_app. split_and!; [done|lia|]. by apply Forall_app.
  - intros [= <-]. split; [done|]. exists ts. split_and!; [done|lia|done].
Qed.

Lemma handleWrite_tasks c w c' :
  handleWrite true c w = Ok c' ->
  exists ts, tasks c' = tasks c ++ ts /\ Forall (fun x => reads x = false) ts.
Proof.
  assert (exists ts, tasks c = tasks c ++ ts /\ Forall (fun x => reads x = false) ts) as Hnone
    by (exists []; by rewrite app_nil_r).
  unfold handleWrite. simpl. destruct (isWriting c); [|by intros [= <-]].
  destruct w as [n|e]; [|by intros [= <-]]. destruct (0 <? n); [|by intros [= <-]].
  destruct (Buffer.retrieve _ _) as [b|]; simpl; [|done]. destruct (_ =? 0); [|by intros [= <-]].
  unfold shutdownInLoop. simpl. intros E.
  assert (tasks c' = if writeCompleteCallback_ c then tasks c ++ [WriteCompleteTask] else tasks c) as ->.
  { revert E. destruct (writeCompleteCallback_ c); case_decide; intros [= <-]; try case_match; done. }
  destruct (writeCompleteCallback_ c); [|done]. eexists. split; [done|]. by repeat constructor.
Qed.

Lemma sendInLoop_change c message w c' :
  inv c -> state_ c <> kConnecting -> write_ok c (zlen message) w ->
  Buffer.room (outputBuffer_ c) (zlen message) -> sendInLoop true c message w = Ok c' -> change c c'.
Proof.
  intros Hinv Hs Hw Hroom E. destruct (decide (state_ c = kDisconnected)) as [Hd|Hd].
  { revert E. unfold sendInLoop. simpl. rewrite decide_True by done. intros [= <-]. by apply ch_same. }
  destruct (sendInLoop_tasks c message w c' E) as (_ & ts & Ht & _ & Hts%reports_reads).
  destruct (sendInLoop_ok c message w Hinv Hs Hw Hroom) as (c1 & E1 & _ & Hs1 & _ & Hk & _).
  rewrite E in E1. injection E1 as <-. assert (open c) by (unfold open; destruct (state_ c); tauto).
  apply (ch_queue c c' ts); try done. by eapply open_state.
Qed.

Lemma shutdownInLoop_change c c' :
  state_ c <> kConnecting -> shutdownInLoop true c = Ok c' -> change c c'.
Proof. intros Hs. unfold shutdownInLoop. simpl. intros [= <-]. destruct (isWriting c); by apply ch_same. Qed.

Lemma handleClose_change c c' : open c -> handleClose true c = Ok c' -> change c c'.
Proof.
  intros Hopen. unfold handleClose. simpl. rewrite assert_pass by by apply bool_decide_eq_true_2.
  intros [= <-]. apply ch_close; try done. simpl. by rewrite app_nil_r.
Qed.

Lemma run_task_change c w c' x rest :
  inv c -> enabled c (RunTask w) -> tasks c = x :: rest -> reads x = false -> run_task c w = Ok c' ->
  change (set_tasks c rest (delayed c)) c'.
Proof.
  intros Hinv [Ha _] Et Hx. unfold run_task. rewrite Et.
  assert (state_ c <> kConnecting) as Hs.
  { intros Hcon. apply (i_connecting c Hinv) in Hcon. congruence. }
  assert (inv (set_tasks c rest (delayed c))) as Hc.
  { apply inv_tasks; [done|done|]. intros Hin. left. rewrite Et. by constructor. }
  destruct x as [message| | | |sz| |]; try done; simpl.
  - destruct (Ha message rest Et) as [Hw Hroom]. by apply sendInLoop_change.
  - by apply shutdownInLoop_change.
  - unfold forceCloseInLoop. simpl. case_decide as Hopen; [by apply handleClose_change|].
    intros [= <-]. by apply ch_same.
  - intros [= <-]. by apply ch_same.
  - intros [= <-]. by apply ch_same.
Qed.

Lemma forceClose_change c : state_ c <> kConnecting -> change c (forceClose c).
Proof.
  intros Hs. unfold forceClose. case_decide as Hopen; [|by apply ch_same].
  apply (ch_queue _ _ [ForceCloseTask]); try done; [by right|by repeat constructor|simpl; by rewrite app_nil_r].
Qed.

Lemma shutdown_change il c c' :
  state_ c <> kConnecting -> shutdown il c = Ok c' -> change c c'.
Proof.
  intros Hs. unfold shutdown. case_decide as Hcon; [|intros [= <-]; by apply ch_same].
  assert (open c) as Hopen by by left. destruct il.
  - unfold shutdownInLoop. simpl. intros [= <-].
    apply (ch_queue _ _ []); try done; [by right; case_match|case_match; simpl; by rewrite app_nil_r..].
  - intros [= <-]. apply (ch_queue _ _ [ShutdownTask]); try done; [by right|by repeat constructor|].
    simpl. by rewrite app_nil_r.
Qed.

Lemma handleRead_change c readv c' :
  open c -> handleRead true c readv = Ok c' -> change c c'.
Proof.
  intros Hopen. unfold handleRead. simpl. destruct (Buffer.readFd _ _) as [[[n ?] b]|]; [|done].
  rewrite bind_ok. destruct (0 <? n).
  - intros [= <-]. eapply (ch_open _ _ [] [MessageCallback]); simpl; rewrite ?app_nil_r; try done.
    by repeat constructor.
  - destruct (n =? 0); [|intros [= <-]; apply (ch_queue _ _ []); simpl; rewrite ?app_nil_r; done].
    unfold handleClose. simpl. rewrite assert_pass by by apply bool_decide_eq_true_2.
    intros [= <-]. apply ch_close; try done. simpl. by rewrite !app_nil_r.
Qed.

Lemma exec_change c a c' :
  inv c -> usable a = true -> state_ c <> kConnecting -> enabled c a -> exec c a = Ok c' -> change c c'.
Proof.
  intros Hinv Hu Hs Ha.
  destruct a as [|il message w|il| | | |w|readv|w| |il|il|n| |cb|cb mark]; try done; cbn [exec enabled] in *.
  - destruct Ha as (_ & Hw & Hroom). unfold send. case_decide as Hcon; [|intros [= <-]; by apply ch_same].
    destruct il; [by apply sendInLoop_change|]. intros [= <-].
    apply (ch_queue _ _ [SendTask message]); try done; [by left..|by repeat constructor].
  - by apply shutdown_change.
  - intros [= <-]. by apply forceClose_change.
  - destruct Ha as [Hopen _]. by apply handleRead_change.
  - destruct Ha as [Hopen Hw]. intros E. destruct (handleWrite_tasks c w c' E) as (ts & Ht & Hts).
    destruct (handleWrite_ok c w Hinv Hopen Hw) as (c1 & E1 & _ & Hs1 & Hk & _). rewrite E in E1. injection E1 as <-.
    apply (ch_queue c c' ts); try done. by eapply open_state.
  - by apply handleClose_change.
  - destruct il; [|done]. unfold startRead, startReadInLoop. simpl. intros [= <-].
    apply (ch_queue _ _ []); try done; [by eapply open_state; [|case_match]|rewrite app_nil_r; by case_match|by case_match].
  - destruct il; [|done]. unfold stopRead, stopReadInLoop. simpl. intros [= <-].
    apply (ch_queue _ _ []); try done; [by eapply open_state; [|case_match]|rewrite app_nil_r; by case_match|by case_match].
  - destruct (Buffer.retrieve _ _); [|done]. intros [= <-]. apply ch_same; try done. simpl. apply app_nil_r.
  - intros [= <-]. by apply ch_same.
  - intros [= <-]. by apply ch_same.
Qed.

Lemma reachable_lifecycle wc hw c : rtc step (new wc hw) c -> lifecycle_ok c.
Proof.
  intros Hr. pose proof (inv_new wc hw) as Hi.
  assert (lifecycle_ok (new wc hw)) as Hl by done.
  induction Hr as [|c1 c2 c3 Hs _ IH]; [done|]. apply IH; [by eapply step_conn_inv|].
  destruct Hs as (a & Ha & He). eapply effect_lifecycle; [by eapply exec_effect|done].
Qed.

(** C2. Stream integrity: whatever the user, the peer, the kernel and other
    threads do, the bytes the socket has taken followed by the bytes still in the
    output buffer are the accepted messages, complete and in order; the bytes
    consumed followed by the input buffer are the bytes read; an open connection
    waits for writability exactly while output is pending; and while it is open its
    writing half is only shut down when everything has been written. *)
Theorem tcp_stream_integrity wc hw c :
  rtc step (new wc hw) c ->
  accepted c = wire c ++ Buffer.content (outputBuffer_ c) /\
  received c = consumed c ++ Buffer.content (inputBuffer_ c) /\
  (open c -> isWriting c = true <-> Buffer.content (outputBuffer_ c) <> []) /\
  (open c -> fin c = true -> wire c = accepted c).
Proof.
  intros Hr. pose proof (reachable_conn_inv wc hw c Hr) as Hinv. split_and!; try apply Hinv.
  - intros Hopen. rewrite (writing_iff c Hinv Hopen). case_bool_decide; split; intros; (done || congruence).
  - intros Hopen Hf. rewrite (i_stream c Hinv). apply (i_fin c Hinv) in Hf as [?|[_ ->]].
    + destruct Hopen; congruence.
    + by rewrite app_nil_r.
Qed.

(** C3. No enabled operation of a reachable connection fails an assertion, its own,
    the channel's or the poller's [channelMap_.find] when the channel is removed, or
    runs out of a buffer.  [connectDestroyed] is enabled once: afterwards the poller
    does not have the channel any more, and a second call stops at its assertion. *)
Theorem tcp_operations_succeed wc hw c a :
  rtc step (new wc hw) c ->
  (enabled c a -> succeeds (exec c a)) /\
  (destroyed c = true -> exec c Destroy = Fault AssertFailed).
Proof.
  intros Hr. pose proof (reachable_conn_inv wc hw c Hr) as Hinv. split.
  - intros Ha. destruct (exec_ok c a) as (c' & -> & _); [done|done|by eexists].
  - intros Hd. pose proof (i_destroyed c Hinv Hd) as Hs. cbn [exec]. unfold connectDestroyed. simpl.
    rewrite decide_False by congruence. unfold removeSelfFromLoop.
    rewrite (i_down c Hinv Hs), (i_gone c Hinv Hd). done.
Qed.

(** C4. The lifecycle: the connection is reported up once, when established, and
    down once, when it is closed or destroyed, the close callback is called at most
    once and only on a connection that is down, the state only moves forward, and
    after [connectDestroyed] the channel is out of the loop and the destructor's
    assertion holds. *)
Theorem tcp_lifecycle wc hw c :
  rtc step (new wc hw) c ->
  lifecycle_ok c /\
  (forall c', step c c' ->
     state_ c' = state_ c \/ (state_ c = kConnecting /\ state_ c' = kConnected) \/
     (open c /\ (state_ c' = kDisconnecting \/ state_ c' = kDisconnected))) /\
  (enabled c Destroy -> exists c', exec c Destroy = Ok c' /\ destroy c' = Ok () /\
     events_ c' = 0 /\ inLoop_ c' = false).
Proof.
  intros Hr. split_and!.
  - by eapply reachable_lifecycle.
  - intros c' (a & Ha & He). pose proof (reachable_conn_inv wc hw c Hr) as Hinv.
    destruct (exec_effect c a c' Hinv Ha He); auto.
  - intros Ha. pose proof (reachable_conn_inv wc hw c Hr) as Hinv.
    destruct (connectDestroyed_ok c Hinv Ha) as (c' & E & Hinv'). exists c'. split; [done|].
    cbn [exec] in E. destruct (connectDestroyed_state c c' E) as (? & _ & Hs).
    assert (state_ c' = kDisconnected) as Hd by (apply Hs; apply Ha).
    split_and!; [|by apply (i_down c' Hinv')|done]. unfold destroy. by rewrite Hd.
Qed.

(** Graceful shutdown: in a connection being shut down, the write event that
    takes the last pending byte sends FIN in the same handler: by then the socket
    has taken every accepted byte. *)
Theorem tcp_graceful_shutdown c :
  inv c -> state_ c = kDisconnecting -> fin c = false -> Buffer.content (outputBuffer_ c) <> [] ->
  exists c', handleWrite true c (Wrote (zlen (Buffer.content (outputBuffer_ c)))) = Ok c' /\
    fin c' = true /\ wire c' = accepted c /\ Buffer.content (outputBuffer_ c') = [] /\
    isWriting c' = false.
Proof.
  intros Hinv Hs Hf Hne. pose proof (zlen_nonneg (Buffer.content (outputBuffer_ c))) as Hlen.
  assert (open c) as Hopen by by right. pose proof (writing_iff c Hinv Hopen) as Hwr.
  rewrite bool_decide_eq_false_2 in Hwr by done.
  pose proof (disableWriting_bits (events_ c) (i_events c Hinv)) as [Hbit Hsmall].
  unfold handleWrite. simpl. rewrite Hwr. simpl.
  rewrite <- zlen_0 in Hne. rewrite (proj2 (Z.ltb_lt 0 _)) by lia.
  destruct (Buffer.retrieve_spec (outputBuffer_ c) (Buffer.content (outputBuffer_ c))
    (zlen (Buffer.content (outputBuffer_ c)))) as (b & -> & [Hb Hcb] & _);
    [split; [apply Hinv|done]|lia|].
  rewrite drop_ge in Hcb by (unfold zlen; lia).
  rewrite bind_ok. simpl. rewrite (proj2 (content_nil b Hb) Hcb). simpl.
  rewrite decide_True by by case_match. unfold shutdownInLoop. simpl.
  unfold isWriting. simpl. eexists. split; [done|].
  replace (events_ (if writeCompleteCallback_ c then _ else _)) with (Channel.disableWriting_ev (events_ c))
    by by case_match.
  change (negb (Z.land (Channel.disableWriting_ev (events_ c)) Channel.kWriteEvent =? 0))
    with (writes (Channel.disableWriting_ev (events_ c))). rewrite Hbit. simpl.
  rewrite take_ge by (unfold zlen; lia). rewrite (i_stream c Hinv).
  destruct (writeCompleteCallback_ c); done.
Qed.

(** [connectDestroyed] on a connection that is being shut down stops at the
    assertion of [removeSelfFromLoop]: only the connected state disables the
    channel first, so a connection still waiting for its peer's FIN (its interest
    is not empty) cannot be destroyed. *)
Theorem tcp_destroy_disconnecting c :
  state_ c = kDisconnecting -> events_ c <> 0 -> connectDestroyed true c = Fault AssertFailed.
Proof.
  intros Hs Hev. unfold connectDestroyed. simpl. rewrite decide_False by congruence.
  unfold removeSelfFromLoop. rewrite assert_stop; [done|]. by apply Z.eqb_neq.
Qed.

(** [startRead] on a connection that is closed, or queued by another thread before
    and run after the close, makes the channel interested in reading again: nothing
    clears this, and [connectDestroyed] stops at the assertion of
    [removeSelfFromLoop]. *)
Theorem tcp_startRead_after_close c :
  state_ c = kDisconnected -> 0 <= events_ c < 8 -> isReading c = false ->
  exists c', startReadInLoop true c = Ok c' /\ connectDestroyed true c' = Fault AssertFailed.
Proof.
  intros Hs Hev Hr. unfold startReadInLoop. simpl. rewrite Hr, orb_true_r. eexists. split; [done|].
  unfold connectDestroyed. simpl. rewrite decide_False by congruence.
  unfold removeSelfFromLoop. rewrite assert_stop; [done|]. simpl.
  assert (events_ c ∈ [0; 1; 2; 3; 4; 5; 6; 7]) as Hin by (rewrite !elem_of_cons; lia).
  revert Hin. by apply (proj1 (Forall_forall (fun e => (Channel.enableReading_ev e =? Channel.kNoneEvent) = false) _));
    repeat constructor.
Qed.

(** ** A concrete connection: established, "hello" half written, shut down *)
Definition result (c : t) (a : action) : t := match exec c a with Ok c' => c' | Fault _ => c end.

Lemma step_result c a : inv c -> enabled c a -> step c (result c a) /\ inv (result c a).
Proof.
  intros Hinv Ha. unfold result. destruct (exec_ok c a Hinv Ha) as (c' & E & ?). rewrite E.
  split; [|done]. by exists a.
Qed.

Definition demo0 : t := new true true.
Definition demo1 : t := result demo0 Establish.
Definition demo2 : t := result demo1 (Send true (str "hello") (Wrote 2)).
Definition demo3 : t := result demo2 (Shutdown true).

(** Another thread calls [startRead], the peer closes, the functor runs. *)
Example startRead_race :
  exec (result (result (result demo1 (StartRead false)) HangUp) (RunTask (Wrote 0))) Destroy = Fault AssertFailed.
Proof. vm_compute. reflexivity. Qed.

Lemma demo_reachable : rtc step demo0 demo3 /\ inv demo3.
Proof.
  destruct (step_result demo0 Establish) as [S1 I1]; [apply inv_new|done|]. fold demo1 in *.
  destruct (step_result demo1 (Send true (str "hello") (Wrote 2))) as [S2 I2]; [done| |].
  { split; [by vm_compute|]. split; [split; [|by vm_compute]|by vm_compute].
    change (zlen (str "hello")) with 5. lia. }
  fold demo2 in *. destruct (step_result demo2 (Shutdown true)) as [S3 I3]; [done|by vm_compute|].
  fold demo3 in *. split; [|done]. eapply rtc_l; [exact S1|]. eapply rtc_l; [exact S2|]. by apply rtc_once.
Qed.

Lemma tcp_stream_integrity_witness :
  str "hello" = wire demo3 ++ Buffer.content (outputBuffer_ demo3) /\
  received demo3 = consumed demo3 ++ Buffer.content (inputBuffer_ demo3) /\
  (open demo3 -> isWriting demo3 = true <-> Buffer.content (outputBuffer_ demo3) <> []) /\
  (open demo3 -> fin demo3 = true -> wire demo3 = accepted demo3).
Proof. exact (tcp_stream_integrity true true demo3 (proj1 demo_reachable)). Defined.

Lemma tcp_operations_succeed_witness : succeeds (exec demo3 (Writable (Wrote 3))).
Proof.
  apply (proj1 (tcp_operations_succeed true true demo3 (Writable (Wrote 3)) (proj1 demo_reachable))).
  split; [right; by vm_compute|]. split; [|by vm_compute].
  change (zlen (Buffer.content (outputBuffer_ demo3))) with (zlen (str "llo")). unfold zlen. simpl. lia.
Defined.

Lemma tcp_lifecycle_witness : lifecycle_ok demo3 /\ lifecycle demo3 = [up].
Proof.
  split; [|by vm_compute]. apply (tcp_lifecycle true true demo3 (proj1 demo_reachable)).
Defined.

Lemma tcp_graceful_shutdown_witness :
  exists c', handleWrite true demo3 (Wrote 3) = Ok c' /\ fin c' = true /\ wire c' = str "hello".
Proof.
  destruct (tcp_graceful_shutdown demo3) as (c' & E & Hf & Hw & _);
    [apply demo_reachable|by vm_compute|by vm_compute|by vm_compute|].
  exists c'. split; [exact E|]. split; [exact Hf|exact Hw].
Defined.

Lemma tcp_destroy_disconnecting_witness : connectDestroyed true demo3 = Fault AssertFailed.
Proof. apply (tcp_destroy_disconnecting demo3); by vm_compute. Defined.
End TcpConnection.
