(* ===== verification/Server.v ===== *)
(** Accepting connections: the pool of event loops
    (src/libel/net/eventloop_threadpool.h, eventloop_threadpool.cpp), the flags of the
    acceptor (acceptor.h) and the server (tcp_server.h, tcp_server.cpp). *)

From S2P Require Import Prelude NumText TimeText.

Module EventLoopThreadPool.

(** An event loop is a name. *)
Record t := mk {
  baseLoop_ : Z;
  name_ : bytes;
  started_ : bool;
  numThreads_ : Z;
  next_ : Z;
  loops_ : list Z;
}.

Definition new (baseLoop : Z) (name : bytes) : t :=
  {| baseLoop_ := baseLoop; name_ := name; started_ := false; numThreads_ := 0; next_ := 0; loops_ := [] |}.

Definition setThreadNum (p : t) (numThreads : Z) : t :=
  {| baseLoop_ := baseLoop_ p; name_ := name_ p; started_ := started_ p; numThreads_ := numThreads;
     next_ := next_ p; loops_ := loops_ p |}.

(** [startLoop i] is the loop the [i]-th new thread creates; the result also says on
    which loops the user's callback has been called by [start] itself. *)
Definition start (inLoop : bool) (hasCallback : bool) (startLoop : nat -> Z) (p : t)
  : outcome (t * list Z) :=
  _ ← assert_ (negb (started_ p)) ;
  _ ← assertInLoopThread inLoop ;
  let loops := map startLoop (seq 0 (Z.to_nat (numThreads_ p))) in
  mret ({| baseLoop_ := baseLoop_ p; name_ := name_ p; started_ := true; numThreads_ := numThreads_ p;
           next_ := next_ p; loops_ := loops_ p ++ loops |},
        if (numThreads_ p =? 0) && hasCallback then [baseLoop_ p] else []).

Definition getNextLoop (inLoop : bool) (p : t) : outcome (Z * t) :=
  _ ← assertInLoopThread inLoop ;
  _ ← assert_ (started_ p) ;
  match loops_ p with
  | [] => mret (baseLoop_ p, p)
  | _ =>
      loop ← deref (loops_ p !! Z.to_nat (next_ p)) ;
      let next := int32 (next_ p + 1) in
      let next := if zlen (loops_ p) <=? size_t next then 0 else next in
      mret (loop, {| baseLoop_ := baseLoop_ p; name_ := name_ p; started_ := started_ p;
                     numThreads_ := numThreads_ p; next_ := next; loops_ := loops_ p |})
  end.

Definition getLoopForHash (inLoop : bool) (p : t) (hashCode : Z) : outcome Z :=
  _ ← assertInLoopThread inLoop ;
  match loops_ p with
  | [] => mret (baseLoop_ p)
  | _ => deref (loops_ p !! Z.to_nat (hashCode mod zlen (loops_ p)))
  end.

Definition getAllLoops (inLoop : bool) (p : t) : outcome (list Z) :=
  _ ← assertInLoopThread inLoop ;
  _ ← assert_ (started_ p) ;
  mret (match loops_ p with [] => [baseLoop_ p] | _ => loops_ p end).

(** A started pool: the cursor points into the list. *)
Definition ok (p : t) : Prop :=
  started_ p = true /\ (loops_ p = [] \/ 0 <= next_ p < zlen (loops_ p)) /\ zlen (loops_ p) < 2 ^ 31.

(** The loop that serves the [k]-th connection. *)
Definition choice (p : t) (k : Z) : Z :=
  default (baseLoop_ p) (loops_ p !! Z.to_nat (k mod zlen (loops_ p))).

Lemma start_ok hasCallback startLoop p :
  started_ p = false -> loops_ p = [] -> next_ p = 0 -> 0 <= numThreads_ p < 2 ^ 31 ->
  exists p' cbs, start true hasCallback startLoop p = Ok (p', cbs) /\ ok p' /\ next_ p' = 0 /\
    loops_ p' = map startLoop (seq 0 (Z.to_nat (numThreads_ p))) /\ baseLoop_ p' = baseLoop_ p.
Proof.
  intros Hs Hl Hn Hr. unfold start. rewrite Hs. rewrite assert_pass by done. do 2 eexists.
  split; [done|]. unfold ok. cbn [started_ next_ loops_ baseLoop_]. rewrite Hl, Hn. cbn [app].
  unfold zlen. rewrite length_map, length_seq. split_and!; try done; [|lia].
  destruct (Z.to_nat (numThreads_ p)); [by left|]. right. lia.
Qed.

Lemma getNextLoop_spec p k :
  ok p -> 0 <= k -> (loops_ p <> [] -> next_ p = k mod zlen (loops_ p)) ->
  exists p', getNextLoop true p = Ok (choice p k, p') /\ ok p' /\ loops_ p' = loops_ p /\
    baseLoop_ p' = baseLoop_ p /\ (loops_ p' <> [] -> next_ p' = (k + 1) mod zlen (loops_ p')).
Proof.
  intros (Hst & Hc & Hl) Hk Hn. unfold getNextLoop. cbn [assertInLoopThread]. rewrite bind_ok, Hst.
  rewrite assert_pass by done. unfold choice.
  destruct (loops_ p) as [|l0 ls] eqn:El.
  { exists p. unfold ok. rewrite El. split_and!; done. }
  destruct Hc as [|Hc]; [done|]. specialize (Hn ltac:(done)). rewrite <- Hn.
  destruct (lookup_lt_is_Some_2 (l0 :: ls) (Z.to_nat (next_ p))) as [x Hx]; [unfold zlen in *; lia|].
  rewrite Hx. cbn [deref]. rewrite bind_ok. eexists. split; [done|]. unfold ok.
  cbn [started_ next_ loops_ baseLoop_].
  rewrite swrap_small, uwrap_small by (unfold in_int; simpl; lia).
  assert ((k + 1) mod zlen (l0 :: ls) =
    if zlen (l0 :: ls) <=? next_ p + 1 then 0 else next_ p + 1) as ->.
  { rewrite Hn, <- Zplus_mod_idemp_l, <- Hn. bcases.
    - replace (next_ p + 1) with (zlen (l0 :: ls)) by lia. apply Z_mod_same_full.
    - apply Z.mod_small. lia. }
  split_and!; try done. right. bcases; lia.
Qed.
End EventLoopThreadPool.

Module Acceptor.
(** The members of an acceptor that are neither its socket nor its channel (those
    are in the file Descriptors); [reading] is the interest of the channel. *)
Record t := mk { isListening_ : bool; reading : bool; idleFd_ : Z }.

Definition listen (inLoop : bool) (a : t) : outcome t :=
  _ ← assertInLoopThread inLoop ;
  mret {| isListening_ := true; reading := true; idleFd_ := idleFd_ a |}.
End Acceptor.

Module TcpServer.
(** A connection as the server sees it. *)
Record conn := mk_conn { conn_name : bytes; conn_loop : Z; conn_fd : Z }.
#[global] Instance conn_eq_dec : EqDecision conn.
Proof. solve_decision. Defined.

(** Work handed to the loop of a connection. *)
Inductive task := ConnectEstablished (c : conn) | ConnectDestroyed (c : conn).

Record t := mk {
  ipPort_ : bytes;
  name_ : bytes;
  acceptor_ : Acceptor.t;
  threadPool_ : EventLoopThreadPool.t;
  started_ : bool;
  nextConnId_ : Z;
  connections_ : gmap bytes conn;
  handed : list (Z * task);
}.

Definition new (loop : Z) (ipPort nameArg : bytes) (idleFd : Z) : t :=
  {| ipPort_ := ipPort; name_ := nameArg; acceptor_ := Acceptor.mk false false idleFd;
     threadPool_ := EventLoopThreadPool.new loop nameArg; started_ := false; nextConnId_ := 1;
     connections_ := ∅; handed := [] |}.

Definition setThreadNum (s : t) (numThreads : Z) : outcome t :=
  _ ← assert_ (0 <=? numThreads) ;
  mret {| ipPort_ := ipPort_ s; name_ := name_ s; acceptor_ := acceptor_ s;
          threadPool_ := EventLoopThreadPool.setThreadNum (threadPool_ s) numThreads;
          started_ := started_ s; nextConnId_ := nextConnId_ s; connections_ := connections_ s;
          handed := handed s |}.

(** [start], called in the acceptor's loop. *)
Definition start (hasCallback : bool) (startLoop : nat -> Z) (s : t) : outcome t :=
  if started_ s then mret s
  else
    r ← EventLoopThreadPool.start true hasCallback startLoop (threadPool_ s) ;
    _ ← assert_ (negb (Acceptor.isListening_ (acceptor_ s))) ;
    a ← Acceptor.listen true (acceptor_ s) ;
    mret {| ipPort_ := ipPort_ s; name_ := name_ s; acceptor_ := a; threadPool_ := r.1;
            started_ := true; nextConnId_ := nextConnId_ s; connections_ := connections_ s;
            handed := handed s |}.

(** name_ + buf, where snprintf(buf, 64, "-%s#%d", ipPort_, nextConnId_). *)
Definition connName (s : t) (i : Z) : bytes :=
  name_ s ++ CTime.snprintf 64 (str "-" ++ ipPort_ s ++ str "#" ++ CTime.fmt_d false 0 i).

Definition newConnection (inLoop : bool) (s : t) (sockfd : Z) : outcome t :=
  _ ← assertInLoopThread inLoop ;
  r ← EventLoopThreadPool.getNextLoop inLoop (threadPool_ s) ;
  let c := {| conn_name := connName s (nextConnId_ s); conn_loop := r.1; conn_fd := sockfd |} in
  mret {| ipPort_ := ipPort_ s; name_ := name_ s; acceptor_ := acceptor_ s; threadPool_ := r.2;
          started_ := started_ s; nextConnId_ := int32 (nextConnId_ s + 1);
          connections_ := <[conn_name c := c]> (connections_ s);
          handed := handed s ++ [(conn_loop c, ConnectEstablished c)] |}.

Definition removeConnectionInLoop (inLoop : bool) (s : t) (c : conn) : outcome t :=
  _ ← assertInLoopThread inLoop ;
  let n := match connections_ s !! conn_name c with Some _ => 1 | None => 0 end in
  _ ← assert_ (n =? 1) ;
  mret {| ipPort_ := ipPort_ s; name_ := name_ s; acceptor_ := acceptor_ s; threadPool_ := threadPool_ s;
          started_ := started_ s; nextConnId_ := nextConnId_ s;
          connections_ := delete (conn_name c) (connections_ s);
          handed := handed s ++ [(conn_loop c, ConnectDestroyed c)] |}.

(** [~TcpServer]: the loop of every connection left is handed [connectDestroyed]. *)
Definition destroy (inLoop : bool) (s : t) : outcome t :=
  _ ← assertInLoopThread inLoop ;
  mret {| ipPort_ := ipPort_ s; name_ := name_ s; acceptor_ := acceptor_ s; threadPool_ := threadPool_ s;
          started_ := started_ s; nextConnId_ := nextConnId_ s; connections_ := ∅;
          handed := handed s ++
            map (fun item => (conn_loop item.2, ConnectDestroyed item.2)) (map_to_list (connections_ s)) |}.

(** ** The life of the connections *)

(** [accepted] lists the connections in the order of arrival, [live] those whose
    close callback has not been called yet. *)
Record sys := mk_sys { srv : t; accepted : list conn; live : list conn }.

Inductive step : sys -> sys -> Prop :=
  | StepAccept x fd s' c :
      nextConnId_ (srv x) + 1 < 2 ^ 31 ->
      newConnection true (srv x) fd = Ok s' ->
      handed s' = handed (srv x) ++ [(conn_loop c, ConnectEstablished c)] ->
      step x (mk_sys s' (accepted x ++ [c]) (live x ++ [c]))
  | StepRemove x l1 c l2 s' :
      live x = l1 ++ c :: l2 -> removeConnectionInLoop true (srv x) c = Ok s' ->
      step x (mk_sys s' (accepted x) (l1 ++ l2)).

Definition task_conn (x : Z * task) : conn :=
  match x.2 with ConnectEstablished c | ConnectDestroyed c => c end.

(** The work handed out for [c], in order, with the loops it was handed to. *)
Definition work (s : t) (c : conn) : list (Z * task) := filter (fun x => task_conn x = c) (handed s).

Definition work_due (alive : bool) (c : conn) : list (Z * task) :=
  (conn_loop c, ConnectEstablished c) :: if alive then [] else [(conn_loop c, ConnectDestroyed c)].

Record inv (x : sys) : Prop := mk_inv {
  inv_short : zlen (ipPort_ (srv x)) <= 50;
  inv_id : nextConnId_ (srv x) = 1 + zlen (accepted x) /\ nextConnId_ (srv x) < 2 ^ 31;
  inv_pool : EventLoopThreadPool.ok (threadPool_ (srv x));
  inv_cursor : EventLoopThreadPool.loops_ (threadPool_ (srv x)) <> [] ->
    EventLoopThreadPool.next_ (threadPool_ (srv x)) =
    zlen (accepted x) mod zlen (EventLoopThreadPool.loops_ (threadPool_ (srv x)));
  inv_accepted : forall k c, accepted x !! k = Some c ->
    conn_name c = connName (srv x) (1 + Z.of_nat k) /\
    conn_loop c = EventLoopThreadPool.choice (threadPool_ (srv x)) (Z.of_nat k);
  inv_live : NoDup (live x) /\ (forall c, c ∈ live x -> c ∈ accepted x);
  inv_map : forall c, connections_ (srv x) !! conn_name c = Some c <-> c ∈ live x;
  inv_keys : forall n c, connections_ (srv x) !! n = Some c -> conn_name c = n;
  inv_work : forall c, c ∈ accepted x -> work (srv x) c = work_due (bool_decide (c ∈ live x)) c;
  inv_idle : forall c, c ∉ accepted x -> work (srv x) c = [];
}.

(** Names tell connections apart, as long as snprintf does not cut them. *)
Lemma connName_inj s i j :
  zlen (ipPort_ s) <= 50 -> 0 <= i < 2 ^ 31 -> 0 <= j < 2 ^ 31 -> connName s i = connName s j -> i = j.
Proof.
  intros Hip Hi Hj. unfold connName. intros E%app_inv_head.
  assert (forall v, 0 <= v < 2 ^ 31 ->
    CTime.snprintf 64 (str "-" ++ ipPort_ s ++ str "#" ++ CTime.fmt_d false 0 v) =
    str "-" ++ ipPort_ s ++ str "#" ++ Num2String.dec v) as Hfull.
  { intros v Hv. unfold CTime.fmt_d. rewrite (proj2 (Z.ltb_ge v 0)), Z.abs_eq by lia. cbn [replicate app Nat.sub].
    unfold CTime.snprintf. apply take_ge.
    pose proof (Num2String.zlen_dec 9 v ltac:(lia) ltac:(simpl; lia)).
    rewrite !length_app. unfold zlen in *. simpl length. lia. }
  rewrite !Hfull in E by done.
  apply app_inv_head, app_inv_head, app_inv_head in E.
  rewrite <- (Num2String.dec_value_dec i), <- (Num2String.dec_value_dec j) by lia. by rewrite E.
Qed.

Lemma work_snoc s s' c y :
  handed s' = handed s ++ [y] ->
  work s' c = work s c ++ (if decide (task_conn y = c) then [y] else []).
Proof.
  intros E. unfold work. rewrite E, filter_app. simpl. unfold filter at 2. simpl. by case_decide.
Qed.

Lemma accepted_named x c :
  inv x -> c ∈ accepted x -> exists k, accepted x !! k = Some c /\ 0 <= Z.of_nat k < zlen (accepted x) /\
    conn_name c = connName (srv x) (1 + Z.of_nat k).
Proof.
  intros Hx [k Hk]%list_elem_of_lookup. exists k. split; [done|].
  pose proof (lookup_lt_Some _ _ _ Hk). split; [unfold zlen; lia|]. by apply (inv_accepted x Hx).
Qed.

(** The name the next connection gets is new. *)
Lemma fresh_name x c :
  inv x -> conn_name c = connName (srv x) (1 + zlen (accepted x)) ->
  (c ∉ accepted x) /\ connections_ (srv x) !! conn_name c = None.
Proof.
  intros Hx Hn. pose proof (inv_id x Hx) as [Hid Hb]. pose proof (zlen_nonneg (accepted x)).
  assert (forall c', c' ∈ accepted x -> conn_name c' <> conn_name c) as Hne.
  { intros c' Hin E. destruct (accepted_named x c' Hx Hin) as (k & _ & Hk & Hn'). rewrite Hn', Hn in E.
    apply connName_inj in E; [lia|apply Hx|lia|lia]. }
  split; [intros Hin; by apply (Hne c)|].
  destruct (connections_ (srv x) !! conn_name c) as [c'|] eqn:E; [|done]. exfalso.
  pose proof (inv_keys x Hx _ _ E) as Hk. apply (Hne c'); [|done].
  apply (inv_live x Hx), (inv_map x Hx). by rewrite Hk.
Qed.

Lemma accept_keeps x fd :
  inv x -> nextConnId_ (srv x) + 1 < 2 ^ 31 ->
  exists s' c, newConnection true (srv x) fd = Ok s' /\
    handed s' = handed (srv x) ++ [(conn_loop c, ConnectEstablished c)] /\
    inv (mk_sys s' (accepted x ++ [c]) (live x ++ [c])) /\ (c ∉ accepted x).
Proof.
  intros Hx Hb. pose proof (inv_id x Hx) as [Hid _]. pose proof (zlen_nonneg (accepted x)) as Hz.
  pose proof (inv_live x Hx) as [Hnd Hsub].
  destruct (EventLoopThreadPool.getNextLoop_spec (threadPool_ (srv x)) (zlen (accepted x))
    (inv_pool x Hx) Hz (inv_cursor x Hx)) as (p' & E & Hok & Hloops & Hbase & Hcur).
  unfold newConnection. cbn [assertInLoopThread]. rewrite bind_ok, E, bind_ok. cbn [fst snd]. rewrite Hid.
  set (c := mk_conn _ _ _).
  assert (conn_name c = connName (srv x) (1 + zlen (accepted x))) as Hn by done.
  destruct (fresh_name x c Hx Hn) as [Hnew Hnone].
  do 2 eexists. split; [done|]. split; [done|]. fold c. split; [|done].
  assert (forall k, EventLoopThreadPool.choice p' k = EventLoopThreadPool.choice (threadPool_ (srv x)) k) as Hch
    by (intros k; unfold EventLoopThreadPool.choice; by rewrite Hloops, Hbase).
  rewrite swrap_small by (unfold in_int; simpl; lia).
  split; cbn [srv accepted live nextConnId_ threadPool_ ipPort_ connections_]; autorewrite with zlen.
  - apply Hx.
  - lia.
  - done.
  - intros Hne. rewrite (Hcur Hne). f_equal.
  - intros k c' [Hk|[Hk Hlast]]%lookup_snoc_Some.
    + rewrite Hch. exact (inv_accepted x Hx k c' (proj2 Hk)).
    + subst c'. rewrite Hch, Hk. unfold zlen in *. done.
  - split.
    + apply NoDup_app. split_and!; [done| |apply NoDup_singleton].
      intros c' Hin ->%list_elem_of_singleton. by apply Hnew, Hsub.
    + intros c'. rewrite !elem_of_app. intros [Hin|Hin]; auto.
  - intros c'. rewrite elem_of_app, list_elem_of_singleton. destruct (decide (conn_name c' = conn_name c)) as [En|En].
    + rewrite En, lookup_insert_eq. split; [intros [= ->]; by right|]. intros [Hin| ->]; [|done].
      exfalso. apply (inv_map x Hx) in Hin. rewrite En, Hnone in Hin. done.
    + rewrite lookup_insert_ne by congruence. rewrite (inv_map x Hx). naive_solver.
  - intros n c'. destruct (decide (n = conn_name c)) as [->|Hne].
    + rewrite lookup_insert_eq. by intros [= ->].
    + rewrite lookup_insert_ne by congruence. apply Hx.
  - intros c' Hin. erewrite work_snoc by done. cbn [task_conn snd]. rewrite elem_of_app, list_elem_of_singleton in Hin.
    destruct (decide (c = c')) as [<-|Hne].
    + rewrite (inv_idle x Hx c Hnew). rewrite bool_decide_true by (apply elem_of_app; right; by apply list_elem_of_singleton).
      done.
    + destruct Hin as [Hin|]; [|congruence]. rewrite app_nil_r, (inv_work x Hx c' Hin). f_equal.
      apply bool_decide_ext. rewrite elem_of_app, list_elem_of_singleton. naive_solver.
  - intros c'. rewrite elem_of_app, list_elem_of_singleton. intros Hno.
    erewrite work_snoc by done. cbn [task_conn snd]. destruct (decide (c = c')) as [<-|Hne]; [naive_solver|].
    rewrite app_nil_r. apply Hx. naive_solver.
Qed.

Lemma remove_keeps x l1 c l2 :
  inv x -> live x = l1 ++ c :: l2 ->
  exists s', removeConnectionInLoop true (srv x) c = Ok s' /\ inv (mk_sys s' (accepted x) (l1 ++ l2)).
Proof.
  intros Hx Hl. pose proof (inv_live x Hx) as [Hnd Hsub].
  assert (c ∈ live x) as Hc by (rewrite Hl; apply elem_of_app; right; by left).
  pose proof Hc as Hmap. apply (inv_map x Hx) in Hmap.
  unfold removeConnectionInLoop. cbn [assertInLoopThread]. rewrite bind_ok, Hmap, assert_pass by done.
  eexists. split; [done|]. rewrite Hl in Hnd.
  assert (l1 ++ c :: l2 ≡ₚ c :: l1 ++ l2) as Hp by solve_Permutation. rewrite Hp in Hnd.
  apply NoDup_cons in Hnd as [Hnc Hnd].
  assert (forall c', c' ∈ l1 ++ l2 <-> c' ∈ live x /\ c' <> c) as Hmem.
  { intros c'. rewrite Hl, Hp, elem_of_cons. naive_solver. }
  split; cbn [srv accepted live nextConnId_ threadPool_ ipPort_ connections_]; try apply Hx.
  - split; [done|]. intros c' Hin. apply Hsub. by apply Hmem in Hin as [? _].
  - intros c'. rewrite Hmem, lookup_delete_Some, (inv_map x Hx). split; [naive_solver|].
    intros [Hin Hne]. split; [|done]. intros En. apply Hne.
    apply (inv_map x Hx) in Hin. rewrite <- En in Hin. congruence.
  - intros n c' [_ Hn]%lookup_delete_Some. by apply Hx.
  - intros c' Hin. erewrite work_snoc by done. cbn [task_conn snd]. rewrite (inv_work x Hx c' Hin).
    destruct (decide (c = c')) as [<-|Hne].
    + by rewrite bool_decide_true, bool_decide_false.
    + rewrite app_nil_r. f_equal. apply bool_decide_ext. rewrite Hmem. naive_solver.
  - intros c' Hno. erewrite work_snoc by done. cbn [task_conn snd].
    destruct (decide (c = c')) as [<-|Hne]; [by destruct Hno; apply Hsub|].
    rewrite app_nil_r. by apply Hx.
Qed.

(** The loops of the pool do not change once it is started. *)
Lemma newConnection_loops s fd s' :
  newConnection true s fd = Ok s' ->
  EventLoopThreadPool.loops_ (threadPool_ s') = EventLoopThreadPool.loops_ (threadPool_ s) /\
  EventLoopThreadPool.baseLoop_ (threadPool_ s') = EventLoopThreadPool.baseLoop_ (threadPool_ s).
Proof.
  unfold newConnection. cbn [assertInLoopThread]. rewrite bind_ok.
  destruct (EventLoopThreadPool.getNextLoop true (threadPool_ s)) as [[l p]|f] eqn:E; [|done].
  rewrite bind_ok. intros [= <-]. cbn [threadPool_ fst snd]. revert E.
  unfold EventLoopThreadPool.getNextLoop. cbn [assertInLoopThread]. rewrite bind_ok.
  destruct (EventLoopThreadPool.started_ _); [|done]. rewrite assert_pass by done.
  destruct (EventLoopThreadPool.loops_ (threadPool_ s)) as [|l0 ls] eqn:El; [by intros [= _ <-]; rewrite El|].
  destruct (deref _) as [y|] eqn:Ed; [|done]. rewrite bind_ok. intros [= _ <-]. done.
Qed.

Lemma start_keeps loop ipPort nameArg idleFd numThreads hasCallback startLoop s0 s1 :
  zlen ipPort <= 50 -> numThreads < 2 ^ 31 ->
  setThreadNum (new loop ipPort nameArg idleFd) numThreads = Ok s0 ->
  start hasCallback startLoop s0 = Ok s1 ->
  inv (mk_sys s1 [] []) /\ 0 <= numThreads /\
  EventLoopThreadPool.loops_ (threadPool_ s1) = map startLoop (seq 0 (Z.to_nat numThreads)) /\
  EventLoopThreadPool.baseLoop_ (threadPool_ s1) = loop.
Proof.
  intros Hip Hn. unfold setThreadNum. destruct (Z.leb_spec 0 numThreads) as [Hn0|]; [|done].
  rewrite assert_pass by done. intros [= <-]. unfold start. cbn [started_ threadPool_ acceptor_].
  destruct (EventLoopThreadPool.start_ok hasCallback startLoop
    (EventLoopThreadPool.setThreadNum (EventLoopThreadPool.new loop nameArg) numThreads))
    as (p & cbs & -> & Hok & Hnext & Hloops & Hbase); [done..|].
  rewrite bind_ok. cbn [Acceptor.isListening_ negb]. rewrite assert_pass by done.
  intros [= <-]. cbn [threadPool_]. split; [|done].
  split; cbn [srv accepted live nextConnId_ threadPool_ ipPort_ connections_]; try done.
  - split; [constructor|]. intros c Hc. by apply elem_of_nil in Hc.
  - intros c. rewrite lookup_empty, elem_of_nil. done.
  - intros c Hc. by apply elem_of_nil in Hc.
Qed.

Lemma reachable_server loops base x0 x :
  inv x0 -> EventLoopThreadPool.loops_ (threadPool_ (srv x0)) = loops ->
  EventLoopThreadPool.baseLoop_ (threadPool_ (srv x0)) = base -> rtc step x0 x ->
  inv x /\ EventLoopThreadPool.loops_ (threadPool_ (srv x)) = loops /\
  EventLoopThreadPool.baseLoop_ (threadPool_ (srv x)) = base.
Proof.
  intros Hx0 Hl Hb Hreach. revert x Hreach. apply rtc_ind_r; [done|].
  intros x y _ Hs (Hx & Hlx & Hbx). destruct Hs as [x fd s' c Hid E Hh|x l1 c l2 s' Hlive E].
  - destruct (accept_keeps x fd Hx Hid) as (s2 & c2 & E2 & Hh2 & Hi2 & _). rewrite E in E2. injection E2 as <-.
    rewrite Hh in Hh2. apply app_inv_head in Hh2. injection Hh2 as _ <-.
    destruct (newConnection_loops (srv x) fd s' E) as [Hl' Hb']. cbn [srv]. split; [done|]. by rewrite Hl', Hb'.
  - destruct (remove_keeps x l1 c l2 Hx Hlive) as (s2 & E2 & Hi2). rewrite E in E2. injection E2 as <-.
    split; [done|]. unfold removeConnectionInLoop in E. cbn [assertInLoopThread] in E. rewrite bind_ok in E.
    destruct (connections_ (srv x) !! conn_name c); [|done]. rewrite assert_pass in E by done.
    by injection E as <-.
Qed.

(** The tasks for [c] among those for all connections of a table. *)
Lemma destroyed_once (m : gmap bytes conn) c :
  (forall n c', m !! n = Some c' -> conn_name c' = n) ->
  filter (fun x => task_conn x = c)
    (map (fun item => (conn_loop item.2, ConnectDestroyed item.2)) (map_to_list m)) =
  if bool_decide (m !! conn_name c = Some c) then [(conn_loop c, ConnectDestroyed c)] else [].
Proof.
  intros Hk.
  assert (forall m' : gmap bytes conn, (forall n, m' !! n <> Some c) ->
    filter (fun x => task_conn x = c)
      (map (fun item => (conn_loop item.2, ConnectDestroyed item.2)) (map_to_list m')) = []) as Hnone.
  { intros m' Hm'. destruct (filter _ _) as [|x l] eqn:E; [done|]. exfalso.
    assert (x ∈ x :: l) as Hx by (by left). rewrite <- E in Hx. apply list_elem_of_filter in Hx as [Hx Hin].
    apply list_elem_of_fmap in Hin as ([n c'] & -> & Hin). apply elem_of_map_to_list in Hin.
    unfold task_conn in Hx. simpl in Hx. subst c'. by apply (Hm' n). }
  case_bool_decide as Hc.
  - apply Permutation_singleton_r. rewrite <- (map_to_list_delete m _ _ Hc). simpl.
    rewrite filter_cons_True by done. rewrite Hnone; [done|].
    intros n [Hne Hn]%lookup_delete_Some. by apply Hk in Hn.
  - apply Hnone. intros n Hn. pose proof (Hk n c Hn). by subst n.
Qed.

Lemma destroy_work x :
  inv x -> exists s', destroy true (srv x) = Ok s' /\ connections_ s' = ∅ /\
    forall c, c ∈ accepted x -> work s' c = work_due false c.
Proof.
  intros Hx. eexists. split; [done|]. split; [done|]. intros c Hc. unfold work. simpl.
  rewrite filter_app, destroyed_once by apply Hx. fold (work (srv x) c).
  rewrite (inv_work x Hx c Hc). pose proof (inv_map x Hx c) as Hm.
  by destruct (decide (c ∈ live x)) as [Hl|Hl];
    [rewrite !bool_decide_true by tauto|rewrite !bool_decide_false by tauto].
Qed.

(** C16. Connections of a started server: the [k]-th connection accepted goes to the
    loops in turn (to the acceptor's own loop if there are no threads), names are
    unique, the table holds exactly the connections not yet removed, accepting and
    removing never fail an assertion, and for every connection its own loop is
    handed [connectEstablished] and, once it is removed, [connectDestroyed], in this
    order and nothing else; after the destructor this is true of all of them. *)
Theorem tcpserver_connections loop ipPort nameArg idleFd numThreads hasCallback startLoop s0 s1 x :
  zlen ipPort <= 50 -> numThreads < 2 ^ 31 ->
  setThreadNum (new loop ipPort nameArg idleFd) numThreads = Ok s0 ->
  start hasCallback startLoop s0 = Ok s1 -> rtc step (mk_sys s1 [] []) x ->
  (forall k c, accepted x !! k = Some c ->
     conn_loop c = if numThreads =? 0 then loop else startLoop (k mod Z.to_nat numThreads)%nat) /\
  NoDup (map conn_name (accepted x)) /\
  (forall c, connections_ (srv x) !! conn_name c = Some c <-> c ∈ live x) /\
  (forall c, c ∈ accepted x -> work (srv x) c = work_due (bool_decide (c ∈ live x)) c) /\
  (forall fd, nextConnId_ (srv x) + 1 < 2 ^ 31 -> succeeds (newConnection true (srv x) fd)) /\
  (forall c, c ∈ live x -> succeeds (removeConnectionInLoop true (srv x) c)) /\
  (exists s', destroy true (srv x) = Ok s' /\ connections_ s' = ∅ /\
     forall c, c ∈ accepted x -> work s' c = work_due false c).
Proof.
  intros Hip Hn E0 E1 Hreach.
  destruct (start_keeps _ _ _ _ _ _ _ _ _ Hip Hn E0 E1) as (Hi & Hn0 & Hl & Hb).
  destruct (reachable_server _ _ _ x Hi Hl Hb Hreach) as (Hx & Hlx & Hbx). split_and!; try apply Hx.
  - intros k c Hk. destruct (inv_accepted x Hx k c Hk) as [_ ->].
    unfold EventLoopThreadPool.choice. rewrite Hlx, Hbx. unfold zlen. rewrite length_map, length_seq.
    destruct (Z.eqb_spec numThreads 0) as [->|Hne]; [done|].
    rewrite <- Nat2Z.inj_mod, Nat2Z.id.
    pose proof (Nat.mod_upper_bound k (Z.to_nat numThreads) ltac:(lia)).
    by rewrite list_lookup_fmap, lookup_seq_lt.
  - apply NoDup_alt. intros i j n Hi' Hj'. rewrite list_lookup_fmap in Hi', Hj'.
    apply fmap_Some in Hi' as (ci & Hci & ->). apply fmap_Some in Hj' as (cj & Hcj & Hnm).
    destruct (inv_accepted x Hx i ci Hci) as [Hni _]. destruct (inv_accepted x Hx j cj Hcj) as [Hnj _].
    rewrite Hni, Hnj in Hnm. pose proof (inv_id x Hx) as [? ?].
    apply lookup_lt_Some in Hci, Hcj. unfold zlen in *.
    apply connName_inj in Hnm; [lia|apply Hx|lia|lia].
  - intros fd Hid. destruct (accept_keeps x fd Hx Hid) as (s' & _ & ? & _). by exists s'.
  - intros c (k1 & k2 & Hk)%list_elem_of_split. destruct (remove_keeps x k1 c k2 Hx Hk) as (s' & ? & _). by exists s'.
  - by apply destroy_work.
Qed.

(** Two loops, three connections, of which the second is removed. *)
Definition demo0 : t :=
  ok_or (new 0 [] [] 0) (s ← setThreadNum (new 9 (str "127.0.0.1:80") (str "srv") 3) 2 ;
                         start false (fun i => 100 + Z.of_nat i) s).
Definition accept (s : t) (fd : Z) : t := ok_or s (newConnection true s fd).
Definition demo_conn (i loop fd : Z) : conn := mk_conn (connName demo0 i) loop fd.
Definition demo_c1 : conn := demo_conn 1 100 20.
Definition demo_c2 : conn := demo_conn 2 101 21.
Definition demo_c3 : conn := demo_conn 3 100 22.
Definition demo3 : t := accept (accept (accept demo0 20) 21) 22.
Definition demo4 : sys :=
  mk_sys (ok_or demo3 (removeConnectionInLoop true demo3 demo_c2)) [demo_c1; demo_c2; demo_c3] [demo_c1; demo_c3].

Lemma server_demo_reachable : rtc step (mk_sys demo0 [] []) demo4.
Proof.
  eapply rtc_l; [by apply (StepAccept (mk_sys demo0 [] []) 20 (accept demo0 20) demo_c1)|].
  eapply rtc_l; [by eapply (StepAccept _ 21 (accept (accept demo0 20) 21) demo_c2)|].
  eapply rtc_l; [by eapply (StepAccept _ 22 demo3 demo_c3)|].
  eapply rtc_l; [|apply rtc_refl].
  by apply (StepRemove (mk_sys demo3 [demo_c1; demo_c2; demo_c3] [demo_c1; demo_c2; demo_c3])
    [demo_c1] demo_c2 [demo_c3]).
Qed.

Lemma tcpserver_connections_witness :
  work (srv demo4) demo_c2 = [(101, ConnectEstablished demo_c2); (101, ConnectDestroyed demo_c2)] /\
  conn_name demo_c2 = str "srv-127.0.0.1:80#2".
Proof.
  split; [|by vm_compute].
  destruct (tcpserver_connections 9 (str "127.0.0.1:80") (str "srv") 3 2 false (fun i => 100 + Z.of_nat i)
    (ok_or demo0 (setThreadNum (new 9 (str "127.0.0.1:80") (str "srv") 3) 2)) demo0 demo4
    ltac:(by vm_compute) ltac:(lia) ltac:(reflexivity) ltac:(by vm_compute) server_demo_reachable)
    as (_ & _ & _ & H & _).
  rewrite H; [by vm_compute|]. right. by left.
Defined.
End TcpServer.
