(* ===== verification/ServerNet.v ===== *)
(** A running server with its connections (src/libel/net/tcp_server.cpp,
    tcp_connection.cpp and the functors they queue through eventloop.cpp): the table
    of [TcpServer], the [TcpConnection] objects with their reference counts, and the
    queues of the event loops.  Pointers to dead objects are an outcome. *)

From S2P Require Import Prelude NetBuffer NumText TimeText Polling Connection Server.

Module ServerNet.
Import TcpServer.

#[global] Instance conn_countable : Countable conn.
Proof.
  refine (inj_countable' (fun c => (conn_name c, conn_loop c, conn_fd c))
    (fun x => mk_conn x.1.1 x.1.2 x.2) _). by intros [].
Defined.

(** Functors in the queue of a loop.  The first three own the connection; a [TaskF]
    is the next one of the connection's own [TcpConnection.tasks]. *)
Inductive functor :=
  | EstablishedF (c : conn)
  | DestroyedF (c : conn)
  | RemoveF (c : conn)
  | TaskF (c : conn).

Definition functor_conn (f : functor) : conn :=
  match f with EstablishedF c | DestroyedF c | RemoveF c | TaskF c => c end.
Definition owns (f : functor) : bool := match f with TaskF _ => false | _ => true end.

(** Which of a connection's own functors are bound to [shared_from_this()]; the
    others are bound to [this]. *)
Definition task_owns (x : TcpConnection.task) : bool :=
  match x with
  | TcpConnection.ForceCloseTask | TcpConnection.WriteCompleteTask | TcpConnection.HighWaterMarkTask _ => true
  | _ => false
  end.

(** A living object, with the pointers to it that users and functors that have run
    (the loop destroys them at the end of the round) still hold. *)
Record obj := mk_obj { tcp : TcpConnection.t; held : nat }.

(** [queue] has the functors queued on all loops in the order they were queued, each
    with its loop; [dead] is history: the objects destroyed, with their last state.
    [server] says whether the server object exists. *)
Record net := mk_net {
  sys : TcpServer.sys;
  server : bool;
  objs : gmap conn obj;
  queue : list (Z * functor);
  dead : list (conn * TcpConnection.t);
}.

Definition start_net (s : TcpServer.t) : net := mk_net (mk_sys s [] []) true ∅ [] [].

(** The loop of the acceptor, [loop_] of the server. *)
Definition base (n : net) : Z := EventLoopThreadPool.baseLoop_ (threadPool_ (srv (sys n))).

Definition put (n : net) (c : conn) (o : obj) : net :=
  mk_net (sys n) (server n) (<[c := o]> (objs n)) (queue n) (dead n).
Definition enqueue (n : net) (fs : list (Z * functor)) : net :=
  mk_net (sys n) (server n) (objs n) (queue n ++ fs) (dead n).
Definition set_queue (n : net) (q : list (Z * functor)) : net :=
  mk_net (sys n) (server n) (objs n) q (dead n).

Definition hold (n : net) (c : conn) : outcome net :=
  o ← deref (objs n !! c) ;
  mret (put n c (mk_obj (tcp o) (S (held o)))).

(** ** The server's operations with the objects *)

(** [removeConnectionInLoop]: the table forgets the connection, its loop gets
    [connectDestroyed]. *)
Definition removeConnectionInLoop (n : net) (c : conn) : outcome net :=
  s' ← TcpServer.removeConnectionInLoop true (srv (sys n)) c ;
  mret (enqueue
    (mk_net (mk_sys s' (accepted (sys n)) (filter (fun c' => c' <> c) (live (sys n)))) (server n)
       (objs n) (queue n) (dead n))
    [(conn_loop c, DestroyedF c)]).

(** [removeConnection], called in the connection's loop: [runInLoop] on the server's. *)
Definition removeConnection (n : net) (c : conn) : outcome net :=
  _ ← deref (if server n then Some () else None) ;
  if conn_loop c =? base n then removeConnectionInLoop n c
  else mret (enqueue n [(base n, RemoveF c)]).

Definition is_close (k : TcpConnection.callback) : bool :=
  match k with TcpConnection.CloseCallback => true | _ => false end.

(** The functors an action queues; a functor that runs has left the queue before. *)
Definition queued (before after : TcpConnection.t) (a : TcpConnection.action) : nat :=
  length (TcpConnection.tasks after) -
  (length (TcpConnection.tasks before) - match a with TcpConnection.RunTask _ => 1 | _ => 0 end).

(** A member function of the connection runs: what it queues goes to the queue of
    its loop, and its close callback is the server's [removeConnection]. *)
Definition act (n : net) (c : conn) (a : TcpConnection.action) : outcome net :=
  o ← deref (objs n !! c) ;
  t' ← TcpConnection.exec (tcp o) a ;
  let n := enqueue (put n c (mk_obj t' (held o)))
             (replicate (queued (tcp o) t' a) (conn_loop c, TaskF c)) in
  if existsb is_close (drop (length (TcpConnection.calls (tcp o))) (TcpConnection.calls t'))
  then removeConnection n c else mret n.

(** The pointers to the object of [c]: the table's, those of functors, the held ones. *)
Definition refs (n : net) (c : conn) (o : obj) : nat :=
  (if bool_decide (connections_ (srv (sys n)) !! conn_name c = Some c) then 1 else 0) +
  length (filter (fun f => functor_conn f.2 = c /\ owns f.2 = true) (queue n)) +
  length (filter (fun x => task_owns x = true) (TcpConnection.tasks (tcp o))) +
  held o.

(** When the last pointer is gone the object is destroyed: [~TcpConnection], then
    [~Channel]. *)
Definition collect (n : net) (c : conn) : outcome net :=
  match objs n !! c with
  | None => mret n
  | Some o =>
      if (refs n c o =? 0)%nat then
        _ ← TcpConnection.destroy (tcp o) ;
        _ ← assert_ (negb (TcpConnection.inLoop_ (tcp o))) ;
        mret (mk_net (sys n) (server n) (delete c (objs n)) (queue n) (dead n ++ [(c, tcp o)]))
      else mret n
  end.

(** [newConnection], with the object it creates. *)
Definition accept (wc hw : bool) (n : net) (fd : Z) : outcome net :=
  s' ← TcpServer.newConnection true (srv (sys n)) fd ;
  match last (handed s') with
  | Some (l, ConnectEstablished c) =>
      let n' := mk_net (mk_sys s' (accepted (sys n) ++ [c]) (live (sys n) ++ [c])) (server n)
                  (<[c := mk_obj (TcpConnection.new wc hw) 0]> (objs n)) (queue n) (dead n) in
      if l =? base n then act n' c TcpConnection.Establish
      else mret (enqueue n' [(l, EstablishedF c)])
  | _ => Fault OutOfBounds
  end.

(** [~TcpServer]: for each connection of the table, [runInLoop] of [connectDestroyed]. *)
Definition destruct_one (n : net) (c : conn) : outcome net :=
  if conn_loop c =? base n then (n ← act n c TcpConnection.Destroy ; collect n c)
  else mret (enqueue n [(conn_loop c, DestroyedF c)]).

Definition destruct_server (n : net) : outcome net :=
  s' ← TcpServer.destroy true (srv (sys n)) ;
  foldl (fun m c => n ← m ; destruct_one n c)
    (mret (mk_net (mk_sys s' (accepted (sys n)) []) false (objs n) (queue n) (dead n)))
    (map snd (map_to_list (connections_ (srv (sys n))))).

(** The next functor of loop [l], and the queue without it. *)
Fixpoint pop (l : Z) (q : list (Z * functor)) : option (functor * list (Z * functor)) :=
  match q with
  | [] => None
  | (l', f) :: q => if l' =? l then Some (f, q) else
      match pop l q with Some (f', q') => Some (f', (l', f) :: q') | None => None end
  end.

(** The next of the connection's own functors runs. *)
Definition run_own (n : net) (c : conn) (w : TcpConnection.write_result) : outcome net :=
  o ← deref (objs n !! c) ;
  n ← match TcpConnection.tasks (tcp o) with
      | x :: _ => if task_owns x then hold n c else mret n
      | [] => mret n
      end ;
  act n c (TcpConnection.RunTask w).

(** Loop [l] runs its next functor; a pointer the functor owns stays held. *)
Definition run (n : net) (l : Z) (w : TcpConnection.write_result) : outcome net :=
  match pop l (queue n) with
  | None => mret n
  | Some (f, q) =>
      let n := set_queue n q in
      let c := functor_conn f in
      n ← match f with
          | EstablishedF c => n ← hold n c ; act n c TcpConnection.Establish
          | DestroyedF c => n ← hold n c ; act n c TcpConnection.Destroy
          | RemoveF c => n ← hold n c ; _ ← deref (if server n then Some () else None) ;
              removeConnectionInLoop n c
          | TaskF c => run_own n c w
          end ;
      collect n c
  end.

(** ** The system *)
Inductive move :=
  | Accept (fd : Z)
  | Act (c : conn) (a : TcpConnection.action)
  | Run (l : Z) (w : TcpConnection.write_result)
  | Hold (c : conn)
  | Drop (c : conn)
  | Destruct.

Definition exec (wc hw : bool) (n : net) (m : move) : outcome net :=
  match m with
  | Accept fd => accept wc hw n fd
  | Act c a => n ← act n c a ; collect n c
  | Run l w => run n l w
  | Hold c => hold n c
  | Drop c =>
      o ← deref (objs n !! c) ;
      collect (put n c (mk_obj (tcp o) (pred (held o)))) c
  | Destruct => destruct_server n
  end.

(** What the environment may do.  Users act on connections they have been given, with
    the operations that [TcpConnection.usable] lists; the answers of the system calls
    are possible ones.  Nothing is said about what the queues hold. *)
Definition enabled (n : net) (m : move) : Prop :=
  match m with
  | Accept _ => nextConnId_ (srv (sys n)) + 1 < 2 ^ 31
  | Act c a => exists o, objs n !! c = Some o /\ TcpConnection.state_ (tcp o) <> TcpConnection.kConnecting /\
      TcpConnection.usable a = true /\ TcpConnection.enabled (tcp o) a
  | Run l w => forall c q o message rest,
      pop l (queue n) = Some (TaskF c, q) -> objs n !! c = Some o ->
      TcpConnection.tasks (tcp o) = TcpConnection.SendTask message :: rest ->
      TcpConnection.write_ok (tcp o) (zlen message) w /\
      Buffer.room (TcpConnection.outputBuffer_ (tcp o)) (zlen message)
  | Hold c => is_Some (objs n !! c)
  | Drop c => exists o, objs n !! c = Some o /\ (0 < held o)%nat
  | Destruct => False
  end.

Definition step (wc hw : bool) (n n' : net) : Prop := exists m, enabled n m /\ exec wc hw n m = Ok n'.

(** ** The invariant, connection by connection *)
Definition queue_of (n : net) (c : conn) : list (Z * functor) :=
  filter (fun f => functor_conn f.2 = c) (queue n).
Definition dead_of (n : net) (c : conn) : list (conn * TcpConnection.t) := filter (fun d => d.1 = c) (dead n).
Definition work (c : conn) (t : TcpConnection.t) : list (Z * functor) :=
  replicate (length (TcpConnection.tasks t)) (conn_loop c, TaskF c).

(** A connection that has been closed and reported so to its user and to the server. *)
Definition closed (t : TcpConnection.t) : Prop :=
  TcpConnection.state_ t = TcpConnection.kDisconnected /\
  TcpConnection.lifecycle t = [TcpConnection.up; TcpConnection.down; TcpConnection.CloseCallback].

(** Closed, and [connectDestroyed] has not run yet. *)
Definition leaving (t : TcpConnection.t) : Prop := closed t /\ TcpConnection.destroyed t = false.

(** The phases of an object's life: whether the table has it, and what is queued for it. *)
Inductive phase (b : Z) (c : conn) (t : TcpConnection.t) : bool -> list (Z * functor) -> Prop :=
  | PhaseNew :
      TcpConnection.state_ t = TcpConnection.kConnecting -> TcpConnection.tasks t = [] ->
      phase b c t true [(conn_loop c, EstablishedF c)]
  | PhaseOpen : TcpConnection.open t -> phase b c t true (work c t)
  | PhaseClosing : leaving t -> conn_loop c <> b -> phase b c t true (work c t ++ [(b, RemoveF c)])
  | PhaseRemoved : leaving t -> phase b c t false (work c t ++ [(conn_loop c, DestroyedF c)])
  | PhaseDestroyed :
      closed t -> TcpConnection.tasks t = [] -> TcpConnection.inLoop_ t = false -> phase b c t false [].

(** An object that has been destroyed. *)
Definition ended (t : TcpConnection.t) : Prop :=
  closed t /\ TcpConnection.tasks t = [] /\ TcpConnection.inLoop_ t = false.

Section Net.
Context (wc hw : bool).

(** What is true of every object. *)
Definition sound (t : TcpConnection.t) : Prop :=
  rtc TcpConnection.step (TcpConnection.new wc hw) t /\
  Forall (fun x => TcpConnection.reads x = false) (TcpConnection.tasks t).

(** Somebody has a pointer to the object. *)
Definition attached (o : obj) (l : bool) (q : list (Z * functor)) : Prop :=
  l = false -> q = [] -> (0 < held o)%nat.

Definition conn_ok (n : net) (c : conn) : Prop :=
  match objs n !! c with
  | Some o =>
      c ∈ accepted (sys n) /\ dead_of n c = [] /\ sound (tcp o) /\
      attached o (bool_decide (c ∈ live (sys n))) (queue_of n c) /\
      phase (base n) c (tcp o) (bool_decide (c ∈ live (sys n))) (queue_of n c)
  | None =>
      queue_of n c = [] /\ (c ∉ live (sys n)) /\
      (c ∈ accepted (sys n) -> exists t, dead_of n c = [(c, t)] /\ sound t /\ ended t) /\
      (c ∉ accepted (sys n) -> dead_of n c = [])
  end.

Record inv (n : net) : Prop := mk_ninv {
  n_sys : TcpServer.inv (sys n);
  n_server : server n = true;
  n_conn : forall c, conn_ok n c;
}.

(** All but the connection [c]. *)
Record focus (n : net) (c : conn) (o : obj) (l : bool) (q : list (Z * functor)) : Prop := mk_focus {
  f_sys : TcpServer.inv (sys n);
  f_server : server n = true;
  f_others : forall c', c' <> c -> conn_ok n c';
  f_accepted : c ∈ accepted (sys n);
  f_dead : dead_of n c = [];
  f_obj : objs n !! c = Some o;
  f_live : bool_decide (c ∈ live (sys n)) = l;
  f_queue : queue_of n c = q;
}.

Lemma focus_of n c o :
  inv n -> objs n !! c = Some o ->
  exists l q, focus n c o l q /\ sound (tcp o) /\ attached o l q /\ phase (base n) c (tcp o) l q.
Proof.
  intros [Hs Hv Hc] Ho. pose proof (Hc c) as Hok. unfold conn_ok in Hok. rewrite Ho in Hok.
  destruct Hok as (? & ? & ? & ? & ?). do 2 eexists. split; [by split|done].
Qed.

Lemma focus_inv n c o l q :
  focus n c o l q -> sound (tcp o) -> attached o l q -> phase (base n) c (tcp o) l q -> inv n.
Proof.
  intros [Hs Hv Hr Ha Hd Ho Hl Hq] Hsound Hat Hp. split; try done. intros c'.
  destruct (decide (c' = c)) as [->|Hne]; [|by apply Hr]. unfold conn_ok. rewrite Ho. by subst l q.
Qed.

(** What a connection's invariant depends on. *)
Lemma conn_frame n n' c :
  objs n' !! c = objs n !! c -> (c ∈ accepted (sys n') <-> c ∈ accepted (sys n)) -> dead_of n' c = dead_of n c ->
  base n' = base n -> (c ∈ live (sys n') <-> c ∈ live (sys n)) -> queue_of n' c = queue_of n c ->
  conn_ok n c -> conn_ok n' c.
Proof.
  unfold conn_ok. intros -> Ha -> -> Hl ->. rewrite (bool_decide_ext _ _ Hl).
  destruct (objs n !! c); [by rewrite Ha|]. by rewrite Hl, Ha.
Qed.

Lemma focus_put n c o o' l q : focus n c o l q -> focus (put n c o') c o' l q.
Proof.
  intros [Hs Hv Hr Ha Hd Ho Hl Hq]. split; try done.
  - intros c' Hne. apply (conn_frame n); try done; [|by apply Hr]. simpl. by rewrite lookup_insert_ne.
  - simpl. by rewrite lookup_insert_eq.
Qed.

Lemma queue_of_own c fs : Forall (fun f => functor_conn f.2 = c) fs ->
  filter (fun f : Z * functor => functor_conn f.2 = c) fs = fs.
Proof. induction 1; [done|]. by rewrite filter_cons_True by done; f_equal. Qed.

Lemma queue_of_foreign c c' fs : Forall (fun f => functor_conn f.2 = c) fs -> c' <> c ->
  filter (fun f : Z * functor => functor_conn f.2 = c') fs = [].
Proof. intros Hf Hne. induction Hf as [|f fs Hf _ IH]; [done|]. by rewrite filter_cons_False by congruence. Qed.

Lemma focus_enqueue n c o l q fs :
  Forall (fun f => functor_conn f.2 = c) fs -> focus n c o l q -> focus (enqueue n fs) c o l (q ++ fs).
Proof.
  intros Hf [Hs Hv Hr Ha Hd Ho Hl Hq]. split; try done.
  - intros c' Hne. apply (conn_frame n); try done; [|by apply Hr].
    unfold queue_of. simpl. rewrite filter_app, (queue_of_foreign c c' fs) by done. apply app_nil_r.
  - unfold queue_of in *. simpl. by rewrite filter_app, Hq, (queue_of_own c fs).
Qed.

Lemma own_work c k : Forall (fun f : Z * functor => functor_conn f.2 = c) (replicate k (conn_loop c, TaskF c)).
Proof. apply Forall_replicate. done. Qed.

Lemma pop_split l q f q' :
  pop l q = Some (f, q') -> exists q1 q2, q = q1 ++ (l, f) :: q2 /\ q' = q1 ++ q2 /\ Forall (fun x => x.1 <> l) q1.
Proof.
  revert q'. induction q as [|[l' f'] q IH]; intros q'; simpl; [done|].
  destruct (Z.eqb_spec l' l) as [->|Hne].
  - intros [= -> ->]. by exists [], q'.
  - destruct (pop l q) as [[f1 q1]|]; [|done]. intros [= -> <-].
    destruct (IH q1 eq_refl) as (a & b & -> & -> & Hab). exists ((l', f') :: a), b.
    split_and!; try done. by constructor.
Qed.

Lemma focus_pop n c o l q lp f q' :
  focus n c o l q -> pop lp (queue n) = Some (f, q') -> functor_conn f = c ->
  exists q1 q2, q = q1 ++ (lp, f) :: q2 /\ Forall (fun x => x.1 <> lp) q1 /\
    focus (set_queue n q') c o l (q1 ++ q2).
Proof.
  intros [Hs Hv Hr Ha Hd Ho Hl Hq] (q1 & q2 & Eq & -> & Hno)%pop_split Hf.
  exists (filter (fun f => functor_conn f.2 = c) q1), (filter (fun f => functor_conn f.2 = c) q2). split_and!.
  - rewrite <- Hq. unfold queue_of. rewrite Eq, filter_app. by rewrite filter_cons_True.
  - rewrite Forall_forall in Hno |- *. intros x [_ Hx]%list_elem_of_filter. by apply Hno.
  - split; try done; [|unfold queue_of; simpl; by rewrite filter_app].
    intros c' Hne. apply (conn_frame n); try done; [|by apply Hr].
    unfold queue_of. simpl. rewrite Eq, !filter_app. f_equal. rewrite filter_cons_False; [done|].
    simpl. congruence.
Qed.

Lemma filter_other (l : list conn) c : c ∉ l -> filter (fun c' => c' <> c) l = l.
Proof.
  induction l as [|a l IH]; [done|]. intros [? ?]%not_elem_of_cons.
  rewrite filter_cons_True by congruence. by rewrite IH.
Qed.

Lemma filter_out (l1 : list conn) c l2 : NoDup (l1 ++ c :: l2) -> filter (fun c' => c' <> c) (l1 ++ c :: l2) = l1 ++ l2.
Proof.
  intros (Hl1 & Hdis & [Hc Hl2]%NoDup_cons)%NoDup_app.
  rewrite filter_app. rewrite filter_cons_False by tauto. rewrite !filter_other; try done.
  intros Hin. apply (Hdis c Hin). by left.
Qed.

(** Forgetting the connection in the table. *)
Lemma focus_remove n c o q :
  focus n c o true q ->
  exists n', removeConnectionInLoop n c = Ok n' /\ base n' = base n /\
    focus n' c o false (q ++ [(conn_loop c, DestroyedF c)]).
Proof.
  intros [Hs Hv Hr Ha Hd Ho Hl Hq]. apply bool_decide_eq_true in Hl.
  destruct (list_elem_of_split _ _ Hl) as (l1 & l2 & El).
  destruct (remove_keeps (sys n) l1 c l2 Hs El) as (s' & E & Hs').
  pose proof (inv_live _ Hs) as [Hnd _]. unfold removeConnectionInLoop. rewrite E, bind_ok.
  rewrite El in Hnd. rewrite El, filter_out by done.
  set (n1 := mk_net _ _ _ _ _).
  assert (base n1 = base n) as Hb.
  { unfold base. simpl. unfold TcpServer.removeConnectionInLoop in E. cbn [assertInLoopThread] in E.
    rewrite bind_ok in E. destruct (_ =? 1); [|done]. rewrite assert_pass in E by done. by injection E as <-. }
  assert (forall c', c' ∈ l1 ++ l2 <-> c' ∈ live (sys n) /\ c' <> c) as Hmem.
  { rewrite El. apply NoDup_app in Hnd as (_ & Hdis & [Hc _]%NoDup_cons).
    intros c'. rewrite !elem_of_app, elem_of_cons. specialize (Hdis c).
    rewrite elem_of_cons in Hdis. naive_solver. }
  assert (focus n1 c o false q) as Hf.
  { split; try done.
    - intros c' Hne. apply (conn_frame n); try done; [|by apply Hr]. simpl. rewrite Hmem. naive_solver.
    - apply bool_decide_eq_false. simpl. rewrite Hmem. naive_solver. }
  eexists. split; [done|]. split; [done|]. apply focus_enqueue; [|done]. by repeat constructor.
Qed.

(** ** Every move keeps the invariant *)
Lemma sound_inv t : sound t -> TcpConnection.inv t.
Proof. intros [Hr _]. by eapply TcpConnection.reachable_conn_inv. Qed.

Lemma sound_exec t a t' :
  sound t -> TcpConnection.enabled t a -> TcpConnection.exec t a = Ok t' ->
  Forall (fun x => TcpConnection.reads x = false) (TcpConnection.tasks t') -> sound t'.
Proof. intros [Hr _] Ha E Ht. split; [|done]. eapply rtc_r; [done|]. by exists a. Qed.

Lemma new_calls (k k' : list TcpConnection.callback) :
  drop (length k) (k ++ k') = k'.
Proof. apply drop_app_length. Qed.

Lemma closed_same t t' :
  TcpConnection.state_ t' = TcpConnection.state_ t -> TcpConnection.calls t' = TcpConnection.calls t ->
  closed t -> closed t'.
Proof. unfold closed, TcpConnection.lifecycle. by intros -> ->. Qed.

Lemma leaving_same t t' :
  TcpConnection.state_ t' = TcpConnection.state_ t -> TcpConnection.calls t' = TcpConnection.calls t ->
  TcpConnection.destroyed t' = TcpConnection.destroyed t -> leaving t -> leaving t'.
Proof. intros Hs Hk Hd [? ?]. split; [by eapply closed_same|congruence]. Qed.

Lemma no_close k : Forall (fun x => x <> TcpConnection.CloseCallback) k -> existsb is_close k = false.
Proof. induction 1 as [|x k Hx _ IH]; [done|]. simpl. rewrite IH. by destruct x. Qed.

Lemma closed_after t t' :
  TcpConnection.open t -> TcpConnection.lifecycle_ok t -> TcpConnection.state_ t' = TcpConnection.kDisconnected ->
  TcpConnection.destroyed t' = false ->
  TcpConnection.calls t' = TcpConnection.calls t ++ [TcpConnection.down; TcpConnection.CloseCallback] -> leaving t'.
Proof.
  intros Ho Hl Hs Hd Hk. split; [|done]. split; [done|]. rewrite (TcpConnection.lifecycle_app _ _ _ Hk).
  unfold TcpConnection.lifecycle_ok in Hl. destruct Ho as [E|E]; rewrite E in Hl; by rewrite Hl.
Qed.

(** A connection in the table closes: the server is told. *)
Lemma removeConnection_ok n c o :
  focus n c o true (work c (tcp o)) -> sound (tcp o) -> leaving (tcp o) ->
  exists n', removeConnection n c = Ok n' /\ inv n'.
Proof.
  intros Hf Hs Hc. unfold removeConnection. rewrite (f_server _ _ _ _ _ Hf). simpl.
  destruct (Z.eqb_spec (conn_loop c) (base n)) as [Eb|Eb].
  - destruct (focus_remove n c o _ Hf) as (n' & -> & Hb & Hf'). exists n'. split; [done|].
    eapply focus_inv; [done|done|intros _ ?%app_nil; by naive_solver|]. by apply PhaseRemoved.
  - eexists. split; [done|]. eapply focus_inv; [apply focus_enqueue; [by repeat constructor|done]|done|done|].
    by apply PhaseClosing.
Qed.

(** An operation that changes the connection the way [change] says; [t0] is the
    connection without the functor that runs. *)
Lemma act_ok n c o l q a t0 t' :
  focus n c o l q -> sound (tcp o) -> TcpConnection.enabled (tcp o) a ->
  TcpConnection.exec (tcp o) a = Ok t' ->
  Forall (fun x => TcpConnection.reads x = false) (TcpConnection.tasks t0) ->
  TcpConnection.state_ t0 = TcpConnection.state_ (tcp o) -> TcpConnection.calls t0 = TcpConnection.calls (tcp o) ->
  TcpConnection.destroyed t0 = TcpConnection.destroyed (tcp o) ->
  queued (tcp o) t' a = (length (TcpConnection.tasks t') - length (TcpConnection.tasks t0))%nat ->
  TcpConnection.change t0 t' -> attached o l q -> phase (base n) c t0 l q ->
  exists n', act n c a = Ok n' /\ inv n'.
Proof.
  intros Hf Hs Ha E Hreads Hst Hk Hgone Hq Hch Hat Hp. unfold act. rewrite (f_obj _ _ _ _ _ Hf). simpl.
  rewrite E, bind_ok, Hq, <- Hk.
  set (n1 := put n c (mk_obj t' (held o))).
  pose proof (focus_put n c o (mk_obj t' (held o)) l q Hf) as Hf1. fold n1 in Hf1.
  assert (TcpConnection.lifecycle_ok t0) as Hlife.
  { pose proof (TcpConnection.reachable_lifecycle _ _ _ (proj1 Hs)) as H0.
    unfold TcpConnection.lifecycle_ok, TcpConnection.lifecycle in *. by rewrite Hst, Hk. }
  assert (Forall (fun x => TcpConnection.reads x = false) (TcpConnection.tasks t') -> sound t') as Hsound
    by by eapply sound_exec.
  destruct Hch as [Hd Hd' Ht Hl Hg Hc|ts k Ho Ho' Ht Hts Hc Hk'|Ho Hd' Ht Hg Hc].
  - rewrite Ht, Hc, Nat.sub_diag, drop_all. simpl. eexists. split; [done|].
    eapply focus_inv; [apply focus_enqueue; [constructor|done]|rewrite Ht in Hsound; by apply Hsound| |];
      rewrite app_nil_r; [done|]. simpl. pose proof (closed_same t0 t' ltac:(congruence) Hc) as Hcl.
    assert (work c t0 = work c t') as Hw by (unfold work; by rewrite Ht).
    pose proof (leaving_same t0 t' ltac:(congruence) Hc Hg) as Hlv.
    destruct Hp as [Hs0|Ho|Hc0 Hb|Hc0|Hc0 Ht0 Hl0]; rewrite ?Hw; try (exfalso; destruct Ho; congruence).
    + congruence.
    + by apply PhaseClosing; [apply Hlv|].
    + by apply PhaseRemoved, Hlv.
    + apply PhaseDestroyed; [by apply Hcl|congruence|congruence].
  - rewrite Ht, Hc, new_calls, (no_close k Hk'), length_app.
    replace (_ + _ - _)%nat with (length ts) by lia. eexists. split; [done|].
    eapply focus_inv; [apply focus_enqueue; [apply own_work|done]|apply Hsound; rewrite Ht; by apply Forall_app| |].
    { intros Hl [Hq0 _]%app_nil. by apply Hat. }
    assert (TcpConnection.state_ t0 <> TcpConnection.kDisconnected) as Hnd by (destruct Ho; congruence).
    assert (TcpConnection.state_ t0 <> TcpConnection.kConnecting) as Hnc by (destruct Ho; congruence).
    destruct Hp as [Hs0|_|[[Hc0 _] _] Hb|[[Hc0 _] _]|[Hc0 _]]; try congruence.
    replace (work c t0 ++ _) with (work c (tcp (mk_obj t' (held o)))); [by apply PhaseOpen|].
    unfold work. simpl. by rewrite Ht, length_app, replicate_add.
  - rewrite Ht, Hc, new_calls, Nat.sub_diag. simpl.
    assert (TcpConnection.state_ t0 <> TcpConnection.kDisconnected) as Hnd by (destruct Ho; congruence).
    assert (TcpConnection.state_ t0 <> TcpConnection.kConnecting) as Hnc by (destruct Ho; congruence).
    destruct Hp as [Hs0|_|[[Hc0 _] _] Hb|[[Hc0 _] _]|[Hc0 _]]; try congruence.
    eapply (removeConnection_ok _ c (mk_obj t' (held o)));
      [|apply Hsound; by rewrite Ht|apply (closed_after t0 t'); try done].
    2: { rewrite Hg, Hgone. apply not_true_is_false. intros Hdes%(TcpConnection.i_destroyed _ (sound_inv _ Hs)). congruence. }
    replace (work c (tcp _)) with (work c t0 ++ []) by (rewrite app_nil_r; unfold work; simpl; by rewrite Ht).
    apply focus_enqueue; [constructor|done].
Qed.

Lemma act_establish n c o :
  focus n c o true [] -> sound (tcp o) -> TcpConnection.state_ (tcp o) = TcpConnection.kConnecting ->
  exists n', act n c TcpConnection.Establish = Ok n' /\ inv n'.
Proof.
  intros Hf Hs Hst. pose proof (TcpConnection.i_connecting _ (sound_inv _ Hs) Hst) as Ht.
  destruct (TcpConnection.exec (tcp o) TcpConnection.Establish) as [t'|] eqn:E.
  2: { destruct (TcpConnection.exec_ok (tcp o) TcpConnection.Establish (sound_inv _ Hs) Hst) as (? & ? & _). congruence. }
  assert (TcpConnection.tasks t' = [] /\ TcpConnection.state_ t' = TcpConnection.kConnected /\
    TcpConnection.calls t' = TcpConnection.calls (tcp o) ++ [TcpConnection.up]) as (Ht' & Hs' & Hk').
  { revert E. simpl. unfold TcpConnection.connectEstablished. simpl. rewrite Hst. simpl. intros [= <-].
    simpl. by rewrite app_nil_r. }
  unfold act. rewrite (f_obj _ _ _ _ _ Hf). cbn [deref]. rewrite bind_ok, E, bind_ok.
  unfold queued. rewrite Ht', Hk', new_calls. simpl. eexists. split; [done|].
  eapply focus_inv; [apply (focus_enqueue _ c (mk_obj t' (held o)) true [] []); [constructor|by apply (focus_put n c o)]| |done|].
  - apply (sound_exec (tcp o) TcpConnection.Establish); [done..|]. simpl. by rewrite Ht'.
  - replace ([] ++ []) with (work c (tcp (mk_obj t' (held o)))) by (unfold work; simpl; by rewrite Ht').
    apply PhaseOpen. by left.
Qed.

Lemma act_destroy n c o :
  focus n c o false [] -> sound (tcp o) -> leaving (tcp o) -> TcpConnection.tasks (tcp o) = [] ->
  (0 < held o)%nat -> exists n', act n c TcpConnection.Destroy = Ok n' /\ inv n'.
Proof.
  intros Hf Hs [[Hst Hl] Hnot] Ht Hh.
  assert (TcpConnection.enabled (tcp o) TcpConnection.Destroy) as Ha by (split; [by right|done]).
  destruct (TcpConnection.exec_ok (tcp o) TcpConnection.Destroy (sound_inv _ Hs) Ha) as (t' & E & _).
  pose proof (TcpConnection.connectDestroyed_state _ _ E) as (Hil & _ & Hst').
  assert (TcpConnection.tasks t' = [] /\ TcpConnection.calls t' = TcpConnection.calls (tcp o)) as (Ht' & Hk').
  { pose proof E as E'. revert E'. simpl. unfold TcpConnection.connectDestroyed, TcpConnection.removeSelfFromLoop. simpl.
    rewrite decide_False by congruence. destruct (_ =? _); [|done]. simpl.
    destruct (TcpConnection.inLoop_ (tcp o)); [|done]. by intros [= <-]. }
  unfold act. rewrite (f_obj _ _ _ _ _ Hf). cbn [deref]. rewrite bind_ok, E, bind_ok.
  unfold queued. rewrite Ht', Hk', drop_all. simpl. eexists. split; [done|].
  eapply focus_inv; [apply (focus_enqueue _ c (mk_obj t' (held o)) false [] []); [constructor|by apply (focus_put n c o)]| |by intros _ _|].
  - apply (sound_exec (tcp o) TcpConnection.Destroy); [done..|]. simpl. by rewrite Ht'.
  - apply PhaseDestroyed; [|done|done]. split; [by apply Hst'; right|].
    unfold TcpConnection.lifecycle in *. simpl. by rewrite Hk'.
Qed.

(** The last pointer goes: only a connection that is out of the table and out of its
    loop, with nothing queued, loses it. *)
Lemma collect_focus n c o l q :
  focus n c o l q -> sound (tcp o) -> phase (base n) c (tcp o) l q ->
  exists n', collect n c = Ok n' /\ inv n'.
Proof.
  intros Hf Hs Hp. unfold collect. rewrite (f_obj _ _ _ _ _ Hf).
  assert (l = bool_decide (connections_ (srv (sys n)) !! conn_name c = Some c)) as Hl.
  { rewrite <- (f_live _ _ _ _ _ Hf). apply bool_decide_ext. symmetry. apply (inv_map _ (f_sys _ _ _ _ _ Hf)). }
  destruct (Nat.eqb_spec (refs n c o) 0) as [Hz|Hz]; unfold refs in Hz; rewrite <- Hl in Hz; clear Hl.
  2: { eexists. split; [done|]. eapply focus_inv; [done|done| |done]. intros -> ->.
    inversion Hp as [| | |Hc El Eq|Hc Ht Hil El Eq]; [by apply app_nil in Eq as [_ ?]|]. rewrite Ht in Hz.
    pose proof (f_queue _ _ _ _ _ Hf) as Hq. unfold queue_of in Hq.
    assert (filter (fun f => functor_conn f.2 = c /\ owns f.2 = true) (queue n) = []) as Hnil; [|rewrite Hnil in Hz; simpl in Hz; lia].
    destruct (filter (fun f => functor_conn f.2 = c /\ _) _) as [|x r] eqn:Ex; [done|]. exfalso.
    assert (x ∈ x :: r) as Hx by by left. rewrite <- Ex in Hx. apply list_elem_of_filter in Hx as [[Hx _] Hin].
    by apply (filter_nil_not_elem_of _ _ x Hq). }
  assert (l = false) as -> by (destruct l; [lia|done]).
  inversion Hp as [| | |Hc El Eq|Hc Ht Hil El Eq].
  { exfalso. assert ((conn_loop c, DestroyedF c) ∈ queue n) as Hin.
    { assert ((conn_loop c, DestroyedF c) ∈ queue_of n c) as Hin; [|by apply list_elem_of_filter in Hin as [_ ?]].
      rewrite (f_queue _ _ _ _ _ Hf), <- Eq. apply elem_of_app. right. by left. }
    assert (length (filter (fun f => functor_conn f.2 = c /\ owns f.2 = true) (queue n)) <> 0)%nat as Hne; [|lia].
    intros Hlen%nil_length_inv. eapply (filter_nil_not_elem_of _ _ _ Hlen); [|exact Hin]. done. }
  destruct Hc as [Hst Hl]. unfold TcpConnection.destroy. rewrite Hst. rewrite assert_pass by done.
  rewrite Hil, assert_pass by done. eexists. split; [done|]. split; [apply Hf|apply Hf|].
  intros c'. destruct (decide (c' = c)) as [->|Hne].
  - unfold conn_ok. simpl. rewrite lookup_delete_eq. split_and!.
    + change (queue_of n c = []). by rewrite (f_queue _ _ _ _ _ Hf).
    + pose proof (f_live _ _ _ _ _ Hf) as Hlive. by apply bool_decide_eq_false in Hlive.
    + intros _. exists (tcp o). unfold dead_of. simpl. rewrite filter_app. fold (dead_of n c).
      rewrite (f_dead _ _ _ _ _ Hf). rewrite filter_cons_True by done. done.
    + intros Hno. exfalso. apply Hno, (f_accepted _ _ _ _ _ Hf).
  - apply (conn_frame n); try done; [simpl; by rewrite lookup_delete_ne| |by apply (f_others _ _ _ _ _ Hf)].
    unfold dead_of. simpl. rewrite filter_app, filter_cons_False by (simpl; congruence). apply app_nil_r.
Qed.

Lemma collect_ok n c : inv n -> exists n', collect n c = Ok n' /\ inv n'.
Proof.
  intros Hinv. destruct (objs n !! c) as [o|] eqn:Ho.
  - destruct (focus_of n c o Hinv Ho) as (l & q & Hf & Hs & _ & Hp). by eapply collect_focus.
  - exists n. unfold collect. by rewrite Ho.
Qed.

(** A functor that runs: the queue of its connection shows which. *)
Lemma replicate_split {A} (k : nat) (l : Z) (x : A) r q1 lp f q2 :
  replicate k (l, x) ++ r = q1 ++ (lp, f) :: q2 -> Forall (fun y => y.1 <> lp) q1 ->
  (q1 = [] /\ lp = l /\ f = x /\ exists k', k = S k' /\ q2 = replicate k' (l, x) ++ r) \/
  (exists r1, q1 = replicate k (l, x) ++ r1 /\ r = r1 ++ (lp, f) :: q2).
Proof.
  revert q1. induction k as [|k IH]; intros q1 E Hno; [right; by exists q1|]. simpl in E.
  destruct q1 as [|y q1]; [left; injection E as <- <- <-; eauto 10|]. injection E as <- E.
  apply Forall_cons in Hno as [Hy Hno].
  destruct (IH q1 E Hno) as [(-> & -> & -> & k' & -> & ->)|(r1 & -> & ->)]; [done|]. right. by exists r1.
Qed.

Lemma hold_focus n c o l q :
  focus n c o l q -> exists n', hold n c = Ok n' /\ base n' = base n /\
    focus n' c (mk_obj (tcp o) (S (held o))) l q.
Proof.
  intros Hf. unfold hold. rewrite (f_obj _ _ _ _ _ Hf). eexists. split; [done|]. split; [done|]. by eapply focus_put.
Qed.

(** One of the connection's own functors runs. *)
Lemma act_own_ok n c o l q x rest w :
  focus n c o l q -> sound (tcp o) -> attached o l q -> TcpConnection.tasks (tcp o) = x :: rest ->
  phase (base n) c (TcpConnection.set_tasks (tcp o) rest (TcpConnection.delayed (tcp o))) l q ->
  (forall message, x = TcpConnection.SendTask message -> TcpConnection.write_ok (tcp o) (zlen message) w /\
     Buffer.room (TcpConnection.outputBuffer_ (tcp o)) (zlen message)) ->
  exists n', act n c (TcpConnection.RunTask w) = Ok n' /\ inv n'.
Proof.
  intros Hf Hs Hat Et Hp Henv. pose proof (proj2 Hs) as Hreads. rewrite Et in Hreads.
  apply Forall_cons in Hreads as [Hx Hrest].
  assert (TcpConnection.enabled (tcp o) (TcpConnection.RunTask w)) as Ha.
  { simpl. rewrite Et. split; [intros message r [= -> _]; by apply Henv|].
    intros y r [= -> _] [-> | ->]; done. }
  destruct (TcpConnection.exec_ok (tcp o) _ (sound_inv _ Hs) Ha) as (t' & E & _).
  eapply (act_ok n c o l q _ (TcpConnection.set_tasks (tcp o) rest (TcpConnection.delayed (tcp o))) t'); try done.
  - unfold queued. rewrite Et. simpl. lia.
  - by eapply TcpConnection.run_task_change; [apply sound_inv|..].
Qed.

Lemma run_own_ok n c o l q k w :
  focus n c o l q -> sound (tcp o) -> length (TcpConnection.tasks (tcp o)) = S k -> (l = false -> q <> []) ->
  (forall t0, TcpConnection.state_ t0 = TcpConnection.state_ (tcp o) ->
     TcpConnection.calls t0 = TcpConnection.calls (tcp o) ->
     TcpConnection.destroyed t0 = TcpConnection.destroyed (tcp o) -> length (TcpConnection.tasks t0) = k ->
     phase (base n) c t0 l q) ->
  (forall message rest, TcpConnection.tasks (tcp o) = TcpConnection.SendTask message :: rest ->
     TcpConnection.write_ok (tcp o) (zlen message) w /\
     Buffer.room (TcpConnection.outputBuffer_ (tcp o)) (zlen message)) ->
  exists n', run_own n c w = Ok n' /\ inv n'.
Proof.
  intros Hf Hs Hlen Hne Hph Henv. unfold run_own. rewrite (f_obj _ _ _ _ _ Hf). cbn [deref]. rewrite bind_ok.
  destruct (TcpConnection.tasks (tcp o)) as [|x rest] eqn:Et; [done|].
  assert (phase (base n) c (TcpConnection.set_tasks (tcp o) rest (TcpConnection.delayed (tcp o))) l q) as Hp
    by (apply Hph; [done|done|done|simpl in *; lia]).
  assert (forall h, attached (mk_obj (tcp o) h) l q) as Hat by (intros h ? ?; by destruct Hne).
  destruct (task_owns x).
  - destruct (hold_focus n c o l _ Hf) as (n2 & -> & Hb & Hf2). rewrite bind_ok.
    eapply act_own_ok; [done|done|done|done|by rewrite Hb|]. intros message ->. by eapply Henv.
  - rewrite bind_ok. eapply act_own_ok; [done|done|by destruct o|done|done|]. intros message ->. by eapply Henv.
Qed.

Lemma run_ok n l w : inv n -> enabled n (Run l w) -> exists n', run n l w = Ok n' /\ inv n'.
Proof.
  intros Hinv Henv. unfold run. simpl in Henv. destruct (pop l (queue n)) as [[f q']|] eqn:Epop; [|by eauto].
  cbn zeta. remember (functor_conn f) as c eqn:Hfn. assert (exists o, objs n !! c = Some o) as [o Ho].
  { destruct (objs n !! c) as [o|] eqn:Ho; [by eexists|]. exfalso.
    pose proof (n_conn n Hinv c) as Hok. unfold conn_ok in Hok. rewrite Ho in Hok. destruct Hok as [Hq _].
    apply pop_split in Epop as (q1 & q2 & Eq & _). unfold queue_of in Hq.
    apply (filter_nil_not_elem_of _ _ (l, f) Hq); [done|]. rewrite Eq. apply elem_of_app. right. by left. }
  destruct (focus_of n c o Hinv Ho) as (lv & q & Hf0 & Hs & _ & Hp).
  destruct (focus_pop n c o lv q l f q' Hf0 Epop (eq_sym Hfn)) as (q1 & q2 & Eq & Hno & Hf).
  change (base n) with (base (set_queue n q')) in Hp. generalize dependent (set_queue n q'). intros n1 Hp Hf.
  assert (forall m, (exists n', m = Ok n' /\ inv n') -> exists n', (n2 ← m ; collect n2 c) = Ok n' /\ inv n') as Hcollect.
  { intros m (n2 & -> & Hn2). by apply collect_ok. }
  apply Hcollect. clear Hcollect Hfn.
  assert (forall k r, f = TaskF c -> q1 ++ q2 = replicate k (conn_loop c, TaskF c) ++ r ->
    length (TcpConnection.tasks (tcp o)) = S k -> (lv = false -> q1 ++ q2 <> []) ->
    (forall t0, TcpConnection.state_ t0 = TcpConnection.state_ (tcp o) ->
       TcpConnection.calls t0 = TcpConnection.calls (tcp o) ->
       TcpConnection.destroyed t0 = TcpConnection.destroyed (tcp o) -> length (TcpConnection.tasks t0) = k ->
       phase (base n1) c t0 lv (q1 ++ q2)) -> exists n', run_own n1 c w = Ok n' /\ inv n') as Htask.
  { intros k r -> _ Hlen Hne Hph. eapply run_own_ok; try done. intros message rest Et. by eapply Henv. }
  destruct (hold_focus n1 c o lv _ Hf) as (n2 & Ehold & Hb & Hf2).
  destruct Hp as [Hst Ht|Ho'|Hc Hbase|Hc|Hc Ht Hil].
  - destruct q1 as [|? [|]]; simpl in Eq; simplify_eq. cbn match. rewrite Ehold, bind_ok. by eapply act_establish.
  - rewrite <- (app_nil_r (work c (tcp o))) in Eq.
    destruct (replicate_split _ _ _ _ _ _ _ _ Eq Hno) as [(-> & -> & -> & k & Hk & ->)|(r1 & _ & Er)];
      [|by destruct r1].
    eapply (Htask k []); try done. intros t0 Hs0 _ _ Hl0. simpl. rewrite app_nil_r, <- Hl0.
    apply PhaseOpen. by eapply TcpConnection.open_state.
  - destruct (replicate_split _ _ _ _ _ _ _ _ Eq Hno) as [(-> & -> & -> & k & Hk & ->)|(r1 & -> & Er)].
    + eapply (Htask k); try done. intros t0 Hs0 Hk0 Hd0 Hl0. simpl. rewrite <- Hl0.
      apply PhaseClosing; [|done]. by eapply leaving_same.
    + destruct r1 as [|? [|]]; simpl in Er; simplify_eq. rewrite !app_nil_r in Hf2; rewrite app_nil_r in Hno.
      cbn match. rewrite Ehold, bind_ok, (f_server _ _ _ _ _ Hf2). simpl.
      destruct (focus_remove _ _ _ _ Hf2) as (n3 & -> & Hb3 & Hf3). exists n3. split; [done|].
      eapply focus_inv; [done|done|by intros _ [_ ?]%app_nil|]. by apply PhaseRemoved.
  - destruct (replicate_split _ _ _ _ _ _ _ _ Eq Hno) as [(-> & -> & -> & k & Hk & ->)|(r1 & -> & Er)].
    + eapply (Htask k); try done; [simpl; by intros _ [_ ?]%app_nil|]. intros t0 Hs0 Hk0 Hd0 Hl0. simpl. rewrite <- Hl0.
      apply PhaseRemoved. by eapply leaving_same.
    + destruct r1 as [|? [|]]; simpl in Er; simplify_eq. rewrite !app_nil_r in Hf2; rewrite app_nil_r in Hno.
      destruct (TcpConnection.tasks (tcp o)) as [|x rest] eqn:Et; simpl in Hno, Hf2.
      2: { apply Forall_cons in Hno as [Hno _]. done. }
      cbn match. rewrite Ehold, bind_ok. eapply act_destroy; [done..|simpl; lia].
  - by destruct q1.
Qed.

Lemma accept_ok n fd :
  inv n -> enabled n (Accept fd) -> exists n', accept wc hw n fd = Ok n' /\ inv n'.
Proof.
  intros [Hs Hv Hc] Hid. unfold accept.
  destruct (accept_keeps (sys n) fd Hs Hid) as (s' & c & E & Hh & Hs' & Hnew).
  destruct (newConnection_loops _ _ _ E) as [_ Hbase]. rewrite E, bind_ok, Hh, last_snoc.
  set (n1 := mk_net _ _ _ _ _). assert (base n1 = base n) as Hb by done.
  pose proof (Hc c) as Hok. unfold conn_ok in Hok. destruct (objs n !! c) eqn:Ho; [tauto|].
  destruct Hok as (Hq & Hnl & _ & Hd).
  assert (focus n1 c (mk_obj (TcpConnection.new wc hw) 0) true []) as Hf.
  { split; try done.
    - intros c' Hne. apply (conn_frame n); simpl; try done.
      + by rewrite lookup_insert_ne.
      + rewrite elem_of_app, list_elem_of_singleton. naive_solver.
      + rewrite elem_of_app, list_elem_of_singleton. naive_solver.
    - apply elem_of_app. right. by left.
    - by apply Hd.
    - by apply lookup_insert_eq.
    - apply bool_decide_eq_true, elem_of_app. right. by left. }
  assert (sound (TcpConnection.new wc hw)) as Hsound by (split; [done|constructor]).
  destruct (_ =? _); [by eapply act_establish|]. eexists. split; [done|].
  eapply focus_inv; [apply focus_enqueue; [by repeat constructor|done]|done|done|]. by apply PhaseNew.
Qed.

Lemma move_ok n m : inv n -> enabled n m -> exists n', exec wc hw n m = Ok n' /\ inv n'.
Proof.
  intros Hinv Hm. destruct m as [fd|c a|l w|c|c|]; cbn [exec].
  - by apply accept_ok.
  - destruct Hm as (o & Ho & Hst & Hu & Ha). destruct (focus_of n c o Hinv Ho) as (l & q & Hf & Hs & Hat & Hp).
    destruct (TcpConnection.exec_ok (tcp o) a (sound_inv _ Hs) Ha) as (t' & E & _).
    destruct (act_ok n c o l q a (tcp o) t') as (n' & -> & Hn'); try done.
    + apply Hs.
    + unfold queued. destruct a; try done; by rewrite Nat.sub_0_r.
    + by eapply TcpConnection.exec_change; [apply sound_inv|..].
    + by apply collect_ok.
  - by apply run_ok.
  - destruct Hm as [o Ho]. destruct (focus_of n c o Hinv Ho) as (l & q & Hf & Hs & Hat & Hp).
    destruct (hold_focus n c o l q Hf) as (n' & -> & Hb & Hf'). exists n'. split; [done|].
    eapply focus_inv; [done|done|simpl; intros ? ?; simpl; lia|]. by rewrite Hb.
  - destruct Hm as (o & Ho & _). destruct (focus_of n c o Hinv Ho) as (l & q & Hf & Hs & _ & Hp).
    rewrite Ho. simpl. by eapply collect_focus; [eapply focus_put|..].
  - done.
Qed.

Lemma reachable_net n0 n : inv n0 -> rtc (step wc hw) n0 n -> inv n.
Proof.
  intros Hi Hr. revert n Hr. apply rtc_ind_r; [done|]. intros x y _ (m & Hm & E) Hx.
  destruct (move_ok x m Hx Hm) as (y' & E' & Hy). congruence.
Qed.

Lemma start_net_inv s : TcpServer.inv (mk_sys s [] []) -> inv (start_net s).
Proof.
  intros Hs. split; [done|done|]. intros c. unfold conn_ok. simpl. rewrite lookup_empty. split_and!; try done.
  - apply not_elem_of_nil.
  - intros Hin. by apply elem_of_nil in Hin.
Qed.

(** ** The queues drain *)

(** What running a functor can lead to: a send may queue two functors that report to
    the user, a close a functor of the server and one of the connection. *)
Definition task_weight (x : TcpConnection.task) : nat :=
  match x with TcpConnection.SendTask _ => 3 | TcpConnection.ForceCloseTask => 4 | _ => 1 end.
Definition functor_weight (f : functor) : nat :=
  match f with EstablishedF _ | DestroyedF _ => 1 | RemoveF _ => 2 | TaskF _ => 0 end.
Definition tasks_weight (ts : list TcpConnection.task) : nat := sum_list (map task_weight ts).
Definition queue_weight (q : list (Z * functor)) : nat := sum_list (map (fun f => functor_weight f.2) q).
Definition weight (n : net) (c : conn) : nat :=
  queue_weight (queue_of n c) +
  match objs n !! c with Some o => tasks_weight (TcpConnection.tasks (tcp o)) | None => 0 end.
Definition pending (n : net) : nat := sum_list (map (weight n) (accepted (sys n))).

Lemma tasks_weight_app a b : tasks_weight (a ++ b) = (tasks_weight a + tasks_weight b)%nat.
Proof. unfold tasks_weight. by rewrite map_app, sum_list_with_app. Qed.
Lemma queue_weight_app a b : queue_weight (a ++ b) = (queue_weight a + queue_weight b)%nat.
Proof. unfold queue_weight. by rewrite map_app, sum_list_with_app. Qed.

(** Operations for [c] leave the other connections alone. *)
Definition same_but (c : conn) (n n' : net) : Prop :=
  accepted (sys n') = accepted (sys n) /\
  forall c', c' <> c -> objs n' !! c' = objs n !! c' /\ queue_of n' c' = queue_of n c'.

#[local] Instance same_but_preorder c : PreOrder (same_but c).
Proof.
  split; [done|]. intros x y z [Ha Hxy] [Hb Hyz]. split; [congruence|]. intros c' Hne.
  destruct (Hxy c' Hne), (Hyz c' Hne). split; congruence.
Qed.

Lemma same_put c n o : same_but c n (put n c o).
Proof. split; [done|]. intros c' Hne. split; [simpl; by rewrite lookup_insert_ne|done]. Qed.

Lemma same_enqueue c n fs : Forall (fun f => functor_conn f.2 = c) fs -> same_but c n (enqueue n fs).
Proof.
  intros Hf. split; [done|]. intros c' Hne. split; [done|]. unfold queue_of. simpl.
  by rewrite filter_app, (queue_of_foreign c c' fs Hf Hne), app_nil_r.
Qed.

Lemma weight_put n c o o' :
  objs n !! c = Some o ->
  (weight (put n c o') c + tasks_weight (TcpConnection.tasks (tcp o)) =
   weight n c + tasks_weight (TcpConnection.tasks (tcp o')))%nat.
Proof.
  intros Ho. unfold weight. change (queue_of (put n c o') c) with (queue_of n c).
  change (objs (put n c o') !! c) with (<[c := o']> (objs n) !! c). rewrite lookup_insert_eq, Ho. lia.
Qed.

Lemma weight_enqueue n c fs :
  Forall (fun f => functor_conn f.2 = c) fs -> weight (enqueue n fs) c = (weight n c + queue_weight fs)%nat.
Proof.
  intros Hf. unfold weight, queue_of. simpl. rewrite filter_app, (queue_of_own c fs Hf), queue_weight_app. lia.
Qed.

Lemma weight_work k c : queue_weight (replicate k (conn_loop c, TaskF c)) = 0%nat.
Proof. induction k; [done|]. by unfold queue_weight in *. Qed.

Lemma weight_pop n l f q :
  pop l (queue n) = Some (f, q) ->
  same_but (functor_conn f) n (set_queue n q) /\
  (weight (set_queue n q) (functor_conn f) + functor_weight f = weight n (functor_conn f))%nat.
Proof.
  intros (q1 & q2 & Eq & -> & _)%pop_split. split.
  - split; [done|]. intros c' Hne. split; [done|]. unfold queue_of. simpl. rewrite Eq, !filter_app. f_equal.
    by rewrite filter_cons_False by (simpl; congruence).
  - unfold weight, queue_of. simpl. rewrite Eq, !filter_app. rewrite filter_cons_True by done.
    rewrite !queue_weight_app. unfold queue_weight. simpl. lia.
Qed.

Lemma remove_weight n c n' :
  removeConnectionInLoop n c = Ok n' -> same_but c n n' /\ weight n' c = S (weight n c).
Proof.
  unfold removeConnectionInLoop. destruct (TcpServer.removeConnectionInLoop _ _ _) as [s'|]; [|done].
  rewrite bind_ok. set (n1 := mk_net _ _ _ _ _). intros [= <-].
  assert (Forall (fun f => functor_conn f.2 = c) [(conn_loop c, DestroyedF c)]) as Hf by by repeat constructor.
  split; [transitivity n1; [done|by apply same_enqueue]|]. rewrite weight_enqueue by done.
  change (weight n1 c) with (weight n c). unfold queue_weight. simpl. lia.
Qed.

Lemma removeConnection_weight n c n' :
  removeConnection n c = Ok n' -> same_but c n n' /\ (weight n' c <= weight n c + 2)%nat.
Proof.
  unfold removeConnection. destruct (server n); [|done]. simpl. destruct (_ =? _).
  - intros [? Hw]%remove_weight. split; [done|]. lia.
  - intros [= <-]. assert (Forall (fun f => functor_conn f.2 = c) [(base n, RemoveF c)]) as Hf by by repeat constructor.
    split; [by apply same_enqueue|]. rewrite weight_enqueue by done. unfold queue_weight. simpl. lia.
Qed.

Lemma hold_weight n c n' : hold n c = Ok n' ->
  same_but c n n' /\ weight n' c = weight n c /\
  (forall o, objs n !! c = Some o -> exists h, objs n' !! c = Some (mk_obj (tcp o) h)).
Proof.
  unfold hold. destruct (objs n !! c) as [o|] eqn:Ho; [|done]. intros [= <-]. split; [apply same_put|]. split.
  - pose proof (weight_put n c o (mk_obj (tcp o) (S (held o))) Ho). simpl in *. lia.
  - intros o' [= <-]. simpl. rewrite lookup_insert_eq. by eexists.
Qed.

Lemma collect_weight n c n' : collect n c = Ok n' -> same_but c n n' /\ (weight n' c <= weight n c)%nat.
Proof.
  unfold collect. destruct (objs n !! c) as [o|] eqn:Ho; [|by intros [= <-]].
  destruct (_ =? 0)%nat; [|by intros [= <-]].
  destruct (TcpConnection.destroy _); simpl; [|done]. destruct (negb _); simpl; [|done]. intros [= <-]. split.
  - split; [done|]. intros c' Hne. split; [simpl; by rewrite lookup_delete_ne|done].
  - unfold weight. simpl. rewrite lookup_delete_eq. unfold queue_of. simpl. lia.
Qed.

(** Whether an operation has called the close callback. *)
Definition closes (t t' : TcpConnection.t) : bool :=
  existsb is_close (drop (length (TcpConnection.calls t)) (TcpConnection.calls t')).

Lemma act_weight n c a n' o :
  act n c a = Ok n' -> objs n !! c = Some o ->
  exists t', TcpConnection.exec (tcp o) a = Ok t' /\ same_but c n n' /\
    (weight n' c + tasks_weight (TcpConnection.tasks (tcp o)) <=
     weight n c + tasks_weight (TcpConnection.tasks t') + (if closes (tcp o) t' then 2 else 0))%nat.
Proof.
  intros E Ho. unfold act in E. rewrite Ho in E. cbn [deref] in E. rewrite bind_ok in E.
  destruct (TcpConnection.exec (tcp o) a) as [t'|] eqn:Ex; [|done]. rewrite bind_ok in E. fold (closes (tcp o) t') in E.
  exists t'. split; [done|]. set (n1 := enqueue _ _) in E.
  assert (same_but c n n1) as Hs by (etransitivity; [apply (same_put c n)|apply same_enqueue, own_work]).
  assert (weight n1 c + tasks_weight (TcpConnection.tasks (tcp o)) =
    weight n c + tasks_weight (TcpConnection.tasks t'))%nat as Hw.
  { unfold n1. rewrite weight_enqueue by apply own_work. rewrite weight_work, Nat.add_0_r.
    by rewrite (weight_put n c o (mk_obj t' (held o)) Ho). }
  destruct (closes (tcp o) t').
  - apply removeConnection_weight in E as [? ?]. split; [by etransitivity|lia].
  - injection E as <-. split; [done|lia].
Qed.

Lemma closes_same t t' : TcpConnection.calls t' = TcpConnection.calls t -> closes t t' = false.
Proof. unfold closes. intros ->. by rewrite drop_all. Qed.

Lemma reports_weight ts :
  Forall (fun x => TcpConnection.reports x = true) ts -> tasks_weight ts = length ts.
Proof.
  induction 1 as [|x ts Hx _ IH]; [done|]. unfold tasks_weight in *. simpl. rewrite IH. by destruct x.
Qed.

Lemma run_task_weight t w t' x rest :
  TcpConnection.tasks t = x :: rest -> TcpConnection.run_task t w = Ok t' ->
  (tasks_weight (TcpConnection.tasks t') + (if closes t t' then 2 else 0) < tasks_weight (TcpConnection.tasks t))%nat.
Proof.
  intros Et. unfold TcpConnection.run_task. rewrite Et.
  assert (tasks_weight (x :: rest) = task_weight x + tasks_weight rest)%nat as -> by done.
  assert (forall t2, TcpConnection.tasks t2 = rest -> TcpConnection.calls t2 = TcpConnection.calls t ->
    (tasks_weight (TcpConnection.tasks t2) + (if closes t t2 then 2 else 0) < task_weight x + tasks_weight rest)%nat) as Hsame.
  { intros t2 -> ->%closes_same. destruct x; simpl; lia. }
  destruct x as [message| | | |sz| |]; simpl.
  - intros (Hk & ts & -> & Hlen & Hts)%TcpConnection.sendInLoop_tasks.
    rewrite closes_same by done. simpl. rewrite tasks_weight_app, (reports_weight ts Hts). lia.
  - intros [= <-]. apply Hsame; by case_match.
  - unfold TcpConnection.forceCloseInLoop. simpl. case_decide; [|intros [= <-]; by apply Hsame].
    unfold TcpConnection.handleClose. simpl. destruct (bool_decide _); [|done]. intros [= <-]. simpl.
    destruct (closes _ _); lia.
  - intros [= <-]. by apply Hsame.
  - intros [= <-]. by apply Hsame.
  - intros [= <-]. apply Hsame; by case_match.
  - intros [= <-]. apply Hsame; by case_match.
Qed.

Lemma establish_weight t a t' :
  a = TcpConnection.Establish \/ a = TcpConnection.Destroy -> TcpConnection.exec t a = Ok t' ->
  TcpConnection.tasks t' = TcpConnection.tasks t /\ closes t t' = false.
Proof.
  intros [-> | ->]; simpl.
  - unfold TcpConnection.connectEstablished. simpl. destruct (bool_decide _); [|done]. intros [= <-].
    split; [done|]. unfold closes. simpl. by rewrite app_nil_r, new_calls.
  - unfold TcpConnection.connectDestroyed, TcpConnection.removeSelfFromLoop. simpl.
    destruct (_ =? _); [|done]. simpl. destruct (TcpConnection.inLoop_ _); [|done].
    intros [= <-]. case_decide; [|split; [done|by apply closes_same]]. split; [done|]. unfold closes. simpl. by rewrite app_nil_r, new_calls.
Qed.

(** A functor that owns its connection runs an operation that queues nothing. *)
Lemma hold_act_weight n c a n' :
  a = TcpConnection.Establish \/ a = TcpConnection.Destroy -> (n ← hold n c ; act n c a) = Ok n' ->
  same_but c n n' /\ (weight n' c <= weight n c)%nat.
Proof.
  intros Ha E. destruct (hold n c) as [n1|] eqn:Eh; [|done]. rewrite bind_ok in E.
  destruct (hold_weight _ _ _ Eh) as (Hs & Hw & Hh). destruct (objs n !! c) as [o|] eqn:Ho;
    [|unfold hold in Eh; by rewrite Ho in Eh].
  destruct (Hh o eq_refl) as [h Hh']. destruct (act_weight _ _ _ _ _ E Hh') as (t' & Ex & Hs' & Hw').
  destruct (establish_weight _ _ _ Ha Ex) as [Ht Hc]. rewrite Ht, Hc in Hw'. split; [by etransitivity|lia].
Qed.

Lemma run_own_weight n c w n' o :
  run_own n c w = Ok n' -> objs n !! c = Some o -> TcpConnection.tasks (tcp o) <> [] ->
  same_but c n n' /\ (weight n' c < weight n c)%nat.
Proof.
  intros E Ho Hne. unfold run_own in E. rewrite Ho in E. cbn [deref] in E. rewrite bind_ok in E.
  destruct (TcpConnection.tasks (tcp o)) as [|x rest] eqn:Et; [done|].
  assert (forall n1 h, same_but c n n1 -> weight n1 c = weight n c -> objs n1 !! c = Some (mk_obj (tcp o) h) ->
    act n1 c (TcpConnection.RunTask w) = Ok n' -> same_but c n n' /\ (weight n' c < weight n c)%nat) as Hact.
  { intros n1 h Hs Hw Hh Ea. destruct (act_weight _ _ _ _ _ Ea Hh) as (t' & Ex & Hs' & Hw').
    pose proof (run_task_weight _ _ _ _ _ Et Ex). simpl in *. split; [by etransitivity|lia]. }
  destruct (task_owns x).
  - destruct (hold n c) as [n1|] eqn:Eh; [|done]. rewrite bind_ok in E.
    destruct (hold_weight _ _ _ Eh) as (Hs & Hw & Hh). destruct (Hh o Ho) as [h Hh']. by eapply Hact.
  - rewrite bind_ok in E. destruct o as [t h]. by eapply (Hact n h).
Qed.

(** Running one functor makes its connection's share smaller. *)
Lemma run_weight n l w n' f q :
  run n l w = Ok n' -> pop l (queue n) = Some (f, q) ->
  (forall c, f = TaskF c -> exists o, objs n !! c = Some o /\ TcpConnection.tasks (tcp o) <> []) ->
  same_but (functor_conn f) n n' /\ (weight n' (functor_conn f) < weight n (functor_conn f))%nat.
Proof.
  intros E Ep Hne. unfold run in E. rewrite Ep in E. cbn zeta in E.
  destruct (weight_pop n l f q Ep) as [Hs1 Hw1]. set (n1 := set_queue n q) in *.
  destruct (match f with EstablishedF _ => _ | _ => _ end) as [n2|] eqn:Em; [|done]. rewrite bind_ok in E.
  apply collect_weight in E as [Hs3 Hw3].
  assert (same_but (functor_conn f) n1 n2 /\ (weight n2 (functor_conn f) < weight n (functor_conn f))%nat) as [Hs2 Hw2].
  { destruct f as [c|c|c|c]; simpl in *.
    - apply hold_act_weight in Em as [? ?]; [|by left]. split; [done|lia].
    - apply hold_act_weight in Em as [? ?]; [|by right]. split; [done|lia].
    - destruct (hold n1 c) as [n3|] eqn:Eh; [|done]. rewrite bind_ok in Em.
      destruct (hold_weight _ _ _ Eh) as (Hs & Hw & _). destruct (server n3); [|done]. simpl in Em.
      apply remove_weight in Em as [? ?]. split; [by etransitivity|lia].
    - destruct (Hne c eq_refl) as (o & Ho & Ht).
      destruct (run_own_weight n1 c w n2 o Em Ho Ht). split; [done|lia]. }
  split; [by do 2 (etransitivity; [done|])|lia].
Qed.

Lemma sum_smaller (l : list conn) (f g : conn -> nat) c :
  c ∈ l -> (f c < g c)%nat -> (forall c', c' <> c -> f c' = g c') -> (sum_list (map f l) < sum_list (map g l))%nat.
Proof.
  intros Hin Hlt Hsame.
  assert (forall l, sum_list (map f l) <= sum_list (map g l))%nat as Hle.
  { intros l0. induction l0 as [|x l0 IH]; simpl; [lia|].
    destruct (decide (x = c)) as [->|Hne]; [lia|]. rewrite (Hsame x Hne). lia. }
  induction l as [|x l IH]; [by apply elem_of_nil in Hin|]. simpl. pose proof (Hle l).
  destruct (decide (x = c)) as [->|Hne]; [lia|]. rewrite (Hsame x Hne).
  apply elem_of_cons in Hin as [|Hin]; [congruence|]. specialize (IH Hin). lia.
Qed.

Lemma pop_queued n l f q :
  inv n -> pop l (queue n) = Some (f, q) ->
  functor_conn f ∈ accepted (sys n) /\
  exists o, objs n !! functor_conn f = Some o /\ (f = TaskF (functor_conn f) -> TcpConnection.tasks (tcp o) <> []).
Proof.
  intros Hinv (q1 & q2 & Eq & _)%pop_split. pose proof (n_conn n Hinv (functor_conn f)) as Hok. unfold conn_ok in Hok.
  assert ((l, f) ∈ queue_of n (functor_conn f)) as Hin.
  { apply list_elem_of_filter. split; [done|]. rewrite Eq. apply elem_of_app. right. by left. }
  destruct (objs n !! functor_conn f) as [o|].
  2: { destruct Hok as [Hnil _]. rewrite Hnil in Hin. by apply elem_of_nil in Hin. }
  destruct Hok as (Ha & _ & _ & _ & Hp). split; [done|]. exists o. split; [done|]. intros Ef Ht. destruct f; try done. simpl in *.
  destruct Hp as [Hst Ht'|Ho|Hc Hb|Hc|Hc Ht' Hil]; unfold work in Hin; rewrite ?Ht in Hin; simpl in Hin;
    apply list_elem_of_singleton in Hin || apply elem_of_nil in Hin; done.
Qed.

(** One functor runs. *)
Definition runs (n n' : net) : Prop :=
  exists l w, pop l (queue n) <> None /\ enabled n (Run l w) /\ run n l w = Ok n'.

Lemma runs_pending n n' : inv n -> runs n n' -> inv n' /\ (pending n' < pending n)%nat.
Proof.
  intros Hinv (l & w & Hp & Hen & E). destruct (run_ok n l w Hinv Hen) as (n1 & E1 & Hn').
  rewrite E in E1. injection E1 as <-. split; [done|].
  destruct (pop l (queue n)) as [[f q]|] eqn:Ep; [|done].
  destruct (pop_queued n l f q Hinv Ep) as (Ha & o & Ho & Ht).
  destruct (run_weight n l w n' f q E Ep) as [[Hacc Hsame] Hlt].
  { intros c ->. exists o. split; [done|]. by apply Ht. }
  unfold pending. rewrite Hacc. apply (sum_smaller _ _ _ (functor_conn f)); try done.
  intros c' Hne. destruct (Hsame c' Hne) as [Hobj Hq]. unfold weight. by rewrite Hobj, Hq.
Qed.

Lemma runs_bounded k n n' : inv n -> nsteps runs k n n' -> inv n' /\ (k + pending n' <= pending n)%nat.
Proof.
  intros Hinv Hr. revert Hinv. induction Hr as [|k x y z Hxy _ IH]; intros Hinv; [split; [done|lia]|].
  destruct (runs_pending x y Hinv Hxy) as [Hy Hlt]. destruct (IH Hy) as [Hz Hle]. split; [done|lia].
Qed.

(** Nothing queued: every connection is open, or out of the table and of its loop. *)
Lemma quiet n c :
  inv n -> queue n = [] -> c ∈ accepted (sys n) ->
  (exists o, objs n !! c = Some o /\ TcpConnection.open (tcp o) /\
     connections_ (srv (sys n)) !! conn_name c = Some c) \/
  (connections_ (srv (sys n)) !! conn_name c <> Some c /\
   match objs n !! c with
   | Some o => ended (tcp o) /\ (0 < held o)%nat
   | None => exists t, dead_of n c = [(c, t)] /\ ended t
   end).
Proof.
  intros Hinv Hq Ha. pose proof (n_conn n Hinv c) as Hok. unfold conn_ok in Hok.
  pose proof (inv_map _ (n_sys n Hinv) c) as Hm.
  destruct (objs n !! c) as [o|].
  - destruct Hok as (_ & _ & _ & Hat & Hp). unfold queue_of in Hat, Hp. rewrite Hq in Hat, Hp.
    case_bool_decide as Hl.
    + left. exists o. split_and!; [done| |by apply Hm]. by inversion Hp as [|Ho| | |]; destruct (work c (tcp o)).
    + right. split; [tauto|]. split; [|by apply Hat]. inversion Hp as [| | |Hc El Eq|]; [by destruct (work c (tcp o))|done].
  - right. destruct Hok as (_ & Hl & Hd & _). split; [tauto|]. destruct (Hd Ha) as (t & ? & _ & ?). by exists t.
Qed.
End Net.


(** C18. The queues drain: from any reachable state the loops can run at most
    [pending] functors, as long as nobody else acts; as long as one is queued some
    loop can run it; and when none is, every connection accepted is open, known to
    the server and alive, or it is out of the table, out of its loop, and destroyed
    unless a user still holds a pointer. *)
Theorem tcpserver_quiesces loop ipPort nameArg idleFd numThreads hasCallback startLoop s0 s1 wc hw n k n' :
  zlen ipPort <= 50 -> numThreads < 2 ^ 31 ->
  setThreadNum (new loop ipPort nameArg idleFd) numThreads = Ok s0 ->
  start hasCallback startLoop s0 = Ok s1 -> rtc (step wc hw) (start_net s1) n -> nsteps runs k n n' ->
  (k <= pending n)%nat /\
  (queue n' <> [] -> exists l, pop l (queue n') <> None /\
     forall w, enabled n' (Run l w) -> exists n2, run n' l w = Ok n2 /\ (pending n2 < pending n')%nat) /\
  (queue n' = [] -> forall c, c ∈ accepted (sys n') ->
     (exists o, objs n' !! c = Some o /\ TcpConnection.open (tcp o) /\
        connections_ (srv (sys n')) !! conn_name c = Some c) \/
     (connections_ (srv (sys n')) !! conn_name c <> Some c /\
      match objs n' !! c with
      | Some o => ended (tcp o) /\ (0 < held o)%nat
      | None => exists t, dead_of n' c = [(c, t)] /\ ended t
      end)).
Proof.
  intros Hip Hn E0 E1 Hr Hk. destruct (start_keeps _ _ _ _ _ _ _ _ _ Hip Hn E0 E1) as (Hi & _).
  pose proof (reachable_net wc hw _ _ (start_net_inv wc hw _ Hi) Hr) as Hinv.
  destruct (runs_bounded wc hw k n n' Hinv Hk) as [Hinv' Hle]. split_and!; [lia| |].
  - intros Hq. destruct (queue n') as [|[l f] q] eqn:Eq; [done|]. exists l. simpl. rewrite Z.eqb_refl. split; [done|].
    intros w Hw. destruct (run_ok wc hw n' l w Hinv' Hw) as (n2 & E & _). exists n2. split; [done|].
    eapply runs_pending; [done|]. exists l, w. split_and!; [|done|done]. rewrite Eq. simpl. by rewrite Z.eqb_refl.
  - intros Hq c Ha. by eapply quiet.
Qed.

(** ** Concrete runs *)
Fixpoint play (n : net) (ms : list move) : outcome net :=
  match ms with [] => mret n | m :: ms => n' ← exec true false n m ; play n' ms end.

Definition demo : net := start_net TcpServer.demo0.
Abbreviation blocked := (TcpConnection.WriteError TcpConnection.EWOULDBLOCK).
Definition up1 : list move := [Accept 20; Run 100 blocked].
Definition closing1 : list move := [Act demo_c1 TcpConnection.HangUp; Run 9 blocked; Run 100 blocked].
Definition drops (k : nat) (c : conn) : list move := replicate k (Drop c).

(** A connection is opened and closed by its peer; the last pointers go; the object
    has died once and nothing is queued. *)
Example demo_dies :
  match play demo (up1 ++ closing1 ++ drops 3 demo_c1) with
  | Ok n => bool_decide (queue n = [] /\ size (objs n) = 0%nat /\ map fst (dead n) = [demo_c1])
  | Fault _ => false
  end = true.
Proof. vm_compute. reflexivity. Qed.

(** [forceCloseWithDelay] gives its timer a plain [this]: when the peer closes first
    and the object dies, the timer calls a member function of a dead object. *)
Example delay_after_death :
  play demo (up1 ++ [Act demo_c1 TcpConnection.ForceCloseWithDelay] ++ closing1 ++ drops 3 demo_c1 ++
    [Act demo_c1 TcpConnection.DelayElapsed]) = Fault OutOfBounds.
Proof. vm_compute. reflexivity. Qed.

(** So does the functor [startRead] queues from another thread, which does not look at
    the state: called on a closed connection, it can outlive the object. *)
Example startRead_after_death :
  play demo (up1 ++ closing1 ++ [Act demo_c1 (TcpConnection.StartRead false)] ++ drops 3 demo_c1 ++
    [Run 100 blocked]) = Fault OutOfBounds.
Proof. vm_compute. reflexivity. Qed.

(** [~TcpServer] leaves its own [this] in the close callbacks: a peer that closes
    before the connection's loop has run [connectDestroyed] calls a dead server. *)
Example close_after_server_death :
  play demo (up1 ++ [Destruct; Act demo_c1 TcpConnection.HangUp]) = Fault OutOfBounds.
Proof. vm_compute. reflexivity. Qed.

(** In a server without threads the destructor destroys its connections at once, also
    those with a functor of [send] queued, which then finds no object. *)
Definition single0 : TcpServer.t :=
  ok_or (new 0 [] [] 0) (s ← setThreadNum (new 9 (str "127.0.0.1:80") (str "srv") 3) 0 ;
                         start false (fun i => 100 + Z.of_nat i) s).
Example send_after_death :
  let c := mk_conn (connName single0 1) 9 20 in
  play (start_net single0)
    [Accept 20; Act c (TcpConnection.Send false (str "hi") blocked); Destruct; Run 9 blocked] = Fault OutOfBounds.
Proof. vm_compute. reflexivity. Qed.

(** The half of [send], called in another thread, that follows the test of the state. *)
Definition send_queues (n : net) (c : conn) (message : bytes) : outcome net :=
  o ← deref (objs n !! c) ;
  mret (enqueue (put n c (mk_obj (TcpConnection.queueInLoop (tcp o) (TcpConnection.SendTask message)) (held o)))
    [(conn_loop c, TaskF c)]).

(** Another thread, which holds a pointer, has found the connection connected; the peer
    closes and everybody else lets go; then the thread queues its functor and lets go. *)
Example interrupted_send_after_death :
  (n ← play demo (up1 ++ [Hold demo_c1] ++ closing1 ++ drops 3 demo_c1) ;
   n ← send_queues n demo_c1 (str "hi") ;
   play n [Drop demo_c1; Run 100 blocked]) = Fault OutOfBounds.
Proof. vm_compute. reflexivity. Qed.

Definition played (ms : list move) : net := ok_or demo (play demo ms).

(** Two connections, the first with a message queued by another thread and closed by
    its peer. *)
Definition busy : net :=
  played (up1 ++ [Accept 21; Act demo_c1 (TcpConnection.Send false (str "hi") blocked); Act demo_c1 TcpConnection.HangUp]).

Lemma step_played n m n' : enabled n m -> exec true false n m = Ok n' -> step true false n n'.
Proof. intros. by exists m. Qed.

(** A check that a move is enabled, enough for the runs above. *)
Definition send_okb (t : TcpConnection.t) (message : bytes) (w : TcpConnection.write_result) : bool :=
  match w with
  | TcpConnection.Wrote k => (0 <=? k) && (k <=? zlen message) && negb (TcpConnection.fin t)
  | TcpConnection.WriteError e => negb (TcpConnection.fin t) || (e =? TcpConnection.EPIPE)
  end && (zlen (Buffer.buffer_ (TcpConnection.outputBuffer_ t)) + zlen message <=? Buffer.max_size).

Definition enabledb (n : net) (m : move) : bool :=
  match m with
  | Accept _ => nextConnId_ (srv (sys n)) + 1 <? 2 ^ 31
  | Act c a =>
      match objs n !! c with
      | Some o =>
          match a with
          | TcpConnection.Send _ message w =>
              bool_decide (TcpConnection.state_ (tcp o) <> TcpConnection.kConnecting) && send_okb (tcp o) message w
          | TcpConnection.HangUp => bool_decide (TcpConnection.state_ (tcp o) = TcpConnection.kConnected)
          | _ => false
          end
      | None => false
      end
  | Run l w =>
      match pop l (queue n) with
      | Some (TaskF c, _) =>
          match objs n !! c with
          | Some o =>
              match TcpConnection.tasks (tcp o) with
              | TcpConnection.SendTask message :: _ => send_okb (tcp o) message w
              | _ => true
              end
          | None => true
          end
      | _ => true
      end
  | Hold c => bool_decide (is_Some (objs n !! c))
  | Drop c => match objs n !! c with Some o => (0 <? held o)%nat | None => false end
  | Destruct => false
  end.

Lemma send_okb_sound t message w :
  send_okb t message w = true ->
  TcpConnection.write_ok t (zlen message) w /\ Buffer.room (TcpConnection.outputBuffer_ t) (zlen message).
Proof.
  unfold send_okb. intros [Hw Hr%Z.leb_le]%andb_true_iff. split; [|done].
  destruct w as [k|e]; simpl.
  - destruct (TcpConnection.fin t); [by rewrite andb_false_r in Hw|]. lia.
  - destruct (TcpConnection.fin t); [|done]. intros _. by apply Z.eqb_eq.
Qed.

Lemma enabledb_sound n m : enabledb n m = true -> enabled n m.
Proof.
  destruct m as [fd|c a|l w|c|c|]; simpl; try done.
  - by intros ?%Z.ltb_lt.
  - destruct (objs n !! c) as [o|]; [|done]. intros H. exists o. split; [done|].
    destruct a; try done.
    + apply andb_true_iff in H as [Hs%bool_decide_eq_true Hw%send_okb_sound]. by destruct Hw.
    + apply bool_decide_eq_true in H. split_and!; [congruence|done|by left].
  - intros H c q o message rest Ep Ho Et. rewrite Ep, Ho, Et in H. by apply send_okb_sound.
  - by intros ?%bool_decide_eq_true.
  - destruct (objs n !! c) as [o|]; [|done]. intros ?%Nat.ltb_lt. by exists o.
Qed.

Fixpoint playb (n : net) (ms : list move) : bool :=
  match ms with
  | [] => true
  | m :: ms => enabledb n m && match exec true false n m with Ok n' => playb n' ms | Fault _ => false end
  end.

Lemma playb_reach ms n : playb n ms = true -> exists n', play n ms = Ok n' /\ rtc (step true false) n n'.
Proof.
  revert n. induction ms as [|m ms IH]; intros n; simpl; [by exists n|].
  intros [Hm%enabledb_sound H]%andb_true_iff. destruct (exec true false n m) as [n1|] eqn:E; [|done].
  destruct (IH n1 H) as (n' & E' & Hr). exists n'. split; [done|]. eapply rtc_l; [|done]. by eapply step_played.
Qed.

Lemma busy_reachable : rtc (step true false) demo busy.
Proof.
  unfold busy, played. set (ms := _ ++ _).
  destruct (playb_reach ms demo) as (n' & E & Hr); [vm_compute; reflexivity|]. by rewrite E.
Qed.


Definition busy1 : net := ok_or busy (run busy 100 blocked).

Lemma busy_runs : runs busy busy1.
Proof.
  exists 100, blocked. split; [vm_compute; discriminate|]. split; [apply enabledb_sound; vm_compute; reflexivity|].
  assert (match run busy 100 blocked with Ok _ => true | Fault _ => false end = true) as H by (vm_compute; reflexivity).
  unfold busy1. destruct (run busy 100 blocked); [done|discriminate H].
Qed.

Lemma tcpserver_quiesces_witness : (1 <= pending busy)%nat /\ pending busy = 6%nat /\ length (queue busy1) = 2%nat.
Proof.
  split; [|vm_compute; split; reflexivity].
  refine (proj1 (tcpserver_quiesces 9 (str "127.0.0.1:80") (str "srv") 3 2 false (fun i => 100 + Z.of_nat i)
    (ok_or demo0 (setThreadNum (new 9 (str "127.0.0.1:80") (str "srv") 3) 2)) demo0 true false busy 1 busy1 _ _ _ _ _ _));
    [vm_compute; discriminate|lia|reflexivity|vm_compute; reflexivity|exact busy_reachable|].
  exact (nsteps_once busy busy1 busy_runs).
Defined.
End ServerNet.
