(* ===== verification/Descriptors.v ===== *)
(** Descriptors and their owners: the system calls of src/libel/net/sockets_ops.cpp,
    the class [Socket] (socket.h, socket.cpp), the acceptor (acceptor.h, acceptor.cpp)
    and the construction and destruction of an event loop with its poller and timer
    queue (eventloop.cpp, timerqueue.cpp, poller/epoll_poller.cpp,
    poller/default_poller.cpp).

    The kernel is the table of open descriptors; which number a new descriptor gets
    is a parameter, and every call that can fail takes its answer from a list the
    theorems quantify over. *)

From S2P Require Import Prelude NumText TimeText Polling Server.

(** ** The process as the kernel sees it *)
Module Posix.

(** The descriptor a call that makes one returns, given those in use. *)
Class Kernel := { new_descriptor : gset Z -> Z }.
Class KernelLaws `{Kernel} : Prop := {
  new_descriptor_fresh o : 0 <= new_descriptor o /\ new_descriptor o ∉ o
}.

(** Calls on a descriptor, as they are recorded. *)
Inductive syscall :=
  | Setsockopt (level name value : Z)
  | Getsockopt (level name : Z)
  | Bind (addr : bytes)
  | Listen
  | Connect (addr : bytes)
  | Fcntl (cmd : Z)
  | Shutdown.

Section process.
Context {P : Poller} {K : Kernel}.

(** [open_]: the open descriptors; [bad_]: arguments of close() that were not open;
    [calls]: the calls made, with their results; [answers]: the errors (0 for none)
    the kernel will answer to the calls to come, success when it is used up. *)
Record t := mk {
  open_ : gset Z;
  bad_ : list Z;
  calls : list (Z * syscall * Z);
  answers : list Z;
  poller_ : pstate;
  channels : store;
  t_loopInThisThread : option Z;
}.

Definition set_open (w : t) (o : gset Z) (b : list Z) : t :=
  mk o b (calls w) (answers w) (poller_ w) (channels w) (t_loopInThisThread w).
Definition set_calls (w : t) (cs : list (Z * syscall * Z)) (ans : list Z) : t :=
  mk (open_ w) (bad_ w) cs ans (poller_ w) (channels w) (t_loopInThisThread w).
Definition set_poller (w : t) (p : pstate) (s : store) : t :=
  mk (open_ w) (bad_ w) (calls w) (answers w) p s (t_loopInThisThread w).
Definition set_this_loop (w : t) (l : option Z) : t :=
  mk (open_ w) (bad_ w) (calls w) (answers w) (poller_ w) (channels w) l.

(** Computations that call the kernel. *)
Definition M (A : Type) : Type := t -> outcome (A * t).
#[global] Instance M_ret : MRet M := fun A a w => Ok (a, w).
#[global] Instance M_bind : MBind M := fun A B k m w => r ← m w ; k r.1 r.2.
Definition stop {A} (f : fault) : M A := fun _ => Fault f.
Definition lift {A} (m : outcome A) : M A := fun w => a ← m ; Ok (a, w).

Definition next_answer : M Z := fun w =>
  match answers w with
  | [] => Ok (0, w)
  | e :: ans => Ok (e, set_calls w (calls w) ans)
  end.

Definition allocate : M Z := fun w =>
  let fd := new_descriptor (open_ w) in Ok (fd, set_open w ({[fd]} ∪ open_ w) (bad_ w)).

(** socket(), accept(), open(), eventfd(), timerfd_create(), epoll_create1(): a new
    descriptor or an error. *)
Definition make_descriptor : M (Z + Z) :=
  e ← next_answer ;
  if e =? 0 then fd ← allocate ; mret (inl fd) else mret (inr e).

(** A call on a descriptor: the error, 0 for none. *)
Definition EBADF : Z := 9.
Definition call (fd : Z) (c : syscall) : M Z := fun w =>
  if decide (fd ∈ open_ w) then
    r ← next_answer w ;
    Ok (r.1, set_calls r.2 (calls r.2 ++ [(fd, c, r.1)]) (answers r.2))
  else Ok (EBADF, set_calls w (calls w ++ [(fd, c, EBADF)]) (answers w)).

Definition close (fd : Z) : M unit := fun w =>
  if decide (fd ∈ open_ w) then Ok (tt, set_open w (open_ w ∖ {[fd]}) (bad_ w))
  else Ok (tt, set_open w (open_ w) (bad_ w ++ [fd])).

(** Operations on the channels of the loop. *)
Definition channel (x : ChannelOps.cmd) : M unit := fun w =>
  r ← ChannelOps.exec (poller_ w) (channels w) x ; Ok (tt, set_poller w r.1 r.2).
Definition destroy_channel (c : Z) : M unit := fun w =>
  lift (ChannelOps.destroy true (poller_ w) (channels w) c) w.
Definition start_poller : M unit := fun w => Ok (tt, set_poller w pnew (channels w)).
Definition store_loop (l : option Z) : M unit := fun w => Ok (tt, set_this_loop w l).
End process.
End Posix.

(** ** src/libel/net/sockets_ops.cpp *)
Module SocketOps.
Import Posix.
Section ops.
Context {P : Poller} {K : Kernel}.

Definition F_SETFD : Z := 2.
Definition F_SETFL : Z := 4.

(** The two F_GETFL/F_GETFD calls only read flags. *)
Definition setNonBlockingAndCloseOnExecOrDie (sockfd : Z) : M unit :=
  ret ← call sockfd (Fcntl F_SETFL) ;
  if negb (ret =? 0) then stop Fatal
  else
    ret ← call sockfd (Fcntl F_SETFD) ;
    if negb (ret =? 0) then stop Fatal else mret tt.

Definition createNonBlockingSocketOrDie (family : Z) : M Z :=
  r ← make_descriptor ;
  match r with inl sockfd => mret sockfd | inr _ => stop Fatal end.

Definition bindOrDie (sockfd : Z) (addr : bytes) : M unit :=
  ret ← call sockfd (Bind addr) ;
  if negb (ret =? 0) then stop Fatal else mret tt.

Definition listenOrDie (sockfd : Z) : M unit :=
  ret ← call sockfd Listen ;
  if negb (ret =? 0) then stop Fatal else mret tt.

Definition EPERM : Z := 1.
Definition EINTR : Z := 4.
Definition EAGAIN : Z := 11.
Definition EMFILE : Z := 24.
Definition EPROTO : Z := 71.
Definition ECONNABORTED : Z := 103.

(** [accept]: the descriptor and errno. *)
Definition accept (sockfd : Z) : M (Z * Z) :=
  r ← make_descriptor ;
  let connfd := match r with inl fd => fd | inr _ => -1 end in
  _ ← setNonBlockingAndCloseOnExecOrDie connfd ;
  match r with
  | inl fd => mret (fd, 0)
  | inr savedErrno =>
      if bool_decide (savedErrno ∈ [EAGAIN; ECONNABORTED; EINTR; EPROTO; EPERM; EMFILE])
      then mret (connfd, savedErrno)
      else stop Fatal
  end.

Definition connect (sockfd : Z) (addr : bytes) : M Z := call sockfd (Connect addr).

Definition shutdownWrite (sockfd : Z) : M unit := _ ← call sockfd Shutdown ; mret tt.

Definition close (sockfd : Z) : M unit := Posix.close sockfd.
End ops.
End SocketOps.

(** ** src/libel/net/socket.h, socket.cpp.  A [Socket] is its descriptor. *)
Module Socket.
Import Posix.
Section socket.
Context {P : Poller} {K : Kernel}.

Definition SOL_SOCKET : Z := 1.
Definition SO_REUSEADDR : Z := 2.
Definition SO_KEEPALIVE : Z := 9.
Definition SO_REUSEPORT : Z := 15.
Definition IPPROTO_TCP : Z := 6.
Definition TCP_NODELAY : Z := 1.
Definition TCP_INFO : Z := 11.

Definition destroy (sockfd_ : Z) : M unit := SocketOps.close sockfd_.

(** [info] is what the kernel stores on success; on failure the structure is zero. *)
Definition getTcpInfo (sockfd_ : Z) (info : list Z) : M (bool * list Z) :=
  ret ← call sockfd_ (Getsockopt IPPROTO_TCP TCP_INFO) ;
  mret (ret =? 0, if ret =? 0 then info else replicate 12 0).

Definition info_names : list bytes :=
  map str ["unrecovered="; "rto="; "ato="; "snd_mss="; "rcv_mss="; "lost="; "retrans="; "rtt=";
           "rttvar="; "sshthresh="; "cwnd="; "total_retrans="]%string.
Definition info_text (info : list Z) : bytes :=
  concat (zip_with (fun n v => n ++ Num2String.dec v ++ str " ") info_names info).

(** [buf] holds a C string of less than [len] bytes. *)
Definition getTcpInfoString (sockfd_ : Z) (info : list Z) (buf : bytes) (len : Z) : M (bool * bytes) :=
  r ← getTcpInfo sockfd_ info ;
  mret (r.1, if (r.1 : bool) then CTime.snprintf len (info_text r.2) else buf).

Definition bindAddress (sockfd_ : Z) (local_addr : bytes) : M unit := SocketOps.bindOrDie sockfd_ local_addr.

Definition listen (sockfd_ : Z) : M unit := SocketOps.listenOrDie sockfd_.

(** [addr] is what accept() stores; [peer_addr] is assigned on success only. *)
Definition accept (sockfd_ : Z) (addr peer_addr : bytes) : M (Z * Z * bytes) :=
  r ← SocketOps.accept sockfd_ ;
  mret (r, if 0 <=? r.1 then addr else peer_addr).

Definition shutdownWrite (sockfd_ : Z) : M unit := SocketOps.shutdownWrite sockfd_.

(** A failing setsockopt() is logged. *)
Definition setTcpNoDelay (sockfd_ : Z) (on : bool) : M unit :=
  _ ← call sockfd_ (Setsockopt IPPROTO_TCP TCP_NODELAY (Z.b2z on)) ; mret tt.
Definition setReuseAddr (sockfd_ : Z) (on : bool) : M unit :=
  _ ← call sockfd_ (Setsockopt SOL_SOCKET SO_REUSEADDR (Z.b2z on)) ; mret tt.
Definition setReusePort (sockfd_ : Z) (on : bool) : M unit :=
  _ ← call sockfd_ (Setsockopt SOL_SOCKET SO_REUSEPORT (Z.b2z on)) ; mret tt.
Definition setKeepAlive (sockfd_ : Z) (on : bool) : M unit :=
  _ ← call sockfd_ (Setsockopt SOL_SOCKET SO_KEEPALIVE (Z.b2z on)) ; mret tt.
End socket.
End Socket.

(** ** Construction and destruction of an event loop *)

(** [Poller::newDefaultPoller], by the variable LIBEL_USE_POLL. *)
Module DefaultPoller.
Definition newDefaultPoller `{EpollKernel} (LIBEL_USE_POLL : option bytes) : Poller :=
  match LIBEL_USE_POLL with
  | Some _ => PollPoller.poll_poller
  | None => EpollPoller.epoll_poller
  end.

Lemma newDefaultPoller_laws `{EpollLaws} env : @PollerLaws (newDefaultPoller env).
Proof. destruct env; simpl; apply _. Qed.
End DefaultPoller.

Module LoopHandles.
Import Posix.
Section loop.
Context {P : Poller} {K : Kernel}.

(** The descriptors and channels an event loop owns: the poller's epoll instance
    (none for poll), the timer and the wake-up event. *)
Record t := mk {
  epollfd_ : option Z;
  timerfd_ : Z;
  timerfdChannel_ : Z;
  wakeupFd_ : Z;
  wakeupChannel_ : Z;
}.

(** [new PollPoller] or [new EpollPoller] *)
Definition new_poller (epoll : bool) : M (option Z) :=
  if epoll then
    r ← make_descriptor ;
    match r with
    | inl epollfd => _ ← start_poller ; mret (Some epollfd)
    | inr _ => stop Fatal
    end
  else _ ← start_poller ; mret None.
Definition destroy_poller (epollfd_ : option Z) : M unit :=
  match epollfd_ with Some fd => close fd | None => mret tt end.

Definition createTimerfd : M Z :=
  r ← make_descriptor ; match r with inl timerfd => mret timerfd | inr _ => stop Fatal end.

(** [TimerQueue::TimerQueue] and [~TimerQueue]; [ch] is the address of the channel. *)
Definition new_timers (ch : Z) : M Z :=
  timerfd ← createTimerfd ;
  _ ← channel (ChannelOps.Create ch timerfd) ;
  _ ← channel (ChannelOps.EnableReading ch) ;
  mret timerfd.
Definition destroy_timers (timerfd ch : Z) : M unit :=
  _ ← channel (ChannelOps.DisableAll ch) ;
  _ ← channel (ChannelOps.Remove ch) ;
  _ ← close timerfd ;
  destroy_channel ch.

Definition createEventfd : M Z :=
  r ← make_descriptor ; match r with inl efd => mret efd | inr _ => stop Fatal end.

Definition getEventLoopOfCurrentThead : M (option Z) := fun w => Ok (t_loopInThisThread w, w).

(** [EventLoop::EventLoop]; [self], [tch] and [wch] are the addresses of the loop and
    its channels. *)
Definition new (epoll : bool) (self tch wch : Z) : M t :=
  epollfd ← new_poller epoll ;
  timerfd ← new_timers tch ;
  wakeupFd ← createEventfd ;
  _ ← channel (ChannelOps.Create wch wakeupFd) ;
  l ← getEventLoopOfCurrentThead ;
  match l with
  | Some _ => stop Fatal
  | None =>
      _ ← store_loop (Some self) ;
      _ ← channel (ChannelOps.EnableReading wch) ;
      mret (mk epollfd timerfd tch wakeupFd wch)
  end.

(** [~EventLoop], then its members from the last to the first. *)
Definition destroy (h : t) : M unit :=
  _ ← channel (ChannelOps.DisableAll (wakeupChannel_ h)) ;
  _ ← channel (ChannelOps.Remove (wakeupChannel_ h)) ;
  _ ← close (wakeupFd_ h) ;
  _ ← store_loop None ;
  _ ← destroy_channel (wakeupChannel_ h) ;
  _ ← destroy_timers (timerfd_ h) (timerfdChannel_ h) ;
  destroy_poller (epollfd_ h).
End loop.
End LoopHandles.

(** ** src/libel/net/acceptor.cpp *)
Module AcceptorHandles.
Import Posix.
Section acceptor.
Context {P : Poller} {K : Kernel}.

Record t := mk { acceptSocket_ : Z; acceptChannel_ : Z; base : Acceptor.t }.
Definition set_idleFd (a : t) (fd : Z) : t :=
  mk (acceptSocket_ a) (acceptChannel_ a)
     (Acceptor.mk (Acceptor.isListening_ (base a)) (Acceptor.reading (base a)) fd).

(** open("/dev/null"): the descriptor, -1 on failure. *)
Definition open_null : M Z := r ← make_descriptor ; mret (match r with inl fd => fd | inr _ => -1 end).

Definition new (ch family : Z) (listenAddr : bytes) (reusePort : bool) : M t :=
  acceptSocket ← SocketOps.createNonBlockingSocketOrDie family ;
  _ ← channel (ChannelOps.Create ch acceptSocket) ;
  idleFd ← open_null ;
  _ ← lift (assert_ (0 <=? idleFd)) ;
  _ ← Socket.setReuseAddr acceptSocket true ;
  _ ← Socket.setReusePort acceptSocket reusePort ;
  _ ← Socket.bindAddress acceptSocket listenAddr ;
  mret (mk acceptSocket ch (Acceptor.mk false false idleFd)).

(** [~Acceptor], then its channel and its socket. *)
Definition destroy (a : t) : M unit :=
  _ ← channel (ChannelOps.DisableAll (acceptChannel_ a)) ;
  _ ← channel (ChannelOps.Remove (acceptChannel_ a)) ;
  _ ← close (Acceptor.idleFd_ (base a)) ;
  _ ← destroy_channel (acceptChannel_ a) ;
  Socket.destroy (acceptSocket_ a).

Definition listen (a : t) : M t :=
  b ← lift (Acceptor.listen true (base a)) ;
  _ ← Socket.listen (acceptSocket_ a) ;
  _ ← channel (ChannelOps.EnableReading (acceptChannel_ a)) ;
  mret (mk (acceptSocket_ a) (acceptChannel_ a) b).

(** [handleRead]: the acceptor and the descriptor handed to the callback. *)
Definition handleRead (a : t) (hasCallback : bool) : M (t * option Z) :=
  r ← Socket.accept (acceptSocket_ a) [] [] ;
  let connfd := r.1.1 in
  if 0 <=? connfd then
    if hasCallback then mret (a, Some connfd)
    else _ ← SocketOps.close connfd ; mret (a, None)
  else if r.1.2 =? SocketOps.EMFILE then
    _ ← close (Acceptor.idleFd_ (base a)) ;
    r ← make_descriptor ;
    let idleFd := match r with inl fd => fd | inr _ => -1 end in
    _ ← close idleFd ;
    idleFd ← open_null ;
    mret (set_idleFd a idleFd, None)
  else mret (a, None).

(** The branch for a failed accept() is never reached: the descriptor is made
    non-blocking before it is tested, which stops the process. *)
Lemma accept_failure_is_fatal a hasCallback (w : Posix.t) e ans :
  answers w = e :: ans -> e <> 0 -> -1 ∉ open_ w -> handleRead a hasCallback w = Fault Fatal.
Proof.
  intros Ha He Hneg. unfold handleRead, Socket.accept, SocketOps.accept, make_descriptor, next_answer.
  unfold mbind, M_bind, mret, M_ret. simpl. rewrite Ha. simpl. destruct (Z.eqb_spec e 0); [done|].
  simpl. unfold SocketOps.setNonBlockingAndCloseOnExecOrDie, mbind, M_bind, call. simpl.
  by destruct (decide (-1 ∈ open_ w)).
Qed.
End acceptor.
End AcceptorHandles.

(** ** Who owns what *)
Module Ownership.
Import Posix.

(** The part of the process the theorems follow: the descriptors owned by the
    objects of the library, the channels by the specification of the pollers, the
    loop of this thread and the calls made. *)
Record view := mk_view {
  owned : gset Z;
  cells : gmap Z ChannelOps.cell;
  this_loop : option Z;
  log : list (Z * syscall * Z);
}.

Definition own (fd : Z) (v : view) : view := mk_view ({[fd]} ∪ owned v) (cells v) (this_loop v) (log v).
Definition disown (fd : Z) (v : view) : view := mk_view (owned v ∖ {[fd]}) (cells v) (this_loop v) (log v).
Definition logged (x : Z * syscall * Z) (v : view) : view :=
  mk_view (owned v) (cells v) (this_loop v) (log v ++ [x]).
Definition with_cell (c fd ev : Z) (st : ChannelOps.status) (v : view) : view :=
  mk_view (owned v) (<[c := ChannelOps.mk_cell fd ev st]> (cells v)) (this_loop v) (log v).
Definition in_loop (l : option Z) (v : view) : view := mk_view (owned v) (cells v) l (log v).

(** No registered channel has the descriptor. *)
Definition unwatched (v : view) (fd : Z) : Prop :=
  forall c x, cells v !! c = Some x -> ChannelOps.a_st x = ChannelOps.Registered -> ChannelOps.a_fd x <> fd.

Section proofs.
Context {P : Poller} {L : PollerLaws} {K : Kernel} {KL : KernelLaws}.

(** [F]: the descriptors of the rest of the process; [ans]: all the kernel answers. *)
Context (F : gset Z) (ans : list Z).

Record holds (v : view) (w : t) : Prop := {
  h_open : open_ w = F ∪ owned v;
  h_disj : F ## owned v;
  h_pos fd : fd ∈ F ∪ owned v -> 0 <= fd;
  h_bad : bad_ w = [];
  h_rel : ChannelOps.rel (poller_ w) (channels w) (cells v);
  h_reg c x : cells v !! c = Some x -> ChannelOps.a_st x = ChannelOps.Registered ->
    ChannelOps.a_fd x ∈ owned v;
  h_loop : t_loopInThisThread w = this_loop v;
  h_log : calls w = log v;
  h_ans : answers w `suffix_of` ans;
}.

(** The kernel has refused something. *)
Definition refused : Prop := Exists (fun e => e <> 0) ans.

(** What holds when the process is stopped: a refusal of the kernel, at least. *)
Context (R : Prop).

(** The computation ends with [Q], or the process is stopped and [R] holds. *)
Definition spec {A} (w : t) (m : M A) (Q : A -> t -> Prop) : Prop :=
  match m w with Ok (x, w') => Q x w' | Fault _ => R end.

Lemma spec_ret {A} w (x : A) (Q : A -> t -> Prop) : Q x w -> spec w (mret x) Q.
Proof. done. Qed.

Lemma spec_bind {A B} w (m : M A) (k : A -> M B) Q Q' :
  spec w m Q -> (forall x w', Q x w' -> spec w' (k x) Q') -> spec w (m ≫= k) Q'.
Proof.
  unfold spec, mbind, M_bind. destruct (m w) as [[x w']|f]; simpl; [|done]. intros Hq Hk. by apply Hk.
Qed.

Lemma spec_mono {A} w (m : M A) (Q Q' : A -> t -> Prop) :
  spec w m Q -> (forall x w', Q x w' -> Q' x w') -> spec w m Q'.
Proof. unfold spec. destruct (m w) as [[x w']|f]; auto. Qed.

Lemma spec_stop {A} w f (Q : A -> t -> Prop) : R -> spec w (stop f) Q.
Proof. done. Qed.

Lemma next_answer_spec v w :
  holds v w -> spec w next_answer (fun e w' => holds v w' /\ (e <> 0 -> refused)).
Proof.
  intros Hh. unfold spec, next_answer. destruct (answers w) as [|e r] eqn:E.
  - split; [done|]. by intros [].
  - pose proof (h_ans v w Hh) as [k Hk]. rewrite E in Hk. split.
    + destruct Hh. split; try done. exists (k ++ [e]). simpl. by rewrite <- app_assoc.
    + intros He. unfold refused. rewrite Hk. apply Exists_app. right. by apply Exists_cons_hd.
Qed.

Definition fresh (v : view) (fd : Z) : Prop := 0 <= fd /\ fd ∉ F ∪ owned v.

Lemma fresh_unwatched v w fd : holds v w -> fresh v fd -> unwatched v fd.
Proof. intros Hh [_ Hf] c x Hx Hst E. destruct Hf. rewrite <- E. apply elem_of_union_r. by eapply h_reg. Qed.

Lemma make_descriptor_spec v w :
  holds v w -> spec w make_descriptor (fun r w' =>
    match r with inl fd => fresh v fd /\ holds (own fd v) w' | inr _ => refused /\ holds v w' end).
Proof.
  intros Hh. eapply spec_bind; [by apply next_answer_spec|]. intros e w1 [Hh1 He].
  destruct (Z.eqb_spec e 0) as [->|Hne]; [|apply spec_ret; split; [by apply He|done]].
  unfold spec, mbind, M_bind, allocate. simpl. rewrite (h_open v w1 Hh1).
  destruct (new_descriptor_fresh (F ∪ owned v)) as [Hpos Hnew]. set (fd := new_descriptor _) in *.
  split; [done|]. destruct Hh1. split; simpl; try done.
  - set_solver.
  - set_solver.
  - intros fd'. rewrite !elem_of_union, elem_of_singleton. intros [|[->|]]; set_solver.
  - intros c x Hx Hst. apply elem_of_union_r. eauto.
Qed.

Lemma call_spec v w fd c :
  holds v w -> fd ∈ owned v -> spec w (call fd c) (fun e w' =>
    holds (logged (fd, c, e) v) w' /\ (e <> 0 -> refused)).
Proof.
  intros Hh Hfd. unfold spec, call. rewrite decide_True by (rewrite (h_open v w Hh); set_solver).
  pose proof (next_answer_spec v w Hh) as Hn. unfold spec in Hn.
  destruct (next_answer w) as [[e w']|f]; [|done]. destruct Hn as [Hh' He]. split; [|done].
  destruct Hh'. split; simpl; try done. congruence.
Qed.

Lemma close_spec v w fd :
  holds v w -> fd ∈ owned v -> unwatched v fd -> spec w (close fd) (fun _ w' => holds (disown fd v) w').
Proof.
  intros Hh Hfd Hun. unfold spec, close. rewrite decide_True by (rewrite (h_open v w Hh); set_solver).
  destruct Hh. split; simpl; try done.
  - rewrite h_open0. apply set_eq. intros x. rewrite !elem_of_difference, !elem_of_union, !elem_of_difference.
    rewrite elem_of_singleton. set_solver.
  - set_solver.
  - set_solver.
  - intros c x Hx Hst. apply elem_of_difference. split; [by eapply h_reg0|].
    rewrite elem_of_singleton. by eapply Hun.
Qed.

Lemma channel_spec v w x a :
  holds v w -> ChannelOps.astep (cells v) x = Some a ->
  (forall c y, a !! c = Some y -> ChannelOps.a_st y = ChannelOps.Registered -> ChannelOps.a_fd y ∈ owned v) ->
  spec w (channel x) (fun _ w' => holds (mk_view (owned v) a (this_loop v) (log v)) w').
Proof.
  intros Hh Hs Ha. destruct (ChannelOps.exec_refines _ _ _ x a (h_rel v w Hh) Hs) as (p & s & E & HR & _); [by destruct x|].
  unfold spec, channel. rewrite E. simpl. destruct Hh. by split.
Qed.

Lemma destroy_channel_spec v w c x :
  holds v w -> cells v !! c = Some x -> ChannelOps.a_st x <> ChannelOps.Registered ->
  spec w (destroy_channel c) (fun _ w' => holds v w').
Proof.
  intros Hh Hx Hst. unfold spec, destroy_channel, lift.
  by rewrite (ChannelOps.destroy_refines _ _ _ c x (h_rel v w Hh) Hx Hst eq_refl).
Qed.

(** *** Channels *)
Lemma create_spec v w c fd :
  holds v w -> cells v !! c = None -> 0 <= fd ->
  spec w (channel (ChannelOps.Create c fd)) (fun _ w' => holds (with_cell c fd 0 ChannelOps.Never v) w').
Proof.
  intros Hh Hc Hfd. apply channel_spec; [done|simpl; rewrite Hc; by case_match; [|lia]|].
  intros c' y. rewrite lookup_insert_Some. intros [[<- <-]|[_ Hy]] Hst; [done|]. by eapply h_reg.
Qed.

Definition can_update (v : view) (fd : Z) (st : ChannelOps.status) : Prop :=
  st = ChannelOps.Registered \/ (st = ChannelOps.Never /\ unwatched v fd).

Lemma update_spec f x v w c fd ev st :
  (forall a, ChannelOps.astep a x = ChannelOps.aupdate f a c) ->
  holds v w -> cells v !! c = Some (ChannelOps.mk_cell fd ev st) -> can_update v fd st -> fd ∈ owned v ->
  spec w (channel x) (fun _ w' => holds (with_cell c fd (f ev) ChannelOps.Registered v) w').
Proof.
  intros Hx Hh Hc Hst Hfd. apply channel_spec; [done| |].
  - rewrite Hx. unfold ChannelOps.aupdate. rewrite Hc. simpl. destruct Hst as [->|[-> Hun]]; [done|].
    unfold ChannelOps.free_fd. rewrite bool_decide_true; [done|].
    intros c' y Hy [E Hr]. by apply (Hun c' y).
  - intros c' y. rewrite lookup_insert_Some. intros [[<- <-]|[_ Hy]] Hr; [done|]. by eapply h_reg.
Qed.

Lemma registered_unique v w c fd ev c' x :
  holds v w -> cells v !! c = Some (ChannelOps.mk_cell fd ev ChannelOps.Registered) ->
  cells v !! c' = Some x -> ChannelOps.a_st x = ChannelOps.Registered -> ChannelOps.a_fd x = fd -> c' = c.
Proof.
  intros Hh Hc Hx Hst E. pose proof (h_rel v w Hh) as HR. destruct x as [fd' ev' st']. simpl in *. subst.
  assert (channelMap_ (poller_ w) !! fd = Some c) as H1 by (eapply ChannelOps.rel_map; eauto).
  assert (channelMap_ (poller_ w) !! fd = Some c') as H2 by (eapply ChannelOps.rel_map; eauto).
  congruence.
Qed.

Lemma remove_spec v w c fd :
  holds v w -> cells v !! c = Some (ChannelOps.mk_cell fd 0 ChannelOps.Registered) ->
  spec w (channel (ChannelOps.Remove c)) (fun _ w' =>
    holds (with_cell c fd 0 ChannelOps.Removed v) w' /\
    unwatched (with_cell c fd 0 ChannelOps.Removed v) fd).
Proof.
  intros Hh Hc. eapply spec_mono; [apply channel_spec; [done|simpl; by rewrite Hc|]|].
  - intros c' y. rewrite lookup_insert_Some. intros [[<- <-]|[_ Hy]] Hr; [done|]. by eapply h_reg.
  - intros [] w' Hh'. split; [done|]. intros c' x. simpl. rewrite lookup_insert_Some.
    intros [[<- <-]|[Hne Hx]] Hr; [done|]. intros E. destruct Hne. symmetry. by apply (registered_unique v w c fd 0 c' x).
Qed.

(** Taking a channel out of the loop, whatever its interest was. *)
Lemma retire_spec {B} v w c fd ev st (k : M B) Q :
  holds v w -> cells v !! c = Some (ChannelOps.mk_cell fd ev st) -> can_update v fd st -> fd ∈ owned v ->
  (forall w', let v' := with_cell c fd 0 ChannelOps.Removed v in
     holds v' w' -> unwatched v' fd -> spec w' k Q) ->
  spec w (_ ← channel (ChannelOps.DisableAll c) ; _ ← channel (ChannelOps.Remove c) ; k) Q.
Proof.
  intros Hh Hc Hst Hfd Hk.
  eapply spec_bind; [eapply (update_spec Channel.disableAll_ev); eauto; done|]. intros [] w1 Hh1.
  eapply spec_bind; [apply (remove_spec _ _ c fd Hh1); apply lookup_insert_eq|]. intros [] w2 [Hh2 Hun].
  unfold with_cell in Hh2, Hun. simpl in Hh2, Hun. rewrite insert_insert_eq in Hh2, Hun. by apply Hk.
Qed.

Lemma make_or_stop_spec {B} v w (k : Z -> M B) (kerr : M B) Q :
  (refused -> R) -> holds v w -> (R -> forall w, spec w kerr Q) ->
  (forall fd w', fresh v fd -> holds (own fd v) w' -> spec w' (k fd) Q) ->
  spec w (r ← make_descriptor ; match r with inl fd => k fd | inr _ => kerr end) Q.
Proof.
  intros HR Hh Hs Hk. eapply spec_bind; [by apply make_descriptor_spec|].
  intros [fd|e] w1 Hr; destruct Hr; [by apply Hk|by apply Hs, HR].
Qed.

(** *** Objects with a channel *)

(** An object is its channel, its descriptor and whether it has registered. *)
Definition object : Set := Z * Z * bool.
Definition cell_of (fd : Z) (registered : bool) : ChannelOps.cell :=
  if registered then ChannelOps.mk_cell fd Channel.kReadEvent ChannelOps.Registered
  else ChannelOps.mk_cell fd 0 ChannelOps.Never.

Record objects_ok (v : view) (O : list object) : Prop := {
  o_channels : NoDup (map (fun o => o.1.1) O);
  o_fds : NoDup (map (fun o => o.1.2) O);
  o_cell c fd b : (c, fd, b) ∈ O -> cells v !! c = Some (cell_of fd b);
  o_only c x : cells v !! c = Some x -> ChannelOps.a_st x = ChannelOps.Registered ->
    (c, ChannelOps.a_fd x, true) ∈ O;
}.

#[global] Instance objects_ok_perm : Proper (eq ==> (≡ₚ) ==> iff) objects_ok.
Proof.
  intros v ? <- O O' E. split; intros []; split; try (by rewrite <- E || by rewrite E);
    intros; (rewrite <- E || rewrite E) || (eapply o_cell0; by (rewrite E || rewrite <- E)); eauto.
Qed.

Lemma objects_add v O c fd :
  objects_ok v O -> cells v !! c = None -> fd ∉ map (fun o => o.1.2) O ->
  objects_ok (with_cell c fd 0 ChannelOps.Never v) ((c, fd, false) :: O).
Proof.
  intros [Hc Hf Hcell Honly] Hn Hfd.
  assert (c ∉ map (fun o => o.1.1) O) as Hcn.
  { intros ([[c' fd'] b] & E & Hin)%list_elem_of_fmap. simpl in E. subst c'.
    apply Hcell in Hin. congruence. }
  split; simpl; [by constructor|by constructor| |].
  - intros c' fd' b [[= -> -> ->]|Hin]%elem_of_cons; [apply lookup_insert_eq|].
    rewrite lookup_insert_ne; [by apply Hcell|]. intros <-. destruct Hcn. apply list_elem_of_fmap.
    by exists (c, fd', b).
  - intros c' x. rewrite lookup_insert_Some. intros [[<- <-]|[Hne Hx]] Hst; [done|].
    apply elem_of_cons. right. by apply Honly.
Qed.

Lemma object_unwatched v O c fd : objects_ok v ((c, fd, false) :: O) -> unwatched v fd.
Proof.
  intros [Hc Hf Hcell Honly] c' x Hx Hst E. apply (Honly c' x Hx) in Hst. rewrite E in Hst.
  apply elem_of_cons in Hst as [[= ]|Hin]. simpl in Hf. apply NoDup_cons in Hf as [Hf _].
  destruct Hf. apply list_elem_of_fmap. by exists (c', fd, true).
Qed.

Lemma object_can_update v O c fd b :
  objects_ok v ((c, fd, b) :: O) -> can_update v fd (ChannelOps.a_st (cell_of fd b)).
Proof. intros Ho. destruct b; [by left|right]. split; [done|by eapply object_unwatched]. Qed.

(** The channel of the first object changes; the others keep theirs. *)
Lemma objects_change v O c fd b x :
  objects_ok v ((c, fd, b) :: O) ->
  let a := <[c := x]> (cells v) in
  (forall c' fd' b', (c', fd', b') ∈ O -> a !! c' = Some (cell_of fd' b')) /\
  (forall c' y, a !! c' = Some y -> ChannelOps.a_st y = ChannelOps.Registered -> c' <> c ->
     (c', ChannelOps.a_fd y, true) ∈ O).
Proof.
  intros [Hc Hf Hcell Honly] a. simpl in Hc. apply NoDup_cons in Hc as [Hcn _]. split.
  - intros c' fd' b' Hin. unfold a. rewrite lookup_insert_ne; [apply Hcell; by right|].
    intros <-. destruct Hcn. apply list_elem_of_fmap. by exists (c, fd', b').
  - intros c' y Hy Hst Hne. unfold a in Hy. rewrite lookup_insert_ne in Hy by done.
    apply (Honly c' y Hy) in Hst as Hin. apply elem_of_cons in Hin as [[= ]|]; [by destruct Hne|done].
Qed.

Lemma objects_register v O c fd :
  objects_ok v ((c, fd, false) :: O) ->
  objects_ok (with_cell c fd Channel.kReadEvent ChannelOps.Registered v) ((c, fd, true) :: O).
Proof.
  intros Ho. destruct (objects_change v O c fd false (cell_of fd true) Ho) as [Hcell Honly].
  destruct Ho as [Hc Hf _ _]. split; simpl; [done|done| |].
  - intros c' fd' b [[= -> -> ->]|Hin]%elem_of_cons; [apply lookup_insert_eq|by apply Hcell].
  - intros c' y Hy Hst. destruct (decide (c' = c)) as [->|Hne].
    + rewrite lookup_insert_eq in Hy. simplify_eq. by left.
    + right. by apply Honly.
Qed.

Lemma objects_retire v O c fd b :
  objects_ok v ((c, fd, b) :: O) -> objects_ok (with_cell c fd 0 ChannelOps.Removed v) O.
Proof.
  intros Ho. destruct (objects_change v O c fd b (ChannelOps.mk_cell fd 0 ChannelOps.Removed) Ho) as [Hcell Honly].
  destruct Ho as [Hc Hf _ _]. simpl in Hc, Hf. apply NoDup_cons in Hc as [_ Hc], Hf as [_ Hf].
  split; simpl; [done|done|done|]. intros c' y Hy Hst. apply Honly; [done..|]. intros ->.
  rewrite lookup_insert_eq in Hy. by simplify_eq.
Qed.

(** *** The event loop *)
Definition loop_fds (h : LoopHandles.t) : list Z :=
  [LoopHandles.wakeupFd_ h; LoopHandles.timerfd_ h] ++ option_list (LoopHandles.epollfd_ h).
Definition loop_objects (h : LoopHandles.t) : list object :=
  [(LoopHandles.wakeupChannel_ h, LoopHandles.wakeupFd_ h, true);
   (LoopHandles.timerfdChannel_ h, LoopHandles.timerfd_ h, true)].

Definition blank (lg : list (Z * syscall * Z)) : view := mk_view ∅ ∅ None lg.

Lemma new_poller_spec lg w epoll :
  (refused -> R) -> holds (blank lg) w ->
  spec w (LoopHandles.new_poller epoll) (fun e w' =>
    holds (mk_view (list_to_set (option_list e)) ∅ None lg) w' /\ forall fd, fd ∈ option_list e -> 0 <= fd).
Proof.
  intros HR Hh.
  assert (forall v w, holds v w -> cells v = ∅ ->
    spec w start_poller (fun _ w' => holds v w')) as Hstart.
  { clear w Hh. intros v w Hh Hc. unfold spec, start_poller. simpl. pose proof (h_rel v w Hh) as Hr.
    rewrite Hc in Hr. assert (channels w = ∅) as E.
    { apply map_eq. intros c. rewrite lookup_empty. apply (ChannelOps.r_dom _ _ _ Hr). apply lookup_empty. }
    destruct Hh. split; simpl; try done. rewrite Hc, E. apply ChannelOps.rel_new. }
  destruct epoll; simpl.
  - apply make_or_stop_spec with (v := blank lg); [done..|]. intros fd w1 [Hpos _] Hh1.
    eapply spec_bind; [by apply Hstart|]. intros [] w2 Hh2. apply spec_ret. simpl.
    split; [exact Hh2|]. by intros fd' ->%list_elem_of_singleton.
  - eapply spec_bind; [by apply Hstart|]. intros [] w2 Hh2. apply spec_ret. simpl.
    split; [exact Hh2|]. by intros fd' ?%elem_of_nil.
Qed.

(** Enabling a channel for the first time. *)
Lemma enable_spec v w O ch fd :
  holds v w -> objects_ok v ((ch, fd, false) :: O) -> fd ∈ owned v ->
  spec w (channel (ChannelOps.EnableReading ch)) (fun _ w' =>
    let v' := with_cell ch fd Channel.kReadEvent ChannelOps.Registered v in
    holds v' w' /\ objects_ok v' ((ch, fd, true) :: O)).
Proof.
  intros Hh Ho Hfd. eapply spec_mono.
  - eapply (update_spec Channel.enableReading_ev); [done|done| | |done].
    + apply (o_cell _ _ Ho ch fd false). by left.
    + by apply (object_can_update v O ch fd false).
  - intros [] w' Hh'. split; [done|by apply objects_register].
Qed.

Lemma new_timers_spec v w O ch :
  (refused -> R) -> holds v w -> objects_ok v O -> cells v !! ch = None ->
  (forall c fd b, (c, fd, b) ∈ O -> fd ∈ owned v) ->
  spec w (LoopHandles.new_timers ch) (fun fd w' =>
    let v' := with_cell ch fd Channel.kReadEvent ChannelOps.Registered (own fd v) in
    fresh v fd /\ holds v' w' /\ objects_ok v' ((ch, fd, true) :: O)).
Proof.
  intros HR Hh Ho Hc Hown. unfold LoopHandles.new_timers, LoopHandles.createTimerfd.
  eapply spec_bind with (Q := fun fd w' => fresh v fd /\ holds (own fd v) w').
  { apply make_or_stop_spec with (v := v); [done..|]. intros fd w1 Hf Hh1. by apply spec_ret. }
  intros fd w1 [Hf Hh1].
  eapply spec_bind; [apply (create_spec (own fd v)); [done|done|apply Hf]|]. intros [] w2 Hh2.
  assert (objects_ok (with_cell ch fd 0 ChannelOps.Never (own fd v)) ((ch, fd, false) :: O)) as Ho2.
  { apply objects_add; [by destruct Ho|done|].
    intros ([[c' fd'] b] & -> & Hin)%list_elem_of_fmap. destruct Hf as [_ []]. simpl.
    apply elem_of_union_r. by eapply Hown. }
  eapply spec_bind; [eapply enable_spec; [exact Hh2|exact Ho2|set_solver]|]. intros [] w3 [Hh3 Ho3].
  apply spec_ret. unfold with_cell in Hh3, Ho3. simpl in Hh3, Ho3. rewrite insert_insert_eq in Hh3, Ho3. done.
Qed.

Lemma current_loop_spec v w :
  holds v w -> spec w LoopHandles.getEventLoopOfCurrentThead (fun l w' => l = this_loop v /\ holds v w').
Proof. intros Hh. split; [apply Hh|done]. Qed.

Lemma store_loop_spec v w l : holds v w -> spec w (store_loop l) (fun _ w' => holds (in_loop l v) w').
Proof. intros []. by split. Qed.

Lemma new_loop_spec lg w epoll self tch wch :
  (refused -> R) -> holds (blank lg) w -> tch <> wch ->
  spec w (LoopHandles.new epoll self tch wch) (fun h w' => exists v,
    holds v w' /\ owned v = list_to_set (loop_fds h) /\ NoDup (loop_fds h) /\
    this_loop v = Some self /\ objects_ok v (loop_objects h) /\ log v = lg).
Proof.
  intros HR Hh Hne. unfold LoopHandles.new.
  eapply spec_bind; [by apply new_poller_spec|]. intros e w1 [Hh1 He].
  set (v1 := mk_view _ ∅ None lg) in Hh1.
  assert (objects_ok v1 []) as Ho1.
  { split; [constructor..|by intros c fd b ?%elem_of_nil|]. intros c x. simpl. by rewrite lookup_empty. }
  eapply spec_bind; [apply (new_timers_spec v1 w1 []); [done..|apply lookup_empty|by intros c fd b ?%elem_of_nil]|].
  intros tfd w2 (Hft & Hh2 & Ho2). set (v2 := with_cell _ _ _ _ _) in Hh2, Ho2.
  eapply spec_bind with (Q := fun fd w' => fresh v2 fd /\ holds (own fd v2) w').
  { apply make_or_stop_spec with (v := v2); [done..|]. intros fd w3 Hf Hh3. by apply spec_ret. }
  intros wfd w3 [Hfw Hh3]. assert (tfd <> wfd) as Hfd by (destruct Hfw as [_ Hfw]; simpl in Hfw; set_solver).
  assert (cells v2 !! wch = None) as Hc2 by (simpl; rewrite lookup_insert_ne; [apply lookup_empty|done]).
  eapply spec_bind; [apply (create_spec (own wfd v2)); [done|done|apply Hfw]|]. intros [] w4 Hh4.
  set (v4 := with_cell _ _ _ _ _) in Hh4.
  assert (objects_ok v4 [(wch, wfd, false); (tch, tfd, true)]) as Ho4.
  { apply objects_add; [by destruct Ho2|done|]. simpl. by intros ->%list_elem_of_singleton. }
  eapply spec_bind; [by apply (current_loop_spec v4)|]. intros l w5 [-> Hh5].
  eapply spec_bind; [by apply (store_loop_spec v4)|]. intros [] w6 Hh6.
  eapply spec_bind; [eapply (enable_spec _ _ _ wch wfd Hh6); [by destruct Ho4|simpl; set_solver]|].
  intros [] w7 [Hh7 Ho7]. apply spec_ret. eexists. split; [exact Hh7|]. split_and!; try done.
  unfold loop_fds. simpl. apply NoDup_cons. split; [|apply NoDup_cons; split].
  - destruct Hfw as [_ Hfw]. simpl in Hfw. set_solver.
  - destruct Hft as [_ Hft]. simpl in Hft. set_solver.
  - destruct e; simpl; [apply NoDup_singleton|constructor].
Qed.

Lemma objects_same_cells v v' O : cells v' = cells v -> objects_ok v O -> objects_ok v' O.
Proof. intros E []. split; rewrite ?E; done. Qed.

Lemma unwatched_disown v fd fd' : unwatched v fd -> unwatched (disown fd' v) fd.
Proof. done. Qed.

(** Retiring the first object. *)
Lemma retire_object {B} v w O c fd b (k : M B) Q :
  holds v w -> objects_ok v ((c, fd, b) :: O) -> fd ∈ owned v ->
  (forall w', let v' := with_cell c fd 0 ChannelOps.Removed v in
     holds v' w' -> unwatched v' fd -> objects_ok v' O -> spec w' k Q) ->
  spec w (_ ← channel (ChannelOps.DisableAll c) ; _ ← channel (ChannelOps.Remove c) ; k) Q.
Proof.
  intros Hh Ho Hfd Hk. pose proof (o_cell _ _ Ho c fd b ltac:(by left)) as Hc.
  destruct (cell_of fd b) as [fd' ev st] eqn:E. assert (fd' = fd) as -> by (destruct b; by simplify_eq/=).
  apply (retire_spec v w c fd ev st); [done|done| |done|].
  - pose proof (object_can_update v O c fd b Ho) as Hu. by rewrite E in Hu.
  - intros w' v' Hh' Hun. apply Hk; [done..|]. by eapply objects_retire.
Qed.

Lemma destroy_timers_spec v w O ch fd :
  holds v w -> objects_ok v ((ch, fd, true) :: O) -> fd ∈ owned v ->
  spec w (LoopHandles.destroy_timers fd ch) (fun _ w' => exists v', holds v' w' /\
    owned v' = owned v ∖ {[fd]} /\ this_loop v' = this_loop v /\ objects_ok v' O).
Proof.
  intros Hh Ho Hfd. eapply retire_object; [done..|]. intros w1 v1 Hh1 Hun Ho1.
  eapply spec_bind; [by apply (close_spec v1)|]. intros [] w2 Hh2.
  eapply spec_mono; [eapply (destroy_channel_spec _ w2 ch); [done|apply lookup_insert_eq|done]|].
  intros [] w3 Hh3. exists (disown fd v1). split_and!; try done. by apply (objects_same_cells v1).
Qed.

Lemma destroy_loop_spec v w h :
  holds v w -> owned v = list_to_set (loop_fds h) -> NoDup (loop_fds h) -> objects_ok v (loop_objects h) ->
  spec w (LoopHandles.destroy h) (fun _ w' => exists v', holds v' w' /\
    owned v' = ∅ /\ this_loop v' = None /\ objects_ok v' []).
Proof.
  intros Hh Hown Hnd Ho. unfold LoopHandles.destroy, loop_objects, loop_fds in *. simpl in *.
  apply NoDup_cons in Hnd as [Hw Hnd]. apply NoDup_cons in Hnd as [Ht Hnd].
  eapply retire_object; [done..|rewrite Hown; set_solver|]. intros w1 v1 Hh1 Hun Ho1.
  eapply spec_bind; [by apply (close_spec v1); [|simpl; rewrite Hown; set_solver|]|]. intros [] w2 Hh2.
  eapply spec_bind; [by apply store_loop_spec|]. intros [] w3 Hh3.
  eapply spec_bind; [eapply (destroy_channel_spec _ w3); [done|apply lookup_insert_eq|done]|]. intros [] w4 Hh4.
  eapply spec_bind.
  { eapply destroy_timers_spec; [done|by apply (objects_same_cells v1)|]. simpl. rewrite Hown. set_solver. }
  intros [] w5 (v5 & Hh5 & Hown5 & Hl5 & Ho5). simpl in *.
  assert (owned v5 = list_to_set (option_list (LoopHandles.epollfd_ h))) as Hown5'.
  { rewrite Hown5, Hown. apply set_eq. set_solver. }
  destruct (LoopHandles.epollfd_ h) as [fd|]; simpl in *; [|by apply spec_ret; exists v5].
  eapply spec_mono.
  { apply (close_spec v5); [done|rewrite Hown5'; set_solver|].
    intros c x Hx Hst. pose proof (o_only _ _ Ho5 c x Hx Hst) as []%elem_of_nil. }
  intros [] w6 Hh6. exists (disown fd v5). split_and!; try done; [simpl; rewrite Hown5'; set_solver|].
  by apply (objects_same_cells v5).
Qed.

(** *** The acceptor *)
Definition acceptor_fds (a : AcceptorHandles.t) : list Z :=
  [Acceptor.idleFd_ (AcceptorHandles.base a); AcceptorHandles.acceptSocket_ a].
Definition acceptor_object (a : AcceptorHandles.t) : object :=
  (AcceptorHandles.acceptChannel_ a, AcceptorHandles.acceptSocket_ a,
   Acceptor.isListening_ (AcceptorHandles.base a)).

(** A call whose error stops the process. *)
Lemma call_or_die_spec v w fd c :
  (refused -> R) -> holds v w -> fd ∈ owned v ->
  spec w (ret ← call fd c ; if negb (ret =? 0) then stop Fatal else mret tt)
    (fun _ w' => holds (logged (fd, c, 0) v) w').
Proof.
  intros HR Hh Hfd. eapply spec_bind; [by apply call_spec|]. intros e w1 [Hh1 He].
  destruct (Z.eqb_spec e 0) as [->|Hne]; [by apply spec_ret|by apply spec_stop, HR, He].
Qed.

(** A call whose error is only logged. *)
Lemma call_or_log_spec v w fd c :
  holds v w -> fd ∈ owned v ->
  spec w (_ ← call fd c ; mret tt) (fun _ w' => exists e, holds (logged (fd, c, e) v) w').
Proof.
  intros Hh Hfd. eapply spec_bind; [by apply call_spec|]. intros e w1 [Hh1 He]. apply spec_ret. by exists e.
Qed.

(** What construction asks of the kernel: the options before the address. *)
Definition bound (sock : Z) (addr : bytes) (reusePort : bool) (lg : list (Z * syscall * Z)) : Prop :=
  exists e1 e2, lg = [(sock, Setsockopt Socket.SOL_SOCKET Socket.SO_REUSEADDR 1, e1);
                      (sock, Setsockopt Socket.SOL_SOCKET Socket.SO_REUSEPORT (Z.b2z reusePort), e2);
                      (sock, Bind addr, 0)].

Lemma new_acceptor_spec v w O ch family addr reusePort :
  (refused -> R) -> holds v w -> objects_ok v O -> cells v !! ch = None ->
  (forall o, o ∈ O -> o.1.2 ∈ owned v) ->
  spec w (AcceptorHandles.new ch family addr reusePort) (fun a w' => exists v' lg,
    holds v' w' /\ owned v' = list_to_set (acceptor_fds a) ∪ owned v /\ NoDup (acceptor_fds a) /\
    (forall fd, fd ∈ acceptor_fds a -> fd ∉ owned v) /\
    this_loop v' = this_loop v /\
    AcceptorHandles.acceptChannel_ a = ch /\ Acceptor.isListening_ (AcceptorHandles.base a) = false /\
    objects_ok v' (acceptor_object a :: O) /\
    log v' = log v ++ lg /\ bound (AcceptorHandles.acceptSocket_ a) addr reusePort lg).
Proof.
  intros HR Hh Ho Hc Hown. unfold AcceptorHandles.new, AcceptorHandles.open_null.
  eapply spec_bind with (Q := fun fd w' => fresh v fd /\ holds (own fd v) w').
  { apply make_or_stop_spec with (v := v); [done..|]. intros fd w1 Hf Hh1. by apply spec_ret. }
  intros sock w1 [Hs Hh1].
  eapply spec_bind; [apply (create_spec (own sock v)); [done|done|apply Hs]|]. intros [] w2 Hh2.
  set (v2 := with_cell _ _ _ _ _) in Hh2.
  assert (objects_ok v2 ((ch, sock, false) :: O)) as Ho2.
  { apply objects_add; [by apply (objects_same_cells v)|done|]. intros (o & -> & Hin)%list_elem_of_fmap.
    destruct Hs as [_ []]. apply elem_of_union_r. by apply Hown. }
  eapply spec_bind with (Q := fun fd w' => if 0 <=? fd then fresh v2 fd /\ holds (own fd v2) w' else R).
  { eapply spec_bind; [by apply make_descriptor_spec|]. intros [fd|e] w3 Hr; apply spec_ret; [|by apply HR, Hr].
    destruct Hr as [Hf ?]. pose proof (proj1 Hf). by case_match; [|lia]. }
  intros idle w3 Hi. destruct (0 <=? idle); [|by unfold spec, mbind, M_bind, lift].
  destruct Hi as [Hi Hh3]. eapply spec_bind with (Q := fun _ w' => holds (own idle v2) w'); [done|]. intros [] w4 Hh4.
  eapply spec_bind; [eapply (call_or_log_spec _ _ sock); [exact Hh4|simpl; set_solver]|]. intros [] w5 [e1 Hh5].
  eapply spec_bind; [eapply (call_or_log_spec _ _ sock); [exact Hh5|simpl; set_solver]|]. intros [] w6 [e2 Hh6].
  eapply spec_bind; [eapply (call_or_die_spec _ _ sock); [done|exact Hh6|simpl; set_solver]|]. intros [] w7 Hh7.
  apply spec_ret. eexists _, _. split; [exact Hh7|]. split_and!; simpl.
  - set_solver.
  - destruct Hi as [_ Hi]. simpl in Hi. apply NoDup_cons. split; [set_solver|apply NoDup_singleton].
  - destruct Hi as [_ Hi], Hs as [_ Hs]. simpl in Hi. set_solver.
  - done.
  - done.
  - done.
  - by apply (objects_same_cells v2).
  - by rewrite <- !app_assoc.
  - by exists e1, e2.
Qed.

Lemma listen_spec v w O a :
  (refused -> R) -> holds v w -> objects_ok v (acceptor_object a :: O) -> AcceptorHandles.acceptSocket_ a ∈ owned v ->
  Acceptor.isListening_ (AcceptorHandles.base a) = false ->
  spec w (AcceptorHandles.listen a) (fun a' w' => exists v',
    holds v' w' /\ owned v' = owned v /\ this_loop v' = this_loop v /\
    acceptor_fds a' = acceptor_fds a /\ AcceptorHandles.acceptChannel_ a' = AcceptorHandles.acceptChannel_ a /\
    Acceptor.isListening_ (AcceptorHandles.base a') = true /\
    objects_ok v' (acceptor_object a' :: O)).
Proof.
  intros HR Hh Ho Hs Hl. unfold AcceptorHandles.listen, acceptor_object in *. rewrite Hl in Ho.
  eapply spec_bind with (Q := fun b w' => holds v w' /\
    b = Acceptor.mk true true (Acceptor.idleFd_ (AcceptorHandles.base a))); [done|]. intros b w1 [Hh1 ->].
  eapply spec_bind; [by apply (call_or_die_spec v)|]. intros [] w2 Hh2.
  eapply spec_bind; [eapply enable_spec; [exact Hh2|by apply (objects_same_cells v)|done]|]. intros [] w3 [Hh3 Ho3].
  apply spec_ret. eexists. split; [exact Hh3|]. split_and!; done.
Qed.

Lemma destroy_acceptor_spec v w O a :
  holds v w -> objects_ok v (acceptor_object a :: O) ->
  (forall fd, fd ∈ acceptor_fds a -> fd ∈ owned v) -> NoDup (acceptor_fds a) ->
  (forall o, o ∈ O -> o.1.2 ∉ acceptor_fds a) ->
  spec w (AcceptorHandles.destroy a) (fun _ w' => exists v', holds v' w' /\
    owned v' = owned v ∖ list_to_set (acceptor_fds a) /\ this_loop v' = this_loop v /\
    objects_ok v' O).
Proof.
  intros Hh Ho Hown Hnd Hdis. unfold AcceptorHandles.destroy, acceptor_object, acceptor_fds in *.
  eapply retire_object; [done..|apply Hown; by right; left|]. intros w1 v1 Hh1 Hun Ho1.
  apply NoDup_cons in Hnd as [Hne _].
  eapply spec_bind.
  { apply (close_spec v1); [done|apply Hown; by left|]. intros c x Hx Hst E.
    apply (o_only _ _ Ho1 c x Hx) in Hst. apply (Hdis _ Hst). simpl. rewrite E. by left. }
  intros [] w2 Hh2.
  eapply spec_bind; [eapply (destroy_channel_spec _ w2); [done|apply lookup_insert_eq|done]|]. intros [] w3 Hh3.
  eapply spec_mono; [apply (close_spec _ _ _ Hh3); [|exact Hun]|].
  { simpl. apply elem_of_difference. split; [apply Hown; by right; left|set_solver]. }
  intros [] w4 Hh4. eexists. split; [exact Hh4|]. split_and!; [|done|by apply (objects_same_cells v1)].
  simpl. apply set_eq. set_solver.
Qed.

Lemma nonblocking_spec v w fd :
  (refused -> R) -> holds v w -> fd ∈ owned v ->
  spec w (SocketOps.setNonBlockingAndCloseOnExecOrDie fd) (fun _ w' => exists lg,
    holds (mk_view (owned v) (cells v) (this_loop v) lg) w').
Proof.
  intros HR Hh Hfd. unfold SocketOps.setNonBlockingAndCloseOnExecOrDie.
  eapply spec_bind; [by apply call_spec|]. intros e w1 [Hh1 He].
  destruct (Z.eqb_spec e 0) as [->|Hne]; [|by apply spec_stop, HR, He].
  eapply spec_mono; [by apply (call_or_die_spec _ _ fd _ HR Hh1)|]. intros [] w2 Hh2. by eexists.
Qed.

(** A call on the descriptor -1 fails, which stops the process. *)
Lemma nonblocking_dies v w {B} (k : M B) Q :
  R -> holds v w -> spec w (_ ← SocketOps.setNonBlockingAndCloseOnExecOrDie (-1) ; k) Q.
Proof.
  intros Hr Hh. unfold spec, SocketOps.setNonBlockingAndCloseOnExecOrDie, mbind, M_bind, call.
  rewrite decide_False; [done|]. intros Hin. rewrite (h_open v w Hh) in Hin.
  pose proof (h_pos v w Hh (-1) Hin). lia.
Qed.

Lemma handleRead_spec v w O a hasCallback :
  (refused -> R) -> holds v w -> objects_ok v O ->
  spec w (AcceptorHandles.handleRead a hasCallback) (fun r w' => exists v',
    holds v' w' /\ r.1 = a /\ this_loop v' = this_loop v /\ objects_ok v' O /\
    owned v' = list_to_set (option_list r.2) ∪ owned v /\
    forall fd, r.2 = Some fd -> fd ∉ owned v).
Proof.
  intros HR Hh Ho. unfold AcceptorHandles.handleRead, Socket.accept, SocketOps.accept.
  eapply spec_bind with (Q := fun r w' => exists v', holds v' w' /\ 0 <= r.1.1 /\ this_loop v' = this_loop v /\
    objects_ok v' O /\ owned v' = {[r.1.1]} ∪ owned v /\ fresh v r.1.1).
  - eapply spec_bind with (Q := fun r w' => exists v', holds v' w' /\ this_loop v' = this_loop v /\
      objects_ok v' O /\ owned v' = {[r.1]} ∪ owned v /\ fresh v r.1).
    + eapply spec_bind; [by apply make_descriptor_spec|]. intros [fd|e] w1 Hr.
      * destruct Hr as [Hf Hh1]. eapply spec_bind; [apply (nonblocking_spec (own fd v)); [done..|simpl; set_solver]|].
        intros [] w2 [lg Hh2]. apply spec_ret. eexists. split; [exact Hh2|].
        split_and!; try done. by apply (objects_same_cells v).
      * destruct Hr as [Hr Hh1]. apply (nonblocking_dies v); auto.
    + intros r w1 (v1 & Hh1 & ? & ? & ? & Hf). apply spec_ret. exists v1. simpl. split_and!; try done. apply Hf.
  - intros r w1 (v1 & Hh1 & Hpos & Hl & Ho1 & Hown & Hf). case_match; [|lia].
    destruct hasCallback.
    + apply spec_ret. exists v1. split_and!; try done; [simpl; set_solver|].
      intros fd [= <-]. destruct Hf. set_solver.
    + eapply spec_bind; [apply (close_spec v1); [done|set_solver|]|].
      { intros c x Hx Hst E. apply (o_only _ _ Ho1 c x Hx) in Hst. apply (o_cell _ _ Ho) in Hst.
        apply (h_reg v w Hh) in Hst; [|done]. simpl in Hst. rewrite E in Hst. destruct Hf as [_ []].
        by apply elem_of_union_r. }
      intros [] w2 Hh2. apply spec_ret. eexists. split; [exact Hh2|]. split_and!; try done.
      * by apply (objects_same_cells v1).
      * simpl. rewrite Hown. destruct Hf as [_ Hf]. apply set_eq. set_solver.
Qed.
End proofs.

(** *** A thread with its loop, acceptors and accepted sockets *)
Section system.
Context {P : Poller} {L : PollerLaws} {K : Kernel} {KL : KernelLaws}.

Record proc := mk_proc {
  world : Posix.t;
  loop : LoopHandles.t;
  acceptors : list AcceptorHandles.t;
  sockets_ : list Z;
}.

(** [Incoming]: the acceptor's channel is readable.  A socket handed to the callback
    is owned by a [Socket] until [CloseSocket]. *)
Inductive op :=
  | NewAcceptor (ch family : Z) (addr : bytes) (reusePort : bool)
  | ListenOn (i : nat)
  | Incoming (i : nat) (hasCallback : bool)
  | CloseSocket (i : nat)
  | DestroyAcceptor (i : nat).

Definition exec (p : proc) (o : op) : outcome proc :=
  match o with
  | NewAcceptor ch family addr reusePort =>
      r ← AcceptorHandles.new ch family addr reusePort (world p) ;
      mret (mk_proc r.2 (loop p) (r.1 :: acceptors p) (sockets_ p))
  | ListenOn i =>
      a ← deref (acceptors p !! i) ;
      r ← AcceptorHandles.listen a (world p) ;
      mret (mk_proc r.2 (loop p) (r.1 :: delete i (acceptors p)) (sockets_ p))
  | Incoming i hasCallback =>
      a ← deref (acceptors p !! i) ;
      r ← AcceptorHandles.handleRead a hasCallback (world p) ;
      mret (mk_proc r.2 (loop p) (r.1.1 :: delete i (acceptors p)) (option_list r.1.2 ++ sockets_ p))
  | CloseSocket i =>
      fd ← deref (sockets_ p !! i) ;
      r ← Socket.destroy fd (world p) ;
      mret (mk_proc r.2 (loop p) (acceptors p) (delete i (sockets_ p)))
  | DestroyAcceptor i =>
      a ← deref (acceptors p !! i) ;
      r ← AcceptorHandles.destroy a (world p) ;
      mret (mk_proc r.2 (loop p) (delete i (acceptors p)) (sockets_ p))
  end.

(** What the objects require: a channel at a new address, [listen] once. *)
Definition enabled (p : proc) (o : op) : Prop :=
  match o with
  | NewAcceptor ch _ _ _ => channels (world p) !! ch = None
  | ListenOn i => exists a, acceptors p !! i = Some a /\ Acceptor.isListening_ (AcceptorHandles.base a) = false
  | Incoming i _ | DestroyAcceptor i => is_Some (acceptors p !! i)
  | CloseSocket i => is_Some (sockets_ p !! i)
  end.

Definition step (p p' : proc) : Prop := exists o, enabled p o /\ exec p o = Ok p'.

(** The descriptors the objects hold, and the objects with a channel. *)
Definition fds (p : proc) : list Z :=
  concat (map acceptor_fds (acceptors p)) ++ sockets_ p ++ loop_fds (loop p).
Definition objects (p : proc) : list object := map acceptor_object (acceptors p) ++ loop_objects (loop p).

(** Running operations, as long as they are enabled. *)
Definition enabledb (p : proc) (o : op) : bool :=
  match o with
  | NewAcceptor ch _ _ _ => match channels (world p) !! ch with None => true | Some _ => false end
  | ListenOn i =>
      match acceptors p !! i with Some a => negb (Acceptor.isListening_ (AcceptorHandles.base a)) | None => false end
  | Incoming i _ | DestroyAcceptor i => match acceptors p !! i with Some _ => true | None => false end
  | CloseSocket i => match sockets_ p !! i with Some _ => true | None => false end
  end.
Fixpoint run (p : proc) (os : list op) : option proc :=
  match os with
  | [] => Some p
  | o :: os =>
      if enabledb p o then match exec p o with Ok p' => run p' os | Fault _ => None end else None
  end.

Lemma run_steps os p p' : run p os = Some p' -> rtc step p p'.
Proof.
  revert p. induction os as [|o os IH]; intros p E; simpl in E; [simplify_eq; apply rtc_refl|].
  destruct (enabledb p o) eqn:Hb; [|done]. destruct (exec p o) as [p1|] eqn:E1; [|done].
  apply rtc_l with p1; [|by apply IH]. exists o. split; [|done].
  destruct o; simpl in *; repeat case_match; try done; [|by eexists..].
  eexists. split; [done|]. by apply negb_true_iff.
Qed.

Context (F : gset Z) (ans : list Z) (self : Z).

Definition inv (p : proc) : Prop := exists v,
  holds F ans v (world p) /\ owned v = list_to_set (fds p) /\ NoDup (fds p) /\
  this_loop v = Some self /\ objects_ok v (objects p).

Lemma fds_cons w w' h a l ss : fds (mk_proc w h (a :: l) ss) = acceptor_fds a ++ fds (mk_proc w' h l ss).
Proof. unfold fds. simpl. by rewrite <- ?app_assoc. Qed.

(** Rearranging: one acceptor in front. *)
Lemma fds_acceptor w h l i a ss :
  l !! i = Some a -> fds (mk_proc w h l ss) ≡ₚ acceptor_fds a ++ fds (mk_proc w h (delete i l) ss).
Proof.
  intros Hi. unfold fds. simpl. rewrite (delete_Permutation l i a Hi) at 1. simpl. by rewrite app_assoc.
Qed.

Lemma objects_acceptor w h l i a ss :
  l !! i = Some a -> objects (mk_proc w h l ss) ≡ₚ acceptor_object a :: objects (mk_proc w h (delete i l) ss).
Proof. intros Hi. unfold objects. simpl. by rewrite (delete_Permutation l i a Hi) at 1. Qed.

Lemma object_fd p o : o ∈ objects p -> o.1.2 ∈ fds p.
Proof.
  unfold objects, fds. rewrite !elem_of_app. intros [(a & -> & Hin)%list_elem_of_fmap|Hin].
  - left. apply list_elem_of_In, in_concat. exists (acceptor_fds a). split.
    + apply in_map. by apply list_elem_of_In.
    + right. by left.
  - right. right. unfold loop_objects, loop_fds in *. set_solver.
Qed.

Definition keeps (p : proc) (o : op) : Prop :=
  match exec p o with Ok p' => inv p' | Fault _ => refused ans end.

Lemma new_acceptor_keeps p ch family addr reusePort :
  inv p -> channels (world p) !! ch = None -> keeps p (NewAcceptor ch family addr reusePort).
Proof.
  intros (v & Hh & Hown & Hnd & Hl & Ho) Hc.
  assert (cells v !! ch = None) as Hcell.
  { destruct (cells v !! ch) as [x|] eqn:E; [|done].
    destruct (ChannelOps.r_cell _ _ _ (h_rel _ _ _ _ Hh) ch x E) as (chn & ? & _). congruence. }
  pose proof (new_acceptor_spec F ans (refused ans) v _ _ ch family addr reusePort id Hh Ho Hcell
    ltac:(intros o Hin; rewrite Hown; by apply elem_of_list_to_set, object_fd)) as Hs.
  unfold keeps, exec. unfold spec in Hs. destruct (AcceptorHandles.new _ _ _ _ _) as [[a w']|f]; simpl; [|done].
  destruct Hs as (v' & lg & Hh' & Hown' & Hnd' & Hnew & Hl' & Ha & Hlis & Ho' & _).
  exists v'. split_and!; [done| | |by rewrite Hl'|exact Ho'].
  - rewrite Hown', Hown, (fds_cons _ (world p)), list_to_set_app_L. by destruct p.
  - rewrite (fds_cons _ (world p)). apply NoDup_app. split_and!; [done| |by destruct p].
    intros fd Hin. rewrite Hown in Hnew. specialize (Hnew fd Hin). rewrite elem_of_list_to_set in Hnew.
    by destruct p.
Qed.

Lemma listen_keeps p i a :
  inv p -> acceptors p !! i = Some a -> Acceptor.isListening_ (AcceptorHandles.base a) = false ->
  keeps p (ListenOn i).
Proof.
  intros (v & Hh & Hown & Hnd & Hl & Ho) Hi Hlis. destruct p as [w h l ss]. simpl in *.
  pose proof (objects_acceptor w h l i a ss Hi) as Hobj. pose proof (fds_acceptor w h l i a ss Hi) as Hfds.
  rewrite Hobj in Ho.
  pose proof (listen_spec F ans (refused ans) v w _ a id Hh Ho
    ltac:(rewrite Hown, Hfds; simpl; set_solver) Hlis) as Hs.
  unfold keeps, exec. simpl. rewrite Hi. cbn [deref]. rewrite bind_ok. unfold spec in Hs.
  destruct (AcceptorHandles.listen a w) as [[a' w']|f]; simpl; [|done].
  destruct Hs as (v' & Hh' & Hown' & Hl' & Hf & Hc & Hlis' & Ho').
  exists v'. split_and!; [done| | |by rewrite Hl'|exact Ho'].
  - by rewrite Hown', Hown, Hfds, (fds_cons _ w), Hf.
  - by rewrite (fds_cons _ w), Hf, <- Hfds.
Qed.

Lemma incoming_keeps p i a hasCallback :
  inv p -> acceptors p !! i = Some a -> keeps p (Incoming i hasCallback).
Proof.
  intros (v & Hh & Hown & Hnd & Hl & Ho) Hi. destruct p as [w h l ss]. simpl in *.
  pose proof (objects_acceptor w h l i a ss Hi) as Hobj. pose proof (fds_acceptor w h l i a ss Hi) as Hfds.
  rewrite Hobj in Ho.
  pose proof (handleRead_spec F ans (refused ans) v w _ a hasCallback id Hh Ho) as Hs.
  unfold keeps, exec. simpl. rewrite Hi. cbn [deref]. rewrite bind_ok. unfold spec in Hs.
  destruct (AcceptorHandles.handleRead a hasCallback w) as [[[a' r] w']|f]; simpl; [|done].
  destruct Hs as (v' & Hh' & Ha & Hl' & Ho' & Hown' & Hnew). simpl in *. subst a'.
  assert (fds (mk_proc w' h (a :: delete i l) (option_list r ++ ss)) ≡ₚ
          option_list r ++ fds (mk_proc w h l ss)) as E.
  { rewrite Hfds, (fds_cons _ w). unfold fds. simpl. solve_Permutation. }
  exists v'. split_and!; [done| | |by rewrite Hl'|exact Ho'].
  - by rewrite E, list_to_set_app_L, Hown', Hown.
  - rewrite E. apply NoDup_app. split_and!; [destruct r; simpl; [apply NoDup_singleton|constructor]| |done].
    intros fd Hin Hin'. destruct r as [fd'|]; [|by apply elem_of_nil in Hin].
    apply list_elem_of_singleton in Hin as ->. apply (Hnew fd'); [done|].
    rewrite Hown. by apply elem_of_list_to_set.
Qed.

Lemma close_keeps p i fd : inv p -> sockets_ p !! i = Some fd -> keeps p (CloseSocket i).
Proof.
  intros (v & Hh & Hown & Hnd & Hl & Ho) Hi. destruct p as [w h l ss]. simpl in *.
  assert (fds (mk_proc w h l ss) ≡ₚ fd :: fds (mk_proc w h l (delete i ss))) as E.
  { unfold fds. simpl. rewrite (delete_Permutation ss i fd Hi) at 1. solve_Permutation. }
  rewrite E in Hnd. apply NoDup_cons in Hnd as [Hnew Hnd].
  assert (unwatched v fd) as Hun.
  { intros c x Hx Hst Efd. apply (o_only _ _ Ho c x Hx) in Hst.
    apply (object_fd (mk_proc w h l (delete i ss))) in Hst. by rewrite <- Efd in Hnew. }
  pose proof (close_spec F ans (refused ans) v w fd Hh ltac:(rewrite Hown, E; set_solver) Hun) as Hs.
  unfold keeps, exec. simpl. rewrite Hi. cbn [deref]. rewrite bind_ok. unfold spec in Hs.
  unfold Socket.destroy, SocketOps.close. destruct (close fd w) as [[[] w']|f]; simpl; [|done].
  exists (disown fd v). split_and!; [done| |done|done|by apply (objects_same_cells v)].
  simpl. rewrite Hown, E, list_to_set_cons. change (fds (mk_proc w' h l (delete i ss)))
    with (fds (mk_proc w h l (delete i ss))).
  apply set_eq. intros x. rewrite elem_of_difference, elem_of_union, elem_of_singleton, elem_of_list_to_set.
  split; [tauto|]. intros Hx. split; [by right|]. intros ->. done.
Qed.

Lemma destroy_keeps p i a : inv p -> acceptors p !! i = Some a -> keeps p (DestroyAcceptor i).
Proof.
  intros (v & Hh & Hown & Hnd & Hl & Ho) Hi. destruct p as [w h l ss]. simpl in *.
  pose proof (objects_acceptor w h l i a ss Hi) as Hobj. pose proof (fds_acceptor w h l i a ss Hi) as Hfds.
  rewrite Hobj in Ho. rewrite Hfds in Hown, Hnd. apply NoDup_app in Hnd as (Hnd1 & Hdis & Hnd2).
  pose proof (destroy_acceptor_spec F ans (refused ans) v w _ a Hh Ho) as Hs.
  unfold keeps, exec. simpl. rewrite Hi. cbn [deref]. rewrite bind_ok. unfold spec in Hs.
  destruct (AcceptorHandles.destroy a w) as [[[] w']|f]; simpl.
  - destruct Hs as (v' & Hh' & Hown' & Hl' & Ho').
    { intros fd Hin. rewrite Hown. apply elem_of_list_to_set, elem_of_app. by left. }
    { done. }
    { intros o Hin Hin'. by apply (Hdis o.1.2 Hin'), object_fd. }
    exists v'. split_and!; [done| |done|by rewrite Hl'|exact Ho'].
    rewrite Hown', Hown, list_to_set_app_L.
    change (fds (mk_proc w' h (delete i l) ss)) with (fds (mk_proc w h (delete i l) ss)).
    apply set_eq. intros fd. specialize (Hdis fd). set_solver.
  - apply Hs; [|done|].
    + intros fd Hin. rewrite Hown. apply elem_of_list_to_set, elem_of_app. by left.
    + intros o Hin Hin'. by apply (Hdis o.1.2 Hin'), object_fd.
Qed.

Lemma lifetime_exec_keeps p o : inv p -> enabled p o -> keeps p o.
Proof.
  intros Hp. destruct o; simpl.
  - by apply new_acceptor_keeps.
  - intros (a & Hi & Hl). by eapply listen_keeps.
  - intros [a Hi]. by eapply incoming_keeps.
  - intros [fd Hi]. by eapply close_keeps.
  - intros [a Hi]. by eapply destroy_keeps.
Qed.

Lemma reachable_inv_proc p p' : inv p -> rtc step p p' -> inv p'.
Proof.
  intros Hp Hr. induction Hr as [|p1 p2 p3 (o & Ho & E) _ IH]; [done|]. apply IH.
  pose proof (lifetime_exec_keeps p1 o Hp Ho) as Hk. unfold keeps in Hk. by rewrite E in Hk.
Qed.

(** A watched descriptor belongs to a registered channel. *)
Lemma watched_owned p fd : inv p -> watched (poller_ (world p)) fd <> 0 -> fd ∈ fds p.
Proof.
  intros (v & Hh & Hown & _ & _ & Ho) Hw. pose proof (h_rel _ _ _ _ Hh) as HR.
  rewrite (ChannelOps.r_watch _ _ _ HR fd) in Hw.
  destruct (channelMap_ (poller_ (world p)) !! fd) as [c|] eqn:E; [|done].
  apply (ChannelOps.rel_map _ _ _ _ _ HR) in E as (ev & Hc).
  pose proof (object_fd p _ (o_only _ _ Ho c _ Hc eq_refl)) as Hin. exact Hin.
Qed.

(** Before the loop: only descriptors of others are open, nothing is registered. *)
Record clean (w : Posix.t) : Prop := {
  clean_open : open_ w = F;
  clean_pos : forall fd, fd ∈ F -> 0 <= fd;
  clean_bad : bad_ w = [];
  clean_poller : poller_ w = pnew /\ channels w = ∅;
  clean_loop : t_loopInThisThread w = None;
}.

Lemma clean_holds w : clean w -> answers w = ans -> holds F ans (blank (calls w)) w.
Proof.
  intros [Ho Hp Hb [Hpo Hch] Hl] Ha. split; simpl; try done.
  - by rewrite Ho, union_empty_r_L.
  - intros fd. rewrite union_empty_r_L. apply Hp.
  - rewrite Hpo, Hch. apply ChannelOps.rel_new.
  - by rewrite Ha.
Qed.

Lemma new_loop_inv w epoll tch wch :
  clean w -> answers w = ans -> tch <> wch ->
  match LoopHandles.new epoll self tch wch w with
  | Ok (h, w') => inv (mk_proc w' h [] [])
  | Fault _ => refused ans
  end.
Proof.
  intros Hc Ha Hne.
  pose proof (new_loop_spec F ans (refused ans) (calls w) w epoll self tch wch id (clean_holds w Hc Ha) Hne) as Hs.
  unfold spec in Hs. destruct (LoopHandles.new _ _ _ _ _) as [[h w']|f]; [|done].
  destruct Hs as (v & Hh & Hown & Hnd & Hl & Ho & _). by exists v.
Qed.

Lemma destroy_loop_clean p :
  inv p -> acceptors p = [] -> sockets_ p = [] ->
  exists w', LoopHandles.destroy (loop p) (world p) = Ok (tt, w') /\ open_ w' = F /\ bad_ w' = [] /\
    t_loopInThisThread w' = None /\ forall fd, channelMap_ (poller_ w') !! fd = None.
Proof.
  intros (v & Hh & Hown & Hnd & Hl & Ho) Ha Hs. unfold fds, objects in *. rewrite Ha, Hs in *. simpl in *.
  pose proof (destroy_loop_spec F ans False v _ (loop p) Hh Hown Hnd Ho) as Hd. unfold spec in Hd.
  destruct (LoopHandles.destroy _ _) as [[[] w']|f]; [|done]. destruct Hd as (v' & Hh' & Hown' & Hl' & Ho').
  exists w'. split_and!; [done| | | |].
  - rewrite (h_open _ _ _ _ Hh'), Hown'. set_solver.
  - apply Hh'.
  - by rewrite (h_loop _ _ _ _ Hh').
  - intros fd. destruct (channelMap_ (poller_ w') !! fd) as [c|] eqn:E; [|done].
    apply (ChannelOps.rel_map _ _ _ _ _ (h_rel _ _ _ _ Hh')) in E as (ev & Hc).
    by pose proof (o_only _ _ Ho' c _ Hc eq_refl) as []%elem_of_nil.
Qed.
End system.

(** C28. Descriptors of a thread that runs an event loop, with either poller, in any
    order of constructing acceptors, listening, accepting, closing sockets and
    destroying acceptors, whatever the kernel answers.  (1) Every open descriptor is
    one that was open before or belongs to exactly one object, and close() was never
    called on a descriptor that is not open.  (2) The poller never watches a
    descriptor its object has closed.  (3) Unless the kernel refuses a call, no
    operation fails.  (4) When only the loop is left its destructor succeeds, closes
    all it had opened, leaves no channel registered and frees the thread for
    another loop. *)
Theorem descriptor_lifetimes `{EpollLaws} `{Posix.KernelLaws} (env : option bytes) self tch wch F :
  let P := DefaultPoller.newDefaultPoller env in
  forall (w0 : Posix.t) h w p,
  clean F w0 -> tch <> wch ->
  LoopHandles.new (bool_decide (env = None)) self tch wch w0 = Ok (h, w) ->
  rtc step (mk_proc w h [] []) p ->
  (open_ (world p) = F ∪ list_to_set (fds p) /\ (forall fd, fd ∈ fds p -> fd ∉ F) /\ NoDup (fds p) /\
   bad_ (world p) = []) /\
  (forall fd, watched (poller_ (world p)) fd <> 0 -> fd ∈ fds p) /\
  (forall o, enabled p o -> succeeds (exec p o) \/ Exists (fun e => e <> 0) (answers w0)) /\
  (acceptors p = [] -> sockets_ p = [] ->
   exists w', LoopHandles.destroy (loop p) (world p) = Ok (tt, w') /\ open_ w' = F /\ bad_ w' = [] /\
     t_loopInThisThread w' = None /\ forall fd, channelMap_ (poller_ w') !! fd = None).
Proof.
  intros P w0 h w p Hc Hne Enew Hr. pose proof (DefaultPoller.newDefaultPoller_laws env) as L. fold P in L.
  pose proof (new_loop_inv F (answers w0) self w0 (bool_decide (env = None)) tch wch Hc eq_refl Hne) as Hinv.
  rewrite Enew in Hinv. pose proof (reachable_inv_proc _ _ _ _ _ Hinv Hr) as Hp. split_and!.
  - destruct Hp as (v & Hh & <- & _). apply Hh.
  - destruct Hp as (v & Hh & Hown & _). intros fd Hfd HF. pose proof (h_disj _ _ _ _ Hh). set_solver.
  - by destruct Hp as (v & _ & _ & ? & _).
  - destruct Hp as (v & Hh & _). apply Hh.
  - intros fd. by eapply watched_owned.
  - intros o Ho. pose proof (lifetime_exec_keeps _ _ _ p o Hp Ho) as Hk. unfold keeps in Hk.
    destruct (exec p o) as [p'|f]; [left; by exists p'|by right].
  - by eapply destroy_loop_clean.
Qed.

(** *** A run: an acceptor with epoll, two connections of which one is closed. *)
#[local] Instance demo_kernel : Posix.Kernel := {| new_descriptor o := 1 + foldr Z.max 2 (elements o) |}.
#[local] Instance demo_kernel_laws : Posix.KernelLaws.
Proof.
  split. intros o. simpl.
  assert (forall l : list Z, 2 <= foldr Z.max 2 l /\ forall x, x ∈ l -> x <= foldr Z.max 2 l) as Hmax.
  { induction l as [|y l [IH1 IH2]]; simpl; [split; [lia|by intros x ?%elem_of_nil]|]. split; [lia|].
    intros x [->|Hx]%elem_of_cons; [lia|]. specialize (IH2 x Hx). lia. }
  destruct (Hmax (elements o)) as [H1 H2]. split; [lia|]. rewrite <- elem_of_elements. intros Hin%H2. lia.
Qed.

Abbreviation demo_poller := (DefaultPoller.newDefaultPoller (H := MapKernel.map_kernel) None).
Definition demo_world : @Posix.t demo_poller :=
  Posix.mk (P := demo_poller) {[0; 1; 2]} [] [] [] (@pnew demo_poller) ∅ None.
Definition demo_start : @proc demo_poller :=
  match LoopHandles.new (P := demo_poller) true 100 10 20 demo_world with
  | Ok (h, w) => mk_proc w h [] []
  | Fault _ => mk_proc demo_world (LoopHandles.mk None 0 0 0 0) [] []
  end.
Definition demo_ops : list op :=
  [NewAcceptor 30 2 [] true; ListenOn 0; Incoming 0 true; Incoming 0 true; CloseSocket 0].
Definition demo_end : @proc demo_poller := default demo_start (run demo_start demo_ops).

Definition demo_boots : bool :=
  match LoopHandles.new (P := demo_poller) true 100 10 20 demo_world with Ok _ => true | Fault _ => false end.
Lemma demo_boot :
  LoopHandles.new (P := demo_poller) true 100 10 20 demo_world = Ok (loop demo_start, world demo_start).
Proof.
  assert (demo_boots = true) as Hb by (vm_compute; reflexivity). unfold demo_boots in Hb. unfold demo_start.
  destruct (LoopHandles.new true 100 10 20 demo_world) as [[h w]|f]; [reflexivity|discriminate Hb].
Qed.
Lemma demo_steps : rtc step demo_start demo_end.
Proof. unfold demo_end. destruct (run demo_start demo_ops) eqn:Er; [by eapply run_steps|apply rtc_refl]. Qed.

Lemma descriptor_lifetimes_witness :
  fds demo_end = [7; 6; 8; 5; 4; 3] /\
  open_ (world demo_end) = {[0; 1; 2]} ∪ list_to_set (fds demo_end) /\ bad_ (world demo_end) = [].
Proof.
  destruct (@descriptor_lifetimes MapKernel.map_kernel MapKernel.map_kernel_laws demo_kernel demo_kernel_laws
      None 100 10 20 {[0; 1; 2]} demo_world (loop demo_start) (world demo_start) demo_end)
    as ((H1 & _ & _ & H2) & _).
  - split; try done. intros fd Hfd. set_unfold in Hfd. lia.
  - done.
  - exact demo_boot.
  - change (rtc step demo_start demo_end). exact demo_steps.
  - split; [vm_compute; reflexivity|]. split; [exact H1|exact H2].
Defined.
End Ownership.
