(* ===== verification/Client.v ===== *)
(** Initiating connections: the connector with its retries
    (src/libel/net/connector.h, connector.cpp) and the client that owns one
    connection at a time (tcp_client.h, tcp_client.cpp). *)

From S2P Require Import Prelude.

Module Connector.

Inductive States := kDisconnected | kConnecting | kConnected.
#[global] Instance States_eq_dec : EqDecision States.
Proof. solve_decision. Defined.

Definition kMaxRetryDelayMs : Z := 30 * 1000.
Definition kInitRetryDelayMs : Z := 500.

(** errno values of Linux. *)
Definition EPERM : Z := 1.
Definition EINTR : Z := 4.
Definition EBADF : Z := 9.
Definition EAGAIN : Z := 11.
Definition EACCES : Z := 13.
Definition EFAULT : Z := 14.
Definition ENOTSOCK : Z := 88.
Definition EAFNOSUPPORT : Z := 97.
Definition EADDRINUSE : Z := 98.
Definition EADDRNOTAVAIL : Z := 99.
Definition ENETUNREACH : Z := 101.
Definition EISCONN : Z := 106.
Definition ECONNREFUSED : Z := 111.
Definition EALREADY : Z := 114.
Definition EINPROGRESS : Z := 115.

(** Functors queued to the loop. *)
Inductive task := StopInLoop | ResetChannel.
#[global] Instance task_eq_dec : EqDecision task.
Proof. solve_decision. Defined.

(** Of the channel its descriptor and its registration are kept; [tasks] are the
    queued functors, [timers] the delays of the [startInLoop] timers not fired yet.
    The rest is history: sockets created, closed, handed to the new-connection
    callback, and forgotten, and the delays scheduled since the last restart. *)
Record t := mk {
  connect_ : bool;
  state_ : States;
  channel_ : option Z;
  registered : bool;
  retryDelayMs_ : Z;
  tasks : list task;
  timers : list Z;
  opened : list Z;
  closed : list Z;
  delivered : list Z;
  forgotten : list Z;
  delays : list Z;
}.

Definition new : t :=
  {| connect_ := false; state_ := kDisconnected; channel_ := None; registered := false;
     retryDelayMs_ := kInitRetryDelayMs; tasks := []; timers := []; opened := []; closed := [];
     delivered := []; forgotten := []; delays := [] |}.

Definition set_connect (c : t) (b : bool) : t :=
  mk b (state_ c) (channel_ c) (registered c) (retryDelayMs_ c) (tasks c) (timers c)
    (opened c) (closed c) (delivered c) (forgotten c) (delays c).
Definition setState (c : t) (s : States) : t :=
  mk (connect_ c) s (channel_ c) (registered c) (retryDelayMs_ c) (tasks c) (timers c)
    (opened c) (closed c) (delivered c) (forgotten c) (delays c).
Definition set_channel (c : t) (ch : option Z) (reg : bool) : t :=
  mk (connect_ c) (state_ c) ch reg (retryDelayMs_ c) (tasks c) (timers c)
    (opened c) (closed c) (delivered c) (forgotten c) (delays c).
Definition set_tasks (c : t) (ts : list task) : t :=
  mk (connect_ c) (state_ c) (channel_ c) (registered c) (retryDelayMs_ c) ts (timers c)
    (opened c) (closed c) (delivered c) (forgotten c) (delays c).
Definition set_delay (c : t) (d : Z) (ts ds : list Z) : t :=
  mk (connect_ c) (state_ c) (channel_ c) (registered c) d (tasks c) ts
    (opened c) (closed c) (delivered c) (forgotten c) ds.
Definition set_fds (c : t) (o cl de fo : list Z) : t :=
  mk (connect_ c) (state_ c) (channel_ c) (registered c) (retryDelayMs_ c) (tasks c) (timers c)
    o cl de fo (delays c).

Definition sockets_close (c : t) (fd : Z) : t :=
  set_fds c (opened c) (closed c ++ [fd]) (delivered c) (forgotten c).

Definition retry (c : t) (sockfd : Z) : t :=
  let c := setState (sockets_close c sockfd) kDisconnected in
  if connect_ c then
    set_delay c (Z.min (retryDelayMs_ c * 2) kMaxRetryDelayMs)
      (timers c ++ [retryDelayMs_ c]) (delays c ++ [retryDelayMs_ c])
  else c.

Definition connecting (c : t) (sockfd : Z) : outcome t :=
  let c := setState c kConnecting in
  _ ← assert_ (bool_decide (channel_ c = None)) ;
  mret (set_channel c (Some sockfd) true).

(** The answers of socket(2) and connect(2): the descriptor and errno (0: success). *)
Definition connect (c : t) (sockfd savedErrno : Z) : outcome t :=
  if sockfd <? 0 then Fault Fatal
  else
    let c := set_fds c (opened c ++ [sockfd]) (closed c) (delivered c) (forgotten c) in
    if bool_decide (savedErrno ∈ [0; EINPROGRESS; EINTR; EISCONN]) then connecting c sockfd
    else if bool_decide (savedErrno ∈ [EAGAIN; EADDRINUSE; EADDRNOTAVAIL; ECONNREFUSED; ENETUNREACH])
    then mret (retry c sockfd)
    else if bool_decide (savedErrno ∈ [EACCES; EPERM; EAFNOSUPPORT; EBADF; EALREADY; EFAULT; ENOTSOCK])
    then mret (sockets_close c sockfd)
    else mret (set_fds c (opened c) (closed c) (delivered c) (forgotten c ++ [sockfd])).

Definition startInLoop (inLoop : bool) (c : t) (sockfd savedErrno : Z) : outcome t :=
  _ ← assertInLoopThread inLoop ;
  _ ← assert_ (bool_decide (state_ c = kDisconnected)) ;
  if connect_ c then connect c sockfd savedErrno else mret c.

(** [start] in the loop's thread, where [runInLoop] calls at once. *)
Definition start (c : t) (sockfd savedErrno : Z) : outcome t :=
  startInLoop true (set_connect c true) sockfd savedErrno.

Definition stop (c : t) : t := set_tasks (set_connect c false) (tasks c ++ [StopInLoop]).

Definition removeAndResetChannel (c : t) : outcome (Z * t) :=
  sockfd ← deref (channel_ c) ;
  mret (sockfd, set_tasks (set_channel c (channel_ c) false) (tasks c ++ [ResetChannel])).

Definition resetChannel (c : t) : t := set_channel c None (registered c).

Definition stopInLoop (inLoop : bool) (c : t) : outcome t :=
  _ ← assertInLoopThread inLoop ;
  if decide (state_ c = kConnecting) then
    let c := setState c kDisconnected in
    r ← removeAndResetChannel c ;
    mret (retry r.2 r.1)
  else mret c.

Definition restart (inLoop : bool) (c : t) (sockfd savedErrno : Z) : outcome t :=
  _ ← assertInLoopThread inLoop ;
  let c := setState c kDisconnected in
  let c := set_delay c kInitRetryDelayMs (timers c) [] in
  startInLoop inLoop (set_connect c true) sockfd savedErrno.

(** [err] is SO_ERROR, [self] whether the socket is connected to itself; the result
    also has the socket given to the new-connection callback. *)
Definition handleWrite (c : t) (err : Z) (self : bool) : outcome (t * option Z) :=
  if decide (state_ c = kConnecting) then
    r ← removeAndResetChannel c ;
    let sockfd := r.1 in
    let c := r.2 in
    if negb (err =? 0) then mret (retry c sockfd, None)
    else if self then mret (retry c sockfd, None)
    else
      let c := setState c kConnected in
      if connect_ c then
        mret (set_fds c (opened c) (closed c) (delivered c ++ [sockfd]) (forgotten c), Some sockfd)
      else mret (sockets_close c sockfd, None)
  else
    _ ← assert_ (bool_decide (state_ c = kDisconnected)) ;
    mret (c, None).

Definition handleError (c : t) : outcome t :=
  if decide (state_ c = kConnecting) then
    r ← removeAndResetChannel c ;
    mret (retry r.2 r.1)
  else mret c.

(** [~Connector] *)
Definition destroy (c : t) : outcome unit :=
  assert_ (match channel_ c with None => true | Some _ => false end).

(** What the channel calls for one readiness report: the error handler before the
    write handler. *)
Definition dispatch (c : t) (hasError hasWrite : bool) (err : Z) (self : bool) : outcome (t * option Z) :=
  c ← (if hasError then handleError c else mret c) ;
  if hasWrite then handleWrite c err self else mret (c, None).

Definition run_task (c : t) (x : task) : outcome t :=
  match x with StopInLoop => stopInLoop true c | ResetChannel => mret (resetChannel c) end.


(** ** The connector's invariant *)

(** The delay before the [i]-th retry. *)
Definition delay_at (i : nat) : Z := Z.min (kInitRetryDelayMs * 2 ^ Z.of_nat i) kMaxRetryDelayMs.

Definition resets (c : t) : nat := length (filter (fun x => x = ResetChannel) (tasks c)).

(** The socket the connector is responsible for. *)
Definition pending (c : t) : list Z :=
  if decide (state_ c = kConnecting) then match channel_ c with Some fd => [fd] | None => [] end else [].

Definition fds_ok (c : t) (held : list Z) : Prop :=
  opened c ≡ₚ closed c ++ delivered c ++ forgotten c ++ held.
Definition delays_ok (c : t) : Prop :=
  delays c = map delay_at (seq 0 (length (delays c))) /\ retryDelayMs_ c = delay_at (length (delays c)).

Record inv (c : t) : Prop := mk_inv {
  inv_connecting : state_ c = kConnecting ->
    registered c = true /\ is_Some (channel_ c) /\ resets c = 0%nat;
  inv_registered : registered c = true -> state_ c = kConnecting;
  inv_none : channel_ c = None -> resets c = 0%nat;
  inv_one : (resets c <= 1)%nat;
  inv_timers : state_ c <> kDisconnected -> timers c = [];
  inv_one_timer : (length (timers c) <= 1)%nat;
  inv_fds : fds_ok c (pending c);
  inv_delays : delays_ok c;
}.

Lemma delay_range i : kInitRetryDelayMs <= delay_at i <= kMaxRetryDelayMs.
Proof.
  unfold delay_at, kInitRetryDelayMs, kMaxRetryDelayMs.
  assert (1 <= 2 ^ Z.of_nat i) by (pose proof (Z.pow_pos_nonneg 2 (Z.of_nat i)); lia). lia.
Qed.

Lemma delay_next i : Z.min (delay_at i * 2) kMaxRetryDelayMs = delay_at (S i).
Proof.
  unfold delay_at, kInitRetryDelayMs, kMaxRetryDelayMs. rewrite Nat2Z.inj_succ, Z.pow_succ_r by lia. lia.
Qed.

Lemma new_inv_connector : inv new.
Proof. split; unfold resets, fds_ok, delays_ok; simpl; try done; lia. Qed.

(** Right after [removeAndResetChannel]: the socket [fd] has to go somewhere. *)
Record mid (c : t) (fd : Z) : Prop := mk_mid {
  mid_channel : channel_ c = Some fd;
  mid_registered : registered c = false;
  mid_resets : resets c = 1%nat;
  mid_timers : timers c = [];
  mid_fds : fds_ok c [fd];
  mid_delays : delays_ok c;
}.

Lemma removeAndReset_mid c s :
  inv c -> state_ c = kConnecting ->
  exists fd c', removeAndResetChannel (setState c s) = Ok (fd, c') /\ mid c' fd /\
    delivered c' = delivered c /\ connect_ c' = connect_ c.
Proof.
  intros Hc Hs. destruct (inv_connecting c Hc Hs) as (_ & [fd Hfd] & Hr).
  unfold removeAndResetChannel. cbn [setState channel_]. rewrite Hfd. cbn [deref]. rewrite bind_ok.
  do 2 eexists. split; [done|]. split; [|done]. split; try done.
  - unfold resets in *. cbn [set_tasks set_channel setState tasks]. rewrite filter_app, length_app, Hr. done.
  - cbn. apply Hc. congruence.
  - pose proof (inv_fds c Hc) as Hf. unfold pending in Hf. by rewrite Hs, Hfd in Hf.
  - apply Hc.
Qed.

Lemma retry_inv c fd : mid c fd -> inv (retry c fd) /\ state_ (retry c fd) = kDisconnected.
Proof.
  intros [Hch Hreg Hr Ht Hf [Hd1 Hd2]].
  assert (forall c', channel_ c' = channel_ c -> registered c' = registered c -> tasks c' = tasks c ->
    state_ c' = kDisconnected -> (length (timers c') <= 1)%nat -> opened c' = opened c ->
    closed c' = closed c ++ [fd] -> delivered c' = delivered c -> forgotten c' = forgotten c ->
    delays_ok c' -> inv c') as Hgoal.
  { intros c' E1 E2 E3 E4 E5 E6 E7 E8 E9 E10. split; rewrite ?E4; try done.
    - rewrite E2, Hreg. done.
    - rewrite E1, Hch. done.
    - unfold resets in *. rewrite E3, Hr. done.
    - unfold fds_ok, pending in *. rewrite E4, E6, E7, E8, E9, Hf. simpl. solve_Permutation. }
  unfold retry. cbn [sockets_close setState set_fds connect_ retryDelayMs_ timers delays].
  destruct (connect_ c); (split; [|done]); apply Hgoal; try done.
  - cbn [set_delay timers]. rewrite Ht. simpl. lia.
  - unfold delays_ok. cbn [set_delay delays retryDelayMs_]. rewrite length_app, Nat.add_1_r. split.
    + rewrite seq_S, map_app, <- Hd1. simpl. by rewrite Hd2.
    + rewrite Hd2. apply delay_next.
  - cbn [setState sockets_close set_fds timers]. rewrite Ht. simpl. lia.
Qed.

(** The connection is up: its socket is delivered or, after [stop], closed. *)
Lemma connected_inv c fd c' :
  mid c fd ->
  c' = set_fds (setState c kConnected) (opened c) (closed c) (delivered c ++ [fd]) (forgotten c) \/
  c' = sockets_close (setState c kConnected) fd ->
  inv c'.
Proof.
  intros [Hch Hreg Hr Ht Hf Hd] [-> | ->]; split; cbn; try done; try (by rewrite Hch); try (by rewrite Hreg);
    try (by rewrite Ht); unfold resets in *; cbn; try lia; unfold fds_ok, pending in *; cbn; rewrite Ht || rewrite Hf;
    simpl; try lia; solve_Permutation.
Qed.

(** A connection attempt from the idle state. *)
Lemma startInLoop_inv c fd errno :
  inv c -> state_ c = kDisconnected -> timers c = [] -> channel_ c = None -> 0 <= fd ->
  exists c', startInLoop true c fd errno = Ok c' /\ inv c' /\ delivered c' = delivered c /\
    state_ c' <> kConnected.
Proof.
  intros Hc Hs Ht Hch Hfd. pose proof (inv_none c Hc Hch) as Hr. pose proof (inv_delays c Hc) as Hd.
  pose proof (inv_fds c Hc) as Hf. unfold pending in Hf. rewrite Hs in Hf. cbn in Hf.
  assert (registered c = false) as Hreg.
  { destruct (registered c) eqn:E; [|done]. by rewrite (inv_registered c Hc E) in Hs. }
  unfold startInLoop. cbn [assertInLoopThread]. rewrite bind_ok, bool_decide_true, assert_pass by done.
  destruct (connect_ c) eqn:Econ; [|exists c; by rewrite Hs].
  unfold connect. destruct (Z.ltb_spec fd 0); [lia|]. set (c1 := set_fds c _ _ _ _).
  assert (fds_ok c1 [fd]) as Hf1 by (unfold fds_ok, c1; cbn; rewrite Hf; solve_Permutation).
  case_bool_decide; [|case_bool_decide; [|case_bool_decide]].
  - unfold connecting. cbn [setState channel_ c1 set_fds]. rewrite Hch, bool_decide_true, assert_pass by done.
    eexists. split; [done|]. split; [|done]. split; cbn; try done.
    + unfold resets in *. cbn. rewrite Hr. lia.
    + rewrite Ht. simpl. lia.
  - eexists. split; [done|]. unfold retry. cbn [sockets_close c1 set_fds setState connect_]. rewrite Econ.
    split; [|done]. destruct Hd as [Hd1 Hd2]. split; cbn; try done.
    + by rewrite Hreg.
    + unfold resets in *. cbn. rewrite Hr. lia.
    + rewrite Ht. simpl. lia.
    + unfold fds_ok, pending in *. cbn. rewrite Hf. solve_Permutation.
    + unfold delays_ok. cbn. rewrite length_app, Nat.add_1_r. split.
      * rewrite seq_S, map_app, <- Hd1. simpl. by rewrite Hd2.
      * rewrite Hd2. apply delay_next.
  - eexists. split; [done|]. split; [|split; [done|]; cbn; by rewrite Hs]. split; cbn; try done; try apply Hc.
    unfold fds_ok, pending in *. cbn. rewrite Hs, Hf. cbn. solve_Permutation.
  - eexists. split; [done|]. split; [|split; [done|]; cbn; by rewrite Hs]. split; cbn; try done; try apply Hc.
    unfold fds_ok, pending in *. cbn. rewrite Hs, Hf. cbn. solve_Permutation.
Qed.

Lemma setState_same c s : state_ c = s -> setState c s = c.
Proof. intros <-. by destruct c. Qed.

(** A readiness report delivers at most one socket, and only to a connector that
    was connecting. *)
Lemma ready_inv c hasError hasWrite err self :
  inv c -> registered c = true ->
  exists c' fd, dispatch c hasError hasWrite err self = Ok (c', fd) /\ inv c' /\
    delivered c' = delivered c ++ match fd with Some fd => [fd] | None => [] end /\
    (is_Some fd -> state_ c' = kConnected).
Proof.
  intros Hc Hreg. pose proof (inv_registered c Hc Hreg) as Hs.
  destruct (removeAndReset_mid c kConnecting Hc Hs) as (fd & c1 & E1 & Hm & Hdel & Hcon).
  rewrite setState_same in E1 by done. destruct (retry_inv c1 fd Hm) as [Hri Hrs].
  assert (delivered (retry c1 fd) = delivered c) as Hrd by (unfold retry; by case_match).
  unfold dispatch. destruct hasError.
  - unfold handleError. rewrite decide_True, E1 by done. rewrite !bind_ok. cbn [fst snd].
    exists (retry c1 fd), None. rewrite app_nil_r. split_and!; [|done|done|by intros []].
    destruct hasWrite; [|done]. unfold handleWrite. rewrite Hrs. rewrite decide_False by done. done.
  - unfold mret at 1, outcome_ret. rewrite bind_ok. destruct hasWrite.
    2:{ exists c, None. rewrite app_nil_r. split_and!; [done..|by intros []]. }
    unfold handleWrite. rewrite decide_True, E1 by done. rewrite bind_ok. cbn [fst snd].
    destruct (negb (err =? 0)); [exists (retry c1 fd), None; rewrite app_nil_r; split_and!; [done..|by intros []]|].
    destruct self; [exists (retry c1 fd), None; rewrite app_nil_r; split_and!; [done..|by intros []]|].
    cbn [setState connect_]. destruct (connect_ c1).
    + do 2 eexists. split; [done|]. split; [eapply connected_inv; [done|by left]|]. cbn. by rewrite Hdel.
    + do 2 eexists. split; [done|]. split; [eapply connected_inv; [done|by right]|]. cbn.
      rewrite Hdel, app_nil_r. split; [done|by intros []].
Qed.

Lemma set_tasks_inv c ts :
  inv c -> length (filter (fun x => x = ResetChannel) ts) = resets c -> inv (set_tasks c ts).
Proof. intros [] E. unfold resets in *. split; unfold resets; cbn; rewrite ?E; done. Qed.

Lemma set_connect_inv c b : inv c -> inv (set_connect c b).
Proof. intros []. by split. Qed.

Lemma stop_inv c : inv c -> inv (stop c).
Proof.
  intros Hc. unfold stop. apply set_tasks_inv; [by apply set_connect_inv|].
  rewrite filter_app, length_app, filter_cons_False by done. apply Nat.add_0_r.
Qed.

Lemma run_task_inv c x ts :
  inv c -> tasks c = x :: ts ->
  exists c', run_task (set_tasks c ts) x = Ok c' /\ inv c' /\ delivered c' = delivered c /\
    (state_ c = kConnected -> state_ c' = kConnected) /\ (state_ c' = kConnected -> state_ c = kConnected).
Proof.
  intros Hc Ht. destruct x; cbn [run_task].
  - assert (inv (set_tasks c ts)) as Hc1.
    { apply set_tasks_inv; [done|]. unfold resets. rewrite Ht. by rewrite filter_cons_False. }
    unfold stopInLoop. cbn [assertInLoopThread]. rewrite bind_ok. case_decide as Hs; [|by exists (set_tasks c ts)].
    destruct (removeAndReset_mid (set_tasks c ts) kDisconnected Hc1 Hs) as (fd & c1 & -> & Hm & Hdel & _).
    rewrite bind_ok. cbn [fst snd]. destruct (retry_inv c1 fd Hm) as [Hri Hrs]. exists (retry c1 fd).
    cbn in Hs, Hdel. split_and!; try done; rewrite ?Hrs, ?Hs; try done.
    rewrite <- Hdel. unfold retry. by case_match.
  - pose proof (inv_one c Hc) as Hone. unfold resets in Hone. rewrite Ht, filter_cons_True in Hone by done.
    cbn [length] in Hone. eexists. split; [done|]. split; [|done].
    destruct Hc as [H1 H2 H3 H4 H5 H6 H7 H8]. split; cbn; try done.
    + intros Hs. destruct (H1 Hs) as (_ & _ & Hr). unfold resets in Hr. rewrite Ht, filter_cons_True in Hr; done.
    + intros _. unfold resets. cbn. lia.
    + unfold resets. cbn. lia.
    + unfold fds_ok, pending in *. cbn. destruct (decide (state_ c = kConnecting)) as [Hs|]; [|done].
      destruct (H1 Hs) as (_ & _ & Hr). unfold resets in Hr. rewrite Ht, filter_cons_True in Hr; done.
Qed.
End Connector.

Module TcpClient.

(** A connection is its number and its socket. *)
Definition conn : Set := Z * Z.

(** [made] and [removed] are the connections established and taken down so far;
    [shutdowns] those [disconnect] has shut down. *)
Record t := mk {
  connector_ : Connector.t;
  retry_ : bool;
  connect_ : bool;
  nextConnId_ : Z;
  connection_ : option conn;
  made : list conn;
  removed : list conn;
  shutdowns : list conn;
}.
#[global] Instance conn_eq_dec : EqDecision conn.
Proof. apply _. Defined.

Definition new (retry : bool) : t :=
  {| connector_ := Connector.new; retry_ := retry; connect_ := true; nextConnId_ := 1;
     connection_ := None; made := []; removed := []; shutdowns := [] |}.

Definition set_connector (c : t) (k : Connector.t) (b : bool) : t :=
  mk k (retry_ c) b (nextConnId_ c) (connection_ c) (made c) (removed c) (shutdowns c).

Definition connect (c : t) (sockfd savedErrno : Z) : outcome t :=
  k ← Connector.start (connector_ c) sockfd savedErrno ;
  mret (set_connector c k true).

Definition disconnect (c : t) : t :=
  mk (connector_ c) (retry_ c) false (nextConnId_ c) (connection_ c) (made c) (removed c)
    (shutdowns c ++ match connection_ c with Some x => [x] | None => [] end).

Definition stop (c : t) : t := set_connector c (Connector.stop (connector_ c)) false.

Definition newConnection (inLoop : bool) (c : t) (sockfd : Z) : outcome t :=
  _ ← assertInLoopThread inLoop ;
  let x := (nextConnId_ c, sockfd) in
  mret (mk (connector_ c) (retry_ c) (connect_ c) (int32 (nextConnId_ c + 1)) (Some x)
          (made c ++ [x]) (removed c) (shutdowns c)).

(** [removeConnection], the close callback of [x]; [connectDestroyed] is queued. *)
Definition removeConnection (inLoop : bool) (c : t) (x : conn) (sockfd savedErrno : Z) : outcome t :=
  _ ← assertInLoopThread inLoop ;
  _ ← assert_ (bool_decide (connection_ c = Some x)) ;
  let c := mk (connector_ c) (retry_ c) (connect_ c) (nextConnId_ c) None
             (made c) (removed c ++ [x]) (shutdowns c) in
  if retry_ c && connect_ c then
    k ← Connector.restart inLoop (connector_ c) sockfd savedErrno ;
    mret (set_connector c k (connect_ c))
  else mret c.

(** What [~TcpClient] leaves behind: the functors queued with a pointer to a connector
    that no longer exists, the connector if a retry timer still owns it, the
    connection whose close callback was replaced by [detail::removeConnection], and
    the one that is being closed. *)
Record remains := mk_remains {
  dangling : list Connector.task;
  kept : option Connector.t;
  rebound : option conn;
  forced : option conn;
}.

(** The last reference of the client to its connector: the timers of [retry] own it
    too, the queued functors do not. *)
Definition release (k : Connector.t) : outcome (list Connector.task * option Connector.t) :=
  match Connector.timers k with
  | [] => _ ← Connector.destroy k ; mret (Connector.tasks k, None)
  | _ => mret ([], Some k)
  end.

(** [~TcpClient]; [unique] says whether nobody else holds the connection. *)
Definition destroy (unique : bool) (c : t) : outcome remains :=
  match connection_ c with
  | Some x =>
      r ← release (connector_ c) ;
      mret (mk_remains r.1 r.2 (Some x) (if unique then Some x else None))
  | None =>
      r ← release (Connector.stop (connector_ c)) ;
      mret (mk_remains r.1 r.2 None None)
  end.

(** What can happen to a client.  [fd] and [errno] answer the connection attempt, if
    one is made. *)
Inductive event :=
  | EConnect (fd errno : Z)
  | EDisconnect
  | EStop
  | ETask
  | ETimer (fd errno : Z)
  | EReady (hasError hasWrite : bool) (err : Z) (self : bool)
  | EClosed (fd errno : Z).

Definition exec (c : t) (e : event) : outcome t :=
  match e with
  | EConnect fd errno => connect c fd errno
  | EDisconnect => mret (disconnect c)
  | EStop => mret (stop c)
  | ETask =>
      match Connector.tasks (connector_ c) with
      | x :: ts => k ← Connector.run_task (Connector.set_tasks (connector_ c) ts) x ;
                   mret (set_connector c k (connect_ c))
      | [] => mret c
      end
  | ETimer fd errno =>
      match Connector.timers (connector_ c) with
      | _ :: ts =>
          let k := connector_ c in
          k ← Connector.startInLoop true
                (Connector.set_delay k (Connector.retryDelayMs_ k) ts (Connector.delays k)) fd errno ;
          mret (set_connector c k (connect_ c))
      | [] => mret c
      end
  | EReady hasError hasWrite err self =>
      r ← Connector.dispatch (connector_ c) hasError hasWrite err self ;
      let c := set_connector c r.1 (connect_ c) in
      match r.2 with
      | Some sockfd => newConnection true c sockfd
      | None => mret c
      end
  | EClosed fd errno =>
      match connection_ c with
      | Some x => removeConnection true c x fd errno
      | None => mret c
      end
  end.

(** When it can happen: [connect] is called on a client that is neither connected
    nor trying; sockets are created successfully; a timer, whose delay is at least
    half a second, fires when the functors queued before have run, and so does the
    close of a connection that was just made; readiness is reported for a
    registered channel. *)
Definition enabled (c : t) (e : event) : Prop :=
  let k := connector_ c in
  match e with
  | EConnect fd errno =>
      0 <= fd /\ Connector.state_ k = Connector.kDisconnected /\ connection_ c = None /\
      Connector.timers k = [] /\ Connector.channel_ k = None
  | ETimer fd errno => 0 <= fd /\ Connector.timers k <> [] /\ Connector.channel_ k = None
  | EReady _ _ _ _ => Connector.registered k = true
  | EClosed fd errno => 0 <= fd /\ is_Some (connection_ c) /\ Connector.channel_ k = None
  | _ => True
  end.


Definition current (c : t) : list conn := match connection_ c with Some x => [x] | None => [] end.

Record inv (c : t) : Prop := mk_inv {
  inv_connector : Connector.inv (connector_ c);
  inv_made : made c = removed c ++ current c;
  inv_up : is_Some (connection_ c) -> Connector.state_ (connector_ c) = Connector.kConnected;
  inv_sockets : map snd (made c) = Connector.delivered (connector_ c);
}.

(** Steps that leave the connection alone. *)
Lemma same_connection c k b :
  inv c -> Connector.inv k -> Connector.delivered k = Connector.delivered (connector_ c) ->
  (is_Some (connection_ c) -> Connector.state_ k = Connector.kConnected) -> inv (set_connector c k b).
Proof. intros [] Hk Hd Hs. split; try done. cbn. congruence. Qed.

Lemma not_connected c :
  inv c -> Connector.state_ (connector_ c) <> Connector.kConnected -> connection_ c = None.
Proof.
  intros Hc Hs. destruct (connection_ c) as [x|] eqn:E; [|done]. destruct Hs. apply Hc. rewrite E. by eexists.
Qed.

Lemma timer_keeps c fd errno d ts :
  inv c -> 0 <= fd -> Connector.timers (connector_ c) = d :: ts -> Connector.channel_ (connector_ c) = None ->
  exists c', exec c (ETimer fd errno) = Ok c' /\ inv c'.
Proof.
  intros Hc Hfd Ht Hch. pose proof (inv_connector c Hc) as Hk. set (k := connector_ c) in *.
  assert (Connector.state_ k = Connector.kDisconnected) as Hs.
  { destruct (decide (Connector.state_ k = Connector.kDisconnected)) as [|Hne]; [done|].
    by rewrite (Connector.inv_timers k Hk Hne) in Ht. }
  assert (ts = []) as ->.
  { pose proof (Connector.inv_one_timer k Hk) as Hone. rewrite Ht in Hone. destruct ts; [done|]. simpl in Hone. lia. }
  cbn [exec]. fold k. rewrite Ht. set (k1 := Connector.set_delay k _ _ _).
  assert (Connector.inv k1) as Hk1 by (destruct Hk; split; try done; cbn; lia).
  destruct (Connector.startInLoop_inv k1 fd errno Hk1 Hs) as (k2 & -> & Hk2 & Hd & _); [done..|].
  rewrite bind_ok. eexists. split; [done|]. apply same_connection; [done..|].
  rewrite (not_connected c Hc) by (fold k; by rewrite Hs). by intros [].
Qed.

Lemma ready_keeps c hasError hasWrite err self :
  inv c -> Connector.registered (connector_ c) = true ->
  exists c', exec c (EReady hasError hasWrite err self) = Ok c' /\ inv c'.
Proof.
  intros Hc Hreg. pose proof (inv_connector c Hc) as Hk.
  pose proof (Connector.inv_registered _ Hk Hreg) as Hs.
  assert (connection_ c = None) as Hno by (apply not_connected; [done|by rewrite Hs]).
  cbn [exec].
  destruct (Connector.ready_inv _ hasError hasWrite err self Hk Hreg) as (k & fd & -> & Hki & Hd & Hup).
  rewrite bind_ok. cbn [fst snd]. pose proof (inv_made c Hc) as Hm. unfold current in Hm. rewrite Hno, app_nil_r in Hm.
  destruct fd as [fd|].
  - unfold newConnection. cbn [assertInLoopThread]. rewrite bind_ok. eexists. split; [done|].
    split; cbn [connector_ made removed connection_ current set_connector]; [done| |by intros _; apply Hup|].
    + by rewrite Hm.
    + rewrite Hd, <- (inv_sockets c Hc). exact (map_app snd (made c) [(nextConnId_ c, fd)]).
  - eexists. split; [done|]. apply same_connection; [done..| |].
    + by rewrite Hd, app_nil_r.
    + rewrite Hno. by intros [].
Qed.

Lemma closed_keeps c fd errno x :
  inv c -> 0 <= fd -> connection_ c = Some x -> Connector.channel_ (connector_ c) = None ->
  exists c', exec c (EClosed fd errno) = Ok c' /\ inv c'.
Proof.
  intros Hc Hfd Hx Hch. pose proof (inv_connector c Hc) as Hk.
  assert (Connector.state_ (connector_ c) = Connector.kConnected) as Hs by (apply Hc; by rewrite Hx).
  pose proof (Connector.inv_timers _ Hk ltac:(by rewrite Hs)) as Ht.
  cbn [exec]. rewrite Hx. unfold removeConnection. cbn [assertInLoopThread].
  rewrite bind_ok, bool_decide_true, assert_pass by done.
  set (c1 := mk _ _ _ _ None _ _ _).
  assert (inv c1) as Hc1.
  { split; [exact Hk| |by intros []|apply Hc]. cbn. rewrite (inv_made c Hc). unfold current. cbn. by rewrite Hx, app_nil_r. }
  destruct (retry_ c1 && connect_ c1); [|by exists c1].
  unfold Connector.restart. cbn [assertInLoopThread]. rewrite bind_ok.
  set (k := Connector.set_connect _ true).
  assert (Connector.inv k) as Hki.
  { destruct Hk as [H1 H2 H3 H4 H5 H6 H7 H8]. split; cbn; try done.
    - intros Hr. by rewrite (H2 Hr) in Hs.
    - unfold Connector.fds_ok, Connector.pending in *. cbn. rewrite Hs in H7. exact H7. }
  destruct (Connector.startInLoop_inv k fd errno Hki) as (k2 & -> & Hk2 & Hd & _); [done..|].
  rewrite bind_ok. eexists. split; [done|]. apply same_connection; [done..|]. by intros [].
Qed.

Lemma exec_keeps c e : inv c -> enabled c e -> exists c', exec c e = Ok c' /\ inv c'.
Proof.
  intros Hc He. pose proof (inv_connector c Hc) as Hk. destruct e; cbn [enabled] in He.
  - destruct He as (Hfd & Hs & Hno & Ht & Hch). cbn [exec]. unfold connect, Connector.start.
    destruct (Connector.startInLoop_inv (Connector.set_connect (connector_ c) true) fd errno) as (k & -> & Hki & Hd & _);
      [by apply Connector.set_connect_inv|done..|].
    rewrite bind_ok. eexists. split; [done|]. apply same_connection; [done..|]. rewrite Hno. by intros [].
  - eexists. split; [done|]. destruct Hc. by split.
  - eexists. split; [done|]. apply same_connection; [done|by apply Connector.stop_inv|done|apply Hc].
  - cbn [exec]. destruct (Connector.tasks (connector_ c)) as [|x ts] eqn:Ht; [by exists c|].
    destruct (Connector.run_task_inv _ x ts Hk Ht) as (k & -> & Hki & Hd & Hs & _). rewrite bind_ok.
    eexists. split; [done|]. apply same_connection; [done..|]. intros Hup. by apply Hs, Hc.
  - destruct He as (Hfd & Ht & Hch). destruct (Connector.timers (connector_ c)) as [|d ts] eqn:E; [done|].
    by eapply timer_keeps.
  - by apply ready_keeps.
  - destruct He as (Hfd & [x Hx] & Hch). by eapply closed_keeps.
Qed.

Definition step (c c' : t) : Prop := exists e, enabled c e /\ exec c e = Ok c'.

Lemma reachable_inv_client retry c : rtc step (new retry) c -> inv c.
Proof.
  revert c. apply rtc_ind_r.
  - split; [apply Connector.new_inv_connector|done|by intros []|done].
  - intros x y _ (e & He & E) Hx. destruct (exec_keeps x e Hx He) as (c' & E' & ?). congruence.
Qed.

(** C22. A client and its connector, whatever the order of attempts, failures,
    timers, readiness reports, [disconnect], [stop] and closes: no enabled event
    fails an assertion; there is at most one connection at a time, each built on
    the socket the connector delivered; every socket created is closed, became a
    connection, is the one being connected, or is one of those dropped on an
    unexpected errno; and the retry delays double from half a second up to thirty
    seconds, starting again with every reconnection. *)
Theorem tcpclient_connections retry c :
  rtc step (new retry) c ->
  (forall e, enabled c e -> succeeds (exec c e)) /\
  made c = removed c ++ current c /\
  (Connector.opened (connector_ c) ≡ₚ Connector.closed (connector_ c) ++ map snd (made c) ++
     Connector.forgotten (connector_ c) ++ Connector.pending (connector_ c)) /\
  (forall i d, Connector.delays (connector_ c) !! i = Some d ->
     d = Z.min (500 * 2 ^ Z.of_nat i) 30000) /\
  (is_Some (connection_ c) -> Connector.pending (connector_ c) = [] /\ Connector.timers (connector_ c) = []).
Proof.
  intros Hreach. pose proof (reachable_inv_client retry c Hreach) as Hc.
  pose proof (inv_connector c Hc) as Hk. split_and!.
  - intros e He. destruct (exec_keeps c e Hc He) as (c' & ? & _). by exists c'.
  - apply Hc.
  - rewrite (inv_sockets c Hc). apply Hk.
  - intros i d Hi. destruct (Connector.inv_delays _ Hk) as [Hd _]. rewrite Hd, list_lookup_fmap in Hi.
    apply fmap_Some in Hi as (j & Hj & ->). apply lookup_seq in Hj as [-> _]. done.
  - intros Hup. pose proof (inv_up c Hc Hup) as Hs. split.
    + unfold Connector.pending. by rewrite Hs.
    + apply Hk. by rewrite Hs.
Qed.

(** C37. Destroying a client.  With a connection and an idle connector nothing
    dangles: the connection gets a close callback that does not use the client and is
    closed if nobody else holds it.  While the connector is connecting the assertion
    of [~Connector] fails.  Without a connection, [stop] has queued a functor that
    refers to the connector destroyed with the client; only a pending retry timer
    keeps the connector alive, and then its firing makes no further attempt. *)
Theorem tcpclient_destructor retry c unique :
  rtc step (new retry) c ->
  let k := connector_ c in
  (forall x, connection_ c = Some x -> Connector.tasks k = [] -> Connector.channel_ k = None ->
     destroy unique c = Ok (mk_remains [] None (Some x) (if unique then Some x else None))) /\
  (Connector.state_ k = Connector.kConnecting -> destroy unique c = Fault AssertFailed) /\
  (connection_ c = None -> Connector.timers k = [] -> Connector.channel_ k = None ->
     destroy unique c = Ok (mk_remains (Connector.tasks k ++ [Connector.StopInLoop]) None None None)) /\
  (Connector.timers k <> [] -> exists k', destroy unique c = Ok (mk_remains [] (Some k') None None) /\
     forall fd errno, Connector.startInLoop true k' fd errno = Ok k').
Proof.
  intros Hreach k. pose proof (reachable_inv_client retry c Hreach) as Hc.
  pose proof (inv_connector c Hc) as Hk. unfold destroy, release, Connector.destroy. fold k in Hk |- *. split_and!.
  - intros x Hx Ht Hch. pose proof (inv_up c Hc ltac:(by rewrite Hx)) as Hs. fold k in Hs.
    by rewrite Hx, (Connector.inv_timers k Hk ltac:(by rewrite Hs)), Hch, Ht.
  - intros Hs. rewrite (not_connected c Hc) by (fold k; by rewrite Hs). cbn.
    destruct (Connector.inv_connecting k Hk Hs) as (_ & [fd ->] & _).
    by rewrite (Connector.inv_timers k Hk ltac:(by rewrite Hs)).
  - intros Hno Ht Hch. rewrite Hno. cbn. by rewrite Ht, Hch.
  - intros Ht. assert (Connector.state_ k = Connector.kDisconnected) as Hs.
    { destruct (decide (Connector.state_ k = Connector.kDisconnected)) as [|Hne]; [done|].
      by rewrite (Connector.inv_timers k Hk Hne) in Ht. }
    rewrite (not_connected c Hc) by (fold k; by rewrite Hs). cbn.
    destruct (Connector.timers k) as [|d ts] eqn:E; [done|]. eexists. split; [done|]. intros fd errno.
    unfold Connector.startInLoop. cbn. by rewrite Hs.
Qed.

(** Refused once, connected on the second attempt, closed, connecting again. *)
Definition demo_events : list event :=
  [EConnect 5 Connector.ECONNREFUSED; ETimer 6 Connector.EINPROGRESS; EReady false true 0 false; ETask;
   EClosed 7 Connector.EINPROGRESS].
Definition demo (n : nat) : t := fold_left (fun c e => ok_or c (exec c e)) (take n demo_events) (new true).

Lemma client_demo_reachable : rtc step (new true) (demo 5).
Proof.
  apply rtc_l with (demo 1); [exists (EConnect 5 Connector.ECONNREFUSED); by vm_compute|].
  apply rtc_l with (demo 2); [exists (ETimer 6 Connector.EINPROGRESS); by vm_compute|].
  apply rtc_l with (demo 3); [exists (EReady false true 0 false); by vm_compute|].
  apply rtc_l with (demo 4); [by exists ETask; vm_compute|].
  apply rtc_l with (demo 5); [|apply rtc_refl].
  exists (EClosed 7 Connector.EINPROGRESS). split; [|by vm_compute]. vm_compute. split_and!; [done|by eexists|done].
Qed.

Lemma tcpclient_connections_witness :
  made (demo 5) = [(1, 6)] /\
  (Connector.opened (connector_ (demo 5)) ≡ₚ [5] ++ map snd (made (demo 5)) ++ [] ++ [7]).
Proof.
  split; [reflexivity|].
  exact (proj1 (proj2 (proj2 (tcpclient_connections true (demo 5) client_demo_reachable)))).
Defined.

(** The client of the run above, destroyed while it connects again. *)
Lemma tcpclient_destructor_witness :
  Connector.state_ (connector_ (demo 5)) = Connector.kConnecting /\ destroy true (demo 5) = Fault AssertFailed.
Proof.
  split; [reflexivity|].
  by apply (proj1 (proj2 (tcpclient_destructor true (demo 5) true client_demo_reachable))).
Defined.
End TcpClient.
