(* ===== verification/Http.v ===== *)
(** HTTP: [HttpRequest], [HttpContext], [HttpResponse] and [HttpServer]
    (src/libel/net/http). *)

From S2P Require Import Prelude NetBuffer NumText TimeText.

(** ** [std::map<std::string, std::string>]

    The list of its entries in the order of the keys. *)
Module StringMap.
Fixpoint lt (a b : bytes) : bool :=
  match a, b with
  | _, [] => false
  | [], _ :: _ => true
  | x :: a', y :: b' =>
      if Z_of_byte x <? Z_of_byte y then true
      else if Z_of_byte y <? Z_of_byte x then false else lt a' b'
  end.

(** [m[key] = value] *)
Fixpoint set (key value : bytes) (m : list (bytes * bytes)) : list (bytes * bytes) :=
  match m with
  | [] => [(key, value)]
  | (k, v) :: rest =>
      if lt key k then (key, value) :: m
      else if lt k key then (k, v) :: set key value rest
      else (k, value) :: rest
  end.

(** [find], then [iter->second] *)
Fixpoint find (key : bytes) (m : list (bytes * bytes)) : option bytes :=
  match m with
  | [] => None
  | (k, v) :: rest => if bool_decide (k = key) then Some v else find key rest
  end.
End StringMap.

(** ** [HttpRequest] *)
Module HttpRequest.
Inductive Method := kInvalid | kGet | kPost | kHead | kPut | kDelete.
Inductive Version := kUnknown | kHttp10 | kHttp11.
#[global] Instance Method_eq_dec : EqDecision Method.
Proof. solve_decision. Defined.
#[global] Instance Version_eq_dec : EqDecision Version.
Proof. solve_decision. Defined.

Record t := mk {
  method_ : Method;
  version_ : Version;
  path_ : bytes;
  query_ : bytes;
  receiveTime_ : Z;
  headers_ : list (bytes * bytes);
}.

Definition new : t :=
  {| method_ := kInvalid; version_ := kUnknown; path_ := []; query_ := []; receiveTime_ := 0;
     headers_ := [] |}.

Definition set_method (r : t) (m : Method) : t :=
  mk m (version_ r) (path_ r) (query_ r) (receiveTime_ r) (headers_ r).
Definition setVersion (r : t) (v : Version) : t :=
  mk (method_ r) v (path_ r) (query_ r) (receiveTime_ r) (headers_ r).
Definition setPath (r : t) (p : bytes) : t :=
  mk (method_ r) (version_ r) p (query_ r) (receiveTime_ r) (headers_ r).
Definition setQuery (r : t) (q : bytes) : t :=
  mk (method_ r) (version_ r) (path_ r) q (receiveTime_ r) (headers_ r).
Definition setReceiveTime (r : t) (x : Z) : t :=
  mk (method_ r) (version_ r) (path_ r) (query_ r) x (headers_ r).

Definition method_of (m : bytes) : Method :=
  if bool_decide (m = str "GET") then kGet
  else if bool_decide (m = str "POST") then kPost
  else if bool_decide (m = str "HEAD") then kHead
  else if bool_decide (m = str "PUT") then kPut
  else if bool_decide (m = str "DELETE") then kDelete
  else kInvalid.

(** [setMethod(start, end)]: the request and whether the method is known. *)
Definition setMethod (r : t) (m : bytes) : outcome (t * bool) :=
  _ ← assert_ (bool_decide (method_ r = kInvalid)) ;
  let r := set_method r (method_of m) in
  mret (r, negb (bool_decide (method_ r = kInvalid))).

Definition methodString (r : t) : bytes :=
  match method_ r with
  | kGet => str "GET" | kPost => str "POST" | kHead => str "HEAD" | kPut => str "PUT"
  | kDelete => str "DELETE" | kInvalid => str "UNKNOWN"
  end.

(** [isspace] in the "C" locale. *)
Definition isspace (c : byte) : bool :=
  let v := Z_of_byte c in (v =? 32) || ((9 <=? v) && (v <=? 13)).

Fixpoint skip_space (s : bytes) : bytes :=
  match s with c :: rest => if isspace c then skip_space rest else s | [] => [] end.

(** [addHeader(start, colon, end)] on the line [start, end): the field and the
    value are computed, and that is all. *)
Definition addHeader (r : t) (line : bytes) (colon : Z) : t :=
  let field := take (Z.to_nat colon) line in
  let value := skip_space (drop (Z.to_nat (colon + 1)) line) in
  let value := rev (skip_space (rev value)) in
  r.

Definition getHeader (r : t) (field : bytes) : bytes :=
  match StringMap.find field (headers_ r) with Some v => v | None => [] end.

Definition swap (r that : t) : t * t := (that, r).
End HttpRequest.

(** ** [HttpContext] *)
Module HttpContext.
Inductive HttpRequestParseState := kExpectRequestLine | kExpectHeaders | kExpectBody | kGotAll.
#[global] Instance state_eq_dec : EqDecision HttpRequestParseState.
Proof. solve_decision. Defined.

Record t := mk { state_ : HttpRequestParseState; request_ : HttpRequest.t }.

Definition new : t := {| state_ := kExpectRequestLine; request_ := HttpRequest.new |}.

Definition gotAll (c : t) : bool := bool_decide (state_ c = kGotAll).

Definition reset (c : t) : t :=
  {| state_ := kExpectRequestLine; request_ := (HttpRequest.swap (request_ c) HttpRequest.new).1 |}.

Definition SP : byte := " "%char.

(** [processRequestLine(begin, end)] on the bytes of the line. *)
Definition processRequestLine (r : HttpRequest.t) (line : bytes) : outcome (HttpRequest.t * bool) :=
  let end_ := zlen line in
  let space := std_find SP line in
  if space =? end_ then mret (r, false)
  else
    m ← HttpRequest.setMethod r (sub 0 space line) ;
    if negb m.2 then mret (m.1, false)
    else
      let r := m.1 in
      let start := space + 1 in
      let space := start + std_find SP (sub start (end_ - start) line) in
      if space =? end_ then mret (r, false)
      else
        let question := start + std_find SP (sub start (space - start) line) in
        let r := if negb (question =? space)
                 then HttpRequest.setQuery (HttpRequest.setPath r (sub start (question - start) line))
                        (sub question (space - question) line)
                 else HttpRequest.setPath r (sub start (space - start) line) in
        let start := space + 1 in
        let success := (end_ - start =? 8) && bool_decide (sub start (end_ - 1 - start) line = str "HTTP/1.") in
        if success then
          last ← deref (line !! Z.to_nat (end_ - 1)) ;
          if Ascii.eqb last "1"%char then mret (HttpRequest.setVersion r HttpRequest.kHttp11, true)
          else if Ascii.eqb last "0"%char then mret (HttpRequest.setVersion r HttpRequest.kHttp10, true)
          else mret (r, false)
        else mret (r, false).

(** The loop of [parseRequest]; [ok] is the variable of that name. *)
Fixpoint parse_loop (fuel : nat) (c : t) (b : Buffer.t) (receiveTime : Z) (ok : bool)
  : outcome (bool * t * Buffer.t) :=
  match fuel with
  | O => Fault OutOfFuel
  | S fuel' =>
      match state_ c with
      | kExpectRequestLine =>
          match Buffer.findCRLF b with
          | Some crlf =>
              r ← processRequestLine (request_ c) (Buffer.range b (Buffer.peek b) crlf) ;
              if r.2 : bool then
                let request := HttpRequest.setReceiveTime r.1 receiveTime in
                b ← Buffer.retrieveUntil b (crlf + 2) ;
                parse_loop fuel' {| state_ := kExpectHeaders; request_ := request |} b receiveTime true
              else mret (false, {| state_ := state_ c; request_ := r.1 |}, b)
          | None => mret (ok, c, b)
          end
      | kExpectHeaders =>
          match Buffer.findCRLF b with
          | Some crlf =>
              let line := Buffer.range b (Buffer.peek b) crlf in
              let colon := std_find ":"%char line in
              if negb (colon =? zlen line) then
                let c := {| state_ := state_ c; request_ := HttpRequest.addHeader (request_ c) line colon |} in
                b ← Buffer.retrieveUntil b (crlf + 2) ;
                parse_loop fuel' c b receiveTime ok
              else
                b ← Buffer.retrieveUntil b (crlf + 2) ;
                mret (ok, {| state_ := kGotAll; request_ := request_ c |}, b)
          | None => mret (ok, c, b)
          end
      | kExpectBody => mret (ok, c, b)
      | kGotAll => parse_loop fuel' c b receiveTime ok
      end
  end.

(** Every turn but the last removes a line of at least two bytes. *)
Definition parseRequest (fuel : nat) (c : t) (b : Buffer.t) (receiveTime : Z) : outcome (bool * t * Buffer.t) :=
  parse_loop fuel c b receiveTime true.
Definition enough (b : Buffer.t) : nat := Z.to_nat (Buffer.readableBytes b) + 2.

(** ** The parser as a function of the bytes *)
Fixpoint pure_loop (fuel : nat) (c : t) (q : bytes) (receiveTime : Z) (ok : bool) : outcome (bool * t * bytes) :=
  match fuel with
  | O => Fault OutOfFuel
  | S fuel' =>
      let crlf := std_search [CR; LF] q in
      let line := take (Z.to_nat crlf) q in
      let rest := drop (Z.to_nat (crlf + 2)) q in
      match state_ c with
      | kExpectRequestLine =>
          if crlf =? zlen q then mret (ok, c, q)
          else
            r ← processRequestLine (request_ c) line ;
            if r.2 : bool then
              pure_loop fuel' {| state_ := kExpectHeaders;
                                 request_ := HttpRequest.setReceiveTime r.1 receiveTime |} rest receiveTime true
            else mret (false, {| state_ := state_ c; request_ := r.1 |}, q)
      | kExpectHeaders =>
          if crlf =? zlen q then mret (ok, c, q)
          else
            let colon := std_find ":"%char line in
            if negb (colon =? zlen line) then
              pure_loop fuel' {| state_ := state_ c;
                                 request_ := HttpRequest.addHeader (request_ c) line colon |} rest receiveTime ok
            else mret (ok, {| state_ := kGotAll; request_ := request_ c |}, rest)
      | kExpectBody => mret (ok, c, q)
      | kGotAll => pure_loop fuel' c q receiveTime ok
      end
  end.

Lemma line_range b q n :
  Buffer.holds b q -> 0 <= n <= zlen q -> Buffer.range b (Buffer.peek b) (Buffer.peek b + n) = take (Z.to_nat n) q.
Proof.
  intros [Hok Hc] Hn. pose proof (Buffer.zlen_content b Hok) as Hl. rewrite Hc in Hl.
  rewrite <- Hc. unfold Buffer.content, Buffer.range, Buffer.peek, Buffer.beginWrite in *.
  rewrite Z.add_simpl_l. unfold sub. rewrite take_take. f_equal. lia.
Qed.

(** The code on a buffer is the function on the bytes it holds. *)
Lemma parse_loop_pure fuel c b q tm ok :
  Buffer.holds b q ->
  match pure_loop fuel c q tm ok with
  | Ok (ok', c', q') => exists b', parse_loop fuel c b tm ok = Ok (ok', c', b') /\ Buffer.holds b' q' /\
      Buffer.buffer_ b' = Buffer.buffer_ b
  | Fault f => parse_loop fuel c b tm ok = Fault f
  end.
Proof.
  revert c b q ok. induction fuel as [|fuel IH]; intros c b q ok Hh; [done|]. cbn [pure_loop parse_loop].
  rewrite (Buffer.findCRLF_spec b q Hh). unfold Buffer.kCRLF.
  set (p := std_search [CR; LF] q). pose proof (std_search_range [CR; LF] q) as Hp. fold p in Hp.
  assert (p <> zlen q -> exists b', Buffer.retrieveUntil b (Buffer.peek b + p + 2) = Ok b' /\
            Buffer.holds b' (drop (Z.to_nat (p + 2)) q) /\ Buffer.buffer_ b' = Buffer.buffer_ b) as Hret.
  { intros Hne. pose proof (Buffer.CRLF_fits q Hne) as Hfit. rewrite <- Z.add_assoc.
    apply Buffer.retrieveUntil_spec; [done|]. unfold Buffer.kCRLF in Hfit. fold p in Hfit. lia. }
  destruct (state_ c) eqn:Hst.
  - destruct (Z.eqb_spec p (zlen q)) as [E|E]; [simpl; eauto|].
    rewrite (line_range b q p Hh Hp). destruct (processRequestLine _ _) as [[r okl]|f]; simpl; [|done].
    destruct okl; simpl; [|eauto]. destruct (Hret E) as (b' & -> & Hb' & Hbuf). simpl.
    specialize (IH {| state_ := kExpectHeaders; request_ := HttpRequest.setReceiveTime r tm |} b' _ true Hb').
    destruct (pure_loop _ _ _ _ _) as [[[ok' c'] q']|f]; [|done]. by rewrite <- Hbuf.
  - destruct (Z.eqb_spec p (zlen q)) as [E|E]; [simpl; eauto|].
    rewrite (line_range b q p Hh Hp). destruct (Hret E) as (b' & -> & Hb' & Hbuf).
    destruct (negb _); simpl; [|eauto].
    specialize (IH {| state_ := kExpectHeaders; request_ := HttpRequest.addHeader (request_ c)
      (take (Z.to_nat p) q) (std_find ":"%char (take (Z.to_nat p) q)) |} b' _ ok Hb').
    destruct (pure_loop _ _ _ _ _) as [[[ok' c'] q']|f]; [|done]. by rewrite <- Hbuf.
  - simpl. eauto.
  - by apply IH.
Qed.

(** ** Termination *)

(** A context between two calls: the method is not set before the request line. *)
Definition ready (c : t) : Prop :=
  state_ c <> kGotAll /\ (state_ c = kExpectRequestLine -> HttpRequest.method_ (request_ c) = HttpRequest.kInvalid).

Lemma processRequestLine_total r line :
  HttpRequest.method_ r = HttpRequest.kInvalid -> exists r' ok, processRequestLine r line = Ok (r', ok).
Proof.
  intros Hm. unfold processRequestLine. cbv zeta. destruct (std_find SP line =? zlen line); [by do 2 eexists|].
  unfold HttpRequest.setMethod. rewrite assert_pass by by apply bool_decide_eq_true_2.
  cbn [mbind outcome_bind mret outcome_ret fst snd].
  destruct (negb (negb _)); [by do 2 eexists|]. destruct (_ =? zlen line); [by do 2 eexists|].
  set (st := _ + _ + 1). destruct (zlen line - st =? 8) eqn:E8; simpl; [|by do 2 eexists].
  apply Z.eqb_eq in E8.
  case_bool_decide; [|by do 2 eexists].
  assert (0 < zlen line) as Hpos.
  { pose proof (std_find_range SP line). subst st.
    pose proof (std_find_range SP (sub (std_find SP line + 1) (zlen line - (std_find SP line + 1)) line)). lia. }
  destruct (lookup_lt_is_Some_2 line (Z.to_nat (zlen line - 1))) as [x ->]; [unfold zlen in *; lia|].
  simpl. repeat case_match; by do 2 eexists.
Qed.

Lemma pure_total fuel c q tm ok :
  ready c -> zlen q + 2 <= Z.of_nat fuel -> exists ok' c' q', pure_loop fuel c q tm ok = Ok (ok', c', q').
Proof.
  revert c q ok. induction fuel as [|fuel IH]; intros c q ok [Hg Hm] Hf;
    [pose proof (zlen_nonneg q); lia|]. cbn [pure_loop].
  set (p := std_search [CR; LF] q). pose proof (std_search_range [CR; LF] q) as Hp. fold p in Hp.
  assert (p <> zlen q -> zlen (drop (Z.to_nat (p + 2)) q) + 2 <= Z.of_nat fuel) as Hdec.
  { intros Hne. pose proof (Buffer.CRLF_fits q Hne) as Hfit. unfold zlen in *. rewrite length_drop. lia. }
  destruct (state_ c) eqn:Hst; [| |by do 3 eexists|done].
  - destruct (Z.eqb_spec p (zlen q)) as [E|E]; [by do 3 eexists|].
    destruct (processRequestLine_total (request_ c) (take (Z.to_nat p) q)) as (r & okl & ->); [auto|].
    simpl. destruct okl; [|by do 3 eexists]. apply IH; [by split|]. by apply Hdec.
  - destruct (Z.eqb_spec p (zlen q)) as [E|E]; [by do 3 eexists|].
    destruct (negb _); [|by do 3 eexists]. apply IH; [by split|]. by apply Hdec.
Qed.

Lemma pure_gotAll fuel c q tm ok : state_ c = kGotAll -> pure_loop fuel c q tm ok = Fault OutOfFuel.
Proof. intros Hst. induction fuel as [|fuel IH]; [done|]. cbn [pure_loop]. by rewrite Hst. Qed.

(** More fuel does not change a result. *)
Lemma pure_more fuel k c q tm ok r :
  pure_loop fuel c q tm ok = Ok r -> pure_loop (fuel + k) c q tm ok = Ok r.
Proof.
  revert c q ok. induction fuel as [|fuel IH]; intros c q ok; [done|]. cbn [pure_loop Nat.add].
  destruct (state_ c); [| |done|by apply IH].
  - case_match; [done|]. destruct (processRequestLine _ _) as [[r0 okl]|f]; simpl; [|done].
    destruct okl; [by apply IH|done].
  - case_match; [done|]. case_match; [by apply IH|done].
Qed.

(** ** Segmentation *)
Lemma split_line q r p :
  p = std_search [CR; LF] q -> p <> zlen q ->
  std_search [CR; LF] (q ++ r) = p /\ p <> zlen (q ++ r) /\
  take (Z.to_nat p) (q ++ r) = take (Z.to_nat p) q /\
  drop (Z.to_nat (p + 2)) (q ++ r) = drop (Z.to_nat (p + 2)) q ++ r.
Proof.
  intros -> Hne. pose proof (std_search_range [CR; LF] q). pose proof (Buffer.CRLF_fits q Hne) as Hfit.
  unfold Buffer.kCRLF in Hfit. pose proof (zlen_nonneg r).
  rewrite std_search_app by lia. rewrite zlen_app. split_and!; [done|lia| |].
  - apply take_app_le. unfold zlen in *. lia.
  - apply drop_app_le. unfold zlen in *. lia.
Qed.

(** Parsing what has arrived and going on when more arrives is parsing it all. *)
Lemma pure_segment fuel c q tm c1 q1 r g res :
  pure_loop fuel c q tm true = Ok (true, c1, q1) -> state_ c1 <> kGotAll ->
  pure_loop g c1 (q1 ++ r) tm true = Ok res -> pure_loop (fuel + g) c (q ++ r) tm true = Ok res.
Proof.
  revert c q. induction fuel as [|fuel IH]; intros c q Hl Hg Hr; [done|].
  assert (forall c0 q0, Ok (true, c0, q0) = Ok (true, c1, q1) ->
            pure_loop (S fuel + g) c0 (q0 ++ r) tm true = Ok res) as Hstop.
  { intros c0 q0 E. simplify_eq. rewrite Nat.add_comm. by apply pure_more. }
  cbn [pure_loop] in Hl. destruct (state_ c) eqn:Hst.
  - destruct (Z.eqb_spec (std_search [CR; LF] q) (zlen q)) as [E|E]; [by apply Hstop|].
    destruct (split_line q r _ eq_refl E) as (Hs & Hne & Ht & Hd).
    cbn [Nat.add pure_loop]. rewrite Hst, Hs, Ht, Hd. rewrite (proj2 (Z.eqb_neq _ _)) by done.
    destruct (processRequestLine _ _) as [[r0 okl]|f]; simpl in *; [|done].
    destruct okl; [|done]. by apply IH.
  - destruct (Z.eqb_spec (std_search [CR; LF] q) (zlen q)) as [E|E]; [by apply Hstop|].
    destruct (split_line q r _ eq_refl E) as (Hs & Hne & Ht & Hd).
    cbn [Nat.add pure_loop]. rewrite Hst, Hs, Ht, Hd. rewrite (proj2 (Z.eqb_neq _ _)) by done.
    revert Hl. destruct (negb _); intros Hl; [by apply IH|]. destruct Hg. by injection Hl as <- _.
  - by apply Hstop.
  - by rewrite (pure_gotAll fuel c q tm true Hst) in Hl.
Qed.

(** ** Requests as text *)
Definition method_text (m : HttpRequest.Method) : bytes :=
  match m with
  | HttpRequest.kGet => str "GET" | HttpRequest.kPost => str "POST" | HttpRequest.kHead => str "HEAD"
  | HttpRequest.kPut => str "PUT" | HttpRequest.kDelete => str "DELETE" | HttpRequest.kInvalid => []
  end.
Definition version_text (v : HttpRequest.Version) : bytes :=
  match v with
  | HttpRequest.kHttp10 => str "HTTP/1.0" | HttpRequest.kHttp11 => str "HTTP/1.1"
  | HttpRequest.kUnknown => []
  end.

Definition request_line (m : HttpRequest.Method) (target : bytes) (v : HttpRequest.Version) : bytes :=
  method_text m ++ [SP] ++ target ++ [SP] ++ version_text v.

Fixpoint header_lines (hs : list bytes) : bytes :=
  match hs with [] => [] | h :: rest => h ++ [CR; LF] ++ header_lines rest end.

Definition request_text (m : HttpRequest.Method) (target : bytes) (v : HttpRequest.Version) (hs : list bytes) : bytes :=
  request_line m target v ++ [CR; LF] ++ header_lines hs ++ [CR; LF].

Definition no_byte (c : byte) (s : bytes) : Prop := Forall (fun x => x <> c) s.
(** A header line has a colon and no CR. *)
Definition header_ok (h : bytes) : Prop := no_byte CR h /\ ":"%char ∈ h.

(** The header lines are given to [addHeader] one after the other. *)
Definition add_header (r : HttpRequest.t) (h : bytes) : HttpRequest.t :=
  HttpRequest.addHeader r h (std_find ":"%char h).
Definition parsed (m : HttpRequest.Method) (target : bytes) (v : HttpRequest.Version) (hs : list bytes) (tm : Z)
  : HttpRequest.t :=
  foldl add_header
    {| HttpRequest.method_ := m; HttpRequest.version_ := v; HttpRequest.path_ := target;
       HttpRequest.query_ := []; HttpRequest.receiveTime_ := tm; HttpRequest.headers_ := [] |} hs.

Lemma find_present c s : c ∈ s -> std_find c s < zlen s.
Proof.
  induction s as [|x s IH]; [by intros ?%not_elem_of_nil|].
  rewrite zlen_cons. simpl. pose proof (zlen_nonneg s). intros [->|Hin]%elem_of_cons.
  - rewrite Ascii.eqb_refl. lia.
  - specialize (IH Hin). case_match; lia.
Qed.

Lemma method_text_ok m :
  m <> HttpRequest.kInvalid -> no_byte SP (method_text m) /\ HttpRequest.method_of (method_text m) = m.
Proof. intros Hm. destruct m; try done; (split; [by repeat constructor|done]). Qed.

Lemma processRequestLine_ok r m target v :
  HttpRequest.method_ r = HttpRequest.kInvalid -> m <> HttpRequest.kInvalid ->
  v <> HttpRequest.kUnknown -> no_byte SP target ->
  processRequestLine r (request_line m target v) =
    Ok (HttpRequest.setVersion (HttpRequest.setPath (HttpRequest.set_method r m) target) v, true).
Proof.
  intros Hr Hm Hv Ht. destruct (method_text_ok m Hm) as [Hsp Hof].
  set (mt := method_text m) in *. set (vt := version_text v).
  assert (zlen vt = 8) as Hvt by (unfold vt; by destruct v).
  assert (request_line m target v = mt ++ SP :: target ++ SP :: vt) as Hline by done.
  set (line := request_line m target v) in *.
  pose proof (zlen_nonneg mt). pose proof (zlen_nonneg target).
  assert (zlen line = zlen mt + zlen target + 10) as Hlen
    by (rewrite Hline, zlen_app, zlen_cons, zlen_app, zlen_cons, Hvt; lia).
  assert (std_find SP line = zlen mt) as Hf1 by (rewrite Hline; by apply std_find_app).
  assert (sub 0 (zlen mt) line = mt) as Hs1 by (rewrite Hline; by apply sub_app_length).
  assert (forall n k, n = zlen mt + 1 -> k = zlen target + 9 -> sub n k line = target ++ SP :: vt) as Hs2.
  { intros n k -> ->. rewrite Hline. change (mt ++ SP :: target ++ SP :: vt) with (mt ++ [SP] ++ target ++ SP :: vt).
    rewrite app_assoc. apply sub_suffix; [by rewrite zlen_app|rewrite zlen_app, zlen_cons, Hvt; lia]. }
  assert (forall n k, n = zlen mt + 1 -> k = zlen target -> sub n k line = target) as Hs3.
  { intros n k -> ->. rewrite Hline. change (mt ++ SP :: target ++ SP :: vt) with (mt ++ [SP] ++ target ++ SP :: vt).
    rewrite app_assoc. apply sub_middle; [by rewrite zlen_app|done]. }
  assert (forall n k, n = zlen mt + 1 + zlen target + 1 -> k = 7 -> sub n k line = str "HTTP/1.") as Hs4.
  { intros n k -> ->. rewrite Hline.
    replace (mt ++ SP :: target ++ SP :: vt) with ((mt ++ [SP] ++ target ++ [SP]) ++ str "HTTP/1." ++ drop 7 vt).
    - apply sub_middle; [rewrite !zlen_app; change (zlen [SP]) with 1; lia|done].
    - rewrite <- !app_assoc. simpl. unfold vt. by destruct v. }
  assert (line !! Z.to_nat (zlen line - 1) = vt !! 7%nat) as Hlast.
  { rewrite Hlen, Hline. change (mt ++ SP :: target ++ SP :: vt) with (mt ++ [SP] ++ target ++ [SP] ++ vt).
    rewrite !app_assoc. rewrite lookup_app_r; rewrite ?length_app; unfold zlen in *; simpl; [f_equal|]; lia. }
  unfold processRequestLine. cbv zeta. rewrite Hf1, Hs1. rewrite (proj2 (Z.eqb_neq _ _)) by lia.
  unfold HttpRequest.setMethod. rewrite assert_pass by by apply bool_decide_eq_true_2.
  cbn [mbind outcome_bind mret outcome_ret fst snd].
  rewrite Hof. simpl (HttpRequest.method_ _). rewrite bool_decide_eq_false_2 by done. cbn [negb].
  rewrite (Hs2 (zlen mt + 1)) by lia. rewrite std_find_app by done.
  rewrite (proj2 (Z.eqb_neq _ _)) by lia.
  rewrite (Hs3 (zlen mt + 1)) by lia. rewrite std_find_absent by done. rewrite Z.eqb_refl. cbn [negb].
  rewrite (Hs4 (zlen mt + 1 + zlen target + 1)) by lia.
  rewrite (proj2 (Z.eqb_eq (zlen line - _) 8)) by lia. rewrite bool_decide_eq_true_2 by done. cbn [andb].
  rewrite Hlast. unfold vt. by destruct v.
Qed.

Lemma no_CR_line m target v :
  m <> HttpRequest.kInvalid -> v <> HttpRequest.kUnknown -> no_byte CR target -> no_byte CR (request_line m target v).
Proof.
  intros Hm Hv Ht. unfold request_line, no_byte. rewrite !Forall_app. split_and!; try done.
  - destruct m; by repeat constructor.
  - by repeat constructor.
  - by repeat constructor.
  - destruct v; by repeat constructor.
Qed.

(** Taking one line off the front. *)
Lemma line_step line r :
  no_byte CR line ->
  std_search [CR; LF] (line ++ [CR; LF] ++ r) = zlen line /\
  zlen line <> zlen (line ++ [CR; LF] ++ r) /\
  take (Z.to_nat (zlen line)) (line ++ [CR; LF] ++ r) = line /\
  drop (Z.to_nat (zlen line + 2)) (line ++ [CR; LF] ++ r) = r.
Proof.
  intros Hl. split_and!.
  - by apply std_search_line.
  - rewrite !zlen_app. change (zlen [CR; LF]) with 2. pose proof (zlen_nonneg r). lia.
  - unfold zlen. rewrite Nat2Z.id. apply take_app_length.
  - rewrite app_assoc. apply drop_app_length'. rewrite length_app. unfold zlen. simpl. lia.
Qed.

Lemma pure_headers hs req r tm ok fuel :
  Forall header_ok hs -> (length hs < fuel)%nat ->
  pure_loop fuel {| state_ := kExpectHeaders; request_ := req |} (header_lines hs ++ [CR; LF] ++ r) tm ok =
    Ok (ok, {| state_ := kGotAll; request_ := foldl add_header req hs |}, r).
Proof.
  intros Hhs. revert fuel req. induction Hhs as [|h hs [Hcr Hcol] _ IH]; intros fuel req Hf;
    (destruct fuel as [|fuel]; [simpl in Hf; lia|]).
  - simpl header_lines. cbn [pure_loop state_ request_]. destruct (line_step [] r) as (Hs & Hne & Ht & Hd); [constructor|].
    simpl app in *. rewrite Hs, Ht, Hd. rewrite (proj2 (Z.eqb_neq _ _)) by done. done.
  - replace (header_lines (h :: hs) ++ [CR; LF] ++ r) with (h ++ [CR; LF] ++ header_lines hs ++ [CR; LF] ++ r)
      by (simpl; by rewrite <- app_assoc).
    cbn [pure_loop state_ request_].
    destruct (line_step h (header_lines hs ++ [CR; LF] ++ r) Hcr) as (Hs & Hne & Ht & Hd).
    rewrite Hs, Ht, Hd. rewrite (proj2 (Z.eqb_neq _ _)) by done.
    pose proof (find_present _ _ Hcol). rewrite (proj2 (Z.eqb_neq _ _)) by lia. cbn [negb].
    apply IH. simpl in Hf. lia.
Qed.

Lemma pure_parsed m target v hs r tm fuel :
  m <> HttpRequest.kInvalid -> v <> HttpRequest.kUnknown -> no_byte SP target -> no_byte CR target ->
  Forall header_ok hs -> (S (length hs) < fuel)%nat ->
  pure_loop fuel new (request_text m target v hs ++ r) tm true =
    Ok (true, {| state_ := kGotAll; request_ := parsed m target v hs tm |}, r).
Proof.
  intros Hm Hv Hsp Hcr Hhs Hf. destruct fuel as [|fuel]; [lia|]. unfold request_text.
  rewrite <- !app_assoc. cbn [pure_loop new state_ request_].
  destruct (line_step (request_line m target v) (header_lines hs ++ [CR; LF] ++ r)) as (Hs & Hne & Ht & Hd);
    [by apply no_CR_line|].
  rewrite Hs, Ht, Hd. rewrite (proj2 (Z.eqb_neq _ _)) by done.
  rewrite processRequestLine_ok by done. cbn [mbind outcome_bind fst snd].
  rewrite pure_headers by (done || lia). done.
Qed.

(** [addHeader] stores nothing, as it is written. *)
Lemma headers_lost r hs : foldl add_header r hs = r.
Proof. revert r. by induction hs as [|h hs IH]; intros r; [|apply IH]. Qed.

Lemma pure_request m target v hs r tm fuel :
  m <> HttpRequest.kInvalid -> v <> HttpRequest.kUnknown -> no_byte SP target -> no_byte CR target ->
  Forall header_ok hs -> (S (length hs) < fuel)%nat ->
  pure_loop fuel new (request_text m target v hs ++ r) tm true =
    Ok (true, {| state_ := kGotAll; request_ :=
      {| HttpRequest.method_ := m; HttpRequest.version_ := v; HttpRequest.path_ := target;
         HttpRequest.query_ := []; HttpRequest.receiveTime_ := tm; HttpRequest.headers_ := [] |} |}, r).
Proof. intros. rewrite pure_parsed by done. unfold parsed. by rewrite headers_lost. Qed.

Lemma pure_ready fuel c q tm c1 q1 :
  ready c -> pure_loop fuel c q tm true = Ok (true, c1, q1) -> state_ c1 <> kGotAll -> ready c1.
Proof.
  revert c q. induction fuel as [|fuel IH]; intros c q Hr Hl Hg; [done|]. cbn [pure_loop] in Hl.
  pose proof Hr as [Hng Hm]. destruct (state_ c) eqn:Hst.
  - destruct (_ =? zlen q); [by injection Hl as <- <-|].
    destruct (processRequestLine _ _) as [[r okl]|f]; simpl in Hl; [|done].
    destruct okl; [|done]. eapply IH; [|exact Hl|done]. by split.
  - destruct (_ =? zlen q); [by injection Hl as <- <-|].
    revert Hl. destruct (negb _); intros Hl; [eapply IH; [|exact Hl|done]; by split|]. destruct Hg. by injection Hl as <- _.
  - by injection Hl as <- <-.
  - done.
Qed.

(** A refused request line leaves the bytes where they are. *)
Lemma pure_refused fuel c q tm c1 q1 :
  ready c -> pure_loop fuel c q tm true = Ok (false, c1, q1) ->
  q1 = q /\ state_ c1 = kExpectRequestLine /\ std_search [CR; LF] q <> zlen q /\
  HttpRequest.method_ (request_ c) = HttpRequest.kInvalid /\
  processRequestLine (request_ c) (take (Z.to_nat (std_search [CR; LF] q)) q) = Ok (request_ c1, false).
Proof.
  assert (forall f c0 q0, state_ c0 = kExpectHeaders -> pure_loop f c0 q0 tm true <> Ok (false, c1, q1)) as Hh.
  { intros f. induction f as [|f IH]; intros c0 q0 Hst; [done|]. cbn [pure_loop]. rewrite Hst.
    destruct (_ =? zlen q0); [done|]. destruct (negb _); [|done]. by apply IH. }
  intros [Hng Hm] Hl. destruct fuel as [|fuel]; [done|]. cbn [pure_loop] in Hl. destruct (state_ c) eqn:Hst.
  - destruct (Z.eqb_spec (std_search [CR; LF] q) (zlen q)) as [|E]; [done|].
    destruct (processRequestLine _ _) as [[r okl]|f] eqn:Hp; simpl in Hl; [|done].
    destruct okl; [by apply Hh in Hl|]. injection Hl as <- <-. split_and!; auto.
  - destruct (_ =? zlen q); [done|]. revert Hl. destruct (negb _); intros Hl; [by apply Hh in Hl|done].
  - done.
  - done.
Qed.

Lemma again_asserts r r' line :
  HttpRequest.method_ r = HttpRequest.kInvalid -> processRequestLine r line = Ok (r', false) ->
  HttpRequest.method_ r' <> HttpRequest.kInvalid -> processRequestLine r' line = Fault AssertFailed.
Proof.
  intros Hr Hp Hr'. unfold processRequestLine in *. cbv zeta in *.
  destruct (std_find SP line =? zlen line); [by injection Hp as <-|].
  unfold HttpRequest.setMethod at 1. rewrite assert_stop; [done|]. by apply bool_decide_eq_false_2.
Qed.

Lemma enough_holds b q : Buffer.holds b q -> Z.of_nat (enough b) = zlen q + 2.
Proof.
  intros Hh. unfold enough. rewrite (Buffer.readable_content b q Hh). pose proof (zlen_nonneg q). lia.
Qed.

Lemma length_header_lines hs : (length hs <= length (header_lines hs))%nat.
Proof. induction hs as [|h hs IH]; [done|]. simpl. rewrite length_app. simpl. lia. Qed.

Lemma enough_request b m target v hs rest :
  Buffer.holds b (request_text m target v hs ++ rest) -> (S (length hs) < enough b)%nat.
Proof.
  intros Hh. pose proof (enough_holds b _ Hh) as He. pose proof (length_header_lines hs).
  unfold request_text in He. rewrite !zlen_app in He. unfold zlen in He. simpl in He. lia.
Qed.


Definition demo_text : bytes :=
  request_text HttpRequest.kGet (str "/index.html?x=1") HttpRequest.kHttp11 [str "Host: a"] ++ str "GET".

Definition demo_buffer (s : bytes) : Buffer.t :=
  match Buffer.append (Buffer.new Buffer.kInitialSize) s with Ok b => b | Fault _ => Buffer.new 0 end.

Lemma demo_holds s : zlen s <= 4096 -> Buffer.holds (demo_buffer s) s.
Proof.
  intros Hs. unfold demo_buffer.
  destruct (Buffer.append_spec (Buffer.new Buffer.kInitialSize) [] s) as (b & -> & Hh & _).
  - apply Buffer.new_holds; unfold Buffer.kInitialSize, Buffer.kCheapPrepend, Buffer.max_size; lia.
  - unfold Buffer.room. rewrite Buffer.zlen_new. unfold Buffer.max_size. lia.
  - done.
Qed.


(** The request of [testParseRequestAllInOne] in net/http/tests/http_request_test.cpp: it is
    parsed, and [getHeader("Host")] is not "www.lwj.com". *)
Definition test_text : bytes :=
  request_text HttpRequest.kGet (str "/index.html") HttpRequest.kHttp11 [str "Host: www.lwj.com"].
Example host_header_lost :
  match parseRequest (enough (demo_buffer test_text)) new (demo_buffer test_text) 9 with
  | Ok (ok, c, _) => ok = true /\ gotAll c = true /\ HttpRequest.path_ (request_ c) = str "/index.html" /\
      HttpRequest.getHeader (request_ c) (str "Host") = []
  | Fault _ => False
  end.
Proof. vm_compute. done. Qed.

(** The result does not depend on how the transport cuts the stream: parsing
    what has arrived, then going on when more bytes arrive, gives the request, the
    verdict and the leftover bytes of parsing everything at once. *)
Theorem http_parse_segmentation c b1 q r b1' c1 b2 b3 tm :
  ready c -> Buffer.holds b1 q -> parseRequest (enough b1) c b1 tm = Ok (true, c1, b1') ->
  state_ c1 <> kGotAll ->
  Buffer.holds b2 (Buffer.content b1' ++ r) -> Buffer.holds b3 (q ++ r) ->
  exists ok c' b2' b3' rest,
    parseRequest (enough b2) c1 b2 tm = Ok (ok, c', b2') /\ Buffer.holds b2' rest /\
    parseRequest (enough b3) c b3 tm = Ok (ok, c', b3') /\ Buffer.holds b3' rest.
Proof.
  unfold parseRequest. intros Hr Hb1 H1 Hg Hb2 Hb3.
  pose proof (parse_loop_pure (enough b1) c b1 q tm true Hb1) as P1.
  destruct (pure_loop (enough b1) c q tm true) as [[[ok1 c1'] q1]|f] eqn:E1; [|congruence].
  destruct P1 as (b1'' & E1' & [_ Hc1] & _). rewrite H1 in E1'. simplify_eq.
  pose proof (pure_ready _ _ _ _ _ _ Hr E1 Hg) as Hr1.
  destruct (pure_total (enough b2) c1' (Buffer.content b1'' ++ r) tm true Hr1) as (ok & c' & q' & E2).
  { rewrite (enough_holds b2 _ Hb2). lia. }
  destruct (pure_total (enough b3) c (q ++ r) tm true Hr) as (ok3 & c3 & q3 & E3).
  { rewrite (enough_holds b3 _ Hb3). lia. }
  pose proof (pure_segment _ _ _ _ _ _ _ _ _ E1 Hg E2) as Eall.
  pose proof (pure_more (enough b3) (enough b1 + enough b2) c (q ++ r) tm true _ E3) as Ebig.
  apply (pure_more _ (enough b3)) in Eall. rewrite Nat.add_comm in Eall. rewrite Eall in Ebig. simplify_eq.
  pose proof (parse_loop_pure (enough b2) c1' b2 _ tm true Hb2) as P2. rewrite E2 in P2.
  pose proof (parse_loop_pure (enough b3) c b3 _ tm true Hb3) as P3. rewrite E3 in P3.
  destruct P2 as (b2' & ? & ? & _). destruct P3 as (b3' & ? & ? & _). eauto 10.
Qed.

Lemma http_parse_segmentation_witness :
  exists ok c' b2' b3' rest,
    parseRequest (enough (demo_buffer (str "GET / HT" ++ str "TP/1.1"))) new
      (demo_buffer (str "GET / HT" ++ str "TP/1.1")) 9 = Ok (ok, c', b2') /\ Buffer.holds b2' rest /\
    parseRequest (enough (demo_buffer (str "GET / HTTP/1.1"))) new (demo_buffer (str "GET / HTTP/1.1")) 9
      = Ok (ok, c', b3') /\ Buffer.holds b3' rest.
Proof.
  apply (http_parse_segmentation new (demo_buffer (str "GET / HT")) (str "GET / HT") (str "TP/1.1")
    (demo_buffer (str "GET / HT")) new (demo_buffer (str "GET / HT" ++ str "TP/1.1"))
    (demo_buffer (str "GET / HTTP/1.1")) 9).
  - split; done.
  - apply demo_holds. by vm_compute.
  - by vm_compute.
  - done.
  - assert (Buffer.content (demo_buffer (str "GET / HT")) = str "GET / HT") as -> by by vm_compute.
    apply demo_holds. by vm_compute.
  - apply demo_holds. by vm_compute.
Defined.

(** A context that a refused line has left: the next request line finds a method set. *)
Definition poisoned (c : t) : Prop :=
  state_ c = kExpectRequestLine /\ HttpRequest.method_ (request_ c) <> HttpRequest.kInvalid.

(** The bytes begin with a complete line that has a space. *)
Definition names_method (q : bytes) : bool :=
  let crlf := std_search [CR; LF] q in
  let line := take (Z.to_nat crlf) q in
  negb (crlf =? zlen q) && negb (std_find SP line =? zlen line).

Lemma pure_poisoned fuel c q tm :
  poisoned c ->
  if names_method q then pure_loop (S fuel) c q tm true = Fault AssertFailed
  else exists ok, pure_loop (S fuel) c q tm true = Ok (ok, c, q).
Proof.
  intros [Hs Hm]. unfold names_method. cbn [pure_loop]. rewrite Hs.
  destruct (std_search [CR; LF] q =? zlen q); simpl; [by exists true|]. unfold processRequestLine. cbv zeta.
  destruct (std_find SP _ =? zlen _) eqn:E; simpl.
  - exists false. destruct c as [st r]. simpl in *. by subst st.
  - unfold HttpRequest.setMethod. rewrite assert_stop; [done|]. by apply bool_decide_eq_false_2.
Qed.

(** C38. What [parseRequest] does from every context whatsoever.  From one that waits
    for a request line with no method set, for headers or for a body, it returns, within
    a number of turns bounded by the bytes in the buffer.  From one that a refused
    request line has left (its method is set), it fails the assertion of [setMethod] when
    the buffer holds a complete line with a space, and returns in one turn otherwise.
    From one that already has a whole request it never returns. *)
Theorem http_parse_terminates c b q tm :
  Buffer.holds b q ->
  (ready c /\ succeeds (parseRequest (enough b) c b tm)) \/
  (poisoned c /\ forall fuel, if names_method q then parseRequest (S fuel) c b tm = Fault AssertFailed
                              else succeeds (parseRequest (S fuel) c b tm)) \/
  (state_ c = kGotAll /\ forall fuel, parseRequest fuel c b tm = Fault OutOfFuel).
Proof.
  intros Hh. unfold parseRequest, ready, poisoned.
  destruct (decide (state_ c = kGotAll)) as [Hg|Hg].
  { right; right. split; [done|]. intros fuel. pose proof (parse_loop_pure fuel c b q tm true Hh) as Hp.
    by rewrite pure_gotAll in Hp. }
  destruct (decide (state_ c = kExpectRequestLine /\ HttpRequest.method_ (request_ c) <> HttpRequest.kInvalid)) as [Hb|Hb].
  - right; left. split; [done|]. intros fuel. pose proof (pure_poisoned fuel c q tm Hb) as Hp.
    pose proof (parse_loop_pure (S fuel) c b q tm true Hh) as Hl. destruct (names_method q); [by rewrite Hp in Hl|].
    destruct Hp as [ok Hp]. rewrite Hp in Hl. destruct Hl as (b' & ? & _). by eexists.
  - left. assert (ready c) as Hr.
    { split; [done|]. intros Hs. destruct (decide (HttpRequest.method_ (request_ c) = HttpRequest.kInvalid)); tauto. }
    split; [done|]. pose proof (parse_loop_pure (enough b) c b q tm true Hh) as Hp.
    destruct (pure_total (enough b) c q tm true Hr) as (ok & c' & q' & E).
    { rewrite (enough_holds b q Hh). lia. }
    rewrite E in Hp. destruct Hp as (b' & ? & _). by eexists.
Qed.

Lemma http_parse_terminates_witness : succeeds (parseRequest (enough (demo_buffer demo_text)) new (demo_buffer demo_text) 9).
Proof.
  destruct (http_parse_terminates new (demo_buffer demo_text) demo_text 9) as [[_ H]|[[[_ H] _]|[H _]]];
    [apply demo_holds; by vm_compute|exact H|by destruct H|done].
Defined.

(** A request line whose method is known but whose rest is not acceptable
    poisons the connection: it is reported as an error, the line stays in the
    buffer and the method stays set, so the next bytes that arrive make
    [parseRequest] fail the assertion of [setMethod]. *)
Theorem http_refused_then_abort fuel c b q tm c1 b1 r b2 fuel' :
  ready c -> Buffer.holds b q -> parseRequest fuel c b tm = Ok (false, c1, b1) ->
  HttpRequest.method_ (request_ c1) <> HttpRequest.kInvalid -> Buffer.holds b2 (Buffer.content b1 ++ r) ->
  parseRequest (S fuel') c1 b2 tm = Fault AssertFailed.
Proof.
  unfold parseRequest. intros Hr Hb Hp Hm Hb2. pose proof (parse_loop_pure fuel c b q tm true Hb) as P.
  destruct (pure_loop fuel c q tm true) as [[[ok1 c1'] q1]|f] eqn:E; [|congruence].
  destruct P as (b1' & Hp' & [_ Hc1] & _). rewrite Hp in Hp'. simplify_eq.
  destruct (pure_refused _ _ _ _ _ _ Hr E) as (Hq & Hst & Hne & Hinv & Hline).
  rewrite Hq in *. destruct (split_line q r _ eq_refl Hne) as (Hs & Hne' & Ht & _).
  pose proof (parse_loop_pure (S fuel') c1' b2 (q ++ r) tm true Hb2) as P2. cbn [pure_loop] in P2.
  rewrite Hst, Hs, Ht in P2. rewrite (proj2 (Z.eqb_neq _ _)) in P2 by done.
  by rewrite (again_asserts _ _ _ Hinv Hline Hm) in P2.
Qed.

Definition bad_text : bytes := str "GET / HTTP/2.0" ++ [CR; LF].

Lemma http_refused_then_abort_witness :
  exists c1, parseRequest 3 new (demo_buffer bad_text) 9 = Ok (false, c1, demo_buffer bad_text) /\
    parseRequest 1 c1 (demo_buffer (bad_text ++ str "x")) 9 = Fault AssertFailed.
Proof.
  eexists. split; [by vm_compute|].
  eapply (http_refused_then_abort 3 new (demo_buffer bad_text) bad_text 9 _ (demo_buffer bad_text) (str "x")).
  - split; done.
  - apply demo_holds. by vm_compute.
  - by vm_compute.
  - done.
  - assert (Buffer.content (demo_buffer bad_text) = bad_text) as -> by by vm_compute.
    apply demo_holds. by vm_compute.
Defined.
End HttpContext.

(** ** [HttpResponse] *)
Module HttpResponse.
Import Num2String CTime.

Definition kUnknown : Z := 0.
Definition k2000k : Z := 200.
Definition k301MovePermanently : Z := 400.
Definition k400BadRequest : Z := 400.
Definition k404NotFound : Z := 404.

Record t := mk {
  headers_ : list (bytes * bytes);
  statusCode_ : Z;
  statusMessage_ : bytes;
  closeConnection_ : bool;
  body_ : bytes;
}.

Definition new (close : bool) : t :=
  {| headers_ := []; statusCode_ := kUnknown; statusMessage_ := []; closeConnection_ := close; body_ := [] |}.

Definition setStatusCode (r : t) (x : Z) : t :=
  mk (headers_ r) x (statusMessage_ r) (closeConnection_ r) (body_ r).
Definition setStatusMessage (r : t) (x : bytes) : t :=
  mk (headers_ r) (statusCode_ r) x (closeConnection_ r) (body_ r).
Definition setCloseConnection (r : t) (x : bool) : t :=
  mk (headers_ r) (statusCode_ r) (statusMessage_ r) x (body_ r).
Definition addHeader (r : t) (key value : bytes) : t :=
  mk (StringMap.set key value (headers_ r)) (statusCode_ r) (statusMessage_ r) (closeConnection_ r) (body_ r).
Definition setContentType (r : t) (x : bytes) : t := addHeader r (str "Content-type") x.
Definition setBody (r : t) (x : bytes) : t :=
  mk (headers_ r) (statusCode_ r) (statusMessage_ r) (closeConnection_ r) x.

Definition CRLF : bytes := [CR; LF].

Fixpoint append_headers (b : Buffer.t) (hs : list (bytes * bytes)) : outcome Buffer.t :=
  match hs with
  | [] => mret b
  | (k, v) :: rest =>
      b ← Buffer.append b k ;
      b ← Buffer.append b (str ": ") ;
      b ← Buffer.append b v ;
      b ← Buffer.append b CRLF ;
      append_headers b rest
  end.

Definition appendToBuffer (r : t) (b : Buffer.t) : outcome Buffer.t :=
  b ← Buffer.append b (snprintf 32 (str "HTTP/1.1 " ++ fmt_d true 0 (statusCode_ r))) ;
  b ← Buffer.append b (statusMessage_ r) ;
  b ← Buffer.append b CRLF ;
  b ← (if closeConnection_ r then Buffer.append b (str "Connection: close" ++ CRLF)
       else
         b ← Buffer.append b (snprintf 32 (str "Content-Length: " ++ fmt_d true 0 (zlen (body_ r)) ++ CRLF)) ;
         Buffer.append b (str "Connection: Keep-Alive" ++ CRLF)) ;
  b ← append_headers b (headers_ r) ;
  b ← Buffer.append b CRLF ;
  Buffer.append b (body_ r).

(** ** The text of a response *)
Fixpoint headers_text (hs : list (bytes * bytes)) : bytes :=
  match hs with [] => [] | (k, v) :: rest => k ++ str ": " ++ v ++ CRLF ++ headers_text rest end.

Definition status_text (r : t) : bytes := snprintf 32 (str "HTTP/1.1 " ++ fmt_d true 0 (statusCode_ r)).
Definition length_text (r : t) : bytes :=
  snprintf 32 (str "Content-Length: " ++ fmt_d true 0 (zlen (body_ r)) ++ CRLF).

Definition connection_text (r : t) : bytes :=
  if closeConnection_ r then str "Connection: close" ++ CRLF
  else length_text r ++ str "Connection: Keep-Alive" ++ CRLF.

Definition head_text (r : t) : bytes :=
  status_text r ++ statusMessage_ r ++ CRLF ++ connection_text r ++ headers_text (headers_ r).
Definition response_text (r : t) : bytes := head_text r ++ CRLF ++ body_ r.

Lemma append_headers_ok b q hs n :
  Buffer.holds b q -> Buffer.room b (zlen (headers_text hs) + n) -> 0 <= n ->
  exists b', append_headers b hs = Ok b' /\ Buffer.holds b' (q ++ headers_text hs) /\ Buffer.room b' n.
Proof.
  revert b q. induction hs as [|[k v] hs IH]; intros b q Hh Hr Hn; cbn [append_headers headers_text] in *.
  { exists b. rewrite app_nil_r. done. }
  pose proof (zlen_nonneg (headers_text hs)). pose proof (zlen_nonneg v).
  pose proof (zlen_nonneg (str ": ")). pose proof (zlen_nonneg CRLF).
  rewrite !zlen_app, <- !Z.add_assoc in Hr.
  destruct (Buffer.append_within b q k _ Hh Hr) as (b1 & -> & K1 & R1); [lia|]. rewrite bind_ok.
  destruct (Buffer.append_within b1 _ (str ": ") _ K1 R1) as (b2 & -> & K2 & R2); [lia|]. rewrite bind_ok.
  destruct (Buffer.append_within b2 _ v _ K2 R2) as (b3 & -> & K3 & R3); [lia|]. rewrite bind_ok.
  destruct (Buffer.append_within b3 _ CRLF _ K3 R3) as (b4 & -> & K4 & R4); [lia|]. rewrite bind_ok.
  destruct (IH b4 _ K4 R4 Hn) as (b5 & -> & K5 & R5). exists b5. split_and!; try done.
  by rewrite <- !app_assoc in K5.
Qed.

Lemma append_connection_ok r b q n :
  Buffer.holds b q -> Buffer.room b (zlen (connection_text r) + n) -> 0 <= n ->
  exists b', (if closeConnection_ r then Buffer.append b (str "Connection: close" ++ CRLF)
       else
         b ← Buffer.append b (length_text r) ;
         Buffer.append b (str "Connection: Keep-Alive" ++ CRLF)) = Ok b' /\
    Buffer.holds b' (q ++ connection_text r) /\ Buffer.room b' n.
Proof.
  unfold connection_text. intros Hh Hr Hn. destruct (closeConnection_ r).
  - by apply Buffer.append_within.
  - rewrite zlen_app, <- Z.add_assoc in Hr.
    pose proof (zlen_nonneg (str "Connection: Keep-Alive" ++ CRLF)).
    destruct (Buffer.append_within b q (length_text r) _ Hh Hr) as (b1 & -> & K1 & R1); [lia|].
    rewrite bind_ok, app_assoc. by apply Buffer.append_within.
Qed.

Lemma appendToBuffer_ok r b q :
  Buffer.holds b q -> Buffer.room b (zlen (response_text r)) ->
  exists b', appendToBuffer r b = Ok b' /\ Buffer.holds b' (q ++ response_text r).
Proof.
  intros Hh Hr. unfold response_text, head_text in Hr. rewrite !zlen_app, <- !Z.add_assoc in Hr.
  pose proof (zlen_nonneg (body_ r)). pose proof (zlen_nonneg (headers_text (headers_ r))).
  pose proof (zlen_nonneg (connection_text r)). pose proof (zlen_nonneg (statusMessage_ r)).
  pose proof (zlen_nonneg CRLF). unfold appendToBuffer. fold (status_text r) (length_text r).
  destruct (Buffer.append_within b q (status_text r) _ Hh Hr) as (b1 & -> & K1 & R1); [lia|]. rewrite bind_ok.
  destruct (Buffer.append_within b1 _ (statusMessage_ r) _ K1 R1) as (b2 & -> & K2 & R2); [lia|]. rewrite bind_ok.
  destruct (Buffer.append_within b2 _ CRLF _ K2 R2) as (b3 & -> & K3 & R3); [lia|]. rewrite bind_ok.
  destruct (append_connection_ok r b3 _ _ K3 R3) as (b4 & -> & K4 & R4); [lia|]. rewrite bind_ok.
  destruct (append_headers_ok b4 _ _ _ K4 R4) as (b5 & -> & K5 & R5); [lia|]. rewrite bind_ok.
  destruct (Buffer.append_within b5 _ CRLF (zlen (body_ r)) K5) as (b6 & -> & K6 & R6); [done|lia|].
  rewrite bind_ok. rewrite <- (Z.add_0_r (zlen (body_ r))) in R6.
  destruct (Buffer.append_within b6 _ (body_ r) 0 K6 R6) as (b7 & -> & K7 & _); [lia|].
  exists b7. split; [done|]. unfold response_text, head_text. by rewrite <- !app_assoc in *.
Qed.

(** A response is appended behind what the buffer holds as: the status line
    (code and message without a space between them), the connection and
    user headers, an empty line and the body; on a connection that stays open the
    head announces exactly the length of the body, in decimal. *)
Theorem http_response_text r b q :
  Buffer.holds b q -> Buffer.room b (zlen (response_text r)) -> 0 <= statusCode_ r < 2 ^ 31 ->
  zlen (body_ r) < 10 ^ 13 ->
  exists b', appendToBuffer r b = Ok b' /\
    Buffer.content b' = q ++ (str "HTTP/1.1 " ++ dec (statusCode_ r)) ++ statusMessage_ r ++ CRLF ++
      connection_text r ++ headers_text (headers_ r) ++ CRLF ++ body_ r /\
    (closeConnection_ r = false ->
       connection_text r = str "Content-Length: " ++ dec (zlen (body_ r)) ++ CRLF ++
                           str "Connection: Keep-Alive" ++ CRLF /\
       dec_value (dec (zlen (body_ r))) = zlen (body_ r)).
Proof.
  intros Hh Hr Hcode Hbody. destruct (appendToBuffer_ok r b q Hh Hr) as (b' & Hb & [_ Hc]).
  exists b'. split; [done|]. pose proof (zlen_nonneg (body_ r)).
  assert (forall v, 0 <= v < 10 ^ 13 -> fmt_d true 0 v = dec v /\ zlen (dec v) <= 13) as Hfmt.
  { intros v Hv. split; [apply TimeStamp.fmt_seconds; lia|]. pose proof (zlen_dec 12 v ltac:(lia) Hv). lia. }
  destruct (Hfmt (statusCode_ r)) as [E1 L1]; [lia|]. destruct (Hfmt (zlen (body_ r))) as [E2 L2]; [lia|].
  split.
  - rewrite Hc. unfold response_text, head_text, status_text. rewrite E1. unfold snprintf.
    rewrite take_ge by (rewrite length_app; unfold zlen in L1; simpl (length (str _)); lia).
    by rewrite <- !app_assoc.
  - intros Hclose. split; [|apply dec_value_dec; lia].
    unfold connection_text. rewrite Hclose. unfold length_text. rewrite E2. unfold snprintf.
    rewrite take_ge by (rewrite !length_app; unfold zlen at 1 in L2; change (length (str "Content-Length: ")) with 16%nat;
      change (length CRLF) with 2%nat; lia).
    by rewrite <- !app_assoc.
Qed.

Lemma http_response_text_witness :
  exists b', appendToBuffer (setBody (setStatusMessage (setStatusCode (new false) k404NotFound) (str "Not found"))
      (str "hi")) (Buffer.new Buffer.kInitialSize) = Ok b' /\
    Buffer.content b' = str "HTTP/1.1 404Not found" ++ CRLF ++ str "Content-Length: 2" ++ CRLF ++
      str "Connection: Keep-Alive" ++ CRLF ++ CRLF ++ str "hi".
Proof.
  destruct (http_response_text (setBody (setStatusMessage (setStatusCode (new false) k404NotFound)
      (str "Not found")) (str "hi")) (Buffer.new Buffer.kInitialSize) []) as (b' & Hb & Hc & _).
  - apply Buffer.new_holds; unfold Buffer.kInitialSize, Buffer.kCheapPrepend, Buffer.max_size; lia.
  - unfold Buffer.room. rewrite Buffer.zlen_new. by vm_compute.
  - simpl. unfold k404NotFound. lia.
  - by vm_compute.
  - exists b'. split; [exact Hb|exact Hc].
Defined.
End HttpResponse.

(** ** [HttpServer] *)
Module HttpServer.
Import HttpContext.

(** What the server does to the connection. *)
Inductive conn_action := SendBytes (data : bytes) | ShutdownConnection.

Section server.
(** The user's [httpCallback_]. *)
Variable httpCallback_ : HttpRequest.t -> HttpResponse.t -> HttpResponse.t.

Definition defaultHttpCallback (req : HttpRequest.t) (resp : HttpResponse.t) : HttpResponse.t :=
  HttpResponse.setCloseConnection
    (HttpResponse.setStatusMessage (HttpResponse.setStatusCode resp HttpResponse.k404NotFound)
       (str "Not found")) true.

Definition wants_close (req : HttpRequest.t) : bool :=
  let connection := HttpRequest.getHeader req (str "Connection") in
  bool_decide (connection = str "close") ||
  (bool_decide (HttpRequest.version_ req = HttpRequest.kHttp10) &&
   negb (bool_decide (connection = str "KeepAlive"))).

Definition onRequest (req : HttpRequest.t) : outcome (list conn_action) :=
  let close := wants_close req in
  let response := httpCallback_ req (HttpResponse.new close) in
  buffer ← HttpResponse.appendToBuffer response (Buffer.new Buffer.kInitialSize) ;
  mret ([SendBytes (Buffer.content buffer)] ++
        if HttpResponse.closeConnection_ response then [ShutdownConnection] else []).

(** [onConnection]: a fresh context when the connection is up. *)
Definition onConnection (connected : bool) (context : option t) : option t :=
  if connected then Some new else context.

Definition onMessage (fuel : nat) (c : t) (b : Buffer.t) (receiveTime : Z)
  : outcome (list conn_action * t * Buffer.t) :=
  r ← parseRequest fuel c b receiveTime ;
  match r with
  | (ok, c, b) =>
      let bad := if ok : bool then []
                 else [SendBytes (str "HTTP/1.1 400 Bad Request" ++ HttpResponse.CRLF ++ HttpResponse.CRLF);
                       ShutdownConnection] in
      if gotAll c then
        acts ← onRequest (request_ c) ;
        mret (bad ++ acts, reset c, b)
      else mret (bad, c, b)
  end.

(** A request without stored headers is answered with the text of the response the
    callback makes, HTTP/1.0 being offered for closing. *)
Lemma onRequest_ok req :
  HttpRequest.headers_ req = [] ->
  let resp := httpCallback_ req (HttpResponse.new (bool_decide (HttpRequest.version_ req = HttpRequest.kHttp10))) in
  zlen (HttpResponse.response_text resp) < 2 ^ 62 ->
  onRequest req = Ok ([SendBytes (HttpResponse.response_text resp)] ++
                      if HttpResponse.closeConnection_ resp then [ShutdownConnection] else []).
Proof.
  intros Hh resp Hlen. unfold onRequest.
  assert (wants_close req = bool_decide (HttpRequest.version_ req = HttpRequest.kHttp10)) as ->.
  { unfold wants_close, HttpRequest.getHeader. rewrite Hh. simpl. by rewrite andb_true_r. }
  fold resp. destruct (HttpResponse.appendToBuffer_ok resp (Buffer.new Buffer.kInitialSize) [])
    as (bo & -> & [_ Hc]).
  { apply Buffer.new_holds; unfold Buffer.kInitialSize, Buffer.kCheapPrepend, Buffer.max_size; lia. }
  { unfold Buffer.room. rewrite Buffer.zlen_new. unfold Buffer.max_size. lia. }
  simpl. by rewrite Hc.
Qed.

(** One request, one response: when the buffer starts with a complete request
    the server sends exactly the response its callback builds for it, shuts the
    connection down iff that response says so, is ready for the next request, and
    leaves the bytes behind the request in the buffer.  The connection is offered
    for closing exactly for HTTP/1.0, whatever the headers say. *)
Theorem http_server_request b m target v hs rest tm :
  Buffer.holds b (request_text m target v hs ++ rest) ->
  m <> HttpRequest.kInvalid -> v <> HttpRequest.kUnknown -> no_byte SP target -> no_byte CR target ->
  Forall header_ok hs ->
  let req := {| HttpRequest.method_ := m; HttpRequest.version_ := v; HttpRequest.path_ := target;
                HttpRequest.query_ := []; HttpRequest.receiveTime_ := tm; HttpRequest.headers_ := [] |} in
  let resp := httpCallback_ req (HttpResponse.new (bool_decide (v = HttpRequest.kHttp10))) in
  zlen (HttpResponse.response_text resp) < 2 ^ 62 ->
  exists b', onMessage (enough b) new b tm =
      Ok ([SendBytes (HttpResponse.response_text resp)] ++
            (if HttpResponse.closeConnection_ resp then [ShutdownConnection] else []), new, b') /\
    Buffer.holds b' rest.
Proof.
  intros Hh Hm Hv Hsp Hcr Hhs req resp Hlen.
  pose proof (parse_loop_pure (enough b) new b _ tm true Hh) as Hp. rewrite pure_request in Hp; try done.
  - destruct Hp as (b' & Hp & Hb' & _). exists b'. split; [|done]. fold req in Hp.
    unfold onMessage, parseRequest. rewrite Hp, bind_ok. simpl. fold req. by rewrite (onRequest_ok req).
  - by eapply enough_request.
Qed.
End server.

Lemma http_server_request_witness :
  exists b', onMessage defaultHttpCallback (enough (demo_buffer demo_text)) new (demo_buffer demo_text) 9 =
      Ok ([SendBytes (str "HTTP/1.1 404Not found" ++ HttpResponse.CRLF ++ str "Connection: close" ++
                      HttpResponse.CRLF ++ HttpResponse.CRLF); ShutdownConnection], new, b') /\
    Buffer.holds b' (str "GET").
Proof.
  apply (http_server_request defaultHttpCallback (demo_buffer demo_text) HttpRequest.kGet (str "/index.html?x=1")
    HttpRequest.kHttp11 [str "Host: a"] (str "GET") 9).
  - apply demo_holds. by vm_compute.
  - done.
  - done.
  - by repeat constructor.
  - by repeat constructor.
  - constructor; [|constructor]. split; [by repeat constructor|]. unfold str. simpl. set_solver.
  - by vm_compute.
Defined.
End HttpServer.
