(* ===== verification/HttpSession.v ===== *)
(** An HTTP server on a TCP connection: the callbacks [HttpServer] registers with its
    [TcpServer] (src/libel/net/http/http_server.cpp) run by the handlers of
    [TcpConnection].  The file joins the parser, the responses and the connection: a
    request that arrives in any pieces is answered with the bytes of its response. *)

From S2P Require Import Prelude NetBuffer NumText TimeText Polling Connection Server Http.
Import HttpContext.

(** ** Facts about the parser that several reads of one request need *)
Module Pieces.

(** Two contexts that differ at most in the time of arrival. *)
Definition same (c1 c2 : t) : Prop :=
  state_ c1 = state_ c2 /\
  HttpRequest.setReceiveTime (request_ c1) 0 = HttpRequest.setReceiveTime (request_ c2) 0.

Definition same_result (m1 m2 : outcome (bool * t * bytes)) : Prop :=
  match m1, m2 with
  | Ok (ok1, c1, q1), Ok (ok2, c2, q2) => ok1 = ok2 /\ same c1 c2 /\ q1 = q2
  | Fault f1, Fault f2 => f1 = f2
  | _, _ => False
  end.

Lemma same_fields r1 r2 :
  HttpRequest.setReceiveTime r1 0 = HttpRequest.setReceiveTime r2 0 ->
  exists tm, r2 = HttpRequest.setReceiveTime r1 tm.
Proof. destruct r1, r2. unfold HttpRequest.setReceiveTime. simpl. intros E. simplify_eq. by eexists. Qed.

Lemma line_time r line tm :
  processRequestLine (HttpRequest.setReceiveTime r tm) line =
  x ← processRequestLine r line ; mret (HttpRequest.setReceiveTime x.1 tm, x.2).
Proof.
  unfold processRequestLine. cbv zeta. destruct (std_find SP line =? zlen line); [done|].
  unfold HttpRequest.setMethod. simpl. destruct (bool_decide (HttpRequest.method_ r = _)); [|done]. simpl.
  destruct (negb _); simpl; [done|].
  repeat (case_match; simpl; try done); destruct (deref _); simpl; repeat case_match; done.
Qed.

Lemma same_return ok c1 c2 q : same c1 c2 -> same_result (mret (ok, c1, q)) (mret (ok, c2, q)).
Proof. intros Hs. exact (conj eq_refl (conj Hs eq_refl)). Qed.

Lemma loop_same fuel c1 c2 q tm1 tm2 ok :
  same c1 c2 -> same_result (pure_loop fuel c1 q tm1 ok) (pure_loop fuel c2 q tm2 ok).
Proof.
  revert c1 c2 q ok. induction fuel as [|fuel IH]; intros c1 c2 q ok Hs; [done|].
  pose proof Hs as [Hst Hr]. cbn [pure_loop]. rewrite <- Hst. destruct (state_ c1) eqn:E1.
  - destruct (_ =? zlen q); [by apply same_return|]. destruct (same_fields _ _ Hr) as [tm ->]. rewrite line_time.
    destruct (processRequestLine (request_ c1) _) as [[r okl]|f]; [|done]. simpl.
    destruct okl; [by apply IH|by apply same_return].
  - destruct (_ =? zlen q); [by apply same_return|]. destruct (negb _); [by apply IH|by apply same_return].
  - by apply same_return.
  - by apply IH.
Qed.

(** A verdict does not change when more bytes follow. *)
Lemma loop_app fuel c q tm ok' c' q' r :
  pure_loop fuel c q tm true = Ok (ok', c', q') -> ok' = false \/ state_ c' = kGotAll -> ready c ->
  pure_loop fuel c (q ++ r) tm true = Ok (ok', c', q' ++ r).
Proof.
  revert c q. induction fuel as [|fuel IH]; intros c q Hl Hv [Hg Hm]; [done|].
  assert (forall a b, Ok (true, a, b) = Ok (ok', c', q') -> state_ a <> kGotAll -> False) as Hno.
  { intros a b [= <- <- <-] Hna. by destruct Hv. }
  cbn [pure_loop] in *. destruct (state_ c) eqn:Hst; [| |by destruct (Hno _ _ Hl); rewrite Hst|done].
  - destruct (Z.eqb_spec (std_search [CR; LF] q) (zlen q)) as [E|E]; [by destruct (Hno _ _ Hl); rewrite Hst|].
    destruct (split_line q r _ eq_refl E) as (Hs & Hne & Ht & Hd). rewrite Hs, Ht, Hd.
    rewrite (proj2 (Z.eqb_neq _ _)) by done.
    destruct (processRequestLine _ _) as [[r0 okl]|f]; simpl in *; [|done].
    destruct okl; [by apply IH|by injection Hl as <- <- <-].
  - destruct (Z.eqb_spec (std_search [CR; LF] q) (zlen q)) as [E|E]; [by destruct (Hno _ _ Hl); rewrite Hst|].
    destruct (split_line q r _ eq_refl E) as (Hs & Hne & Ht & Hd). rewrite Hs, Ht, Hd.
    rewrite (proj2 (Z.eqb_neq _ _)) by done.
    revert Hl. destruct (negb _); intros Hl; [by apply IH|by injection Hl as <- <- <-].
Qed.

(** The time of arrival kept in a request is that of one of the reads. *)
Definition timed (tms : list Z) (c : t) : Prop :=
  state_ c = kExpectRequestLine \/ HttpRequest.receiveTime_ (request_ c) ∈ tms.

Lemma loop_timed fuel c q tm ok ok' c' q' tms :
  pure_loop fuel c q tm ok = Ok (ok', c', q') -> timed tms c -> tm ∈ tms -> timed tms c'.
Proof.
  revert c q ok. induction fuel as [|fuel IH]; intros c q ok Hl Ht Htm; [done|].
  cbn [pure_loop] in Hl. destruct (state_ c) eqn:Hst.
  - destruct (_ =? zlen q); [by injection Hl as <- <- <-|].
    destruct (processRequestLine _ _) as [[r okl]|f]; simpl in Hl; [|done].
    destruct okl; [|injection Hl as <- <- <-; by left]. eapply IH; [exact Hl| |done]. by right.
  - assert (HttpRequest.receiveTime_ (request_ c) ∈ tms) as Hin by (destruct Ht; [congruence|done]).
    destruct (_ =? zlen q); [by injection Hl as <- <- <-|]. revert Hl. destruct (negb _); intros Hl.
    + eapply IH; [exact Hl| |done]. by right.
    + injection Hl as <- <- <-. by right.
  - by injection Hl as <- <- <-.
  - by eapply IH.
Qed.

(** What the parser leaves is the end of what it was given. *)
Lemma loop_suffix fuel c q tm ok ok' c' q' :
  pure_loop fuel c q tm ok = Ok (ok', c', q') -> exists p, q = p ++ q'.
Proof.
  assert (forall n (l : bytes), (exists p, drop n l = p ++ q') -> exists p, l = p ++ q') as Hd.
  { intros n l [p E]. exists (take n l ++ p). by rewrite <- app_assoc, <- E, take_drop. }
  revert c q ok. induction fuel as [|fuel IH]; intros c q ok Hl; [done|].
  cbn [pure_loop] in Hl. destruct (state_ c).
  - destruct (_ =? zlen q); [injection Hl as <- <- <-; by exists []|].
    destruct (processRequestLine _ _) as [[r okl]|f]; simpl in Hl; [|done].
    destruct okl; [|injection Hl as <- <- <-; by exists []]. eapply Hd, IH, Hl.
  - destruct (_ =? zlen q); [injection Hl as <- <- <-; by exists []|]. revert Hl. destruct (negb _); intros Hl.
    + eapply Hd, IH, Hl.
    + injection Hl as <- <- <-. eapply Hd. by exists [].
  - injection Hl as <- <- <-. by exists [].
  - by eapply IH.
Qed.

Lemma loop_det f1 f2 c q tm ok r1 r2 :
  pure_loop f1 c q tm ok = Ok r1 -> pure_loop f2 c q tm ok = Ok r2 -> r1 = r2.
Proof.
  intros H1 H2. apply (pure_more _ f2) in H1. apply (pure_more _ f1) in H2.
  rewrite Nat.add_comm in H2. congruence.
Qed.

(** What the parser has after the bytes [part] of a stream: the context [c] and the
    bytes [q] it has not used, as if everything had been read at once. *)
Definition parsed (part : bytes) (ok : bool) (c : t) (q : bytes) : Prop :=
  exists f c0, pure_loop f new part 0 true = Ok (ok, c0, q) /\ same c0 c.

Lemma parsed_nil : parsed [] true new [].
Proof. exists 1%nat, new. by split. Qed.

(** One more read. *)
Lemma parsed_more part c q d tm :
  parsed part true c q -> ready c ->
  exists ok c' q', (forall g, zlen (q ++ d) + 2 <= Z.of_nat g -> pure_loop g c (q ++ d) tm true = Ok (ok, c', q')) /\
    parsed (part ++ d) ok c' q'.
Proof.
  intros (f & c0 & E0 & Hs) Hr. set (g := Z.to_nat (zlen (q ++ d) + 2)). pose proof (zlen_nonneg (q ++ d)) as Hl.
  destruct (pure_total g c (q ++ d) tm true Hr) as (ok & c' & q' & E); [subst g; lia|].
  exists ok, c', q'. split.
  - intros g' Hg'. replace g' with (g + (g' - g))%nat by (subst g; lia). by apply pure_more.
  - pose proof (loop_same g c0 c (q ++ d) 0 tm true Hs) as Hss. rewrite E in Hss.
    destruct (pure_loop g c0 (q ++ d) 0 true) as [[[ok1 c1] q1]|] eqn:E1; [|done].
    destruct Hss as (-> & Hs1 & ->). exists (f + g)%nat, c1. split; [|done].
    apply (pure_segment f new part 0 c0 q d g); [done| |done].
    destruct Hs as [-> _]. apply Hr.
Qed.

Section request.
Variables (m : HttpRequest.Method) (target : bytes) (v : HttpRequest.Version) (hs : list bytes).
Hypotheses (Hm : m <> HttpRequest.kInvalid) (Hv : v <> HttpRequest.kUnknown)
  (Hsp : no_byte SP target) (Hcr : no_byte CR target) (Hhs : Forall header_ok hs).

(** The request as the server stores it. *)
Definition stored (tm : Z) : HttpRequest.t :=
  {| HttpRequest.method_ := m; HttpRequest.version_ := v; HttpRequest.path_ := target;
     HttpRequest.query_ := []; HttpRequest.receiveTime_ := tm; HttpRequest.headers_ := [] |}.

(** Before its last byte a request is neither complete nor refused. *)
Lemma parsed_prefix part r rest ok c q :
  part ++ r = request_text m target v hs ++ rest -> zlen part < zlen (request_text m target v hs) ->
  parsed part ok c q -> ok = true /\ state_ c <> kGotAll.
Proof.
  intros Hpart Hlen (f & c0 & E & [Hst _]).
  assert (~ (ok = false \/ state_ c0 = kGotAll)) as Hno; [|destruct ok; rewrite <- Hst; tauto].
  intros Hv0. pose proof (loop_app _ _ _ _ _ _ _ r E Hv0 ltac:(by split)) as Ea. rewrite Hpart in Ea.
  pose proof (pure_request m target v hs rest 0 (S (S (length hs))) Hm Hv Hsp Hcr Hhs (Nat.lt_succ_diag_r _)) as Er.
  pose proof (loop_det _ _ _ _ _ _ _ _ Ea Er) as Eq. injection Eq as _ _ Hq.
  apply (f_equal zlen) in Hpart, Hq. rewrite (zlen_app part), (zlen_app (request_text m target v hs)) in Hpart.
  rewrite zlen_app in Hq. pose proof (zlen_nonneg q). lia.
Qed.

(** With its last byte it is complete, and what follows is left. *)
Lemma parsed_whole part rest ok c q :
  part = request_text m target v hs ++ rest -> parsed part ok c q ->
  exists tm, ok = true /\ c = {| state_ := kGotAll; request_ := stored tm |} /\ q = rest.
Proof.
  intros -> (f & c0 & E & [Hst Hr]).
  pose proof (pure_request m target v hs rest 0 (S (S (length hs))) Hm Hv Hsp Hcr Hhs (Nat.lt_succ_diag_r _)) as Er.
  pose proof (loop_det _ _ _ _ _ _ _ _ E Er) as Eq. injection Eq as -> -> ->.
  destruct (same_fields _ _ Hr) as [tm Htm]. exists tm. split_and!; [done| |done].
  destruct c as [st r]. simpl in *. by subst.
Qed.
End request.

(** A request line that is refused: until its end has arrived nothing is known. *)
Lemma refused_prefix line rest part r ok c q :
  no_byte CR line -> part ++ r = line ++ [CR; LF] ++ rest -> zlen part < zlen line + 2 ->
  parsed part ok c q -> ok = true /\ state_ c <> kGotAll.
Proof.
  intros Hcr Hpart Hlen (f & c0 & E & [Hst _]). destruct f as [|f]; [done|]. cbn [pure_loop new state_] in E.
  destruct (Z.eqb_spec (std_search [CR; LF] part) (zlen part)) as [_|Hne].
  { injection E as <- <- <-. by rewrite <- Hst. }
  exfalso. destruct (split_line part r _ eq_refl Hne) as (Hs & _). destruct (line_step line rest Hcr) as (Hl & _).
  rewrite Hpart, Hl in Hs. pose proof (Buffer.CRLF_fits part Hne) as Hfit. unfold Buffer.kCRLF in Hfit. lia.
Qed.

(** With its end the verdict is there, the bytes stay, and the request is what the line
    has made of it. *)
Lemma refused_whole line rest r part ok c q :
  no_byte CR line -> processRequestLine HttpRequest.new line = Ok (r, false) -> part = line ++ [CR; LF] ++ rest ->
  parsed part ok c q ->
  ok = false /\ state_ c = kExpectRequestLine /\ q = part /\ exists tm, request_ c = HttpRequest.setReceiveTime r tm.
Proof.
  intros Hcr Hr -> (f & c0 & E & [Hst Hrq]). destruct f as [|f]; [done|]. cbn [pure_loop new state_ request_] in E.
  destruct (line_step line rest Hcr) as (Hl & Hne & Ht & _). rewrite Hl, Ht in E.
  rewrite (proj2 (Z.eqb_neq _ _)) in E by done. rewrite Hr, bind_ok in E. injection E as <- <- <-.
  split_and!; try done. by apply same_fields.
Qed.
End Pieces.

(** ** The server object *)
Module HttpService.
Record t := mk { server_ : TcpServer.t; httpCallback_ : HttpRequest.t -> HttpResponse.t -> HttpResponse.t }.

Definition new (loop : Z) (ipPort name : bytes) (idleFd : Z) : t :=
  mk (TcpServer.new loop ipPort name idleFd) HttpServer.defaultHttpCallback.
Definition setHttpCallback (s : t) (cb : HttpRequest.t -> HttpResponse.t -> HttpResponse.t) : t :=
  mk (server_ s) cb.
Definition start (hasCallback : bool) (startLoop : nat -> Z) (s : t) : outcome t :=
  r ← TcpServer.start hasCallback startLoop (server_ s) ; mret (mk r (httpCallback_ s)).
End HttpService.

(** ** A connection served by [HttpServer] *)
Module HttpSession.
Import HttpServer.

(** The connection and the context [HttpServer] attaches to it. *)
Record session := mk { conn : TcpConnection.t; context : option HttpContext.t }.

(** What [onMessage] and [onRequest] do to the connection, in the loop's thread;
    [ws] answers the calls of write. *)
Fixpoint perform (acts : list conn_action) (ws : list TcpConnection.write_result) (c : TcpConnection.t)
  : outcome TcpConnection.t :=
  match acts with
  | [] => mret c
  | SendBytes data :: acts =>
      let w := default (TcpConnection.WriteError TcpConnection.EWOULDBLOCK) (head ws) in
      c ← TcpConnection.send true c data w ; perform acts (tail ws) c
  | ShutdownConnection :: acts => c ← TcpConnection.shutdown true c ; perform acts ws c
  end.

Section session.
Variable httpCallback_ : HttpRequest.t -> HttpResponse.t -> HttpResponse.t.

(** [connectEstablished] with the connection callback. *)
Definition connectEstablished (s : session) : outcome session :=
  c ← TcpConnection.connectEstablished true (conn s) ;
  mret (mk c (onConnection (TcpConnection.connected c) (context s))).

(** The message callback, on the connection whose input buffer has grown. *)
Definition messageCallback (s : session) (receiveTime : Z) (ws : list TcpConnection.write_result)
  : outcome session :=
  context ← deref (context s) ;
  let b := TcpConnection.inputBuffer_ (conn s) in
  r ← onMessage httpCallback_ (enough b) context b receiveTime ;
  match r with
  | (acts, context, b') =>
      let eaten := take (length (Buffer.content b) - length (Buffer.content b')) (Buffer.content b) in
      c ← perform acts ws (TcpConnection.set_input (conn s) b' (TcpConnection.received (conn s))
                             (TcpConnection.consumed (conn s) ++ eaten) []) ;
      mret (mk c (Some context))
  end.

(** [handleRead] with its callbacks. *)
Definition handleRead (s : session) (readv : Z -> io_result) (receiveTime : Z)
  (ws : list TcpConnection.write_result) : outcome session :=
  c ← TcpConnection.handleRead true (conn s) readv ;
  match readv (Buffer.iov_size (TcpConnection.inputBuffer_ (conn s))) with
  | IoData [] => mret (mk c (onConnection (TcpConnection.connected c) (context s)))
  | IoData _ => messageCallback (mk c (context s)) receiveTime ws
  | IoError _ => mret (mk c (context s))
  end.

(** A piece of the stream arrives. *)
Definition arrive (s : session) (piece : bytes) (receiveTime : Z) (ws : list TcpConnection.write_result)
  : outcome session := handleRead s (fun _ => IoData piece) receiveTime ws.

Fixpoint arrive_all (s : session) (pieces : list (bytes * Z)) : outcome session :=
  match pieces with
  | [] => mret s
  | (piece, tm) :: pieces => s ← arrive s piece tm [] ; arrive_all s pieces
  end.

(** The pieces are what [readv] can return, and there is memory for them. *)
Definition piece_fits (s : session) (piece : bytes) : Prop :=
  let b := TcpConnection.inputBuffer_ (conn s) in
  0 < zlen piece <= Buffer.iov_size b /\ Buffer.room b (zlen piece).
Fixpoint fits (s : session) (pieces : list (bytes * Z)) : Prop :=
  match pieces with
  | [] => True
  | (piece, tm) :: pieces =>
      piece_fits s piece /\ match arrive s piece tm [] with Ok s' => fits s' pieces | Fault _ => True end
  end.

(** A session whose connection is up and which has read [part] of a request; the
    sending side is that of [c0]. *)
Record waiting (c0 : TcpConnection.t) (tms : list Z) (part : bytes) (s : session) : Prop := mk_waiting {
  w_inv : TcpConnection.inv (conn s);
  w_state : TcpConnection.state_ (conn s) = TcpConnection.kConnected;
  w_output : TcpConnection.outputBuffer_ (conn s) = TcpConnection.outputBuffer_ c0;
  w_accepted : TcpConnection.accepted (conn s) = TcpConnection.accepted c0;
  w_context : exists c, context s = Some c /\ ready c /\ Pieces.timed tms c /\
    Pieces.parsed part true c (Buffer.content (TcpConnection.inputBuffer_ (conn s)));
}.

(** One read, up to what is done with the connection. *)
Lemma arrive_parsed c0 tms part s d tm :
  waiting c0 tms part s -> piece_fits s d -> tm ∈ tms ->
  exists ok c' b r k, Pieces.parsed (part ++ d) ok c' (Buffer.content b) /\ Pieces.timed tms c' /\
    (state_ c' <> kGotAll -> ok = true -> ready c') /\ Buffer.ok b /\
    let c1 := TcpConnection.set_input (conn s) b r k [TcpConnection.MessageCallback] in
    TcpConnection.inv c1 /\
    forall ws, arrive s d tm ws =
      (acts ← (if gotAll c' then onRequest httpCallback_ (request_ c') else mret []) ;
       c2 ← perform ((if ok then [] else [SendBytes (str "HTTP/1.1 400 Bad Request" ++ HttpResponse.CRLF ++ HttpResponse.CRLF);
                                          ShutdownConnection]) ++ acts) ws c1 ;
       mret (mk c2 (Some (if gotAll c' then reset c' else c')))).
Proof.
  intros [Hinv Hst Ho Ha (c & Hc & Hr & Ht & Hp)] [Hlen Hroom] Htm.
  destruct (TcpConnection.handleRead_data (conn s) d Hinv Hlen Hroom) as (b0 & Eread & Hb0).
  destruct (Pieces.parsed_more part c _ d tm Hp Hr) as (ok & c' & q' & Eg & Hp').
  pose proof (parse_loop_pure (enough b0) c b0 _ tm true Hb0) as Hl.
  specialize (Eg (enough b0)). rewrite (enough_holds b0 _ Hb0) in Eg. specialize (Eg (Z.le_refl _)). rewrite Eg in Hl.
  destruct Hl as (b & El & [Hok Hcb] & _). subst q'.
  destruct (Pieces.loop_suffix _ _ _ _ _ _ _ _ Eg) as [p Hsuf].
  assert (take (length (Buffer.content b0) - length (Buffer.content b)) (Buffer.content b0) = p) as Heaten.
  { destruct Hb0 as [_ ->]. rewrite Hsuf, length_app. replace (_ - _)%nat with (length p) by lia. apply take_app_length. }
  exists ok, c', b, (TcpConnection.received (conn s) ++ d), (TcpConnection.consumed (conn s) ++ p).
  split; [done|]. split; [by eapply Pieces.loop_timed|]. split; [intros Hg ->; by eapply pure_ready|].
  split; [done|]. split.
  { apply TcpConnection.inv_set_input; [done|done|].
    by rewrite (TcpConnection.i_input _ Hinv), <- !app_assoc, Hsuf. }
  intros ws. unfold arrive, handleRead. rewrite Eread, bind_ok.
  destruct d as [|x d]; [unfold zlen in Hlen; simpl in Hlen; lia|].
  unfold messageCallback. cbn [conn context TcpConnection.inputBuffer_ TcpConnection.set_input]. rewrite Hc.
  cbn [deref mbind outcome_bind]. unfold onMessage, parseRequest. rewrite El, bind_ok.
  assert (forall c b1 b2 r1 r2 k1 k2 cb, TcpConnection.set_input (TcpConnection.set_input c b1 r1 k1 cb) b2 r2 k2 [] =
    TcpConnection.set_input c b2 r2 k2 cb) as Hset by (intros; unfold TcpConnection.set_input; simpl; by rewrite app_nil_r).
  destruct (gotAll c').
  - destruct (onRequest httpCallback_ (request_ c')) as [acts|f]; [|done].
    cbn [mbind outcome_bind mret outcome_ret]. by rewrite Hset, Heaten.
  - cbn [mbind outcome_bind mret outcome_ret]. by rewrite Hset, Heaten, app_nil_r.
Qed.

(** ** Before a verdict

    [n] bytes of [stream] are needed before the parser comes to a verdict. *)
Section undecided.
Variables (stream : bytes) (n : Z).
Hypothesis Hundecided : forall part r ok c q,
  part ++ r = stream -> zlen part < n -> Pieces.parsed part ok c q -> ok = true /\ state_ c <> kGotAll.

(** A piece that does not bring the verdict only moves the parser on. *)
Lemma arrive_prefix c0 tms part s d tm r :
  waiting c0 tms part s -> piece_fits s d -> tm ∈ tms -> (part ++ d) ++ r = stream -> zlen (part ++ d) < n ->
  exists s', arrive s d tm [] = Ok s' /\ waiting c0 tms (part ++ d) s'.
Proof.
  intros Hw Hf Htm Hpart Hlen.
  destruct (arrive_parsed c0 tms part s d tm Hw Hf Htm) as (ok & c' & b & rv & k & Hp & Ht & Hr & Hb & Hi & E).
  destruct (Hundecided _ r ok c' _ Hpart Hlen Hp) as [-> Hg].
  assert (gotAll c' = false) as Hga by by apply bool_decide_eq_false_2.
  rewrite E, Hga. eexists. split; [done|]. destruct Hw. constructor; try done.
  exists c'. split_and!; try done. by apply Hr.
Qed.

Lemma arrive_all_prefix c0 tms pieces part s r :
  waiting c0 tms part s -> fits s pieces -> Forall (fun x => x.2 ∈ tms) pieces ->
  (part ++ concat (map fst pieces)) ++ r = stream -> zlen (part ++ concat (map fst pieces)) < n ->
  exists s', arrive_all s pieces = Ok s' /\ waiting c0 tms (part ++ concat (map fst pieces)) s'.
Proof.
  revert part s. induction pieces as [|[d tm] pieces IH]; intros part s Hw Hf Htm Hpart Hlen; simpl in *.
  { exists s. split; [done|]. by rewrite app_nil_r. }
  apply Forall_cons in Htm as [Htm Htms]. destruct Hf as [Hf1 Hf2]. rewrite app_assoc in Hpart, Hlen |- *.
  pose proof (zlen_nonneg (concat (map fst pieces))) as Hnn.
  destruct (arrive_prefix c0 tms part s d tm (concat (map fst pieces) ++ r)) as (s' & E & Hw'); try done.
  { by rewrite app_assoc. }
  { rewrite zlen_app in Hlen. lia. }
  rewrite E in Hf2 |- *. simpl. by apply IH.
Qed.
End undecided.

(** ** One exchange *)
Section exchange.
Variables (m : HttpRequest.Method) (target : bytes) (v : HttpRequest.Version) (hs : list bytes) (rest : bytes).
Hypotheses (Hm : m <> HttpRequest.kInvalid) (Hv : v <> HttpRequest.kUnknown)
  (Hsp : no_byte SP target) (Hcr : no_byte CR target) (Hhs : Forall header_ok hs).

Definition reply (tm : Z) : HttpResponse.t :=
  httpCallback_ (Pieces.stored m target v tm) (HttpResponse.new (bool_decide (v = HttpRequest.kHttp10))).

(** What sending the response does to a connection that is up. *)
Definition answered (c0 : TcpConnection.t) (data : bytes) (close : bool) (w : TcpConnection.write_result)
  (c : TcpConnection.t) : Prop :=
  TcpConnection.inv c /\
  TcpConnection.accepted c = TcpConnection.accepted c0 ++ (if TcpConnection.dropped c0 w then [] else data) /\
  TcpConnection.state_ c = (if close then TcpConnection.kDisconnecting else TcpConnection.kConnected) /\
  (close = true -> TcpConnection.fin c = true \/ TcpConnection.isWriting c = true).

Lemma perform_answer c data (close : bool) w :
  TcpConnection.inv c -> TcpConnection.state_ c = TcpConnection.kConnected ->
  TcpConnection.write_ok c (zlen data) w -> Buffer.room (TcpConnection.outputBuffer_ c) (zlen data) ->
  exists c', perform ([SendBytes data] ++ if close then [ShutdownConnection] else []) [w] c = Ok c' /\
    answered c data close w c' /\ TcpConnection.input c' = TcpConnection.input c.
Proof.
  intros Hi Hs Hw Hroom. simpl. unfold TcpConnection.send. rewrite decide_True by done.
  destruct (TcpConnection.sendInLoop_ok c data w) as (c1 & E & Hi1 & Hs1 & _ & _ & Ha); [done|congruence|done|done|].
  rewrite E, bind_ok. pose proof (TcpConnection.sendInLoop_input c data w c1 E) as Hin. rewrite Hs in Hs1.
  destruct close; simpl; [|eexists; split; [done|]; by split_and!].
  unfold TcpConnection.shutdown. rewrite decide_True by done.
  destruct (TcpConnection.shutdownInLoop_ok (TcpConnection.set_state c1 TcpConnection.kDisconnecting []))
    as (c2 & E2 & Hi2 & Hs2 & Hfin & _); [apply TcpConnection.inv_disconnecting; [done|by left]|by left|].
  rewrite E2. simpl. exists c2. split; [done|]. unfold answered.
  assert (TcpConnection.accepted c2 = TcpConnection.accepted c1 /\ TcpConnection.input c2 = TcpConnection.input c1)
    as [-> ->] by (unfold TcpConnection.shutdownInLoop in E2; simpl in E2; injection E2 as <-; by case_match).
  split_and!; try done. intros _. by apply Hfin.
Qed.

(** The last piece. *)
Lemma arrive_last c0 tms part s d tm w :
  waiting c0 tms part s -> piece_fits s d -> tm ∈ tms -> part ++ d = request_text m target v hs ++ rest ->
  (forall x, x ∈ tms -> let data := HttpResponse.response_text (reply x) in
     zlen data < 2 ^ 62 /\ TcpConnection.write_ok (conn s) (zlen data) w /\
     Buffer.room (TcpConnection.outputBuffer_ (conn s)) (zlen data)) ->
  exists s' x, x ∈ tms /\ arrive s d tm [w] = Ok s' /\ context s' = Some new /\
    Buffer.content (TcpConnection.inputBuffer_ (conn s')) = rest /\
    answered (conn s) (HttpResponse.response_text (reply x)) (HttpResponse.closeConnection_ (reply x)) w (conn s').
Proof.
  intros Hw Hf Htm Hpart Hx.
  destruct (arrive_parsed c0 tms part s d tm Hw Hf Htm) as (ok & c' & b & rv & k & Hp & Ht & _ & Hb & Hi & E).
  destruct (Pieces.parsed_whole m target v hs Hm Hv Hsp Hcr Hhs _ rest ok c' _ Hpart Hp) as (x & -> & -> & Hq).
  assert (x ∈ tms) as Hin by (destruct Ht as [Ht|Ht]; [done|exact Ht]).
  destruct (Hx x Hin) as (Hlen & Hwr & Hroom). rewrite E. cbn [gotAll bool_decide state_ request_].
  rewrite (onRequest_ok httpCallback_ (Pieces.stored m target v x) eq_refl Hlen).
  set (c1 := TcpConnection.set_input _ _ _ _ _) in *.
  destruct (perform_answer c1 (HttpResponse.response_text (reply x)) (HttpResponse.closeConnection_ (reply x)) w)
    as (c2 & Ep & Ha & Hin2); [done|apply Hw|exact Hwr|exact Hroom|].
  exists (mk c2 (Some new)), x. split; [done|]. split.
  { change (gotAll _) with true. cbn [mbind outcome_bind app]. cbn [app] in Ep. unfold reply in Ep. simpl in Ep |- *.
    by rewrite Ep. }
  split; [done|]. split; [|exact Ha]. cbn [conn]. unfold TcpConnection.input in Hin2.
  injection Hin2 as Hb2 _ _. by rewrite Hb2.
Qed.
End exchange.

(** ** A refused request *)
Section refusal.
Variables (line rest : bytes) (r : HttpRequest.t).
Hypotheses (Hcr : no_byte CR line) (Hr : processRequestLine HttpRequest.new line = Ok (r, false)).

Definition bad_request : bytes := str "HTTP/1.1 400 Bad Request" ++ HttpResponse.CRLF ++ HttpResponse.CRLF.

(** The session once the line has been refused. *)
Record refused (s : session) (content : bytes) : Prop := mk_refused {
  r_inv : TcpConnection.inv (conn s);
  r_content : Buffer.content (TcpConnection.inputBuffer_ (conn s)) = content;
  r_context : exists tm, context s = Some {| state_ := kExpectRequestLine; request_ := HttpRequest.setReceiveTime r tm |};
}.

Lemma arrive_refused c0 tms part s d tm w :
  waiting c0 tms part s -> piece_fits s d -> tm ∈ tms -> part ++ d = line ++ [CR; LF] ++ rest ->
  TcpConnection.write_ok (conn s) (zlen bad_request) w ->
  Buffer.room (TcpConnection.outputBuffer_ (conn s)) (zlen bad_request) ->
  exists s', arrive s d tm [w] = Ok s' /\ answered (conn s) bad_request true w (conn s') /\ refused s' (part ++ d).
Proof.
  intros Hw Hf Htm Hpart Hwr Hroom.
  destruct (arrive_parsed c0 tms part s d tm Hw Hf Htm) as (ok & c' & b & rv & k & Hp & _ & _ & Hb & Hi & E).
  destruct (Pieces.refused_whole line rest r _ ok c' _ Hcr Hr Hpart Hp) as (-> & Hst & Hq & tm' & Hrq).
  assert (gotAll c' = false) as Hga by (apply bool_decide_eq_false_2; congruence).
  rewrite E, Hga. set (c1 := TcpConnection.set_input _ _ _ _ _) in *.
  destruct (perform_answer c1 bad_request true w) as (c2 & Ep & Ha & Hin); [done|apply Hw|exact Hwr|exact Hroom|].
  exists (mk c2 (Some c')). split.
  { unfold mret, outcome_ret. rewrite bind_ok. fold bad_request. rewrite app_nil_r. cbn [app] in Ep. by rewrite Ep. }
  split; [exact Ha|]. constructor; [apply Ha| |].
  - cbn [conn]. unfold TcpConnection.input in Hin. injection Hin as -> _ _. exact Hq.
  - exists tm'. cbn [context]. destruct c' as [st rq]. simpl in *. by subst.
Qed.

(** The next bytes that arrive stop the process at an assertion. *)
Lemma arrive_again s more d tm ws :
  refused s (line ++ [CR; LF] ++ more) -> HttpRequest.method_ r <> HttpRequest.kInvalid -> piece_fits s d ->
  arrive s d tm ws = Fault AssertFailed.
Proof.
  intros [Hi Hc (tm' & Hctx)] Hm [Hlen Hroom].
  destruct (TcpConnection.handleRead_data (conn s) d Hi Hlen Hroom) as (b0 & Eread & Hb0).
  unfold arrive, handleRead. rewrite Eread, bind_ok.
  destruct d as [|x d]; [unfold zlen in Hlen; simpl in Hlen; lia|].
  unfold messageCallback. cbn [conn context TcpConnection.inputBuffer_ TcpConnection.set_input]. rewrite Hctx.
  cbn [deref mbind outcome_bind]. unfold onMessage, parseRequest. rewrite Hc, <- !app_assoc in Hb0.
  pose proof (parse_loop_pure (enough b0) {| state_ := kExpectRequestLine; request_ := HttpRequest.setReceiveTime r tm' |}
    b0 _ tm true Hb0) as Hl.
  pose proof (enough_holds b0 _ Hb0) as Hen. destruct (enough b0) as [|g].
  { exfalso. pose proof (zlen_nonneg (line ++ [CR; LF] ++ more ++ x :: d)). lia. }
  cbn [pure_loop state_ request_] in Hl. destruct (line_step line (more ++ x :: d) Hcr) as (Hs & Hne & Ht & _).
  cbn [app] in Hs, Hne, Ht, Hl. rewrite Hs, Ht, (proj2 (Z.eqb_neq _ _)) in Hl by done.
  rewrite (again_asserts (HttpRequest.setReceiveTime HttpRequest.new tm') (HttpRequest.setReceiveTime r tm') line) in Hl;
    [by rewrite Hl|done| |done].
  by rewrite Pieces.line_time, Hr.
Qed.
End refusal.
End session.

Lemma connected_fin c :
  TcpConnection.inv c -> TcpConnection.state_ c = TcpConnection.kConnected -> TcpConnection.fin c = false.
Proof.
  intros Hi Hst. apply not_true_is_false. intros Hf. by destruct (TcpConnection.i_fin _ Hi Hf) as [?|[? _]]; congruence.
Qed.

(** C24. An HTTP exchange over TCP: let a connection be up, in any state of its output,
    with nothing to read, and let a request arrive cut into any pieces that [readv]
    can return, followed by the bytes [rest].  No read fails; until the last piece
    nothing is sent; then the bytes written or waiting to be written grow by exactly
    the response the user's callback makes for the request (unless the peer is
    known to be gone), the connection is shut down iff the response says so (at
    once, or as soon as the output has drained), the context is ready for the next
    request, and [rest] is still in the buffer.  The time in the request is that of
    one of the reads. *)
Theorem http_exchange cb m target v hs rest pieces last tm w wc hw c :
  m <> HttpRequest.kInvalid -> v <> HttpRequest.kUnknown -> no_byte SP target -> no_byte CR target ->
  Forall header_ok hs ->
  rtc TcpConnection.step (TcpConnection.new wc hw) c ->
  TcpConnection.state_ c = TcpConnection.kConnected -> Buffer.content (TcpConnection.inputBuffer_ c) = [] ->
  concat (map fst pieces) ++ last = request_text m target v hs ++ rest ->
  zlen (concat (map fst pieces)) < zlen (request_text m target v hs) ->
  let s := mk c (Some new) in let tms := tm :: map snd pieces in
  fits cb s pieces ->
  (forall s1, arrive_all cb s pieces = Ok s1 -> piece_fits s1 last) ->
  (forall x, x ∈ tms -> let data := HttpResponse.response_text (reply cb m target v x) in
     zlen data < 2 ^ 62 /\ TcpConnection.write_ok c (zlen data) w /\
     Buffer.room (TcpConnection.outputBuffer_ c) (zlen data)) ->
  exists s1 s2 x, arrive_all cb s pieces = Ok s1 /\ arrive cb s1 last tm [w] = Ok s2 /\ x ∈ tms /\
    let resp := reply cb m target v x in
    let sent k := TcpConnection.wire k ++ Buffer.content (TcpConnection.outputBuffer_ k) in
    sent (conn s1) = sent c /\
    sent (conn s2) = sent c ++ (if TcpConnection.dropped c w then [] else HttpResponse.response_text resp) /\
    TcpConnection.state_ (conn s2) =
      (if HttpResponse.closeConnection_ resp then TcpConnection.kDisconnecting else TcpConnection.kConnected) /\
    (HttpResponse.closeConnection_ resp = true ->
       TcpConnection.fin (conn s2) = true \/ TcpConnection.isWriting (conn s2) = true) /\
    context s2 = Some new /\ Buffer.content (TcpConnection.inputBuffer_ (conn s2)) = rest.
Proof.
  intros Hm Hv Hsp Hcr Hhs Hreach Hst Hin Hpart Hlen s tms Hf Hlast Hx.
  pose proof (TcpConnection.reachable_conn_inv wc hw c Hreach) as Hi.
  assert (waiting c tms [] s) as Hw.
  { constructor; try done. exists new. split_and!; [done|by split|by left|]. cbn [conn s]. rewrite Hin.
    apply Pieces.parsed_nil. }
  destruct (arrive_all_prefix cb (request_text m target v hs ++ rest) (zlen (request_text m target v hs)))
    with (c0 := c) (tms := tms) (pieces := pieces) (part := @nil byte) (s := s) (r := last) as (s1 & E1 & Hw1); try done.
  { intros part r ok c' q Hp Hl. by apply (Pieces.parsed_prefix m target v hs Hm Hv Hsp Hcr Hhs part r rest). }
  { apply Forall_forall. intros y Hy. apply elem_of_cons. right. apply list_elem_of_fmap. by exists y. }
  pose proof Hw1 as [Hi1 Hst1 Ho1 Ha1 _].
  assert (TcpConnection.fin (conn s1) = false /\ TcpConnection.fin c = false) as [Hfin1 Hfin]
    by (split; eapply connected_fin; done).
  destruct (arrive_last cb m target v hs rest Hm Hv Hsp Hcr Hhs c tms (concat (map fst pieces)) s1 last tm w)
    as (s2 & x & Hxin & E2 & Hctx & Hrest & Hi2 & Hacc & Hst2 & Hcl); [done|by apply Hlast|by left|done| |].
  { intros x Hxin. destruct (Hx x Hxin) as (? & Hwr & Hroom). rewrite Ho1. split_and!; try done.
    unfold TcpConnection.write_ok in *. rewrite Hfin1. by rewrite Hfin in Hwr. }
  exists s1, s2, x. split; [done|]. split; [done|]. split; [done|]. cbv beta zeta.
  rewrite <- (TcpConnection.i_stream _ Hi), <- (TcpConnection.i_stream _ Hi1), <- (TcpConnection.i_stream _ Hi2).
  split_and!; try done. rewrite Hacc, Ha1. unfold TcpConnection.dropped. by rewrite Ho1, Hst1, Hst.
Qed.

(** C25. A refused request over TCP: let a connection be up with nothing to read, and let
    a request line that [processRequestLine] refuses arrive in any pieces, with any
    bytes behind it.  Nothing is sent until the line is there; then the bytes sent
    grow by exactly the 400 response and the connection is shut down.  But the line stays in
    the buffer and the method in the context: if the line began with a known method,
    whatever the peer sends next stops the whole server at an assertion. *)
Theorem http_refusal cb line rest r pieces last tm w wc hw c :
  no_byte CR line -> processRequestLine HttpRequest.new line = Ok (r, false) ->
  rtc TcpConnection.step (TcpConnection.new wc hw) c ->
  TcpConnection.state_ c = TcpConnection.kConnected -> Buffer.content (TcpConnection.inputBuffer_ c) = [] ->
  concat (map fst pieces) ++ last = line ++ [CR; LF] ++ rest -> zlen (concat (map fst pieces)) < zlen line + 2 ->
  let s := mk c (Some new) in
  fits cb s pieces ->
  (forall s1, arrive_all cb s pieces = Ok s1 -> piece_fits s1 last) ->
  TcpConnection.write_ok c (zlen bad_request) w -> Buffer.room (TcpConnection.outputBuffer_ c) (zlen bad_request) ->
  exists s1 s2, arrive_all cb s pieces = Ok s1 /\ arrive cb s1 last tm [w] = Ok s2 /\
    let sent k := TcpConnection.wire k ++ Buffer.content (TcpConnection.outputBuffer_ k) in
    sent (conn s1) = sent c /\
    sent (conn s2) = sent c ++ (if TcpConnection.dropped c w then [] else bad_request) /\
    TcpConnection.state_ (conn s2) = TcpConnection.kDisconnecting /\
    (TcpConnection.fin (conn s2) = true \/ TcpConnection.isWriting (conn s2) = true) /\
    (HttpRequest.method_ r <> HttpRequest.kInvalid -> forall d tm' ws, piece_fits s2 d ->
       arrive cb s2 d tm' ws = Fault AssertFailed).
Proof.
  intros Hcr Hr Hreach Hst Hin Hpart Hlen s Hf Hlast Hwr Hroom.
  pose proof (TcpConnection.reachable_conn_inv wc hw c Hreach) as Hi. set (tms := tm :: map snd pieces).
  assert (waiting c tms [] s) as Hw.
  { constructor; try done. exists new. split_and!; [done|by split|by left|]. cbn [conn s]. rewrite Hin.
    apply Pieces.parsed_nil. }
  destruct (arrive_all_prefix cb (line ++ [CR; LF] ++ rest) (zlen line + 2))
    with (c0 := c) (tms := tms) (pieces := pieces) (part := @nil byte) (s := s) (r := last) as (s1 & E1 & Hw1); try done.
  { intros part r0 ok c' q Hp Hl. by apply (Pieces.refused_prefix line rest part r0). }
  { apply Forall_forall. intros y Hy. apply elem_of_cons. right. apply list_elem_of_fmap. by exists y. }
  pose proof Hw1 as [Hi1 Hst1 Ho1 Ha1 _].
  assert (TcpConnection.fin (conn s1) = false /\ TcpConnection.fin c = false) as [Hfin1 Hfin]
    by (split; eapply connected_fin; done).
  destruct (arrive_refused cb line rest r Hcr Hr c tms (concat (map fst pieces)) s1 last tm w)
    as (s2 & E2 & (Hi2 & Hacc & Hst2 & Hcl) & Href); [done|by apply Hlast|by left|done| |by rewrite Ho1|].
  { unfold TcpConnection.write_ok in *. rewrite Hfin1. by rewrite Hfin in Hwr. }
  exists s1, s2. split; [done|]. split; [done|]. cbv beta zeta.
  rewrite <- (TcpConnection.i_stream _ Hi), <- (TcpConnection.i_stream _ Hi1), <- (TcpConnection.i_stream _ Hi2).
  split_and!; try done.
  - rewrite Hacc, Ha1. unfold TcpConnection.dropped. by rewrite Ho1, Hst1, Hst.
  - by apply Hcl.
  - intros Hm d tm' ws Hd. rewrite Hpart in Href. by eapply arrive_again.
Qed.

(** *** A request in two pieces; ten bytes of the response are written at once. *)
Definition demo_pieces : list (bytes * Z) := [(str "GET /a HT", 5)].
Definition demo_last : bytes := str "TP/1.0" ++ [CR; LF] ++ str "Host: x" ++ [CR; LF; CR; LF] ++ str "GET".
Definition demo_response : bytes :=
  str "HTTP/1.1 404Not found" ++ HttpResponse.CRLF ++ str "Connection: close" ++ HttpResponse.CRLF ++ HttpResponse.CRLF.

Lemma demo_up : rtc TcpConnection.step TcpConnection.demo0 TcpConnection.demo1.
Proof.
  apply rtc_once, TcpConnection.step_result; [apply TcpConnection.inv_new|reflexivity].
Qed.

Lemma http_exchange_witness :
  exists s1 s2, arrive_all defaultHttpCallback (mk TcpConnection.demo1 (Some new)) demo_pieces = Ok s1 /\
    arrive defaultHttpCallback s1 demo_last 6 [TcpConnection.Wrote 10] = Ok s2 /\
    TcpConnection.wire (conn s2) ++ Buffer.content (TcpConnection.outputBuffer_ (conn s2)) = demo_response /\
    TcpConnection.state_ (conn s2) = TcpConnection.kDisconnecting /\
    Buffer.content (TcpConnection.inputBuffer_ (conn s2)) = str "GET".
Proof.
  destruct (http_exchange defaultHttpCallback HttpRequest.kGet (str "/a") HttpRequest.kHttp10 [str "Host: x"]
    (str "GET") demo_pieces demo_last 6 (TcpConnection.Wrote 10) true true TcpConnection.demo1)
    as (s1 & s2 & x & E1 & E2 & _ & _ & Hs & Hst & _ & _ & Hr).
  - discriminate.
  - discriminate.
  - by repeat constructor.
  - by repeat constructor.
  - constructor; [|constructor]. split; [by repeat constructor|]. unfold str. simpl. set_solver.
  - exact demo_up.
  - vm_compute. reflexivity.
  - vm_compute. reflexivity.
  - vm_compute. reflexivity.
  - vm_compute. reflexivity.
  - split; [|vm_compute; exact I]. vm_compute. repeat split; discriminate.
  - intros s1 E. vm_compute in E. injection E as <-. vm_compute. repeat split; discriminate.
  - intros x _. change (HttpResponse.response_text (reply _ _ _ _ x)) with demo_response.
    vm_compute. repeat split; discriminate.
  - exists s1, s2. split; [exact E1|]. split; [exact E2|]. split; [exact Hs|]. split; [exact Hst|exact Hr].
Defined.

(** *** "GET / HTTP/2.0" in two pieces, then two more bytes *)
Definition bad_line : bytes := str "GET / HTTP/2.0".
Definition bad_pieces : list (bytes * Z) := [(str "GET / HT", 5)].
Definition bad_last : bytes := str "TP/2.0" ++ [CR; LF].
Definition bad_state : HttpRequest.t :=
  match processRequestLine HttpRequest.new bad_line with Ok x => x.1 | Fault _ => HttpRequest.new end.

Lemma http_refusal_witness :
  exists s1 s2, arrive_all defaultHttpCallback (mk TcpConnection.demo1 (Some new)) bad_pieces = Ok s1 /\
    arrive defaultHttpCallback s1 bad_last 6 [TcpConnection.Wrote 10] = Ok s2 /\
    TcpConnection.wire (conn s2) ++ Buffer.content (TcpConnection.outputBuffer_ (conn s2)) = bad_request /\
    (forall d tm ws, piece_fits s2 d -> arrive defaultHttpCallback s2 d tm ws = Fault AssertFailed).
Proof.
  destruct (http_refusal defaultHttpCallback bad_line [] bad_state bad_pieces bad_last 6 (TcpConnection.Wrote 10)
    true true TcpConnection.demo1) as (s1 & s2 & E1 & E2 & _ & Hs & _ & _ & Ha).
  - by repeat constructor.
  - vm_compute. reflexivity.
  - exact demo_up.
  - vm_compute. reflexivity.
  - vm_compute. reflexivity.
  - vm_compute. reflexivity.
  - vm_compute. reflexivity.
  - split; [|vm_compute; exact I]. vm_compute. repeat split; discriminate.
  - intros s1 E. vm_compute in E. injection E as <-. vm_compute. repeat split; discriminate.
  - vm_compute. repeat split; discriminate.
  - vm_compute. discriminate.
  - exists s1, s2. split; [exact E1|]. split; [exact E2|]. split; [exact Hs|]. apply Ha. vm_compute. discriminate.
Defined.
End HttpSession.
