(* ===== verification/Framing.v ===== *)
(** Receivers of framed messages, in general: a loop that looks at the front of a
    buffer, hands the message of a complete frame to a callback and drops the frame,
    waits when the frame is incomplete, and stops with an error otherwise. *)

From S2P Require Import Prelude NetBuffer.

Module Framing.

(** What the front of the queue is. *)
Inductive view (M E : Type) := Wait | Reject (e : E) | Deliver (n : nat) (m : M).
Arguments Wait {M E}.
Arguments Reject {M E} e.
Arguments Deliver {M E} n m.

(** How the loop ends. *)
Inductive stop (E : Type) := Starved | Refused (e : E).
Arguments Starved {E}.
Arguments Refused {E} e.

Section receiver.
Context {M E S : Type}.
Context (look : bytes -> view M E) (callback : M -> S -> outcome S)
  (error : E -> Buffer.t -> S -> outcome (Buffer.t * S)).

(** Frames are not empty and lie in the queue. *)
Context (deliver_range : forall q n m, look q = Deliver n m -> (0 < n <= length q)%nat).

Fixpoint decode (fuel : nat) (q : bytes) : list M * bytes * stop E :=
  match fuel with
  | O => ([], q, Starved)
  | Datatypes.S fuel =>
      match look q with
      | Wait => ([], q, Starved)
      | Reject e => ([], q, Refused e)
      | Deliver n m => let r := decode fuel (drop n q) in (m :: r.1.1, r.1.2, r.2)
      end
  end.

Fixpoint deliver (ms : list M) (s : S) : outcome S :=
  match ms with
  | [] => mret s
  | m :: ms => s ← callback m s ; deliver ms s
  end.

Definition finish (r : stop E) (b : Buffer.t) (s : S) : outcome (Buffer.t * S) :=
  match r with Starved => Ok (b, s) | Refused e => error e b s end.

(** A loop whose turn does what the look says. *)
Context (loop : nat -> Buffer.t -> S -> outcome (Buffer.t * S)).
Context (loop_step : forall fuel b q s, Buffer.holds b q ->
  loop (Datatypes.S fuel) b s =
  match look q with
  | Wait => Ok (b, s)
  | Reject e => error e b s
  | Deliver n m => s ← callback m s ; b ← Buffer.retrieve b (Z.of_nat n) ; loop fuel b s
  end).

Lemma loop_decode fuel b q s :
  Buffer.holds b q -> (length q < fuel)%nat ->
  exists b', Buffer.holds b' (decode fuel q).1.2 /\
    loop fuel b s = (s ← deliver (decode fuel q).1.1 s ; finish (decode fuel q).2 b' s).
Proof.
  revert b q s. induction fuel as [|fuel IH]; intros b q s Hh Hf; [lia|].
  rewrite (loop_step fuel b q s Hh). cbn [decode].
  destruct (look q) as [|e|n m] eqn:Hlook; [by exists b..|]. cbn [fst snd deliver].
  pose proof (deliver_range q n m Hlook).
  destruct (Buffer.retrieve_spec b q (Z.of_nat n) Hh) as (b1 & -> & Hh1 & _); [unfold zlen; lia|].
  rewrite Nat2Z.id in Hh1. destruct (callback m s) as [s1|f] eqn:Hm.
  - rewrite !bind_ok. apply IH; [done|]. rewrite length_drop. lia.
  - destruct (IH b1 (drop n q) s Hh1) as (b2 & Hh2 & _); [rewrite length_drop; lia|]. by exists b2.
Qed.

Lemma decode_stop fuel q :
  (length q < fuel)%nat ->
  look (decode fuel q).1.2 = match (decode fuel q).2 with Starved => Wait | Refused e => Reject e end.
Proof.
  revert q. induction fuel as [|fuel IH]; intros q Hf; [lia|]. cbn [decode].
  destruct (look q) as [|e|n m] eqn:E0; [done..|]. cbn [fst snd]. apply IH.
  pose proof (deliver_range q n m E0). rewrite length_drop. lia.
Qed.

(** Frames that are recognised whatever follows, and not before they are complete. *)
Context (frame : M -> bytes) (good : M -> Prop).
Context (look_nil : look [] = Wait).
Context (look_frame : forall m r, good m -> look (frame m ++ r) = Deliver (length (frame m)) m).
Context (look_partial : forall m part rest,
  good m -> part ++ rest = frame m -> rest <> [] -> look part = Wait).

Definition stream (ms : list M) : bytes := concat (map frame ms).

Lemma decode_stream fuel ms part :
  Forall good ms -> look part = Wait -> (length ms < fuel)%nat ->
  decode fuel (stream ms ++ part) = (ms, part, Starved).
Proof.
  intros Hms Hw. revert fuel. induction Hms as [|m ms Hm _ IH]; intros [|fuel] Hf; try (simpl in Hf; lia).
  - cbn [decode stream map concat app]. by rewrite Hw.
  - cbn [decode stream map concat]. rewrite <- app_assoc, look_frame by done.
    rewrite drop_app_length. fold (stream ms). rewrite IH by (simpl in Hf; lia). done.
Qed.

Lemma length_stream ms : Forall good ms -> (length ms <= length (stream ms))%nat.
Proof.
  induction 1 as [|m ms Hm _ IH]; [done|]. cbn [stream map concat]. fold (stream ms).
  rewrite length_app. pose proof (deliver_range _ _ _ (look_frame m [] Hm)). cbn [length]. lia.
Qed.

Lemma loop_stream ms part b s :
  Forall good ms -> look part = Wait -> Buffer.holds b (stream ms ++ part) ->
  exists b', Buffer.holds b' part /\
    loop (Datatypes.S (length (stream ms ++ part))) b s = (s ← deliver ms s ; Ok (b', s)).
Proof.
  intros Hms Hw Hh.
  destruct (loop_decode (Datatypes.S (length (stream ms ++ part))) b _ s Hh) as (b' & Hh' & E0); [lia|].
  rewrite decode_stream in Hh', E0 by (try done; pose proof (length_stream ms Hms); rewrite length_app; lia).
  by exists b'.
Qed.

(** Wherever a stream is cut, the cut is at a frame or inside one. *)
Lemma stream_cut ms q1 q2 :
  Forall good ms -> q1 ++ q2 = stream ms ->
  exists ms1 ms2 part, ms = ms1 ++ ms2 /\ q1 = stream ms1 ++ part /\
    part ++ q2 = stream ms2 /\ look part = Wait.
Proof.
  intros Hms. revert q1. induction Hms as [|m ms Hm Hms IH]; intros q1 Hq.
  - apply app_eq_nil in Hq as [-> ->]. exists [], [], []. by rewrite look_nil.
  - cbn [stream map concat] in Hq. fold (stream ms) in Hq.
    destruct (decide (length q1 < length (frame m))%nat) as [Hlt|Hge].
    + exists [], (m :: ms), q1. split_and!; try done.
      assert (take (length q1) (frame m) = q1) as E0.
      { apply (f_equal (take (length q1))) in Hq. rewrite take_app_length, take_app_le in Hq by lia. done. }
      apply (look_partial m q1 (drop (length q1) (frame m))); [done|rewrite <- E0 at 1; apply take_drop|].
      intros Hn. apply (f_equal length) in Hn. rewrite length_drop in Hn. cbn [length] in Hn. lia.
    + assert (q1 = frame m ++ drop (length (frame m)) q1 /\ drop (length (frame m)) q1 ++ q2 = stream ms) as [E1 E2].
      { split.
        - apply (f_equal (take (length (frame m)))) in Hq. rewrite take_app_length, take_app_le in Hq by lia.
          rewrite <- Hq at 1. symmetry. apply take_drop.
        - apply (f_equal (drop (length (frame m)))) in Hq. by rewrite drop_app_length, drop_app_le in Hq by lia. }
      destruct (IH _ E2) as (ms1 & ms2 & part & -> & E3 & ? & ?).
      exists (m :: ms1), ms2, part. split_and!; try done.
      rewrite E1, E3. cbn [stream map concat]. by rewrite <- app_assoc.
Qed.

End receiver.
End Framing.
