(* ===== verification/Glue.v ===== *)
(** Helpers shared by the codecs: the checks copied from protobuf
    (src/libel/net/protorpc/google-inl.h) and the checked casts of
    src/libel/net/callbacks.h. *)

From S2P Require Import Prelude.

Module Glue.

(** [GOOGLE_CHECK(condition)] and [GOOGLE_CHECK_EQ(a, b)]. *)
Definition GOOGLE_CHECK (condition : bool) : outcome unit := if condition then Ok () else Fault Fatal.

(** Called when serializing gave another number of bytes than was computed before. *)
Definition ByteSizeConsistencyError (before after produced : Z) : outcome unit :=
  _ ← GOOGLE_CHECK (before =? after) ;
  _ ← GOOGLE_CHECK (produced =? before) ;
  Fault Fatal.

(** The text it leaves in the log. *)
Definition ByteSizeConsistencyError_text (before after produced : Z) : bytes :=
  if negb (before =? after) then str "Protocol message was modified concurrently during serialization."
  else if negb (produced =? before) then
    str "Byte size calculation and serialization were inconsistent.  This " ++
    str "may indicate a bug in protocol buffers or it may be caused by " ++
    str "concurrent modification of the message."
  else str "This shouldn't be called if all the sizes are equal.".

Lemma ByteSizeConsistencyError_fatal before after produced :
  ByteSizeConsistencyError before after produced = Fault Fatal.
Proof. unfold ByteSizeConsistencyError. by destruct (before =? after), (produced =? before). Qed.

(** The quotation mark. *)
Definition quote : bytes := [ascii_of_nat 34].

(** [typeName] and [missing] are what the message's [GetTypeName] and
    [InitializationErrorString] return. *)
Definition InitializationErrorMessage (action typeName missing : bytes) : bytes :=
  str "Can't " ++ action ++ str " message of type " ++ quote ++ typeName ++ quote ++
  str " because it is missing required fields: " ++ missing.

(** ** Casts

    An object of the base type either is a derived object or not; the pointer is null
    or refers to an object. *)
Section casts.
Context {From To : Type} (dynamic_cast : From -> option To).

(** [assert(f == NULL || dynamic_cast<To>(f) != NULL)], then the static cast, which
    is the dynamic one where the assertion holds. *)
Definition down_cast (f : option From) : outcome (option To) :=
  _ ← assert_ (match f with None => true | Some x => bool_decide (is_Some (dynamic_cast x)) end) ;
  mret (x ← f ; dynamic_cast x).

Definition down_pointer_cast (f : option From) : outcome (option To) :=
  _ ← assert_ (match f with None => true | Some x => bool_decide (is_Some (dynamic_cast x)) end) ;
  mret (x ← f ; dynamic_cast x).

(** A cast that returns keeps null null and an object an object. *)
Lemma down_pointer_cast_spec f p :
  down_pointer_cast f = Ok p ->
  match f with None => p = None | Some x => exists y, dynamic_cast x = Some y /\ p = Some y end.
Proof.
  unfold down_pointer_cast. destruct f as [x|]; simpl; [|by intros [= <-]].
  case_bool_decide as Hx; [|done]. simpl. intros [= <-]. destruct Hx as [y Hy]. by exists y.
Qed.

Lemma down_pointer_cast_object x y : dynamic_cast x = Some y -> down_pointer_cast (Some x) = Ok (Some y).
Proof.
  intros Hy. unfold down_pointer_cast. rewrite bool_decide_true by by eexists. simpl. by rewrite Hy.
Qed.
End casts.
#[global] Arguments down_pointer_cast : simpl never.
End Glue.
