(* ===== verification/Codec.v ===== *)
(** The framing of protobuf messages
    (src/libel/net/protobuf/ProtobufCodecLite.h, ProtobufCodecLite.cpp).

    The protobuf runtime and zlib are not part of the sources: they are the
    parameters [Protobuf] and [Zlib], with the documented facts the codec relies
    on as the class [ProtobufLaws] (nothing is assumed of the checksum). *)

From S2P Require Import Prelude NetBuffer NumText TimeText Polling Connection Framing Glue.

(** What the codec uses of [google::protobuf::Message].  [Serialized m] is what
    [SerializeWithCachedSizesToArray] stores; [ParseFromArray] parses into a fresh
    message of the prototype's type. *)
Class Protobuf := {
  Message : Type;
  IsInitialized : Message -> bool;
  ByteSize : Message -> Z;
  Serialized : Message -> bytes;
  ParseFromArray : bytes -> option Message;
}.

Class ProtobufLaws `{Protobuf} := {
  (* the size computed before serializing is the number of bytes produced *)
  ByteSize_Serialized m : IsInitialized m = true -> ByteSize m = zlen (Serialized m);
  (* serialized bytes parse back to the message *)
  Parse_Serialized m : IsInitialized m = true -> ParseFromArray (Serialized m) = Some m;
}.

(** [adler32(adler, buf, len)] *)
Class Zlib := { adler32 : Z -> bytes -> Z }.

Module ProtobufCodecLite.

Definition kHeaderLen : Z := 4.
Definition kChecksumLen : Z := 4.
Definition kMaxMessageLen : Z := 64 * 1024 * 1024.

Inductive ErrorCode :=
  | kNoError | kInvalidLength | kCheckSumError | kInvalidNameLen | kUnknownMessageType | kParseError.
#[global] Instance ErrorCode_eq_dec : EqDecision ErrorCode.
Proof. solve_decision. Defined.

Definition errorCodeToString (e : ErrorCode) : bytes :=
  match e with
  | kNoError => str "NoError"
  | kInvalidLength => str "InvalidLength"
  | kCheckSumError => str "CheckSumError"
  | kInvalidNameLen => str "InvalidNameLen"
  | kUnknownMessageType => str "UnknownMessageType"
  | kParseError => str "ParseError"
  end.

Section codec.
Context {HO : HostOrder} `{Protobuf} `{Zlib}.

(** The state the callbacks work on: the connection and whatever the user keeps. *)
Context {S : Type}.

Record t := mk {
  tag_ : bytes;
  messageCallback_ : Message -> TimeStamp.t -> S -> outcome S;
  rawMessageCallback_ : option (bytes -> TimeStamp.t -> S -> outcome (bool * S));
  errorCallback_ : option (ErrorCode -> Buffer.t -> TimeStamp.t -> S -> outcome (Buffer.t * S));
  kMinMessageLen_ : Z;
}.

(** The constructor.  [kMinMessageLen_] is initialised from the size of [tagArg]
    after [tag_] was moved out of it; the language leaves that size, [moved],
    unspecified (it is 0 with libstdc++). *)
Definition new (tagArg : bytes) (moved : Z)
  (messageCallback : Message -> TimeStamp.t -> S -> outcome S)
  (rawMessageCallback : option (bytes -> TimeStamp.t -> S -> outcome (bool * S)))
  (errorCallback : option (ErrorCode -> Buffer.t -> TimeStamp.t -> S -> outcome (Buffer.t * S))) : t :=
  {| tag_ := tagArg; messageCallback_ := messageCallback;
     rawMessageCallback_ := rawMessageCallback; errorCallback_ := errorCallback;
     kMinMessageLen_ := int32 (int32 moved + kChecksumLen) |}.

(** ** Writing a frame *)

(** [checksum(begin() + p, len)] *)
Definition checksum (b : Buffer.t) (p len : Z) : outcome Z :=
  if (len <? 0) || (zlen (Buffer.buffer_ b) <? p + len) then Fault OutOfBounds
  else mret (int32 (adler32 1 (sub p len (Buffer.buffer_ b)))).

Definition serializeToBuffer (message : Message) (b : Buffer.t) : outcome (Z * Buffer.t) :=
  _ ← Glue.GOOGLE_CHECK (IsInitialized message) ;
  let byte_size := ByteSize message in
  b ← Buffer.ensureWriteableBytes b (size_t (int32 (byte_size + kChecksumLen))) ;
  b ← Buffer.copy_to b (Buffer.beginWrite b) (Serialized message) ;
  let produced := zlen (Serialized message) in
  _ ← (if produced =? byte_size then mret ()
       else Glue.ByteSizeConsistencyError byte_size (ByteSize message) produced) ;
  b ← Buffer.hasWritten b (size_t byte_size) ;
  mret (byte_size, b).

Definition fillEmptyBuffer (c : t) (b : Buffer.t) (message : Message) : outcome Buffer.t :=
  _ ← assert_ (Buffer.readableBytes b =? 0) ;
  b ← Buffer.append b (tag_ c) ;
  r ← serializeToBuffer message b ;
  let byte_size := r.1 in
  let b := r.2 in
  checkSum ← checksum b (Buffer.peek b) (int32 (Buffer.readableBytes b)) ;
  b ← Buffer.appendInt32 b checkSum ;
  _ ← assert_ (Buffer.readableBytes b =? size_t (zlen (tag_ c) + uint32 byte_size + kChecksumLen)) ;
  let len := int32 (Endian.hostToNetwork32 (uint32 (int32 (Buffer.readableBytes b)))) in
  Buffer.prepend b (Endian.obj_bytes 4 (uint32 len)).

(** [send]: fill a buffer and hand it to the connection; [w] is what the socket
    answers if the connection writes at once. *)
Definition send (c : t) (inLoop : bool) (conn : TcpConnection.t) (message : Message)
  (w : TcpConnection.write_result) : outcome TcpConnection.t :=
  b ← fillEmptyBuffer c (Buffer.new Buffer.kInitialSize) message ;
  r ← TcpConnection.send_buffer inLoop conn b w ;
  mret r.1.

(** ** Reading frames *)

Definition asInt32 (b : Buffer.t) (p : Z) : outcome Z :=
  if (p <? 0) || (zlen (Buffer.buffer_ b) <? p + 4) then Fault OutOfBounds
  else mret (int32 (Endian.networkToHost32 (Endian.obj_value (sub p 4 (Buffer.buffer_ b))))).

Definition validateChecksum (b : Buffer.t) (p len : Z) : outcome bool :=
  expectedCheckSum ← asInt32 b (p + len - kChecksumLen) ;
  checkSum ← checksum b p (len - kChecksumLen) ;
  mret (checkSum =? expectedCheckSum).

(** [memcmp(begin() + p, s.data(), s.size()) == 0] *)
Definition memcmp_eq (b : Buffer.t) (p : Z) (s : bytes) : outcome bool :=
  if zlen (Buffer.buffer_ b) <? p + zlen s then Fault OutOfBounds
  else mret (bool_decide (sub p (zlen s) (Buffer.buffer_ b) = s)).

Definition parseFromBuffer (buffer : bytes) : option Message := ParseFromArray buffer.

(** The error code, and the message when there is none. *)
Definition parse (c : t) (b : Buffer.t) (buf len : Z) : outcome (ErrorCode * option Message) :=
  valid ← validateChecksum b buf len ;
  if valid : bool then
    same ← memcmp_eq b buf (tag_ c) ;
    if same : bool then
      let data := buf + zlen (tag_ c) in
      let dataLen := int32 (int32 (len - kChecksumLen) - int32 (zlen (tag_ c))) in
      s ← Buffer.string_at b data (size_t dataLen) ;
      match parseFromBuffer s with
      | Some message => mret (kNoError, Some message)
      | None => mret (kParseError, None)
      end
    else mret (kUnknownMessageType, None)
  else mret (kCheckSumError, None).

(** Calling [errorCallback_]; an empty [std::function] throws. *)
Definition error (c : t) (e : ErrorCode) (b : Buffer.t) (receiveTime : TimeStamp.t) (s : S)
  : outcome (Buffer.t * S) :=
  match errorCallback_ c with Some f => f e b receiveTime s | None => Fault Thrown end.

(** Whether [rawMessageCallback_] is absent or lets the frame through. *)
Definition raw_accepts (c : t) (b : Buffer.t) (n : Z) (receiveTime : TimeStamp.t) (s : S)
  : outcome (bool * S) :=
  match rawMessageCallback_ c with
  | Some f => frame ← Buffer.string_at b (Buffer.peek b) n ; f frame receiveTime s
  | None => mret (true, s)
  end.

Fixpoint onMessage (fuel : nat) (c : t) (b : Buffer.t) (receiveTime : TimeStamp.t) (s : S)
  : outcome (Buffer.t * S) :=
  match fuel with
  | O => Fault OutOfFuel
  | Datatypes.S fuel =>
      if uint32 (int32 (kMinMessageLen_ c + kHeaderLen)) <=? Buffer.readableBytes b then
        len ← Buffer.peekInt32 b ;
        if (kMaxMessageLen <? len) || (len <? kMinMessageLen_ c) then
          error c kInvalidLength b receiveTime s
        else if size_t (kHeaderLen + len) <=? Buffer.readableBytes b then
          a ← raw_accepts c b (size_t (kHeaderLen + len)) receiveTime s ;
          if negb a.1 then
            b ← Buffer.retrieve b (size_t (kHeaderLen + len)) ;
            onMessage fuel c b receiveTime a.2
          else
            r ← parse c b (Buffer.peek b + kHeaderLen) len ;
            match r with
            | (kNoError, Some message) =>
                s ← messageCallback_ c message receiveTime a.2 ;
                b ← Buffer.retrieve b (size_t (kHeaderLen + len)) ;
                onMessage fuel c b receiveTime s
            | (e, _) => error c e b receiveTime a.2
            end
        else mret (b, s)
      else mret (b, s)
  end.

End codec.
Arguments t {_} S.

(** [defaultErrorCallback]: log, and shut a connected connection down. *)
Definition defaultErrorCallback (inLoop : bool) (e : ErrorCode) (b : Buffer.t) (receiveTime : TimeStamp.t)
  (conn : TcpConnection.t) : outcome (Buffer.t * TcpConnection.t) :=
  if decide (TcpConnection.state_ conn = TcpConnection.kConnected) then
    conn ← TcpConnection.shutdown inLoop conn ; mret (b, conn)
  else mret (b, conn).

(** ** What the framing means *)
Section spec.
Context {HO : HostOrder} `{Protobuf} `{Zlib} {S : Type}.
Implicit Types (c : t S) (q : bytes) (s : S).

(** The payload of a frame, and the frame. *)
Definition signed (c : t S) (m : Message) : bytes := tag_ c ++ Serialized m.
Definition body (c : t S) (m : Message) : bytes :=
  signed c m ++ Buffer.be 4 (int32 (adler32 1 (signed c m))).
Definition frame (c : t S) (m : Message) : bytes :=
  Buffer.be 4 (zlen (body c m)) ++ body c m.
Definition stream (c : t S) : list Message -> bytes := Framing.stream (frame c).

(** The messages a codec can carry. *)
Definition sendable (c : t S) (m : Message) : Prop :=
  IsInitialized m = true /\ zlen (body c m) <= kMaxMessageLen.

(** The codecs the theorems speak of: no raw callback, and a minimal length
    between the one the constructor computes with an empty moved-from string and
    the intended one, the tag of a minimal frame lying inside the frame. *)
Record wf (c : t S) : Prop := mk_wf {
  wf_raw : rawMessageCallback_ c = None;
  wf_min : kChecksumLen <= kMinMessageLen_ c <= zlen (tag_ c) + kChecksumLen;
  wf_tag : zlen (tag_ c) <= kMinMessageLen_ c;
  wf_small : zlen (tag_ c) <= 2 ^ 20;
}.

(** What the receiver makes of the bytes of one frame: a message, an error, or
    (a tag that reaches into the checksum) an exception. *)
Inductive refusal := Error (e : ErrorCode) | Crash.
Definition Reject (e : ErrorCode) : Framing.view Message refusal := Framing.Reject (Error e).

Definition verdict (c : t S) (n : nat) (f : bytes) : Framing.view Message refusal :=
  let k := (length f - 4)%nat in
  if negb (int32 (adler32 1 (take k f)) =? int32 (Buffer.of_be (drop k f))) then Reject kCheckSumError
  else if negb (bool_decide (take (length (tag_ c)) f = tag_ c)) then Reject kUnknownMessageType
  else if (k <? length (tag_ c))%nat then Framing.Reject Crash
  else match ParseFromArray (drop (length (tag_ c)) (take k f)) with
       | Some m => Framing.Deliver n m
       | None => Reject kParseError
       end.

Definition look (c : t S) (q : bytes) : Framing.view Message refusal :=
  if zlen q <? kMinMessageLen_ c + kHeaderLen then Framing.Wait
  else
    let len := int32 (Buffer.of_be (take 4 q)) in
    if (kMaxMessageLen <? len) || (len <? kMinMessageLen_ c) then Reject kInvalidLength
    else if zlen q <? kHeaderLen + len then Framing.Wait
    else verdict c (Z.to_nat (kHeaderLen + len)) (sub kHeaderLen len q).

(** The messages of the queue [q], what remains of it, and why the loop ends. *)
Definition decode (fuel : nat) (c : t S) : bytes -> list Message * bytes * Framing.stop refusal :=
  Framing.decode (look c) fuel.

(** The message callback on each message in turn. *)
Definition deliver (c : t S) (ms : list Message) (receiveTime : TimeStamp.t) : S -> outcome S :=
  Framing.deliver (fun m => messageCallback_ c m receiveTime) ms.

(** What a refused frame makes the loop do. *)
Definition refuse (c : t S) (receiveTime : TimeStamp.t) (r : refusal) (b : Buffer.t) (s : S)
  : outcome (Buffer.t * S) :=
  match r with Error e => error c e b receiveTime s | Crash => Fault Thrown end.
Definition finish (c : t S) (r : Framing.stop refusal) (b : Buffer.t) (receiveTime : TimeStamp.t)
  : S -> outcome (Buffer.t * S) :=
  Framing.finish (refuse c receiveTime) r b.

(** *** Reading through pointers into the buffer *)
Lemma inside b q off len :
  Buffer.holds b q -> 0 <= off -> 0 <= len -> off + len <= zlen q ->
  sub (Buffer.peek b + off) len (Buffer.buffer_ b) = sub off len q /\
  Buffer.peek b + off + len <= zlen (Buffer.buffer_ b) /\ 0 <= Buffer.peek b.
Proof.
  intros [Hok <-] Ho Hl Hq. rewrite (Buffer.zlen_content b Hok) in Hq.
  unfold Buffer.ok, Buffer.peek, Buffer.content, Buffer.range, Buffer.beginWrite in *.
  split_and!; [|lia..]. symmetry. apply sub_sub; unfold Buffer.peek in *; lia.
Qed.

Lemma checksum_spec b q off len :
  Buffer.holds b q -> 0 <= off -> 0 <= len -> off + len <= zlen q ->
  checksum b (Buffer.peek b + off) len = Ok (int32 (adler32 1 (sub off len q))).
Proof.
  intros Hh Ho Hl Hq. destruct (inside b q off len Hh Ho Hl Hq) as (<- & ? & ?).
  unfold checksum. bcases; simpl; (lia || done).
Qed.

Lemma asInt32_spec b q off :
  Buffer.holds b q -> 0 <= off -> off + 4 <= zlen q ->
  asInt32 b (Buffer.peek b + off) = Ok (int32 (Buffer.of_be (sub off 4 q))).
Proof.
  intros Hh Ho Hq. destruct (inside b q off 4 Hh Ho) as (E & ? & ?); [lia..|].
  unfold asInt32. rewrite E. bcases; simpl; [lia..|].
  unfold Endian.networkToHost32, Buffer.of_be. unfold mret, outcome_ret. do 2 f_equal.
  rewrite <- Endian.htobe_obj_value. f_equal.
  pose proof (zlen_sub off 4 q Ho ltac:(lia) ltac:(lia)). unfold zlen in *. lia.
Qed.

Lemma memcmp_spec b q off (s : bytes) :
  Buffer.holds b q -> 0 <= off -> off + zlen s <= zlen q ->
  memcmp_eq b (Buffer.peek b + off) s = Ok (bool_decide (sub off (zlen s) q = s)).
Proof.
  intros Hh Ho Hq. destruct (inside b q off (zlen s) Hh Ho (zlen_nonneg s) Hq) as (E & ? & ?).
  unfold memcmp_eq. rewrite E. bcases; (lia || done).
Qed.

(** *** One frame *)

(** The pieces of the frame [f] that starts four bytes into the queue. *)
Lemma frame_pieces q len f :
  4 <= len -> kHeaderLen + len <= zlen q -> f = sub kHeaderLen len q ->
  zlen f = len /\
  sub kHeaderLen (len - kChecksumLen) q = take (length f - 4) f /\
  sub (kHeaderLen + (len - kChecksumLen)) 4 q = drop (length f - 4) f.
Proof.
  unfold kHeaderLen, kChecksumLen. intros Hl Hq ->.
  pose proof (zlen_sub 4 len q ltac:(lia) ltac:(lia) Hq) as Hz.
  assert (length (sub 4 len q) - 4 = Z.to_nat (len - 4))%nat as -> by (unfold zlen in Hz; lia).
  split_and!; [done| |].
  - rewrite <- take_sub, sub_sub by lia. f_equal; lia.
  - rewrite <- drop_sub, Hz, sub_sub by lia. f_equal; lia.
Qed.

Lemma validateChecksum_spec b q len f :
  Buffer.holds b q -> 4 <= len -> kHeaderLen + len <= zlen q -> f = sub kHeaderLen len q ->
  validateChecksum b (Buffer.peek b + kHeaderLen) len =
  Ok (int32 (adler32 1 (take (length f - 4) f)) =? int32 (Buffer.of_be (drop (length f - 4) f))).
Proof.
  intros Hh Hl Hq Hf. destruct (frame_pieces q len f Hl Hq Hf) as (_ & E1 & E2).
  unfold validateChecksum.
  replace (Buffer.peek b + kHeaderLen + len - kChecksumLen)
    with (Buffer.peek b + (kHeaderLen + (len - kChecksumLen))) by lia.
  unfold kHeaderLen, kChecksumLen in *.
  rewrite (asInt32_spec b q) by (done || lia). rewrite bind_ok.
  rewrite (checksum_spec b q) by (done || lia). rewrite bind_ok. by rewrite E1, E2.
Qed.

Definition parse_result (v : Framing.view Message refusal) : outcome (ErrorCode * option Message) :=
  match v with
  | Framing.Deliver _ m => Ok (kNoError, Some m)
  | Framing.Reject (Error e) => Ok (e, None)
  | Framing.Reject Crash | Framing.Wait => Fault Thrown
  end.

Lemma parse_spec c b q len n f :
  wf c -> Buffer.holds b q -> kMinMessageLen_ c <= len <= kMaxMessageLen ->
  kHeaderLen + len <= zlen q -> f = sub kHeaderLen len q ->
  parse c b (Buffer.peek b + kHeaderLen) len = parse_result (verdict c n f).
Proof.
  intros [_ Hmin Htag Hsmall] Hh Hl Hq Hf. unfold kMaxMessageLen, kChecksumLen in *.
  destruct (frame_pieces q len f ltac:(lia) Hq Hf) as (Hz & E1 & E2).
  pose proof (zlen_nonneg (tag_ c)). unfold parse, verdict.
  rewrite (validateChecksum_spec b q len f) by (done || lia). unfold kHeaderLen, kChecksumLen in *.
  rewrite bind_ok. destruct (_ =? _); simpl negb; cbv iota; [|done].
  rewrite (memcmp_spec b q) by (done || lia). rewrite bind_ok.
  assert (sub 4 (zlen (tag_ c)) q = take (length (tag_ c)) f) as ->.
  { rewrite Hf. replace (length (tag_ c)) with (Z.to_nat (zlen (tag_ c))) by (unfold zlen; lia).
    rewrite <- take_sub, sub_sub by lia. f_equal; lia. }
  destruct (bool_decide _) eqn:Ht; simpl negb; cbv iota; [|done].
  unfold kChecksumLen. rewrite (swrap_small 32 (len - 4)), (swrap_small 32 (zlen (tag_ c))), swrap_small
    by (unfold in_int; simpl; lia).
  assert (length f - 4 = Z.to_nat (len - 4))%nat as Hk by (unfold zlen in Hz; lia).
  destruct (Nat.ltb_spec (length f - 4) (length (tag_ c))) as [Hlt|Hge]; unfold zlen in *.
  - unfold Buffer.string_at. cbn [parse_result].
    assert (Buffer.max_size < size_t (len - 4 - Z.of_nat (length (tag_ c)))) as Hbig.
    { unfold uwrap. rewrite <- (Z.mod_add _ 1) by lia. rewrite Z.mod_small; unfold Buffer.max_size; lia. }
    bcases; (lia || done).
  - rewrite uwrap_small by lia.
    replace (Buffer.peek b + 4 + Z.of_nat (length (tag_ c)))
      with (Buffer.peek b + (4 + Z.of_nat (length (tag_ c)))) by lia.
    rewrite (Buffer.string_at_spec b q) by (unfold zlen; done || lia). rewrite bind_ok.
    assert (sub (Buffer.peek b + (4 + Z.of_nat (length (tag_ c))) - Buffer.peek b)
              (len - 4 - Z.of_nat (length (tag_ c))) q
            = drop (length (tag_ c)) (take (length f - 4) f)) as ->.
    { rewrite <- E1. fold (zlen (tag_ c)).
      replace (length (tag_ c)) with (Z.to_nat (zlen (tag_ c))) by (unfold zlen; lia).
      assert (zlen (sub 4 (len - 4) q) = len - 4) as Hs by (apply zlen_sub; unfold zlen; lia).
      rewrite <- drop_sub, Hs, sub_sub by (unfold zlen in *; lia). f_equal; unfold zlen; lia. }
    unfold parseFromBuffer. by destruct (ParseFromArray _).
Qed.

(** *** The receiver's loop *)
Lemma verdict_deliver c n f k m : verdict c n f = Framing.Deliver k m -> k = n.
Proof. unfold verdict, Reject. intros. repeat case_match; by simplify_eq. Qed.

Lemma verdict_not_wait c n f : verdict c n f <> Framing.Wait.
Proof. unfold verdict, Reject. repeat case_match; done. Qed.

Lemma look_deliver c q n m :
  wf c -> look c q = Framing.Deliver n m -> (0 < n <= length q)%nat.
Proof.
  intros [_ Hmin _ _]. unfold look, kHeaderLen, kChecksumLen in *.
  set (len := int32 _). bcases; simpl; try done.
  intros Hv. apply verdict_deliver in Hv as ->. unfold zlen in *. lia.
Qed.

Lemma onMessage_step c receiveTime :
  wf c -> forall fuel b q s, Buffer.holds b q ->
  onMessage (Datatypes.S fuel) c b receiveTime s =
  match look c q with
  | Framing.Wait => Ok (b, s)
  | Framing.Reject r => refuse c receiveTime r b s
  | Framing.Deliver n m =>
      s ← messageCallback_ c m receiveTime s ;
      b ← Buffer.retrieve b (Z.of_nat n) ;
      onMessage fuel c b receiveTime s
  end.
Proof.
  intros Hwf fuel b q s Hh. pose proof Hwf as [Hraw Hmin Htag Hsmall].
  unfold kChecksumLen in *. cbn [onMessage]. unfold look, raw_accepts. rewrite Hraw.
  rewrite (Buffer.readable_content b q Hh). unfold kHeaderLen at 1 6.
  rewrite swrap_small, uwrap_small by (unfold in_int; simpl; lia).
  destruct (Z.leb_spec (kMinMessageLen_ c + 4) (zlen q)), (Z.ltb_spec (zlen q) (kMinMessageLen_ c + 4));
    try lia; [|done].
  rewrite (Buffer.peekInt32_spec b q) by (done || lia). rewrite bind_ok.
  set (len := int32 _). destruct (_ || _) eqn:Hr; [done|].
  apply orb_false_iff in Hr as [Hr1 Hr2]. apply Z.ltb_ge in Hr1, Hr2.
  unfold kMaxMessageLen in Hr1. rewrite uwrap_small by (unfold kHeaderLen; lia).
  destruct (Z.leb_spec (kHeaderLen + len) (zlen q)), (Z.ltb_spec (zlen q) (kHeaderLen + len)); try lia; [|done].
  rewrite bind_ok. cbn [fst snd negb].
  rewrite (parse_spec c b q len (Z.to_nat (kHeaderLen + len)) (sub kHeaderLen len q))
    by (unfold kMaxMessageLen; done || lia).
  destruct (verdict _ _ _) as [|[e|]|n m] eqn:Hv; cbn [parse_result].
  - by apply verdict_not_wait in Hv.
  - rewrite bind_ok. by destruct e.
  - done.
  - apply verdict_deliver in Hv as ->. rewrite Z2Nat.id by (unfold kHeaderLen; lia). done.
Qed.

(** *** Frames on the wire *)
Context {PL : ProtobufLaws}.

Lemma zlen_signed c m : zlen (signed c m) = zlen (tag_ c) + zlen (Serialized m).
Proof. apply zlen_app. Qed.

Lemma zlen_body c m : zlen (body c m) = zlen (signed c m) + 4.
Proof. unfold body. rewrite zlen_app, Buffer.zlen_be. lia. Qed.

Lemma zlen_frame c m : zlen (frame c m) = 4 + zlen (body c m).
Proof. unfold frame. rewrite zlen_app, Buffer.zlen_be. lia. Qed.

Lemma body_bounds c m :
  wf c -> sendable c m -> kMinMessageLen_ c <= zlen (body c m) <= kMaxMessageLen.
Proof.
  intros [_ Hmin _ _] [_ Hmax]. rewrite zlen_body, zlen_signed in *. unfold kChecksumLen in *.
  pose proof (zlen_nonneg (Serialized m)). lia.
Qed.

Lemma verdict_body c n m : sendable c m -> verdict c n (body c m) = Framing.Deliver n m.
Proof.
  intros [Hinit _]. unfold verdict.
  assert (length (body c m) - 4 = length (signed c m))%nat as ->
    by (pose proof (zlen_body c m); unfold zlen in *; lia).
  unfold body. rewrite take_app_length, drop_app_length.
  rewrite Buffer.of_be_be, swrap_uwrap, (swrap_small 32 (swrap 32 _)), Z.eqb_refl
    by (lia || apply swrap_range; lia).
  unfold signed. rewrite <- app_assoc, take_app_length, bool_decide_true by done. simpl negb. cbv iota.
  rewrite length_app. destruct (Nat.ltb_spec (length (tag_ c) + length (Serialized m)) (length (tag_ c))); [lia|].
  rewrite drop_app_length, Parse_Serialized by done. done.
Qed.

(** The length field of a frame, whatever follows it. *)
Lemma frame_length c m r :
  wf c -> sendable c m -> int32 (Buffer.of_be (take 4 (frame c m ++ r))) = zlen (body c m).
Proof.
  intros Hwf Hm. pose proof (body_bounds c m Hwf Hm). pose proof (wf_min c Hwf).
  unfold frame, kChecksumLen, kMaxMessageLen in *. rewrite <- app_assoc.
  apply (Buffer.take_be_decode 4); [lia|]. unfold in_int. simpl. lia.
Qed.

Lemma look_frame c m r :
  wf c -> sendable c m -> look c (frame c m ++ r) = Framing.Deliver (length (frame c m)) m.
Proof.
  intros Hwf Hm. pose proof (body_bounds c m Hwf Hm) as Hb. pose proof (zlen_frame c m) as Hz.
  pose proof (zlen_nonneg r). unfold look. rewrite frame_length, zlen_app by done. unfold kHeaderLen.
  destruct (Z.ltb_spec (zlen (frame c m) + zlen r) (kMinMessageLen_ c + 4)); [lia|].
  destruct (Z.ltb_spec kMaxMessageLen (zlen (body c m))); [lia|].
  destruct (Z.ltb_spec (zlen (body c m)) (kMinMessageLen_ c)); [lia|]. simpl orb. cbv iota.
  destruct (Z.ltb_spec (zlen (frame c m) + zlen r) (4 + zlen (body c m))); [lia|].
  assert (sub 4 (zlen (body c m)) (frame c m ++ r) = body c m) as ->.
  { unfold frame. rewrite <- app_assoc. apply sub_middle; [by rewrite Buffer.zlen_be|done]. }
  rewrite verdict_body by done. f_equal. unfold zlen in *. lia.
Qed.

(** A frame of which bytes are missing makes the receiver wait. *)
Lemma look_partial c m part rest :
  wf c -> sendable c m -> part ++ rest = frame c m -> rest <> [] -> look c part = Framing.Wait.
Proof.
  intros Hwf Hm Hp Hr. pose proof (body_bounds c m Hwf Hm) as Hb. pose proof (zlen_frame c m) as Hz.
  pose proof (wf_min c Hwf). unfold kChecksumLen in *.
  assert (0 < zlen rest) by (destruct rest as [|x rest]; [done|];
    rewrite zlen_cons; pose proof (zlen_nonneg rest); lia).
  rewrite <- Hp, zlen_app in Hz. unfold look, kHeaderLen.
  destruct (Z.ltb_spec (zlen part) (kMinMessageLen_ c + 4)); [done|].
  assert (take 4 part = take 4 (frame c m ++ [])) as ->.
  { rewrite app_nil_r, <- Hp, take_app_le; [done|]. unfold zlen in *. lia. }
  rewrite frame_length by done.
  destruct (Z.ltb_spec kMaxMessageLen (zlen (body c m))); [lia|].
  destruct (Z.ltb_spec (zlen (body c m)) (kMinMessageLen_ c)); [lia|]. simpl orb. cbv iota.
  destruct (Z.ltb_spec (zlen part) (4 + zlen (body c m))); [done|lia].
Qed.

(** *** Filling a buffer *)
Lemma serializeToBuffer_spec m b q :
  IsInitialized m = true -> Buffer.holds b q -> zlen (Serialized m) < 2 ^ 30 ->
  Buffer.room b (zlen (Serialized m) + 4) ->
  exists b', serializeToBuffer m b = Ok (zlen (Serialized m), b') /\
    Buffer.holds b' (q ++ Serialized m) /\
    Z.min (Buffer.prependableBytes b) Buffer.kCheapPrepend <= Buffer.prependableBytes b' /\
    zlen (Buffer.buffer_ b') <= zlen (Buffer.buffer_ b) + zlen (Serialized m) + 4.
Proof.
  intros Hi [Hok Hc] Hl Hroom. pose proof (zlen_nonneg (Serialized m)).
  unfold serializeToBuffer. rewrite Hi, (ByteSize_Serialized m Hi). cbn [Glue.GOOGLE_CHECK]. rewrite bind_ok.
  unfold kChecksumLen. rewrite swrap_small, !uwrap_small by (unfold in_int; simpl; lia).
  destruct (Buffer.ensureWriteableBytes_spec b (zlen (Serialized m) + 4))
    as (b1 & -> & Hok1 & Hc1 & Hw & Hp & Hs); [done|lia|done|]. rewrite bind_ok.
  destruct (Buffer.store_spec b1 q (Serialized m)) as (b2 & b3 & -> & Hhas & Hh3 & Hp3 & Hl3);
    [split; [done|congruence]|lia|].
  rewrite bind_ok, Z.eqb_refl, bind_ok, Hhas, bind_ok. exists b3. rewrite Hp3. split_and!; (done || lia).
Qed.

Lemma fillEmptyBuffer_spec c m b :
  wf c -> sendable c m -> Buffer.holds b [] -> 4 <= Buffer.prependableBytes b ->
  zlen (Buffer.buffer_ b) <= 2 ^ 30 ->
  exists b', fillEmptyBuffer c b m = Ok b' /\ Buffer.holds b' (frame c m).
Proof.
  intros Hwf [Hi Hmax] Hh Hp Hsz. pose proof (wf_small c Hwf).
  rewrite zlen_body, zlen_signed in Hmax. unfold kMaxMessageLen in Hmax.
  pose proof (zlen_nonneg (tag_ c)). pose proof (zlen_nonneg (Serialized m)).
  unfold fillEmptyBuffer. rewrite (Buffer.readable_content b [] Hh). passert.
  destruct (Buffer.append_spec b [] (tag_ c) Hh) as (b1 & -> & Hh1 & Hp1 & Hs1);
    [unfold Buffer.room, Buffer.max_size; lia|]. rewrite bind_ok.
  destruct (serializeToBuffer_spec m b1 (tag_ c)) as (b2 & -> & Hh2 & Hp2 & Hs2);
    [done..|lia|unfold Buffer.room, Buffer.max_size; lia|]. rewrite bind_ok. cbn [fst snd].
  fold (signed c m) in Hh2.
  assert (checksum b2 (Buffer.peek b2) (int32 (Buffer.readableBytes b2))
          = Ok (int32 (adler32 1 (signed c m)))) as ->.
  { rewrite (Buffer.readable_content b2 _ Hh2), swrap_small by (rewrite ?zlen_signed; unfold in_int; simpl; lia).
    rewrite <- (Z.add_0_r (Buffer.peek b2)), (checksum_spec b2 _ 0 _ Hh2) by (auto using zlen_nonneg with lia).
    by rewrite sub_full. }
  rewrite bind_ok, Buffer.appendInt32_be.
  destruct (Buffer.append_spec b2 _ (Buffer.be 4 (int32 (adler32 1 (signed c m)))) Hh2)
    as (b3 & -> & Hh3 & Hp3 & Hs3); [rewrite Buffer.zlen_be; unfold Buffer.room, Buffer.max_size; lia|].
  fold (body c m) in Hh3. rewrite bind_ok, (Buffer.readable_content b3 _ Hh3), zlen_body, zlen_signed.
  unfold kChecksumLen. rewrite (uwrap_small 32 (zlen (Serialized m))), (uwrap_small 64) by lia.
  rewrite assert_pass by (apply Z.eqb_eq; lia).
  rewrite (swrap_small 32 (_ + 4)) by (unfold in_int; simpl; lia).
  rewrite (Buffer.net_bytes 4 _ ltac:(lia)
    : Endian.obj_bytes 4 (uint32 (int32 (Endian.hostToNetwork32 (uint32 (_ + 4))))) = _).
  destruct (Buffer.prepend_spec b3 _ (Buffer.be 4 (zlen (tag_ c) + zlen (Serialized m) + 4)) Hh3)
    as (b4 & -> & Hh4 & _); [rewrite Buffer.zlen_be; unfold Buffer.kCheapPrepend in *; lia|].
  exists b4. split; [done|]. unfold frame. by rewrite zlen_body, zlen_signed.
Qed.

Lemma onMessage_stream c ms part receiveTime b s :
  wf c -> Forall (sendable c) ms -> look c part = Framing.Wait -> Buffer.holds b (stream c ms ++ part) ->
  exists b', Buffer.holds b' part /\
    onMessage (Datatypes.S (length (stream c ms ++ part))) c b receiveTime s =
    (s ← deliver c ms receiveTime s ; Ok (b', s)).
Proof.
  intros Hwf.
  apply (Framing.loop_stream (look c) _ _ (fun q n m => look_deliver c q n m Hwf)
    (fun fuel b s => onMessage fuel c b receiveTime s) (onMessage_step c receiveTime Hwf)
    (frame c) (sendable c) (fun m r => look_frame c m r Hwf)).
Qed.

Lemma look_nil c : wf c -> look c [] = Framing.Wait.
Proof.
  intros [_ Hmin _ _]. unfold look, kHeaderLen, kChecksumLen in *. rewrite zlen_nil.
  destruct (Z.ltb_spec 0 (kMinMessageLen_ c + 4)); (done || lia).
Qed.

(** C11. Round trip over any segmentation: each message is filled into an empty
    buffer as one frame (length, tag, payload, checksum), and when the frames of
    [ms] arrive in two pieces cut anywhere, the first call of [onMessage] delivers
    the complete frames in order and keeps the partial one, and the call after the
    rest has arrived delivers all others and empties the buffer. *)
Theorem codec_roundtrip c ms q1 q2 receiveTime :
  wf c -> Forall (sendable c) ms -> q1 ++ q2 = stream c ms ->
  (forall m, m ∈ ms -> exists b, fillEmptyBuffer c (Buffer.new Buffer.kInitialSize) m = Ok b /\
     Buffer.holds b (frame c m)) /\
  exists ms1 ms2 part, ms = ms1 ++ ms2 /\ part ++ q2 = stream c ms2 /\
    (forall b s, Buffer.holds b q1 -> exists b', Buffer.holds b' part /\
       onMessage (Datatypes.S (length q1)) c b receiveTime s =
       (s ← deliver c ms1 receiveTime s ; Ok (b', s))) /\
    (forall b s, Buffer.holds b (part ++ q2) -> exists b', Buffer.holds b' [] /\
       onMessage (Datatypes.S (length (part ++ q2))) c b receiveTime s =
       (s ← deliver c ms2 receiveTime s ; Ok (b', s))).
Proof.
  intros Hwf Hms Hq. split.
  { intros m Hm. rewrite Forall_forall in Hms. apply fillEmptyBuffer_spec; auto; [|done..].
    by apply Buffer.new_holds. }
  destruct (Framing.stream_cut (look c) (frame c) (sendable c) (look_nil c Hwf)
    (fun m part rest => look_partial c m part rest Hwf) ms q1 q2 Hms Hq)
    as (ms1 & ms2 & part & -> & -> & E & Hw).
  apply Forall_app in Hms as [H1 H2]. exists ms1, ms2, part. split_and!; [done..| |].
  - intros b s Hb. by apply onMessage_stream.
  - intros b s Hb. rewrite E in *. fold (stream c ms2) in *. rewrite <- (app_nil_r (stream c ms2)) in *.
    apply onMessage_stream; auto using look_nil.
Qed.

(** C12. [onMessage] on every input: it returns within as many turns as there are
    bytes, has handed the complete valid frames at the front of the buffer to the
    message callback in order, and stops either because a frame is incomplete or,
    with the offending frame left at the front of the buffer, by one call of the
    error callback with the code of the first failing test (length, checksum, tag,
    payload); no exception is possible when the minimal length counts the tag. *)
Theorem codec_onMessage_refines c b q receiveTime s :
  wf c -> Buffer.holds b q ->
  let fuel := Datatypes.S (length q) in
  let r := decode fuel c q in
  (exists b', Buffer.holds b' r.1.2 /\
    onMessage fuel c b receiveTime s =
    (s ← deliver c r.1.1 receiveTime s ; finish c r.2 b' receiveTime s)) /\
  look c r.1.2 =
    match r.2 with Framing.Starved => Framing.Wait | Framing.Refused e => Framing.Reject e end /\
  (kMinMessageLen_ c = zlen (tag_ c) + kChecksumLen -> r.2 <> Framing.Refused Crash).
Proof.
  intros Hwf Hh fuel r. assert (length q < fuel)%nat as Hf by (unfold fuel; lia).
  assert (forall q n m, look c q = Framing.Deliver n m -> (0 < n <= length q)%nat) as Hrange
    by (intros; by eapply look_deliver).
  split.
  { by apply (Framing.loop_decode (look c) _ _ Hrange (fun fuel b s => onMessage fuel c b receiveTime s)
      (onMessage_step c receiveTime Hwf)). }
  pose proof (Framing.decode_stop (look c) Hrange fuel q Hf) as Hl.
  change (Framing.decode (look c) fuel q) with r in Hl.
  split; [done|]. intros Hmin Hc. rewrite Hc in Hl. clear Hc. revert Hl.
  unfold look, kHeaderLen, kChecksumLen in *. set (len := int32 _). bcases; simpl; try done.
  unfold verdict, Reject. pose proof (zlen_sub 4 len r.1.2) as Hz. pose proof (zlen_nonneg (tag_ c)).
  repeat case_match; try done. intros _.
  match goal with Hlt : (_ <? _)%nat = true |- _ => apply Nat.ltb_lt in Hlt end.
  unfold zlen in *. lia.
Qed.
End spec.

(** *** A concrete runtime: messages are their own payload, one that starts with
    an exclamation mark does not parse; the checksum is Adler-32. *)
Definition demo_ok (m : bytes) : bool := match m with "!"%char :: _ => false | _ => true end.
Definition demo_protobuf : Protobuf :=
  {| Message := bytes; IsInitialized := demo_ok; ByteSize := zlen; Serialized := fun m => m;
     ParseFromArray := fun s => if demo_ok s then Some s else None |}.
Lemma demo_protobuf_laws : @ProtobufLaws demo_protobuf.
Proof. split; simpl; intros m Hm; by rewrite ?Hm. Qed.
Definition demo_adler (adler : Z) (s : bytes) : Z :=
  let r := fold_left (fun ab x => let a := (ab.1 + Z_of_byte x) mod 65521 in (a, (ab.2 + a) mod 65521))
             s (adler mod 65536, adler / 65536) in
  r.2 * 65536 + r.1.
Definition demo_zlib : Zlib := {| adler32 := demo_adler |}.

(** The state of the callbacks is the list of messages and errors seen. *)
Definition demo_codec : @t demo_protobuf (list bytes) :=
  @new demo_protobuf (list bytes) (str "RPC0") 0
    (fun m _ s => Ok (s ++ [m])) None (Some (fun e b _ s => Ok (b, s ++ [errorCodeToString e]))).
Definition demo_stream : bytes :=
  @stream demo_protobuf demo_zlib (list bytes) demo_codec [str "hello"; str "world"].

Lemma demo_wf : @wf demo_protobuf (list bytes) demo_codec.
Proof. split; vm_compute; (done || lia || split; done). Qed.

Lemma demo_sendable (m : bytes) :
  demo_ok m = true -> zlen m <= 100 ->
  @sendable demo_protobuf demo_zlib (list bytes) demo_codec m.
Proof.
  intros Hm Hl. split; [done|]. rewrite (@zlen_body demo_protobuf demo_zlib).
  rewrite (@zlen_signed demo_protobuf). simpl Serialized.
  change (zlen (tag_ demo_codec)) with 4. unfold kMaxMessageLen. lia.
Qed.

Lemma codec_roundtrip_witness :
  let HO := LittleEndian : HostOrder in
  exists b, @fillEmptyBuffer HO demo_protobuf demo_zlib (list bytes) demo_codec
              (Buffer.new Buffer.kInitialSize) (str "hello") = Ok b /\
    Buffer.content b = take 17 demo_stream.
Proof.
  intros HO.
  destruct (proj1 (@codec_roundtrip HO demo_protobuf demo_zlib (list bytes) demo_protobuf_laws
    demo_codec [str "hello"; str "world"] (take 20 demo_stream) (drop 20 demo_stream) 0
    demo_wf
    ltac:(repeat (apply Forall_cons; split; [apply demo_sendable; [done|vm_compute; done]|]); apply Forall_nil; done)
    (take_drop 20 demo_stream)) (str "hello") ltac:(left)) as (b & Hb & _ & Hc).
  exists b. split; [done|]. rewrite Hc. by vm_compute.
Defined.

(** The second of two frames has a corrupted payload. *)
Definition demo_corrupt : bytes := take 30 demo_stream ++ str "x" ++ drop 31 demo_stream.

Definition demo_input : Buffer.t :=
  match Buffer.append (Buffer.new Buffer.kInitialSize) demo_corrupt with
  | Ok b => b
  | Fault _ => Buffer.new 0
  end.

Lemma codec_onMessage_refines_witness :
  let HO := LittleEndian : HostOrder in
  exists b', Buffer.holds b' (drop 17 demo_corrupt) /\
    @onMessage HO demo_protobuf demo_zlib (list bytes) (Datatypes.S (length demo_corrupt))
      demo_codec demo_input 0 []
    = Ok (b', [str "hello"; str "CheckSumError"]).
Proof.
  intros HO.
  destruct (Buffer.append_spec (Buffer.new Buffer.kInitialSize) [] demo_corrupt) as (b & Hb & Hh & _);
    [by apply Buffer.new_holds|by vm_compute|].
  unfold demo_input. rewrite Hb.
  destruct (proj1 (@codec_onMessage_refines HO demo_protobuf demo_zlib (list bytes)
    demo_codec b demo_corrupt 0 [] demo_wf Hh)) as (b' & Hh' & E).
  exists b'. split; [exact Hh'|]. rewrite E. by vm_compute.
Defined.

End ProtobufCodecLite.
