(* ===== verification/TypedCodec.v ===== *)
(** The self-describing codec of src/examples/protobuf/codec (codec.h, codec.cpp):
    frames that carry the type name of their message.  It uses the buffer, the
    connection and the checksum of the other codec; the protobuf runtime, with its
    registry of message types, is the parameter [TypedProtobuf]. *)

From S2P Require Import Prelude NetBuffer NumText TimeText Polling Connection Framing Glue Codec.

(** What the codec uses of the protobuf runtime.  [FindMessageTypeByName] and
    [GetPrototype] are the registry of generated types; [ParseFromArray] parses into a
    message made by [New] of a prototype. *)
Class TypedProtobuf := {
  Message : Type;
  Descriptor : Type;
  Prototype : Type;
  GetTypeName : Message -> bytes;
  IsInitialized : Message -> bool;
  ByteSize : Message -> Z;
  Serialized : Message -> bytes;
  FindMessageTypeByName : bytes -> option Descriptor;
  GetPrototype : Descriptor -> option Prototype;
  ParseFromArray : Prototype -> bytes -> option Message;
}.

Class TypedProtobufLaws `{TypedProtobuf} := {
  (* a type name is a non-empty identifier *)
  TypeName_text m : GetTypeName m <> [] /\ Forall (fun c => c <> nul) (GetTypeName m);
  ByteSize_Serialized m : IsInitialized m = true -> ByteSize m = zlen (Serialized m);
  (* the type of a message is registered, and its bytes parse back *)
  Registered m : exists d p, FindMessageTypeByName (GetTypeName m) = Some d /\ GetPrototype d = Some p /\
    (IsInitialized m = true -> ParseFromArray p (Serialized m) = Some m);
}.

Module ProtobufCodec.

Definition kHeaderLen : Z := 4.
Definition kMinMessageLen : Z := 2 * kHeaderLen + 2.
Definition kMaxMessageLen : Z := 64 * 1024 * 1024.

Inductive ErrorCode :=
  | kNoError | kInvalidLength | kCheckSumError | kInvalidNameLen | kUnknownMessageType | kParseError.
#[global] Instance ErrorCode_eq_dec : EqDecision ErrorCode.
Proof. solve_decision. Defined.

Definition errorCodeToString (e : ErrorCode) : bytes :=
  match e with
  | kNoError => str "NoError"
  | kInvalidLength => str "InvalidLength"
  | kCheckSumError => str "CheckSumError"
  | kInvalidNameLen => str "InvalidNameLen"
  | kUnknownMessageType => str "UnknownMessageType"
  | kParseError => str "ParseError"
  end.

Section codec.
Context {HO : HostOrder} `{TypedProtobuf} `{Zlib}.
Context {S : Type}.

Record t := mk {
  messageCallback_ : Message -> TimeStamp.t -> S -> outcome S;
  errorCallback_ : ErrorCode -> Buffer.t -> TimeStamp.t -> S -> outcome (Buffer.t * S);
}.

(** The constructor with an error callback. *)
Definition new_error (messageCallback : Message -> TimeStamp.t -> S -> outcome S)
  (errorCallback : ErrorCode -> Buffer.t -> TimeStamp.t -> S -> outcome (Buffer.t * S)) : t :=
  {| messageCallback_ := messageCallback; errorCallback_ := errorCallback |}.

(** ** Writing a frame *)
Definition fillEmptyBuffer (b : Buffer.t) (message : Message) : outcome Buffer.t :=
  _ ← assert_ (Buffer.readableBytes b =? 0) ;
  let typeName := GetTypeName message in
  let nameLen := int32 (size_t (zlen typeName + 1)) in
  b ← Buffer.appendInt32 b nameLen ;
  b ← Buffer.append b (sub 0 (size_t nameLen) (typeName ++ [nul])) ;
  _ ← Glue.GOOGLE_CHECK (IsInitialized message) ;
  let byte_size := ByteSize message in
  b ← Buffer.ensureWriteableBytes b (size_t byte_size) ;
  b ← Buffer.copy_to b (Buffer.beginWrite b) (Serialized message) ;
  let produced := zlen (Serialized message) in
  _ ← (if produced =? byte_size then mret ()
       else Glue.ByteSizeConsistencyError byte_size (ByteSize message) produced) ;
  b ← Buffer.hasWritten b (size_t byte_size) ;
  checkSum ← ProtobufCodecLite.checksum b (Buffer.peek b) (uint32 (Buffer.readableBytes b)) ;
  b ← Buffer.appendInt32 b checkSum ;
  _ ← assert_ (Buffer.readableBytes b =? size_t (size_t (4 + size_t nameLen + size_t byte_size) + 4)) ;
  let len := Endian.hostToNetwork32 (uint32 (Buffer.readableBytes b)) in
  Buffer.prepend b (Endian.obj_bytes 4 len).

(** [send] makes a buffer and returns. *)
Definition send (conn : TcpConnection.t) (message : Message) : TcpConnection.t :=
  let buffer := Buffer.new Buffer.kInitialSize in
  conn.

(** ** Reading frames *)
Definition asInt32 (b : Buffer.t) (p : Z) : outcome Z :=
  if (p <? 0) || (zlen (Buffer.buffer_ b) <? p + 4) then Fault OutOfBounds
  else mret (int32 (Endian.networkToHost32 (Endian.obj_value (sub p 4 (Buffer.buffer_ b))))).

Definition createMessage (type_name : bytes) : option Prototype :=
  match FindMessageTypeByName type_name with
  | Some descriptor => GetPrototype descriptor
  | None => None
  end.

(** The error code and the message ([None] for a null pointer).  A message whose
    bytes do not parse is returned with its error; nobody looks at it. *)
Definition parse (b : Buffer.t) (buffer len : Z) : outcome (ErrorCode * option Message) :=
  expectedCheckSum ← asInt32 b (buffer + len - kHeaderLen) ;
  checkSum ← ProtobufCodecLite.checksum b buffer (uint32 (int32 (len - kHeaderLen))) ;
  if expectedCheckSum =? checkSum then
    nameLen ← asInt32 b buffer ;
    if (2 <=? nameLen) && (nameLen <=? len - 2 * kHeaderLen) then
      typeName ← Buffer.string_at b (buffer + kHeaderLen) (nameLen - 1) ;
      match createMessage typeName with
      | Some message =>
          let data := buffer + kHeaderLen + nameLen in
          let dataLen := int32 (len - nameLen - 2 * kHeaderLen) in
          s ← Buffer.string_at b data dataLen ;
          match ParseFromArray message s with
          | Some m => mret (kNoError, Some m)
          | None => mret (kParseError, None)
          end
      | None => mret (kUnknownMessageType, None)
      end
    else mret (kInvalidNameLen, None)
  else mret (kCheckSumError, None).

Fixpoint onMessage (fuel : nat) (c : t) (b : Buffer.t) (receiveTime : TimeStamp.t) (s : S)
  : outcome (Buffer.t * S) :=
  match fuel with
  | O => Fault OutOfFuel
  | Datatypes.S fuel =>
      if kMinMessageLen + kHeaderLen <=? Buffer.readableBytes b then
        len ← Buffer.peekInt32 b ;
        if (kMaxMessageLen <? len) || (len <? kMinMessageLen) then
          errorCallback_ c kInvalidLength b receiveTime s
        else if size_t (int32 (len + kHeaderLen)) <=? Buffer.readableBytes b then
          r ← parse b (Buffer.peek b + kHeaderLen) len ;
          match r with
          | (kNoError, Some message) =>
              s ← messageCallback_ c message receiveTime s ;
              b ← Buffer.retrieve b (size_t (int32 (len + kHeaderLen))) ;
              onMessage fuel c b receiveTime s
          | (e, _) => errorCallback_ c e b receiveTime s
          end
        else mret (b, s)
      else mret (b, s)
  end.

End codec.
Arguments t {_} S.

Definition defaultErrorCallback (inLoop : bool) (e : ErrorCode) (b : Buffer.t) (receiveTime : TimeStamp.t)
  (conn : TcpConnection.t) : outcome (Buffer.t * TcpConnection.t) :=
  if decide (TcpConnection.state_ conn = TcpConnection.kConnected) then
    conn ← TcpConnection.shutdown inLoop conn ; mret (b, conn)
  else mret (b, conn).

(** The constructor without one; [inLoop] is whether the codec runs in the
    connection's thread. *)
Definition new `{TypedProtobuf} (inLoop : bool)
  (messageCallback : Message -> TimeStamp.t -> TcpConnection.t -> outcome TcpConnection.t)
  : t TcpConnection.t :=
  {| messageCallback_ := messageCallback; errorCallback_ := defaultErrorCallback inLoop |}.

(** ** What a frame means *)
Section spec.
Context {HO : HostOrder} `{TypedProtobuf} `{Zlib} {S : Type}.
Implicit Types (c : t S) (q : bytes) (s : S).

Definition name_part (m : Message) : bytes :=
  Buffer.be 4 (zlen (GetTypeName m) + 1) ++ GetTypeName m ++ [nul].
Definition signed (m : Message) : bytes := name_part m ++ Serialized m.
Definition body (m : Message) : bytes := signed m ++ Buffer.be 4 (int32 (adler32 1 (signed m))).
Definition frame (m : Message) : bytes := Buffer.be 4 (zlen (body m)) ++ body m.

Definition sendable (m : Message) : Prop := IsInitialized m = true /\ zlen (body m) <= kMaxMessageLen.

(** The bytes of one frame behind its length field: checksum, name length, type,
    payload, in this order. *)
Definition verdict (n : nat) (f : bytes) : Framing.view Message ErrorCode :=
  let nameLen := int32 (Buffer.of_be (sub 0 4 f)) in
  if negb (int32 (Buffer.of_be (sub (zlen f - 4) 4 f)) =? int32 (adler32 1 (sub 0 (zlen f - 4) f)))
  then Framing.Reject kCheckSumError
  else if negb ((2 <=? nameLen) && (nameLen <=? zlen f - 8)) then Framing.Reject kInvalidNameLen
  else match createMessage (sub 4 (nameLen - 1) f) with
       | None => Framing.Reject kUnknownMessageType
       | Some p =>
           match ParseFromArray p (sub (4 + nameLen) (zlen f - nameLen - 8) f) with
           | Some m => Framing.Deliver n m
           | None => Framing.Reject kParseError
           end
       end.

Definition look (q : bytes) : Framing.view Message ErrorCode :=
  if zlen q <? kMinMessageLen + kHeaderLen then Framing.Wait
  else
    let len := int32 (Buffer.of_be (take 4 q)) in
    if (kMaxMessageLen <? len) || (len <? kMinMessageLen) then Framing.Reject kInvalidLength
    else if zlen q <? kHeaderLen + len then Framing.Wait
    else verdict (Z.to_nat (kHeaderLen + len)) (sub kHeaderLen len q).

Lemma typed_verdict_deliver n f k m : verdict n f = Framing.Deliver k m -> k = n.
Proof. unfold verdict. intros E. repeat case_match; by simplify_eq. Qed.

Lemma typed_verdict_not_wait n f : verdict n f <> Framing.Wait.
Proof. unfold verdict. repeat case_match; done. Qed.

Lemma typed_look_deliver q n m : look q = Framing.Deliver n m -> (0 < n <= length q)%nat.
Proof.
  unfold look, kHeaderLen, kMinMessageLen, kHeaderLen in *. set (len := int32 _). bcases; simpl; try done.
  intros Hv. apply typed_verdict_deliver in Hv as ->. unfold zlen in *. lia.
Qed.

Definition parse_result (v : Framing.view Message ErrorCode) : outcome (ErrorCode * option Message) :=
  match v with
  | Framing.Deliver _ m => Ok (kNoError, Some m)
  | Framing.Reject e => Ok (e, None)
  | Framing.Wait => Fault OutOfFuel
  end.

(** A read at [p], an offset [o] into the frame that starts four bytes into the queue. *)
Lemma sub_frame q len f o k :
  f = sub 4 len q -> 0 <= o -> 0 <= k -> o + k <= len -> sub (4 + o) k q = sub o k f.
Proof. intros -> Ho Hk Hok. by rewrite sub_sub by lia. Qed.

Lemma typed_parse_spec b q len n f :
  Buffer.holds b q -> kMinMessageLen <= len <= kMaxMessageLen ->
  kHeaderLen + len <= zlen q -> f = sub kHeaderLen len q ->
  parse b (Buffer.peek b + kHeaderLen) len = parse_result (verdict n f).
Proof.
  unfold kMinMessageLen, kMaxMessageLen, kHeaderLen. intros Hh Hl Hq Hf.
  assert (zlen f = len) as Hz by (rewrite Hf; apply zlen_sub; lia).
  assert (forall o, 0 <= o -> o + 4 <= len ->
    asInt32 b (Buffer.peek b + 4 + o) = Ok (int32 (Buffer.of_be (sub o 4 f)))) as Hint.
  { intros o Ho Ho'. rewrite <- (sub_frame q len f o) by (done || lia).
    rewrite <- Z.add_assoc. apply ProtobufCodecLite.asInt32_spec; (done || lia). }
  unfold parse, verdict, kHeaderLen. rewrite Hz.
  replace (Buffer.peek b + 4 + len - 4) with (Buffer.peek b + 4 + (len - 4)) by lia.
  rewrite Hint by lia. rewrite bind_ok, (swrap_small 32 (len - 4)), uwrap_small by (unfold in_int; simpl; lia).
  rewrite (ProtobufCodecLite.checksum_spec b q) by (done || lia). rewrite bind_ok.
  change (sub 4 (len - 4) q) with (sub (4 + 0) (len - 4) q).
  rewrite (sub_frame q len f 0) by (done || lia).
  destruct (_ =? _); simpl negb; cbv iota; [|done].
  rewrite <- (Z.add_0_r (Buffer.peek b + 4)) at 1. rewrite Hint by lia. rewrite bind_ok.
  generalize (int32 (Buffer.of_be (sub 0 4 f))). intros nameLen. change (2 * 4) with 8.
  destruct (Z.leb_spec 2 nameLen), (Z.leb_spec nameLen (len - 8)); simpl; try done.
  rewrite (Buffer.string_at_spec b q (Buffer.peek b + 4 + 4)) by (done || lia). rewrite bind_ok.
  replace (Buffer.peek b + 4 + 4 - Buffer.peek b) with (4 + 4) by lia.
  rewrite (sub_frame q len f) by (done || lia).
  destruct (createMessage _) as [p|]; [|done].
  rewrite (swrap_small 32 (len - nameLen - 8)) by (unfold in_int; simpl; lia).
  rewrite (Buffer.string_at_spec b q) by (done || lia). rewrite bind_ok.
  replace (Buffer.peek b + 4 + 4 + nameLen - Buffer.peek b) with (4 + (4 + nameLen)) by lia.
  rewrite (sub_frame q len f) by (done || lia). by destruct (ParseFromArray _ _).
Qed.

Lemma typed_onMessage_step c receiveTime fuel b q s :
  Buffer.holds b q ->
  onMessage (Datatypes.S fuel) c b receiveTime s =
  match look q with
  | Framing.Wait => Ok (b, s)
  | Framing.Reject e => errorCallback_ c e b receiveTime s
  | Framing.Deliver n m =>
      s ← messageCallback_ c m receiveTime s ;
      b ← Buffer.retrieve b (Z.of_nat n) ;
      onMessage fuel c b receiveTime s
  end.
Proof.
  intros Hh. cbn [onMessage]. unfold look. rewrite (Buffer.readable_content b q Hh).
  destruct (Z.leb_spec (kMinMessageLen + kHeaderLen) (zlen q)), (Z.ltb_spec (zlen q) (kMinMessageLen + kHeaderLen));
    try lia; [|done].
  unfold kMinMessageLen, kHeaderLen in *.
  rewrite (Buffer.peekInt32_spec b q) by (done || lia). rewrite bind_ok.
  set (len := int32 _). destruct (_ || _) eqn:Hr; [done|].
  apply orb_false_iff in Hr as [Hr1 Hr2]. apply Z.ltb_ge in Hr1, Hr2. unfold kMaxMessageLen in Hr1.
  rewrite swrap_small, uwrap_small by (unfold in_int; simpl; lia). rewrite (Z.add_comm len 4).
  destruct (Z.leb_spec (4 + len) (zlen q)), (Z.ltb_spec (zlen q) (4 + len)); try lia; [|done].
  change (Buffer.peek b + 4) with (Buffer.peek b + kHeaderLen).
  rewrite (typed_parse_spec b q len (Z.to_nat (4 + len)) (sub 4 len q))
    by (unfold kMaxMessageLen, kMinMessageLen, kHeaderLen; done || lia).
  destruct (verdict _ _) as [|e|n m] eqn:Hv; cbn [parse_result].
  - by apply typed_verdict_not_wait in Hv.
  - rewrite bind_ok. by destruct e.
  - apply typed_verdict_deliver in Hv as ->. rewrite Z2Nat.id by lia. done.
Qed.

(** *** Frames on the wire *)
Context {PL : TypedProtobufLaws}.

Lemma zlen_name_part m : zlen (name_part m) = zlen (GetTypeName m) + 5.
Proof. unfold name_part. rewrite !zlen_app, Buffer.zlen_be. change (zlen [nul]) with 1. lia. Qed.

Lemma typed_zlen_body m : zlen (body m) = zlen (GetTypeName m) + zlen (Serialized m) + 9.
Proof. unfold body, signed. rewrite !zlen_app, Buffer.zlen_be, zlen_name_part. lia. Qed.

Lemma typed_zlen_frame m : zlen (frame m) = 4 + zlen (body m).
Proof. unfold frame. rewrite zlen_app, Buffer.zlen_be. lia. Qed.

Lemma zlen_typeName m : 0 < zlen (GetTypeName m).
Proof.
  destruct (TypeName_text m) as [Hn _]. pose proof (zlen_nonneg (GetTypeName m)).
  rewrite <- zlen_0 in Hn. lia.
Qed.

Lemma typed_body_bounds m : sendable m -> kMinMessageLen <= zlen (body m) <= kMaxMessageLen.
Proof.
  intros [_ Hmax]. rewrite typed_zlen_body in *. pose proof (zlen_typeName m).
  pose proof (zlen_nonneg (Serialized m)). unfold kMinMessageLen, kHeaderLen. lia.
Qed.

(** The four fields of a body. *)
Lemma body_fields m :
  let n := zlen (GetTypeName m) in
  sub 0 4 (body m) = Buffer.be 4 (n + 1) /\
  sub 4 n (body m) = GetTypeName m /\
  sub (4 + (n + 1)) (zlen (Serialized m)) (body m) = Serialized m /\
  sub 0 (zlen (body m) - 4) (body m) = signed m /\
  sub (zlen (body m) - 4) 4 (body m) = Buffer.be 4 (int32 (adler32 1 (signed m))).
Proof.
  intros n. assert (zlen (body m) - 4 = zlen (signed m)) as ->
    by (unfold body; rewrite zlen_app, Buffer.zlen_be; lia).
  split_and!; [| | |apply sub_app_length; done|apply sub_suffix; [done|by rewrite Buffer.zlen_be]];
    unfold body, signed, name_part; rewrite <- !app_assoc.
  - apply sub_app_length. by rewrite Buffer.zlen_be.
  - apply sub_middle; [by rewrite Buffer.zlen_be|done].
  - rewrite (app_assoc (Buffer.be _ _)), (app_assoc (_ ++ _) [nul]).
    apply sub_middle; [|done]. rewrite !zlen_app, Buffer.zlen_be. change (zlen [nul]) with 1. unfold n. lia.
Qed.

Lemma typed_verdict_body n m : sendable m -> verdict n (body m) = Framing.Deliver n m.
Proof.
  intros Hm. destruct (Registered m) as (d & p & Hd & Hp & Hparse).
  destruct (body_fields m) as (E1 & E2 & E3 & E4 & E5).
  pose proof (zlen_typeName m). pose proof (zlen_nonneg (Serialized m)). pose proof (typed_zlen_body m) as Hz.
  pose proof Hm as [Hinit Hmax]. unfold kMaxMessageLen in Hmax.
  unfold verdict, createMessage. rewrite E1, E4, E5, !Buffer.of_be_be.
  rewrite (swrap_uwrap 32 (int32 (adler32 1 _))), (swrap_small 32 (swrap 32 _)), Z.eqb_refl
    by (lia || apply swrap_range; lia).
  rewrite swrap_uwrap, swrap_small by (unfold in_int; simpl; lia). simpl negb. cbv iota.
  bcases; simpl; try lia. rewrite Z.add_simpl_r, E2, Hd, Hp, Hz.
  replace (_ - _ - 8) with (zlen (Serialized m)) by lia. by rewrite E3, Hparse.
Qed.

Lemma typed_frame_length m r :
  sendable m -> int32 (Buffer.of_be (take 4 (frame m ++ r))) = zlen (body m).
Proof.
  intros Hm. pose proof (typed_body_bounds m Hm). unfold frame, kMinMessageLen, kHeaderLen, kMaxMessageLen in *.
  rewrite <- app_assoc. apply (Buffer.take_be_decode 4); [lia|]. unfold in_int. simpl. lia.
Qed.

Lemma typed_look_frame m r : sendable m -> look (frame m ++ r) = Framing.Deliver (length (frame m)) m.
Proof.
  intros Hm. pose proof (typed_body_bounds m Hm) as Hb. pose proof (typed_zlen_frame m) as Hz.
  pose proof (zlen_nonneg r). unfold look. rewrite typed_frame_length, zlen_app by done. unfold kHeaderLen.
  unfold kMinMessageLen, kHeaderLen in *. bcases; cbn [orb]; try lia.
  assert (sub 4 (zlen (body m)) (frame m ++ r) = body m) as ->.
  { unfold frame. rewrite <- app_assoc. apply sub_middle; [by rewrite Buffer.zlen_be|done]. }
  rewrite typed_verdict_body by done. f_equal. unfold zlen in *. lia.
Qed.

Lemma typed_look_partial m part rest :
  sendable m -> part ++ rest = frame m -> rest <> [] -> look part = Framing.Wait.
Proof.
  intros Hm Hp Hr. pose proof (typed_body_bounds m Hm) as Hb. pose proof (typed_zlen_frame m) as Hz.
  rewrite <- zlen_0 in Hr. pose proof (zlen_nonneg rest).
  rewrite <- Hp, zlen_app in Hz. unfold look.
  destruct (Z.ltb_spec (zlen part) (kMinMessageLen + kHeaderLen)); [done|].
  unfold kMinMessageLen, kHeaderLen in *.
  assert (take 4 part = take 4 (frame m ++ [])) as ->.
  { rewrite app_nil_r, <- Hp, take_app_le; [done|]. unfold zlen in *. lia. }
  rewrite typed_frame_length by done. bcases; simpl; (done || lia).
Qed.

(** *** Filling a buffer *)
Lemma append_name b m :
  Buffer.holds b [] -> sendable m -> zlen (Buffer.buffer_ b) <= 2 ^ 30 ->
  exists b', (b ← Buffer.appendInt32 b (zlen (GetTypeName m) + 1) ;
              Buffer.append b (GetTypeName m ++ [nul])) = Ok b' /\
    Buffer.holds b' (name_part m) /\
    Z.min (Buffer.prependableBytes b) Buffer.kCheapPrepend <= Buffer.prependableBytes b' /\
    zlen (Buffer.buffer_ b') <= zlen (Buffer.buffer_ b) + zlen (name_part m).
Proof.
  intros Hh [_ Hmax] Hsz. rewrite typed_zlen_body in Hmax. rewrite zlen_name_part.
  pose proof (zlen_typeName m). pose proof (zlen_nonneg (Serialized m)). unfold kMaxMessageLen in Hmax.
  rewrite Buffer.appendInt32_be.
  destruct (Buffer.append_spec b [] (Buffer.be 4 (zlen (GetTypeName m) + 1)) Hh) as (b1 & -> & Hh1 & Hp1 & Hs1);
    [rewrite Buffer.zlen_be; unfold Buffer.room, Buffer.max_size; lia|]. rewrite bind_ok.
  rewrite Buffer.zlen_be in Hs1.
  destruct (Buffer.append_spec b1 _ (GetTypeName m ++ [nul]) Hh1) as (b2 & -> & Hh2 & Hp2 & Hs2);
    rewrite zlen_app in *; change (zlen [nul]) with 1 in *; [unfold Buffer.room, Buffer.max_size; lia|].
  exists b2. split_and!; [done|done|lia|lia].
Qed.

Lemma htonl_bytes v : Endian.obj_bytes 4 (Endian.hostToNetwork32 (uint32 v)) = Buffer.be 4 v.
Proof.
  rewrite <- (Buffer.net_bytes 4 v) by lia. cbv zeta. rewrite uwrap_swrap by lia.
  rewrite (uwrap_small _ (Endian.htobe _ _)) by (apply Endian.htobe_range, uwrap_range; lia). done.
Qed.

Lemma store_payload b q m :
  IsInitialized m = true -> Buffer.holds b q -> zlen (Serialized m) < 2 ^ 30 ->
  Buffer.room b (zlen (Serialized m)) ->
  exists b1 b2 b', Buffer.ensureWriteableBytes b (zlen (Serialized m)) = Ok b1 /\
    Buffer.copy_to b1 (Buffer.beginWrite b1) (Serialized m) = Ok b2 /\
    Buffer.hasWritten b2 (zlen (Serialized m)) = Ok b' /\
    Buffer.holds b' (q ++ Serialized m) /\
    Z.min (Buffer.prependableBytes b) Buffer.kCheapPrepend <= Buffer.prependableBytes b' /\
    zlen (Buffer.buffer_ b') <= zlen (Buffer.buffer_ b) + zlen (Serialized m).
Proof.
  intros Hi [Hok Hc] Hl Hroom. pose proof (zlen_nonneg (Serialized m)).
  destruct (Buffer.ensureWriteableBytes_spec b (zlen (Serialized m)))
    as (b1 & E1 & Hok1 & Hc1 & Hw & Hp & Hs); [done|lia|done|].
  destruct (Buffer.store_spec b1 q (Serialized m)) as (b2 & b3 & E2 & E3 & Hh3 & Hp3 & Hl3);
    [split; [done|congruence]|lia|].
  exists b1, b2, b3. rewrite Hp3. split_and!; (done || lia).
Qed.

Lemma typed_fillEmptyBuffer_spec b m :
  sendable m -> Buffer.holds b [] -> 4 <= Buffer.prependableBytes b -> zlen (Buffer.buffer_ b) <= 2 ^ 29 ->
  exists b', fillEmptyBuffer b m = Ok b' /\ Buffer.holds b' (frame m).
Proof.
  intros Hm Hh Hp Hsz. pose proof Hm as [Hi Hmax]. rewrite typed_zlen_body in Hmax.
  pose proof (zlen_typeName m). pose proof (zlen_nonneg (Serialized m)). unfold kMaxMessageLen in Hmax.
  destruct (append_name b m Hh Hm ltac:(lia)) as (b1 & E1 & Hh1 & Hp1 & Hs1). rewrite zlen_name_part in Hs1.
  unfold fillEmptyBuffer. rewrite (Buffer.readable_content b [] Hh). passert.
  rewrite (uwrap_small 64 (zlen (GetTypeName m) + 1)), swrap_small by (unfold in_int; simpl; lia).
  rewrite (uwrap_small 64 (zlen (GetTypeName m) + 1)) by lia.
  assert (sub 0 (zlen (GetTypeName m) + 1) (GetTypeName m ++ [nul]) = GetTypeName m ++ [nul]) as ->.
  { change 1 with (zlen [nul]). rewrite <- zlen_app. apply sub_full. }
  destruct (Buffer.appendInt32 b (zlen (GetTypeName m) + 1)) as [b0|]; [|done].
  rewrite bind_ok in *. rewrite E1, bind_ok, Hi. cbn [Glue.GOOGLE_CHECK]. rewrite bind_ok.
  rewrite (ByteSize_Serialized m Hi), (uwrap_small 64 (zlen (Serialized m))), Z.eqb_refl by lia.
  destruct (store_payload b1 _ m Hi Hh1) as (b2 & b3 & b4 & -> & E3 & E4 & Hh4 & Hp4 & Hs4);
    [lia|unfold Buffer.room, Buffer.max_size; lia|].
  rewrite bind_ok, E3, bind_ok. unfold mret at 1, outcome_ret at 1. rewrite bind_ok, E4, bind_ok. fold (signed m) in Hh4.
  assert (zlen (signed m) = zlen (GetTypeName m) + zlen (Serialized m) + 5) as Hsg
    by (unfold signed; rewrite zlen_app, zlen_name_part; lia).
  assert (ProtobufCodecLite.checksum b4 (Buffer.peek b4) (uint32 (Buffer.readableBytes b4))
          = Ok (int32 (adler32 1 (signed m)))) as ->.
  { rewrite (Buffer.readable_content b4 _ Hh4), uwrap_small by lia.
    rewrite <- (Z.add_0_r (Buffer.peek b4)), (ProtobufCodecLite.checksum_spec b4 _ 0 _ Hh4)
      by (auto using zlen_nonneg with lia). by rewrite sub_full. }
  rewrite bind_ok, Buffer.appendInt32_be.
  destruct (Buffer.append_spec b4 _ (Buffer.be 4 (int32 (adler32 1 (signed m)))) Hh4)
    as (b5 & -> & Hh5 & Hp5 & Hs5); [rewrite Buffer.zlen_be; unfold Buffer.room, Buffer.max_size; lia|].
  fold (body m) in Hh5. rewrite bind_ok, (Buffer.readable_content b5 _ Hh5), typed_zlen_body.
  rewrite (uwrap_small 64 (4 + _ + _)), (uwrap_small 64 (_ + 4)) by lia.
  rewrite assert_pass by (apply Z.eqb_eq; lia). rewrite <- typed_zlen_body, htonl_bytes.
  destruct (Buffer.prepend_spec b5 _ (Buffer.be 4 (zlen (body m))) Hh5) as (b6 & -> & Hh6 & _);
    [rewrite Buffer.zlen_be; unfold Buffer.kCheapPrepend in *; lia|]. by exists b6.
Qed.

(** *** The receiver's loop *)
Definition decode : nat -> bytes -> list Message * bytes * Framing.stop ErrorCode := Framing.decode look.
Definition stream : list Message -> bytes := Framing.stream frame.
Definition deliver (c : t S) (ms : list Message) (receiveTime : TimeStamp.t) : S -> outcome S :=
  Framing.deliver (fun m => messageCallback_ c m receiveTime) ms.
Definition finish (c : t S) (r : Framing.stop ErrorCode) (b : Buffer.t) (receiveTime : TimeStamp.t)
  : S -> outcome (Buffer.t * S) :=
  Framing.finish (fun e b => errorCallback_ c e b receiveTime) r b.

Lemma typed_onMessage_stream c ms part receiveTime b s :
  Forall sendable ms -> look part = Framing.Wait -> Buffer.holds b (stream ms ++ part) ->
  exists b', Buffer.holds b' part /\
    onMessage (Datatypes.S (length (stream ms ++ part))) c b receiveTime s =
    (s ← deliver c ms receiveTime s ; Ok (b', s)).
Proof.
  apply (Framing.loop_stream look _ _ typed_look_deliver (fun fuel b s => onMessage fuel c b receiveTime s)
    (typed_onMessage_step c receiveTime) frame sendable typed_look_frame).
Qed.

(** C36. Round trip over any segmentation: [fillEmptyBuffer] turns each message into
    one frame (length, name length, type name, payload, checksum), and when the
    frames of [ms], messages of any registered types, arrive in two pieces cut
    anywhere, the first [onMessage] delivers the complete frames in order and keeps
    the partial one, and the next delivers the others and empties the buffer. *)
Theorem typed_codec_roundtrip c ms q1 q2 receiveTime :
  Forall sendable ms -> q1 ++ q2 = stream ms ->
  (forall m, m ∈ ms -> exists b, fillEmptyBuffer (Buffer.new Buffer.kInitialSize) m = Ok b /\
     Buffer.holds b (frame m)) /\
  exists ms1 ms2 part, ms = ms1 ++ ms2 /\ part ++ q2 = stream ms2 /\
    (forall b s, Buffer.holds b q1 -> exists b', Buffer.holds b' part /\
       onMessage (Datatypes.S (length q1)) c b receiveTime s =
       (s ← deliver c ms1 receiveTime s ; Ok (b', s))) /\
    (forall b s, Buffer.holds b (part ++ q2) -> exists b', Buffer.holds b' [] /\
       onMessage (Datatypes.S (length (part ++ q2))) c b receiveTime s =
       (s ← deliver c ms2 receiveTime s ; Ok (b', s))).
Proof.
  intros Hms Hq. split.
  { intros m Hm. rewrite Forall_forall in Hms. apply typed_fillEmptyBuffer_spec; auto; [|done..].
    by apply Buffer.new_holds. }
  destruct (Framing.stream_cut look frame sendable eq_refl typed_look_partial ms q1 q2 Hms Hq)
    as (ms1 & ms2 & part & -> & -> & E & Hw).
  apply Forall_app in Hms as [H1 H2]. exists ms1, ms2, part. split_and!; [done..| |].
  - intros b s Hb. by apply typed_onMessage_stream.
  - intros b s Hb. rewrite E in *. fold (stream ms2) in *. rewrite <- (app_nil_r (stream ms2)) in *.
    by apply typed_onMessage_stream.
Qed.
End spec.

Section refinement.
Context {HO : HostOrder} `{TypedProtobuf} `{Zlib} {S : Type}.
Implicit Types (c : t S) (q : bytes) (s : S).

(** [onMessage] on every input and every protobuf runtime: it returns within as
    many turns as there are bytes, has handed the complete valid frames at the front
    of the buffer to the message callback in order, and stops because a frame is
    incomplete or by one call of the error callback, the offending frame left at the
    front, with the code of the first failing test (length, checksum, name length,
    type, payload).  No input makes it read outside the buffer or throw. *)
Theorem typed_codec_onMessage c b q receiveTime s :
  Buffer.holds b q ->
  let fuel := Datatypes.S (length q) in
  let r := decode fuel q in
  (exists b', Buffer.holds b' r.1.2 /\
    onMessage fuel c b receiveTime s =
    (s ← deliver c r.1.1 receiveTime s ; finish c r.2 b' receiveTime s)) /\
  look r.1.2 = match r.2 with Framing.Starved => Framing.Wait | Framing.Refused e => Framing.Reject e end.
Proof.
  intros Hh fuel r. split.
  - apply (Framing.loop_decode look _ _ typed_look_deliver (fun fuel b s => onMessage fuel c b receiveTime s)
      (typed_onMessage_step c receiveTime)); (done || unfold fuel; lia).
  - apply (Framing.decode_stop look typed_look_deliver). unfold fuel. lia.
Qed.
End refinement.

(** *** A concrete runtime: two types of message, a query of any bytes and an answer
    that must start with a colon. *)
Definition demo_messages : TypedProtobuf :=
  {| Message := bool * bytes; Descriptor := bool; Prototype := bool;
     GetTypeName := fun m => if m.1 then str "demo.Answer" else str "demo.Query";
     IsInitialized := fun m => negb m.1 || bool_decide (take 1 m.2 = str ":");
     ByteSize := fun m => zlen m.2; Serialized := snd;
     FindMessageTypeByName := fun n =>
       if bool_decide (n = str "demo.Answer") then Some true
       else if bool_decide (n = str "demo.Query") then Some false else None;
     GetPrototype := Some;
     ParseFromArray := fun p s =>
       if negb p || bool_decide (take 1 s = str ":") then Some (p, s) else None |}.
Lemma demo_messages_laws : @TypedProtobufLaws demo_messages.
Proof.
  split.
  - intros [[] s]; (split; [done|]); by repeat constructor.
  - done.
  - intros [p s]. exists p, p. simpl. split_and!; [by destruct p|done|]. by intros ->.
Qed.

Definition typed_demo : @t demo_messages (list bytes) :=
  @new_error demo_messages (list bytes) (fun m _ s => Ok (s ++ [m.2]))
    (fun e b _ s => Ok (b, s ++ [errorCodeToString e])).
Abbreviation demo_typed_stream :=
  (@stream demo_messages ProtobufCodecLite.demo_zlib [(false, str "what?"); (true, str ":this")]).

Lemma typed_codec_roundtrip_witness :
  let HO := LittleEndian : HostOrder in
  exists b, @fillEmptyBuffer HO demo_messages ProtobufCodecLite.demo_zlib
              (Buffer.new Buffer.kInitialSize) (true, str ":this") = Ok b /\
    Buffer.content b = drop 28 demo_typed_stream.
Proof.
  intros HO.
  destruct (proj1 (@typed_codec_roundtrip HO demo_messages ProtobufCodecLite.demo_zlib (list bytes)
    demo_messages_laws typed_demo [(false, str "what?"); (true, str ":this")]
    (take 20 demo_typed_stream) (drop 20 demo_typed_stream) 0
    ltac:(repeat (apply Forall_cons; split; [split; [done|by vm_compute]|]); apply Forall_nil; done)
    (take_drop 20 demo_typed_stream)) (true, str ":this") ltac:(right; left)) as (b & Hb & _ & Hc).
  exists b. split; [done|]. rewrite Hc. by vm_compute.
Defined.

(** The second of two frames names a type that is not registered (its checksum is
    right). *)
Definition typed_input : bytes :=
  let f := Buffer.be 4 5 ++ str "nope" ++ [nul] in
  let g := f ++ Buffer.be 4 (ProtobufCodecLite.demo_adler 1 f) in
  take 28 demo_typed_stream ++ Buffer.be 4 (zlen g) ++ g.

Lemma typed_codec_onMessage_witness :
  let HO := LittleEndian : HostOrder in
  exists b b', Buffer.append (Buffer.new Buffer.kInitialSize) typed_input = Ok b /\
    Buffer.holds b' (drop 28 typed_input) /\
    @onMessage HO demo_messages ProtobufCodecLite.demo_zlib (list bytes) (Datatypes.S (length typed_input))
      typed_demo b 0 [] = Ok (b', [str "what?"; str "UnknownMessageType"]).
Proof.
  intros HO.
  destruct (Buffer.append_spec (Buffer.new Buffer.kInitialSize) [] typed_input) as (b & Hb & Hh & _);
    [by apply Buffer.new_holds|by vm_compute|]. exists b.
  destruct (proj1 (@typed_codec_onMessage HO demo_messages ProtobufCodecLite.demo_zlib (list bytes)
    typed_demo b typed_input 0 [] Hh)) as (b' & Hh' & E).
  exists b'. split; [done|]. split; [exact Hh'|]. rewrite E. by vm_compute.
Defined.

End ProtobufCodec.
