(* ===== verification/Rpc.v ===== *)
(** Remote procedure calls (src/libel/net/protorpc/rpc.proto, RpcChannel.h,
    RpcChannel.cpp, RpcServer.h, RpcServer.cpp): the messages, the channel at both
    ends of a connection, and the server's table of services.  Messages travel
    through the codec of the file Codec, which delivers them whole and in order. *)

From S2P Require Import Prelude.

(** ** rpc.proto *)
Inductive MessageType := REQUEST | RESPONSE | ERROR.
Inductive ErrorCode :=
  | NO_ERROR | WRONG_PROTO | NO_SERVICE | NO_METHOD | INVALID_REQUEST | INVALID_RESPONSE | TIMEOUT.
#[global] Instance MessageType_eq_dec : EqDecision MessageType.
Proof. solve_decision. Defined.
#[global] Instance RpcErrorCode_eq_dec : EqDecision ErrorCode.
Proof. solve_decision. Defined.

(** An optional field is absent or set; reading an absent string gives "". *)
Record RpcMessage := mk_message {
  type : MessageType;
  id : Z;
  service : option bytes;
  method : option bytes;
  request : option bytes;
  response : option bytes;
  error : option ErrorCode;
}.
#[global] Instance RpcMessage_eq_dec : EqDecision RpcMessage.
Proof. solve_decision. Defined.

Definition get (field : option bytes) : bytes := default [] field.

(** What the channel uses of [google::protobuf::Service]: its full name, and for the
    methods its descriptor knows whether bytes parse as the method's request. *)
Record Service := mk_service {
  full_name : bytes;
  FindMethodByName : bytes -> option (bytes -> bool);
}.

Module RpcChannel.

(** [response] and [done] are pointers given by the caller. *)
Record OutstandingCall := mk_call { out_response : option Z; out_done : option Z }.

Record t := mk {
  id_ : Z;
  outstandings_ : gmap Z OutstandingCall;
  services_ : option (gmap bytes Service);
}.

Definition new : t := {| id_ := 0; outstandings_ := ∅; services_ := None |}.

Definition setServices (c : t) (services : gmap bytes Service) : t :=
  {| id_ := id_ c; outstandings_ := outstandings_ c; services_ := Some services |}.

(** What a handler does besides changing the channel: messages handed to the codec,
    closures run (with the bytes parsed into the caller's response object, if the
    answer had any), methods invoked on a service. *)
Inductive event :=
  | Send (m : RpcMessage)
  | RunDone (call : Z) (done : Z) (payload : option bytes)
  | Invoke (call : Z) (service method request : bytes).

(** [CallMethod]: [request] is the serialized request. *)
Definition CallMethod (c : t) (service_name method_name request : bytes) (response done : option Z)
  : t * list event :=
  let id' := uint64 (id_ c + 1) in
  let message := {| type := REQUEST; id := id'; service := Some service_name; method := Some method_name;
                    request := Some request; response := None; error := None |} in
  let out := {| out_response := response; out_done := done |} in
  ({| id_ := id'; outstandings_ := <[id' := out]> (outstandings_ c); services_ := services_ c |},
   [Send message]).

Definition error_response (i : Z) (e : ErrorCode) : RpcMessage :=
  {| type := RESPONSE; id := i; service := None; method := None; request := None;
     response := None; error := Some e |}.

(** The branch for a response. *)
Definition onResponse (c : t) (message : RpcMessage) : outcome (t * list event) :=
  let i := id message in
  _ ← assert_ (bool_decide (is_Some (response message) \/ is_Some (error message))) ;
  let out := default (mk_call None None) (outstandings_ c !! i) in
  let c := {| id_ := id_ c; outstandings_ := delete i (outstandings_ c); services_ := services_ c |} in
  mret (c, match out_response out with
           | Some _ => match out_done out with
                       | Some d => [RunDone i d (response message)]
                       | None => []
                       end
           | None => []
           end).

(** The branch for a request: the error code, and the invocation. *)
Definition dispatch (c : t) (message : RpcMessage) : ErrorCode * list event :=
  match services_ c with
  | Some services =>
      match services !! get (service message) with
      | Some svc =>
          match FindMethodByName svc (get (method message)) with
          | Some parses =>
              if parses (get (request message))
              then (NO_ERROR, [Invoke (id message) (get (service message)) (get (method message))
                                 (get (request message))])
              else (INVALID_REQUEST, [])
          | None => (NO_METHOD, [])
          end
      | None => (WRONG_PROTO, [])
      end
  | None => (NO_SERVICE, [])
  end.

(** [sameConn] is [conn == conn_]. *)
Definition onRpcMessage (sameConn : bool) (c : t) (message : RpcMessage) : outcome (t * list event) :=
  _ ← assert_ sameConn ;
  match type message with
  | RESPONSE => onResponse c message
  | REQUEST =>
      let r := dispatch c message in
      mret (c, r.2 ++ if decide (r.1 = NO_ERROR) then [] else [Send (error_response (id message) r.1)])
  | ERROR => mret (c, [])                                  (* LOG_WARN *)
  end.

(** [doneCallback], run by the service with the serialized response. *)
Definition doneCallback (resp : bytes) (i : Z) : event :=
  Send {| type := RESPONSE; id := i; service := None; method := None; request := None;
          response := Some resp; error := None |}.

(** [~RpcChannel]: the response objects and the closures it deletes. *)
Definition destroy (c : t) : list (Z * OutstandingCall) := map_to_list (outstandings_ c).

End RpcChannel.

Module RpcServer.
Record t := mk { services_ : gmap bytes Service }.
Definition new : t := {| services_ := ∅ |}.

Definition registerService (s : t) (svc : Service) : t :=
  {| services_ := <[full_name svc := svc]> (services_ s) |}.

(** [onConnection]: a new connection gets a channel that knows the services, a
    closed one loses its channel. *)
Definition onConnection (s : t) (connected : bool) : option RpcChannel.t :=
  if connected then Some (RpcChannel.setServices RpcChannel.new (services_ s)) else None.
End RpcServer.

(** ** A client and a server connected by two byte streams *)
Module RpcSystem.
Import RpcChannel.

Definition sends (es : list event) : list RpcMessage :=
  omap (fun e => match e with Send m => Some m | _ => None end) es.
Definition invoked (es : list event) : list Z :=
  omap (fun e => match e with Invoke i _ _ _ => Some i | _ => None end) es.
Definition ran (es : list event) : list (Z * Z * option bytes) :=
  omap (fun e => match e with RunDone i d p => Some (i, d, p) | _ => None end) es.
Definition answers_in (ms : list RpcMessage) : list (Z * option bytes) :=
  map (fun m => (id m, response m)) ms.

(** [up] and [down] are the messages on their way to the server and to the client,
    [serving] the calls handed to a service that has not run its closure yet; the
    rest is history: the calls made, the answers sent, the closures run. *)
Record t := mk {
  client : RpcChannel.t;
  server : RpcChannel.t;
  up : list RpcMessage;
  down : list RpcMessage;
  serving : list Z;
  calls : list (Z * Z);
  answers : list (Z * option bytes);
  runs : list (Z * Z * option bytes);
}.

Definition init (services : RpcServer.t) : t :=
  {| client := RpcChannel.new;
     server := default RpcChannel.new (RpcServer.onConnection services true);
     up := []; down := []; serving := []; calls := []; answers := []; runs := [] |}.

(** The client calls a method with a response object and a closure; the server's
    end reads a message; a service finishes a call, in any order; the client's end
    reads a message. *)
Inductive step : t -> t -> Prop :=
  | StepCall s svc mth req resp d c' es :
      id_ (client s) + 1 < 2 ^ 64 ->
      CallMethod (client s) svc mth req (Some resp) (Some d) = (c', es) ->
      step s (mk c' (server s) (up s ++ sends es) (down s) (serving s)
                (calls s ++ [(id_ c', d)]) (answers s) (runs s))
  | StepServer s m ms c' es :
      up s = m :: ms -> onRpcMessage true (server s) m = Ok (c', es) ->
      step s (mk (client s) c' ms (down s ++ sends es) (serving s ++ invoked es)
                (calls s) (answers s ++ answers_in (sends es)) (runs s))
  | StepFinish s i l1 l2 resp :
      serving s = l1 ++ i :: l2 ->
      step s (mk (client s) (server s) (up s) (down s ++ sends [doneCallback resp i]) (l1 ++ l2)
                (calls s) (answers s ++ answers_in (sends [doneCallback resp i])) (runs s))
  | StepClient s m ms c' es :
      down s = m :: ms -> onRpcMessage true (client s) m = Ok (c', es) ->
      step s (mk c' (server s) (up s) ms (serving s) (calls s) (answers s) (runs s ++ ran es)).

Definition run_id (r : Z * Z * option bytes) : Z := r.1.1.

(** Every call is in exactly one place. *)
Definition places (s : t) : list Z :=
  map id (up s) ++ serving s ++ map id (down s) ++ map run_id (runs s).

Definition answer_ok (m : RpcMessage) : Prop :=
  type m = RESPONSE /\ (is_Some (response m) \/ is_Some (error m)).

Record inv (s : t) : Prop := mk_inv {
  inv_ids : forall i d, (i, d) ∈ calls s -> 1 <= i <= id_ (client s);
  inv_next : 0 <= id_ (client s) < 2 ^ 64;
  inv_nodup : NoDup (map fst (calls s));
  inv_places : places s ≡ₚ map fst (calls s);
  inv_up : Forall (fun m => type m = REQUEST) (up s);
  inv_down : Forall answer_ok (down s);
  inv_answers : map fst (answers s) ≡ₚ map id (down s) ++ map run_id (runs s);
  inv_down_answers : forall m, m ∈ down s -> (id m, response m) ∈ answers s;
  inv_runs : forall i d p, (i, d, p) ∈ runs s -> (i, d) ∈ calls s /\ (i, p) ∈ answers s;
  inv_outstanding : forall i d, (i, d) ∈ calls s -> i ∉ map run_id (runs s) ->
    exists resp, outstandings_ (client s) !! i = Some (mk_call (Some resp) (Some d));
  inv_outstanding_only : forall i, is_Some (outstandings_ (client s) !! i) ->
    i ∈ map fst (calls s) /\ i ∉ map run_id (runs s);
}.

Lemma init_inv services : inv (init services).
Proof.
  split; simpl; try done; try (by constructor); try (intros; set_solver).
  intros i. rewrite lookup_empty. by intros [].
Qed.

Lemma rpc_call_inv s svc mth req resp d c' es :
  inv s -> id_ (client s) + 1 < 2 ^ 64 ->
  CallMethod (client s) svc mth req (Some resp) (Some d) = (c', es) ->
  inv (mk c' (server s) (up s ++ sends es) (down s) (serving s)
         (calls s ++ [(id_ c', d)]) (answers s) (runs s)).
Proof.
  intros Hs Hb E. unfold CallMethod in E. pose proof (inv_next s Hs) as Hn.
  rewrite uwrap_small in E by lia. injection E as <- <-. cbn [id_ sends omap].
  set (n := id_ (client s) + 1) in *.
  assert (n ∉ map fst (calls s)) as Hnew.
  { intros (x & Hx & Hin)%list_elem_of_fmap. destruct x as [i d']. simpl in Hx. subst i.
    apply (inv_ids s Hs) in Hin. lia. }
  assert (n ∉ map run_id (runs s)) as Hnr.
  { intros Hin. apply Hnew. rewrite <- (inv_places s Hs). unfold places. rewrite !elem_of_app. auto. }
  split; unfold places; cbn [client server up down serving calls answers runs id_ outstandings_].
  - intros i d' [Hin|Hin]%elem_of_app; [apply (inv_ids s Hs) in Hin; lia|].
    apply list_elem_of_singleton in Hin. injection Hin as -> ->. lia.
  - lia.
  - rewrite map_app. apply NoDup_app. split_and!; [apply Hs| |apply NoDup_singleton].
    intros x Hx Hin. apply list_elem_of_singleton in Hin. simpl in Hin. by subst x.
  - rewrite !map_app. simpl. rewrite <- (inv_places s Hs). unfold places. solve_Permutation.
  - apply Forall_app. split; [apply Hs|]. by repeat constructor.
  - apply Hs.
  - apply Hs.
  - apply Hs.
  - intros i d' p Hin. destruct (inv_runs s Hs i d' p Hin). split; [|done]. apply elem_of_app. by left.
  - intros i d' [Hin|Hin]%elem_of_app Hr.
    + destruct (inv_outstanding s Hs i d' Hin Hr) as [rp Ho]. exists rp.
      rewrite lookup_insert_ne; [done|]. intros <-. apply Hnew. apply list_elem_of_fmap. by exists (n, d').
    + apply list_elem_of_singleton in Hin. injection Hin as -> ->. exists resp. by rewrite lookup_insert_eq.
  - intros i Hi. rewrite map_app, elem_of_app. destruct (decide (i = n)) as [->|Hne].
    + split; [|done]. right. simpl. by apply list_elem_of_singleton.
    + rewrite lookup_insert_ne in Hi by done. destruct (inv_outstanding_only s Hs i Hi). auto.
Qed.

(** A request is either handed to a service or answered with an error. *)
Lemma request_outcome c m :
  type m = REQUEST ->
  exists es, onRpcMessage true c m = Ok (c, es) /\
    ((sends es = [] /\ invoked es = [id m]) \/
     (exists e, sends es = [error_response (id m) e] /\ invoked es = [])).
Proof.
  intros Ht. unfold onRpcMessage. rewrite assert_pass, Ht by done. eexists. split; [done|].
  unfold dispatch. repeat case_match; simplify_eq; simpl; eauto.
Qed.

(** Sending the answer [a] for a call that is being dealt with at the server. *)
Lemma answer_inv s i a up' serving' server' :
  inv s -> map id (up s) ++ serving s ≡ₚ i :: map id up' ++ serving' ->
  Forall (fun m => type m = REQUEST) up' -> id a = i -> answer_ok a ->
  inv (mk (client s) server' up' (down s ++ [a]) serving' (calls s)
         (answers s ++ answers_in [a]) (runs s)).
Proof.
  intros Hs Hp Hup <- Ha. split; unfold places;
    cbn [client server up down serving calls answers runs]; try apply Hs; try done.
  - rewrite <- (inv_places s Hs). unfold places. rewrite map_app. simpl.
    rewrite (app_assoc (map id (up s))), Hp. solve_Permutation.
  - apply Forall_app. split; [apply Hs|]. by apply Forall_singleton.
  - rewrite !map_app, (inv_answers s Hs). simpl. solve_Permutation.
  - intros m [Hin|Hin]%elem_of_app.
    + apply elem_of_app. left. by apply Hs.
    + apply list_elem_of_singleton in Hin as ->. apply elem_of_app. right. simpl. by left.
  - intros i d p Hin. destruct (inv_runs s Hs i d p Hin). split; [done|]. apply elem_of_app. by left.
Qed.

Lemma server_inv s m ms c' es :
  inv s -> up s = m :: ms -> onRpcMessage true (server s) m = Ok (c', es) ->
  inv (mk (client s) c' ms (down s ++ sends es) (serving s ++ invoked es)
         (calls s) (answers s ++ answers_in (sends es)) (runs s)).
Proof.
  intros Hs Hup E. pose proof (inv_up s Hs) as Hall. rewrite Hup in Hall.
  apply Forall_cons in Hall as [Hm Hms].
  destruct (request_outcome (server s) m Hm) as (es' & E' & Hcase). rewrite E in E'.
  injection E' as -> ->. destruct Hcase as [[-> ->]|(e & -> & ->)].
  - rewrite !app_nil_r. split; unfold places;
      cbn [client server up down serving calls answers runs]; try apply Hs; try done.
    rewrite <- (inv_places s Hs). unfold places. rewrite Hup. simpl. solve_Permutation.
  - rewrite app_nil_r. apply (answer_inv s (id m)); try done.
    + by rewrite Hup.
    + split; [done|]. right. by eexists.
Qed.

Lemma finish_inv s i l1 l2 resp :
  inv s -> serving s = l1 ++ i :: l2 ->
  inv (mk (client s) (server s) (up s) (down s ++ sends [doneCallback resp i]) (l1 ++ l2)
         (calls s) (answers s ++ answers_in (sends [doneCallback resp i])) (runs s)).
Proof.
  intros Hs Hsv. apply (answer_inv s i); try done.
  - rewrite Hsv. solve_Permutation.
  - apply Hs.
  - split; [done|]. left. by eexists.
Qed.

(** The call a response belongs to is outstanding; its closure is run with the
    response's bytes. *)
Lemma response_outcome s m ms :
  inv s -> down s = m :: ms ->
  exists d, (id m, d) ∈ calls s /\ (id m ∉ map run_id (runs s)) /\
    onRpcMessage true (client s) m =
    Ok ({| id_ := id_ (client s); outstandings_ := delete (id m) (outstandings_ (client s));
           services_ := services_ (client s) |}, [RunDone (id m) d (response m)]).
Proof.
  intros Hs Hd. pose proof (inv_down s Hs) as Hall. rewrite Hd in Hall.
  apply Forall_cons in Hall as [[Hty Hans] _].
  pose proof (inv_nodup s Hs) as Hnd. rewrite <- (inv_places s Hs) in Hnd. unfold places in Hnd.
  rewrite Hd in Hnd.
  assert (id m ∉ map run_id (runs s)) as Hr.
  { apply NoDup_app in Hnd as (_ & _ & Hnd). apply NoDup_app in Hnd as (_ & _ & Hnd). simpl in Hnd.
    apply NoDup_cons in Hnd as [Hnd _]. rewrite not_elem_of_app in Hnd. by destruct Hnd. }
  assert (id m ∈ map fst (calls s)) as (x & Hx & Hin)%list_elem_of_fmap.
  { rewrite <- (inv_places s Hs). unfold places. rewrite Hd. simpl. rewrite !elem_of_app.
    right. right. left. }
  destruct x as [i d]. simpl in Hx. subst i. exists d. split_and!; try done.
  destruct (inv_outstanding s Hs (id m) d Hin Hr) as [rp Ho].
  unfold onRpcMessage. rewrite assert_pass, Hty by done. unfold onResponse.
  rewrite bool_decide_true, assert_pass by done. by rewrite Ho.
Qed.

Lemma client_inv s m ms c' es :
  inv s -> down s = m :: ms -> onRpcMessage true (client s) m = Ok (c', es) ->
  inv (mk c' (server s) (up s) ms (serving s) (calls s) (answers s) (runs s ++ ran es)).
Proof.
  intros Hs Hd E. destruct (response_outcome s m ms Hs Hd) as (d & Hcall & Hnr & E').
  rewrite E in E'. injection E' as -> ->. cbn [ran omap].
  pose proof (inv_down_answers s Hs m) as Hm. rewrite Hd in Hm. specialize (Hm ltac:(left)).
  pose proof (inv_down s Hs) as Hall. rewrite Hd in Hall. apply Forall_cons in Hall as [_ Hms].
  split; unfold places; cbn [client server up down serving calls answers runs id_ outstandings_];
    try apply Hs; try done.
  - rewrite <- (inv_places s Hs). unfold places. rewrite Hd, map_app. simpl. solve_Permutation.
  - rewrite (inv_answers s Hs), Hd, map_app. simpl. solve_Permutation.
  - intros m' Hin. apply Hs. rewrite Hd. by right.
  - intros i d' p [Hin|Hin]%elem_of_app; [by apply Hs|].
    apply list_elem_of_singleton in Hin. by injection Hin as -> -> ->.
  - intros i d' Hin Hr. rewrite map_app, not_elem_of_app in Hr. destruct Hr as [Hr Hne].
    destruct (inv_outstanding s Hs i d' Hin Hr) as [rp Ho]. exists rp.
    rewrite lookup_delete_ne; [done|]. intros <-. apply Hne. by left.
  - intros i. rewrite lookup_delete_is_Some. intros [Hne Hi].
    destruct (inv_outstanding_only s Hs i Hi) as [? Hr]. split; [done|].
    rewrite map_app, not_elem_of_app. split; [done|]. simpl. intros Hin.
    apply list_elem_of_singleton in Hin. done.
Qed.

Lemma reachable_inv_rpc services s : rtc step (init services) s -> inv s.
Proof.
  apply (rtc_ind_r inv); [apply init_inv|]. intros x y _ Hstep Hx.
  destruct Hstep; eauto using rpc_call_inv, server_inv, finish_inv, client_inv.
Qed.

(** What the invariant says of the calls. *)
Lemma inv_exactly_once s :
  inv s ->
  NoDup (map run_id (runs s)) /\ NoDup (map fst (answers s)) /\
  (forall i d p, (i, d, p) ∈ runs s -> (i, d) ∈ calls s /\ (i, p) ∈ answers s) /\
  (forall i, is_Some (outstandings_ (client s) !! i) <->
     i ∈ map fst (calls s) /\ i ∉ map run_id (runs s)) /\
  (up s = [] -> serving s = [] -> down s = [] ->
     outstandings_ (client s) = ∅ /\ map run_id (runs s) ≡ₚ map fst (calls s)).
Proof.
  intros Hs. pose proof (inv_nodup s Hs) as Hnd. rewrite <- (inv_places s Hs) in Hnd. unfold places in Hnd.
  assert (forall i, is_Some (outstandings_ (client s) !! i) <->
     i ∈ map fst (calls s) /\ i ∉ map run_id (runs s)) as Hout.
  { intros i. split; [apply Hs|]. intros [(x & -> & Hin)%list_elem_of_fmap Hr].
    destruct x as [i d]. destruct (inv_outstanding s Hs i d Hin Hr) as [? Ho]. by eexists. }
  split_and!.
  - do 3 (apply NoDup_app in Hnd as (_ & _ & Hnd)). done.
  - rewrite (inv_answers s Hs). do 2 (apply NoDup_app in Hnd as (_ & _ & Hnd)). done.
  - apply Hs.
  - done.
  - intros Hu Hsv Hd.
    assert (map run_id (runs s) ≡ₚ map fst (calls s)) as Hp
      by (rewrite <- (inv_places s Hs); unfold places; by rewrite Hu, Hsv, Hd).
    split; [|done]. apply map_empty. intros i. apply eq_None_not_Some. rewrite Hout, Hp. tauto.
Qed.

(** The closures the client's channel would delete. *)
Definition deleted (s : t) : list (Z * Z) :=
  omap (fun x => match out_done x.2 with Some d => Some (x.1, d) | None => None end) (destroy (client s)).

Lemma inv_deleted s i d : inv s -> (i, d) ∈ deleted s <-> (i, d) ∈ calls s /\ i ∉ map run_id (runs s).
Proof.
  intros Hs. unfold deleted, destroy. rewrite list_elem_of_omap. split.
  - intros ([j out] & Hin%elem_of_map_to_list & E). simpl in E.
    destruct (inv_outstanding_only s Hs j ltac:(by eexists)) as [(y & Hy & Hc)%list_elem_of_fmap Hr].
    destruct y as [j' d']. simpl in Hy. subst j'.
    destruct (inv_outstanding s Hs j d' Hc Hr) as [resp Ho]. rewrite Ho in Hin. by simplify_eq/=.
  - intros [Hc Hr]. destruct (inv_outstanding s Hs i d Hc Hr) as [resp Ho].
    exists (i, mk_call (Some resp) (Some d)). split; [by apply elem_of_map_to_list|done].
Qed.

Lemma NoDup_omap_keys {A B C} (f : A * B -> option (A * C)) l :
  (forall x y, f x = Some y -> y.1 = x.1) -> NoDup (map fst l) -> NoDup (map fst (omap f l)).
Proof.
  intros Hf. induction l as [|x l IH]; simpl; [constructor|]. intros [Hx Hl]%NoDup_cons.
  destruct (f x) as [y|] eqn:E; [|by apply IH]. simpl. constructor; [|by apply IH]. rewrite (Hf x y E).
  intros (z & Ez & (x' & Hx' & Ex')%list_elem_of_omap)%list_elem_of_fmap. apply Hx, list_elem_of_fmap.
  exists x'. split; [|done]. by rewrite Ez, (Hf x' z Ex').
Qed.

Lemma calls_unique s i d e : inv s -> (i, d) ∈ calls s -> (i, e) ∈ calls s -> d = e.
Proof.
  intros Hs Hd%(elem_of_list_to_map_1 (M:=gmap Z)) He%(elem_of_list_to_map_1 (M:=gmap Z)); try apply Hs. congruence.
Qed.

(** Destroying the client's channel disposes of exactly the closures that have not run. *)
Lemma inv_destroy s : inv s -> map (fun r => r.1) (runs s) ++ deleted s ≡ₚ calls s.
Proof.
  intros Hs. destruct (inv_exactly_once s Hs) as (Hnd & _ & Hruns & _).
  assert (forall i d, (i, d) ∈ map (fun r => r.1) (runs s) -> i ∈ map run_id (runs s)) as Hid.
  { intros i d (r & E & Hr)%list_elem_of_fmap. apply list_elem_of_fmap. exists r. unfold run_id. by rewrite <- E. }
  apply NoDup_Permutation.
  - apply NoDup_app. split_and!.
    + apply (NoDup_fmap_1 fst). rewrite <- list_fmap_compose. exact Hnd.
    + intros [i d] Hin. rewrite inv_deleted by done. intros [_ Hr]. by apply Hr, (Hid i d).
    + apply (NoDup_fmap_1 fst). unfold deleted, destroy. apply NoDup_omap_keys; [|apply NoDup_fst_map_to_list].
      intros [j out] y E. simpl in E. by destruct (out_done out); simplify_eq/=.
  - apply (NoDup_fmap_1 fst). apply Hs.
  - intros [i d]. rewrite elem_of_app, inv_deleted by done. split.
    + intros [([[j e] p] & E & Hr)%list_elem_of_fmap|[? _]]; [|done]. simpl in E. injection E as -> ->.
      by apply Hruns in Hr as [].
    + intros Hc. destruct (decide (i ∈ map run_id (runs s))) as [Hr|]; [left|by right].
      apply list_elem_of_fmap in Hr as ([[j e] p] & E & Hr). unfold run_id in E. simpl in E. subst j.
      destruct (Hruns i e p Hr) as [Hc' _]. apply list_elem_of_fmap. exists (i, e, p). split; [|done].
      simpl. f_equal. by apply (calls_unique s i).
Qed.

(** C13. Exactly one completion per call: whatever the order in which calls are
    made, requests and responses are delivered and services finish, no handler
    fails an assertion; each call's closure is run at most once, with the bytes of
    the one answer the server gave to that very call (none for an error); a call
    is outstanding exactly until then; when nothing is under way any more every
    call has completed and no call is outstanding; and should the client's channel
    be destroyed, each closure has either been run or is deleted, never both. *)
Theorem rpc_exactly_once services s :
  rtc step (init services) s ->
  (forall m ms, up s = m :: ms -> succeeds (onRpcMessage true (server s) m)) /\
  (forall m ms, down s = m :: ms -> succeeds (onRpcMessage true (client s) m)) /\
  NoDup (map run_id (runs s)) /\ NoDup (map fst (answers s)) /\
  (forall i d p, (i, d, p) ∈ runs s -> (i, d) ∈ calls s /\ (i, p) ∈ answers s) /\
  (forall i, is_Some (outstandings_ (client s) !! i) <->
     i ∈ map fst (calls s) /\ i ∉ map run_id (runs s)) /\
  (up s = [] -> serving s = [] -> down s = [] ->
     outstandings_ (client s) = ∅ /\ map run_id (runs s) ≡ₚ map fst (calls s)) /\
  map (fun r => r.1) (runs s) ++ deleted s ≡ₚ calls s.
Proof.
  intros Hreach. pose proof (reachable_inv_rpc services s Hreach) as Hs.
  split_and!; try by apply inv_exactly_once. 3: by apply inv_destroy.
  - intros m ms Hup. pose proof (inv_up s Hs) as Hall. rewrite Hup in Hall.
    apply Forall_cons in Hall as [Hm _].
    destruct (request_outcome (server s) m Hm) as (es & ? & _). by eexists.
  - intros m ms Hd. destruct (response_outcome s m ms Hs Hd) as (d & _ & _ & ?). by eexists.
Qed.

(** *** Two calls: the second is refused, the first is answered later *)
Definition demo_server : RpcServer.t :=
  RpcServer.registerService RpcServer.new
    {| full_name := str "Echo";
       FindMethodByName := fun m => match m with [] => None | _ => Some (fun _ => true) end |}.

Definition call (s : t) (svc : bytes) (d : Z) : t :=
  let r := CallMethod (client s) svc (str "echo") (str "hi") (Some 100) (Some d) in
  mk r.1 (server s) (up s ++ sends r.2) (down s) (serving s) (calls s ++ [(id_ r.1, d)]) (answers s) (runs s).
Definition serve (s : t) : t :=
  let r := ok_or (server s, []) (m ← deref (head (up s)) ; onRpcMessage true (server s) m) in
  mk (client s) r.1 (tail (up s)) (down s ++ sends r.2) (serving s ++ invoked r.2)
    (calls s) (answers s ++ answers_in (sends r.2)) (runs s).
Definition finish (s : t) (i : Z) (resp : bytes) : t :=
  mk (client s) (server s) (up s) (down s ++ sends [doneCallback resp i]) []
    (calls s) (answers s ++ answers_in (sends [doneCallback resp i])) (runs s).
Definition receive (s : t) : t :=
  let r := ok_or (client s, []) (m ← deref (head (down s)) ; onRpcMessage true (client s) m) in
  mk r.1 (server s) (up s) (tail (down s)) (serving s) (calls s) (answers s) (runs s ++ ran r.2).

Lemma call_step s svc d : id_ (client s) + 1 < 2 ^ 64 -> step s (call s svc d).
Proof. intros Hb. unfold call. eapply StepCall; [done|apply surjective_pairing]. Qed.

Lemma serve_step s m ms r :
  up s = m :: ms -> onRpcMessage true (server s) m = Ok r -> step s (serve s).
Proof.
  intros Hup E. unfold serve. rewrite Hup. cbn [head deref]. rewrite bind_ok, E. destruct r.
  by eapply StepServer.
Qed.

Lemma finish_step s i resp : serving s = [i] -> step s (finish s i resp).
Proof. intros Hsv. by apply (StepFinish s i [] []). Qed.

Lemma receive_step s m ms r :
  down s = m :: ms -> onRpcMessage true (client s) m = Ok r -> step s (receive s).
Proof.
  intros Hd E. unfold receive. rewrite Hd. cbn [head deref]. rewrite bind_ok, E. destruct r.
  by eapply StepClient.
Qed.

Definition demo2 : t := call (call (init demo_server) (str "Echo") 7) (str "Nope") 8.
Definition demo5 : t := receive (serve (serve demo2)).
Definition demo7 : t := receive (finish demo5 1 (str "hi")).

Lemma demo7_reachable : rtc step (init demo_server) demo7.
Proof.
  eapply rtc_l; [by apply (call_step _ (str "Echo") 7)|].
  eapply rtc_l; [by apply (call_step _ (str "Nope") 8)|].
  eapply rtc_l; [eapply serve_step; vm_compute; reflexivity|].
  eapply rtc_l; [eapply serve_step; vm_compute; reflexivity|].
  eapply rtc_l; [eapply receive_step; vm_compute; reflexivity|].
  eapply rtc_l; [apply (finish_step _ 1 (str "hi")); vm_compute; reflexivity|].
  eapply rtc_l; [eapply receive_step; vm_compute; reflexivity|].
  apply rtc_refl.
Qed.

Lemma rpc_exactly_once_witness :
  runs demo7 = [(2, 8, None); (1, 7, Some (str "hi"))] /\ NoDup (map run_id (runs demo7)) /\
  outstandings_ (client demo7) = ∅.
Proof.
  destruct (rpc_exactly_once demo_server demo7 demo7_reachable) as (_ & _ & H & _ & _ & _ & Hq & _).
  split; [reflexivity|]. split; [exact H|]. by apply Hq.
Defined.
End RpcSystem.

(** ** Concurrent calls

    [CallMethod] of several threads on one channel: [++id_] (with the message built
    from its value), the critical section, which reads [id_] once more, and the sending
    are separate steps. *)
Module RpcCallers.
Inductive caller := ToIncrement | ToStore (mine : Z) | ToSend (mine : Z) | Sent.

(** [outstandings_] maps ids to the callers whose call they are taken for. *)
Record t := mk { id_ : Z; outstandings_ : gmap Z nat; wire : list Z; callers : list caller }.

Definition start (n : nat) : t := mk 0 ∅ [] (replicate n ToIncrement).

Definition step_caller (s : t) (i : nat) : t :=
  match callers s !! i with
  | Some ToIncrement =>
      let id' := uint64 (id_ s + 1) in
      mk id' (outstandings_ s) (wire s) (<[i := ToStore id']> (callers s))
  | Some (ToStore mine) =>
      mk (id_ s) (<[id_ s := i]> (outstandings_ s)) (wire s) (<[i := ToSend mine]> (callers s))
  | Some (ToSend mine) =>
      mk (id_ s) (outstandings_ s) (wire s ++ [mine]) (<[i := Sent]> (callers s))
  | _ => s
  end.

Definition run (s : t) (schedule : list nat) : t := fold_left step_caller schedule s.

(** A call that no other call overlaps is registered under the id it sends. *)
Lemma call_alone s i :
  callers s !! i = Some ToIncrement ->
  let s' := run s [i; i; i] in
  let mine := uint64 (id_ s + 1) in
  wire s' = wire s ++ [mine] /\ outstandings_ s' = <[mine := i]> (outstandings_ s) /\
  callers s' !! i = Some Sent.
Proof.
  intros Hi. pose proof (lookup_lt_Some _ _ _ Hi) as Hlt. unfold run. cbn [fold_left].
  set (mine := uint64 (id_ s + 1)).
  assert (step_caller s i = mk mine (outstandings_ s) (wire s) (<[i := ToStore mine]> (callers s))) as ->
    by (unfold step_caller; by rewrite Hi).
  assert (step_caller (mk mine (outstandings_ s) (wire s) (<[i := ToStore mine]> (callers s))) i =
    mk mine (<[mine := i]> (outstandings_ s)) (wire s) (<[i := ToSend mine]> (<[i := ToStore mine]> (callers s)))) as ->
    by (unfold step_caller; cbn [callers]; by rewrite list_lookup_insert_eq).
  unfold step_caller. cbn [callers]. rewrite list_lookup_insert_eq by (by rewrite length_insert).
  split_and!; try done. apply list_lookup_insert_eq. by rewrite !length_insert.
Qed.

(** Two calls that overlap: both are registered under the second id, so the answer to
    the first finds no closure and the first caller waits for ever. *)
Example calls_overlap :
  let s := run (start 2) [0; 1; 0; 1; 0; 1]%nat in
  wire s = [1; 2] /\ outstandings_ s !! 1 = None /\ outstandings_ s !! 2 = Some 1%nat.
Proof. vm_compute. split_and!; reflexivity. Qed.
End RpcCallers.
