(* ===== verification/RpcWire.v ===== *)
(** Remote procedure calls over byte streams: the codec of the channel
    (src/libel/net/protorpc/RpcCodec.h, RpcCodec.cpp, the template
    [ProtobufCodecLiteT] of protobuf/ProtobufCodecLite.h, [RpcChannel::onMessage])
    between the calls of the file Rpc and the frames of the file Codec.  The stream of
    each direction is cut into pieces at will. *)

From S2P Require Import Prelude NetBuffer NumText TimeText Polling Connection Framing Glue Codec Rpc.

(** The serialization protoc generates for rpc.proto; the required fields are set in
    every [RpcMessage]. *)
Class RpcProtobuf := {
  rpc_ByteSize : RpcMessage -> Z;
  rpc_Serialized : RpcMessage -> bytes;
  rpc_ParseFromArray : bytes -> option RpcMessage;
}.
Class RpcProtobufLaws `{RpcProtobuf} : Prop := {
  rpc_size m : rpc_ByteSize m = zlen (rpc_Serialized m);
  rpc_parse m : rpc_ParseFromArray (rpc_Serialized m) = Some m;
}.

#[global] Instance rpc_protobuf `{RpcProtobuf} : Protobuf :=
  {| Message := RpcMessage; IsInitialized := fun _ => true; ByteSize := rpc_ByteSize;
     Serialized := rpc_Serialized; ParseFromArray := rpc_ParseFromArray |}.
#[global] Instance rpc_protobuf_laws `{RpcProtobufLaws} : ProtobufLaws.
Proof. split; simpl; intros m _; [apply rpc_size|apply rpc_parse]. Qed.

Module RpcCodec.
Section codec.
Context {HO : HostOrder} `{RpcProtobuf} `{Zlib}.

Definition rpctag : bytes := str "RPC0".

(** What the callbacks work on: the connection, the channel and what it has done. *)
Definition callback_state : Type := TcpConnection.t * (RpcChannel.t * list RpcChannel.event).

(** [RpcChannel::onRpcMessage], bound into the codec by the channel's constructor. *)
Definition onRpcMessage (message : RpcMessage) (receiveTime : TimeStamp.t) (s : callback_state)
  : outcome callback_state :=
  r ← RpcChannel.onRpcMessage true s.2.1 message ; mret (s.1, (r.1, s.2.2 ++ r.2)).

(** [ProtobufCodecLiteT::onRpcMessage]: the message created from the prototype of the
    concrete type is one of that type. *)
Definition onConcreteMessage (message : RpcMessage) (receiveTime : TimeStamp.t) (s : callback_state)
  : outcome callback_state :=
  p ← Glue.down_pointer_cast Some (Some message) ;
  m ← deref p ;
  onRpcMessage m receiveTime s.

Lemma onConcreteMessage_eq message receiveTime s :
  onConcreteMessage message receiveTime s = onRpcMessage message receiveTime s.
Proof. unfold onConcreteMessage. by rewrite (Glue.down_pointer_cast_object Some message message eq_refl). Qed.
#[global] Arguments onConcreteMessage : simpl never.

Definition errorCallback (e : ProtobufCodecLite.ErrorCode) (b : Buffer.t) (receiveTime : TimeStamp.t)
  (s : callback_state) : outcome (Buffer.t * callback_state) :=
  r ← ProtobufCodecLite.defaultErrorCallback true e b receiveTime s.1 ; mret (r.1, (r.2, s.2)).

(** [ProtobufCodecLiteT]: the codec for [RpcMessage] with the tag [rpctag]; the size
    of the moved-from tag is 0. *)
Definition codec_ : ProtobufCodecLite.t callback_state :=
  ProtobufCodecLite.new rpctag 0 onConcreteMessage None (Some errorCallback).

Definition fillEmptyBuffer (b : Buffer.t) (message : RpcMessage) : outcome Buffer.t :=
  ProtobufCodecLite.fillEmptyBuffer codec_ b message.

(** [RpcChannel::onMessage]: every turn of the loop takes at least one byte. *)
Definition onMessage (b : Buffer.t) (receiveTime : TimeStamp.t) (s : callback_state)
  : outcome (Buffer.t * callback_state) :=
  ProtobufCodecLite.onMessage (Datatypes.S (length (Buffer.content b))) codec_ b receiveTime s.

Lemma codec_wf : ProtobufCodecLite.wf codec_.
Proof. split; vm_compute; (done || lia || split; done). Qed.
End codec.
End RpcCodec.

Module RpcWire.
Import RpcChannel RpcSystem.
Section wire.
Context {HO : HostOrder} `{RpcProtobuf} `{Zlib}.

Definition sendable (m : RpcMessage) : Prop := ProtobufCodecLite.sendable RpcCodec.codec_ m.
Definition frames (ms : list RpcMessage) : bytes := ProtobufCodecLite.stream RpcCodec.codec_ ms.

(** The bytes the codec hands to the connection for each message in turn. *)
Fixpoint send_all (ms : list RpcMessage) : outcome bytes :=
  match ms with
  | [] => mret []
  | m :: ms =>
      b ← RpcCodec.fillEmptyBuffer (Buffer.new Buffer.kInitialSize) m ;
      bs ← send_all ms ;
      mret (Buffer.content b ++ bs)
  end.

(** [up_wire]: bytes on their way to the server; [up_buf]: its input buffer; [conn]:
    the connection, which only the error callback uses. *)
Record t := mk {
  client : RpcChannel.t;
  server : RpcChannel.t;
  up_wire : bytes;
  up_buf : Buffer.t;
  down_wire : bytes;
  down_buf : Buffer.t;
  serving : list Z;
  calls : list (Z * Z);
  answers : list (Z * option bytes);
  runs : list (Z * Z * option bytes);
  conn : TcpConnection.t;
}.

Definition init (services : RpcServer.t) (cn : TcpConnection.t) : t :=
  let s := RpcSystem.init services in
  mk (RpcSystem.client s) (RpcSystem.server s) [] (Buffer.new Buffer.kInitialSize) []
    (Buffer.new Buffer.kInitialSize) [] [] [] [] cn.

(** [n] more bytes of [wire] arrive in the buffer [b] of the channel [c]. *)
Definition arrive (cn : TcpConnection.t) (b : Buffer.t) (wire : bytes) (n : nat) (receiveTime : TimeStamp.t)
  (c : RpcChannel.t) : outcome (Buffer.t * RpcCodec.callback_state) :=
  b ← Buffer.append b (take n wire) ; RpcCodec.onMessage b receiveTime (cn, (c, [])).

(** Messages fit into a frame and the buffers into memory. *)
Inductive step : t -> t -> Prop :=
  | StepCall w svc mth req resp d c' es bs :
      id_ (client w) + 1 < 2 ^ 64 ->
      CallMethod (client w) svc mth req (Some resp) (Some d) = (c', es) ->
      Forall sendable (sends es) -> send_all (sends es) = Ok bs ->
      step w (mk c' (server w) (up_wire w ++ bs) (up_buf w) (down_wire w) (down_buf w) (serving w)
                (calls w ++ [(id_ c', d)]) (answers w) (runs w) (conn w))
  | StepServer w n tm b' cn' c' es bs :
      Buffer.room (up_buf w) (Z.of_nat n) ->
      arrive (conn w) (up_buf w) (up_wire w) n tm (server w) = Ok (b', (cn', (c', es))) ->
      Forall sendable (sends es) -> send_all (sends es) = Ok bs ->
      step w (mk (client w) c' (drop n (up_wire w)) b' (down_wire w ++ bs) (down_buf w) (serving w ++ invoked es)
                (calls w) (answers w ++ answers_in (sends es)) (runs w) cn')
  | StepFinish w i l1 l2 resp bs :
      serving w = l1 ++ i :: l2 ->
      Forall sendable (sends [doneCallback resp i]) -> send_all (sends [doneCallback resp i]) = Ok bs ->
      step w (mk (client w) (server w) (up_wire w) (up_buf w) (down_wire w ++ bs) (down_buf w) (l1 ++ l2)
                (calls w) (answers w ++ answers_in (sends [doneCallback resp i])) (runs w) (conn w))
  | StepClient w n tm b' cn' c' es :
      Buffer.room (down_buf w) (Z.of_nat n) ->
      arrive (conn w) (down_buf w) (down_wire w) n tm (client w) = Ok (b', (cn', (c', es))) ->
      step w (mk c' (server w) (up_wire w) (up_buf w) (drop n (down_wire w)) b' (serving w)
                (calls w) (answers w) (runs w ++ ran es) cn').

(** ** The calls behind the bytes *)
Context {PL : RpcProtobufLaws}.

(** The messages [ms] are on their way: the buffer holds the beginning of the first
    frame that is not complete, the wire the rest. *)
Definition carries (b : Buffer.t) (wire : bytes) (ms : list RpcMessage) : Prop :=
  exists part, Buffer.holds b part /\ part ++ wire = frames ms /\ Forall sendable ms /\
    ProtobufCodecLite.look RpcCodec.codec_ part = Framing.Wait.

Record abstracts (w : t) (s : RpcSystem.t) : Prop := {
  a_client : client w = RpcSystem.client s;
  a_server : server w = RpcSystem.server s;
  a_up : carries (up_buf w) (up_wire w) (RpcSystem.up s);
  a_down : carries (down_buf w) (down_wire w) (RpcSystem.down s);
  a_serving : serving w = RpcSystem.serving s;
  a_calls : calls w = RpcSystem.calls s;
  a_answers : answers w = RpcSystem.answers s;
  a_runs : runs w = RpcSystem.runs s;
}.

Lemma send_all_frames ms : Forall sendable ms -> send_all ms = Ok (frames ms).
Proof.
  induction 1 as [|m ms Hm _ IH]; [done|]. cbn [send_all].
  destruct (ProtobufCodecLite.fillEmptyBuffer_spec RpcCodec.codec_ m (Buffer.new Buffer.kInitialSize))
    as (b & E & _ & Hc); [apply RpcCodec.codec_wf|done|by apply Buffer.new_holds|done..|].
  unfold RpcCodec.fillEmptyBuffer. by rewrite E, bind_ok, IH, bind_ok, Hc.
Qed.

Lemma frames_app ms1 ms2 : frames (ms1 ++ ms2) = frames ms1 ++ frames ms2.
Proof. unfold frames, ProtobufCodecLite.stream, Framing.stream. by rewrite map_app, concat_app. Qed.

Lemma carries_send b wire ms ms' :
  carries b wire ms -> Forall sendable ms' -> carries b (wire ++ frames ms') (ms ++ ms').
Proof.
  intros (part & Hb & Hp & Hms & Hl) Hms'. exists part. split_and!; [done| |by apply Forall_app|done].
  by rewrite app_assoc, Hp, frames_app.
Qed.

Lemma carries_new : carries (Buffer.new Buffer.kInitialSize) [] [].
Proof.
  exists []. split_and!; [by apply Buffer.new_holds|done|constructor|].
  apply ProtobufCodecLite.look_nil, RpcCodec.codec_wf.
Qed.

(** Nothing on the wire and an incomplete frame in the buffer: no message. *)
Lemma carries_nil b ms : carries b [] ms -> ms = [].
Proof.
  intros (part & _ & Hp & Hms & Hl). destruct Hms as [|m ms Hm _]; [done|]. exfalso.
  rewrite app_nil_r in Hp. subst part. change (frames (m :: ms)) with (ProtobufCodecLite.frame RpcCodec.codec_ m ++ frames ms) in Hl.
  rewrite ProtobufCodecLite.look_frame in Hl; [done|apply RpcCodec.codec_wf|done].
Qed.

(** The messages that [n] more bytes complete are handed to the channel in order. *)
Lemma arrive_spec cn b wire n tm c ms :
  carries b wire ms -> Buffer.room b (Z.of_nat n) ->
  exists ms1 ms2 b', ms = ms1 ++ ms2 /\ carries b' (drop n wire) ms2 /\
    arrive cn b wire n tm c =
    (s ← ProtobufCodecLite.deliver RpcCodec.codec_ ms1 tm (cn, (c, [])) ; Ok (b', s)).
Proof.
  intros (part & Hb & Hp & Hms & Hl) Hr.
  assert ((part ++ take n wire) ++ drop n wire = frames ms) as Hcut by (by rewrite <- app_assoc, take_drop).
  destruct (Framing.stream_cut _ _ _ (ProtobufCodecLite.look_nil _ RpcCodec.codec_wf)
    (fun m p r => ProtobufCodecLite.look_partial _ m p r RpcCodec.codec_wf) ms _ _ Hms Hcut)
    as (ms1 & ms2 & part' & -> & Hq & Hrest & Hl').
  apply Forall_app in Hms as [Hms1 Hms2].
  destruct (Buffer.append_spec b part (take n wire) Hb) as (b1 & E1 & Hb1 & _).
  { unfold Buffer.room, zlen in *. rewrite length_take. lia. }
  rewrite Hq in Hb1.
  destruct (ProtobufCodecLite.onMessage_stream _ ms1 part' tm b1 (cn, (c, [])) RpcCodec.codec_wf Hms1 Hl' Hb1)
    as (b' & Hb' & E2).
  exists ms1, ms2, b'. split_and!; [done|by exists part'|].
  unfold arrive, RpcCodec.onMessage. rewrite E1, bind_ok. destruct Hb1 as [_ ->]. exact E2.
Qed.

Lemma sends_app es1 es2 : sends (es1 ++ es2) = sends es1 ++ sends es2.
Proof. apply omap_app. Qed.
Lemma invoked_app es1 es2 : invoked (es1 ++ es2) = invoked es1 ++ invoked es2.
Proof. apply omap_app. Qed.
Lemma ran_app es1 es2 : ran (es1 ++ es2) = ran es1 ++ ran es2.
Proof. apply omap_app. Qed.
Lemma answers_in_app ms1 ms2 : answers_in (ms1 ++ ms2) = answers_in ms1 ++ answers_in ms2.
Proof. apply map_app. Qed.

Lemma deliver_cons cn m ms tm c es :
  ProtobufCodecLite.deliver RpcCodec.codec_ (m :: ms) tm (cn, (c, es)) =
  (r ← onRpcMessage true c m ; ProtobufCodecLite.deliver RpcCodec.codec_ ms tm (cn, (r.1, es ++ r.2))).
Proof.
  unfold ProtobufCodecLite.deliver. cbn [Framing.deliver]. simpl.
  rewrite RpcCodec.onConcreteMessage_eq. unfold RpcCodec.onRpcMessage. simpl.
  by destruct (onRpcMessage true c m).
Qed.

(** The server's end takes requests one after the other. *)
Lemma deliver_requests cn tm ms1 ms2 s es0 :
  inv s -> RpcSystem.up s = ms1 ++ ms2 ->
  exists c' es, ProtobufCodecLite.deliver RpcCodec.codec_ ms1 tm (cn, (RpcSystem.server s, es0)) =
      Ok (cn, (c', es0 ++ es)) /\
    rtc RpcSystem.step s (RpcSystem.mk (RpcSystem.client s) c' ms2 (RpcSystem.down s ++ sends es)
      (RpcSystem.serving s ++ invoked es) (RpcSystem.calls s)
      (RpcSystem.answers s ++ answers_in (sends es)) (RpcSystem.runs s)).
Proof.
  revert s es0. induction ms1 as [|m ms1 IH]; intros s es0 Hs Hup.
  - exists (RpcSystem.server s), []. rewrite !app_nil_r. split; [done|]. simpl in Hup. rewrite <- Hup.
    destruct s. apply rtc_refl.
  - simpl in Hup. pose proof (inv_up s Hs) as Hall. rewrite Hup in Hall. apply Forall_cons in Hall as [Hm _].
    destruct (request_outcome (RpcSystem.server s) m Hm) as (es1 & E & _).
    rewrite deliver_cons, E, bind_ok. cbn [fst snd].
    pose proof (server_inv s m _ _ _ Hs Hup E) as Hs1. pose proof (RpcSystem.StepServer s m _ _ _ Hup E) as Hst.
    destruct (IH _ (es0 ++ es1) Hs1 eq_refl) as (c' & es2 & E2 & Hrtc). cbn in E2, Hrtc.
    exists c', (es1 ++ es2). rewrite E2, <- app_assoc. split; [done|].
    rewrite sends_app, invoked_app, answers_in_app, !app_assoc. by eapply rtc_l.
Qed.

Lemma deliver_responses cn tm ms1 ms2 s es0 :
  inv s -> RpcSystem.down s = ms1 ++ ms2 ->
  exists c' es, ProtobufCodecLite.deliver RpcCodec.codec_ ms1 tm (cn, (RpcSystem.client s, es0)) =
      Ok (cn, (c', es0 ++ es)) /\
    rtc RpcSystem.step s (RpcSystem.mk c' (RpcSystem.server s) (RpcSystem.up s) ms2 (RpcSystem.serving s)
      (RpcSystem.calls s) (RpcSystem.answers s) (RpcSystem.runs s ++ ran es)).
Proof.
  revert s es0. induction ms1 as [|m ms1 IH]; intros s es0 Hs Hd.
  - exists (RpcSystem.client s), []. rewrite !app_nil_r. split; [done|]. simpl in Hd. rewrite <- Hd.
    destruct s. apply rtc_refl.
  - simpl in Hd. destruct (response_outcome s m _ Hs Hd) as (d & _ & _ & E).
    rewrite deliver_cons, E, bind_ok. cbn [fst snd].
    pose proof (client_inv s m _ _ _ Hs Hd E) as Hs1. pose proof (RpcSystem.StepClient s m _ _ _ Hd E) as Hst.
    destruct (IH _ (es0 ++ [RunDone (id m) d (response m)]) Hs1 eq_refl) as (c' & es2 & E2 & Hrtc). cbn in E2, Hrtc.
    exists c', (RunDone (id m) d (response m) :: es2). rewrite E2, <- app_assoc. split; [done|].
    rewrite <- (app_assoc (RpcSystem.runs s)) in Hrtc. by eapply rtc_l.
Qed.

(** Every step on the wire is some steps of the calls. *)
Lemma step_simulates w w' s :
  abstracts w s -> inv s -> step w w' -> exists s', rtc RpcSystem.step s s' /\ abstracts w' s'.
Proof.
  intros [Ec Es Hup Hdown Esv Eca Ean Eru] Hs Hst.
  destruct Hst as [w svc mth req resp d c' es bs Hid Ecall Hsend Ebs|w n tm b' cn' c' es bs Hroom Earr Hsend Ebs|
    w i l1 l2 resp bs Hsv Hsend Ebs|w n tm b' cn' c' es Hroom Earr];
    try (rewrite send_all_frames in Ebs by done; injection Ebs as <-).
  - rewrite Ec in *. eexists. split; [eapply rtc_once, RpcSystem.StepCall; done|].
    split; simpl; try done; [by apply carries_send|by rewrite Eca].
  - rewrite Es in Earr.
    destruct (arrive_spec (conn w) (up_buf w) (up_wire w) n tm (RpcSystem.server s) _ Hup Hroom)
      as (ms1 & ms2 & b1 & Hms & Hc & E). rewrite E in Earr.
    destruct (deliver_requests (conn w) tm ms1 ms2 s [] Hs Hms) as (c1 & es1 & E1 & Hrtc).
    rewrite E1, bind_ok in Earr. injection Earr as <- <- <- <-. simpl in *.
    eexists. split; [exact Hrtc|]. split; simpl; try done; [by apply carries_send|by rewrite Esv|by rewrite Ean].
  - rewrite Esv in *. eexists. split; [by eapply rtc_once, RpcSystem.StepFinish|].
    split; simpl; try done; [by apply carries_send|by rewrite Ean].
  - rewrite Ec in Earr.
    destruct (arrive_spec (conn w) (down_buf w) (down_wire w) n tm (RpcSystem.client s) _ Hdown Hroom)
      as (ms1 & ms2 & b1 & Hms & Hc & E). rewrite E in Earr.
    destruct (deliver_responses (conn w) tm ms1 ms2 s [] Hs Hms) as (c1 & es1 & E1 & Hrtc).
    rewrite E1, bind_ok in Earr. injection Earr as <- <- <- <-. simpl in *.
    eexists. split; [exact Hrtc|]. split; simpl; try done. by rewrite Eru.
Qed.

Lemma wire_abstracts services cn w :
  rtc step (init services cn) w ->
  exists s, rtc RpcSystem.step (RpcSystem.init services) s /\ abstracts w s.
Proof.
  revert w. apply (rtc_ind_r (fun w => exists s, rtc RpcSystem.step (RpcSystem.init services) s /\ abstracts w s)).
  - exists (RpcSystem.init services). split; [apply rtc_refl|]. split; try done; apply carries_new.
  - intros w w' _ Hst (s & Hr & Ha).
    destruct (step_simulates w w' s Ha (reachable_inv_rpc services s Hr) Hst) as (s' & Hr' & Ha').
    exists s'. split; [by eapply rtc_trans|done].
Qed.

(** C26. Calls over byte streams: however the bytes of the two directions are cut
    into pieces, the client, the server and the history are those of a run in which
    whole messages are passed; the arrival of any number of bytes never fails an
    assertion or throws, and leaves the connection open (the codec's error callback
    would shut it down); each call's closure is run at most once, with the answer given to that very call; and when no byte is
    under way and no service is busy, every call has completed. *)
Theorem rpc_wire_exactly_once services cn w :
  rtc step (init services cn) w ->
  (exists s, rtc RpcSystem.step (RpcSystem.init services) s /\ abstracts w s) /\
  (forall n tm, Buffer.room (up_buf w) (Z.of_nat n) ->
     exists b c es, arrive (conn w) (up_buf w) (up_wire w) n tm (server w) = Ok (b, (conn w, (c, es)))) /\
  (forall n tm, Buffer.room (down_buf w) (Z.of_nat n) ->
     exists b c es, arrive (conn w) (down_buf w) (down_wire w) n tm (client w) = Ok (b, (conn w, (c, es)))) /\
  NoDup (map run_id (runs w)) /\
  (forall i d p, (i, d, p) ∈ runs w -> (i, d) ∈ calls w /\ (i, p) ∈ answers w) /\
  (up_wire w = [] -> serving w = [] -> down_wire w = [] ->
     outstandings_ (client w) = ∅ /\ map run_id (runs w) ≡ₚ map fst (calls w)).
Proof.
  intros Hreach. destruct (wire_abstracts services cn w Hreach) as (s & Hr & Ha).
  pose proof (reachable_inv_rpc services s Hr) as Hs.
  destruct (inv_exactly_once s Hs) as (Hnd & _ & Hruns & _ & Hq).
  split; [by exists s|]. destruct Ha as [Ec Es Hup Hdown Esv Eca Ean Eru]. rewrite Ec, Es, Eca, Ean, Eru.
  split_and!; try done.
  - intros n tm Hroom. destruct (arrive_spec (conn w) _ _ n tm (RpcSystem.server s) _ Hup Hroom)
      as (ms1 & ms2 & b' & Hms & _ & ->).
    destruct (deliver_requests (conn w) tm ms1 ms2 s [] Hs Hms) as (c' & es & -> & _). by do 3 eexists.
  - intros n tm Hroom. destruct (arrive_spec (conn w) _ _ n tm (RpcSystem.client s) _ Hdown Hroom)
      as (ms1 & ms2 & b' & Hms & _ & ->).
    destruct (deliver_responses (conn w) tm ms1 ms2 s [] Hs Hms) as (c' & es & -> & _). by do 3 eexists.
  - intros Hu Hsv Hd. rewrite Hu in Hup. rewrite Hd in Hdown. rewrite Hsv in Esv.
    apply Hq; [by eapply carries_nil|done|by eapply carries_nil].
Qed.

(** Deciding what can be sent, for runs on concrete inputs. *)
Definition or_nil (m : outcome bytes) : bytes := match m with Ok b => b | Fault _ => [] end.
#[local] Abbreviation small := (fun m : RpcMessage =>
  zlen (ProtobufCodecLite.body RpcCodec.codec_ m) <=? ProtobufCodecLite.kMaxMessageLen).
Lemma small_sendable ms : forallb small ms = true -> Forall sendable ms.
Proof.
  induction ms as [|m ms IH]; cbn [forallb]; [constructor|]. intros [Hm Hms]%andb_true_iff.
  constructor; [|exact (IH Hms)]. apply Z.leb_le in Hm.
  unfold sendable, ProtobufCodecLite.sendable. exact (conj eq_refl Hm).
Qed.
Lemma small_send ms : forallb small ms = true -> send_all ms = Ok (or_nil (send_all ms)).
Proof. intros Hms. rewrite (send_all_frames ms (small_sendable ms Hms)). reflexivity. Qed.
End wire.

(** *** A run: one call whose request arrives in two pieces. *)

(** A serialization: the number of a message, in binary digits. *)
#[local] Instance MessageType_countable : Countable MessageType.
Proof.
  apply (inj_countable' (fun x => match x with REQUEST => 0 | RESPONSE => 1 | ERROR => 2 end)%nat
    (fun n => match n with 0 => REQUEST | 1 => RESPONSE | _ => ERROR end)%nat). by intros [].
Defined.
#[local] Instance ErrorCode_countable : Countable ErrorCode.
Proof.
  apply (inj_countable' (fun x => match x with NO_ERROR => 0 | WRONG_PROTO => 1 | NO_SERVICE => 2 | NO_METHOD => 3
      | INVALID_REQUEST => 4 | INVALID_RESPONSE => 5 | TIMEOUT => 6 end)%nat
    (fun n => match n with 0 => NO_ERROR | 1 => WRONG_PROTO | 2 => NO_SERVICE | 3 => NO_METHOD
      | 4 => INVALID_REQUEST | 5 => INVALID_RESPONSE | _ => TIMEOUT end)%nat). by intros [].
Defined.
#[local] Instance byte_countable : Countable byte.
Proof. apply (inj_countable' nat_of_ascii ascii_of_nat). apply ascii_nat_embedding. Defined.
#[local] Instance RpcMessage_countable : Countable RpcMessage.
Proof.
  apply (inj_countable' (fun m => (type m, id m, service m, method m, request m, response m, error m))
    (fun '(a, b, c, d, e, f, g) => mk_message a b c d e f g)). by intros [].
Defined.

Fixpoint digits (p : positive) : bytes :=
  match p with xH => [] | xO p => "0"%char :: digits p | xI p => "1"%char :: digits p end.
Fixpoint undigits (s : bytes) : positive :=
  match s with [] => xH | "0"%char :: s => xO (undigits s) | _ :: s => xI (undigits s) end.
Lemma undigits_digits p : undigits (digits p) = p.
Proof. induction p; simpl; congruence. Qed.

#[local] Instance demo_rpc : RpcProtobuf :=
  {| rpc_ByteSize := fun m => zlen (digits (encode m)); rpc_Serialized := fun m => digits (encode m);
     rpc_ParseFromArray := fun s => decode (undigits s) |}.
#[local] Instance demo_rpc_laws : RpcProtobufLaws.
Proof. split; intros m; [done|]. simpl. by rewrite undigits_digits, decode_encode. Qed.
#[local] Instance demo_zlib : Zlib := ProtobufCodecLite.demo_zlib.
#[local] Instance demo_host : HostOrder := LittleEndian.
#[local] Abbreviation small := (fun m : RpcMessage =>
  zlen (ProtobufCodecLite.body RpcCodec.codec_ m) <=? ProtobufCodecLite.kMaxMessageLen).

Definition demo_conn : TcpConnection.t := TcpConnection.new false false.
Definition demo_call (w : t) : t :=
  let r := CallMethod (client w) (str "Echo") (str "echo") (str "hi") (Some 100) (Some 8) in
  mk r.1 (server w) (up_wire w ++ or_nil (send_all (sends r.2))) (up_buf w) (down_wire w) (down_buf w) (serving w)
    (calls w ++ [(id_ r.1, 8)]) (answers w) (runs w) (conn w).
Definition demo_serve (n : nat) (w : t) : t :=
  match arrive (conn w) (up_buf w) (up_wire w) n 0 (server w) with
  | Ok (b, (cn, (c, es))) =>
      mk (client w) c (drop n (up_wire w)) b (down_wire w ++ or_nil (send_all (sends es))) (down_buf w)
        (serving w ++ invoked es) (calls w) (answers w ++ answers_in (sends es)) (runs w) cn
  | Fault _ => w
  end.
Definition demo_finish (w : t) : t :=
  mk (client w) (server w) (up_wire w) (up_buf w)
    (down_wire w ++ or_nil (send_all (sends [doneCallback (str "hi!") 1]))) (down_buf w) []
    (calls w) (answers w ++ answers_in (sends [doneCallback (str "hi!") 1])) (runs w) (conn w).
Definition demo_receive (n : nat) (w : t) : t :=
  match arrive (conn w) (down_buf w) (down_wire w) n 0 (client w) with
  | Ok (b, (cn, (c, es))) =>
      mk c (server w) (up_wire w) (up_buf w) (drop n (down_wire w)) b (serving w)
        (calls w) (answers w) (runs w ++ ran es) cn
  | Fault _ => w
  end.

Definition demo1 : t := demo_call (init demo_server demo_conn).
Definition demo2 : t := demo_serve 100 demo1.
Definition demo3 : t := demo_serve 4000 demo2.
Definition demo4 : t := demo_finish demo3.
Definition demo5 : t := demo_receive 4000 demo4.

Definition serves (n : nat) (w : t) : bool :=
  match arrive (conn w) (up_buf w) (up_wire w) n 0 (server w) with
  | Ok (_, (_, (_, es))) => forallb small (sends es)
  | Fault _ => false
  end.
Definition receives (n : nat) (w : t) : bool :=
  match arrive (conn w) (down_buf w) (down_wire w) n 0 (client w) with Ok _ => true | Fault _ => false end.

Lemma serve_wire_step n w :
  Buffer.room (up_buf w) (Z.of_nat n) -> serves n w = true -> step w (demo_serve n w).
Proof.
  unfold serves, demo_serve. intros Hr Hs.
  destruct (arrive (conn w) (up_buf w) (up_wire w) n 0 (server w)) as [[b [cn [c es]]]|] eqn:E; [|discriminate Hs].
  exact (StepServer w n 0 b cn c es _ Hr E (small_sendable _ Hs) (small_send _ Hs)).
Qed.
Lemma receive_wire_step n w :
  Buffer.room (down_buf w) (Z.of_nat n) -> receives n w = true -> step w (demo_receive n w).
Proof.
  unfold receives, demo_receive. intros Hr Hs.
  destruct (arrive (conn w) (down_buf w) (down_wire w) n 0 (client w)) as [[b [cn [c es]]]|] eqn:E; [|discriminate Hs].
  exact (StepClient w n 0 b cn c es Hr E).
Qed.

Lemma wire_demo_reachable : rtc step (init demo_server demo_conn) demo5.
Proof.
  apply rtc_l with demo1.
  { eapply StepCall; [reflexivity|apply surjective_pairing|apply small_sendable|apply small_send];
      vm_compute; reflexivity. }
  apply rtc_l with demo2; [apply (serve_wire_step 100 demo1); vm_compute; first [reflexivity|discriminate]|].
  apply rtc_l with demo3; [apply (serve_wire_step 4000 demo2); vm_compute; first [reflexivity|discriminate]|].
  apply rtc_l with demo4.
  { eapply (StepFinish demo3 1 [] []); [|apply small_sendable|apply small_send]; vm_compute; reflexivity. }
  apply rtc_l with demo5; [apply (receive_wire_step 4000 demo4); vm_compute; first [reflexivity|discriminate]|].
  apply rtc_refl.
Qed.

Lemma rpc_wire_exactly_once_witness :
  runs demo5 = [(1, 8, Some (str "hi!"))] /\ outstandings_ (client demo5) = ∅.
Proof.
  split; [vm_compute; reflexivity|].
  destruct (rpc_wire_exactly_once demo_server demo_conn demo5 wire_demo_reachable) as (_ & _ & _ & _ & _ & Hq).
  apply Hq; vm_compute; reflexivity.
Defined.
End RpcWire.
