(* ===== verification/RpcPrograms.v ===== *)
(** The programs that use remote procedure calls: the echo benchmark
    (src/examples/protobuf/rpcbench/client.cpp, server.cpp) with any number of clients,
    and the sudoku client and server (src/examples/protobuf/rpc/client.cpp,
    server.cpp).  They run the channels of the file Rpc. *)

From S2P Require Import Prelude NetBuffer NumText TimeText Address Server Rpc.

(** The serialization protoc generates for a type of messages. *)
Class Wire (A : Type) := { Serialize : A -> bytes; Parse : bytes -> option A }.
Class WireLaws (A : Type) `{Wire A} : Prop := parse_serialize a : Parse (Serialize a) = Some a.

(** The requests a method of a service accepts. *)
Definition parses (A : Type) `{Wire A} (b : bytes) : bool := match Parse (A := A) b with Some _ => true | None => false end.

Module EchoBench.
Import RpcChannel.

(** ** echo.proto and its server *)
Record EchoRequest := mk_request { req_payload : bytes }.
Record EchoResponse := mk_response { resp_payload : bytes }.

Definition service_name : bytes := str "echo.EchoService".
Definition method_name : bytes := str "Echo".

(** [EchoServiceImpl::Echo], which runs its closure at once. *)
Definition Echo (request : EchoRequest) : EchoResponse := {| resp_payload := req_payload request |}.

Section program.
Context `{Wire EchoRequest} `{Wire EchoResponse}.

Definition echo_service : Service :=
  {| full_name := service_name;
     FindMethodByName := fun m => if decide (m = method_name) then Some (parses EchoRequest) else None |}.

(** [main] of the server; [args] are the values [atoi] gives for its arguments. *)
Definition server_main {HO : HostOrder} `{InetText} (mem : bytes) (loop idleFd : Z) (startLoop : nat -> Z) (args : list Z)
  : outcome (TcpServer.t * RpcServer.t) :=
  let nThreads := default 1 (args !! 0%nat) in
  let port := default 8888 (args !! 1%nat) in
  ipPort ← InetAddress.toIpPort (InetAddress.new mem (uint16 port) false false) ;
  server ← TcpServer.setThreadNum (TcpServer.new loop ipPort (str "RpcServer") idleFd) nThreads ;
  let services := RpcServer.registerService RpcServer.new echo_service in
  server ← TcpServer.start false startLoop server ;
  mret (server, services).

(** What the server's end sends for each event: the service answers a call at once. *)
Definition answer (e : event) : list RpcMessage :=
  match e with
  | Send m => [m]
  | Invoke i _ _ request =>
      match Parse (A := EchoRequest) request with
      | Some req => RpcSystem.sends [doneCallback (Serialize (Echo req)) i]
      | None => []
      end
  | RunDone _ _ _ => []
  end.

(** A message arrives at the server's end of a connection. *)
Definition serve (c : RpcChannel.t) (m : RpcMessage) : outcome (RpcChannel.t * list RpcMessage) :=
  r ← onRpcMessage true c m ; mret (r.1, concat (map answer r.2)).

(** ** The clients *)
Definition kRequests : Z := 50000.

(** An [RpcClient] with the server's end of its connection and the messages between
    them.  [replies] is history: the payloads its closure has been run with. *)
Record RpcClient := mk {
  channel_ : RpcChannel.t;
  conn_ : bool;
  count_ : Z;
  loop_ : Z;
  peer : option RpcChannel.t;
  up : list RpcMessage;
  down : list RpcMessage;
  replies : list (option EchoResponse);
}.

Definition new (loop : Z) : RpcClient :=
  {| channel_ := RpcChannel.new; conn_ := false; count_ := 0; loop_ := loop; peer := None;
     up := []; down := []; replies := [] |}.

(** [sendRequest]: through a null [conn_] it would crash.  The response object and the
    closure are named by the number of the request. *)
Definition sendRequest (c : RpcClient) : outcome RpcClient :=
  let r := CallMethod (channel_ c) service_name method_name
             (Serialize {| req_payload := str "001010" |}) (Some (count_ c)) (Some (count_ c)) in
  _ ← deref (if conn_ c then Some () else None) ;
  mret {| channel_ := r.1; conn_ := conn_ c; count_ := count_ c; loop_ := loop_ c; peer := peer c;
          up := up c ++ RpcSystem.sends r.2; down := down c; replies := replies c |}.

(** [onConnection], and the server's for the same connection; says whether
    [allConnected_] is counted down. *)
Definition onConnection (services : RpcServer.t) (c : RpcClient) (connected : bool) : RpcClient * bool :=
  if connected then
    ({| channel_ := channel_ c; conn_ := true; count_ := count_ c; loop_ := loop_ c;
        peer := RpcServer.onConnection services true; up := up c; down := down c; replies := replies c |}, true)
  else (c, false).

(** [replied]; says whether [allFinished_] is counted down. *)
Definition replied (c : RpcClient) (response : option EchoResponse) : outcome (RpcClient * bool) :=
  let count := int32 (count_ c + 1) in
  let c := {| channel_ := channel_ c; conn_ := conn_ c; count_ := count; loop_ := loop_ c; peer := peer c;
              up := up c; down := down c; replies := replies c ++ [response] |} in
  if count <? kRequests then (c ← sendRequest c ; mret (c, false))
  else mret (c, true).

(** The server's end reads a message. *)
Definition server_reads (c : RpcClient) : outcome RpcClient :=
  s ← deref (peer c) ;
  match up c with
  | [] => mret c
  | m :: ms =>
      r ← serve s m ;
      mret {| channel_ := channel_ c; conn_ := conn_ c; count_ := count_ c; loop_ := loop_ c; peer := Some r.1;
              up := ms; down := down c ++ r.2; replies := replies c |}
  end.

(** The closures [onRpcMessage] runs, in turn. *)
Fixpoint run_closures (c : RpcClient) (finished : nat) (es : list event) : outcome (RpcClient * nat) :=
  match es with
  | [] => mret (c, finished)
  | RunDone _ _ payload :: es =>
      r ← replied c (b ← payload ; Parse b) ;
      run_closures r.1 (if r.2 : bool then S finished else finished) es
  | _ :: es => run_closures c finished es
  end.

(** The client's end reads a message; the number of times [allFinished_] is counted down. *)
Definition client_reads (c : RpcClient) : outcome (RpcClient * nat) :=
  match down c with
  | [] => mret (c, O)
  | m :: ms =>
      r ← onRpcMessage true (channel_ c) m ;
      run_closures {| channel_ := r.1; conn_ := conn_ c; count_ := count_ c; loop_ := loop_ c; peer := peer c;
                      up := up c; down := ms; replies := replies c |} O r.2
  end.

(** ** The main program *)
Inductive pc := WaitConnected | Sending (i : nat) | WaitFinished | Exited.

(** [base] is the [EventLoop] object of [main] itself, whose [loop()] is never called. *)
Record t := mk_bench {
  clients : list RpcClient;
  at_ : pc;
  allConnected : Z;
  allFinished : Z;
  base : Z;
}.

(** [clients.emplace_back(new RpcClient(pool.getNextLoop(), ...))], [n] times. *)
Fixpoint create (n : nat) (pool : EventLoopThreadPool.t) : outcome (list RpcClient) :=
  match n with
  | O => mret []
  | S n => r ← EventLoopThreadPool.getNextLoop true pool ; cs ← create n r.2 ; mret (new r.1 :: cs)
  end.

(** [main] up to [allConnected.wait()], for [argc > 1]; [args] are the values [atoi] gives
    for the arguments after the address. *)
Definition launch (loop : Z) (startLoop : nat -> Z) (args : list Z) : outcome t :=
  let nClients := default 1 (args !! 0%nat) in
  let nThreads := default 1 (args !! 1%nat) in
  let pool := EventLoopThreadPool.setThreadNum (EventLoopThreadPool.new loop (str "rpcbench-client")) nThreads in
  r ← EventLoopThreadPool.start true false startLoop pool ;
  cs ← create (Z.to_nat nClients) r.1 ;
  mret {| clients := cs; at_ := WaitConnected; allConnected := nClients; allFinished := nClients;
          base := loop |}.

(** [nClients * kRequests], the numerator of the rate that is printed. *)
Definition total_calls (nClients : Z) : Z := int32 (nClients * kRequests).

Inductive move := Connect (i : nat) | Main | ServerReads (i : nat) | ClientReads (i : nat).

Definition set_client (b : t) (i : nat) (c : RpcClient) (connected finished : Z) : t :=
  {| clients := <[i := c]> (clients b); at_ := at_ b; allConnected := allConnected b - connected;
     allFinished := allFinished b - finished; base := base b |}.

Definition set_pc (b : t) (p : pc) : t :=
  {| clients := clients b; at_ := p; allConnected := allConnected b; allFinished := allFinished b; base := base b |}.

(** A step of [main]; the two waits end when their latch is down. *)
Definition main_step (b : t) : outcome t :=
  match at_ b with
  | WaitConnected => mret (if 0 <? allConnected b then b else set_pc b (Sending 0))
  | Sending i =>
      match clients b !! i with
      | Some c => c ← sendRequest c ; mret (set_pc (set_client b i c 0 0) (Sending (S i)))
      | None => mret (set_pc b WaitFinished)
      end
  | WaitFinished => mret (if 0 <? allFinished b then b else set_pc b Exited)
  | Exited => mret b
  end.

Definition exec (services : RpcServer.t) (b : t) (m : move) : outcome t :=
  match m with
  | Connect i =>
      c ← deref (clients b !! i) ;
      let r := onConnection services c true in
      mret (set_client b i r.1 (if r.2 : bool then 1 else 0) 0)
  | Main => main_step b
  | ServerReads i => c ← deref (clients b !! i) ; c ← server_reads c ; mret (set_client b i c 0 0)
  | ClientReads i =>
      c ← deref (clients b !! i) ;
      r ← client_reads c ;
      mret (set_client b i r.1 0 (Z.of_nat r.2))
  end.

(** Every client is connected once, and an end reads when there is a message for it; the
    client's side of this happens in its loop, which must be one that runs: not [main]'s.
    [main] passes a wait when the latch is down.  After [exit(0)] nothing happens. *)
Definition enabled (b : t) (m : move) : Prop :=
  at_ b <> Exited /\
  match m with
  | Connect i => exists c, clients b !! i = Some c /\ loop_ c <> base b /\ conn_ c = false
  | Main => match at_ b with
            | WaitConnected => allConnected b <= 0
            | WaitFinished => allFinished b <= 0
            | _ => True
            end
  | ServerReads i => exists c, clients b !! i = Some c /\ up c <> []
  | ClientReads i => exists c, clients b !! i = Some c /\ loop_ c <> base b /\ down c <> []
  end.

Definition step (services : RpcServer.t) (b b' : t) : Prop := exists m, enabled b m /\ exec services b m = Ok b'.

Lemma server_main_services {HO : HostOrder} `{InetText} mem loop idleFd startLoop args s sv :
  server_main mem loop idleFd startLoop args = Ok (s, sv) ->
  sv = RpcServer.registerService RpcServer.new echo_service /\ 0 <= default 1 (args !! 0%nat) /\
  TcpServer.started_ s = true /\ Acceptor.isListening_ (TcpServer.acceptor_ s) = true /\
  EventLoopThreadPool.loops_ (TcpServer.threadPool_ s) =
    map startLoop (seq 0 (Z.to_nat (default 1 (args !! 0%nat)))).
Proof.
  unfold server_main. destruct (InetAddress.toIpPort _) as [ip|]; [|done]. rewrite bind_ok.
  unfold TcpServer.setThreadNum. destruct (Z.leb_spec 0 (default 1 (args !! 0%nat))); [|done].
  rewrite assert_pass by done. unfold mret at 1, outcome_ret at 1. rewrite bind_ok.
  unfold TcpServer.start. cbn [TcpServer.started_ TcpServer.threadPool_ TcpServer.acceptor_ TcpServer.new].
  unfold EventLoopThreadPool.start, EventLoopThreadPool.setThreadNum, EventLoopThreadPool.new. simpl.
  intros E. injection E as <- <-. done.
Qed.

(** ** The life of a client

    A client goes through the stages below; [client_at] is all there is to it in each. *)
Inductive stage := Fresh | Idle | Asking (k : Z) | Answering (k : Z) | Finished.

Definition services : RpcServer.t := RpcServer.registerService RpcServer.new echo_service.
Definition server_end : RpcChannel.t := RpcChannel.setServices RpcChannel.new (RpcServer.services_ services).

(** The channel after [i] calls, the last of which may be outstanding. *)
Definition channel_after (i : Z) (waiting : bool) : RpcChannel.t :=
  {| id_ := i; outstandings_ := if waiting then {[ i := mk_call (Some (i - 1)) (Some (i - 1)) ]} else ∅;
     services_ := None |}.

Definition request_message (i : Z) : RpcMessage :=
  {| type := REQUEST; id := i; service := Some service_name; method := Some method_name;
     request := Some (Serialize {| req_payload := str "001010" |}); response := None; error := None |}.
Definition response_message (i : Z) : RpcMessage :=
  {| type := RESPONSE; id := i; service := None; method := None; request := None;
     response := Some (Serialize {| resp_payload := str "001010" |}); error := None |}.

(** The replies of [k] calls. *)
Definition answered (k : Z) : list (option EchoResponse) :=
  replicate (Z.to_nat k) (Some {| resp_payload := str "001010" |}).

Definition client_at (x : Z * stage) : RpcClient :=
  match x.2 with
  | Fresh => new x.1
  | Idle => mk (channel_after 0 false) true 0 x.1 (Some server_end) [] [] []
  | Asking k => mk (channel_after (k + 1) true) true k x.1 (Some server_end) [request_message (k + 1)] [] (answered k)
  | Answering k => mk (channel_after (k + 1) true) true k x.1 (Some server_end) [] [response_message (k + 1)] (answered k)
  | Finished => mk (channel_after kRequests false) true kRequests x.1 (Some server_end) [] [] (answered kRequests)
  end.

Section laws.
Context `{!WireLaws EchoRequest} `{!WireLaws EchoResponse}.

Lemma send_at l k :
  0 <= k < kRequests ->
  sendRequest (mk (channel_after k false) true k l (Some server_end) [] [] (answered k)) = Ok (client_at (l, Asking k)).
Proof.
  intros Hk. unfold kRequests in Hk. unfold sendRequest, CallMethod. cbn [channel_ channel_after id_ conn_ deref count_].
  rewrite uwrap_small by lia. unfold client_at. simpl. unfold channel_after.
  by replace (k + 1 - 1) with k by lia.
Qed.

Lemma serve_at l k : server_reads (client_at (l, Asking k)) = Ok (client_at (l, Answering k)).
Proof.
  unfold server_reads, client_at. cbn [peer deref snd up]. rewrite bind_ok.
  unfold serve, onRpcMessage, request_message. cbn [type]. rewrite assert_pass by done.
  unfold dispatch, server_end, RpcChannel.setServices. cbn [services_].
  unfold services, RpcServer.registerService, echo_service. cbn [RpcServer.services_ full_name service get default].
  rewrite lookup_insert_eq. cbn [FindMethodByName method get default]. rewrite decide_True by done.
  unfold parses, get. cbn [request default from_option Datatypes.id id].
  rewrite parse_serialize.
  cbn [fst snd decide]. rewrite decide_True by done. unfold mret, outcome_ret. rewrite bind_ok. cbn [fst snd app map concat answer].
  rewrite parse_serialize. done.
Qed.

Lemma answered_S k : 0 <= k -> answered k ++ [Some {| resp_payload := str "001010" |}] = answered (k + 1).
Proof. intros Hk. unfold answered. rewrite Z2Nat.inj_add, Nat.add_1_r by lia. by rewrite replicate_S_end. Qed.

(** The stage after the answer to call [k], and how often the client counts down. *)
Definition next (k : Z) : stage * nat := if k + 1 <? kRequests then (Asking (k + 1), O) else (Finished, 1%nat).

Lemma read_at l k :
  0 <= k < kRequests -> client_reads (client_at (l, Answering k)) = Ok (client_at (l, (next k).1), (next k).2).
Proof.
  intros Hk. pose proof Hk as Hk'. unfold kRequests in Hk'.
  change (client_at (l, Answering k)) with
    (mk (channel_after (k + 1) true) true k l (Some server_end) [] [response_message (k + 1)] (answered k)).
  unfold client_reads. cbn [snd down channel_]. unfold onRpcMessage, response_message. cbn [type].
  rewrite assert_pass by done. unfold onResponse. cbn [response error id].
  rewrite bool_decide_true by (left; by eexists). rewrite assert_pass by done. unfold channel_after.
  cbn [outstandings_]. rewrite lookup_singleton_eq. cbn [default from_option Datatypes.id out_response out_done mret outcome_ret]. rewrite bind_ok.
  cbn [fst snd run_closures conn_ count_ loop_ peer up replies]. unfold replied.
  cbn [channel_ conn_ count_ loop_ peer up down replies]. rewrite swrap_small by (unfold in_int; simpl; lia).
  assert (forall r : EchoResponse, (b ← Some (Serialize r) ; Parse b) = Some r) as Hp by (intros; apply parse_serialize).
  rewrite Hp, answered_S by lia. unfold channel_after. cbn [id_ outstandings_ services_].
  rewrite delete_singleton_eq. fold (channel_after (k + 1) false).
  unfold next. destruct (Z.ltb_spec (k + 1) kRequests) as [Hlt|Hge].
  - rewrite send_at by lia. done.
  - rewrite bind_ok. cbn [fst snd run_closures]. assert (k + 1 = kRequests) as -> by lia. done.
Qed.

(** ** The whole benchmark *)
Definition started (st : stage) : Prop :=
  match st with Asking k | Answering k => 0 <= k < kRequests | Finished => True | _ => False end.
Definition stage_ok (p : pc) (i : nat) (st : stage) : Prop :=
  match p with
  | WaitConnected => st = Fresh \/ st = Idle
  | Sending j => if decide (i < j)%nat then started st else st = Idle
  | WaitFinished => started st
  | Exited => st = Finished
  end.
Definition fresh (x : Z * stage) : Z := match x.2 with Fresh => 1 | _ => 0 end.
Definition unfinished (x : Z * stage) : Z := match x.2 with Finished => 0 | _ => 1 end.

Record rep (b : t) (l : list (Z * stage)) : Prop := {
  rep_clients : clients b = map client_at l;
  rep_stages : forall i x, l !! i = Some x -> stage_ok (at_ b) i x.2;
  rep_sending : forall j, at_ b = Sending j -> (j <= length l)%nat;
  rep_connected : allConnected b = zsum fresh l;
  rep_finished : allFinished b = zsum unfinished l;
}.

(** What is left to do. *)
Definition rank (x : Z * stage) : Z :=
  match x.2 with
  | Fresh => 2 * kRequests + 2
  | Idle => 2 * kRequests + 1
  | Asking k => 2 * (kRequests - k)
  | Answering k => 2 * (kRequests - k) - 1
  | Finished => 0
  end.
Definition pc_rank (p : pc) (n : nat) : Z :=
  match p with
  | WaitConnected => Z.of_nat n + 4
  | Sending j => Z.of_nat n - Z.of_nat j + 2
  | WaitFinished => 1
  | Exited => 0
  end.
Definition measure (b : t) (l : list (Z * stage)) : Z := zsum rank l + pc_rank (at_ b) (length l).

Lemma zsum_zero {A} (f : A -> Z) l i x : (forall y, 0 <= f y) -> zsum f l <= 0 -> l !! i = Some x -> f x = 0.
Proof.
  intros Hf. assert (forall l, 0 <= zsum f l) as Hpos.
  { intros k. induction k as [|y k IH]; simpl; [lia|]. specialize (Hf y). lia. }
  revert i. induction l as [|y l IH]; intros [|i] Hs E; simplify_eq/=;
    pose proof (Hf x); pose proof (Hpos l); [lia|]. pose proof (Hf y). apply (IH i); [lia|done].
Qed.

Lemma zsum_pos {A} (f : A -> Z) l : 0 < zsum f l -> exists i x, l !! i = Some x /\ 0 < f x.
Proof.
  induction l as [|y l IH]; simpl; [lia|]. intros Hs. destruct (decide (0 < f y)) as [Hy|Hy].
  - by exists O, y.
  - destruct IH as (i & x & Hx & Hf); [lia|]. by exists (S i), x.
Qed.

Lemma rep_lookup b l i c : rep b l -> clients b !! i = Some c -> exists x, l !! i = Some x /\ c = client_at x.
Proof.
  intros Hr. rewrite (rep_clients b l Hr), list_lookup_fmap. intros (x & Hx & ->)%fmap_Some. eauto.
Qed.

Lemma rep_update b l i x y p c dc df :
  rep b l -> l !! i = Some x -> c = client_at y -> dc = fresh x - fresh y -> df = unfinished x - unfinished y ->
  (forall j z, <[i := y]> l !! j = Some z -> stage_ok p j z.2) -> (forall j, p = Sending j -> (j <= length l)%nat) ->
  rep (set_pc (set_client b i c dc df) p) (<[i := y]> l).
Proof.
  intros [Hc Hs Hj Hco Hfi] Hx -> -> -> Hst Hp. split; simpl; try done.
  - rewrite Hc. symmetry. apply list_fmap_insert.
  - intros j Hpj. rewrite length_insert. by apply Hp.
  - rewrite (zsum_insert _ _ _ _ _ Hx), Hco. lia.
  - rewrite (zsum_insert _ _ _ _ _ Hx), Hfi. lia.
Qed.

Lemma set_pc_same b i c dc df : set_pc (set_client b i c dc df) (at_ b) = set_client b i c dc df.
Proof. done. Qed.

Lemma same_loops (l : list (Z * stage)) i x y : l !! i = Some x -> y.1 = x.1 -> map fst (<[i := y]> l) = map fst l.
Proof. intros Hx Hy. rewrite list_fmap_insert. apply list_insert_id. by rewrite list_lookup_fmap, Hx, Hy. Qed.

(** One client moves on while [main] stays where it is. *)
Lemma rep_client b l i x y c dc df :
  rep b l -> l !! i = Some x -> c = client_at y -> dc = fresh x - fresh y -> df = unfinished x - unfinished y ->
  stage_ok (at_ b) i y.2 -> rank y < rank x -> y.1 = x.1 ->
  rep (set_client b i c dc df) (<[i := y]> l) /\ measure (set_client b i c dc df) (<[i := y]> l) < measure b l /\
  map fst (<[i := y]> l) = map fst l.
Proof.
  intros Hr Hx Hc Hdc Hdf Hok Hrank Hfst. split_and!; [| |by eapply same_loops].
  - rewrite <- set_pc_same. eapply rep_update; try done; [|by apply Hr].
    intros j z [(<- & -> & _)|[_ Hz]]%list_lookup_insert_Some; [done|]. by apply (rep_stages b l Hr).
  - unfold measure. rewrite (zsum_insert _ _ _ _ _ Hx), length_insert. simpl. lia.
Qed.

Lemma connect_rep b l i :
  rep b l -> enabled b (Connect i) ->
  exists b' l', exec services b (Connect i) = Ok b' /\ rep b' l' /\ measure b' l' < measure b l /\ map fst l' = map fst l.
Proof.
  intros Hr (Hex & c & Hc & _ & Hconn). destruct (rep_lookup b l i c Hr Hc) as ([lp st] & Hx & ->).
  assert (st = Fresh) as -> by (destruct st; done). pose proof (rep_stages b l Hr i _ Hx) as Hok.
  simpl. rewrite Hc. cbn [deref]. rewrite bind_ok. do 2 eexists. split; [done|].
  eapply (rep_client b l i _ (lp, Idle)); try done.
  revert Hok. unfold stage_ok. simpl. destruct (at_ b); try done; [by right|]. by case_decide.
Qed.

(** Stages with a message under way. *)
Lemma started_between b l i x k :
  rep b l -> l !! i = Some x -> x.2 = Asking k \/ x.2 = Answering k ->
  0 <= k < kRequests /\ forall st, started st -> stage_ok (at_ b) i st.
Proof.
  intros Hr Hx Hk. pose proof (rep_stages b l Hr i x Hx) as Hok. unfold stage_ok in *.
  destruct (at_ b); [| |by destruct Hk as [E|E]; rewrite E in Hok|by destruct Hk as [E|E]; rewrite E in Hok].
  - by destruct Hk as [E|E]; rewrite E in Hok; destruct Hok.
  - case_decide; by destruct Hk as [E|E]; rewrite E in Hok.
Qed.

Lemma server_rep b l i :
  rep b l -> enabled b (ServerReads i) ->
  exists b' l', exec services b (ServerReads i) = Ok b' /\ rep b' l' /\ measure b' l' < measure b l /\ map fst l' = map fst l.
Proof.
  intros Hr (_ & c & Hc & Hup). destruct (rep_lookup b l i c Hr Hc) as ([lp st] & Hx & ->).
  assert (exists k, st = Asking k) as [k ->] by (destruct st; try done; by eexists).
  destruct (started_between b l i _ k Hr Hx ltac:(by left)) as [Hk Hok].
  simpl. rewrite Hc. cbn [deref]. rewrite bind_ok, serve_at, bind_ok. do 2 eexists. split; [done|].
  apply (rep_client b l i (lp, Asking k) (lp, Answering k)); try done; [by apply Hok|unfold rank; simpl; lia].
Qed.

Lemma client_rep b l i :
  rep b l -> enabled b (ClientReads i) ->
  exists b' l', exec services b (ClientReads i) = Ok b' /\ rep b' l' /\ measure b' l' < measure b l /\ map fst l' = map fst l.
Proof.
  intros Hr (_ & c & Hc & _ & Hdown). destruct (rep_lookup b l i c Hr Hc) as ([lp st] & Hx & ->).
  assert (exists k, st = Answering k) as [k ->] by (destruct st; try done; by eexists).
  destruct (started_between b l i _ k Hr Hx ltac:(by right)) as [Hk Hok].
  simpl. rewrite Hc. cbn [deref]. rewrite bind_ok, (read_at lp k Hk), bind_ok. do 2 eexists. split; [done|].
  apply (rep_client b l i (lp, Answering k) (lp, (next k).1)); try done; unfold next;
    destruct (Z.ltb_spec (k + 1) kRequests) as [Hlt|Hge]; try done.
  - apply Hok. simpl. lia.
  - by apply Hok.
  - unfold rank. simpl. lia.
  - unfold rank. simpl. lia.
Qed.

(** [main] moves on without touching the clients. *)
Lemma rep_main b l p :
  rep b l -> (forall i x, l !! i = Some x -> stage_ok p i x.2) -> (forall j, p = Sending j -> (j <= length l)%nat) ->
  pc_rank p (length l) < pc_rank (at_ b) (length l) ->
  rep (set_pc b p) l /\ measure (set_pc b p) l < measure b l /\ map fst l = map fst l.
Proof. intros [Hc Hs Hj Hco Hfi] Hp Hpj Hlt. split_and!; [by split| |done]. unfold measure. simpl. lia. Qed.

Lemma main_rep b l :
  rep b l -> enabled b Main -> exists b' l', exec services b Main = Ok b' /\ rep b' l' /\ measure b' l' < measure b l /\ map fst l' = map fst l.
Proof.
  intros Hr [Hex Hen]. simpl. unfold main_step. pose proof (rep_stages b l Hr) as Hst.
  destruct (at_ b) as [|j| |] eqn:Ep; [| | |done].
  - rewrite (proj2 (Z.ltb_ge _ _)) by lia. do 2 eexists. split; [done|]. apply rep_main; try done.
    + intros i x Hx. simpl. destruct (Hst i x Hx) as [E|E]; [exfalso|done].
      rewrite (rep_connected b l Hr) in Hen.
      pose proof (zsum_zero fresh l i x ltac:(intros [? []]; done) Hen Hx) as Hf. unfold fresh in Hf. by rewrite E in Hf.
    + intros j [= <-]. lia.
    + rewrite Ep. simpl. lia.
  - destruct (clients b !! j) as [c|] eqn:Hc.
    + destruct (rep_lookup b l j c Hr Hc) as ([lp st] & Hx & ->). pose proof (Hst j _ Hx) as Hok.
      unfold stage_ok in Hok. rewrite decide_False in Hok by lia. simpl in Hok. subst st.
      pose proof (send_at lp 0 ltac:(unfold kRequests; lia)) as Es. unfold answered in Es. simpl in Es.
      change (client_at (lp, Idle)) with (mk (channel_after 0 false) true 0 lp (Some server_end) [] [] []).
      rewrite Es, bind_ok. eexists _, (<[j := (lp, Asking 0)]> l). split; [done|]. pose proof (lookup_lt_Some _ _ _ Hx) as Hlt.
      split_and!; [| |by eapply same_loops].
      * apply (rep_update b l j (lp, Idle) (lp, Asking 0)); try done; [|intros j' [= <-]; lia].
        intros i z [(<- & <- & _)|[Hne Hz]]%list_lookup_insert_Some; simpl.
        { rewrite decide_True by lia. unfold kRequests. simpl. lia. }
        pose proof (Hst i z Hz) as Hok. simpl in Hok. repeat case_decide; (done || lia).
      * unfold measure. rewrite (zsum_insert _ _ _ _ _ Hx), length_insert, Ep. unfold rank. simpl. lia.
    + do 2 eexists. split; [done|]. rewrite (rep_clients b l Hr) in Hc. apply lookup_ge_None in Hc.
      rewrite length_map in Hc. pose proof (rep_sending b l Hr j Ep). apply rep_main; try done.
      * intros i x Hx. pose proof (Hst i x Hx) as Hok. simpl in *. apply lookup_lt_Some in Hx.
        by rewrite decide_True in Hok by lia.
      * rewrite Ep. simpl. lia.
  - rewrite (proj2 (Z.ltb_ge _ _)) by lia. do 2 eexists. split; [done|]. apply rep_main; try done.
    + intros i x Hx. simpl. rewrite (rep_finished b l Hr) in Hen.
      pose proof (zsum_zero unfinished l i x ltac:(intros [? []]; done) Hen Hx) as Hf. unfold unfinished in Hf.
      by destruct x as [lp []].
    + by rewrite Ep.
Qed.

Lemma exec_rep b l m :
  rep b l -> enabled b m -> exists b' l', exec services b m = Ok b' /\ rep b' l' /\ measure b' l' < measure b l /\ map fst l' = map fst l.
Proof. destruct m; eauto using connect_rep, server_rep, client_rep, main_rep. Qed.

Lemma client_loop x : loop_ (client_at x) = x.1.
Proof. by destruct x as [lp []]. Qed.

(** As long as [main] has not ended something can happen, if the loops of the clients run. *)
Lemma bench_progress b l :
  rep b l -> (forall i x, l !! i = Some x -> x.1 <> base b) -> at_ b <> Exited -> exists m, enabled b m.
Proof.
  intros Hr Hrun Hex. destruct (at_ b) as [|j| |] eqn:Ep; [| | |done].
  - destruct (decide (allConnected b <= 0)) as [Hz|Hz]; [exists Main; split; by rewrite Ep|].
    rewrite (rep_connected b l Hr) in Hz. destruct (zsum_pos fresh l ltac:(lia)) as (i & [lp st] & Hx & Hf).
    exists (Connect i). split; [by rewrite Ep|]. exists (client_at (lp, st)). rewrite (rep_clients b l Hr), list_lookup_fmap, Hx.
    split; [done|]. rewrite client_loop. split; [by apply (Hrun i (lp, st))|]. by destruct st.
  - exists Main. split; by rewrite Ep.
  - destruct (decide (allFinished b <= 0)) as [Hz|Hz]; [exists Main; split; by rewrite Ep|].
    rewrite (rep_finished b l Hr) in Hz. destruct (zsum_pos unfinished l ltac:(lia)) as (i & [lp st] & Hx & Hf).
    pose proof (rep_stages b l Hr i _ Hx) as Hok. rewrite Ep in Hok.
    destruct st as [| |k|k|]; try done; [exists (ServerReads i)|exists (ClientReads i)];
      (split; [by rewrite Ep|]); eexists; rewrite (rep_clients b l Hr), list_lookup_fmap, Hx; [done|].
    split; [done|]. rewrite client_loop. split; [by apply (Hrun i (lp, Answering k))|done].
Qed.

Lemma exec_base b m b' : exec services b m = Ok b' -> base b' = base b.
Proof.
  assert (forall (c : outcome RpcClient) (f : RpcClient -> t),
    (forall c, base (f c) = base b) -> (c ← c ; mret (f c)) = Ok b' -> base b' = base b) as Hput.
  { intros [c|e] f Hf; simpl; [|done]. intros [= <-]. apply Hf. }
  destruct m as [i| |i|i]; cbn [exec].
  - destruct (clients b !! i); [|done]. simpl. by intros [= <-].
  - unfold main_step. destruct (at_ b); [intros [= <-]; by case_match| |intros [= <-]; by case_match|by intros [= <-]].
    destruct (clients b !! i); [by apply Hput|by intros [= <-]].
  - destruct (clients b !! i); [|done]. cbn [deref]. rewrite bind_ok. by apply Hput.
  - destruct (clients b !! i); [|done]. cbn [deref]. rewrite bind_ok.
    destruct (client_reads _) as [[c' k]|]; simpl; [|done]. by intros [= <-].
Qed.

Lemma steps_base k b b' : nsteps (step services) k b b' -> base b' = base b.
Proof. induction 1 as [|k b1 b2 b3 (m & _ & E) _ IH]; [done|]. rewrite IH. by eapply exec_base. Qed.

(** With every client on the loop of [main] nothing ever happens. *)
Lemma bench_blocked b l m :
  rep b l -> at_ b = WaitConnected -> l <> [] -> Forall (fun x => x = (base b, Fresh)) l -> ~ enabled b m.
Proof.
  intros Hr Hp Hne Hall [_ Hen].
  assert (forall i c, clients b !! i = Some c -> c = new (base b)) as Hc.
  { intros i c Hi. destruct (rep_lookup b l i c Hr Hi) as (x & Hx & ->). by rewrite (Forall_lookup_1 _ _ _ _ Hall Hx). }
  destruct m as [i| |i|i]; [destruct Hen as (c & Hi & Hl & _)| |destruct Hen as (c & Hi & Hl)|destruct Hen as (c & Hi & Hl & _)];
    try (by rewrite (Hc i c Hi) in Hl).
  rewrite Hp, (rep_connected b l Hr) in Hen. destruct l as [|x l]; [done|]. apply Forall_cons in Hall as [-> Hall].
  simpl in Hen. assert (0 <= zsum fresh l) as Hpos; [|unfold fresh at 1 in Hen; simpl in Hen; lia].
  clear. induction l as [|[lp st] l IH]; simpl; [lia|]. unfold fresh at 1. simpl. destruct st; lia.
Qed.

Lemma measure_nonneg b l : rep b l -> 0 <= measure b l.
Proof.
  intros Hr. unfold measure. assert (0 <= zsum rank l) as Hz.
  { assert (Forall (fun x => 0 <= rank x) l) as Hf%zsum_lower; [|lia]. apply Forall_lookup. intros i x Hx.
    pose proof (rep_stages b l Hr i x Hx) as Hok. unfold rank, kRequests in *.
    destruct x as [lp st]. destruct st; simpl in *; try lia;
      unfold stage_ok in Hok; destruct (at_ b); try case_decide; try (destruct Hok; done);
      unfold started, kRequests in Hok; try lia; done. }
  pose proof (rep_sending b l Hr). destruct (at_ b) as [|j| |]; simpl; try lia. specialize (H1 j eq_refl). lia.
Qed.

Lemma steps_rep k b b' l :
  rep b l -> nsteps (step services) k b b' -> exists l', rep b' l' /\ Z.of_nat k + measure b' l' <= measure b l /\ map fst l' = map fst l.
Proof.
  intros Hr Hk. revert l Hr. induction Hk as [b|k b1 b2 b3 (m & Hm & E) _ IH]; intros l Hr; [exists l; split_and!; [done|lia|done]|].
  destruct (exec_rep b1 l m Hr Hm) as (b2' & l2 & E' & Hr2 & Hlt & Hf). rewrite E in E'. injection E' as <-.
  destruct (IH l2 Hr2) as (l3 & Hr3 & Hle & Hf3). exists l3. split_and!; [done|lia|congruence].
Qed.

(** ** Starting *)
Lemma create_ok n p k :
  EventLoopThreadPool.ok p -> 0 <= k ->
  (EventLoopThreadPool.loops_ p <> [] -> EventLoopThreadPool.next_ p = k mod zlen (EventLoopThreadPool.loops_ p)) ->
  create n p = Ok (map (fun i => new (EventLoopThreadPool.choice p (k + Z.of_nat i))) (seq 0 n)).
Proof.
  revert p k. induction n as [|n IH]; intros p k Hok Hk Hcur; [done|]. simpl.
  destruct (EventLoopThreadPool.getNextLoop_spec p k Hok Hk Hcur) as (p' & -> & Hok' & Hl & Hb & Hcur').
  rewrite bind_ok. cbn [fst snd]. rewrite (IH p' (k + 1)); [|done|lia|done]. rewrite bind_ok.
  rewrite Z.add_0_r. f_equal. f_equal. rewrite <- seq_shift, map_map. apply map_ext. intros i.
  unfold EventLoopThreadPool.choice. rewrite Hl, Hb. by replace (k + 1 + Z.of_nat i) with (k + Z.of_nat (S i)) by lia.
Qed.

Definition loop_of (loop : Z) (startLoop : nat -> Z) (nThreads : Z) (i : nat) : Z :=
  if nThreads =? 0 then loop else startLoop (i mod Z.to_nat nThreads)%nat.

Lemma launch_ok loop startLoop args nClients nThreads :
  nClients = default 1 (args !! 0%nat) -> nThreads = default 1 (args !! 1%nat) ->
  0 <= nClients -> 0 <= nThreads < 2 ^ 31 ->
  exists b, launch loop startLoop args = Ok b /\
    rep b (map (fun i => (loop_of loop startLoop nThreads i, Fresh)) (seq 0 (Z.to_nat nClients))) /\
    at_ b = WaitConnected /\ base b = loop.
Proof.
  intros Hn Ht Hn0 Ht0. unfold launch. rewrite <- Hn, <- Ht.
  destruct (EventLoopThreadPool.start_ok false startLoop
    (EventLoopThreadPool.setThreadNum (EventLoopThreadPool.new loop (str "rpcbench-client")) nThreads))
    as (p & cbs & -> & Hok & Hnext & Hloops & Hbase); [done..|].
  rewrite bind_ok. cbn [fst]. rewrite (create_ok _ p 0); [|done|lia|by rewrite Hnext]. rewrite bind_ok.
  eexists. split; [done|]. split; [|done].
  assert (forall f m, (forall i : nat, f (loop_of loop startLoop nThreads i, Fresh) = 1) ->
    zsum f (map (fun i => (loop_of loop startLoop nThreads i, Fresh)) (seq m (Z.to_nat nClients))) = nClients) as Hsum.
  { intros f m Hf. rewrite <- (Z2Nat.id nClients) at 2 by done. generalize (Z.to_nat nClients). intros n.
    revert m. induction n as [|n IH]; intros m; [done|]. simpl. rewrite Hf, IH. lia. }
  split; cbn [clients at_ allConnected allFinished]; try done.
  - rewrite map_map. apply map_ext. intros i. unfold client_at. cbn [fst snd].
    f_equal. unfold EventLoopThreadPool.choice, loop_of. rewrite Hloops, Hbase, Z.add_0_l. unfold zlen.
    cbn [EventLoopThreadPool.numThreads_ EventLoopThreadPool.setThreadNum]. rewrite length_map, length_seq.
    destruct (Z.eqb_spec nThreads 0) as [->|Hne]; [done|]. rewrite <- Nat2Z.inj_mod, Nat2Z.id.
    pose proof (Nat.mod_upper_bound i (Z.to_nat nThreads) ltac:(lia)).
    by rewrite list_lookup_fmap, lookup_seq_lt.
  - intros i x Hx. rewrite list_lookup_fmap in Hx. apply fmap_Some in Hx as (j & _ & ->). by left.
  - symmetry. by apply Hsum.
  - symmetry. by apply Hsum.
Qed.

Lemma launch_measure b (f : nat -> Z) n :
  at_ b = WaitConnected -> 0 <= n ->
  measure b (map (fun i => (f i, Fresh)) (seq 0 (Z.to_nat n))) = n * (2 * kRequests + 3) + 4.
Proof.
  intros Hp Hn. unfold measure. rewrite Hp, length_map, length_seq. simpl.
  assert (forall m k, zsum rank (map (fun i => (f i, Fresh)) (seq m k)) = Z.of_nat k * (2 * kRequests + 2)) as ->.
  { intros m k. revert m. induction k as [|k IH]; intros m; [done|]. 
    change (rank (f m, Fresh) + zsum rank (map (fun i => (f i, Fresh)) (seq (S m) k)) = Z.of_nat (S k) * (2 * kRequests + 2)).
    rewrite IH. unfold rank. cbn [snd]. lia. }
  unfold kRequests. lia.
Qed.

(** The product printed at the end is computed in [int]. *)
Lemma total_calls_exact nClients : 0 <= nClients <= 42949 -> total_calls nClients = nClients * kRequests.
Proof. intros Hn. unfold total_calls, kRequests. apply swrap_small; [lia|]. unfold in_int. simpl. lia. Qed.
Example total_calls_overflow : total_calls 42950 = -2147467296.
Proof. vm_compute. reflexivity. Qed.
End laws.
End program.

(** C27. The benchmark completes: with any number of clients and at least one thread for
    them, against a server that is up, in every interleaving of connections coming up,
    messages arriving at either end and the main program, no operation fails (no request
    before the connection is there, no assertion), the number of steps is bounded, and as
    long as the main program has not exited some step is possible.  When it exits every
    client has made exactly [kRequests] calls, one at a time, and each was answered by
    the payload sent.  Without threads the clients are on the loop of [main], which never
    runs: nothing can happen, and [main] waits for the connections for ever. *)
Theorem bench_completes `{WireLaws EchoRequest} `{WireLaws EchoResponse}
    loop startLoop args nClients nThreads b0 k b :
  nClients = default 1 (args !! 0%nat) -> nThreads = default 1 (args !! 1%nat) ->
  0 <= nClients -> 0 <= nThreads < 2 ^ 31 -> (forall i, startLoop i <> loop) ->
  launch loop startLoop args = Ok b0 -> nsteps (step services) k b0 b ->
  Z.of_nat k <= nClients * (2 * kRequests + 3) + 4 /\
  (forall m, enabled b m -> succeeds (exec services b m)) /\
  (0 < nThreads -> at_ b <> Exited -> exists m, enabled b m) /\
  (at_ b = Exited -> zlen (clients b) = nClients /\ forall i c, clients b !! i = Some c ->
     count_ c = kRequests /\ id_ (channel_ c) = kRequests /\ outstandings_ (channel_ c) = ∅ /\
     up c = [] /\ down c = [] /\ loop_ c = loop_of loop startLoop nThreads i /\
     replies c = replicate (Z.to_nat kRequests) (Some {| resp_payload := str "001010" |})) /\
  (nThreads = 0 -> 0 < nClients -> at_ b = WaitConnected /\ forall m, ~ enabled b m).
Proof.
  intros Hn Ht Hn0 Ht0 Hloops E Hk.
  destruct (launch_ok loop startLoop args nClients nThreads Hn Ht Hn0 Ht0) as (b1 & E1 & Hr & Hp & Hbase).
  rewrite E in E1. injection E1 as <-. destruct (steps_rep k b0 b _ Hr Hk) as (l & Hl & Hle & Hf).
  pose proof (measure_nonneg b l Hl) as Hm. pose proof (steps_base k b0 b Hk) as Hb. rewrite Hbase in Hb.
  assert (zlen l = nClients) as Hlen.
  { apply (f_equal length) in Hf. rewrite !length_map, length_seq in Hf. unfold zlen. lia. }
  assert (forall i x, l !! i = Some x -> x.1 = loop_of loop startLoop nThreads i) as Hx1.
  { intros i x Hx. apply (f_equal (fun k => k !! i)) in Hf. rewrite map_map in Hf. rewrite !list_lookup_fmap, Hx in Hf.
    pose proof (lookup_lt_Some _ _ _ Hx). rewrite lookup_seq_lt in Hf by (unfold zlen in Hlen; lia). by injection Hf as ->. }
  split_and!.
  - rewrite (launch_measure b0 _ nClients Hp Hn0) in Hle. lia.
  - intros m Hen. destruct (exec_rep b l m Hl Hen) as (b' & _ & Eb & _). by exists b'.
  - intros Hpos. eapply bench_progress; [done|]. intros i x Hx. rewrite (Hx1 i x Hx), Hb. unfold loop_of.
    rewrite (proj2 (Z.eqb_neq _ 0)) by lia. apply Hloops.
  - intros Hexit. rewrite (rep_clients b l Hl). unfold zlen in *. rewrite length_map. split; [done|].
    intros i c Hc. rewrite list_lookup_fmap in Hc. apply fmap_Some in Hc as ([lp st] & Hx & ->).
    pose proof (rep_stages b l Hl i _ Hx) as Hok. rewrite Hexit in Hok. simpl in Hok. subst st.
    pose proof (Hx1 i _ Hx). by split_and!.
  - intros Hz Hpos. assert (forall m, ~ enabled b0 m) as Hno.
    { intros m. eapply bench_blocked; [exact Hr|done|..].
      - destruct (Z.to_nat nClients) eqn:En; [lia|done].
      - apply Forall_map, Forall_forall. intros i _. unfold loop_of. by rewrite Hz, Hbase. }
    inversion Hk as [|? ? b2 ? (m & Hen & _)]; subst; [done|]. by destruct (Hno m).
Qed.

(** Two clients on two loops; the first has been connected. *)
#[local] Instance plain_request : Wire EchoRequest :=
  {| Serialize := req_payload; Parse := fun b => Some (mk_request b) |}.
#[local] Instance plain_response : Wire EchoResponse :=
  {| Serialize := resp_payload; Parse := fun b => Some (mk_response b) |}.
#[local] Instance plain_request_laws : WireLaws EchoRequest.
Proof. by intros []. Qed.
#[local] Instance plain_response_laws : WireLaws EchoResponse.
Proof. by intros []. Qed.

Definition demo0 : t := ok_or (mk_bench [] Exited 0 0 9) (launch 9 (fun i => 100 + Z.of_nat i) [2; 2]).
Definition demo1 : t := ok_or demo0 (exec services demo0 (Connect 0)).

Lemma demo_step : step services demo0 demo1.
Proof. exists (Connect 0). split; [|reflexivity]. split; [discriminate|]. exists (new 100).
  split; [reflexivity|]. split; [discriminate|reflexivity]. Qed.

Lemma bench_completes_witness :
  1 <= 2 * (2 * kRequests + 3) + 4 /\ (forall m, enabled demo1 m -> succeeds (exec services demo1 m)) /\
  map loop_ (clients demo1) = [100; 101].
Proof.
  destruct (bench_completes 9 (fun i => 100 + Z.of_nat i) [2; 2] 2 2 demo0 1 demo1) as (H1 & H2 & _);
    [reflexivity|reflexivity|lia|lia|lia|reflexivity|exact (nsteps_once _ _ demo_step)|].
  split; [exact H1|]. split; [exact H2|reflexivity].
Defined.
End EchoBench.

(** ** The sudoku client and server *)
Module Sudoku.
Import RpcChannel.

Record SudokuRequest := mk_request { req_checkboard : bytes }.
Record SudokuResponse := mk_response { solved : bool; resp_checkboard : bytes }.
#[global] Instance SudokuResponse_eq_dec : EqDecision SudokuResponse.
Proof. solve_decision. Defined.

Definition service_name : bytes := str "sudoku.SudokuService".
Definition method_name : bytes := str "Solve".

(** [SudokuServiceImpl::Solve]. *)
Definition Solve (request : SudokuRequest) : SudokuResponse :=
  {| solved := true; resp_checkboard := str "12345678" |}.

Section program.
Context `{Wire SudokuRequest} `{Wire SudokuResponse}.

Definition sudoku_service : Service :=
  {| full_name := service_name;
     FindMethodByName := fun m => if decide (m = method_name) then Some (parses SudokuRequest) else None |}.

(** The services [main] of the server registers. *)
Definition services : RpcServer.t := RpcServer.registerService RpcServer.new sudoku_service.

(** [main] of the server, up to its loop. *)
Definition server_main {HO : HostOrder} `{InetText} (mem : bytes) (loop idleFd : Z) (startLoop : nat -> Z)
  : outcome (TcpServer.t * RpcServer.t) :=
  ipPort ← InetAddress.toIpPort (InetAddress.new mem 9981 false false) ;
  server ← TcpServer.start false startLoop (TcpServer.new loop ipPort (str "RpcServer") idleFd) ;
  mret (server, services).

(** Without threads every connection is served by the loop of [main]. *)
Lemma server_main_loop {HO : HostOrder} `{InetText} mem loop idleFd startLoop s sv k :
  server_main mem loop idleFd startLoop = Ok (s, sv) ->
  sv = services /\ Acceptor.isListening_ (TcpServer.acceptor_ s) = true /\
  EventLoopThreadPool.choice (TcpServer.threadPool_ s) k = loop.
Proof.
  unfold server_main. destruct (InetAddress.toIpPort _) as [ip|]; [|done]. rewrite bind_ok.
  unfold TcpServer.start, EventLoopThreadPool.start. simpl. intros E. injection E as <- <-.
  split_and!; done.
Qed.

Definition answer (e : event) : list RpcMessage :=
  match e with
  | Send m => [m]
  | Invoke i _ _ request =>
      match Parse (A := SudokuRequest) request with
      | Some req => RpcSystem.sends [doneCallback (Serialize (Solve req)) i]
      | None => []
      end
  | RunDone _ _ _ => []
  end.

(** [RpcClient] with the server's end, the messages under way, whether [disconnect] has
    been called, whether the loop has been told to quit, and the responses logged. *)
Record RpcClient := mk {
  channel_ : RpcChannel.t;
  conn_ : bool;
  peer : option RpcChannel.t;
  up : list RpcMessage;
  down : list RpcMessage;
  disconnected : bool;
  quit : bool;
  logged : list (option SudokuResponse);
}.

Definition new : RpcClient := mk RpcChannel.new false None [] [] false false [].

(** [onConnection], with the server's for the same connection. *)
Definition onConnection (c : RpcClient) (connected : bool) : RpcClient :=
  if connected then
    let r := CallMethod (channel_ c) service_name method_name
               (Serialize {| req_checkboard := str "001010" |}) (Some 0) (Some 0) in
    mk r.1 true (RpcServer.onConnection services true) (up c ++ RpcSystem.sends r.2) (down c)
      (disconnected c) (quit c) (logged c)
  else mk (channel_ c) (conn_ c) (peer c) (up c) (down c) (disconnected c) true (logged c).

(** [solved] *)
Definition solved_callback (c : RpcClient) (response : option SudokuResponse) : RpcClient :=
  mk (channel_ c) (conn_ c) (peer c) (up c) (down c) true (quit c) (logged c ++ [response]).

Definition server_reads (c : RpcClient) : outcome RpcClient :=
  s ← deref (peer c) ;
  match up c with
  | [] => mret c
  | m :: ms =>
      r ← onRpcMessage true s m ;
      mret (mk (channel_ c) (conn_ c) (Some r.1) ms (down c ++ concat (map answer r.2)) (disconnected c) (quit c) (logged c))
  end.

Fixpoint run_closures (c : RpcClient) (es : list event) : RpcClient :=
  match es with
  | [] => c
  | RunDone _ _ payload :: es => run_closures (solved_callback c (b ← payload ; Parse b)) es
  | _ :: es => run_closures c es
  end.

Definition client_reads (c : RpcClient) : outcome RpcClient :=
  match down c with
  | [] => mret c
  | m :: ms =>
      r ← onRpcMessage true (channel_ c) m ;
      mret (run_closures (mk r.1 (conn_ c) (peer c) (up c) ms (disconnected c) (quit c) (logged c)) r.2)
  end.

(** The connection comes up; it goes down when the client has disconnected. *)
Inductive move := Connected | ServerReads | ClientReads | Disconnected.

Definition exec (c : RpcClient) (m : move) : outcome RpcClient :=
  match m with
  | Connected => mret (onConnection c true)
  | ServerReads => server_reads c
  | ClientReads => client_reads c
  | Disconnected => mret (onConnection c false)
  end.

Definition enabled (c : RpcClient) (m : move) : Prop :=
  quit c = false /\
  match m with
  | Connected => conn_ c = false
  | ServerReads => up c <> []
  | ClientReads => down c <> []
  | Disconnected => disconnected c = true
  end.

Definition step (c c' : RpcClient) : Prop := exists m, enabled c m /\ exec c m = Ok c'.

(** The states, in order. *)
Definition server_end : RpcChannel.t := RpcChannel.setServices RpcChannel.new (RpcServer.services_ services).
Definition reply : SudokuResponse := {| solved := true; resp_checkboard := str "12345678" |}.
Definition waiting : RpcChannel.t :=
  {| id_ := 1; outstandings_ := {[ 1 := mk_call (Some 0) (Some 0) ]}; services_ := None |}.
Definition idle : RpcChannel.t := {| id_ := 1; outstandings_ := ∅; services_ := None |}.
Definition request_message : RpcMessage :=
  {| type := REQUEST; id := 1; service := Some service_name; method := Some method_name;
     request := Some (Serialize {| req_checkboard := str "001010" |}); response := None; error := None |}.
Definition response_message : RpcMessage :=
  {| type := RESPONSE; id := 1; service := None; method := None; request := None;
     response := Some (Serialize reply); error := None |}.

Definition state_at (k : nat) : RpcClient :=
  match k with
  | 0%nat => new
  | 1%nat => mk waiting true (Some server_end) [request_message] [] false false []
  | 2%nat => mk waiting true (Some server_end) [] [response_message] false false []
  | 3%nat => mk idle true (Some server_end) [] [] true false [Some reply]
  | _ => mk idle true (Some server_end) [] [] true true [Some reply]
  end.

Definition move_at (k : nat) : move :=
  match k with 0%nat => Connected | 1%nat => ServerReads | 2%nat => ClientReads | _ => Disconnected end.

Section laws.
Context `{!WireLaws SudokuRequest} `{!WireLaws SudokuResponse}.

Lemma served : server_reads (state_at 1) = Ok (state_at 2).
Proof.
  unfold server_reads. cbn [state_at peer deref up]. rewrite bind_ok. unfold onRpcMessage, request_message.
  cbn [type]. rewrite assert_pass by done. unfold dispatch, server_end, RpcChannel.setServices. cbn [services_].
  unfold services, RpcServer.registerService, sudoku_service, get.
  cbn [RpcServer.services_ full_name service default from_option Datatypes.id].
  rewrite lookup_insert_eq. cbn [FindMethodByName method default from_option Datatypes.id]. rewrite decide_True by done.
  unfold parses. cbn [request default from_option Datatypes.id id]. rewrite parse_serialize.
  cbn [fst snd]. rewrite decide_True by done. unfold mret, outcome_ret. rewrite bind_ok.
  cbn [fst snd app map concat answer]. rewrite parse_serialize. done.
Qed.

Lemma answered : client_reads (state_at 2) = Ok (state_at 3).
Proof.
  unfold client_reads. cbn [state_at down channel_]. unfold onRpcMessage, response_message. cbn [type].
  rewrite assert_pass by done. unfold onResponse. cbn [response error id].
  rewrite bool_decide_true by (left; by eexists). rewrite assert_pass by done. unfold waiting. cbn [outstandings_].
  rewrite lookup_singleton_eq. cbn [default from_option Datatypes.id out_response out_done mret outcome_ret]. rewrite bind_ok.
  cbn [fst snd run_closures conn_ peer up down disconnected quit logged id_ services_].
  assert (forall r : SudokuResponse, (b ← Some (Serialize r) ; Parse b) = Some r) as Hp by (intros; apply parse_serialize).
  rewrite Hp, delete_singleton_eq. done.
Qed.

Lemma exec_at k : (k < 4)%nat -> enabled (state_at k) (move_at k) /\ exec (state_at k) (move_at k) = Ok (state_at (S k)).
Proof.
  intros Hk. do 4 (destruct k as [|k]; [split; [split; done|]; try (by apply served || by apply answered); try done|]).
  lia.
Qed.

Lemma enabled_at k m : (k <= 4)%nat -> enabled (state_at k) m -> (k < 4)%nat /\ m = move_at k.
Proof.
  intros Hk [Hq Hm]. destruct k as [|[|[|[|[|k]]]]]; destruct m; simpl in *; try done; try lia; split; try lia; done.
Qed.

Lemma steps_at n c : nsteps step n new c -> (n <= 4)%nat /\ c = state_at n.
Proof.
  intros Hn. change new with (state_at 0) in Hn.
  assert (forall n c k, (k <= 4)%nat -> nsteps step n (state_at k) c -> (k + n <= 4)%nat /\ c = state_at (k + n)) as Hall.
  { clear n c Hn. induction n as [|n IH]; intros c k Hk Hn.
    - inversion Hn; subst. rewrite Nat.add_0_r. done.
    - inversion Hn as [|? ? c2 ? (m & Hm & E) Hrest]; subst. destruct (enabled_at k m Hk Hm) as [Hlt ->].
      destruct (exec_at k Hlt) as [_ E']. rewrite E in E'. injection E' as ->.
      destruct (IH c (S k) ltac:(lia) Hrest) as [? ->]. split; [lia|]. f_equal. lia. }
  destruct (Hall n c O ltac:(lia) Hn) as [? ->]. split; [lia|done].
Qed.
End laws.
End program.

(** The sudoku client: every run of the client and its server makes exactly one
    call, logs the one answer and disconnects, and quits its loop when the connection is
    down; no operation fails, and until then the next step is possible. *)
Theorem sudoku_completes `{WireLaws SudokuRequest} `{WireLaws SudokuResponse} n c :
  nsteps step n new c ->
  (n <= 4)%nat /\ (forall m, enabled c m -> succeeds (exec c m)) /\
  (quit c = false -> exists m, enabled c m) /\
  (quit c = true -> logged c = [Some {| solved := true; resp_checkboard := str "12345678" |}] /\
     outstandings_ (channel_ c) = ∅ /\ id_ (channel_ c) = 1).
Proof.
  intros Hn. destruct (steps_at n c Hn) as [Hle ->]. split_and!; [done| | |].
  - intros m Hm. destruct (enabled_at n m Hle Hm) as [Hlt ->]. destruct (exec_at n Hlt) as [_ E]. by eexists.
  - intros Hq. destruct (decide (n < 4)%nat) as [Hlt|Hge]; [exists (move_at n); by apply exec_at|].
    by destruct n as [|[|[|[|n]]]]; try lia.
  - intros Hq. by destruct n as [|[|[|[|n]]]].
Qed.

#[local] Instance demo_request : Wire SudokuRequest :=
  {| Serialize := req_checkboard; Parse := fun b => Some (mk_request b) |}.
#[local] Instance demo_response : Wire SudokuResponse :=
  {| Serialize := fun r => (if solved r then str "1" else str "0") ++ resp_checkboard r;
     Parse := fun b => match b with x :: b => Some (mk_response (bool_decide (x = "1"%char)) b) | [] => None end |}.
#[local] Instance demo_request_laws : WireLaws SudokuRequest.
Proof. by intros []. Qed.
#[local] Instance demo_response_laws : WireLaws SudokuResponse.
Proof. by intros [[] r]. Qed.

Lemma sudoku_completes_witness :
  nsteps step 4 new (state_at 4) /\ logged (state_at 4) = [Some {| solved := true; resp_checkboard := str "12345678" |}].
Proof.
  assert (nsteps step 4 new (state_at 4)) as Hn.
  { change new with (state_at 0). do 4 (eapply nsteps_l; [eexists; by apply exec_at; lia|]). constructor. }
  split; [exact Hn|]. exact (proj1 (proj2 (proj2 (proj2 (sudoku_completes 4 (state_at 4) Hn))) eq_refl)).
Defined.
End Sudoku.
